(* ===== verification/_CoqProject ===== *)
-Q . S2P
Prelude.v
Loops.v
Conc.v
PyFloat.v
Drain.v
PyBytes.v
PyText.v
Json.v
Codec.v
Names.v
Backend.v
StrategyBase.v
Clock.v
Priority.v
RingBuffer.v
RoundRobin.v
Delay.v
TimeWheel.v
TimeWheelFacts.v
Throttle.v
WorkStealing.v
Membership.v
Bloom.v
Cuckoo.v
FilterFactory.v
CircuitBreaker.v
Batched.v
DupeFilter.v
DupeFilterFacts.v
DupeFilterAlone.v
DupeFilterContract.v
Identity.v
Envelope.v
Queue.v
QueueFacts.v
QueueClose.v
QueueCloseFacts.v
Generation.v
Snapshot.v
SnapshotFacts.v
QueueSnapshot.v
FilterProtocol.v
Scheduler.v
SchedulerFacts.v
SchedulerPolls.v
SchedulerStack.v
Settlement.v
SettlementFacts.v
SettlementRuns.v
Threads.v
Pipeline.v
PipelineFacts.v
PipelineRuns.v
