(* ===== verification/Prelude.v ===== *)
(** * scrapy-extension: verification library

    The repository is a distributed-crawling extension of Scrapy: the crawler's
    queue, duplicate filter and item storage live in an external backend (Redis,
    MongoDB, Kafka, ...), and the package supplies the local logic around it.
    This library models that local logic in Rocq and proves it correct.  Paths
    below are relative to src/src/scrapy_extension/.

    ** The parts and how they interact

    The scheduler takes a request, asks the duplicate filter, serializes the
    request and pushes it to a queue whose order is decided by a _queue
    strategy_ on top of a _backend_; strategies that hold items in memory keep
    them across restarts through the _snapshot repository_.  The duplicate
    filter sits on a _membership filter_ (memory LRU, backend set, Bloom,
    Cuckoo).  Items go through a _storage strategy_ (batched writes behind a
    circuit breaker).  Backend connections are shared through _generation
    leases_.

    ** Files

    Foundations
    - Prelude: exceptions, outcomes, the state-and-exception monad, record
      updates, generic lemmas.  Loops: [while] loops by binary iteration.
      Conc: methods that take locks, as programs of atomic sections, run alone
      ([run], [run_on]) or interleaved in a pool of calls ([pstep]), with the
      proof rules [wp] for an invariant of the shared state and [heads] for
      where a call stands.  PyFloat, PyBytes, PyText: Python numbers as
      binary64 of the Standard Library's SpecFloat, integers, bytes and UTF-8
      text.  Clock: the injected clocks.  Drain: utils/_drain.py.
    - Json, Codec: backends/_json_codec.py, the JSON value codec of the backends
      (bytes markers, escaping, refusal of secrets).
    - Names: queue/strategies/_names.py and core/types.py, physical names.
    - Backend: backends/base.py, the queue and storage interface ([Class]es)
      that the strategies are proved against.

    Queue strategies (queue/strategies/)
    - StrategyBase: base.py and passthrough.py (acknowledgement tokens, prepared
      pushes).  Priority, RingBuffer, RoundRobin, Delay, TimeWheel with
      TimeWheelFacts, Throttle, WorkStealing: the file of the same name.
    - Snapshot, SnapshotFacts: queue/snapshot.py, the chunked repository with
      its manifest commit, readers, writers, maintenance and collection.

    Membership and duplicates (dupefilter/)
    - Membership: the filter interface [MembershipFilter], its promise
      [NoFalseNegatives], the memory and backend-set filters.  Bloom, Cuckoo,
      FilterFactory: dupefilter/filters/ and the factory.
    - DupeFilter: dupefilter/dupefilter.py, both decision protocols, receipts,
      recovery ledger and lifecycle.  DupeFilterFacts: the invariant of all
      interleavings.  DupeFilterAlone: what each call computes when it runs
      alone.  DupeFilterContract: the properties the scheduler relies on.

    Backends and storage
    - CircuitBreaker: backends/circuit_breaker.py.  Generation:
      backends/_generation.py.  Batched: storage/ (direct and batched writes).


    Queue (queue/queue.py and utils/identity.py)
    - Identity: the key templates of queues and filters.
    - Envelope: the request envelope: writing, and reading with every refusal;
      requests (Scrapy) are a class.
    - Queue, QueueFacts: [BackendQueue] over a strategy interface
      ([QueueStrategy], [QueueStrategyLaws]): push with the hand-over of a
      broker delivery, pop with the fate of the delivery, sampling.
    - QueueClose, QueueCloseFacts: the operation gate and the close protocol
      under concurrency, over the interface [Lifecycle].
    - QueueSnapshot: the storage keys, persisting and restoring, over the
      repository of Snapshot.

    Scheduler (schedule/)
    - FilterProtocol: _dupefilter_compat.py, which filter methods may be used.
    - Scheduler: scheduler.py, the request path (enqueue_request, next_request,
      __len__, has_pending_requests) over the interface [Collaborators] of the
      queue and the filter; [backend_queue] puts the bundled queue behind it.
    - SchedulerFacts: what one call does, for every queue and filter, as a
      grammar of its journal of calls ([Journal], [call]): results, receipts,
      compensation.  SchedulerPolls: the depth gate over sequences of polls.
      SchedulerStack: the request path on top of the bundled duplicate filter.
    - Settlement: the settlement of broker deliveries by signals and errbacks,
      with the worker calls of utils/reactor.py, under concurrency.
      SettlementFacts: the invariant of all interleavings and what follows;
      where a call stands between starting a worker and registering it.
      SettlementRuns: how a committed output ends with its acknowledgement, with
      and without a running reactor; executable schedules.

    Item pipeline (pipeline/pipeline.py)
    - Threads: the interleavings of Conc in which a thread that is inside one
      call takes no step in another one, and their proof rules.
    - Pipeline: [BackendPipeline]: storing an item, the error budget, opening,
      admission and closing, and the chain of operations under a running
      reactor, over the interface [Services] of the strategy and the manager.
    - PipelineFacts: the invariant of all interleavings of calls that are not
      made from within a store.  PipelineRuns: its consequences, the outcomes of
      storing items, an undisturbed synchronous close, schedules of concurrent
      calls (with re-entrant closes too).
    A component is a Module: its state is a Record (usually [self]), one
    Definition or Fixpoint per method or critical section with the method's
    name, composed as the code composes them.  Concurrent components also have
    a step relation whose steps are the critical sections.

    ** What the theorems show

    - Ordering: each strategy serves what its name promises (first non-empty
      priority level, rotation of sources, releases in due order, own shard
      first, spaced pops) on every branch, and termination of its loops.
    - Conservation: no item is lost or duplicated by wheel commits, batched
      flushes, cuckoo kicks or snapshot commits, errors included.
    - Round trips: codec, snapshots of strategies, snapshot repository.
    - Exclusion and liveness of concurrent parts: breaker probes, generation
      handles, ack tokens, snapshot maintenance, duplicate-filter boundaries
      and slot accounting, in every reachable state.
    - Refinement: batched flush (against what the backend confirmed), snapshot
      commit, token settlement and the boolean duplicate-filter protocol
      implement abstract specifications.
    - Bounds: filter sizing and indices, name lengths, ledger limits.
    - Departures of the code from its own comments, each with a theorem or an
      executable example next to the component.

    ** Fuel and bounds

    Every bounded recursion has a theorem that its bound suffices, or mirrors a
    bound of the code: the Bloom rejection loop ends after at most 2^32+1 turns
    (its counter is a 4-byte encoding); bisection of a sorted list of n entries
    takes log2 n turns; the cuckoo insertion makes at most 500 kicks as in the
    code, its doubling loop at most the width of the size; the delay pop ends
    in one round more than its clock has readings before the deadline; the
    snapshot marker scanner decreases the remaining text; snapshot listings are
    pulled at most one past the limit 8192 of the code.  A drain of Drain is
    given the list of its wake-ups, after which it waits for its predicate.

    ** Modelling decisions

    - Code outside the repository is a parameter: the backend driver, SHA-256
      and BLAKE2s, log1p and expm1, the request fingerprinter, clocks, random
      identifiers and random slots, the JSON text parser of the manifest.
      Hypotheses on them state documented behaviour (a hash has its length, a
      listing returns stored keys) and have concrete instances.
    - heapq is its sorted contents with the stable order of the code's keys;
      OrderedDict and deque are lists; dict and set are finite maps and sets.
    - Objects compared by identity are numbers drawn from a counter.
    - A critical section is one atomic step.  Asynchronous signals
      (KeyboardInterrupt and the like) arrive where the code calls out or
      waits.
    - Logging, monitor callbacks and redaction have no influence on results
      and are left out, as are Python tracebacks.

    ** Not modelled

    - The concrete backends (clients of brokers and databases), the settings
      models, exception text and redaction, monitoring, Scrapy and Twisted
      glue: their behaviour is that of the drivers, or declarative, or without
      influence on results.
    - The connection manager: mostly calls of the backend drivers, whose
      exceptions and callbacks decide its behaviour.
    - Of the item pipeline: its factories, monitor hooks, time limits of the
      results its callers wait for.
    - Of the scheduler: opening and closing it, its factories, log records.
    - Of the backend queue: the argument checks of the constructor.
    - Of the modelled parts: the monitor FIFO and the factories of the
      duplicate filter, roll-back of container mutations interrupted by a
      signal in the time wheel, recursion limits of the codec, the flusher
      thread's timer of batched storage. *)

From Stdlib Require Export ZArith Lia Bool List.
From Stdlib.Strings Require Export Byte String Ascii.
From stdpp Require Export base list gmap strings sorting.
#[export] Set Default Goal Selector "!".
#[export] Set Warnings "-notation-overridden,-ambiguous-paths,-postfix-notation-not-level-1".
Open Scope Z_scope.

(** Python [bytes]; a Python [str] is carried as its UTF-8 encoding. *)
Abbreviation bytes := (list Byte.byte).

#[export] Instance byte_eq_dec : EqDecision Byte.byte := Byte.byte_eq_dec.

(** ** Exceptions

    The exceptions the modelled code raises or distinguishes.  [ECtl] stands
    for the process-control signals (KeyboardInterrupt, SystemExit,
    GeneratorExit), which derive from BaseException but not from Exception;
    [EPlugin] for any other ordinary exception of an injected object. *)
Inductive exn :=
  | EDecode  (* UnicodeDecodeError, json.JSONDecodeError: the ValueErrors of a text that does not parse *)
  | EValue | EType | EOverflow | EIndex | ERuntime | ENotImplemented
  | EQueue (operation : string)
  | EStorage (operation : string)
  | EBackpressure
  | EConfiguration
  | ERestore
  | EFilterFull
  | EBreakerOpen
  | EBackend
  | EConnection
  | EDurablePushRequired
  | EGenerationUnavailable
  | EAssertion
  | ETimeout (operation : string)
  | ESnapshot (message : string)
  | ESerialization
  | EPlugin (tag : nat)
  | ECtl (tag : nat).

#[export] Instance exn_eq_dec : EqDecision exn.
Proof. solve_decision. Defined.

(** [except Exception] catches everything but the process-control signals. *)
Definition is_ordinary (e : exn) : bool :=
  match e with ECtl _ => false | _ => true end.

(** The classes deriving from BackendError. *)
Definition backend_error (e : exn) : bool :=
  match e with
  | EQueue _ | EStorage _ | EBackpressure | EConfiguration | ERestore | EBreakerOpen
  | EBackend | EConnection | ETimeout _ | ESerialization => true
  | _ => false
  end.

(** ** Outcomes and the state-and-exception monad

    A Python statement that raises keeps the mutations made before it, so the
    state is returned on both branches. *)
Inductive outcome (A : Type) := Ok (a : A) | Raise (e : exn).
Arguments Ok {A} a.
Arguments Raise {A} e.

#[export] Instance outcome_eq_dec {A} `{EqDecision A} : EqDecision (outcome A).
Proof. solve_decision. Defined.

Definition M (S A : Type) := S -> outcome A * S.

Definition ret {S A} (a : A) : M S A := fun s => (Ok a, s).
Definition raise {S A} (e : exn) : M S A := fun s => (Raise e, s).
Definition bind {S A B} (m : M S A) (k : A -> M S B) : M S B :=
  fun s => match m s with
           | (Ok a, s') => k a s'
           | (Raise e, s') => (Raise e, s')
           end.
Definition get {S} : M S S := fun s => (Ok s, s).
Definition put {S} (s : S) : M S unit := fun _ => (Ok tt, s).
Definition modify {S} (f : S -> S) : M S unit := fun s => (Ok tt, f s).
(** A computation that only inspects values and may raise. *)
Definition lift {S A} (o : outcome A) : M S A := fun s => (o, s).
(** [try]: the outcome as a value; [try: m finally: q], an error of [q]
    replacing the outcome. *)
Definition attempt {S A} (m : M S A) : M S (outcome A) := fun s => let '(o, s') := m s in (Ok o, s').
Definition finally {S A} (m : M S A) (q : M S unit) : M S A := fun s =>
  let '(o, s1) := m s in
  match q s1 with (Ok _, s2) => (o, s2) | (Raise e, s2) => (Raise e, s2) end.

(** A computation on one component of a pair of states. *)
Definition on_fst {S T A : Type} (m : M S A) : M (S * T) A :=
  fun st => let '(s, t) := st in let '(o, s') := m s in (o, (s', t)).
Definition on_snd {S T A} (m : M T A) : M (S * T) A :=
  fun st => let '(s, t) := st in let '(o, t') := m t in (o, (s, t')).

Declare Scope py_scope.
Delimit Scope py_scope with py.
Notation "'let!' x := m 'in' k" := (bind m (fun x => k))
  (at level 10, x pattern, m at level 100, k at level 200) : py_scope.
Open Scope py_scope.

Create HintDb pynum.
Create Rewrite HintDb pybytes.

(** Sequencing on plain outcomes. *)
Definition obind {A B} (o : outcome A) (k : A -> outcome B) : outcome B :=
  match o with Ok a => k a | Raise e => Raise e end.
Definition omap {A B} (f : A -> B) (o : outcome A) : outcome B :=
  match o with Ok a => Ok (f a) | Raise e => Raise e end.

Definition is_ok {A} (o : outcome A) : bool :=
  match o with Ok _ => true | Raise _ => false end.

(** ** Record updates

    [r <| proj ::= f |>] applies [f] to one field and [r <| proj := v |>] sets
    it.  A record type declares its eta expansion as an instance of [Settable];
    the setter of each projection is then built by [derive_setter]. *)
Class Settable (R : Type) := eta : R -> R.
Class Setter {R T : Type} (proj : R -> T) := update : (T -> T) -> R -> R.

Ltac derive_setter R T proj :=
  exact (fun (f : T -> T) (r : R) => ltac:(
    let i := constr:(_ : Settable R) in
    let b := eval hnf in (i r) in
    match eval pattern (proj r) in b with
    | ?h _ => let t := eval cbv beta in (h (f (proj r))) in exact t
    end)).

#[export] Hint Extern 1 (@Setter ?R ?T ?proj) => derive_setter R T proj : typeclass_instances.

Notation "r <| proj ::= f |>" := (update (proj := proj) f r)
  (at level 12, f at level 200, left associativity) : py_scope.
Notation "r <| proj := v |>" := (update (proj := proj) (fun _ => v) r)
  (at level 12, v at level 200, left associativity) : py_scope.

(** ** Tactics *)

(** Linear arithmetic with division and modulo by constants. *)
Ltac zdm := Z.div_mod_to_equations; lia.

(** ** Inversion of monadic computations *)
Lemma bind_ok_inv {S A B} (m : M S A) (k : A -> M S B) s b s'' :
  bind m k s = (Ok b, s'') ->
  exists a s', m s = (Ok a, s') /\ k a s' = (Ok b, s'').
Proof. unfold bind. destruct (m s) as [[a|e] s']; [eauto|done]. Qed.

Lemma bind_inv {S A B} (m : M S A) (k : A -> M S B) s o s'' :
  bind m k s = (o, s'') ->
  (exists a s', m s = (Ok a, s') /\ k a s' = (o, s''))
  \/ (exists e, m s = (Raise e, s'') /\ o = Raise e).
Proof.
  unfold bind. destruct (m s) as [[a|e] s']; [eauto|].
  intros [= <- <-]. eauto.
Qed.

(** ** Inversion on pairs of states *)
Lemma on_fst_ok {S T A : Type} (m : M S A) s t a st' :
  @on_fst S T A m (s, t) = (Ok a, st') -> exists s', m s = (Ok a, s') /\ st' = (s', t).
Proof. cbn. destruct (m s) as [o s']. intros [= -> <-]. eauto. Qed.

Lemma on_snd_ok {S T A : Type} (m : M T A) (s : S) t a st' :
  @on_snd S T A m (s, t) = (Ok a, st') -> exists t', m t = (Ok a, t') /\ st' = (s, t').
Proof. cbn. destruct (m t) as [o t']. intros [= -> <-]. eauto. Qed.

Lemma lift_ok {S A} (o : outcome A) (s : S) a s' : lift o s = (Ok a, s') -> o = Ok a /\ s' = s.
Proof. by intros [= -> <-]. Qed.

Lemma on_snd_fst {S W A : Type} (m : M W A) (s : S) w o s' w' :
  @on_snd S W A m (s, w) = (o, (s', w')) -> s' = s /\ m w = (o, w').
Proof. cbn. destruct (m w) as [o1 w1]. by intros [= <- <- <-]. Qed.

Lemma obind_ok {A C} (o : outcome A) (k : A -> outcome C) c :
  obind o k = Ok c -> exists a, o = Ok a /\ k a = Ok c.
Proof. destruct o; [eauto|done]. Qed.

Lemma omap_ok {A C} (f : A -> C) (o : outcome A) c : omap f o = Ok c -> exists a, o = Ok a /\ c = f a.
Proof. destruct o; [|done]. intros [= <-]. eauto. Qed.

(** ** Sorted insertion

    Python's [heapq] on entries with distinct keys pops them in key order, so a
    heap is modelled by the sorted list of its entries: [heappush] is a sorted
    insertion, the root is the head, [heapify] and [sorted] are a sort. *)
Section Sorting.
Context {A : Type} (le : A -> A -> bool).

(** Insert behind every element not greater than [x]. *)
Fixpoint insert_by (x : A) (l : list A) : list A :=
  match l with
  | [] => [x]
  | y :: l' => if le y x then y :: insert_by x l' else x :: y :: l'
  end.

Fixpoint sort_by (l : list A) : list A :=
  match l with [] => [] | x :: l' => insert_by x (sort_by l') end.

Lemma insert_by_perm x l : Permutation (insert_by x l) (x :: l).
Proof.
  induction l as [|y l IH]; cbn; [done|]. destruct (le y x); [|done].
  rewrite IH. apply perm_swap.
Qed.

Lemma sort_by_perm l : Permutation (sort_by l) l.
Proof. induction l as [|x l IH]; cbn; [done|]. by rewrite insert_by_perm, IH. Qed.

Definition le_rel (x y : A) : Prop := le x y = true.

(** The order has to be total and transitive on the elements at hand only:
    [P] singles out the comparable ones (no NaN keys). *)
Variable P : A -> Prop.
Hypothesis le_total : forall x y, P x -> P y -> le x y = true \/ le y x = true.
Hypothesis le_trans : forall x y z, P x -> P y -> P z ->
  le x y = true -> le y z = true -> le x z = true.

Lemma insert_by_sorted x l :
  P x -> Forall P l -> StronglySorted le_rel l -> StronglySorted le_rel (insert_by x l).
Proof.
  intros Hx Hl Hs. induction Hs as [|y l Hs IH Hy]; cbn.
  - by repeat constructor.
  - apply Forall_cons in Hl as [Py Pl]. destruct (le y x) eqn:E.
    + constructor; [by apply IH|]. rewrite insert_by_perm. by constructor.
    + assert (Exy : le x y = true) by (destruct (le_total x y); congruence).
      constructor; [by constructor|]. constructor; [done|].
      rewrite Forall_forall in Hy, Pl |- *. intros z Hz.
      eapply (le_trans x y z); auto. by apply Hy.
Qed.

Lemma sort_by_sorted l : Forall P l -> StronglySorted le_rel (sort_by l).
Proof.
  induction 1 as [|x l Hx Hl IH]; cbn; [constructor|].
  apply insert_by_sorted; [done| |done]. by rewrite sort_by_perm.
Qed.

(** Inserting an element not smaller than any other appends it. *)
Lemma insert_by_last x l : Forall (fun y => le y x = true) l -> insert_by x l = l ++ [x].
Proof. induction 1 as [|y l Hy _ IH]; cbn; [done|]. by rewrite Hy, IH. Qed.
End Sorting.

(** ** Bounded search loops

    [iter_until p f a] runs at most [p] steps of a loop whose body either goes
    on with a new state or stops with a result; the binary counter makes large
    bounds usable in computations that stop early. *)
Fixpoint iter_until {A R : Type} (p : positive) (f : A -> A + R) (a : A) : A + R :=
  match p with
  | xH => f a
  | xO p' => match iter_until p' f a with
             | inl a' => iter_until p' f a'
             | inr r => inr r
             end
  | xI p' => match f a with
             | inl a1 => match iter_until p' f a1 with
                         | inl a' => iter_until p' f a'
                         | inr r => inr r
                         end
             | inr r => inr r
             end
  end.

(** Reasoning by a counter that each continued step decrements. *)
Lemma iter_until_measure {A R : Type} (f : A -> A + R) (I : Z -> A -> Prop) (Q : R -> Prop) :
  (forall n a, I n a -> match f a with inl a' => I (n - 1) a' | inr r => Q r end) ->
  forall p n a, I n a ->
  match iter_until p f a with inl a' => I (n - Z.pos p) a' | inr r => Q r end.
Proof.
  intros Hstep p. induction p as [p IH|p IH|]; intros n a Ha; cbn [iter_until].
  - specialize (Hstep n a Ha). destruct (f a) as [a1|r]; [|done].
    pose proof (IH _ _ Hstep) as H1. destruct (iter_until p f a1) as [a2|r]; [|done].
    pose proof (IH _ _ H1) as H2. destruct (iter_until p f a2); [|done].
    by replace (n - Z.pos p~1) with (n - 1 - Z.pos p - Z.pos p) by lia.
  - pose proof (IH n a Ha) as H1. destruct (iter_until p f a) as [a2|r]; [|done].
    pose proof (IH _ _ H1) as H2. destruct (iter_until p f a2); [|done].
    by replace (n - Z.pos p~0) with (n - Z.pos p - Z.pos p) by lia.
  - apply (Hstep n a Ha).
Qed.
