(* ===== verification/Loops.v ===== *)
(** * Loops in the state-and-exception monad

    The loops the fan-out strategies and the filters share: the first accepted
    result of a scan, a sum, and a for-each, with their inversion lemmas. *)

From S2P Require Export Prelude.

(** The first result a scan accepts, trying the candidates in order. *)
Fixpoint scan_first {S A C} (f : C -> M S A) (hit : A -> bool) (none : A) (cs : list C)
    : M S A :=
  match cs with
  | [] => ret none
  | c :: cs' => let! r := f c in if hit r then ret r else scan_first f hit none cs'
  end.

Fixpoint sum_over {S C} (f : C -> M S Z) (acc : Z) (cs : list C) : M S Z :=
  match cs with
  | [] => ret acc
  | c :: cs' => let! n := f c in sum_over f (acc + n) cs'
  end.

Fixpoint for_each {S C} (f : C -> M S unit) (cs : list C) : M S unit :=
  match cs with
  | [] => ret tt
  | c :: cs' => let! _ := f c in for_each f cs'
  end.

(** What a scan did: a chain of misses, then a hit or the end of the list. *)
Fixpoint misses {S A C} (f : C -> M S A) (hit : A -> bool) (cs : list C) (s s' : S) : Prop :=
  match cs with
  | [] => s' = s
  | c :: cs' => exists r s1, f c s = (Ok r, s1) /\ hit r = false /\ misses f hit cs' s1 s'
  end.

Lemma scan_first_ok {S A C} (f : C -> M S A) hit none cs s r s' :
  scan_first f hit none cs s = (Ok r, s') ->
  (exists pre c post s1, cs = pre ++ c :: post /\ misses f hit pre s s1
     /\ f c s1 = (Ok r, s') /\ hit r = true)
  \/ (misses f hit cs s s' /\ r = none).
Proof.
  revert s. induction cs as [|c cs IH]; intros s; cbn [scan_first].
  - intros [= <- <-]. by right.
  - intros (r1 & s1 & Hf & Hk)%bind_ok_inv. destruct (hit r1) eqn:Hr1.
    + injection Hk as <- <-. left. by exists [], c, cs, s.
    + destruct (IH s1 Hk) as [(pre & c' & post & s2 & -> & Hm & Hf' & Hh)|[Hm ->]].
      * left. exists (c :: pre), c', post, s2. repeat split; auto. by exists r1, s1.
      * right. split; [|done]. by exists r1, s1.
Qed.

(** Two scans whose steps agree up to a map of results agree up to it. *)
Definition map_result {S A A' : Type} (h : A -> A') (r : outcome A * S) : outcome A' * S :=
  (omap h (fst r), snd r).

Lemma scan_first_map {S A A' C} (h : A -> A') (f : C -> M S A) (g : C -> M S A')
    hit hit' none cs s :
  (forall c s, g c s = map_result h (f c s)) ->
  (forall r, hit' (h r) = hit r) ->
  scan_first g hit' (h none) cs s = map_result h (scan_first f hit none cs s).
Proof.
  intros Hstep Hhit. revert s. induction cs as [|c cs IH]; intros s; cbn [scan_first]; [done|].
  unfold bind. rewrite Hstep. unfold map_result at 1.
  destruct (f c s) as [[r|e] s1]; cbn [omap fst snd]; [|done].
  rewrite Hhit. destruct (hit r); [done|]. apply IH.
Qed.

(** A prefix of an integer range. *)
Lemma seqZ_split n pre l post : seqZ 0 n = pre ++ l :: post -> 0 <= l < n /\ pre = seqZ 0 l.
Proof.
  intros E. assert (Hl : seqZ 0 n !! length pre = Some l).
  { by rewrite E, list_lookup_middle. }
  apply lookup_seqZ in Hl as [-> Hlt]. split; [lia|].
  assert (Hpre : pre = take (length pre) (seqZ 0 n)) by (by rewrite E, take_app_length).
  rewrite Hpre at 1. replace n with (Z.of_nat (length pre) + (n - Z.of_nat (length pre))) by lia.
  rewrite seqZ_app by lia. rewrite take_app_length'.
  - done.
  - rewrite length_seqZ. lia.
Qed.

(** [next((x for x in l if f(x)), None)]: the first accepted element. *)
Lemma find_split {A} (f : A -> bool) l x :
  List.find f l = Some x ->
  f x = true /\ exists pre post, l = pre ++ x :: post /\ Forall (fun y => f y = false) pre.
Proof.
  induction l as [|y l IH]; cbn; [done|]. destruct (f y) eqn:Ey.
  - intros [= ->]. split; [done|]. exists [], l. by split.
  - intros (Hx & pre & post & -> & Hp)%IH. split; [done|]. exists (y :: pre), post.
    split; [done|]. by constructor.
Qed.

Lemma find_seqZ (f : Z -> bool) a n x :
  List.find f (seqZ a n) = Some x ->
  a <= x < a + n /\ f x = true /\ forall y, a <= y < x -> f y = false.
Proof.
  intros (Hx & pre & post & E & Hp)%find_split.
  assert (Hlp : seqZ a n !! length pre = Some x) by (by rewrite E, list_lookup_middle).
  apply lookup_seqZ in Hlp as [Hlx Hlt]. split; [lia|]. split; [done|].
  intros y Hy. assert (Hyp : pre !! Z.to_nat (y - a) = Some y).
  { rewrite <- (lookup_app_l _ (x :: post)) by lia. rewrite <- E. apply lookup_seqZ. lia. }
  by apply (Forall_lookup_1 _ _ _ _ Hp Hyp).
Qed.
