(* ===== verification/Conc.v ===== *)
(** * Programs of atomic sections

    A method that takes a lock several times is a sequence of atomic sections,
    between which the sections of other threads run.  [prog] is the syntax tree
    of such a method: each node is one section, a transformation of the
    thread's local state [L] and of the shared state [G] that is enabled when
    its guard holds (a lock to acquire, a condition to wait for).  The same
    text is read in two ways: [run] executes it alone, [pstep] interleaves any
    number of calls.  [wp] reduces an invariant of all interleavings to one
    obligation per section, in the style of a proof rule for shared state. *)

From S2P Require Export Prelude.

Section Programs.
Context {L G : Type}.

Inductive prog (A : Type) : Type :=
  | Done (o : outcome A)
  | Sect (enabled : L -> G -> bool) (act : L -> G -> L * G) (next : L -> G -> prog A).
Arguments Done {A} o.
Arguments Sect {A} enabled act next.

(** One section: a state-and-exception computation. *)
Definition section_when {A} (enabled : L -> G -> bool) (m : M (L * G) A) : prog A :=
  Sect enabled (fun l g => snd (m (l, g))) (fun l g => Done (fst (m (l, g)))).
Definition atomically {A} (m : M (L * G) A) : prog A := section_when (fun _ _ => true) m.

(** [try]: the continuation sees the outcome. *)
Fixpoint ptry {A B} (p : prog A) (k : outcome A -> prog B) : prog B :=
  match p with
  | Done o => k o
  | Sect e a n => Sect e a (fun l g => ptry (n l g) k)
  end.
Definition pbind {A B} (p : prog A) (k : A -> prog B) : prog B :=
  ptry p (fun o => match o with Ok x => k x | Raise e => Done (Raise e) end).
Definition pret {A} (a : A) : prog A := Done (Ok a).
Definition praise {A} (e : exn) : prog A := Done (Raise e).

(** [try: p finally: q], an error of [q] replacing the outcome. *)
Definition pfinally {A} (p : prog A) (q : prog unit) : prog A :=
  ptry p (fun o => pbind q (fun _ => Done o)).
(** [except BaseException: q; raise]. *)
Definition prescue {A} (p : prog A) (q : prog unit) : prog A :=
  ptry p (fun o => match o with Ok x => Done (Ok x) | Raise e => pbind q (fun _ => Done (Raise e)) end).

(** Without interference; [None]: the program waits for another thread. *)
Fixpoint run {A} (p : prog A) (l : L) (g : G) : option (outcome A * (L * G)) :=
  match p with
  | Done o => Some (o, (l, g))
  | Sect e a n => if e l g then let '(l', g') := a l g in run (n l g) l' g' else None
  end.

Lemma run_try {A B} (p : prog A) (k : outcome A -> prog B) l g :
  run (ptry p k) l g =
  match run p l g with Some (o, (l', g')) => run (k o) l' g' | None => None end.
Proof.
  revert l g. induction p as [o|e a n IH]; intros l g; cbn; [done|].
  destruct (e l g); [|done]. destruct (a l g) as [l' g']. apply IH.
Qed.

Lemma run_bind {A B} (p : prog A) (k : A -> prog B) l g :
  run (pbind p k) l g =
  match run p l g with
  | Some (Ok x, (l', g')) => run (k x) l' g'
  | Some (Raise e, (l', g')) => Some (Raise e, (l', g'))
  | None => None
  end.
Proof. unfold pbind. rewrite run_try. by destruct (run p l g) as [[[x|e] [l' g']]|]. Qed.

Lemma run_finally {A} (p : prog A) q l g :
  run (pfinally p q) l g =
  match run p l g with
  | Some (o, (l', g')) =>
      match run q l' g' with
      | Some (Ok _, x) => Some (o, x)
      | Some (Raise e, x) => Some (Raise e, x)
      | None => None
      end
  | None => None
  end.
Proof.
  unfold pfinally. rewrite run_try. destruct (run p l g) as [[o [l' g']]|]; [|done]. rewrite run_bind.
  by destruct (run q l' g') as [[[[]|e] [l2 g2]]|].
Qed.

Lemma run_rescue {A} (p : prog A) q l g :
  run (prescue p q) l g =
  match run p l g with
  | Some (Ok x, y) => Some (Ok x, y)
  | Some (Raise e, (l', g')) =>
      match run q l' g' with
      | Some (Ok _, y) => Some (Raise e, y)
      | Some (Raise e', y) => Some (Raise e', y)
      | None => None
      end
  | None => None
  end.
Proof.
  unfold prescue. rewrite run_try. destruct (run p l g) as [[[x|e] [l' g']]|]; [done| |done].
  rewrite run_bind. by destruct (run q l' g') as [[[[]|e'] [l2 g2]]|].
Qed.

(** As far as it gets alone: to its end, or to a section that is not enabled. *)
Fixpoint run_on {A} (p : prog A) (l : L) (g : G) : prog A * (L * G) :=
  match p with
  | Done o => (p, (l, g))
  | Sect e a n => if e l g then let '(l', g') := a l g in run_on (n l g) l' g' else (p, (l, g))
  end.

Lemma run_ends {A} (p : prog A) l g :
  run p l g = match run_on p l g with (Done o, y) => Some (o, y) | (Sect _ _ _, _) => None end.
Proof.
  revert l g. induction p as [o|e a n IH]; intros l g; cbn; [done|].
  destruct (e l g); [|done]. destruct (a l g) as [l' g']. apply IH.
Qed.

Lemma run_done {A} (p : prog A) l g o y : run p l g = Some (o, y) -> run_on p l g = (Done o, y).
Proof. rewrite run_ends. by destruct (run_on p l g) as [[o'|e a n] z]; intros [= <- <-]. Qed.

Lemma run_on_try {A B} (p : prog A) (k : outcome A -> prog B) l g :
  run_on (ptry p k) l g =
  match run_on p l g with
  | (Done o, (l', g')) => run_on (k o) l' g'
  | (Sect _ _ _ as q, y) => (ptry q k, y)
  end.
Proof.
  revert l g. induction p as [o|e a n IH]; intros l g; cbn; [done|].
  destruct (e l g); [|done]. destruct (a l g) as [l' g']. apply IH.
Qed.

Lemma run_on_bind {A B} (p : prog A) (k : A -> prog B) l g :
  run_on (pbind p k) l g =
  match run_on p l g with
  | (Done (Ok x), (l', g')) => run_on (k x) l' g'
  | (Done (Raise e), y) => (Done (Raise e), y)
  | (Sect _ _ _ as q, y) => (pbind q k, y)
  end.
Proof. unfold pbind. rewrite run_on_try. by destruct (run_on p l g) as [[[x|e]|e a n] [l' g']]. Qed.

Lemma run_section {A} enabled (m : M (L * G) A) l g : enabled l g = true ->
  run (section_when enabled m) l g = Some (m (l, g)).
Proof. intros He. cbn. rewrite He. by destruct (m (l, g)) as [o [l' g']]. Qed.

Lemma run_atomically {A} (m : M (L * G) A) l g : run (atomically m) l g = Some (m (l, g)).
Proof. by apply run_section. Qed.

(** *** Where a call stands

    [heads H p Q l]: before each section of [p], in whatever shared states the
    sections run, the local state and that section are related by [H]; [Q]
    holds at the end. *)
Section Heads.
Variable H : L -> (L -> G -> bool) -> (L -> G -> L * G) -> Prop.

Fixpoint heads {A} (p : prog A) (Q : outcome A -> L -> Prop) (l : L) : Prop :=
  match p with
  | Done o => Q o l
  | Sect e a n => H l e a /\ forall g, heads (n l g) Q (fst (a l g))
  end.

Lemma heads_mono {A} (p : prog A) (Q Q' : outcome A -> L -> Prop) l :
  (forall o l', Q o l' -> Q' o l') -> heads p Q l -> heads p Q' l.
Proof.
  intros HQ. revert l. induction p as [o|e a n IH]; intros l; cbn; [apply HQ|].
  intros [? Hn]. split; [done|]. intros g. by apply IH.
Qed.

Lemma heads_try {A B} (p : prog A) (k : outcome A -> prog B) Q l :
  heads p (fun o l' => heads (k o) Q l') l -> heads (ptry p k) Q l.
Proof.
  revert l. induction p as [o|e a n IH]; intros l; cbn; [done|].
  intros [? Hn]. split; [done|]. intros g. by apply IH.
Qed.
End Heads.

(** ** Interleavings *)
Definition task : Type := L * prog unit.
Definition pool : Type := list task * G.

(** A call whose result is dropped. *)
Definition call {A} (p : prog A) : prog unit := ptry p (fun o => Done (omap (fun _ => tt) o)).

Variable start : L -> prog unit -> Prop.

Inductive pstep : pool -> pool -> Prop :=
  | pstep_spawn ts g l p : start l p -> pstep (ts, g) (ts ++ [(l, p)], g)
  | pstep_section ts1 l e a n ts2 g :
      e l g = true ->
      pstep (ts1 ++ (l, Sect e a n) :: ts2, g)
            (ts1 ++ (fst (a l g), n l g) :: ts2, snd (a l g)).

(** An executable scheduler. *)
Inductive choice := Spawn (l : L) (p : prog unit) | Go (i : nat).

Definition choose (c : choice) (x : pool) : option pool :=
  let '(ts, g) := x in
  match c with
  | Spawn l p => Some (ts ++ [(l, p)], g)
  | Go i =>
      match ts !! i with
      | Some (l, Sect e a n) =>
          if e l g then Some (take i ts ++ (fst (a l g), n l g) :: drop (S i) ts, snd (a l g)) else None
      | _ => None
      end
  end.

Fixpoint schedule (cs : list choice) (x : pool) : option pool :=
  match cs with
  | [] => Some x
  | c :: cs' => match choose c x with Some y => schedule cs' y | None => None end
  end.

Definition starts (c : choice) : Prop := match c with Spawn l p => start l p | Go _ => True end.

Lemma choose_step c x y : starts c -> choose c x = Some y -> pstep x y.
Proof.
  destruct x as [ts g], c as [l p|i]; cbn; intros Hs H.
  - injection H as <-. by constructor.
  - destruct (ts !! i) as [[l [o|e a n]]|] eqn:Et; [done| |done].
    destruct (e l g) eqn:Ee; [|done]. injection H as <-.
    rewrite <- (take_drop_middle ts i _ Et) at 1. by constructor.
Qed.

Lemma schedule_steps cs x y : Forall starts cs -> schedule cs x = Some y -> rtc pstep x y.
Proof.
  intros Hs. revert x. induction Hs as [|c cs Hc Hs IH]; intros x H; cbn in H.
  - by injection H as <-.
  - destruct (choose c x) as [z|] eqn:E; [|done].
    eapply rtc_l; [by eapply choose_step|by apply IH].
Qed.

(** The state a schedule leads to. *)
Definition after (cs : list choice) (x : pool) : pool := default x (schedule cs x).

Lemma after_steps cs x : Forall starts cs -> is_Some (schedule cs x) -> rtc pstep x (after cs x).
Proof. intros Hs [y Hy]. unfold after. rewrite Hy. by apply (schedule_steps cs). Qed.

(** The same, by evaluation. *)
Definition runs (cs : list choice) (x : pool) : bool :=
  match schedule cs x with Some _ => true | None => false end.

Lemma runs_steps cs x : Forall starts cs -> runs cs x = true -> rtc pstep x (after cs x).
Proof. intros Hs Hr. apply after_steps; [done|]. unfold runs in Hr. by destruct (schedule cs x). Qed.

Lemma heads_steps H (ending : outcome unit -> L -> Prop) x y :
  (forall l p, start l p -> heads H p ending l) -> rtc pstep x y ->
  Forall (fun t => heads H (snd t) ending (fst t)) (fst x) -> Forall (fun t => heads H (snd t) ending (fst t)) (fst y).
Proof.
  intros Hs Hxy. induction Hxy as [|x y z Hst _ IH]; [done|]. intros Hx. apply IH. destruct Hst as [ts g l p ?|ts1 l e a n ts2 g He]; cbn in *.
  - apply Forall_app; split; [done|]. repeat constructor. by apply Hs.
  - apply Forall_app in Hx as [? [[_ Hn] ?]%Forall_cons]. apply Forall_app; split; [done|]. constructor; [apply Hn|done].
Qed.

(** ** Invariants of the interleavings

    [I] relates the local states of all calls ever made, in any order, to the
    shared state. *)
Variable I : list L -> G -> Prop.
Hypothesis I_perm : forall ls ls' g, Permutation ls ls' -> I ls g -> I ls' g.

Fixpoint wp {A} (p : prog A) (Q : outcome A -> L -> Prop) (l : L) : Prop :=
  match p with
  | Done o => Q o l
  | Sect e a n => forall fr g, I (l :: fr) g -> e l g = true ->
      I (fst (a l g) :: fr) (snd (a l g)) /\ wp (n l g) Q (fst (a l g))
  end.

Lemma wp_mono {A} (p : prog A) (Q Q' : outcome A -> L -> Prop) l :
  (forall o l', Q o l' -> Q' o l') -> wp p Q l -> wp p Q' l.
Proof.
  intros HQ. revert l. induction p as [o|e a n IH]; intros l; cbn; [apply HQ|].
  intros H fr g Hi He. destruct (H fr g Hi He). split; [done|]. by apply IH.
Qed.

Lemma wp_try {A B} (p : prog A) (k : outcome A -> prog B) Q l :
  wp p (fun o l' => wp (k o) Q l') l -> wp (ptry p k) Q l.
Proof.
  revert l. induction p as [o|e a n IH]; intros l; cbn; [done|].
  intros H fr g Hi He. destruct (H fr g Hi He). split; [done|]. by apply IH.
Qed.

Lemma wp_bind {A B} (p : prog A) (k : A -> prog B) Q l :
  wp p (fun o l' => match o with Ok x => wp (k x) Q l' | Raise e => Q (Raise e) l' end) l ->
  wp (pbind p k) Q l.
Proof. intros H. apply wp_try. revert H. apply wp_mono. by intros [x|e] l'. Qed.

Lemma wp_finally {A} (p : prog A) q Q l :
  wp p (fun o l' => wp q (fun oq l'' => match oq with Ok _ => Q o l'' | Raise e => Q (Raise e) l'' end) l') l ->
  wp (pfinally p q) Q l.
Proof.
  intros H. apply wp_try. revert H. apply wp_mono. intros o l' H. apply wp_bind.
  revert H. apply wp_mono. by intros [[]|e] l''.
Qed.

Lemma wp_rescue {A} (p : prog A) q Q l :
  wp p (fun o l' => match o with
                    | Ok x => Q (Ok x) l'
                    | Raise e => wp q (fun oq l'' => match oq with Ok _ => Q (Raise e) l'' | Raise e' => Q (Raise e') l'' end) l'
                    end) l ->
  wp (prescue p q) Q l.
Proof.
  intros H. apply wp_try. revert H. apply wp_mono. intros [x|e] l' H; [done|]. apply wp_bind.
  revert H. apply wp_mono. by intros [[]|e'] l''.
Qed.

(** The obligation of one section. *)
Lemma wp_section {A} enabled (m : M (L * G) A) Q l :
  (forall fr g o l' g', I (l :: fr) g -> enabled l g = true -> m (l, g) = (o, (l', g')) ->
    I (l' :: fr) g' /\ Q o l') ->
  wp (section_when enabled m) Q l.
Proof.
  intros H fr g Hi He. cbn. destruct (m (l, g)) as [o [l' g']] eqn:E. cbn. eauto.
Qed.

Lemma wp_atomically {A} (m : M (L * G) A) Q l :
  (forall fr g o l' g', I (l :: fr) g -> m (l, g) = (o, (l', g')) -> I (l' :: fr) g' /\ Q o l') ->
  wp (atomically m) Q l.
Proof. intros H. apply wp_section. intros fr g o l' g' Hi _. by apply H. Qed.

Lemma wp_call_ends {A} (p : prog A) (P : L -> Prop) l : wp p (fun _ => P) l -> wp (call p) (fun _ => P) l.
Proof. intros H. apply wp_try. revert H. by apply wp_mono. Qed.

Lemma wp_call {A} (p : prog A) l : wp p (fun _ _ => True) l -> wp (call p) (fun _ _ => True) l.
Proof. apply (wp_call_ends p (fun _ => True)). Qed.

Lemma wp_run {A} (p : prog A) Q l g fr o l' g' :
  wp p Q l -> I (l :: fr) g -> run p l g = Some (o, (l', g')) -> I (l' :: fr) g' /\ Q o l'.
Proof.
  revert l g. induction p as [o0|e a n IH]; intros l g; cbn.
  - by intros HQ Hi [= <- <- <-].
  - intros H Hi. destruct (e l g) eqn:Ee; [|done]. destruct (H fr g Hi Ee) as [Hi' Hw].
    destruct (a l g) as [l1 g1]. by apply IH.
Qed.

(** What every call guarantees of its local state when it has ended. *)
Section Ending.
Variable ending : outcome unit -> L -> Prop.
Hypothesis wp_start : forall l p, start l p -> wp p ending l.
Hypothesis I_start : forall l p ls g, start l p -> I ls g -> I (l :: ls) g.

Definition ending_pool (x : pool) : Prop :=
  I (map fst (fst x)) (snd x) /\ Forall (fun t => wp (snd t) ending (fst t)) (fst x).

Lemma ending_pool_step x y : ending_pool x -> pstep x y -> ending_pool y.
Proof.
  intros [Hi Hw] Hst. destruct Hst as [ts g l p Hs|ts1 l e a n ts2 g He]; split; cbn in *.
  - rewrite map_app. apply (I_perm (l :: map fst ts)); [by rewrite Permutation_app_comm|]. by apply (I_start l p).
  - apply Forall_app; split; [done|]. repeat constructor. by apply wp_start.
  - rewrite map_app in Hi |- *. cbn in *. apply Forall_app in Hw as [_ [Hw _]%Forall_cons]. cbn in Hw.
    destruct (Hw (map fst ts1 ++ map fst ts2) g) as [Hi' _]; [|done|].
    + eapply I_perm; [|exact Hi]. by rewrite Permutation_middle.
    + eapply I_perm; [|exact Hi']. by rewrite Permutation_middle.
  - apply Forall_app in Hw as [Hw1 [Hw Hw2]%Forall_cons]. apply Forall_app; split; [done|]. constructor; [|done].
    cbn in *. destruct (Hw (map fst ts1 ++ map fst ts2) g) as [_ Hn]; [|done|done].
    rewrite map_app in Hi. eapply I_perm; [|exact Hi]. cbn. by rewrite Permutation_middle.
Qed.

Lemma ending_pool_steps x y : ending_pool x -> rtc pstep x y -> ending_pool y.
Proof. intros Hx Hs. induction Hs as [|x y z Hst _ IH]; [done|]. by apply IH, (ending_pool_step x). Qed.
End Ending.

Hypothesis wp_start : forall l p, start l p -> wp p (fun _ _ => True) l.
Hypothesis I_start : forall l p ls g, start l p -> I ls g -> I (l :: ls) g.

Definition safe_pool (x : pool) : Prop := ending_pool (fun _ _ => True) x.

Lemma safe_pool_step x y : safe_pool x -> pstep x y -> safe_pool y.
Proof. by apply ending_pool_step. Qed.

Lemma safe_pool_steps x y : safe_pool x -> rtc pstep x y -> safe_pool y.
Proof. by apply ending_pool_steps. Qed.
End Programs.

Create Rewrite HintDb run.
#[export] Hint Rewrite @run_try @run_bind @run_finally @run_rescue @run_atomically : run.

Arguments prog : clear implicits.
Arguments Done {L G A} o.
Arguments Sect {L G A} enabled act next.
Arguments pool : clear implicits.
Arguments task : clear implicits.
Arguments choice : clear implicits.

Notation "'let?' x := p 'in' k" := (pbind p (fun x => k))
  (at level 10, x pattern, p at level 100, k at level 200) : py_scope.

(** ** The local and the shared half of the state *)
Definition on_shared {L G A} (m : M G A) : M (L * G) A := on_snd m.
Definition on_local {L G A} (m : M L A) : M (L * G) A := on_fst m.

(** A computation that chooses its steps by the state before it. *)
Definition peek {S A} (f : S -> A) : M S A := fun s => (Ok (f s), s).

(** Counting over the calls of a pool, in any order. *)
Lemma sum_list_with_perm {A} (f : A -> nat) (xs ys : list A) : Permutation xs ys -> sum_list_with f xs = sum_list_with f ys.
Proof. induction 1; cbn; lia. Qed.
