(* ===== verification/PyFloat.v ===== *)
(** * Python numbers

    Python floats are IEEE 754 binary64 values; they are modelled bit for bit
    with the standard library's executable specification [SpecFloat] at
    precision 53 and exponent bound 1024.  The file gives the operations the
    package uses (arithmetic, comparisons, [math.isfinite], [math.floor],
    [math.ceil], [float(int)]), proves that the comparisons order the non-NaN
    values totally, and models the argument checks shared by the queue
    strategies: [normalize_pop_timeout] (core/types.py), [_require_finite]
    (queue/strategies/delay.py) and [_finite_number]
    (queue/strategies/time_wheel.py). *)

From Stdlib Require Export SpecFloat.
From S2P Require Export Prelude.

(** ** Binary64 *)
Definition prec : Z := 53.
Definition emax : Z := 1024.
Abbreviation float := spec_float.

#[export] Instance float_eq_dec : EqDecision float.
Proof. solve_decision. Defined.

Definition fadd : float -> float -> float := SFadd prec emax.
Definition fsub : float -> float -> float := SFsub prec emax.
Definition fmul : float -> float -> float := SFmul prec emax.
Definition fdiv : float -> float -> float := SFdiv prec emax.
Definition fltb : float -> float -> bool := SFltb.
Definition fleb : float -> float -> bool := SFleb.
Definition feqb : float -> float -> bool := SFeqb.
Definition fzero : float := S754_zero false.

(** [math.isfinite] on a float. *)
Definition isfinite (x : float) : bool :=
  match x with S754_zero _ | S754_finite _ _ _ => true | _ => false end.

Definition is_nan (x : float) : bool :=
  match x with S754_nan => true | _ => false end.

(** Python's [max(a, b)] and [min(a, b)] keep the first argument on ties and
    whenever the comparison is false. *)
Definition fmax (a b : float) : float := if fltb a b then b else a.
Definition fmin (a b : float) : float := if fltb b a then b else a.

(** [int -> float] rounds to nearest even; the result is infinite exactly when
    Python raises OverflowError. *)
Definition float_of_Z (z : Z) : float := binary_normalize prec emax z 0 false.

(** [math.floor] and [math.ceil] of a finite float are exact integers. *)
Definition scale_floor (num e : Z) : Z :=
  if 0 <=? e then num * 2 ^ e else num / 2 ^ (- e).
Definition ffloor (x : float) : Z :=
  match x with
  | S754_finite s m e => scale_floor (if s then Z.neg m else Z.pos m) e
  | _ => 0
  end.
Definition fceil (x : float) : Z :=
  match x with
  | S754_finite s m e => - scale_floor (if s then Z.pos m else Z.neg m) e
  | _ => 0
  end.

(** ** Dynamically typed arguments

    What the isinstance checks of the package distinguish: bool (which Python
    also counts as int), int, float, and everything else. *)
Inductive pyarg := ABool (b : bool) | AInt (z : Z) | AFloat (f : float) | AOther.

(** The shared shape of the three numeric validators: reject bool and
    non-numbers, convert with [float()], reject non-finite results. *)
Definition to_finite_float (v : pyarg) : outcome float :=
  match v with
  | ABool _ | AOther => Raise EValue
  | AInt z => let f := float_of_Z z in if isfinite f then Ok f else Raise EValue
  | AFloat f => if isfinite f then Ok f else Raise EValue
  end.

(** core/types.py [normalize_pop_timeout]. *)
Definition normalize_pop_timeout (timeout : pyarg) : outcome float :=
  match timeout with
  | ABool _ | AOther => Raise EValue
  | AInt z =>
      let normalized := float_of_Z z in
      if negb (isfinite normalized) || fltb normalized fzero
      then Raise EValue else Ok normalized
  | AFloat f =>
      if negb (isfinite f) || fltb f fzero then Raise EValue else Ok f
  end.

(** queue/strategies/base.py [normalize_queue_timeout]. *)
Definition normalize_queue_timeout (timeout : pyarg) : outcome float :=
  normalize_pop_timeout timeout.

(** queue/strategies/delay.py [_require_finite]. *)
Definition require_finite (value : pyarg) : outcome float := to_finite_float value.

(** queue/strategies/time_wheel.py [_finite_number]. *)
Definition finite_number (value : pyarg) : outcome float := to_finite_float value.

(** ** The order on floats

    [fkey] embeds the non-NaN floats in a lexicographic order on triples, and
    [SFcompare] is the comparison of the keys. *)
Definition fkey (x : float) : Z * Z * Z :=
  match x with
  | S754_nan => (0, 0, 0)
  | S754_zero _ => (0, 0, 0)
  | S754_infinity s => ((if s then -2 else 2), 0, 0)
  | S754_finite false m e => (1, e, Z.pos m)
  | S754_finite true m e => (-1, - e, Z.neg m)
  end.

Definition kcmp (k1 k2 : Z * Z * Z) : comparison :=
  let '(a1, b1, c1) := k1 in
  let '(a2, b2, c2) := k2 in
  match a1 ?= a2 with
  | Eq => match b1 ?= b2 with Eq => c1 ?= c2 | o => o end
  | o => o
  end.

Definition klt (k1 k2 : Z * Z * Z) : Prop :=
  let '(a1, b1, c1) := k1 in
  let '(a2, b2, c2) := k2 in
  a1 < a2 \/ (a1 = a2 /\ (b1 < b2 \/ (b1 = b2 /\ c1 < c2))).

Lemma kcmp_spec k1 k2 :
  match kcmp k1 k2 with
  | Lt => klt k1 k2
  | Eq => k1 = k2
  | Gt => klt k2 k1
  end.
Proof.
  destruct k1 as [[a1 b1] c1], k2 as [[a2 b2] c2]. cbn.
  destruct (Z.compare_spec a1 a2), (Z.compare_spec b1 b2), (Z.compare_spec c1 c2);
    subst; try reflexivity; lia.
Qed.

Lemma klt_irrefl k : ~ klt k k.
Proof. destruct k as [[a b] c]. cbn. lia. Qed.

Lemma klt_trans k1 k2 k3 : klt k1 k2 -> klt k2 k3 -> klt k1 k3.
Proof. destruct k1 as [[? ?] ?], k2 as [[? ?] ?], k3 as [[? ?] ?]. cbn. lia. Qed.

Lemma SFcompare_kcmp x y :
  is_nan x = false -> is_nan y = false ->
  SFcompare x y = Some (kcmp (fkey x) (fkey y)).
Proof.
  intros Hx Hy.
  destruct x as [sx|sx| |sx mx ex], y as [sy|sy| |sy my ey]; try discriminate;
    repeat match goal with s : bool |- _ => destruct s end; try reflexivity.
  cbn. f_equal. rewrite Z.compare_opp, (Z.compare_antisym ey ex).
  change (Pos.compare_cont Eq mx my) with (Pos.compare mx my).
  rewrite <- (Pos.compare_antisym mx my).
  destruct (ey ?= ex); reflexivity.
Qed.

Lemma fltb_klt x y :
  is_nan x = false -> is_nan y = false ->
  fltb x y = true <-> klt (fkey x) (fkey y).
Proof.
  intros Hx Hy. unfold fltb, SFltb. rewrite (SFcompare_kcmp x y Hx Hy).
  pose proof (kcmp_spec (fkey x) (fkey y)) as H.
  destruct (kcmp (fkey x) (fkey y)); split; intros; try done; exfalso.
  - rewrite H in *. by eapply klt_irrefl.
  - eapply klt_irrefl, klt_trans; eassumption.
Qed.

Lemma fltb_not_nan x y : fltb x y = true -> is_nan x = false /\ is_nan y = false.
Proof. by destruct x, y. Qed.

Lemma fleb_not_nan x y : fleb x y = true -> is_nan x = false /\ is_nan y = false.
Proof. by destruct x, y. Qed.

Lemma fleb_negb_fltb x y :
  is_nan x = false -> is_nan y = false -> fleb x y = negb (fltb y x).
Proof.
  intros Hx Hy. unfold fleb, SFleb, fltb, SFltb.
  rewrite (SFcompare_kcmp x y Hx Hy), (SFcompare_kcmp y x Hy Hx).
  pose proof (kcmp_spec (fkey x) (fkey y)) as H1.
  pose proof (kcmp_spec (fkey y) (fkey x)) as H2.
  destruct (kcmp (fkey x) (fkey y)), (kcmp (fkey y) (fkey x)); try done; exfalso.
  - rewrite H1 in H2. by eapply klt_irrefl.
  - eapply klt_irrefl, klt_trans; eassumption.
  - rewrite H2 in H1. by eapply klt_irrefl.
  - eapply klt_irrefl, klt_trans; eassumption.
Qed.

Lemma feqb_fkey x y :
  is_nan x = false -> is_nan y = false ->
  feqb x y = true <-> fkey x = fkey y.
Proof.
  intros Hx Hy. unfold feqb, SFeqb. rewrite (SFcompare_kcmp x y Hx Hy).
  pose proof (kcmp_spec (fkey x) (fkey y)) as H.
  destruct (kcmp (fkey x) (fkey y)); split; intros; try done; exfalso;
    rewrite H0 in H; by eapply klt_irrefl.
Qed.

Lemma fltb_irrefl x : fltb x x = false.
Proof.
  destruct (fltb x x) eqn:E; [|done].
  destruct (fltb_not_nan _ _ E) as [H _].
  apply fltb_klt in E; [|done..]. by apply klt_irrefl in E.
Qed.

Lemma fltb_trans x y z : fltb x y = true -> fltb y z = true -> fltb x z = true.
Proof.
  intros H1 H2. destruct (fltb_not_nan _ _ H1), (fltb_not_nan _ _ H2).
  apply fltb_klt in H1, H2; try done. apply fltb_klt; try done.
  by eapply klt_trans.
Qed.

Lemma klt_total k1 k2 : klt k1 k2 \/ k1 = k2 \/ klt k2 k1.
Proof. pose proof (kcmp_spec k1 k2). destruct (kcmp k1 k2); auto. Qed.

Lemma fleb_klt x y :
  is_nan x = false -> is_nan y = false ->
  fleb x y = true <-> ~ klt (fkey y) (fkey x).
Proof.
  intros Hx Hy. rewrite fleb_negb_fltb, negb_true_iff by done.
  rewrite <- fltb_klt by done. destruct (fltb y x); split; congruence.
Qed.

Lemma fleb_trans x y z : fleb x y = true -> fleb y z = true -> fleb x z = true.
Proof.
  intros H1 H2. destruct (fleb_not_nan _ _ H1), (fleb_not_nan _ _ H2).
  apply fleb_klt in H1, H2; try done. apply fleb_klt; try done.
  intros Hzx. destruct (klt_total (fkey x) (fkey y)) as [Hxy|[Hxy|Hxy]]; [|congruence|done].
  by apply H2, klt_trans with (fkey x).
Qed.

Lemma fleb_total x y :
  is_nan x = false -> is_nan y = false -> fleb x y = true \/ fleb y x = true.
Proof.
  intros. rewrite !fleb_klt by done.
  destruct (klt_total (fkey x) (fkey y)) as [H1|[H1|H1]].
  - left. intros H2. by eapply klt_irrefl, klt_trans.
  - left. rewrite H1. apply klt_irrefl.
  - right. intros H2. by eapply klt_irrefl, klt_trans.
Qed.

Lemma fleb_refl x : is_nan x = false -> fleb x x = true.
Proof. intros. apply fleb_klt; [done..|]. apply klt_irrefl. Qed.

Lemma isfinite_not_nan x : isfinite x = true -> is_nan x = false.
Proof. by destruct x. Qed.

Lemma fltb_fleb x y : fltb x y = true -> fleb x y = true.
Proof.
  intros H. destruct (fltb_not_nan _ _ H). rewrite fleb_negb_fltb by done.
  destruct (fltb y x) eqn:E; [|done]. pose proof (fltb_trans _ _ _ H E) as Hx.
  by rewrite fltb_irrefl in Hx.
Qed.

Lemma fleb_fltb_trans x y z : fleb x y = true -> fltb y z = true -> fltb x z = true.
Proof.
  intros H1 H2. destruct (fleb_not_nan _ _ H1), (fltb_not_nan _ _ H2).
  apply fleb_klt in H1; [|done..]. apply fltb_klt in H2; [|done..]. apply fltb_klt; [done..|].
  destruct (klt_total (fkey x) (fkey y)) as [Hk|[->|Hk]]; [by eapply klt_trans|done|done].
Qed.

Lemma fmax_not_nan x : is_nan (fmax fzero x) = false.
Proof. unfold fmax. destruct (fltb fzero x) eqn:E; [by destruct (fltb_not_nan _ _ E)|done]. Qed.

Lemma fmin_le x y : is_nan x = false -> fleb (fmin x y) x = true.
Proof.
  intros Hx. unfold fmin. destruct (fltb y x) eqn:E; [by apply fltb_fleb|by apply fleb_refl].
Qed.

#[export] Hint Resolve isfinite_not_nan fleb_refl : pynum.
