(* ===== verification/Drain.v ===== *)
(** * Bounded drains

    utils/_drain.py: waiting under a condition until a predicate clears or the
    deadline passes.  Each turn of the loop is an atomic section (the condition
    releases its lock while it sleeps); a turn is given the reading of the
    monotonic clock and the outcome of the wait.  After the listed turns the
    waiter sleeps until the predicate is clear.  What the caller does next, with
    the lock still held, is part of the last section. *)

From S2P Require Export Conc PyFloat.

Record wake := Wake { reading : float; interrupted : option exn }.

Section Drain.
Context {L G A : Type}.
Variable busy : G -> bool.
Variable deadline : float.
Variable operation : string.
Variable k : outcome unit -> M (L * G) A.

(** [remaining <= 0]. *)
Definition expired (w : wake) : bool := fleb (fsub deadline (reading w)) fzero.

Definition settled (control : option exn) : outcome unit :=
  match control with Some e => Raise e | None => Ok tt end.

(** The first signal is remembered. *)
Definition remember (control : option exn) (w : wake) : option exn :=
  match control with Some e => Some e | None => interrupted w end.

Fixpoint drain_loop (wakes : list wake) (control : option exn) : prog L G A :=
  match wakes with
  | [] => section_when (fun _ g => negb (busy g)) (k (settled control))
  | w :: ws =>
      Sect (fun _ _ => true)
        (fun l g => if negb (busy g) then snd (k (settled control) (l, g))
                    else if expired w then snd (k (Raise (ETimeout operation)) (l, g))
                    else (l, g))
        (fun l g => if negb (busy g) then Done (fst (k (settled control) (l, g)))
                    else if expired w then Done (fst (k (Raise (ETimeout operation)) (l, g)))
                    else drain_loop ws (remember control w))
  end.
End Drain.

Definition bounded_drain_wait {L G A} (busy : G -> bool) (timeout_s : float) (operation : string)
    (started : float) (wakes : list wake) (k : outcome unit -> M (L * G) A) : prog L G A :=
  drain_loop busy (fadd started timeout_s) operation k wakes None.

Section Rules.
Context {L G A : Type} (I : list L -> G -> Prop).

(** To reason about a drain: the continuation runs either on a state that is
    not busy, after the loop was left, or, with the escalation, on any state. *)
Lemma wp_drain busy timeout_s operation started wakes (k : outcome unit -> M (L * G) A) Q l :
  (forall o fr g o' l' g', I (l :: fr) g -> (busy g = false \/ o = Raise (ETimeout operation)) ->
    k o (l, g) = (o', (l', g')) -> I (l' :: fr) g' /\ Q o' l') ->
  wp I (bounded_drain_wait busy timeout_s operation started wakes k) Q l.
Proof.
  intros Hk. unfold bounded_drain_wait. generalize (@None exn) as control.
  induction wakes as [|w ws IH]; intros control; cbn.
  - intros fr g Hi Hb%negb_true_iff.
    destruct (k (settled control) (l, g)) as [o' [l' g']] eqn:E. apply (Hk _ _ _ _ _ _ Hi (or_introl Hb) E).
  - intros fr g Hi _. destruct (busy g) eqn:Eb; cbn.
    + destruct (expired _ w); [|by split; [|apply IH]].
      destruct (k (Raise (ETimeout operation)) (l, g)) as [o' [l' g']] eqn:E. apply (Hk _ _ _ _ _ _ Hi (or_intror eq_refl) E).
    + destruct (k (settled control) (l, g)) as [o' [l' g']] eqn:E. apply (Hk _ _ _ _ _ _ Hi (or_introl Eb) E).
Qed.
End Rules.
