(* ===== verification/PyBytes.v ===== *)
(** * Python bytes, big-endian integers and base64

    [int.to_bytes(k, "big")], [int.from_bytes(_, "big")], [str.encode] and the
    strict base64 codec ([base64.b64encode], [base64.b64decode(validate=True)])
    as the package uses them, with their round trips. *)

From S2P Require Export Prelude.

(** ** Bytes as integers *)
Definition Z_of_byte (b : Byte.byte) : Z := Z.of_N (Byte.to_N b).
Definition byte_of_Z (z : Z) : Byte.byte :=
  match Byte.of_N (Z.to_N (z mod 256)) with Some b => b | None => Byte.x00 end.

Lemma Z_of_byte_range b : 0 <= Z_of_byte b < 256.
Proof. unfold Z_of_byte. pose proof (Byte.to_N_bounded b). lia. Qed.

Lemma byte_of_Z_of_byte b : byte_of_Z (Z_of_byte b) = b.
Proof.
  unfold byte_of_Z. rewrite Z.mod_small by apply Z_of_byte_range.
  unfold Z_of_byte. by rewrite N2Z.id, Byte.of_to_N.
Qed.

Lemma Z_of_byte_of_Z z : 0 <= z < 256 -> Z_of_byte (byte_of_Z z) = z.
Proof.
  intros Hz. unfold byte_of_Z. rewrite Z.mod_small by done.
  destruct (Byte.of_N (Z.to_N z)) as [b|] eqn:E.
  - apply Byte.to_of_N in E. unfold Z_of_byte. lia.
  - apply Byte.of_N_None_iff in E. lia.
Qed.

#[export] Instance Z_of_byte_inj : Inj (=) (=) Z_of_byte.
Proof. intros x y H. by rewrite <- (byte_of_Z_of_byte x), H, byte_of_Z_of_byte. Qed.

(** [str.encode("utf-8")]; strings already hold their UTF-8 encoding. *)
Definition encode (s : string) : bytes := list_byte_of_string s.

#[export] Instance encode_inj : Inj (=) (=) encode.
Proof.
  intros x y H. rewrite <- (string_of_list_byte_of_string x), <- (string_of_list_byte_of_string y).
  by f_equal.
Qed.

Lemma encode_app s t : encode (s ++ t) = (encode s ++ encode t)%list.
Proof.
  unfold encode, list_byte_of_string.
  induction s as [|c s IH]; [done|].
  change (String c s ++ t)%string with (String c (s ++ t)). cbn. by rewrite IH.
Qed.

(** ** Big-endian integers *)
Fixpoint be_bytes (k : nat) (n : Z) : bytes :=
  match k with
  | O => []
  | S k' => be_bytes k' (n / 256) ++ [byte_of_Z (n mod 256)]
  end.

(** [n.to_bytes(k, "big")] raises OverflowError when [n] does not fit. *)
Definition to_bytes_big (k : nat) (n : Z) : outcome bytes :=
  if (0 <=? n) && (n <? 256 ^ Z.of_nat k) then Ok (be_bytes k n) else Raise EOverflow.

(** [int.from_bytes(b, "big")]. *)
Definition from_bytes_big (b : bytes) : Z :=
  fold_left (fun acc x => acc * 256 + Z_of_byte x) b 0.

Lemma length_be_bytes k n : length (be_bytes k n) = k.
Proof. revert n. induction k; intros; [done|]. cbn. rewrite length_app, IHk. cbn. lia. Qed.

Lemma from_bytes_big_snoc b x : from_bytes_big (b ++ [x]) = from_bytes_big b * 256 + Z_of_byte x.
Proof. unfold from_bytes_big. by rewrite fold_left_app. Qed.

Lemma from_bytes_big_be_bytes k n :
  0 <= n < 256 ^ Z.of_nat k -> from_bytes_big (be_bytes k n) = n.
Proof.
  revert n. induction k as [|k IH]; intros n Hn.
  - cbn in *. lia.
  - rewrite Nat2Z.inj_succ, Z.pow_succ_r in Hn by lia.
    cbn [be_bytes]. rewrite from_bytes_big_snoc, IH, Z_of_byte_of_Z.
    + zdm.
    + apply Z.mod_pos_bound. lia.
    + split; [apply Z.div_pos; lia|]. apply Z.div_lt_upper_bound; lia.
Qed.

Lemma from_bytes_big_nonneg b : 0 <= from_bytes_big b.
Proof.
  induction b as [|x b IH] using rev_ind; [done|].
  rewrite from_bytes_big_snoc. pose proof (Z_of_byte_range x). lia.
Qed.

Lemma from_bytes_big_bound b : from_bytes_big b < 256 ^ Z.of_nat (length b).
Proof.
  induction b as [|x b IH] using rev_ind; [done|].
  rewrite from_bytes_big_snoc, length_app, Nat2Z.inj_add, Z.pow_add_r by lia.
  pose proof (Z_of_byte_range x). cbn. lia.
Qed.

(** ** Base64 *)
Definition b64_alphabet : string :=
  "ABCDEFGHIJKLMNOPQRSTUVWXYZabcdefghijklmnopqrstuvwxyz0123456789+/".

Definition b64_char (i : Z) : ascii :=
  match String.get (Z.to_nat i) b64_alphabet with Some c => c | None => "A"%char end.

Definition b64_val (c : ascii) : option Z :=
  let n := Z.of_N (N_of_ascii c) in
  if (65 <=? n) && (n <=? 90) then Some (n - 65)
  else if (97 <=? n) && (n <=? 122) then Some (n - 71)
  else if (48 <=? n) && (n <=? 57) then Some (n + 4)
  else if n =? 43 then Some 62
  else if n =? 47 then Some 63
  else None.

Definition b64_pad : ascii := "="%char.

Fixpoint b64encode (b : bytes) : list ascii :=
  match b with
  | [] => []
  | [x] =>
      let v := Z_of_byte x * 16 in
      [b64_char (v / 64); b64_char (v mod 64); b64_pad; b64_pad]
  | [x; y] =>
      let v := (Z_of_byte x * 256 + Z_of_byte y) * 4 in
      [b64_char (v / 4096); b64_char (v / 64 mod 64); b64_char (v mod 64); b64_pad]
  | x :: y :: z :: b' =>
      let v := Z_of_byte x * 65536 + Z_of_byte y * 256 + Z_of_byte z in
      b64_char (v / 262144) :: b64_char (v / 4096 mod 64) ::
      b64_char (v / 64 mod 64) :: b64_char (v mod 64) :: b64encode b'
  end.

(** [b64decode(s, validate=True)]: only whole groups of four alphabet
    characters, the last of which may carry one or two padding characters. *)
Fixpoint b64decode (s : list ascii) : option bytes :=
  match s with
  | [] => Some []
  | a :: b :: c :: d :: s' =>
      match b64_val a, b64_val b with
      | Some va, Some vb =>
          match b64_val c, b64_val d with
          | Some vc, Some vd =>
              let v := va * 262144 + vb * 4096 + vc * 64 + vd in
              match b64decode s' with
              | Some r => Some (byte_of_Z (v / 65536) :: byte_of_Z (v / 256 mod 256)
                                :: byte_of_Z (v mod 256) :: r)
              | None => None
              end
          | Some vc, None =>
              if bool_decide (d = b64_pad) && bool_decide (s' = []) then
                let v := va * 4096 + vb * 64 + vc in
                Some [byte_of_Z (v / 1024); byte_of_Z (v / 4 mod 256)]
              else None
          | None, _ =>
              if bool_decide (c = b64_pad) && bool_decide (d = b64_pad)
                 && bool_decide (s' = []) then
                Some [byte_of_Z ((va * 64 + vb) / 16)]
              else None
          end
      | _, _ => None
      end
  | _ => None
  end.

Lemma b64_val_char i : 0 <= i < 64 -> b64_val (b64_char i) = Some i.
Proof.
  intros Hi.
  assert (Hall : forallb (fun i => bool_decide (b64_val (b64_char (Z.of_nat i)) = Some (Z.of_nat i)))
                   (List.seq 0 64) = true) by (vm_compute; reflexivity).
  rewrite forallb_forall in Hall.
  specialize (Hall (Z.to_nat i)). rewrite Z2Nat.id in Hall by lia.
  eapply bool_decide_eq_true_1, Hall, in_seq. lia.
Qed.

Lemma bytes_ind3 (P : bytes -> Prop) :
  P [] -> (forall x, P [x]) -> (forall x y, P [x; y]) ->
  (forall x y z b, P b -> P (x :: y :: z :: b)) -> forall b, P b.
Proof.
  intros H0 H1 H2 H3 b.
  assert (Hn : forall n b, (length b <= n)%nat -> P b).
  { induction n as [|n IH]; intros [|x [|y [|z b']]] Hlen; auto; cbn in Hlen; try lia.
    apply H3, IH. lia. }
  by apply (Hn (length b)).
Qed.

Ltac b64_vals :=
  rewrite ?b64_val_char by zdm.

Lemma b64_val_pad : b64_val b64_pad = None.
Proof. reflexivity. Qed.

(** A byte written as an arithmetic expression is the byte of its value. *)
Ltac by_byte :=
  etransitivity; [|apply byte_of_Z_of_byte]; f_equal; zdm.

Lemma b64decode_encode b : b64decode (b64encode b) = Some b.
Proof.
  induction b as [|x|x y|x y z b IH] using bytes_ind3; [done|..];
    repeat match goal with v : Byte.byte |- _ =>
      match goal with
      | _ : 0 <= Z_of_byte v < 256 |- _ => fail 1
      | _ => pose proof (Z_of_byte_range v)
      end
    end;
    cbn [b64encode b64decode]; b64_vals; rewrite ?b64_val_pad, ?IH;
    repeat (f_equal; try by_byte).
Qed.

#[export] Hint Rewrite b64decode_encode byte_of_Z_of_byte : pybytes.
