(* ===== verification/PyText.v ===== *)
(** * Python text

    The string operations the package applies to keys and manifests: decimal
    and hexadecimal digits, [startswith] with the remainder, [split] on one
    character, maximal runs of a character class; with the facts the parsers
    need about them.  Texts are lists of characters. *)

From S2P Require Export PyBytes.
From stdpp Require Export pretty.
Open Scope Z_scope.
Open Scope py_scope.

(** ** Character classes *)
Definition is_digit (c : ascii) : bool :=
  let n := Z.of_N (N_of_ascii c) in (48 <=? n) && (n <=? 57).
Definition is_lower_hex (c : ascii) : bool :=
  let n := Z.of_N (N_of_ascii c) in is_digit c || ((97 <=? n) && (n <=? 102)).

Definition digit_value (c : ascii) : Z := Z.of_N (N_of_ascii c) - 48.

(** [int(text)] on a text of ASCII digits. *)
Definition dec_value (cs : list ascii) : Z := fold_left (fun a c => a * 10 + digit_value c) cs 0.

(** [[0-9a-f]{n}] as a full match. *)
Definition hex_run (n : nat) (s : string) : bool :=
  (String.length s =? n)%nat && forallb is_lower_hex (list_ascii_of_string s).

(** ** Prefixes, runs, fields *)
Section Lists.
Context {A : Type} `{EqDecision A}.

(** [text[len(p):]] when [text.startswith(p)]. *)
Fixpoint cut_prefix (p l : list A) : option (list A) :=
  match p, l with
  | [], _ => Some l
  | x :: p', y :: l' => if bool_decide (x = y) then cut_prefix p' l' else None
  | _ :: _, [] => None
  end.

Lemma cut_prefix_app p l : cut_prefix p (p ++ l) = Some l.
Proof. induction p as [|x p IH]; cbn; [done|]. by rewrite bool_decide_true. Qed.

Lemma cut_prefix_Some p l r : cut_prefix p l = Some r -> l = p ++ r.
Proof.
  revert l. induction p as [|x p IH]; intros [|y l]; cbn; try congruence.
  case_bool_decide; [|done]. intros ->%IH. by subst.
Qed.

Lemma cut_prefix_None p l r : cut_prefix p l = None -> l <> p ++ r.
Proof. intros H ->. by rewrite cut_prefix_app in H. Qed.

(** The longest prefix of a class, and the rest. *)
Fixpoint span (f : A -> bool) (l : list A) : list A * list A :=
  match l with
  | [] => ([], [])
  | x :: l' => if f x then let '(a, b) := span f l' in (x :: a, b) else ([], l)
  end.

Lemma span_app f l r :
  Forall (fun x => f x = true) l -> match r with [] => True | x :: _ => f x = false end ->
  span f (l ++ r) = (l, r).
Proof.
  intros Hl Hr. induction Hl as [|x l Hx _ IH]; cbn.
  - destruct r as [|y r]; cbn; [done|]. by rewrite Hr.
  - by rewrite Hx, IH.
Qed.

(** [text.split(sep)] on one character. *)
Fixpoint split_on (sep : A) (l : list A) : list (list A) :=
  match l with
  | [] => [[]]
  | x :: l' =>
      if bool_decide (x = sep) then [] :: split_on sep l'
      else match split_on sep l' with
           | w :: ws => (x :: w) :: ws
           | [] => [[x]]
           end
  end.

Lemma split_on_app sep w l : sep ∉ w -> split_on sep (w ++ sep :: l) = w :: split_on sep l.
Proof.
  induction w as [|x w IH]; intros Hw; cbn.
  - by rewrite bool_decide_true.
  - apply not_elem_of_cons in Hw as [Hx Hw]. rewrite bool_decide_false by congruence.
    by rewrite IH.
Qed.

Lemma split_on_word sep w : sep ∉ w -> split_on sep w = [w].
Proof.
  induction w as [|x w IH]; intros Hw; cbn; [done|].
  apply not_elem_of_cons in Hw as [Hx Hw]. rewrite bool_decide_false by congruence.
  by rewrite IH.
Qed.
End Lists.

(** [text.startswith(p)]. *)
Definition starts_with (p s : string) : bool :=
  match cut_prefix (list_ascii_of_string p) (list_ascii_of_string s) with
  | Some _ => true
  | None => false
  end.

Lemma list_ascii_app s t :
  list_ascii_of_string (s ++ t)%string = list_ascii_of_string s ++ list_ascii_of_string t.
Proof.
  induction s as [|c s IH]; [done|]. change (String c s ++ t)%string with (String c (s ++ t)).
  cbn [list_ascii_of_string]. by rewrite IH.
Qed.

#[export] Instance list_ascii_of_string_inj : Inj (=) (=) list_ascii_of_string.
Proof.
  intros s t E. rewrite <- (string_of_list_ascii_of_string s), <- (string_of_list_ascii_of_string t).
  by f_equal.
Qed.

Lemma starts_with_app p s : starts_with p (p ++ s)%string = true.
Proof. unfold starts_with. by rewrite list_ascii_app, cut_prefix_app. Qed.

Lemma length_list_ascii s : length (list_ascii_of_string s) = String.length s.
Proof. induction s as [|c s IH]; [done|]. cbn. by rewrite IH. Qed.

Lemma string_length_app s t :
  String.length (s ++ t)%string = (String.length s + String.length t)%nat.
Proof. by rewrite <- !length_list_ascii, list_ascii_app, length_app. Qed.

Lemma length_encode s : length (encode s) = String.length s.
Proof. unfold encode, list_byte_of_string. by rewrite length_map, length_list_ascii. Qed.

(** ** Decimal numerals: [str(n)] is [pretty n] *)
Definition decimal (z : Z) : string := pretty z.

Lemma dec_value_snoc l c : dec_value (l ++ [c]) = dec_value l * 10 + digit_value c.
Proof. unfold dec_value. by rewrite fold_left_app. Qed.

Lemma dec_value_app l r :
  dec_value (l ++ r) = dec_value l * 10 ^ Z.of_nat (length r) + dec_value r.
Proof.
  induction r as [|c r IH] using rev_ind; [cbn; rewrite app_nil_r; cbn; lia|].
  rewrite app_assoc, !dec_value_snoc, IH, length_app, Nat2Z.inj_add, Z.pow_add_r by lia. change (10 ^ Z.of_nat (length [c])) with 10. ring.
Qed.

Lemma pretty_N_char_digit x : (x < 10)%N ->
  is_digit (pretty_N_char x) = true /\ digit_value (pretty_N_char x) = Z.of_N x.
Proof.
  intros Hx. assert (Hc : In x (map N.of_nat (seq 0 10))).
  { apply in_map_iff. exists (N.to_nat x). split; [lia|]. apply in_seq. lia. }
  cbn in Hc. repeat (destruct Hc as [<-|Hc]; [by vm_compute|]). done.
Qed.

Lemma pretty_N_go_spec x : forall s, exists ds,
  list_ascii_of_string (pretty_N_go x s) = ds ++ list_ascii_of_string s
  /\ Forall (fun c => is_digit c = true) ds /\ dec_value ds = Z.of_N x
  /\ (forall k, Z.of_N x < 10 ^ Z.of_nat k -> (length ds <= k)%nat).
Proof.
  induction x as [x IH] using (well_founded_ind N.lt_wf_0). intros s.
  destruct (decide (x = 0)%N) as [->|Hx].
  - exists []. split; [by rewrite pretty_N_go_0|]. split; [constructor|]. split; [done|]. cbn. lia.
  - rewrite pretty_N_go_step by lia.
    destruct (IH (x `div` 10)%N (N.div_lt x 10 ltac:(lia) ltac:(lia))
                (String (pretty_N_char (x `mod` 10)) s)) as (ds & -> & Hd & Hv & Hl).
    pose proof (N.mod_lt x 10 ltac:(lia)) as Hm.
    destruct (pretty_N_char_digit (x `mod` 10)) as [Hc Hcv]; [done|].
    exists (ds ++ [pretty_N_char (x `mod` 10)]). split; [|split; [|split]].
    + cbn. by rewrite <- app_assoc.
    + apply Forall_app. split; [done|]. by constructor.
    + rewrite dec_value_app, Hv. cbn. rewrite Hcv.
      rewrite N2Z.inj_div, N2Z.inj_mod. pose proof (Z.div_mod (Z.of_N x) 10 ltac:(lia)). cbn in *. lia.
    + intros k Hk. rewrite length_app. cbn. destruct k as [|k]; [cbn in Hk; lia|].
      assert (length ds <= k)%nat; [|lia]. apply Hl. rewrite N2Z.inj_div.
      apply Z.div_lt_upper_bound; [lia|]. rewrite Nat2Z.inj_succ, Z.pow_succ_r in Hk; lia.
Qed.

Lemma decimal_spec z : 0 <= z -> exists ds,
  list_ascii_of_string (decimal z) = ds /\ ds <> []
  /\ Forall (fun c => is_digit c = true) ds /\ dec_value ds = z
  /\ (forall k, (0 < k)%nat -> z < 10 ^ Z.of_nat k -> (length ds <= k)%nat).
Proof.
  intros Hz. destruct z as [|p|p]; [| |lia].
  - exists ["0"%char]. split; [done|]. split; [done|]. split; [by repeat constructor|].
    split; [done|]. cbn. lia.
  - change (decimal (Z.pos p)) with (pretty_N_go (N.pos p) "").
    destruct (pretty_N_go_spec (N.pos p) "") as (ds & E & Hd & Hv & Hl).
    rewrite app_nil_r in E. exists ds. rewrite E. repeat split; auto.
    intros ->. by cbn in Hv.
Qed.

Lemma decimal_value z : 0 <= z -> dec_value (list_ascii_of_string (decimal z)) = z.
Proof. intros (ds & -> & _ & _ & H & _)%decimal_spec. done. Qed.

Lemma decimal_digits z :
  0 <= z -> Forall (fun c => is_digit c = true) (list_ascii_of_string (decimal z)).
Proof. intros (ds & -> & _ & H & _)%decimal_spec. done. Qed.

Lemma decimal_length z k :
  (0 < k)%nat -> 0 <= z < 10 ^ Z.of_nat k -> (String.length (decimal z) <= k)%nat.
Proof.
  intros Hk [Hz Hb]. destruct (decimal_spec z Hz) as (ds & E & _ & _ & _ & H).
  rewrite <- length_list_ascii, E. by apply H.
Qed.

Lemma decimal_inj z1 z2 : 0 <= z1 -> 0 <= z2 -> decimal z1 = decimal z2 -> z1 = z2.
Proof. intros H1 H2 E. by rewrite <- (decimal_value z1), <- (decimal_value z2), E. Qed.

(** A character outside a class does not occur in a run of it. *)
Lemma not_in_run {A} (f : A -> bool) l x :
  Forall (fun y => f y = true) l -> f x = false -> x ∉ l.
Proof. intros Hl Hx Hin. rewrite Forall_forall in Hl. apply Hl in Hin. congruence. Qed.
