(* ===== verification/Json.v ===== *)
(** * JSON trees and the text codec

    The snapshots of the in-process strategies, the snapshot manifests and the
    serializer go through Python's [json] module.  The trees are data here; the
    text layer ([json.dumps], [json.loads]) is a class with the round-trip law
    the code relies on, and an instance shows that the law can hold.  base64,
    which the snapshots use for item bytes, is computed (PyBytes). *)

From S2P Require Export PyFloat PyBytes.

#[warnings="-register-all"]
Inductive json :=
  | JNull
  | JBool (b : bool)
  | JInt (z : Z)
  | JFloat (f : float)
  | JStr (s : string)
  | JList (l : list json)
  | JObj (l : list (string * json)).

Section JsonInd.
Variable P : json -> Prop.
Hypothesis HNull : P JNull.
Hypothesis HBool : forall b, P (JBool b).
Hypothesis HInt : forall z, P (JInt z).
Hypothesis HFloat : forall f, P (JFloat f).
Hypothesis HStr : forall s, P (JStr s).
Hypothesis HList : forall l, Forall P l -> P (JList l).
Hypothesis HObj : forall l, Forall (fun kv => P (snd kv)) l -> P (JObj l).

Fixpoint json_ind' (j : json) : P j :=
  match j with
  | JNull => HNull
  | JBool b => HBool b
  | JInt z => HInt z
  | JFloat f => HFloat f
  | JStr s => HStr s
  | JList l => HList l ((fix go (l : list json) : Forall P l :=
      match l with
      | [] => Forall_nil_2 P
      | x :: l' => Forall_cons_2 P x l' (json_ind' x) (go l')
      end) l)
  | JObj l => HObj l ((fix go (l : list (string * json)) : Forall (fun kv => P (snd kv)) l :=
      match l with
      | [] => Forall_nil_2 _
      | x :: l' => Forall_cons_2 (fun kv => P (snd kv)) x l' (json_ind' (snd x)) (go l')
      end) l)
  end.
End JsonInd.

(** What the text layer preserves: object keys are distinct (Python dicts), and
    integers stay below the interpreter's int/str conversion limit. *)
Definition max_str_digits : Z := 4300.

Fixpoint json_wf (j : json) : Prop :=
  match j with
  | JInt z => Z.abs z < 10 ^ max_str_digits
  | JList l => (fix go (l : list json) : Prop :=
      match l with [] => True | x :: l' => json_wf x /\ go l' end) l
  | JObj l => NoDup (map fst l) /\ (fix go (l : list (string * json)) : Prop :=
      match l with [] => True | x :: l' => json_wf (snd x) /\ go l' end) l
  | _ => True
  end.

Lemma json_wf_list l : json_wf (JList l) <-> Forall json_wf l.
Proof.
  induction l as [|x l IH]; [by split|]. rewrite Forall_cons, <- IH. done.
Qed.

Lemma json_wf_obj l :
  json_wf (JObj l) <-> NoDup (map fst l) /\ Forall (fun kv => json_wf (snd kv)) l.
Proof.
  cbn. apply and_iff_compat_l. induction l as [|x l IH]; [by split|].
  rewrite Forall_cons, <- IH. done.
Qed.

(** [dict.get] on a parsed object. *)
Fixpoint assoc_get (k : string) (l : list (string * json)) : option json :=
  match l with
  | [] => None
  | (k', v) :: l' => if bool_decide (k' = k) then Some v else assoc_get k l'
  end.

(** ** The text layer *)
Class JsonText := {
  json_dumps : json -> bytes;
  json_loads : bytes -> outcome json;
  (** The interpreter's [float(str)], reachable from the legacy formats. *)
  float_of_string : string -> option float
}.
Class JsonTextLaws `{JsonText} : Prop := {
  json_loads_dumps : forall j, json_wf j -> json_loads (json_dumps j) = Ok j
}.

(** [float(value)] on a parsed value. *)
Definition py_float `{JsonText} (j : json) : outcome float :=
  match j with
  | JBool b => Ok (float_of_Z (if b then 1 else 0))
  | JInt z => let f := float_of_Z z in if isfinite f then Ok f else Raise EOverflow
  | JFloat f => Ok f
  | JStr s => match float_of_string s with Some f => Ok f | None => Raise EValue end
  | _ => Raise EType
  end.

(** A parsed value as a dynamically typed argument. *)
Definition arg_of_json (j : json) : pyarg :=
  match j with
  | JBool b => ABool b | JInt z => AInt z | JFloat f => AFloat f | _ => AOther
  end.

(** [dict[key]]: KeyError on a missing key. *)
Definition item_of (k : string) (o : list (string * json)) : outcome json :=
  match assoc_get k o with Some v => Ok v | None => Raise EValue end.

(** ** base64 fields *)
Definition b64_json (b : bytes) : json := JStr (string_of_list_ascii (b64encode b)).

(** [base64.b64decode(value, validate=True)]: TypeError on a non-string. *)
Definition b64_of_json (j : json) : outcome bytes :=
  match j with
  | JStr s => match b64decode (list_ascii_of_string s) with
              | Some b => Ok b
              | None => Raise EValue
              end
  | _ => Raise EType
  end.

Fixpoint mapM_o {A C} (f : A -> outcome C) (l : list A) : outcome (list C) :=
  match l with
  | [] => Ok []
  | x :: l' => obind (f x) (fun y => omap (cons y) (mapM_o f l'))
  end.

Lemma b64_of_json_b64 b : b64_of_json (b64_json b) = Ok b.
Proof.
  unfold b64_of_json, b64_json. by rewrite list_ascii_of_string_of_list_ascii, b64decode_encode.
Qed.

Lemma mapM_o_map {A C D} (f : A -> outcome C) (g : D -> A) (h : D -> C) l :
  (forall x, x ∈ l -> f (g x) = Ok (h x)) -> mapM_o f (map g l) = Ok (map h l).
Proof.
  induction l as [|x l IH]; intros Hf; [done|]. cbn.
  rewrite (Hf x) by left. cbn. rewrite IH by (intros; apply Hf; by right). done.
Qed.

Lemma b64_list_roundtrip l : mapM_o b64_of_json (map b64_json l) = Ok l.
Proof.
  rewrite (mapM_o_map _ _ id) by (intros; apply b64_of_json_b64). by rewrite map_id.
Qed.

Lemma json_wf_b64_list l : json_wf (JList (map b64_json l)).
Proof. apply json_wf_list, Forall_forall. by intros x (y & -> & _)%list_elem_of_fmap. Qed.

(** ** The frame of the strategy snapshots *)

(** The version and strategy checks that open every [restore]. *)
Definition snapshot_header (strategy : string) (o : list (string * json)) : bool :=
  match assoc_get "strategy" o, assoc_get "version" o with
  | Some (JStr s), Some (JInt 1) => bool_decide (s = strategy)
  | _, _ => false
  end.

(** [except Exception: restore_failed = True] followed by the stable error. *)
Definition restore_guard {A} (o : outcome A) : outcome A :=
  match o with
  | Raise e => Raise (if is_ordinary e then ERestore else e)
  | Ok a => Ok a
  end.

(** ** An instance: a self-delimiting code of the tree *)
Module PlainText.
Inductive leaf :=
  | LNull | LBool (b : bool) | LInt (z : Z) | LStr (s : string)
  | LFloat (k : nat) (s : bool) (m : positive) (e : Z).

#[local] Instance leaf_eq_dec : EqDecision leaf.
Proof. solve_decision. Defined.

#[local] Instance leaf_countable : Countable leaf.
Proof.
  refine (inj_countable'
    (fun l => match l with
              | LNull => inl tt
              | LBool b => inr (inl b)
              | LInt z => inr (inr (inl z))
              | LStr s => inr (inr (inr (inl s)))
              | LFloat k s m e => inr (inr (inr (inr (k, s, m, e))))
              end)
    (fun c => match c with
              | inl tt => LNull
              | inr (inl b) => LBool b
              | inr (inr (inl z)) => LInt z
              | inr (inr (inr (inl s))) => LStr s
              | inr (inr (inr (inr (k, s, m, e)))) => LFloat k s m e
              end) _).
  by intros [].
Defined.

Definition leaf_of_float (f : float) : leaf :=
  match f with
  | S754_zero s => LFloat 0 s 1 0
  | S754_infinity s => LFloat 1 s 1 0
  | S754_nan => LFloat 2 false 1 0
  | S754_finite s m e => LFloat 3 s m e
  end.

Fixpoint to_tree (j : json) : gen_tree leaf :=
  match j with
  | JNull => GenLeaf LNull
  | JBool b => GenLeaf (LBool b)
  | JInt z => GenLeaf (LInt z)
  | JFloat f => GenLeaf (leaf_of_float f)
  | JStr s => GenLeaf (LStr s)
  | JList l => GenNode 0 (map to_tree l)
  | JObj l => GenNode 1 (map (fun kv => GenNode 2 [GenLeaf (LStr (fst kv)); to_tree (snd kv)]) l)
  end.

Fixpoint of_tree (t : gen_tree leaf) : json :=
  match t with
  | GenLeaf LNull => JNull
  | GenLeaf (LBool b) => JBool b
  | GenLeaf (LInt z) => JInt z
  | GenLeaf (LStr s) => JStr s
  | GenLeaf (LFloat k s m e) =>
      JFloat (match k with
              | 0 => S754_zero s
              | 1 => S754_infinity s
              | 2 => S754_nan
              | _ => S754_finite s m e
              end)%nat
  | GenNode 0 ts => JList (map of_tree ts)
  | GenNode 1 ts => JObj (map (fun t => match t with
                                        | GenNode _ [GenLeaf (LStr k); v] => (k, of_tree v)
                                        | _ => (EmptyString, JNull)
                                        end) ts)
  | GenNode _ _ => JNull
  end.

Lemma of_to_tree j : of_tree (to_tree j) = j.
Proof.
  induction j as [| | |[]| |l IH|l IH] using json_ind'; try done; cbn [to_tree of_tree];
    f_equal; induction IH as [|x l Hx _ IHl]; cbn; congruence || (destruct x; cbn in *; congruence).
Qed.

Fixpoint bits_of_pos (p : positive) : bytes :=
  match p with xH => [] | xO p => x00 :: bits_of_pos p | xI p => x01 :: bits_of_pos p end.
Fixpoint pos_of_bits (b : bytes) : positive :=
  match b with
  | [] => xH
  | x :: b' => if bool_decide (x = x00) then xO (pos_of_bits b') else xI (pos_of_bits b')
  end.

Lemma pos_of_bits_of_pos p : pos_of_bits (bits_of_pos p) = p.
Proof. by induction p as [p IH|p IH|]; cbn; rewrite ?IH. Qed.

Definition text : JsonText := {|
  json_dumps j := bits_of_pos (countable.encode (to_tree j));
  json_loads b := match countable.decode (pos_of_bits b) with
                  | Some t => Ok (of_tree t)
                  | None => Raise EValue
                  end;
  float_of_string _ := None
|}.

Lemma laws : @JsonTextLaws text.
Proof.
  constructor. intros j _. cbn.
  by rewrite pos_of_bits_of_pos, decode_encode, of_to_tree.
Qed.
End PlainText.
