(* ===== verification/Codec.v ===== *)
(** * The JSON codec

    backends/_json_codec.py: rich Python values (bytes, dates, decimals, sets,
    enums, ...) to JSON trees with escaped type markers and back.  A wire tree is
    a [json] whose objects list their members as written, duplicates included;
    the decoding hooks of [json.loads] run on it bottom-up.  ISO dates are
    parameters. *)

From S2P Require Export Json.

Module Codec.
Definition BYTES_TAG : string := "__b64__".
Definition CODEC_TAG : string := "__scrapy_extension_json_type__".
Definition CODEC_DATA : string := "data".
Definition CODEC_BYTES : string := "bytes".
Definition CODEC_DICT : string := "dict".
Definition CODEC_DATETIME : string := "datetime".
Definition CODEC_DATE : string := "date".

(** [datetime] and [date] with [isoformat] and [fromisoformat]. *)
Class IsoDates := {
  datetime : Type; date : Type;
  datetime_isoformat : datetime -> string; datetime_fromisoformat : string -> option datetime;
  date_isoformat : date -> string; date_fromisoformat : string -> option date
}.
Class IsoDatesLaws `{IsoDates} : Prop := {
  datetime_iso : forall d, datetime_fromisoformat (datetime_isoformat d) = Some d;
  date_iso : forall d, date_fromisoformat (date_isoformat d) = Some d
}.

(** The exception of the secret wrappers, a TypeError once outside the codec,
    is told apart from other TypeErrors by this tag. *)
Definition ESecret : exn := EPlugin 77.

Section Codec.
Context {I : IsoDates}.

(** ** Values *)

(** A dictionary key: a string, a secret wrapper, or an object of another type. *)
Inductive key := KStr (s : string) | KSecret | KOther.

#[warnings="-register-all"]
Inductive value :=
  | VNone
  | VBool (b : bool)
  | VInt (z : Z)
  | VFloat (f : float)
  | VStr (s : string)
  | VBytes (b : bytes)
  | VByteArray (b : bytes)
  | VDatetime (d : datetime)
  | VDate (d : date)
  | VDecimal (finite : bool) (text : string)
  | VUuid (text : string)
  | VPath (text : string)
  | VSet (l : list value)               (* in its iteration order *)
  | VEnum (v : value)                   (* a member with this declared value *)
  | VList (l : list value)
  | VTuple (l : list value)
  | VDict (l : list (key * value))
  | VSecret                             (* SecretStr, SecretBytes *)
  | VOther.                             (* any other type *)

Section ValueInd.
Variable P : value -> Prop.
Hypothesis HLeaf : forall v, match v with VSet _ | VEnum _ | VList _ | VTuple _ | VDict _ => True | _ => P v end.
Hypothesis HSet : forall l, Forall P l -> P (VSet l).
Hypothesis HEnum : forall v, P v -> P (VEnum v).
Hypothesis HList : forall l, Forall P l -> P (VList l).
Hypothesis HTuple : forall l, Forall P l -> P (VTuple l).
Hypothesis HDict : forall l, Forall (fun kv => P (snd kv)) l -> P (VDict l).

Fixpoint value_ind' (v : value) : P v :=
  let fix go (l : list value) : Forall P l :=
    match l with [] => Forall_nil_2 P | x :: l' => Forall_cons_2 P x l' (value_ind' x) (go l') end in
  match v with
  | VSet l => HSet l (go l)
  | VEnum v => HEnum v (value_ind' v)
  | VList l => HList l (go l)
  | VTuple l => HTuple l (go l)
  | VDict l => HDict l ((fix god (l : list (key * value)) : Forall (fun kv => P (snd kv)) l :=
      match l with
      | [] => Forall_nil_2 _
      | x :: l' => Forall_cons_2 (fun kv => P (snd kv)) x l' (value_ind' (snd x)) (god l')
      end) l)
  | v => HLeaf v
  end.
End ValueInd.

(** ** Encoding *)
Definition marker (kind text : string) : json := JObj [(CODEC_TAG, JStr kind); (CODEC_DATA, JStr text)].
Definition b64_text (b : bytes) : string := string_of_list_ascii (b64encode b).
Definition bytes_marker (b : bytes) : json := marker CODEC_BYTES (b64_text b).

Definition is_jstr (j : option json) : bool := match j with Some (JStr _) => true | _ => false end.

(** [_looks_like_codec_marker] on an encoded object. *)
Definition looks_like_codec_marker (o : list (string * json)) : bool :=
  ((length o =? 1)%nat && is_jstr (assoc_get BYTES_TAG o))
  || ((length o =? 2)%nat
      && match assoc_get CODEC_TAG o with
         | Some (JStr t) => bool_decide (t ∈ [CODEC_BYTES; CODEC_DICT; CODEC_DATETIME; CODEC_DATE])
         | _ => false
         end
      && bool_decide (is_Some (assoc_get CODEC_DATA o))).

Definition escape (o : list (string * json)) : json :=
  if looks_like_codec_marker o
  then JObj [(CODEC_TAG, JStr CODEC_DICT);
             (CODEC_DATA, JList (map (fun kv => JList [JStr (fst kv); snd kv]) o))]
  else JObj o.

(** The key check that precedes the encoding of the values. *)
Fixpoint check_keys (ks : list key) : outcome (list string) :=
  match ks with
  | [] => Ok []
  | KStr s :: ks' => omap (cons s) (check_keys ks')
  | KSecret :: _ => Raise ESecret
  | KOther :: _ => Raise EType
  end.

(** [_encode_json_value]. *)
Fixpoint encode_json_value (v : value) : outcome json :=
  let fix encode_list (l : list value) : outcome (list json) :=
    match l with
    | [] => Ok []
    | x :: l' => obind (encode_json_value x) (fun j => omap (cons j) (encode_list l'))
    end in
  match v with
  | VSecret => Raise ESecret
  | VBytes b | VByteArray b => Ok (bytes_marker b)
  | VDatetime d => Ok (marker CODEC_DATETIME (datetime_isoformat d))
  | VDate d => Ok (marker CODEC_DATE (date_isoformat d))
  | VDict l =>
      obind (check_keys (map fst l)) (fun ks =>
      omap (fun js => escape (zip ks js))
        ((fix encode_values (l : list (key * value)) : outcome (list json) :=
            match l with
            | [] => Ok []
            | x :: l' => obind (encode_json_value (snd x)) (fun j => omap (cons j) (encode_values l'))
            end) l))
  | VList l | VTuple l => omap JList (encode_list l)
  | VFloat f => if isfinite f then Ok (JFloat f) else Raise EValue
  | VNone => Ok JNull
  | VBool b => Ok (JBool b)
  | VInt z => Ok (JInt z)
  | VStr s => Ok (JStr s)
  (* [_json_default], then the encoding of what it returns *)
  | VDecimal finite text => if finite then Ok (JStr text) else Raise EValue
  | VUuid text | VPath text => Ok (JStr text)
  | VSet l => omap JList (encode_list l)
  | VEnum v => encode_json_value v
  | VOther => Raise EType
  end.

(** ** Decoding *)
Definition vget (k : string) (l : list (string * value)) : option value :=
  match List.find (fun kv => bool_decide (fst kv = k)) l with
  | Some kv => Some (snd kv)
  | None => None
  end.
Definition vdict (l : list (string * value)) : value := VDict (map (fun kv => (KStr (fst kv), snd kv)) l).

(** The validated base64 decoding of a text, None on an error. *)
Definition b64_value (s : string) : option value :=
  option_map VBytes (b64decode (list_ascii_of_string s)).

(** [_decode_bytes_tag]. *)
Definition decode_bytes_tag (o : list (string * value)) : value :=
  match o, vget BYTES_TAG o with
  | [_], Some (VStr s) => match b64_value s with Some v => v | None => vdict o end
  | _, _ => vdict o
  end.

(** The pairs of an escaped dictionary, when every entry is one. *)
Fixpoint escaped_pairs (l : list value) : option (list (string * value)) :=
  match l with
  | [] => Some []
  | VList [VStr k; v] :: l' => option_map (cons (k, v)) (escaped_pairs l')
  | _ => None
  end.

(** Building a dictionary from pairs, refusing duplicate names. *)
Definition unique_dict {A} (l : list (string * A)) : outcome (list (string * A)) :=
  if decide (NoDup (map fst l)) then Ok l else Raise EValue.

Definition tag_is (t : string) (o : list (string * value)) : bool :=
  match vget CODEC_TAG o with Some (VStr t') => bool_decide (t' = t) | _ => false end.

Definition text_marker (o : list (string * value)) (s : string) : option value :=
  if tag_is CODEC_BYTES o then b64_value s
  else if tag_is CODEC_DATETIME o then option_map VDatetime (datetime_fromisoformat s)
  else if tag_is CODEC_DATE o then option_map VDate (date_fromisoformat s)
  else None.

(** [_decode_marker_dict]. *)
Definition decode_marker_dict (o : list (string * value)) : outcome value :=
  let plain := Ok (decode_bytes_tag o) in
  if negb (length o =? 2)%nat then plain
  else match vget CODEC_DATA o with
       | Some (VList items) =>
           if tag_is CODEC_DICT o then
             match escaped_pairs items with
             | Some pairs => omap vdict (unique_dict pairs)
             | None => plain
             end
           else plain
       | Some (VStr s) => match text_marker o s with Some v => Ok v | None => plain end
       | _ => plain
       end.

(** [_json_object_from_pairs]. *)
Definition json_object_from_pairs (pairs : list (string * value)) : outcome value :=
  obind (unique_dict pairs) decode_marker_dict.

(** The hooks of [json.loads] over a wire tree, bottom-up. *)
Fixpoint decode_tree (j : json) : outcome value :=
  match j with
  | JNull => Ok VNone
  | JBool b => Ok (VBool b)
  | JInt z => Ok (VInt z)
  | JFloat f => if isfinite f then Ok (VFloat f) else Raise EValue
  | JStr s => Ok (VStr s)
  | JList l => omap VList ((fix go (l : list json) : outcome (list value) :=
      match l with
      | [] => Ok []
      | x :: l' => obind (decode_tree x) (fun v => omap (cons v) (go l'))
      end) l)
  | JObj l => obind ((fix go (l : list (string * json)) : outcome (list (string * value)) :=
      match l with
      | [] => Ok []
      | x :: l' => obind (decode_tree (snd x)) (fun v => omap (cons (fst x, v)) (go l'))
      end) l) json_object_from_pairs
  end.

(** ** [JSONSerializer] *)
Context {J : JsonText}.

(** [int.__str__] refuses integers beyond the interpreter's digit limit. *)
Fixpoint printable (j : json) : bool :=
  match j with
  | JInt z => Z.abs z <? 10 ^ max_str_digits
  | JList l => forallb printable l
  | JObj l => forallb (fun kv => printable (snd kv)) l
  | _ => true
  end.

Definition serialize (v : value) : outcome bytes :=
  match encode_json_value v with
  | Ok j => if printable j then Ok (json_dumps j) else Raise EValue
  | Raise e => Raise (if decide (e = ESecret) then EType else e)
  end.

Definition deserialize (data : bytes) : outcome value := obind (json_loads data) decode_tree.
End Codec.
(** ** Lemmas *)
Section Facts.
Context {I : IsoDates}.

(** The loops of the recursive functions are monadic maps. *)
Lemma encode_list_map l :
  (fix encode_list (l : list value) : outcome (list json) :=
    match l with
    | [] => Ok []
    | x :: l' => obind (encode_json_value x) (fun j => omap (cons j) (encode_list l'))
    end) l = mapM_o encode_json_value l.
Proof. induction l as [|x l IH]; [done|]. cbn. by rewrite IH. Qed.

Lemma encode_list_eq l : encode_json_value (VList l) = omap JList (mapM_o encode_json_value l).
Proof. cbn. by rewrite encode_list_map. Qed.
Lemma encode_tuple_eq l : encode_json_value (VTuple l) = omap JList (mapM_o encode_json_value l).
Proof. cbn. by rewrite encode_list_map. Qed.
Lemma encode_set_eq l : encode_json_value (VSet l) = omap JList (mapM_o encode_json_value l).
Proof. cbn. by rewrite encode_list_map. Qed.

Lemma encode_dict_eq l : encode_json_value (VDict l) =
  obind (check_keys (map fst l)) (fun ks =>
    omap (fun js => escape (zip ks js)) (mapM_o (fun kv => encode_json_value (snd kv)) l)).
Proof.
  cbn. destruct (check_keys _); [|done]. cbn. f_equal.
  induction l as [|x l IH]; [done|]. cbn. by rewrite IH.
Qed.

Lemma decode_list_eq l : decode_tree (JList l) = omap VList (mapM_o decode_tree l).
Proof. cbn. f_equal. induction l as [|x l IH]; [done|]. cbn. by rewrite IH. Qed.

Definition decode_member (kv : string * json) : outcome (string * value) :=
  omap (pair (fst kv)) (decode_tree (snd kv)).

Lemma decode_obj_eq l : decode_tree (JObj l) = obind (mapM_o decode_member l) json_object_from_pairs.
Proof.
  cbn. f_equal. induction l as [|x l IH]; [done|]. cbn. unfold decode_member at 1.
  destruct (decode_tree (snd x)); [|done]. cbn. by rewrite IH.
Qed.

Lemma mapM_o_ok {A C} (f : A -> outcome C) l r :
  mapM_o f l = Ok r -> Forall2 (fun x y => f x = Ok y) l r.
Proof.
  revert r. induction l as [|x l IH]; intros r; cbn.
  - intros [= <-]. constructor.
  - intros (y & Hy & (r' & Hr & ->)%omap_ok)%obind_ok. constructor; auto.
Qed.

Lemma mapM_o_intro {A C} (f : A -> outcome C) l r :
  Forall2 (fun x y => f x = Ok y) l r -> mapM_o f l = Ok r.
Proof. induction 1 as [|x y l r Hxy _ IH]; cbn; [done|]. by rewrite Hxy, IH. Qed.

Lemma check_keys_ok ks ss : check_keys ks = Ok ss -> ks = map KStr ss.
Proof.
  revert ss. induction ks as [|[s| |] ks IH]; intros ss; cbn; [by intros [= <-]| |done|done].
  intros (ss' & H%IH & ->)%omap_ok. by rewrite H.
Qed.

(** ** What a value comes back as *)
Fixpoint norm (v : value) : value :=
  match v with
  | VByteArray b => VBytes b
  | VDecimal _ s | VUuid s | VPath s => VStr s
  | VSet l | VTuple l | VList l => VList (map norm l)
  | VEnum v => norm v
  | VDict l => VDict (map (fun kv => (fst kv, norm (snd kv))) l)
  | v => v
  end.

(** Python dictionaries have distinct keys. *)
Fixpoint distinct_keys (v : value) : Prop :=
  match v with
  | VSet l | VTuple l | VList l =>
      (fix go (l : list value) : Prop :=
         match l with [] => True | x :: l' => distinct_keys x /\ go l' end) l
  | VEnum v => distinct_keys v
  | VDict l => NoDup (map fst l) /\
      (fix go (l : list (key * value)) : Prop :=
         match l with [] => True | x :: l' => distinct_keys (snd x) /\ go l' end) l
  | _ => True
  end.

Lemma distinct_list l :
  (fix go (l : list value) : Prop :=
     match l with [] => True | x :: l' => distinct_keys x /\ go l' end) l <-> Forall distinct_keys l.
Proof. induction l as [|x l IH]; [by split|]. rewrite Forall_cons, <- IH. done. Qed.

Lemma distinct_dict l : distinct_keys (VDict l) <->
  NoDup (map fst l) /\ Forall (fun kv => distinct_keys (snd kv)) l.
Proof.
  cbn. apply and_iff_compat_l. induction l as [|x l IH]; [by split|].
  rewrite Forall_cons, <- IH. done.
Qed.

(** A decoded string was a string on the wire. *)
Lemma b64_value_bytes s v : b64_value s = Some v -> exists b, v = VBytes b.
Proof. unfold b64_value. destruct (b64decode _) as [b|]; [|done]. intros [= <-]. by exists b. Qed.

Lemma decode_bytes_tag_not_str o s : decode_bytes_tag o <> VStr s.
Proof.
  unfold decode_bytes_tag, vdict. destruct o as [|? [|]]; try done.
  destruct (vget _ _) as [[]|]; try done.
  destruct (b64_value _) eqn:E; [|done]. by apply b64_value_bytes in E as [b ->].
Qed.

Lemma decode_marker_not_str o v s : decode_marker_dict o = Ok v -> v <> VStr s.
Proof.
  unfold decode_marker_dict, vdict. assert (Hp : Ok (decode_bytes_tag o) = Ok v -> v <> VStr s).
  { intros [= <-]. apply decode_bytes_tag_not_str. }
  destruct (negb _); [done|]. destruct (vget _ _) as [[]|]; try done.
  - unfold text_marker, b64_value.
    destruct (tag_is _ _); [destruct (b64decode _); [by intros [= <-]|done]|].
    destruct (tag_is _ _); [destruct (datetime_fromisoformat _); [by intros [= <-]|done]|].
    destruct (tag_is _ _); [destruct (date_fromisoformat _); [by intros [= <-]|done]|done].
  - destruct (tag_is _ _); [|done]. destruct (escaped_pairs l); [|done].
    by intros (? & _ & ->)%omap_ok.
Qed.

Lemma decode_str j s : decode_tree j = Ok (VStr s) -> j = JStr s.
Proof.
  destruct j; try done.
  - cbn. by destruct (isfinite f).
  - by intros [= ->].
  - rewrite decode_list_eq. by intros (? & _ & ?)%omap_ok.
  - rewrite decode_obj_eq. unfold json_object_from_pairs.
    by intros (? & _ & (? & _ & H%(decode_marker_not_str _ _ s))%obind_ok)%obind_ok.
Qed.

(** Lookups on the wire and in the decoded members correspond. *)
Lemma assoc_vget k o vs : Forall2 (fun kv vv => decode_member kv = Ok vv) o vs ->
  match assoc_get k o with
  | Some j => exists v, vget k vs = Some v /\ decode_tree j = Ok v
  | None => vget k vs = None
  end.
Proof.
  unfold vget. induction 1 as [|[k1 j] vv o vs (v & Hv & ->)%omap_ok _ IH]; cbn; [done|].
  case_bool_decide; [by exists v|]. exact IH.
Qed.

Lemma tag_is_wire t o vs : Forall2 (fun kv vv => decode_member kv = Ok vv) o vs ->
  tag_is t vs = true -> assoc_get CODEC_TAG o = Some (JStr t).
Proof.
  intros Hf. unfold tag_is. pose proof (assoc_vget CODEC_TAG _ _ Hf) as H.
  destruct (assoc_get CODEC_TAG o) as [j|].
  - destruct H as (v & -> & Hj). destruct v; try done. intros ->%bool_decide_eq_true.
    by apply decode_str in Hj as ->.
  - by rewrite H.
Qed.

Lemma decode_members_keys o vs : Forall2 (fun kv vv => decode_member kv = Ok vv) o vs ->
  map fst vs = map fst o.
Proof. induction 1 as [|[k j] vv o vs (v & _ & ->)%omap_ok _ IH]; cbn; [done|]. by f_equal. Qed.

(** An object without the shape of a marker is decoded as itself. *)
Lemma decode_plain_object o vs : Forall2 (fun kv vv => decode_member kv = Ok vv) o vs ->
  NoDup (map fst o) -> looks_like_codec_marker o = false -> decode_tree (JObj o) = Ok (vdict vs).
Proof.
  intros Hf Hn Hm. rewrite decode_obj_eq, (mapM_o_intro _ _ _ Hf). cbn.
  unfold json_object_from_pairs, unique_dict. pose proof (decode_members_keys _ _ Hf) as Hk.
  rewrite decide_True by (by rewrite Hk). cbn.
  apply orb_false_iff in Hm as [Hm1 Hm2]. pose proof (Forall2_length _ _ _ Hf) as Hl.
  assert (Hplain : decode_bytes_tag vs = vdict vs).
  { unfold decode_bytes_tag. destruct vs as [|v1 [|]]; try done.
    pose proof (assoc_vget BYTES_TAG _ _ Hf) as H. destruct o as [|? [|]]; try done.
    destruct (assoc_get BYTES_TAG _) as [j|]; [|by rewrite H].
    destruct H as (v & -> & Hj). destruct v; try done. apply decode_str in Hj as ->. done. }
  unfold decode_marker_dict. rewrite Hplain, <- Hl.
  destruct (length o =? 2)%nat; [|done]. cbn [negb].
  pose proof (assoc_vget CODEC_DATA _ _ Hf) as Hd.
  destruct (assoc_get CODEC_DATA o) as [j|] eqn:Ed; [|by rewrite Hd].
  destruct Hd as (v & -> & _).
  assert (Htag : forall t, t ∈ [CODEC_BYTES; CODEC_DICT; CODEC_DATETIME; CODEC_DATE] -> tag_is t vs = false).
  { intros t Ht. destruct (tag_is t vs) eqn:E; [|done]. apply (tag_is_wire _ _ _ Hf) in E.
    rewrite E in Hm2. by rewrite !bool_decide_true in Hm2. }
  destruct v; try done.
  - unfold text_marker. rewrite !Htag by set_solver. done.
  - by rewrite Htag by set_solver.
Qed.

Lemma decode_marker_text kind s : decode_tree (marker kind s) =
  obind (Ok [(CODEC_TAG, VStr kind); (CODEC_DATA, VStr s)]) decode_marker_dict.
Proof. done. Qed.

Lemma decode_pairs o vs : Forall2 (fun kv vv => decode_member kv = Ok vv) o vs ->
  mapM_o decode_tree (map (fun kv => JList [JStr (fst kv); snd kv]) o)
  = Ok (map (fun kv => VList [VStr (fst kv); snd kv]) vs).
Proof.
  induction 1 as [|[k j] vv o vs (v & Hv & ->)%omap_ok _ IH]; [done|].
  cbn [map mapM_o fst snd]. rewrite decode_list_eq. cbn in Hv |- *. rewrite Hv. cbn. by rewrite IH.
Qed.

Lemma escaped_pairs_map vs :
  escaped_pairs (map (fun kv => VList [VStr (fst kv); snd kv]) vs) = Some vs.
Proof. induction vs as [|[k v] vs IH]; cbn; [done|]. by rewrite IH. Qed.

(** Escaping protects any dictionary. *)
Lemma decode_escape o vs : Forall2 (fun kv vv => decode_member kv = Ok vv) o vs ->
  NoDup (map fst o) -> decode_tree (escape o) = Ok (vdict vs).
Proof.
  intros Hf Hn. unfold escape. destruct (looks_like_codec_marker o) eqn:E.
  - rewrite decode_obj_eq. cbn [mapM_o]. unfold decode_member. cbn [fst snd].
    rewrite decode_list_eq, (decode_pairs _ _ Hf). cbn.
    unfold json_object_from_pairs, unique_dict, decode_marker_dict. cbn [map fst].
    rewrite decide_True by (apply NoDup_cons; split; [by set_solver|apply NoDup_singleton]).
    unfold obind. cbv beta iota. cbn [length Nat.eqb negb].
    change (vget CODEC_DATA _) with
      (Some (VList (map (fun kv : string * value => VList [VStr (fst kv); snd kv]) vs))).
    change (tag_is CODEC_DICT _) with true. cbv beta iota. rewrite escaped_pairs_map. unfold unique_dict.
    pose proof (decode_members_keys _ _ Hf) as Hk. by rewrite decide_True by (by rewrite Hk).
  - by apply decode_plain_object.
Qed.

Context {IL : IsoDatesLaws}.

Lemma decode_list_ok l js : Forall distinct_keys l ->
  Forall (fun v => forall j, distinct_keys v -> encode_json_value v = Ok j ->
                   decode_tree j = Ok (norm v)) l ->
  mapM_o encode_json_value l = Ok js -> mapM_o decode_tree js = Ok (map norm l).
Proof.
  intros Hd Hl Hm%mapM_o_ok. apply mapM_o_intro.
  induction Hm as [|v j l js Hv _ IH]; [constructor|].
  apply Forall_cons in Hd as [Hd1 Hd2], Hl as [Hl1 Hl2]. constructor; auto.
Qed.

Lemma decode_bytes_marker b : decode_tree (bytes_marker b) = Ok (VBytes b).
Proof.
  unfold bytes_marker. rewrite decode_marker_text. cbn [obind]. unfold decode_marker_dict.
  cbn [length Nat.eqb negb]. change (vget CODEC_DATA _) with (Some (VStr (b64_text b))).
  unfold text_marker. change (tag_is CODEC_BYTES _) with true. cbv beta iota.
  unfold b64_value, b64_text. by rewrite list_ascii_of_string_of_list_ascii, b64decode_encode.
Qed.

Lemma decode_datetime_marker d :
  decode_tree (marker CODEC_DATETIME (datetime_isoformat d)) = Ok (VDatetime d).
Proof.
  rewrite decode_marker_text. cbn [obind]. unfold decode_marker_dict.
  cbn [length Nat.eqb negb]. change (vget CODEC_DATA _) with (Some (VStr (datetime_isoformat d))).
  unfold text_marker. change (tag_is CODEC_BYTES _) with false.
  change (tag_is CODEC_DATETIME _) with true. cbv beta iota. by rewrite datetime_iso.
Qed.

Lemma decode_date_marker d :
  decode_tree (marker CODEC_DATE (date_isoformat d)) = Ok (VDate d).
Proof.
  rewrite decode_marker_text. cbn [obind]. unfold decode_marker_dict.
  cbn [length Nat.eqb negb]. change (vget CODEC_DATA _) with (Some (VStr (date_isoformat d))).
  unfold text_marker. change (tag_is CODEC_BYTES _) with false.
  change (tag_is CODEC_DATETIME _) with false. change (tag_is CODEC_DATE _) with true.
  cbv beta iota. by rewrite date_iso.
Qed.

(** The members of an encoded dictionary. *)
Lemma dict_members (l : list (key * value)) ks js :
  map fst l = map KStr ks ->
  Forall2 (fun kv j => encode_json_value (snd kv) = Ok j) l js ->
  Forall2 (fun kv j => decode_tree j = Ok (norm (snd kv))) l js ->
  exists vs, Forall2 (fun kv vv => decode_member kv = Ok vv) (zip ks js) vs
    /\ map fst (zip ks js) = ks /\ vdict vs = norm (VDict l).
Proof.
  intros Hk He Hd. revert ks Hk. induction Hd as [|[k v] j l js Hv Hd IH]; intros ks Hk.
  - destruct ks; [|done]. exists []. by repeat split.
  - destruct ks as [|s ks]; [done|]. cbn in Hk. injection Hk as -> Hk.
    inversion He as [|? ? ? ? _ He']; subst.
    destruct (IH He' ks Hk) as (vs & Hf & Hm & Hn). exists ((s, norm v) :: vs).
    split; [|split].
    + constructor; [|exact Hf]. unfold decode_member. cbn in Hv |- *. by rewrite Hv.
    + cbn. by f_equal.
    + unfold vdict in *. cbn in *. injection Hn as Hn. by rewrite Hn.
Qed.

Lemma decode_encode v : forall j,
  distinct_keys v -> encode_json_value v = Ok j -> decode_tree j = Ok (norm v).
Proof.
  pattern v. apply value_ind'; clear v; [intros v|intros l IH|intros v IH|intros l IH..].
  - destruct v; try done; intros j _; cbn;
      try (destruct (isfinite f) eqn:Ef; [|done]); try (destruct finite; [|done]);
      intros [= <-]; try done.
    + cbn. by rewrite Ef.
    + apply decode_bytes_marker.
    + apply decode_bytes_marker.
    + apply decode_datetime_marker.
    + apply decode_date_marker.
  - intros j Hd%distinct_list. rewrite encode_set_eq. intros (js & Hm & ->)%omap_ok.
    rewrite decode_list_eq, (decode_list_ok _ _ Hd IH Hm). done.
  - intros j Hd He. by apply IH.
  - intros j Hd%distinct_list. rewrite encode_list_eq. intros (js & Hm & ->)%omap_ok.
    rewrite decode_list_eq, (decode_list_ok _ _ Hd IH Hm). done.
  - intros j Hd%distinct_list. rewrite encode_tuple_eq. intros (js & Hm & ->)%omap_ok.
    rewrite decode_list_eq, (decode_list_ok _ _ Hd IH Hm). done.
  - intros j [Hn Hd]%distinct_dict. rewrite encode_dict_eq.
    intros (ks & Hk%check_keys_ok & (js & Hm%mapM_o_ok & ->)%omap_ok)%obind_ok.
    destruct (dict_members l ks js Hk Hm) as (vs & Hf & Hz & Hv).
    { clear Hk Hn. induction Hm as [|kv j l js Hj _ IHm]; [constructor|].
      apply Forall_cons in IH as [IH1 IH2], Hd as [Hd1 Hd2]. constructor; auto. }
    rewrite (decode_escape _ vs Hf).
    + by rewrite Hv.
    + rewrite Hz. rewrite Hk in Hn. by apply NoDup_fmap_1 in Hn.
Qed.

(** *** Encoded trees are well-formed JSON *)
Lemma escape_wf o : NoDup (map fst o) -> Forall (fun kv => json_wf (snd kv)) o -> json_wf (escape o).
Proof.
  intros Hn Hf. unfold escape. destruct (looks_like_codec_marker o).
  - apply json_wf_obj. split; [cbn; apply NoDup_cons; split; [by set_solver|apply NoDup_singleton]|].
    constructor; [done|]. constructor; [|done]. apply json_wf_list, Forall_forall.
    intros j (kv & -> & Hkv)%list_elem_of_fmap. rewrite Forall_forall in Hf.
    cbn. split; [done|]. split; [by apply Hf|done].
  - by apply json_wf_obj.
Qed.

Lemma printable_escape o : printable (escape o) = forallb (fun kv => printable (snd kv)) o.
Proof.
  unfold escape. destruct (looks_like_codec_marker o); [|done]. cbn. rewrite andb_true_r.
  induction o as [|kv o IH]; [done|]. cbn. by rewrite IH, andb_true_r.
Qed.

Lemma wf_list_ok l js : Forall distinct_keys l ->
  Forall (fun v => forall j, distinct_keys v -> encode_json_value v = Ok j ->
                   printable j = true -> json_wf j) l ->
  mapM_o encode_json_value l = Ok js -> forallb printable js = true -> Forall json_wf js.
Proof.
  intros Hd Hl Hm%mapM_o_ok. induction Hm as [|v j l js Hv _ IH]; [constructor|].
  apply Forall_cons in Hd as [Hd1 Hd2], Hl as [Hl1 Hl2]. cbn. intros [Hp1 Hp2]%andb_true_iff.
  constructor; auto.
Qed.

Lemma encode_wf v : forall j, distinct_keys v -> encode_json_value v = Ok j ->
  printable j = true -> json_wf j.
Proof.
  assert (Hmark : forall k s, json_wf (marker k s)).
  { intros k s. apply json_wf_obj. split; [|by repeat constructor].
    cbn. apply NoDup_cons. split; [by set_solver|apply NoDup_singleton]. }
  pattern v. apply value_ind'; clear v; [intros v|intros l IH|intros v IH|intros l IH..].
  - destruct v; try done; intros j _; cbn;
      try (destruct (isfinite f); [|done]); try (destruct finite; [|done]);
      intros [= <-]; try done; try (intros _; apply Hmark).
    cbn. lia.
  - intros j Hd%distinct_list. rewrite encode_set_eq. intros (js & Hm & ->)%omap_ok Hp.
    apply json_wf_list. by apply (wf_list_ok l).
  - intros j Hd He. by apply IH.
  - intros j Hd%distinct_list. rewrite encode_list_eq. intros (js & Hm & ->)%omap_ok Hp.
    apply json_wf_list. by apply (wf_list_ok l).
  - intros j Hd%distinct_list. rewrite encode_tuple_eq. intros (js & Hm & ->)%omap_ok Hp.
    apply json_wf_list. by apply (wf_list_ok l).
  - intros j [Hn Hd]%distinct_dict. rewrite encode_dict_eq.
    intros (ks & Hk%check_keys_ok & (js & Hm%mapM_o_ok & ->)%omap_ok)%obind_ok.
    rewrite printable_escape. intros Hp. rewrite Hk in Hn. apply NoDup_fmap_1 in Hn.
    assert (Hz : map fst (zip ks js) = ks /\ Forall (fun kv => json_wf (snd kv)) (zip ks js)).
    { clear Hn. revert ks Hk Hp. induction Hm as [|kv j l js Hj _ IHm]; intros ks Hk Hp.
      - by destruct ks.
      - destruct ks as [|s ks]; [done|]. injection Hk as _ Hk. cbn in Hp.
        apply andb_true_iff in Hp as [Hp1 Hp2].
        apply Forall_cons in IH as [IH1 IH2], Hd as [Hd1 Hd2].
        destruct (IHm IH2 Hd2 ks Hk Hp2) as [E F]. cbn. split; [by f_equal|]. constructor; auto. }
    destruct Hz as [Hz1 Hz2]. apply escape_wf; [by rewrite Hz1|done].
Qed.
End Facts.

(** ** Native values: what decoding produces *)
Section Typing.
Context {I : IsoDates}.

(** Values of the types JSON and the markers carry, dictionaries with distinct
    string keys, finite floats. *)
Fixpoint native (v : value) : Prop :=
  match v with
  | VNone | VBool _ | VInt _ | VStr _ | VBytes _ | VDatetime _ | VDate _ => True
  | VFloat f => isfinite f = true
  | VList l => (fix go (l : list value) : Prop :=
      match l with [] => True | x :: l' => native x /\ go l' end) l
  | VDict l => NoDup (map fst l) /\ (fix go (l : list (key * value)) : Prop :=
      match l with
      | [] => True
      | x :: l' => (exists s, fst x = KStr s) /\ native (snd x) /\ go l'
      end) l
  | _ => False
  end.

Lemma native_list l : native (VList l) <-> Forall native l.
Proof. cbn. induction l as [|x l IH]; [by split|]. rewrite Forall_cons, <- IH. done. Qed.

Lemma native_dict l : native (VDict l) <->
  NoDup (map fst l) /\ Forall (fun kv => (exists s, fst kv = KStr s) /\ native (snd kv)) l.
Proof.
  cbn. apply and_iff_compat_l. induction l as [|x l IH]; [by split|].
  rewrite Forall_cons, <- IH. tauto.
Qed.

Lemma native_vdict vs : NoDup (map fst vs) -> Forall (fun kv => native (snd kv)) vs ->
  native (vdict vs).
Proof.
  intros Hn Hf. apply native_dict. split.
  - rewrite map_map. cbn. rewrite <- (map_map fst KStr). apply NoDup_fmap_2; [|done].
    by intros ? ? [= ->].
  - apply Forall_forall. intros kv (kv' & -> & Hkv)%list_elem_of_fmap. cbn.
    rewrite Forall_forall in Hf. split; [by eexists|by apply Hf].
Qed.

Lemma native_norm v : native v -> norm v = v.
Proof.
  pattern v. apply value_ind'; clear v; [intros v|intros l IH|intros v IH|intros l IH..].
  - by destruct v.
  - done.
  - done.
  - intros Hn%native_list. cbn. f_equal. induction IH as [|x l Hx _ IHl]; [done|].
    apply Forall_cons in Hn as [H1 H2]. cbn. by rewrite Hx, IHl.
  - done.
  - intros [_ Hn]%native_dict. cbn. f_equal. induction IH as [|[k x] l Hx _ IHl]; [done|].
    apply Forall_cons in Hn as [[_ H1] H2]. cbn in *. by rewrite Hx, IHl.
Qed.

Lemma native_distinct v : native v -> distinct_keys v.
Proof.
  pattern v. apply value_ind'; clear v; [intros v|intros l IH|intros v IH|intros l IH..]; try done.
  - by destruct v.
  - intros Hn%native_list. apply distinct_list. rewrite Forall_forall in *. auto.
  - intros [Hn Hf]%native_dict. apply distinct_dict. split; [done|].
    rewrite Forall_forall in *. intros kv Hkv. apply IH; [done|]. by apply Hf.
Qed.

Lemma unique_dict_ok {A} (l r : list (string * A)) : unique_dict l = Ok r -> r = l /\ NoDup (map fst l).
Proof. unfold unique_dict. by case_decide; intros [= <-]. Qed.

Lemma escaped_pairs_native items vs : Forall native items -> escaped_pairs items = Some vs ->
  Forall (fun kv => native (snd kv)) vs.
Proof.
  revert vs. induction items as [|v items IH]; intros vs Hf; cbn.
  { intros [= <-]. constructor. }
  apply Forall_cons in Hf as [Hv Hf]. destruct v; try done.
  destruct l as [|[] [|x [|]]]; try done.
  destruct (escaped_pairs items) as [vs'|]; [|done]. intros [= <-]. constructor; [|by apply IH].
  apply native_list in Hv. apply Forall_cons in Hv as [_ Hv]. by apply Forall_cons in Hv as [Hv _].
Qed.

Lemma vget_native k vs v : Forall (fun kv => native (snd kv)) vs -> vget k vs = Some v -> native v.
Proof.
  unfold vget. intros Hf. destruct (List.find _ vs) as [kv|] eqn:E; [|done]. intros [= <-].
  apply find_some in E as [E _]. rewrite Forall_forall in Hf. by apply Hf, list_elem_of_In.
Qed.

Lemma decode_marker_native vs v : NoDup (map fst vs) -> Forall (fun kv => native (snd kv)) vs ->
  decode_marker_dict vs = Ok v -> native v.
Proof.
  intros Hn Hf. pose proof (native_vdict vs Hn Hf) as Hd.
  assert (Hplain : Ok (decode_bytes_tag vs) = Ok v -> native v).
  { intros [= <-]. unfold decode_bytes_tag. destruct vs as [|? [|]]; try done.
    destruct (vget _ _) as [[]|]; try done. destruct (b64_value _) eqn:E; [|done].
    by apply b64_value_bytes in E as [b ->]. }
  unfold decode_marker_dict. destruct (negb _); [done|].
  destruct (vget CODEC_DATA vs) as [x|] eqn:Ex; [|done]. pose proof (vget_native _ _ _ Hf Ex) as Hx.
  destruct x; try done.
  - unfold text_marker. destruct (tag_is _ _).
    { destruct (b64_value _) eqn:E; [|done]. intros [= <-]. by apply b64_value_bytes in E as [b ->]. }
    destruct (tag_is _ _); [by destruct (datetime_fromisoformat _); [intros [= <-]|]|].
    destruct (tag_is _ _); [by destruct (date_fromisoformat _); [intros [= <-]|]|done].
  - destruct (tag_is _ _); [|done]. destruct (escaped_pairs l) as [ps|] eqn:E; [|done].
    intros (r & [-> Hr]%unique_dict_ok & ->)%omap_ok. apply native_vdict; [done|].
    eapply escaped_pairs_native; [|exact E]. by apply native_list.
Qed.

Lemma decode_native j : forall v, decode_tree j = Ok v -> native v.
Proof.
  induction j as [|b|z|f|s|l IH|l IH] using json_ind'; intros v.
  1-3: by intros [= <-].
  - cbn. destruct (isfinite f) eqn:E; [|done]. by intros [= <-].
  - by intros [= <-].
  - rewrite decode_list_eq. intros (vs & Hm%mapM_o_ok & ->)%omap_ok. apply native_list.
    induction Hm as [|j v l vs Hv _ IHm]; [constructor|].
    apply Forall_cons in IH as [IH1 IH2]. constructor; auto.
  - rewrite decode_obj_eq. intros (vs & Hm%mapM_o_ok & H)%obind_ok.
    unfold json_object_from_pairs in H. apply obind_ok in H as (o & [-> Hn]%unique_dict_ok & H).
    apply (decode_marker_native vs); [done| |done]. clear Hn H.
    induction Hm as [|[k j] vv l vs (v' & Hv & ->)%omap_ok _ IHm]; [constructor|].
    apply Forall_cons in IH as [IH1 IH2]. constructor; auto.
Qed.

(** *** Secrets *)

(** A secret wrapper occurs in the value, as a value or as a key. *)
Fixpoint has_secret (v : value) : bool :=
  match v with
  | VSecret => true
  | VSet l | VTuple l | VList l => existsb has_secret l
  | VEnum v => has_secret v
  | VDict l => existsb (fun kv => match fst kv with KSecret => true | _ => false end
                                  || has_secret (snd kv)) l
  | _ => false
  end.

Lemma encode_list_no_secret l js :
  Forall (fun v => forall j, encode_json_value v = Ok j -> has_secret v = false) l ->
  mapM_o encode_json_value l = Ok js -> existsb has_secret l = false.
Proof.
  intros Hl Hm%mapM_o_ok. induction Hm as [|v j l js Hv _ IH]; [done|].
  apply Forall_cons in Hl as [H1 H2]. cbn. by rewrite (H1 _ Hv), IH.
Qed.

Lemma encode_no_secret v : forall j, encode_json_value v = Ok j -> has_secret v = false.
Proof.
  pattern v. apply value_ind'; clear v; [intros v|intros l IH|intros v IH|intros l IH..].
  - by destruct v.
  - intros j. rewrite encode_set_eq. intros (js & Hm & _)%omap_ok. by eapply encode_list_no_secret.
  - exact IH.
  - intros j. rewrite encode_list_eq. intros (js & Hm & _)%omap_ok. by eapply encode_list_no_secret.
  - intros j. rewrite encode_tuple_eq. intros (js & Hm & _)%omap_ok. by eapply encode_list_no_secret.
  - intros j. rewrite encode_dict_eq.
    intros (ks & Hk%check_keys_ok & (js & Hm%mapM_o_ok & _)%omap_ok)%obind_ok.
    revert ks Hk. induction Hm as [|[k v] j' l js Hv _ IHm]; intros ks Hk; [done|].
    destruct ks as [|s ks]; [done|]. injection Hk as -> Hk.
    apply Forall_cons in IH as [IH1 IH2]. cbn in *. by rewrite (IH1 _ Hv), (IHm IH2 ks Hk).
Qed.
End Typing.

(** ** The serializer *)
Section Serializer.
Context {I : IsoDates} {IL : IsoDatesLaws} {J : JsonText} {JL : JsonTextLaws}.

Lemma serialize_norm v b : distinct_keys v -> serialize v = Ok b -> deserialize b = Ok (norm v).
Proof.
  unfold serialize. intros Hk Hs. destruct (encode_json_value v) as [j|] eqn:E; [|done].
  destruct (printable j) eqn:Hp; [|done]. injection Hs as <-.
  unfold deserialize. rewrite json_loads_dumps by (by eapply encode_wf).
  cbn. by apply decode_encode.
Qed.

(** C4. Whatever [serialize] writes, [deserialize] reads back as the same value up to
    the documented normalisation (tuples and sets become lists, decimals, UUIDs
    and paths their text, enum members their value), marker-shaped dictionaries
    of the caller included; values of the native types come back unchanged. *)
Theorem codec_roundtrip v b (Hk : distinct_keys v) (Hs : serialize v = Ok b) :
  deserialize b = Ok (norm v) /\ (native v -> deserialize b = Ok v).
Proof.
  pose proof (serialize_norm v b Hk Hs) as H. split; [exact H|]. intros Hn. by rewrite H, native_norm.
Qed.

(** Every deserialized value is native, whatever the bytes are: it has no
    duplicate or non-string keys and no infinite float, and serializing it again
    (integers beyond the digit limit aside) returns it. *)
Theorem deserialized_native data v (Hd : deserialize data = Ok v) :
  native v /\ distinct_keys v
  /\ forall b, serialize v = Ok b -> deserialize b = Ok v.
Proof.
  unfold deserialize in Hd. apply obind_ok in Hd as (j & _ & Hd). apply decode_native in Hd as Hn.
  pose proof (native_distinct v Hn) as Hk. split; [done|]. split; [done|].
  intros b Hb. by rewrite (serialize_norm v b Hk Hb), native_norm.
Qed.

(** No secret wrapper is ever written: a value that holds one anywhere, as a
    value or as a dictionary key, is refused with an error. *)
Theorem secrets_refused v (Hs : has_secret v = true) : is_ok (serialize v) = false.
Proof.
  unfold serialize. destruct (encode_json_value v) as [j|e] eqn:E; [|done].
  apply encode_no_secret in E. congruence.
Qed.
End Serializer.

Module Examples.
#[export] Instance dates : IsoDates := {|
  datetime := string; date := string;
  datetime_isoformat s := s; datetime_fromisoformat := Some;
  date_isoformat s := s; date_fromisoformat := Some
|}.
#[export] Instance dates_laws : IsoDatesLaws.
Proof. by split. Qed.
#[export] Instance text : JsonText := PlainText.text.
#[export] Instance text_laws : JsonTextLaws := PlainText.laws.

(** A caller's dictionary with the shape of the bytes marker. *)
Definition impostor : value :=
  VDict [(KStr CODEC_TAG, VStr CODEC_BYTES); (KStr CODEC_DATA, VStr "aGk=")].
Definition sample : value := VList [impostor; VBytes [x00; xff]; VTuple [VInt 1; VNone]].
Definition wire (v : value) : bytes := match serialize v with Ok b => b | Raise _ => [] end.

Lemma codec_roundtrip_witness :
  deserialize (wire sample)
  = Ok (VList [impostor; VBytes [x00; xff]; VList [VInt 1; VNone]]).
Proof.
  assert (E : serialize sample = Ok (wire sample)) by (vm_compute; reflexivity).
  assert (Hk : distinct_keys sample).
  { cbn. repeat split. apply NoDup_cons. split; [by set_solver|apply NoDup_singleton]. }
  exact (proj1 (codec_roundtrip sample (wire sample) Hk E)).
Defined.

(** Without its escape the same dictionary would come back as bytes. *)
Example unescaped_is_bytes :
  decode_tree (JObj [(CODEC_TAG, JStr CODEC_BYTES); (CODEC_DATA, JStr "aGk=")])
  = Ok (VBytes [x68; x69]).
Proof. vm_compute. reflexivity. Qed.

Lemma sample_decodes :
  deserialize (wire sample) = Ok (VList [impostor; VBytes [x00; xff]; VList [VInt 1; VNone]]).
Proof. vm_compute. reflexivity. Qed.

Lemma deserialized_native_witness :
  native (VList [impostor; VBytes [x00; xff]; VList [VInt 1; VNone]]).
Proof.
  exact (proj1 (deserialized_native (wire sample) _ sample_decodes)).
Defined.

Lemma secrets_refused_witness :
  is_ok (serialize (VDict [(KStr "auth", VTuple [VSecret])])) = false
  /\ serialize (VDict [(KStr "auth", VTuple [VSecret])]) = Raise EType.
Proof.
  split; [|vm_compute; reflexivity].
  exact (secrets_refused (VDict [(KStr "auth", VTuple [VSecret])]) eq_refl).
Defined.
End Examples.
End Codec.
