(* ===== verification/Names.v ===== *)
(** * Key names and physical queue names

    core/types.py [validate_key_name] and queue/strategies/_names.py: the
    grammar of logical names, the backends a fan-out strategy refuses, and the
    two generations of physical sub-queue names.  The BLAKE2s digest is a
    parameter; the theorems state collision-freedom of the names up to an
    explicit collision of that digest. *)

From S2P Require Export PyBytes.

(** ** core/types.py: key names *)

(** KEY_NAME_PATTERN: one of [a-zA-Z0-9._:-]. *)
Definition key_char (c : ascii) : bool :=
  let n := Z.of_N (N_of_ascii c) in
  ((97 <=? n) && (n <=? 122)) || ((65 <=? n) && (n <=? 90))
  || ((48 <=? n) && (n <=? 57))
  || (n =? 46) || (n =? 95) || (n =? 58) || (n =? 45).

Definition key_name_matches (name : string) : bool :=
  match list_ascii_of_string name with
  | [] => false
  | cs => forallb key_char cs
  end.

Definition validate_key_name (name : string) (max_length : option Z) : outcome unit :=
  let invalid :=
    bool_decide (name = EmptyString)
    || negb (key_name_matches name)
    || match max_length with
       | None => false
       | Some n => n <? Z.of_nat (String.length name)
       end in
  if invalid then Raise EValue else Ok tt.

(** ** _names.py *)

Definition LEGACY_COLON_QUEUE_BACKENDS : list string :=
  ["elasticsearch"; "mongodb"; "pulsar"; "rabbitmq"; "redis"]%string.
Definition CURRENT_FANOUT_NAME_GENERATION : string := "v2".
Definition LEGACY_FANOUT_NAME_GENERATION : string := "legacy_v1".
Definition UNSUPPORTED_FANOUT_BACKENDS : list string := ["kafka"; "rocketmq"]%string.

Definition string_in (x : string) (l : list string) : bool := bool_decide (x ∈ l).

(** The manager's backend type: None when it is not a string. *)
Definition ensure_fanout_backend_supported (backend_type : option string) : outcome unit :=
  let key := match backend_type with Some b => b | None => EmptyString end in
  if string_in key UNSUPPORTED_FANOUT_BACKENDS then Raise EConfiguration else Ok tt.

(** The once-per-process latch of the legacy-generation warning. *)
Definition warn_legacy_generation_noop : M bool unit :=
  let! warned := get in
  if warned : bool then ret tt else put true.

Section Digest.
(** [hashlib.blake2s(digest_size=16)] followed by [hexdigest]. *)
Variable blake2s_hex : bytes -> string.

(** The length-prefixed preimage fed to the digest. *)
Fixpoint digest_input (parts : list string) : outcome bytes :=
  match parts with
  | [] => Ok []
  | part :: parts' =>
      let encoded := encode part in
      match to_bytes_big 8 (Z.of_nat (length encoded)) with
      | Ok prefix => omap (fun rest => prefix ++ encoded ++ rest) (digest_input parts')
      | Raise e => Raise e
      end
  end.

Definition strategy_queue_name (queue_name namespace discriminator : string) : outcome string :=
  omap (fun input => "scrapyext-v2-" ++ namespace ++ "-" ++ blake2s_hex input)%string
       (digest_input [queue_name; namespace; discriminator]).

Definition has_colon (s : string) : bool :=
  existsb (fun c => bool_decide (c = ":"%char)) (list_ascii_of_string s).

Definition physical_strategy_queue_name
    (backend_type : option string)
    (queue_name namespace discriminator legacy_name : string)
    (name_generation : string) : M bool string :=
  if negb (string_in name_generation
             [CURRENT_FANOUT_NAME_GENERATION; LEGACY_FANOUT_NAME_GENERATION])
  then raise EValue
  else
    let legacy_supported :=
      match backend_type with
      | Some b => string_in b LEGACY_COLON_QUEUE_BACKENDS
      | None => false
      end in
    let rabbit_name_fits :=
      negb (bool_decide (backend_type = Some "rabbitmq"%string))
      || (Z.of_nat (length (encode legacy_name)) <=? 255) in
    let legacy := bool_decide (name_generation = LEGACY_FANOUT_NAME_GENERATION) in
    let! _ := (if legacy && negb legacy_supported
               then warn_legacy_generation_noop else ret tt) in
    let discriminator_unambiguous := negb (has_colon discriminator) in
    if legacy && legacy_supported && rabbit_name_fits && discriminator_unambiguous
    then ret legacy_name
    else lift (strategy_queue_name queue_name namespace discriminator).

End Digest.

(** ** Lemmas *)

Lemma to_bytes_big_length k n b : to_bytes_big k n = Ok b -> length b = k.
Proof.
  unfold to_bytes_big. case_match; [|done]. intros [= <-]. apply length_be_bytes.
Qed.

Lemma to_bytes_big_inj k n1 n2 b :
  to_bytes_big k n1 = Ok b -> to_bytes_big k n2 = Ok b -> n1 = n2.
Proof.
  unfold to_bytes_big. repeat case_match; try done. intros [= <-] [= Hb].
  rewrite <- (from_bytes_big_be_bytes k n1), <- (from_bytes_big_be_bytes k n2) by lia.
  by rewrite Hb.
Qed.

(** The length prefixes make the preimage of the digest injective. *)
Lemma digest_input_inj ps1 ps2 b :
  length ps1 = length ps2 ->
  digest_input ps1 = Ok b -> digest_input ps2 = Ok b -> ps1 = ps2.
Proof.
  revert ps2 b. induction ps1 as [|p1 ps1 IH]; intros [|p2 ps2] b Hlen H1 H2; try done.
  cbn [digest_input] in H1, H2.
  destruct (to_bytes_big 8 (Z.of_nat (length (encode p1)))) as [x1|] eqn:E1; [|done].
  destruct (to_bytes_big 8 (Z.of_nat (length (encode p2)))) as [x2|] eqn:E2; [|done].
  destruct (digest_input ps1) as [r1|] eqn:R1; [|done].
  destruct (digest_input ps2) as [r2|] eqn:R2; [|done].
  cbn in H1, H2. injection H1 as <-. injection H2 as H2.
  apply app_inj_1 in H2 as [Hx H2].
  2: { by rewrite (to_bytes_big_length _ _ _ E1), (to_bytes_big_length _ _ _ E2). }
  subst x2. pose proof (to_bytes_big_inj _ _ _ _ E1 E2) as Hl.
  apply app_inj_1 in H2 as [Hp Hr]; [|lia].
  apply (inj encode) in Hp. subst. f_equal. eapply IH; eauto; congruence.
Qed.

Lemma string_app_ascii s t :
  list_ascii_of_string (s ++ t) = (list_ascii_of_string s ++ list_ascii_of_string t)%list.
Proof.
  induction s as [|c s IH]; [done|].
  change (String c s ++ t)%string with (String c (s ++ t)). cbn. by rewrite IH.
Qed.

#[export] Instance list_ascii_of_string_inj : Inj (=) (=) list_ascii_of_string.
Proof.
  intros x y H. rewrite <- (string_of_list_ascii_of_string x),
    <- (string_of_list_ascii_of_string y). by f_equal.
Qed.

Lemma string_app_inv_head p s t : (p ++ s = p ++ t)%string -> s = t.
Proof.
  intros E. apply (f_equal list_ascii_of_string) in E.
  rewrite !string_app_ascii in E. apply app_inv_head in E.
  by apply (inj list_ascii_of_string).
Qed.

Lemma has_colon_spec s : has_colon s = true <-> ":"%char ∈ list_ascii_of_string s.
Proof.
  unfold has_colon. rewrite existsb_exists, list_elem_of_In. split.
  - intros (c & Hc & E). apply bool_decide_eq_true in E. by subst.
  - intros H. exists ":"%char. split; [done|]. by apply bool_decide_eq_true.
Qed.

Lemma has_colon_app s t : has_colon (s ++ t) = has_colon s || has_colon t.
Proof. unfold has_colon. by rewrite string_app_ascii, existsb_app. Qed.

(** A list splits uniquely at the last occurrence of a separator. *)
Lemma split_last_inj {A} (c : A) l1 r1 l2 r2 :
  c ∉ r1 -> c ∉ r2 -> l1 ++ c :: r1 = l2 ++ c :: r2 -> l1 = l2 /\ r1 = r2.
Proof.
  revert l2. induction l1 as [|x l1 IH]; intros [|y l2] H1 H2 E; cbn in E.
  - by injection E.
  - injection E as <- ->. exfalso. apply H1, elem_of_app. right. left.
  - injection E as -> <-. exfalso. apply H2, elem_of_app. right. left.
  - injection E as <- E. destruct (IH l2 H1 H2 E) as [-> ->]. done.
Qed.

Lemma colon_split_inj q1 d1 q2 d2 :
  has_colon d1 = false -> has_colon d2 = false ->
  (q1 ++ ":" ++ d1 = q2 ++ ":" ++ d2)%string -> q1 = q2 /\ d1 = d2.
Proof.
  intros H1 H2 E. apply (f_equal list_ascii_of_string) in E.
  rewrite !string_app_ascii in E. cbn in E.
  apply split_last_inj in E as [E1 E2].
  - by apply (inj list_ascii_of_string) in E1, E2.
  - intros Hc. apply has_colon_spec in Hc. congruence.
  - intros Hc. apply has_colon_spec in Hc. congruence.
Qed.

Section NameTheorems.
Variable blake2s_hex : bytes -> string.
(** [hexdigest] of a 16-byte digest is 32 hexadecimal characters. *)
Hypothesis hexdigest_length : forall x, String.length (blake2s_hex x) = 32%nat.
Hypothesis hexdigest_no_colon : forall x, has_colon (blake2s_hex x) = false.

(** The digest collides on the preimages of these two lists of parts, and on
    no other inputs: the preimages are different byte strings. *)
Definition preimages_collide (ps1 ps2 : list string) : Prop :=
  exists x y, digest_input ps1 = Ok x /\ digest_input ps2 = Ok y
    /\ x <> y /\ blake2s_hex x = blake2s_hex y.

Lemma strategy_queue_name_no_colon q ns d n :
  has_colon ns = false ->
  strategy_queue_name blake2s_hex q ns d = Ok n -> has_colon n = false.
Proof.
  intros Hns. unfold strategy_queue_name.
  destruct (digest_input [q; ns; d]) as [x|]; [|done]. intros [= <-].
  by rewrite !has_colon_app, Hns, hexdigest_no_colon.
Qed.

Lemma string_app_inj_len s1 t1 s2 t2 :
  String.length t1 = String.length t2 ->
  (s1 ++ t1 = s2 ++ t2)%string -> s1 = s2 /\ t1 = t2.
Proof.
  intros Hl E. apply (f_equal list_ascii_of_string) in E.
  rewrite !string_app_ascii in E. apply app_inj_2 in E as [E1 E2].
  - by apply (inj list_ascii_of_string) in E1, E2.
  - assert (Hlen : forall s, length (list_ascii_of_string s) = String.length s).
    { induction s; cbn; congruence. }
    by rewrite !Hlen.
Qed.

Lemma strategy_queue_name_collision q1 ns1 d1 q2 ns2 d2 n :
  strategy_queue_name blake2s_hex q1 ns1 d1 = Ok n ->
  strategy_queue_name blake2s_hex q2 ns2 d2 = Ok n ->
  (q1 = q2 /\ ns1 = ns2 /\ d1 = d2)
  \/ preimages_collide [q1; ns1; d1] [q2; ns2; d2].
Proof.
  unfold strategy_queue_name, preimages_collide. intros H1 H2.
  destruct (digest_input [q1; ns1; d1]) as [x|] eqn:E1; [|done].
  destruct (digest_input [q2; ns2; d2]) as [y|] eqn:E2; [|done].
  injection H1 as H1. injection H2 as H2. rewrite <- H1 in H2.
  assert (Hh : blake2s_hex x = blake2s_hex y).
  { apply string_app_inv_head in H2.
    apply string_app_inj_len in H2 as [_ H2].
    - by apply string_app_inv_head in H2.
    - change (S (String.length (blake2s_hex y)) = S (String.length (blake2s_hex x))).
      by rewrite !hexdigest_length. }
  destruct (decide (x = y)) as [->|Hne]; [left|right; by exists x, y].
  assert (Hd : [q1; ns1; d1] = [q2; ns2; d2]) by (eapply digest_input_inj; eauto).
  by injection Hd.
Qed.

Lemma physical_strategy_queue_name_ok bt q ns d legacy g w n w' :
  physical_strategy_queue_name blake2s_hex bt q ns d legacy g w = (Ok n, w') ->
  (n = legacy /\ has_colon d = false)
  \/ strategy_queue_name blake2s_hex q ns d = Ok n.
Proof.
  unfold physical_strategy_queue_name. case_match eqn:Eg; [done|].
  intros (u & w1 & _ & Hk)%bind_ok_inv. revert Hk. case_match eqn:El.
  - intros [= <- _]. left. split; [done|].
    rewrite !andb_true_iff, negb_true_iff in El. tauto.
  - unfold lift. intros [= ? _]. by right.
Qed.

(** C38. Collision-freedom of the physical names of one strategy: under a fixed
    backend and generation two (queue, discriminator) pairs share a physical
    queue only if they are equal or the digest takes the same value on the two
    preimages of these very pairs, which are different byte strings; a legacy
    name and a digest name are never the same. *)
Theorem physical_name_collision_free bt g ns p q1 d1 q2 d2 w1 w2 w1' w2' n
    (Hns : has_colon ns = false) (Hp : has_colon p = false)
    (H1 : physical_strategy_queue_name blake2s_hex bt q1 ns d1 (q1 ++ ":" ++ p ++ d1) g w1
          = (Ok n, w1'))
    (H2 : physical_strategy_queue_name blake2s_hex bt q2 ns d2 (q2 ++ ":" ++ p ++ d2) g w2
          = (Ok n, w2')) :
  (q1 = q2 /\ d1 = d2) \/ preimages_collide [q1; ns; d1] [q2; ns; d2].
Proof.
  apply physical_strategy_queue_name_ok in H1, H2.
  destruct H1 as [[-> Hd1]|H1], H2 as [[E Hd2]|H2].
  - left. apply colon_split_inj in E as [-> E]; [|by rewrite has_colon_app, Hp..].
    split; [done|]. by apply string_app_inv_head in E.
  - apply strategy_queue_name_no_colon in H2; [|done].
    by rewrite !has_colon_app, orb_true_r in H2.
  - subst n. apply strategy_queue_name_no_colon in H1; [|done].
    by rewrite !has_colon_app, orb_true_r in H1.
  - destruct (strategy_queue_name_collision _ _ _ _ _ _ _ H1 H2) as [(-> & _ & ->)|?]; auto.
Qed.

End NameTheorems.

(** A digest of 32 hexadecimal digits that depends on its input: the sum of the
    input's bytes. *)
Definition hex_digit (n : Z) : ascii :=
  nth (Z.to_nat (n mod 16)) (list_ascii_of_string "0123456789abcdef") "0"%char.

Definition toy_hex (x : bytes) : string :=
  let total := foldr (fun b n => Z.of_N (Byte.to_N b) + n) 0 x in
  string_of_list_ascii
    (map (fun k => hex_digit (Z.shiftr total (4 * Z.of_nat k))) (seq 0 32)).

Lemma hex_digit_no_colon n : hex_digit n <> ":"%char.
Proof.
  unfold hex_digit. generalize (Z.to_nat (n mod 16)). intros k.
  do 17 (destruct k as [|k]; [done|]). cbn. by destruct k.
Qed.

Lemma toy_hex_no_colon x : has_colon (toy_hex x) = false.
Proof.
  unfold has_colon, toy_hex. rewrite list_ascii_of_string_of_list_ascii.
  apply not_true_iff_false. rewrite existsb_exists. intros (c & Hc & E).
  apply bool_decide_eq_true in E. apply in_map_iff in Hc as (k & <- & _).
  by eapply hex_digit_no_colon.
Qed.

Lemma physical_name_collision_free_witness :
  ("q"%string = "q"%string /\ "1"%string = "1"%string)
  \/ preimages_collide toy_hex ["q"; "priority"; "1"]%string ["q"; "priority"; "1"]%string.
Proof.
  refine (physical_name_collision_free toy_hex _ toy_hex_no_colon (Some "rabbitmq"%string)
            CURRENT_FANOUT_NAME_GENERATION "priority" "p" "q" "1" "q" "1"
            false false false false
            "scrapyext-v2-priority-e2400000000000000000000000000000" _ _ _ _);
    try reflexivity; by vm_compute.
Defined.
