(* ===== verification/Backend.v ===== *)
(** * The queue-backend interface

    backends/base.py: [QueueBackend] with its inherited defaults, the durable
    push receipt, and the manager's [_push_queue_with_durability]
    (backends/connectors/_manager.py).  Backends talk to servers, so they are
    an interface here: a class of operations over an abstract backend state,
    and a second class with the laws a client theorem may use.  An in-memory
    FIFO instance shows that the laws are satisfiable. *)

From S2P Require Export PyFloat PyBytes.

(** A raw broker token is opaque. *)
Abbreviation token := nat (only parsing).

(** [_BoundQueueAckToken] (queue/strategies/base.py): a raw token bound to the
    backend object ([at_backend], its identity) and physical queue of the pop. *)
Inductive token_state := pending | acked | nacked.
#[export] Instance token_state_eq_dec : EqDecision token_state.
Proof. solve_decision. Defined.

Record ack_token := AckToken {
  at_backend : nat;
  at_queue_name : string;
  at_token : token;
  at_state : token_state;
  at_settlement_in_progress : bool
}.
#[export] Instance ack_token_eq_dec : EqDecision ack_token.
Proof. solve_decision. Defined.

(** What a pop may return as its token. *)
Inductive any_token := Raw (t : token) | Bound (t : ack_token).

(** A receipt object returned by a backend: [Some d] for a well-formed
    [_QueuePushReceipt(worker_crash_durable=d)], [None] for anything else. *)
Definition raw_receipt : Type := option bool.

Class QueueBackend (B : Type) := {
  (** [ConnectionManager.get_queue_backend]: resolve the live backend object. *)
  get_queue_backend : M B nat;
  qb_push : string -> bytes -> float -> M B unit;
  qb_pop : string -> float -> M B (option bytes);
  (** [Some f] when the class overrides [pop_with_ack]. *)
  qb_pop_with_ack_override : option (string -> float -> M B (option bytes * option any_token));
  (** [ack] and [nack] of one backend object. *)
  qb_ack : nat -> string -> option token -> M B unit;
  qb_nack : nat -> string -> option token -> M B unit;
  qb_queue_len : string -> M B Z;
  qb_clear_queue : string -> M B unit;
  (** The class attribute [_push_is_durable]. *)
  qb_push_is_durable : bool;
  (** [Some f] when the class overrides [_push_with_durability]. *)
  qb_push_with_durability_override :
    option (string -> bytes -> float -> bool -> M B raw_receipt)
}.

Section Defaults.
Context {B : Type} `{QueueBackend B}.

(** [QueueBackend.pop_with_ack]: the inherited default has no token. *)
Definition default_pop_with_ack (queue_name : string) (timeout : float)
    : M B (option bytes * option any_token) :=
  let! data := qb_pop queue_name timeout in ret (data, None).

Definition pop_with_ack (queue_name : string) (timeout : float)
    : M B (option bytes * option any_token) :=
  match qb_pop_with_ack_override with
  | Some f => f queue_name timeout
  | None => default_pop_with_ack queue_name timeout
  end.

(** [QueueBackend._push_with_durability]: the inherited default is fail-closed. *)
Definition default_push_with_durability (queue_name : string) (item : bytes)
    (priority : float) (require_durable : bool) : M B raw_receipt :=
  let durable := qb_push_is_durable in
  if require_durable && negb durable then raise EDurablePushRequired
  else let! _ := qb_push queue_name item priority in ret (Some durable).

Definition push_with_durability (queue_name : string) (item : bytes)
    (priority : float) (require_durable : bool) : M B raw_receipt :=
  match qb_push_with_durability_override with
  | Some f => f queue_name item priority require_durable
  | None => default_push_with_durability queue_name item priority require_durable
  end.

(** [ConnectionManager._push_queue_with_durability]: the policy rejection
    becomes a QueueError and only a well-formed true receipt is evidence. *)
Definition manager_push_with_durability (queue_name : string) (item : bytes)
    (priority : float) (require_durable : bool) : M B bool := fun b =>
  match push_with_durability queue_name item priority require_durable b with
  | (Raise EDurablePushRequired, b') => (Raise (EQueue "push"), b')
  | (Raise e, b') => (Raise e, b')
  | (Ok raw, b') =>
      let durable := match raw with Some true => true | _ => false end in
      if require_durable && negb durable then (Raise (EQueue "push"), b')
      else (Ok durable, b')
  end.
End Defaults.

(** ** Laws of a FIFO-or-priority queue server

    [waiting b q] are the items of physical queue [q]. A non-blocking pop
    takes one waiting item, or returns None when there is none; the other
    operations act on their own queue only. *)
Class QueueBackendLaws (B : Type) `{QueueBackend B} := {
  waiting : B -> string -> list bytes;
  get_queue_backend_ok : forall b o b',
    get_queue_backend b = (o, b') -> forall q, waiting b' q = waiting b q;
  qb_push_ok : forall q x p b b',
    qb_push q x p b = (Ok tt, b') ->
    Permutation (waiting b' q) (x :: waiting b q) /\
    (forall q', q' <> q -> waiting b' q' = waiting b q');
  qb_pop_ok : forall q t b o b',
    feqb t fzero = true -> qb_pop q t b = (Ok o, b') ->
    match o with
    | Some x => Permutation (waiting b q) (x :: waiting b' q)
    | None => waiting b q = [] /\ waiting b' q = []
    end /\ (forall q', q' <> q -> waiting b' q' = waiting b q');
  qb_queue_len_ok : forall q b n b',
    qb_queue_len q b = (Ok n, b') ->
    n = Z.of_nat (length (waiting b q)) /\ (forall q', waiting b' q' = waiting b q');
  qb_clear_queue_ok : forall q b b',
    qb_clear_queue q b = (Ok tt, b') ->
    waiting b' q = [] /\ (forall q', q' <> q -> waiting b' q' = waiting b q')
}.

(** ** A reference instance: FIFO lists in memory, every operation succeeds *)
Module MemQueue.
Abbreviation state := (gmap string (list bytes)).
Definition items (b : state) (q : string) : list bytes :=
  match b !! q with Some l => l | None => [] end.

Definition backend (durable : bool) : QueueBackend state := {|
  get_queue_backend := ret 0%nat;
  qb_push q x p := fun b => (Ok tt, <[q := items b q ++ [x]]> b);
  qb_pop q t := fun b =>
    match items b q with
    | [] => (Ok None, b)
    | x :: l => (Ok (Some x), <[q := l]> b)
    end;
  qb_pop_with_ack_override := None;
  qb_ack i q t := ret tt;
  qb_nack i q t := ret tt;
  qb_queue_len q := fun b => (Ok (Z.of_nat (length (items b q))), b);
  qb_clear_queue q := fun b => (Ok tt, <[q := []]> b);
  qb_push_is_durable := durable;
  qb_push_with_durability_override := None
|}.

Lemma items_insert b q l q' :
  items (<[q := l]> b) q' = if decide (q = q') then l else items b q'.
Proof. unfold items. rewrite lookup_insert. by case_decide. Qed.

Definition laws (durable : bool) : @QueueBackendLaws state (backend durable).
Proof.
  refine {| waiting := items |}; cbn.
  - by intros b o b' [= _ <-].
  - intros q x p b b' [= <-]. split.
    + rewrite items_insert, decide_True by done. apply Permutation_app_comm.
    + intros q' Hq. by rewrite items_insert, decide_False.
  - intros q t b o b' _. destruct (items b q) as [|x l] eqn:E; intros [= <- <-].
    + done.
    + split.
      * by rewrite items_insert, decide_True.
      * intros q' Hq. by rewrite items_insert, decide_False.
  - intros q b n b' [= <- <-]. done.
  - intros q b b' [= <-]. split.
    + by rewrite items_insert, decide_True.
    + intros q' Hq. by rewrite items_insert, decide_False.
Defined.
End MemQueue.
