(* ===== verification/StrategyBase.v ===== *)
(** * Queue-strategy foundations

    queue/strategies/base.py: the incarnation-bound acknowledgement token with
    its settlement protocol (sequential and interleaved), the one-queue binding
    of in-process strategies, the prepared pushes with their durability
    evidence, and the ack-aware pop shared by the backend-delegating
    strategies; queue/strategies/passthrough.py is the direct client. *)

From S2P Require Export Backend.

(** ** [_BoundQueueAckToken] *)
Module AckToken.

(** A token as [__init__] builds it. *)
Definition init (backend : nat) (queue_name : string) (t : token) : ack_token :=
  AckToken backend queue_name t pending false.

Definition with_flag (t : ack_token) (state : token_state) (in_progress : bool) : ack_token :=
  AckToken (at_backend t) (at_queue_name t) (at_token t) state in_progress.

(** The first critical section of [_settle]: reserve, or return early. *)
Definition settle_reserve (t : ack_token) : option ack_token :=
  if negb (bool_decide (at_state t = pending)) || at_settlement_in_progress t
  then None else Some (with_flag t (at_state t) true).

(** The critical sections after the backend hook. *)
Definition settle_failed (t : ack_token) : ack_token := with_flag t (at_state t) false.
Definition settle_done (terminal_state : token_state) (t : ack_token) : ack_token :=
  with_flag t terminal_state false.

Section Settle.
Context {B : Type} `{QueueBackend B}.

Definition settle_call (terminal_state : token_state) (t : ack_token) : M B unit :=
  if bool_decide (terminal_state = acked)
  then qb_ack (at_backend t) (at_queue_name t) (Some (at_token t))
  else qb_nack (at_backend t) (at_queue_name t) (Some (at_token t)).

(** [_settle], run without interference. *)
Definition settle (terminal_state : token_state) : M (ack_token * B) unit :=
  fun '(t, b) =>
    match settle_reserve t with
    | None => (Ok tt, (t, b))
    | Some t1 =>
        match settle_call terminal_state t1 b with
        | (Ok _, b') => (Ok tt, (settle_done terminal_state t1, b'))
        | (Raise e, b') => (Raise e, (settle_failed t1, b'))
        end
    end.

Definition ack : M (ack_token * B) unit := settle acked.
Definition nack : M (ack_token * B) unit := settle nacked.
End Settle.

(** *** Interleaved settlement

    Any number of threads (and re-entrant signals) call [ack] and [nack]; the
    lock makes each critical section atomic and the backend hook runs between
    them.  [w_calls] are the callers inside the hook with the transition they
    requested, [w_log] the hook invocations that ended, newest first. *)
Record settlement := Settlement {
  s_backend : nat; s_queue : string; s_token : token;
  s_terminal : token_state; s_success : bool
}.

Record world := World {
  w_tok : ack_token;
  w_calls : list token_state;
  w_log : list settlement
}.

Definition settlement_of (t : ack_token) (term : token_state) (ok : bool) : settlement :=
  Settlement (at_backend t) (at_queue_name t) (at_token t) term ok.

Inductive step : world -> world -> Prop :=
  | step_return t cs l :
      settle_reserve t = None ->
      step (World t cs l) (World t cs l)
  | step_reserve t t' cs l term :
      term <> pending ->
      settle_reserve t = Some t' ->
      step (World t cs l) (World t' (term :: cs) l)
  | step_failed t cs1 cs2 l term :
      step (World t (cs1 ++ term :: cs2) l)
           (World (settle_failed t) (cs1 ++ cs2) (settlement_of t term false :: l))
  | step_done t cs1 cs2 l term :
      step (World t (cs1 ++ term :: cs2) l)
           (World (settle_done term t) (cs1 ++ cs2) (settlement_of t term true :: l)).

Definition successes (l : list settlement) : list settlement :=
  filter (fun s => s_success s = true) l.

(** The invariant: one reservation per caller inside the hook, and the state
    is terminal exactly when one settlement succeeded. *)
Definition ok (t0 : ack_token) (w : world) : Prop :=
  at_backend (w_tok w) = at_backend t0 /\
  at_queue_name (w_tok w) = at_queue_name t0 /\
  at_token (w_tok w) = at_token t0 /\
  Forall (fun term => term <> pending) (w_calls w) /\
  length (w_calls w) = (if at_settlement_in_progress (w_tok w) then 1 else 0)%nat /\
  (at_settlement_in_progress (w_tok w) = true -> at_state (w_tok w) = pending) /\
  Forall (fun s => s = settlement_of t0 (s_terminal s) (s_success s)
                   /\ s_terminal s <> pending) (w_log w) /\
  match successes (w_log w) with
  | [] => at_state (w_tok w) = pending
  | [s] => at_state (w_tok w) = s_terminal s
  | _ => False
  end.

Lemma settle_reserve_Some t t' :
  settle_reserve t = Some t' <->
  at_state t = pending /\ at_settlement_in_progress t = false /\ t' = with_flag t pending true.
Proof.
  unfold settle_reserve. destruct t as [i q k st ip]. cbn.
  destruct st, ip; cbn; (split; [try done|]); try (intros (? & ? & ->); done).
  by intros [= <-].
Qed.

Lemma ok_step t0 w w' : ok t0 w -> step w w' -> ok t0 w'.
Proof.
  intros Hok Hs. destruct Hs as [t cs l Hr|t t' cs l term Hterm Hr|t cs1 cs2 l term|t cs1 cs2 l term];
    unfold ok in *; cbn in *;
    destruct Hok as (Hb & Hq & Hk & Hcs & Hlen & Hp & Hlog & Hsucc).
  - by repeat split.
  - apply settle_reserve_Some in Hr as (Hst & Hip & ->). rewrite Hip in Hlen.
    destruct cs; [|done]. cbn. rewrite Hst in Hsucc. repeat split; auto.
  - rewrite length_app in Hlen. cbn in Hlen.
    destruct (at_settlement_in_progress t) eqn:Hip; [|lia].
    destruct cs1, cs2; cbn in *; try lia.
    apply Forall_cons in Hcs as [Hterm _].
    repeat split; auto.
    constructor; [|done]. cbn. split; [|done].
    unfold settlement_of. by rewrite Hb, Hq, Hk.
  - rewrite length_app in Hlen. cbn in Hlen.
    destruct (at_settlement_in_progress t) eqn:Hip; [|lia].
    destruct cs1, cs2; cbn in *; try lia.
    rewrite (Hp eq_refl) in Hsucc.
    apply Forall_cons in Hcs as [Hterm _].
    repeat split; auto; try discriminate.
    + constructor; [|done]. cbn. split; [|done].
      unfold settlement_of. by rewrite Hb, Hq, Hk.
    + unfold successes in *. rewrite decide_True by done.
      destruct (filter _ l) as [|s [|]] eqn:El; [done| |done].
      assert (s ∈ l) as Hsl.
      { assert (s ∈ filter (fun s => s_success s = true) l) as Hf.
        { rewrite El. left. }
        by apply list_elem_of_filter in Hf as [_ ?]. }
      rewrite Forall_forall in Hlog. by destruct (Hlog s Hsl).
Qed.

Lemma ok_rtc t0 w w' : ok t0 w -> rtc step w w' -> ok t0 w'.
Proof. intros Hok Hr. induction Hr; eauto using ok_step. Qed.

Lemma ok_init i q k : ok (init i q k) (World (init i q k) [] []).
Proof. repeat split; auto. Qed.

(** C9. Under every interleaving of [ack] and [nack] calls, at most one broker
    settlement succeeds, at most one is in flight, each one addresses the
    issuing backend, queue and raw token, and the recorded state is terminal
    exactly when a settlement succeeded. *)
Theorem settled_at_most_once i q k w
    (Hreach : rtc step (World (init i q k) [] []) w) :
  (length (successes (w_log w)) <= 1)%nat /\
  (length (w_calls w) <= 1)%nat /\
  Forall (fun s => s_backend s = i /\ s_queue s = q /\ s_token s = k) (w_log w) /\
  (at_state (w_tok w) <> pending <-> exists s, successes (w_log w) = [s]
                                        /\ s_terminal s = at_state (w_tok w)).
Proof.
  destruct (ok_rtc _ _ _ (ok_init i q k) Hreach)
    as (Hb & Hq & Hk & Hcs & Hlen & Hp & Hlog & Hsucc).
  split; [|split; [|split]].
  - destruct (successes (w_log w)) as [|? [|]]; cbn; lia || done.
  - destruct (at_settlement_in_progress (w_tok w)); lia.
  - eapply Forall_impl; [exact Hlog|]. intros s [-> _]. cbn. done.
  - destruct (successes (w_log w)) as [|s [|]] eqn:El; [|clear Hp|done].
    + split; [congruence|]. by intros (s & ? & _).
    + split; [by eauto|]. intros _ Hpend. rewrite Hpend in Hsucc.
      assert (Hin : s ∈ w_log w).
      { assert (s ∈ successes (w_log w)) as Hf by (rewrite El; left).
        by apply list_elem_of_filter in Hf as [_ ?]. }
      rewrite Forall_forall in Hlog. by destruct (Hlog s Hin).
Qed.

Lemma settled_at_most_once_witness :
  let w := World (settle_done nacked (init 7 "q" 3)) []
             [settlement_of (init 7 "q" 3) nacked true;
              settlement_of (init 7 "q" 3) acked false] in
  (length (successes (w_log w)) <= 1)%nat /\
  (length (w_calls w) <= 1)%nat /\
  Forall (fun s => s_backend s = 7%nat /\ s_queue s = "q"%string /\ s_token s = 3%nat) (w_log w) /\
  (at_state (w_tok w) <> pending <-> exists s, successes (w_log w) = [s]
                                        /\ s_terminal s = at_state (w_tok w)).
Proof.
  intros w. apply (settled_at_most_once 7 "q" 3).
  eapply rtc_l. { by eapply (step_reserve _ _ [] [] acked). }
  eapply rtc_l. { eapply (step_failed _ [] []). }
  eapply rtc_l. { by eapply (step_reserve _ _ [] _ nacked). }
  eapply rtc_l. { eapply (step_return _ [nacked]). reflexivity. }
  eapply rtc_l. { eapply (step_done _ [] []). }
  apply rtc_refl.
Defined.

Section SettleTheorems.
Context {B : Type} `{QueueBackend B}.

(** One undisturbed [_settle] call refines the interleaved protocol: it is a
    run of the step relation from its token to its token; a failed hook leaves
    the token exactly as it was, so the delivery can be settled again, and a
    settled or reserved token makes the call a no-op that never reaches the
    broker. *)
Theorem settle_refines_step term t b o t' b' l
    (Hterm : term <> pending)
    (Hrun : settle term (t, b) = (o, (t', b'))) :
  (exists l', rtc step (World t [] l) (World t' [] l')) /\
  match o with
  | Ok _ => (at_state t = pending /\ at_settlement_in_progress t = false
               /\ t' = with_flag t term false)
            \/ (settle_reserve t = None /\ t' = t /\ b' = b)
  | Raise _ => t' = t
  end.
Proof.
  unfold settle in Hrun. destruct (settle_reserve t) as [t1|] eqn:Hr.
  - pose proof Hr as (Hst & Hip & ->)%settle_reserve_Some.
    destruct (settle_call term (with_flag t pending true) b) as [[[]|e] b1];
      injection Hrun as <- <- <-.
    + split; [|left; done]. eexists.
      eapply rtc_l. { by eapply (step_reserve _ _ [] l term). }
      eapply rtc_l. { eapply (step_done _ [] []). } apply rtc_refl.
    + split.
      * eexists. eapply rtc_l. { by eapply (step_reserve _ _ [] l term). }
        eapply rtc_l. { eapply (step_failed _ [] []). } apply rtc_refl.
      * destruct t; cbn in *. by subst.
  - injection Hrun as <- <- <-. split; [|by right]. exists l. apply rtc_refl.
Qed.
End SettleTheorems.

Lemma settle_refines_step_witness :
  let t := init 0 "q" 3 in
  (exists l', rtc step (World t [] []) (World (with_flag t acked false) [] l')) /\
  ((at_state t = pending /\ at_settlement_in_progress t = false
     /\ with_flag t acked false = with_flag t acked false)
   \/ (settle_reserve t = None /\ with_flag t acked false = t /\ (∅ : MemQueue.state) = ∅)).
Proof.
  apply (@settle_refines_step _ (MemQueue.backend false) acked (init 0 "q" 3) ∅ (Ok tt)
           (with_flag (init 0 "q" 3) acked false) ∅ []); done.
Defined.
End AckToken.

(** ** The one-queue binding of in-process strategies *)

(** [QueueStrategy._bind_single_queue] on [_bound_queue_name]. *)
Definition bind_single_queue (queue_name : string) : M (option string) unit :=
  fun bound =>
    match bound with
    | None => (Ok tt, Some queue_name)
    | Some q => (if bool_decide (q <> queue_name) then Raise EValue else Ok tt, bound)
    end.

Lemma bind_single_queue_ok q bound bound' :
  bind_single_queue q bound = (Ok tt, bound') ->
  bound' = Some q /\ (bound = None \/ bound = Some q).
Proof.
  destruct bound as [q0|]; cbn; [|intros [= <-]; auto].
  case_bool_decide as Hq; [done|]. intros [= <-].
  assert (q0 = q) as -> by (destruct (decide (q0 = q)); [done|by destruct Hq]). auto.
Qed.

(** ** Prepared pushes *)

(** [_PreparedQueuePush] over a strategy-and-backend state [S]. *)
Record prepared_push (S : Type) := PreparedPush {
  pp_backend_route : bool;
  pp_commit : bytes -> bool -> M S bool
}.
Arguments PreparedPush {S}.
Arguments pp_backend_route {S}.
Arguments pp_commit {S}.

(** [_PreparedQueuePush.commit]: only a literal True is evidence. *)
Definition commit {S} (p : prepared_push S) (item : bytes) (require_durable : bool) : M S bool :=
  let! r := pp_commit p item require_durable in ret r.

(** [_PreparedQueuePush.local]: a durability gate before the mutation. *)
Definition local_prepared {S} (publish : bytes -> M S unit) : prepared_push S :=
  PreparedPush false (fun item require_durable =>
    if require_durable then raise (EQueue "push")
    else let! _ := publish item in ret false).

Section Base.
Context {B : Type} `{QueueBackend B}.

(** [QueueStrategy._push_backend_prepared]. *)
Definition push_backend_prepared (queue_name : string) (item : bytes) (priority : float)
    (require_durable : bool) : M B bool :=
  manager_push_with_durability queue_name item priority require_durable.

(** [QueueStrategy._prepare_backend_push]. *)
Definition prepare_backend_push (queue_name : string) (priority : float) : prepared_push B :=
  PreparedPush true (fun item require_durable =>
    push_backend_prepared queue_name item priority require_durable).

(** [QueueStrategy._pop_backend_instance_with_ack] on backend object [i]. *)
Definition pop_backend_instance_with_ack (i : nat) (queue_name : string) (timeout : float)
    : M B (option bytes * option ack_token) :=
  let! r := (match qb_pop_with_ack_override with
             | Some f => f queue_name timeout
             | None => let! data := qb_pop queue_name timeout in ret (data, None)
             end) in
  ret (fst r, match snd r with
              | None => None
              | Some (Bound t) => Some t
              | Some (Raw t) => Some (AckToken.init i queue_name t)
              end).

(** [QueueStrategy._pop_backend_with_ack]. *)
Definition pop_backend_with_ack (queue_name : string) (timeout : float)
    : M B (option bytes * option ack_token) :=
  let! i := get_queue_backend in pop_backend_instance_with_ack i queue_name timeout.

(** *** Passthrough *)
Definition pt_is_push_durable : bool := true.

Definition pt_prepare_push (queue_name : string) (priority : float) : prepared_push B :=
  prepare_backend_push queue_name priority.

Definition pt_push (queue_name : string) (item : bytes) (priority : float) : M B unit :=
  let! _ := get_queue_backend in qb_push queue_name item priority.

Definition pt_pop (queue_name : string) (timeout : pyarg) : M B (option bytes) :=
  let! t := lift (normalize_queue_timeout timeout) in
  let! _ := get_queue_backend in
  qb_pop queue_name t.

Definition pt_pop_with_ack (queue_name : string) (timeout : pyarg)
    : M B (option bytes * option ack_token) :=
  let! t := lift (normalize_queue_timeout timeout) in
  pop_backend_with_ack queue_name t.

Definition pt_queue_len (queue_name : string) : M B Z :=
  let! _ := get_queue_backend in qb_queue_len queue_name.

Definition pt_clear (queue_name : string) : M B unit :=
  let! _ := get_queue_backend in qb_clear_queue queue_name.

(** A durability-requiring commit returns True only on a well-formed true
    receipt of the very push it made; without that evidence it raises. *)
Lemma manager_push_Ok q item p rd b d b' :
  manager_push_with_durability q item p rd b = (Ok d, b') ->
  exists raw, push_with_durability q item p rd b = (Ok raw, b')
              /\ (d = true <-> raw = Some true) /\ (rd = true -> d = true).
Proof.
  unfold manager_push_with_durability.
  destruct (push_with_durability q item p rd b) as [[raw|e] b1]; [|by destruct e].
  destruct (rd && _) eqn:E; [done|]. intros [= <- <-]. exists raw. split; [done|].
  destruct raw as [[|]|], rd; done.
Qed.

(** Durability evidence of the passthrough route.  For every backend, a commit
    that required durability and returned did so on a true receipt; for a
    backend with the inherited fail-closed hook the receipt is the class
    attribute, the item was pushed exactly once, and a policy rejection leaves
    the backend untouched. *)
Theorem passthrough_durability q p item rd b o b'
    (Hrun : commit (pt_prepare_push q p) item rd b = (o, b')) :
  match o with
  | Ok d => (rd = true -> d = true) /\
            (exists raw, push_with_durability q item p rd b = (Ok raw, b')
                         /\ (d = true <-> raw = Some true)) /\
            (qb_push_with_durability_override = None ->
               qb_push q item p b = (Ok tt, b') /\ d = qb_push_is_durable)
  | Raise e => qb_push_with_durability_override = None ->
               rd = true -> qb_push_is_durable = false -> e = EQueue "push" /\ b' = b
  end.
Proof.
  unfold commit, bind, ret in Hrun. cbn in Hrun.
  destruct (push_backend_prepared q item p rd b) as [[d|e] b1] eqn:Hp;
    injection Hrun as <- <-.
  - pose proof (manager_push_Ok _ _ _ _ _ _ _ Hp) as (raw & Hraw & Hd & Hrd).
    split; [done|]. split; [by eauto|]. intros Hov. revert Hraw.
    unfold push_with_durability. rewrite Hov. unfold default_push_with_durability.
    destruct (rd && _); [done|]. unfold bind, ret.
    destruct (qb_push q item p b) as [[[]|e] b2]; [|done]. intros [= <- <-].
    split; [done|]. destruct qb_push_is_durable, d; try done.
    + by apply Hd.
    + destruct Hd as [Hd _]. by specialize (Hd eq_refl).
  - intros Hov -> Hnd. revert Hp.
    unfold push_backend_prepared, manager_push_with_durability, push_with_durability.
    rewrite Hov. unfold default_push_with_durability. rewrite Hnd. cbn.
    by intros [= <- <-].
Qed.

(** Settling a token that the shared pop handed out reaches the backend object
    and physical queue that issued it, whatever backend is live by then. *)
Theorem popped_token_acks_issuer f q t b i b1 data r b2 b3
    (Hov : qb_pop_with_ack_override = Some f)
    (Hget : get_queue_backend b = (Ok i, b1))
    (Hpop : f q t b1 = (Ok (data, Some (Raw r)), b2)) :
  exists tok, pop_backend_with_ack q t b = (Ok (data, Some tok), b2) /\
    AckToken.ack (tok, b3) =
      match qb_ack i q (Some r) b3 with
      | (Ok _, b4) => (Ok tt, (AckToken.with_flag tok acked false, b4))
      | (Raise e, b4) => (Raise e, (tok, b4))
      end.
Proof.
  exists (AckToken.init i q r). split.
  - unfold pop_backend_with_ack, pop_backend_instance_with_ack, bind, ret.
    by rewrite Hget, Hov, Hpop.
  - unfold AckToken.ack, AckToken.settle.
    replace (AckToken.settle_reserve (AckToken.init i q r))
      with (Some (AckToken.with_flag (AckToken.init i q r) pending true)) by done.
    unfold AckToken.settle_call. rewrite bool_decide_true by done. cbn.
    by destruct (qb_ack i q (Some r) b3) as [[|] ?].
Qed.

(** An in-process route refuses a durability demand before it touches any
    state, and never claims durability. *)
Lemma local_prepared_spec {S} (publish : bytes -> M S unit) item rd s :
  commit (local_prepared publish) item rd s =
  if rd then (Raise (EQueue "push"), s)
  else match publish item s with
       | (Ok _, s') => (Ok false, s')
       | (Raise e, s') => (Raise e, s')
       end.
Proof.
  destruct rd; [done|]. unfold commit, bind, ret. cbn. unfold bind, ret.
  by destruct (publish item s) as [[|] ?].
Qed.
End Base.

Lemma passthrough_durability_witness :
  commit (@pt_prepare_push _ (MemQueue.backend true) "q" fzero) [x61] true ∅
    = (Ok true, {["q" := [[x61]]]}) /\ (true = true -> true = true).
Proof.
  split; [reflexivity|].
  exact (proj1 (@passthrough_durability _ (MemQueue.backend true) "q" fzero [x61] true ∅
                  (Ok true) {["q" := [[x61]]]} eq_refl)).
Defined.

(** A one-item broker with message tokens, for the witness below. *)
Definition token_backend : QueueBackend (option bytes * bool) := {|
  get_queue_backend := ret 5%nat;
  qb_push q x p := fun b => (Ok tt, (Some x, snd b));
  qb_pop q t := fun b => (Ok (fst b), (None, snd b));
  qb_pop_with_ack_override := Some (fun q t b => (Ok (fst b, Some (Raw 9%nat)), (None, snd b)));
  qb_ack i q t := fun b => (Ok tt, (fst b, true));
  qb_nack i q t := ret tt;
  qb_queue_len q := fun b => (Ok (match fst b with Some _ => 1 | None => 0 end), b);
  qb_clear_queue q := fun b => (Ok tt, (None, snd b));
  qb_push_is_durable := true;
  qb_push_with_durability_override := None
|}.

Lemma popped_token_acks_issuer_witness :
  exists tok,
    @pop_backend_with_ack _ token_backend "q" fzero (Some [x61], false)
      = (Ok (Some [x61], Some tok), (None, false)) /\
    @AckToken.ack _ token_backend (tok, (None, false))
      = (Ok tt, (AckToken.with_flag tok acked false, (None, true))).
Proof.
  exact (@popped_token_acks_issuer _ token_backend _ "q" fzero (Some [x61], false) 5%nat
           (Some [x61], false) (Some [x61]) 9%nat (None, false) (None, false)
           eq_refl eq_refl eq_refl).
Defined.
