(* ===== verification/Clock.v ===== *)
(** * Injected clocks and timed entries

    The delay and time-wheel strategies read an injected monotonic clock (and a
    wall clock around a restart) and hold items in heaps ordered by
    [(ready_at, seq)].  A reading may be any Python value or an exception, and
    reading or waiting moves the environment on. *)

From S2P Require Export Json StrategyBase.

Class Clock (W : Type) := {
  clock_read : M W pyarg;
  wall_clock_read : M W pyarg
}.

(** What [time.monotonic] promises: finite readings that never go back, also
    across the operations of the backend (which may wait). *)
Class ClockLaws (W : Type) `{QueueBackend W, Clock W} := {
  time : W -> float;
  time_ok : forall w, isfinite (time w) = true /\ valid_binary prec emax (time w) = true;
  clock_read_ok : forall w o w', clock_read w = (o, w') ->
    o = Ok (AFloat (time w')) /\ fleb (time w) (time w') = true;
  backend_get_time : forall w o w', get_queue_backend w = (o, w') ->
    fleb (time w) (time w') = true;
  backend_push_time : forall q x p w o w', qb_push q x p w = (o, w') ->
    fleb (time w) (time w') = true;
  backend_pop_time : forall q t w o w', qb_pop q t w = (o, w') ->
    fleb (time w) (time w') = true
}.

(** Python's [delay > 0] on an unvalidated argument. *)
Definition arg_positive (v : pyarg) : outcome bool :=
  match v with
  | ABool b => Ok b
  | AInt z => Ok (0 <? z)
  | AFloat f => Ok (fltb fzero f)
  | AOther => Raise EType
  end.

(** ** Held entries *)
Record entry := Entry {
  e_ready : float;
  e_seq : Z;
  e_item : bytes;
  e_priority : float
}.

(** Tuple order on [(ready_at, seq)]; sequence numbers are distinct, so the
    payload never takes part. *)
Definition entry_le (x y : entry) : bool :=
  fltb (e_ready x) (e_ready y)
  || (feqb (e_ready x) (e_ready y) && (e_seq x <=? e_seq y)).

Definition entry_ok (e : entry) : Prop := isfinite (e_ready e) = true.

Definition heap_ok (h : list entry) : Prop :=
  Forall entry_ok h /\ StronglySorted (le_rel entry_le) h.

Lemma entry_le_spec x y :
  entry_ok x -> entry_ok y ->
  entry_le x y = true <->
  klt (fkey (e_ready x)) (fkey (e_ready y))
  \/ (fkey (e_ready x) = fkey (e_ready y) /\ e_seq x <= e_seq y).
Proof.
  intros Hx%isfinite_not_nan Hy%isfinite_not_nan. unfold entry_le.
  rewrite orb_true_iff, andb_true_iff, fltb_klt, feqb_fkey, Z.leb_le by done. done.
Qed.

Lemma entry_le_total x y : entry_ok x -> entry_ok y -> entry_le x y = true \/ entry_le y x = true.
Proof.
  intros Hx Hy. rewrite !entry_le_spec by done.
  destruct (klt_total (fkey (e_ready x)) (fkey (e_ready y))) as [?|[->|?]]; auto.
  destruct (Z.le_ge_cases (e_seq x) (e_seq y)); auto.
Qed.

Lemma entry_le_trans x y z : entry_ok x -> entry_ok y -> entry_ok z ->
  entry_le x y = true -> entry_le y z = true -> entry_le x z = true.
Proof.
  intros Hx Hy Hz. rewrite !entry_le_spec by done.
  intros [H1|[E1 H1]] [H2|[E2 H2]]; [left; by eapply klt_trans|rewrite <- E2; auto|rewrite E1; auto|].
  right. split; [congruence|lia].
Qed.

Lemma entry_le_ready x y : entry_ok x -> entry_ok y ->
  entry_le x y = true -> fleb (e_ready x) (e_ready y) = true.
Proof.
  intros Hx Hy H. apply entry_le_spec in H; [|done..].
  apply fleb_klt; [by apply isfinite_not_nan..|]. intros Hk.
  destruct H as [H|[H _]].
  - by eapply klt_irrefl, klt_trans.
  - rewrite H in Hk. by eapply klt_irrefl.
Qed.

Lemma heap_insert_ok e h : entry_ok e -> heap_ok h -> heap_ok (insert_by entry_le e h).
Proof.
  intros He [Hf Hs]. split; [rewrite insert_by_perm; by constructor|].
  apply (insert_by_sorted entry_le entry_ok entry_le_total entry_le_trans); done.
Qed.

Lemma heap_tail_ok e h : heap_ok (e :: h) -> heap_ok h.
Proof. intros [Hf Hs]. split; [by inversion Hf|by inversion Hs]. Qed.

(** Behind an entry that is not due, nothing is due. *)
Lemma heap_not_due now e h :
  isfinite now = true -> heap_ok (e :: h) -> fleb (e_ready e) now = false ->
  Forall (fun x => fleb (e_ready x) now = false) (e :: h).
Proof.
  intros Hn [Hf Hs] He. constructor; [done|].
  apply Forall_cons in Hf as [Pe Pf]. inversion Hs as [|? ? _ Hall]; subst.
  rewrite Forall_forall in Hall, Pf |- *. intros x Hx.
  destruct (fleb (e_ready x) now) eqn:E; [|done].
  rewrite <- He. symmetry. eapply fleb_trans; [|exact E].
  apply entry_le_ready; [done|by apply Pf|by apply Hall].
Qed.

(** The sequence of successful backend pushes a drain performs. *)
Inductive pushed_all {W} `{QueueBackend W} (q : string) : list entry -> W -> W -> Prop :=
  | pushed_nil w : pushed_all q [] w w
  | pushed_cons e es w w1 w2 :
      qb_push q (e_item e) (e_priority e) w = (Ok tt, w1) ->
      pushed_all q es w1 w2 -> pushed_all q (e :: es) w w2.

(** ** A reference environment: in-memory queues and a ticking clock *)
Module MemClock.
Definition env : Type := MemQueue.state * Z.

Definition at_tick (n : Z) : float := float_of_Z (Z.max 0 (Z.min 1000 n)).

#[export] Instance backend : QueueBackend env :=
  let mem := MemQueue.backend false in {|
  get_queue_backend := on_fst (@get_queue_backend _ mem);
  qb_push q x p := on_fst (@qb_push _ mem q x p);
  qb_pop q t := on_fst (@qb_pop _ mem q t);
  qb_pop_with_ack_override := None;
  qb_ack i q t := ret tt;
  qb_nack i q t := ret tt;
  qb_queue_len q := on_fst (@qb_queue_len _ mem q);
  qb_clear_queue q := on_fst (@qb_clear_queue _ mem q);
  qb_push_is_durable := false;
  qb_push_with_durability_override := None
|}.

#[export] Instance clock : Clock env := {|
  clock_read := fun '(b, n) => (Ok (AFloat (at_tick (n + 1))), (b, n + 1));
  wall_clock_read := fun '(b, n) => (Ok (AFloat (at_tick n)), (b, n))
|}.

Lemma ticks_ok :
  forallb (fun n => isfinite (float_of_Z n) && valid_binary prec emax (float_of_Z n)
                    && fleb (float_of_Z n) (float_of_Z (Z.min 1000 (n + 1)))
                    && fleb (float_of_Z n) (float_of_Z n))
    (seqZ 0 1001) = true.
Proof. by vm_compute. Qed.

Lemma at_tick_ok n :
  isfinite (at_tick n) = true /\ valid_binary prec emax (at_tick n) = true
  /\ fleb (at_tick n) (at_tick (n + 1)) = true /\ fleb (at_tick n) (at_tick n) = true.
Proof.
  pose proof ticks_ok as Ht. rewrite forallb_forall in Ht.
  assert (Hin : In (Z.max 0 (Z.min 1000 n)) (seqZ 0 1001)).
  { apply list_elem_of_In, elem_of_seqZ. lia. }
  specialize (Ht _ Hin). rewrite !andb_true_iff in Ht. destruct Ht as [[[H1 H2] H3] H4].
  unfold at_tick. split; [done|]. split; [done|]. split; [|done].
  destruct (Z.ltb_spec n 0).
  - replace (Z.max 0 (Z.min 1000 (n + 1))) with 0 by lia.
    by replace (Z.max 0 (Z.min 1000 n)) with 0 by lia.
  - by replace (Z.max 0 (Z.min 1000 (n + 1))) with (Z.min 1000 (Z.max 0 (Z.min 1000 n) + 1)) by lia.
Qed.

Lemma on_fst_snd {A} (m : M MemQueue.state A) b n o w' :
  @on_fst MemQueue.state Z A m (b, n) = (o, w') -> snd w' = n.
Proof. cbn. destruct (m b). by intros [= _ <-]. Qed.

#[export] Instance laws : ClockLaws env.
Proof.
  refine {| time := fun w => at_tick (snd w) |}.
  - intros [b n]. split; apply at_tick_ok.
  - intros [b n] o w' [= <- <-]. split; [done|]. apply at_tick_ok.
  - intros [b n] o w' ->%on_fst_snd. apply at_tick_ok.
  - intros q x p [b n] o w' ->%on_fst_snd. apply at_tick_ok.
  - intros q t [b n] o w' ->%on_fst_snd. apply at_tick_ok.
Defined.
End MemClock.
