(* ===== verification/Priority.v ===== *)
(** * The priority strategy

    queue/strategies/priority.py: priorities mapped to a fixed number of
    physical bucket queues, scanned from the most urgent one.  The name memo of
    the instance and the process-wide warning latch are part of the state. *)

From stdpp Require Export pretty.
From S2P Require Export Loops Names StrategyBase.

Module Priority.
Definition DEFAULT_PRIORITY_LEVELS : Z := 3.
Definition MAX_PRIORITY_LEVELS : Z := 256.

Record self := Self {
  levels : Z;
  physical_names : gmap (string * Z) string;
  name_generation : string;
  (** The manager's backend type and the module's warning latch. *)
  backend_type : option string;
  noop_warned : bool
}.

Definition range (s : self) : list Z := seqZ 0 (levels s).

(** [_level_for]. *)
Definition level_for (levels : Z) (priority : pyarg) : outcome Z :=
  let center := levels / 2 in
  let clamp := fun level => Z.min (levels - 1) (Z.max 0 level) in
  match priority with
  | ABool _ | AOther => Raise EValue
  | AInt p =>
      (* math.isfinite of an int that no float can hold raises OverflowError *)
      if isfinite (float_of_Z p) then Ok (clamp (center - p)) else Raise EValue
  | AFloat p =>
      if isfinite p then
        let x := fadd (fsub (float_of_Z center) p) (fdiv (float_of_Z 1) (float_of_Z 2)) in
        if isfinite x then Ok (clamp (ffloor x))
        else if is_nan x then Raise EValue else Raise EOverflow
      else Raise EValue
  end.

Section Priority.
Variable blake2s_hex : bytes -> string.

(** [__init__]. *)
Definition init (bt : option string) (warned : bool) (lv : pyarg) (generation : string)
    : outcome self :=
  match ensure_fanout_backend_supported bt with
  | Raise e => Raise e
  | Ok _ =>
      match lv with
      | AInt n =>
          if (1 <=? n) && (n <=? MAX_PRIORITY_LEVELS) then
            if string_in generation [CURRENT_FANOUT_NAME_GENERATION; LEGACY_FANOUT_NAME_GENERATION]
            then Ok (Self n ∅ generation bt warned)
            else Raise EValue
          else Raise EValue
      | _ => Raise EValue
      end
  end.

Definition resolve (s : self) (queue_name : string) (level : Z) : M bool string :=
  physical_strategy_queue_name blake2s_hex (backend_type s) queue_name "priority"
    (pretty level) (queue_name ++ ":p" ++ pretty level) (name_generation s).

(** [_bucket_queue]: the memoised physical name. *)
Definition bucket_queue (queue_name : string) (level : Z) : M self string := fun s =>
  match physical_names s !! (queue_name, level) with
  | Some name => (Ok name, s)
  | None =>
      match resolve s queue_name level (noop_warned s) with
      | (Ok name, w) =>
          (Ok name, Self (levels s) (<[(queue_name, level) := name]> (physical_names s))
                      (name_generation s) (backend_type s) w)
      | (Raise e, w) =>
          (Raise e, Self (levels s) (physical_names s) (name_generation s) (backend_type s) w)
      end
  end.

Context {B : Type} `{QueueBackend B}.

Definition is_push_durable : bool := true.

(** [push]. *)
Definition push (queue_name : string) (item : bytes) (priority : pyarg) : M (self * B) unit :=
  let! s := on_fst get in
  let! level := lift (level_for (levels s) priority) in
  let! _ := on_snd get_queue_backend in
  let! name := on_fst (bucket_queue queue_name level) in
  on_snd (qb_push name item fzero).

(** [_prepare_push]. *)
Definition prepare_push (queue_name : string) (priority : pyarg) : prepared_push (self * B) :=
  PreparedPush true (fun item require_durable =>
    let! s := on_fst get in
    let! level := lift (level_for (levels s) priority) in
    let! name := on_fst (bucket_queue queue_name level) in
    on_snd (push_backend_prepared name item fzero require_durable)).

Definition pop_level (queue_name : string) (timeout : float) (level : Z)
    : M (self * B) (option bytes) :=
  let! name := on_fst (bucket_queue queue_name level) in on_snd (qb_pop name timeout).

(** [pop]. *)
Definition pop (queue_name : string) (timeout : pyarg) : M (self * B) (option bytes) :=
  let! t := lift (normalize_queue_timeout timeout) in
  let! _ := on_snd get_queue_backend in
  let! s := on_fst get in
  let scan := scan_first (pop_level queue_name fzero) (fun r => bool_decide (is_Some r)) None
                (range s) in
  let! r := scan in
  match r with
  | Some _ => ret r
  | None =>
      if fltb fzero t then
        let! r0 := pop_level queue_name t 0 in
        match r0 with
        | Some _ => ret r0
        | None => scan
        end
      else ret None
  end.

Definition pop_level_with_ack (i : nat) (queue_name : string) (timeout : float) (level : Z)
    : M (self * B) (option bytes * option ack_token) :=
  let! name := on_fst (bucket_queue queue_name level) in
  on_snd (pop_backend_instance_with_ack i name timeout).

(** A token-only tombstone counts as a hit. *)
Definition delivered (r : option bytes * option ack_token) : bool :=
  bool_decide (is_Some (fst r)) || bool_decide (is_Some (snd r)).

(** [pop_with_ack]. *)
Definition pop_with_ack (queue_name : string) (timeout : pyarg)
    : M (self * B) (option bytes * option ack_token) :=
  let! t := lift (normalize_queue_timeout timeout) in
  let! i := on_snd get_queue_backend in
  let! s := on_fst get in
  let scan := scan_first (pop_level_with_ack i queue_name fzero) delivered (None, None)
                (range s) in
  let! r := scan in
  if delivered r then ret r
  else if fltb fzero t then
    let! r0 := pop_level_with_ack i queue_name t 0 in
    if delivered r0 then ret r0 else scan
  else ret (None, None).

(** [queue_len]. *)
Definition queue_len (queue_name : string) : M (self * B) Z :=
  let! _ := on_snd get_queue_backend in
  let! s := on_fst get in
  sum_over (fun level => let! name := on_fst (bucket_queue queue_name level) in
                         on_snd (qb_queue_len name)) 0 (range s).

(** [clear]. *)
Definition clear (queue_name : string) : M (self * B) unit :=
  let! _ := on_snd get_queue_backend in
  let! s := on_fst get in
  for_each (fun level => let! name := on_fst (bucket_queue queue_name level) in
                         on_snd (qb_clear_queue name)) (range s).
End Priority.

(** ** Lemmas *)
Section Lemmas.
Variable blake2s_hex : bytes -> string.

(** The name a bucket has, whatever the memo and the latch hold. *)
Definition bucket_name (s : self) (queue_name : string) (level : Z) : outcome string :=
  fst (resolve blake2s_hex s queue_name level false).

Definition same_config (s s' : self) : Prop :=
  levels s' = levels s /\ name_generation s' = name_generation s
  /\ backend_type s' = backend_type s.

(** The memo invariant: every remembered name is the computed one. *)
Definition memo_ok (s : self) : Prop :=
  forall q l n, physical_names s !! (q, l) = Some n -> bucket_name s q l = Ok n.

Lemma bucket_name_config s s' q l :
  same_config s s' -> bucket_name s' q l = bucket_name s q l.
Proof. intros (_ & H1 & H2). unfold bucket_name, resolve. by rewrite H1, H2. Qed.

Lemma same_config_refl s : same_config s s.
Proof. done. Qed.

Lemma same_config_trans s1 s2 s3 :
  same_config s1 s2 -> same_config s2 s3 -> same_config s1 s3.
Proof. unfold same_config. intuition congruence. Qed.

Lemma resolve_latch s q l w : fst (resolve blake2s_hex s q l w) = bucket_name s q l.
Proof.
  unfold bucket_name, resolve, physical_strategy_queue_name.
  destruct (negb _); [done|]. unfold bind, ret, lift, warn_legacy_generation_noop.
  destruct (_ && negb _); [|by destruct (_ && _)]. unfold bind, get, put.
  destruct w; by destruct (_ && _).
Qed.

Lemma bucket_queue_spec q l s o s' :
  memo_ok s -> bucket_queue blake2s_hex q l s = (o, s') ->
  o = bucket_name s q l /\ memo_ok s' /\ same_config s s'.
Proof.
  intros Hm. unfold bucket_queue. destruct (physical_names s !! (q, l)) as [n|] eqn:E.
  - intros [= <- <-]. by rewrite (Hm _ _ _ E).
  - pose proof (resolve_latch s q l (noop_warned s)) as Hr.
    destruct (resolve blake2s_hex s q l (noop_warned s)) as [[n|e] w];
      intros [= <- <-]; cbn in Hr; (split; [done|]); (split; [|done]); [|done].
    intros q' l' n'. cbn. rewrite lookup_insert. case_decide as Hd.
    + injection Hd as <- <-. by intros [= <-].
    + apply Hm.
Qed.

Context {B : Type} `{QueueBackendLaws B}.

(** One non-blocking pop of a level. *)
Lemma pop_level_spec q l s b r s' b' :
  memo_ok s -> pop_level blake2s_hex q fzero l (s, b) = (Ok r, (s', b')) ->
  memo_ok s' /\ same_config s s' /\ exists name, bucket_name s q l = Ok name /\
  match r with
  | Some x => Permutation (waiting b name) (x :: waiting b' name)
              /\ forall n, n <> name -> waiting b' n = waiting b n
  | None => waiting b name = [] /\ forall n, waiting b' n = waiting b n
  end.
Proof.
  intros Hm. unfold pop_level.
  intros (name & st1 & H1 & H2)%bind_ok_inv.
  apply on_fst_ok in H1 as (s1 & H1 & ->). apply on_snd_ok in H2 as (b1 & H2 & [= -> ->]).
  destruct (bucket_queue_spec _ _ _ _ _ Hm H1) as (Hn & Hm1 & Hc).
  split; [done|]. split; [done|]. exists name. split; [done|].
  apply qb_pop_ok in H2 as [Hr Ho]; [|done]. destruct r as [x|]; [done|].
  destruct Hr as [Hw Hw']. split; [done|]. intros n.
  destruct (decide (n = name)) as [->|]; [congruence|auto].
Qed.

Definition level_empty (s : self) (q : string) (b : B) (l : Z) : Prop :=
  forall name, bucket_name s q l = Ok name -> waiting b name = [].

(** A chain of missed levels changes nothing and saw them all empty. *)
Lemma misses_spec q ls s b s' b' :
  memo_ok s ->
  misses (pop_level blake2s_hex q fzero) (fun r => bool_decide (is_Some r)) ls (s, b) (s', b') ->
  memo_ok s' /\ same_config s s' /\ (forall n, waiting b' n = waiting b n)
  /\ Forall (level_empty s q b) ls.
Proof.
  revert s b. induction ls as [|l ls IH]; intros s b Hm; cbn [misses].
  - intros [= -> ->]. done.
  - intros (r & [s1 b1] & Hp & Hr & Hms). apply bool_decide_eq_false in Hr.
    apply pop_level_spec in Hp as (Hm1 & Hc1 & name & Hn & Hw); [|done].
    destruct r as [x|]; [by destruct Hr|]. destruct Hw as [Hw Hsame].
    destruct (IH s1 b1 Hm1 Hms) as (Hm' & Hc' & Hsame' & Hall).
    split; [done|]. split; [by eapply same_config_trans|].
    split; [intros n; by rewrite Hsame'|].
    constructor; [intros n Hn'; congruence|].
    eapply Forall_impl; [exact Hall|]. intros l' He n' Hn'.
    rewrite <- (Hsame n'). apply He. by rewrite (bucket_name_config s).
Qed.

Lemma range_empty s q b :
  Forall (level_empty s q b) (range s) <-> forall l, 0 <= l < levels s -> level_empty s q b l.
Proof.
  unfold range. rewrite Forall_forall. split; intros Hl l Hin; apply Hl.
  - apply elem_of_seqZ. lia.
  - apply elem_of_seqZ in Hin. lia.
Qed.
End Lemmas.

Section Theorems.
Variable blake2s_hex : bytes -> string.

(** The level of a priority is a bucket index; on integers a higher priority
    never gets a later bucket, and priority zero is the middle bucket. *)
Theorem level_for_range_monotone n (Hn : 1 <= n <= MAX_PRIORITY_LEVELS) :
  (forall p l, level_for n p = Ok l -> 0 <= l < n) /\
  (forall p1 p2 l1 l2, p1 <= p2 -> level_for n (AInt p1) = Ok l1 ->
     level_for n (AInt p2) = Ok l2 -> l2 <= l1) /\
  level_for n (AInt 0) = Ok (n / 2).
Proof.
  split; [|split].
  - intros p l. unfold level_for.
    repeat case_match; try done; intros [= <-]; lia.
  - intros p1 p2 l1 l2 Hp. unfold level_for.
    do 2 (case_match; [|done]). intros [= <-] [= <-]. lia.
  - unfold level_for. change (isfinite (float_of_Z 0)) with true. cbv iota.
    f_equal. unfold MAX_PRIORITY_LEVELS in *. zdm.
Qed.

Context {B : Type} `{QueueBackendLaws B}.

(** The non-blocking pop takes an item of the first non-empty bucket and
    leaves every other queue alone; it returns None exactly when every bucket
    is empty. *)
Theorem pop_first_nonempty q s b r s' b'
    (Hm : memo_ok blake2s_hex s)
    (Hpop : pop blake2s_hex q (AInt 0) (s, b) = (Ok r, (s', b'))) :
  match r with
  | Some x => exists l name, 0 <= l < levels s /\ bucket_name blake2s_hex s q l = Ok name
      /\ (forall l', 0 <= l' < l -> level_empty blake2s_hex s q b l')
      /\ Permutation (waiting b name) (x :: waiting b' name)
      /\ (forall n, n <> name -> waiting b' n = waiting b n)
  | None => (forall l, 0 <= l < levels s -> level_empty blake2s_hex s q b l)
      /\ (forall n, waiting b' n = waiting b n)
  end /\ memo_ok blake2s_hex s'.
Proof.
  unfold pop in Hpop. apply bind_ok_inv in Hpop as (t & st0 & Ht & Hpop).
  injection Ht as <- <-. apply bind_ok_inv in Hpop as (i & st1 & Hg & Hpop).
  apply on_snd_ok in Hg as (b1 & Hg & ->).
  pose proof (get_queue_backend_ok _ _ _ Hg) as Hsame1.
  apply bind_ok_inv in Hpop as (s0 & st2 & Hs & Hpop). injection Hs as <- <-.
  apply bind_ok_inv in Hpop as (r1 & [s2 b2] & Hscan & Hr).
  assert (r1 = r /\ s' = s2 /\ b' = b2) as (-> & -> & ->).
  { destruct r1; [by injection Hr as <- <- <-|].
    change (fltb fzero (float_of_Z 0)) with false in Hr. by injection Hr as <- <- <-. }
  clear Hr. apply scan_first_ok in Hscan
    as [(pre & l & post & [s3 b3] & Hrange & Hms & Hp & Hhit)|[Hms ->]].
  - destruct (misses_spec _ _ _ _ _ _ _ Hm Hms) as (Hm3 & Hc3 & Hsame3 & Hall).
    destruct (pop_level_spec _ _ _ _ _ _ _ _ Hm3 Hp) as (Hm2 & Hc2 & name & Hn & Hw).
    destruct r as [x|]; [|done]. destruct Hw as [Hperm Hother].
    rewrite (bucket_name_config _ s) in Hn by done.
    apply seqZ_split in Hrange as [Hl ->]. split; [|done].
    exists l, name. split; [done|]. split; [done|].
    rewrite Hsame3, Hsame1 in Hperm. split; [|split; [done|]].
    + intros l' Hl' n' Hn'. rewrite Forall_forall in Hall. rewrite <- Hsame1.
      apply (Hall l'); [apply elem_of_seqZ; lia|done].
    + intros n Hne. rewrite Hother, Hsame3 by done. apply Hsame1.
  - destruct (misses_spec _ _ _ _ _ _ _ Hm Hms) as (Hm3 & Hc3 & Hsame3 & Hall).
    split; [|done]. split; [|intros n; by rewrite Hsame3].
    rewrite range_empty in Hall. intros l Hl n Hn. rewrite <- Hsame1. by eapply Hall.
Qed.

(** However long the caller was willing to wait, a pop that returns None has
    just seen every bucket empty: the re-scan after the blocking wait leaves
    no lower-priority item behind. *)
Theorem pop_none_drained q timeout s b s' b'
    (Hm : memo_ok blake2s_hex s)
    (Hpop : pop blake2s_hex q timeout (s, b) = (Ok None, (s', b'))) :
  forall l, 0 <= l < levels s -> level_empty blake2s_hex s q b' l.
Proof.
  unfold pop in Hpop. apply bind_ok_inv in Hpop as (t & st0 & Ht & Hpop).
  apply lift_ok in Ht as [_ ->]. apply bind_ok_inv in Hpop as (i & st1 & Hg & Hpop).
  apply on_snd_ok in Hg as (b1 & Hg & ->).
  apply bind_ok_inv in Hpop as (s0 & st2 & Hs & Hpop). injection Hs as <- <-.
  apply bind_ok_inv in Hpop as (r1 & [s2 b2] & Hscan & Hr).
  assert (Hfinal : forall s1 b1, memo_ok blake2s_hex s1 -> same_config s s1 ->
    scan_first (pop_level blake2s_hex q fzero) (fun r => bool_decide (is_Some r)) None
      (range s) (s1, b1) = (Ok None, (s', b')) ->
    forall l, 0 <= l < levels s -> level_empty blake2s_hex s q b' l).
  { intros sx bx Hmx Hcx Hscan'.
    apply scan_first_ok in Hscan' as [(pre & l & post & [s3 b3] & _ & _ & _ & Hhit)|[Hms _]];
      [done|].
    destruct (misses_spec _ _ _ _ _ _ _ Hmx Hms) as (_ & _ & Hsame & Hall).
    intros l Hl n Hn. rewrite Hsame. rewrite Forall_forall in Hall.
    apply (Hall l); [apply elem_of_seqZ; lia|]. by rewrite (bucket_name_config _ s). }
  destruct r1 as [x|]; [done|].
  destruct (fltb fzero t).
  2: { injection Hr as -> ->. by apply (Hfinal s b1). }
  apply bind_ok_inv in Hr as (r0 & [s3 b3] & Hp & Hr). destruct r0; [done|].
  assert (Hm2 : memo_ok blake2s_hex s2 /\ same_config s s2).
  { apply scan_first_ok in Hscan as [(pre & l & post & [? ?] & _ & _ & _ & Hhit)|[Hms _]];
      [done|]. by destruct (misses_spec _ _ _ _ _ _ _ Hm Hms) as (? & ? & _). }
  unfold pop_level in Hp. apply bind_ok_inv in Hp as (name & st3 & H1 & H2).
  apply on_fst_ok in H1 as (s4 & H1 & ->). apply on_snd_ok in H2 as (b4 & H2 & [= -> ->]).
  destruct (bucket_queue_spec _ _ _ _ _ _ (proj1 Hm2) H1) as (_ & Hm4 & Hc4).
  eapply (Hfinal s4 b4); [done| |done]. eapply same_config_trans; [apply Hm2|done].
Qed.

(** A push stores the item in the bucket of its priority and nowhere else; an
    invalid priority is rejected before the backend is resolved. *)
Theorem push_routes q item p s b o s' b'
    (Hm : memo_ok blake2s_hex s)
    (Hpush : push blake2s_hex q item p (s, b) = (o, (s', b'))) :
  match level_for (levels s) p with
  | Raise e => o = Raise e /\ s' = s /\ b' = b
  | Ok l => forall u, o = Ok u -> exists name, bucket_name blake2s_hex s q l = Ok name
      /\ Permutation (waiting b' name) (item :: waiting b name)
      /\ (forall n, n <> name -> waiting b' n = waiting b n)
  end.
Proof.
  revert Hpush. unfold push, bind at 1, on_fst at 1, get. unfold bind at 1, lift at 1.
  destruct (level_for (levels s) p) as [l|e]; [|by intros [= <- <- <-]].
  intros Hk [] ->. apply bind_ok_inv in Hk as (i & st1 & Hg & Hk).
  apply on_snd_ok in Hg as (b1 & Hg & ->).
  apply bind_ok_inv in Hk as (name & st2 & H1 & H2).
  apply on_fst_ok in H1 as (s2 & H1 & ->). apply on_snd_ok in H2 as (b2 & H2 & [= -> ->]).
  destruct (bucket_queue_spec _ _ _ _ _ _ Hm H1) as (Hn & _ & _).
  destruct (qb_push_ok _ _ _ _ _ H2) as [Hp Ho].
  exists name. split; [done|]. rewrite (get_queue_backend_ok _ _ _ Hg) in Hp.
  split; [done|]. intros n Hne. rewrite Ho by done. eapply get_queue_backend_ok; eauto.
Qed.

(** Over a backend without message tokens the acknowledging pop is the plain
    pop: same item, same effects, no token. *)
Theorem pop_with_ack_is_pop q timeout st
    (Hov : qb_pop_with_ack_override (B := B) = None) :
  pop_with_ack blake2s_hex q timeout st
  = map_result (fun r => (r, None)) (pop blake2s_hex q timeout st).
Proof.
  assert (Hlev : forall i t l st, pop_level_with_ack blake2s_hex i q t l st
            = map_result (fun r => (r, None)) (pop_level blake2s_hex q t l st)).
  { intros i t l [s b]. unfold pop_level_with_ack, pop_level, bind, on_fst, on_snd,
      pop_backend_instance_with_ack, ret. rewrite Hov.
    destruct (bucket_queue blake2s_hex q l s) as [[name|e] s1]; [|done]. cbn.
    unfold bind. by destruct (qb_pop name t b) as [[|] ?]. }
  unfold pop_with_ack, pop. unfold bind at 1. symmetry. unfold bind at 1. symmetry.
  destruct (lift _ st) as [[t|e] st1]; [|done].
  unfold bind at 1. symmetry. unfold bind at 1. symmetry.
  destruct (on_snd get_queue_backend st1) as [[i|e] st2]; [|done].
  unfold bind at 1. symmetry. unfold bind at 1. symmetry.
  destruct (on_fst get st2) as [[s|e] st3]; [|done].
  unfold bind at 1. symmetry. unfold bind at 1. symmetry.
  assert (Hscan : forall st, scan_first (pop_level_with_ack blake2s_hex i q fzero) delivered
             (None, None) (range s) st
           = map_result (fun r => (r, None)) (scan_first (pop_level blake2s_hex q fzero)
               (fun r => bool_decide (is_Some r)) None (range s) st)).
  { intros st'. apply (scan_first_map (fun r => (r, None))); [auto|].
    intros r. unfold delivered. cbn. by rewrite orb_false_r. }
  rewrite Hscan. unfold map_result at 1.
  destruct (scan_first _ _ _ _ st3) as [[[x|]|e] st4]; cbn [omap fst snd]; [done| |done].
  replace (delivered (None, None)) with false by done.
  destruct (fltb fzero t); [|done].
  unfold bind. rewrite Hlev. unfold map_result at 1.
  destruct (pop_level _ _ _ _ _) as [[[y|]|e] st5]; cbn [omap fst snd]; [done| |done].
  apply Hscan.
Qed.
End Theorems.

(** ** Concrete runs *)
Module Examples.
Definition hex (_ : bytes) : string := "00112233445566778899aabbccddeeff".
Definition s0 : self := Self 3 ∅ LEGACY_FANOUT_NAME_GENERATION (Some "redis"%string) false.
Definition b0 : MemQueue.state := {["q:p1"%string := [[x61]; [x62]]]}.
Definition b1 : MemQueue.state := {["q:p1"%string := [[x62]]]}.
Definition s1 : self := snd (bucket_queue hex "q" 1 (snd (bucket_queue hex "q" 0 s0))).
Definition s2 : self := snd (bucket_queue hex "q" 2 s1).
#[local] Instance backend : QueueBackend MemQueue.state := MemQueue.backend false.
#[local] Instance laws : QueueBackendLaws MemQueue.state := MemQueue.laws false.

Lemma memo_ok_s0 : memo_ok hex s0.
Proof. intros q l n. cbn. by rewrite lookup_empty. Qed.

Lemma level_for_range_monotone_witness :
  1 <= 3 <= MAX_PRIORITY_LEVELS /\ level_for 3 (AInt 0) = Ok 1.
Proof.
  assert (H : 1 <= 3 <= MAX_PRIORITY_LEVELS) by (unfold MAX_PRIORITY_LEVELS; lia).
  split; [exact H|]. exact (proj2 (proj2 (level_for_range_monotone 3 H))).
Defined.

Lemma pop_first_nonempty_witness :
  pop hex "q" (AInt 0) (s0, b0) = (Ok (Some [x61]), (s1, b1)) /\
  exists l name, 0 <= l < levels s0 /\ bucket_name hex s0 "q" l = Ok name /\
    Permutation (MemQueue.items b0 name) ([x61] :: MemQueue.items b1 name).
Proof.
  assert (E : pop hex "q" (AInt 0) (s0, b0) = (Ok (Some [x61]), (s1, b1)))
    by (vm_compute; reflexivity).
  split; [exact E|].
  destruct (pop_first_nonempty hex "q" s0 b0 _ s1 b1 memo_ok_s0 E) as [(l & n & Hl & Hn & _ & Hp & _) _].
  exists l, n. split; [exact Hl|]. split; [exact Hn|exact Hp].
Defined.

Lemma pop_none_drained_witness :
  forall l, 0 <= l < 3 -> level_empty hex s0 "q" (∅ : MemQueue.state) l.
Proof.
  assert (E : pop hex "q" (AInt 2) (s0, ∅ : MemQueue.state) = (Ok None, (s2, ∅)))
    by (vm_compute; reflexivity).
  exact (pop_none_drained hex "q" (AInt 2) s0 ∅ s2 ∅ memo_ok_s0 E).
Defined.

Lemma push_routes_witness :
  forall u, Ok tt = Ok u -> exists name, bucket_name hex s0 "q" 1 = Ok name
      /\ Permutation (MemQueue.items b1 name) ([x62] :: MemQueue.items ∅ name)
      /\ (forall n, n <> name -> MemQueue.items b1 n = MemQueue.items ∅ n).
Proof.
  assert (E : push hex "q" [x62] (AInt 0) (s0, ∅ : MemQueue.state)
              = (Ok tt, (snd (bucket_queue hex "q" 1 s0), b1))) by (vm_compute; reflexivity).
  exact (push_routes hex "q" [x62] (AInt 0) s0 ∅ (Ok tt) _ b1 memo_ok_s0 E).
Defined.

Lemma pop_with_ack_is_pop_witness :
  pop_with_ack hex "q" (AInt 0) (s0, b0)
  = map_result (fun r => (r, None)) (pop hex "q" (AInt 0) (s0, b0)).
Proof. exact (pop_with_ack_is_pop hex "q" (AInt 0) (s0, b0) eq_refl). Defined.
End Examples.
End Priority.
