(* ===== verification/RingBuffer.v ===== *)
(** * The ring-buffer strategy

    queue/strategies/ring_buffer.py: a bounded in-process FIFO with three
    overflow policies, a lifecycle whose generation fences pushers that blocked
    in an earlier one, and a snapshot.  Blocked pushers are explicit: the first
    critical section of [push] either finishes or leaves a residual pusher
    that a later wake-up resumes, in any order and any number of times. *)

From S2P Require Export Json StrategyBase.

Module RingBuffer.
Definition DEFAULT_RING_BUFFER_CAPACITY : Z := 1024.
Definition DEFAULT_RING_BUFFER_FULL_POLICY : string := "reject".

Inductive policy := reject | drop_oldest | block.
#[export] Instance policy_eq_dec : EqDecision policy.
Proof. solve_decision. Defined.

Definition policy_of_string (s : string) : option policy :=
  if bool_decide (s = "reject"%string) then Some reject
  else if bool_decide (s = "drop_oldest"%string) then Some drop_oldest
  else if bool_decide (s = "block"%string) then Some block
  else None.

Record self := Self {
  capacity : Z;
  full_policy : policy;
  buffer : list bytes;
  dropped : Z;
  closed : bool;
  generation : Z;
  bound : option string
}.

Definition with_bound (s : self) b :=
  Self (capacity s) (full_policy s) (buffer s) (dropped s) (closed s) (generation s) b.
Definition with_buffer (s : self) buf d :=
  Self (capacity s) (full_policy s) buf d (closed s) (generation s) (bound s).
Definition with_lifecycle (s : self) c g :=
  Self (capacity s) (full_policy s) (buffer s) (dropped s) c g (bound s).

Definition len (s : self) : Z := Z.of_nat (length (buffer s)).

(** [__init__]. *)
Definition init (cap : pyarg) (policy : string) : outcome self :=
  match cap with
  | AInt c =>
      if 1 <=? c then
        match policy_of_string policy with
        | Some p => Ok (Self c p [] 0 false 0 None)
        | None => Raise EValue
        end
      else Raise EValue
  | _ => Raise EValue
  end.

(** [bind]. *)
Definition bind_queue (queue_name : string) : M self unit := fun s =>
  let '(o, b) := bind_single_queue queue_name (bound s) in (o, with_bound s b).

Definition is_push_durable : bool := false.

(** One pass through the loop of [push] for a pusher that entered under
    generation [g]: [true] when the item was admitted, [false] when the pusher
    has to wait on [_not_full]. *)
Definition push_attempt (reactor : bool) (g : Z) (item : bytes) : M self bool := fun s =>
  if closed s || negb (g =? generation s) then (Raise (EQueue "push"), s)
  else if len s <? capacity s then (Ok true, with_buffer s (buffer s ++ [item]) (dropped s))
  else match full_policy s with
       | reject => (Raise (EQueue "push"), s)
       | drop_oldest =>
           match buffer s with
           | [] => (Raise (EPlugin 0), s) (* popleft on an empty deque; excluded by capacity >= 1 *)
           | _ :: rest => (Ok true, with_buffer s (rest ++ [item]) (dropped s + 1))
           end
       | block => if reactor then (Raise (EQueue "push"), s) else (Ok false, s)
       end.

(** [push] up to its first wait: None when it returned, the residual pusher
    otherwise. *)
Definition push (reactor : bool) (queue_name : string) (item : bytes)
    : M self (option (Z * bytes)) :=
  let! _ := bind_queue queue_name in
  let! s := get in
  let! done := push_attempt reactor (generation s) item in
  ret (if done : bool then None else Some (generation s, item)).

(** The prepared push of the base class on this strategy, for policies that do
    not block. *)
Definition prepare_push (reactor : bool) (queue_name : string) : prepared_push self :=
  local_prepared (fun item => let! _ := push reactor queue_name item in ret tt).

(** [pop]. *)
Definition pop (queue_name : string) (timeout : pyarg) : M self (option bytes) :=
  let! _ := lift (normalize_queue_timeout timeout) in
  let! _ := bind_queue queue_name in
  fun s => match buffer s with
           | [] => (Ok None, s)
           | item :: rest => (Ok (Some item), with_buffer s rest (dropped s))
           end.

(** [queue_len]. *)
Definition queue_len (queue_name : string) : M self Z :=
  let! _ := bind_queue queue_name in let! s := get in ret (len s).

(** [clear]. *)
Definition clear (queue_name : string) : M self unit :=
  let! _ := bind_queue queue_name in modify (fun s => with_buffer s [] (dropped s)).

(** [open], [begin_close], [close]. *)
Definition open : M self unit :=
  modify (fun s => if closed s then with_lifecycle s false (generation s + 1) else s).
Definition begin_close : M self unit := modify (fun s => with_lifecycle s true (generation s)).
Definition close : M self unit := begin_close.

Section Snapshot.
Context `{JsonText}.

Definition snapshot_tree (s : self) : json :=
  JObj [("version", JInt 1); ("strategy", JStr "ring_buffer");
        ("capacity", JInt (capacity s));
        ("items", JList (map b64_json (buffer s)));
        ("dropped", JInt (dropped s))]%string.

(** [snapshot]. *)
Definition snapshot (s : self) : option bytes :=
  if bool_decide (buffer s = []) && (dropped s =? 0) then None
  else Some (json_dumps (snapshot_tree s)).

(** The validation part of [restore]. *)
Definition decode_snapshot (cap : Z) (data : json) : outcome (list bytes * Z) :=
  match data with
  | JObj o =>
      if snapshot_header "ring_buffer" o then
        match assoc_get "items" o with
        | Some (JList entries) =>
            obind (mapM_o b64_of_json entries) (fun decoded =>
            obind (match assoc_get "dropped" o with
                   | None => Ok 0
                   | Some (JInt n) => if n <? 0 then Raise EValue else Ok n
                   | Some _ => Raise EValue
                   end) (fun snapshot_dropped =>
            let n := Z.of_nat (length decoded) in
            Ok (if cap <? n then drop (Z.to_nat (n - cap)) decoded else decoded,
                snapshot_dropped)))
        | _ => Raise EValue
        end
      else Raise EValue
  | _ => Raise EValue
  end.

(** [restore]. *)
Definition restore (state : option bytes) : M self unit := fun s =>
  match state with
  | None => (Ok tt, s)
  | Some b =>
      match restore_guard (obind (json_loads b) (decode_snapshot (capacity s))) with
      | Ok (decoded, d) => (Ok tt, with_buffer s decoded d)
      | Raise e => (Raise e, s)
      end
  end.
End Snapshot.

(** ** Interleaved operation

    Every critical section runs under the one lock, so the operations of any
    number of threads are a sequence of events.  [w_blocked] are the pushers
    waiting on [_not_full]; a wake-up (by [pop], [clear], [begin_close],
    [restore] or a spurious one) is [EvResume i].  [w_in] lists the admitted
    items and [w_out] the popped ones, oldest first; [w_cleared] counts the
    items [clear] discarded. *)
Inductive event :=
  | EvPush (reactor : bool) (queue_name : string) (item : bytes)
  | EvResume (i : nat)
  | EvPop (queue_name : string)
  | EvClear (queue_name : string)
  | EvBeginClose
  | EvOpen.

Record world := World {
  w_self : self;
  w_blocked : list (Z * bytes);
  w_in : list bytes;
  w_out : list bytes;
  w_cleared : Z
}.

Definition step (ev : event) (w : world) : world :=
  let s := w_self w in
  match ev with
  | EvPush reactor q item =>
      match push reactor q item s with
      | (Ok None, s') => World s' (w_blocked w) (w_in w ++ [item]) (w_out w) (w_cleared w)
      | (Ok (Some p), s') => World s' (p :: w_blocked w) (w_in w) (w_out w) (w_cleared w)
      | (Raise _, s') => World s' (w_blocked w) (w_in w) (w_out w) (w_cleared w)
      end
  | EvResume i =>
      match w_blocked w !! i with
      | None => w
      | Some (g, item) =>
          match push_attempt false g item s with
          | (Ok true, s') => World s' (delete i (w_blocked w)) (w_in w ++ [item]) (w_out w) (w_cleared w)
          | (Ok false, s') => World s' (w_blocked w) (w_in w) (w_out w) (w_cleared w)
          | (Raise _, s') => World s' (delete i (w_blocked w)) (w_in w) (w_out w) (w_cleared w)
          end
      end
  | EvPop q =>
      match pop q (AInt 0) s with
      | (Ok (Some x), s') => World s' (w_blocked w) (w_in w) (w_out w ++ [x]) (w_cleared w)
      | (_, s') => World s' (w_blocked w) (w_in w) (w_out w) (w_cleared w)
      end
  | EvClear q =>
      match clear q s with
      | (Ok _, s') => World s' (w_blocked w) (w_in w) (w_out w) (w_cleared w + len s)
      | (Raise _, s') => World s' (w_blocked w) (w_in w) (w_out w) (w_cleared w)
      end
  | EvBeginClose => World (snd (begin_close s)) (w_blocked w) (w_in w) (w_out w) (w_cleared w)
  | EvOpen => World (snd (open s)) (w_blocked w) (w_in w) (w_out w) (w_cleared w)
  end.

Fixpoint run (evs : list event) (w : world) : world :=
  match evs with [] => w | ev :: evs' => run evs' (step ev w) end.

Definition start (s : self) : world := World s [] [] [] 0.

(** ** Lemmas *)

(** What one pass of the push loop can do. *)
Variant attempt_result (g : Z) (item : bytes) (s : self) : outcome bool * self -> Prop :=
  | attempt_rejected e : attempt_result g item s (Raise e, s)
  | attempt_waits : attempt_result g item s (Ok false, s)
  | attempt_appended : closed s = false -> g = generation s -> len s < capacity s ->
      attempt_result g item s (Ok true, with_buffer s (buffer s ++ [item]) (dropped s))
  | attempt_replaced x rest : closed s = false -> g = generation s ->
      full_policy s = drop_oldest -> buffer s = x :: rest ->
      attempt_result g item s (Ok true, with_buffer s (rest ++ [item]) (dropped s + 1)).

Lemma push_attempt_spec reactor g item s :
  attempt_result g item s (push_attempt reactor g item s).
Proof.
  unfold push_attempt. destruct (closed s) eqn:Hc; [constructor|]. cbn [orb].
  destruct (Z.eqb_spec g (generation s)) as [Hg|]; [|constructor]. cbn [negb].
  destruct (Z.ltb_spec (len s) (capacity s)); [by constructor|].
  destruct (full_policy s) eqn:Hp; [constructor| |destruct reactor; constructor].
  destruct (buffer s) eqn:Hb; [constructor|by econstructor].
Qed.

Lemma bind_queue_inv q s o s' :
  bind_queue q s = (o, s') -> exists b, s' = with_bound s b.
Proof.
  unfold bind_queue. destruct (bind_single_queue q (bound s)) as [o1 b]. intros [= _ <-]. eauto.
Qed.

(** The part of the state the accounting is about. *)
Definition core (s : self) := (capacity s, full_policy s, buffer s, dropped s).

Definition ledger (s : self) (ins outs : list bytes) (cleared : Z) : Prop :=
  len s <= capacity s /\ 0 <= dropped s /\ (full_policy s <> drop_oldest -> dropped s = 0) /\
  exists removed, ins = removed ++ buffer s /\ outs `sublist_of` removed /\
    Z.of_nat (length removed) = Z.of_nat (length outs) + dropped s + cleared.

Definition ledger_ok (w : world) : Prop := ledger (w_self w) (w_in w) (w_out w) (w_cleared w).

Lemma ledger_core s s' ins outs c : core s' = core s -> ledger s ins outs c -> ledger s' ins outs c.
Proof. unfold core, ledger, len. intros [= -> -> -> ->]. done. Qed.

Lemma ledger_attempt g item s ins outs c r s' :
  attempt_result g item s (r, s') -> ledger s ins outs c ->
  ledger s' (match r with Ok true => ins ++ [item] | _ => ins end) outs c.
Proof.
  intros Ha Hl. pose proof Hl as (Hlen & Hd & Hp & removed & -> & Hsub & Hcount).
  inversion Ha as [e| |Hc Hg Hlt|x rest Hc Hg Hpol Hbuf]; subst; [done|done| |].
  - unfold ledger, len in *. cbn. rewrite length_app. cbn. split; [lia|]. do 2 (split; [done|]).
    exists removed. by rewrite <- app_assoc.
  - unfold ledger, len in *. cbn. rewrite Hbuf in *. cbn in Hlen.
    rewrite length_app. cbn. split; [lia|]. split; [lia|]. split; [done|].
    exists (removed ++ [x]). rewrite <- !app_assoc. split; [done|]. split.
    + by apply sublist_inserts_r.
    + rewrite length_app. cbn. lia.
Qed.

Lemma ledger_pop s ins outs c x rest :
  buffer s = x :: rest -> ledger s ins outs c ->
  ledger (with_buffer s rest (dropped s)) ins (outs ++ [x]) c.
Proof.
  intros Hb (Hlen & Hd & Hp & removed & -> & Hsub & Hcount). unfold ledger, len in *.
  rewrite Hb in *. cbn in *. split; [lia|]. do 2 (split; [done|]).
  exists (removed ++ [x]). rewrite <- app_assoc. split; [done|]. split.
  - by apply sublist_app.
  - rewrite !length_app. cbn. lia.
Qed.

Lemma ledger_clear s ins outs c :
  ledger s ins outs c -> ledger (with_buffer s [] (dropped s)) ins outs (c + len s).
Proof.
  intros (Hlen & Hd & Hp & removed & -> & Hsub & Hcount). unfold ledger, len in *. cbn.
  split; [lia|]. do 2 (split; [done|]). exists (removed ++ buffer s).
  rewrite app_nil_r. split; [done|]. split; [by apply sublist_inserts_r|].
  rewrite length_app. lia.
Qed.

Lemma ledger_step ev w : ledger_ok w -> ledger_ok (step ev w).
Proof.
  unfold ledger_ok. intros Hl.
  destruct ev as [reactor q item|i|q|q| |]; cbn [step].
  - unfold push, bind, get, ret.
    destruct (bind_queue q (w_self w)) as [o s1] eqn:Hb.
    apply bind_queue_inv in Hb as Hb'. destruct Hb' as [b ->].
    apply (ledger_core _ (with_bound (w_self w) b)) in Hl; [|done].
    destruct o as [[]|e]; [|done].
    pose proof (push_attempt_spec reactor (generation (with_bound (w_self w) b)) item
                  (with_bound (w_self w) b)) as Ha.
    destruct (push_attempt _ _ _ _) as [[[|]|e] s2]; by apply (ledger_attempt _ _ _ _ _ _ _ _ Ha) in Hl.
  - destruct (w_blocked w !! i) as [[g item]|]; [|done].
    pose proof (push_attempt_spec false g item (w_self w)) as Ha.
    destruct (push_attempt _ _ _ _) as [[[|]|e] s2]; by apply (ledger_attempt _ _ _ _ _ _ _ _ Ha) in Hl.
  - unfold pop, bind, lift. cbn [normalize_queue_timeout normalize_pop_timeout].
    change (normalize_queue_timeout (AInt 0)) with (Ok (A := float) fzero). cbv iota beta.
    destruct (bind_queue q (w_self w)) as [o s1] eqn:Hb.
    apply bind_queue_inv in Hb as Hb'. destruct Hb' as [b ->].
    apply (ledger_core _ (with_bound (w_self w) b)) in Hl; [|done].
    destruct o as [[]|e]; [|done].
    destruct (buffer (with_bound (w_self w) b)) as [|x rest] eqn:Hbuf; [done|].
    by apply ledger_pop.
  - unfold clear, bind, modify.
    destruct (bind_queue q (w_self w)) as [o s1] eqn:Hb.
    apply bind_queue_inv in Hb as Hb'. destruct Hb' as [b ->].
    apply (ledger_core _ (with_bound (w_self w) b)) in Hl; [|done].
    destruct o as [[]|e]; [|done]. by apply ledger_clear in Hl.
  - by eapply ledger_core.
  - eapply ledger_core; [|exact Hl]. unfold open, modify. cbn. by destruct (closed _).
Qed.

Lemma ledger_run evs w : ledger_ok w -> ledger_ok (run evs w).
Proof. revert w. induction evs; intros w Hw; [done|]. apply IHevs, ledger_step, Hw. Qed.

Lemma ledger_init cap policy s : init cap policy = Ok s -> ledger_ok (start s).
Proof.
  unfold init. destruct cap as [|c| |]; try done.
  destruct (Z.leb_spec 1 c); [|done]. destruct (policy_of_string policy); [|done].
  intros [= <-]. unfold ledger_ok, ledger, len. cbn. split; [lia|]. split; [lia|]. split; [done|].
  exists []. by split.
Qed.

(** Generations only grow, and a fenced pusher stays fenced. *)
Definition fenced (g : Z) (s : self) : Prop :=
  (closed s = true /\ g <= generation s) \/ g < generation s.

Lemma fenced_step g ev w : fenced g (w_self w) -> fenced g (w_self (step ev w)).
Proof.
  intros Hf.
  assert (Hext : forall s', (closed s', generation s') = (closed (w_self w), generation (w_self w))
            -> fenced g s').
  { intros s' [= E1 E2]. unfold fenced. by rewrite E1, E2. }
  assert (Hatt : forall g' item r s s', attempt_result g' item s (r, s') ->
            (closed s', generation s') = (closed s, generation s)).
  { intros g' item r s s' Ha. by inversion Ha. }
  destruct ev as [reactor q item|i|q|q| |]; cbn [step].
  - unfold push, bind, get, ret.
    destruct (bind_queue q (w_self w)) as [o s1] eqn:Hb.
    apply bind_queue_inv in Hb as [b ->]. destruct o as [[]|e]; [|by apply Hext].
    pose proof (push_attempt_spec reactor (generation (with_bound (w_self w) b)) item
                  (with_bound (w_self w) b)) as Ha.
    destruct (push_attempt _ _ _ _) as [[[|]|e] s2]; apply Hext, (Hatt _ _ _ _ _ Ha).
  - destruct (w_blocked w !! i) as [[g' item]|]; [|done].
    pose proof (push_attempt_spec false g' item (w_self w)) as Ha.
    destruct (push_attempt _ _ _ _) as [[[|]|e] s2]; apply Hext, (Hatt _ _ _ _ _ Ha).
  - unfold pop, bind, lift.
    change (normalize_queue_timeout (AInt 0)) with (Ok (A := float) fzero). cbv iota beta.
    destruct (bind_queue q (w_self w)) as [o s1] eqn:Hb.
    apply bind_queue_inv in Hb as [b ->]. destruct o as [[]|e]; [|by apply Hext].
    destruct (buffer (with_bound (w_self w) b)); by apply Hext.
  - unfold clear, bind, modify. destruct (bind_queue q (w_self w)) as [o s1] eqn:Hb.
    apply bind_queue_inv in Hb as [b ->]. destruct o as [[]|e]; by apply Hext.
  - left. cbn. destruct Hf as [[_ ?]|?]; (split; [done|lia]).
  - unfold open, modify. cbn. destruct (closed (w_self w)) eqn:Hc; [|done].
    right. cbn. destruct Hf as [[_ ?]|?]; lia.
Qed.

Lemma fenced_run g evs w : fenced g (w_self w) -> fenced g (w_self (run evs w)).
Proof. revert w. induction evs; intros w Hw; [done|]. by apply IHevs, fenced_step. Qed.

(** ** Properties *)

(** Bounded FIFO with exact loss accounting, under every interleaving of
    pushes (blocked ones included), pops, clears and lifecycle changes: the
    buffer never exceeds its capacity; the admitted items are, in admission
    order, the removed ones followed by the buffered ones; the popped items are
    a subsequence of the removed ones and the others are exactly the counted
    drops and the cleared items; without the drop_oldest policy nothing is
    ever dropped. *)
Theorem fifo_accounting cap policy s evs
    (Hinit : init cap policy = Ok s) :
  let w := run evs (start s) in
  len (w_self w) <= capacity (w_self w) /\
  (full_policy (w_self w) <> drop_oldest -> dropped (w_self w) = 0) /\
  exists removed, w_in w = removed ++ buffer (w_self w) /\ w_out w `sublist_of` removed /\
    Z.of_nat (length removed)
    = Z.of_nat (length (w_out w)) + dropped (w_self w) + w_cleared w.
Proof.
  intros w. pose proof (ledger_run evs _ (ledger_init _ _ _ Hinit)) as (H1 & H2 & H3 & H4).
  done.
Qed.

(** A pusher that was waiting when the strategy closed is never admitted, even
    after [open] started a new lifecycle: every later attempt raises QueueError
    and leaves the buffer alone. *)
Theorem stale_pusher_rejected w i g item evs reactor
    (Hblocked : w_blocked w !! i = Some (g, item))
    (Hg : g <= generation (w_self w)) :
  let s := w_self (run (EvBeginClose :: evs) w) in
  push_attempt reactor g item s = (Raise (EQueue "push"), s).
Proof.
  intros s. assert (Hf : fenced g s).
  { apply (fenced_run g evs). left. split; [done|exact Hg]. }
  unfold push_attempt. destruct Hf as [[-> _]|Hlt]; [done|].
  destruct (Z.eqb_spec g (generation s)); [lia|]. by rewrite orb_true_r.
Qed.

Section SnapshotTheorems.
Context `{JsonTextLaws}.

Lemma decode_snapshot_tree s cap :
  0 <= dropped s ->
  decode_snapshot cap (snapshot_tree s)
  = Ok (if cap <? len s then drop (Z.to_nat (len s - cap)) (buffer s) else buffer s, dropped s).
Proof.
  intros Hd. unfold decode_snapshot, snapshot_tree.
  replace (snapshot_header _ _) with true by done.
  change (assoc_get "items" _) with (Some (JList (map b64_json (buffer s)))). cbv iota beta.
  rewrite b64_list_roundtrip. cbn [obind].
  change (assoc_get "dropped" _) with (Some (JInt (dropped s))). cbv iota beta.
  by destruct (Z.ltb_spec (dropped s) 0); [lia|].
Qed.

Lemma ring_tree_wf s :
  Z.abs (capacity s) < 10 ^ max_str_digits -> Z.abs (dropped s) < 10 ^ max_str_digits ->
  json_wf (snapshot_tree s).
Proof.
  intros Hc Hd. apply json_wf_obj. split; [apply (bool_decide_unpack _); by vm_compute|].
  unfold snapshot_tree. repeat (constructor; [try done|]); cbn [snd]; try done.
  apply json_wf_b64_list.
Qed.

(** Restart round trip: a snapshot restored into a fresh buffer reproduces the
    newest [capacity] items in order and the drop counter (all items when the
    capacity is unchanged); no snapshot is written exactly when there is
    nothing to recover; and a rejected snapshot changes nothing. *)
Theorem buffer_snapshot_restore s s0
    (Hlen : len s <= capacity s) (Hd : 0 <= dropped s)
    (Hcap : Z.abs (capacity s) < 10 ^ max_str_digits)
    (Hdrop : Z.abs (dropped s) < 10 ^ max_str_digits)
    (Hcap0 : 1 <= capacity s0) :
  match snapshot s with
  | None => buffer s = [] /\ dropped s = 0
  | Some b => exists restored,
      restore (Some b) s0 = (Ok tt, with_buffer s0 restored (dropped s)) /\
      restored `suffix_of` buffer s /\
      Z.of_nat (length restored) = Z.min (len s) (capacity s0)
  end /\
  (forall b e s', restore b s0 = (Raise e, s') -> s' = s0).
Proof.
  split.
  - unfold snapshot. case_bool_decide as Hb; cbn [andb].
    + destruct (Z.eqb_spec (dropped s) 0) as [|Hne]; [done|].
      unfold restore. rewrite json_loads_dumps by by apply ring_tree_wf.
      cbn [obind]. rewrite decode_snapshot_tree by done. cbn [restore_guard].
      eexists. split; [reflexivity|]. unfold len. rewrite Hb. cbn [length Z.of_nat].
      destruct (Z.ltb_spec (capacity s0) (Z.of_nat 0)); [lia|]. split; [reflexivity|]. cbn. lia.
    + unfold restore. rewrite json_loads_dumps by by apply ring_tree_wf.
      cbn [obind]. rewrite decode_snapshot_tree by done. cbn [restore_guard].
      eexists. split; [reflexivity|]. unfold len in *.
      destruct (Z.ltb_spec (capacity s0) (Z.of_nat (length (buffer s)))).
      * split; [apply suffix_drop|]. rewrite length_drop. lia.
      * split; [reflexivity|]. lia.
  - intros [b|] e s'; [|done]. unfold restore. cbv zeta.
    destruct (restore_guard _) as [[decoded d]|e']; by intros [=].
Qed.
End SnapshotTheorems.

Module Examples.
Definition s0 : self := Self 2 drop_oldest [] 0 false 0 None.
Definition evs : list event :=
  [EvPush false "q" [x61]; EvPush false "q" [x62]; EvPush false "q" [x63]; EvPop "q"].

Example run_drops_oldest :
  let w := run evs (start s0) in
  (w_out w, buffer (w_self w), dropped (w_self w)) = ([[x62]], [[x63]], 1).
Proof. reflexivity. Qed.

Lemma fifo_accounting_witness :
  init (AInt 2) "drop_oldest" = Ok s0 /\ len (w_self (run evs (start s0))) <= 2.
Proof.
  assert (E : init (AInt 2) "drop_oldest" = Ok s0) by reflexivity.
  split; [exact E|]. exact (proj1 (fifo_accounting (AInt 2) "drop_oldest" s0 evs E)).
Defined.

(** A pusher blocks on the full buffer, the strategy is closed and re-opened. *)
Definition wb : world :=
  run [EvPush false "q" [x61]; EvPush false "q" [x62]] (start (Self 1 block [] 0 false 0 None)).

Lemma stale_pusher_rejected_witness :
  let s := w_self (run [EvBeginClose; EvOpen; EvPop "q"] wb) in
  closed s = false /\ buffer s = [] /\
  push_attempt false 0 [x62] s = (Raise (EQueue "push"), s).
Proof.
  intros s. split; [reflexivity|]. split; [reflexivity|].
  refine (stale_pusher_rejected wb 0%nat 0 [x62] [EvOpen; EvPop "q"] false _ _).
  - reflexivity.
  - vm_compute. discriminate.
Defined.

Definition sf : self := Self 2 reject [[x61]; [x62]] 0 false 0 None.
Definition sg : self := Self 1 reject [] 0 false 0 None.
#[local] Instance text : JsonText := PlainText.text.
#[local] Instance laws : JsonTextLaws := PlainText.laws.

Lemma buffer_snapshot_restore_witness :
  match snapshot sf with
  | None => False
  | Some b => exists restored, restore (Some b) sg = (Ok tt, with_buffer sg restored 0)
      /\ Z.of_nat (length restored) = 1
  end.
Proof.
  assert (H : match snapshot sf with
              | None => buffer sf = [] /\ dropped sf = 0
              | Some b => exists restored,
                  restore (Some b) sg = (Ok tt, with_buffer sg restored (dropped sf)) /\
                  restored `suffix_of` buffer sf /\
                  Z.of_nat (length restored) = Z.min (len sf) (capacity sg)
              end).
  { refine (proj1 (buffer_snapshot_restore sf sg _ _ _ _ _)); vm_compute; congruence || done. }
  unfold snapshot in *. cbn [sf buffer dropped] in *.
  destruct (bool_decide _ && _) eqn:E; [by vm_compute in E|].
  destruct H as (r & H1 & _ & H2). exists r. split; [exact H1|exact H2].
Defined.
End Examples.
End RingBuffer.
