(* ===== verification/RoundRobin.v ===== *)
(** * The round-robin strategy

    queue/strategies/round_robin.py: an ordered dictionary of per-source
    deques whose first entry is the rotation cursor.  An ordered dictionary is
    an association list with distinct keys. *)

From S2P Require Export Json StrategyBase.

Module RoundRobin.
Record self := Self {
  sources : list (string * list bytes);
  bound : option string
}.

Definition init : self := Self [] None.
Definition with_sources (s : self) l := Self l (bound s).

Definition bind_queue (queue_name : string) : M self unit := fun s =>
  let '(o, b) := bind_single_queue queue_name (bound s) in (o, Self (sources s) b).

Definition is_push_durable : bool := false.

(** [self._sources.get(source)], insertion at the end, and the append. *)
Fixpoint append_source (source : string) (item : bytes) (l : list (string * list bytes))
    : list (string * list bytes) :=
  match l with
  | [] => [(source, [item])]
  | (k, dq) :: l' =>
      if bool_decide (k = source) then (k, dq ++ [item]) :: l'
      else (k, dq) :: append_source source item l'
  end.

(** [push]. *)
Definition push (queue_name : string) (item : bytes) (source : string) : M self unit :=
  let! _ := bind_queue queue_name in
  modify (fun s => with_sources s (append_source source item (sources s))).

(** The loop of [pop]: drained heads are deleted, a served source moves to
    the end while it still has items. *)
Fixpoint serve (l : list (string * list bytes))
    : option (string * bytes) * list (string * list bytes) :=
  match l with
  | [] => (None, [])
  | (_, []) :: l' => serve l'
  | (k, item :: dq) :: l' =>
      (Some (k, item), match dq with [] => l' | _ :: _ => l' ++ [(k, dq)] end)
  end.

(** [pop]. *)
Definition pop (queue_name : string) (timeout : pyarg) : M self (option bytes) :=
  let! _ := lift (normalize_queue_timeout timeout) in
  let! _ := bind_queue queue_name in
  fun s => let '(r, l) := serve (sources s) in (Ok (option_map snd r), with_sources s l).

(** A signal in [pop] after some of its mutations: none, [popleft], or also the
    move or deletion of the source; then the handler undoes them. *)
Inductive interrupt := BeforePopleft | AfterPopleft | AfterRotation.

Definition handler (source : string) (item : bytes) (before_length : nat) (dq : list bytes) (l : list (string * list bytes))
    : list (string * list bytes) :=
  let dq := if (length dq <? before_length)%nat then item :: dq else dq in
  (source, dq) :: filter (fun kd => fst kd <> source) l.

Fixpoint serve_interrupted (at_ : interrupt) (l : list (string * list bytes)) : list (string * list bytes) :=
  match l with
  | [] => []
  | (_, []) :: l' => serve_interrupted at_ l'
  | (k, item :: dq) :: l' =>
      let before_length := length (item :: dq) in
      match at_ with
      | BeforePopleft => handler k item before_length (item :: dq) l
      | AfterPopleft => handler k item before_length dq ((k, dq) :: l')
      | AfterRotation => handler k item before_length dq (match dq with [] => l' | _ :: _ => l' ++ [(k, dq)] end)
      end
  end.

(** [queue_len]. *)
Definition queue_len (queue_name : string) : M self Z :=
  let! _ := bind_queue queue_name in
  fun s => (Ok (fold_right (fun kd n => Z.of_nat (length (snd kd)) + n) 0 (sources s)), s).

(** [clear]. *)
Definition clear (queue_name : string) : M self unit :=
  let! _ := bind_queue queue_name in modify (fun s => with_sources s []).

Section Snapshot.
Context `{JsonText}.

Definition live (l : list (string * list bytes)) : list (string * list bytes) :=
  filter (fun kd => snd kd <> []) l.

Definition source_tree (kd : string * list bytes) : json :=
  JObj [("source", JStr (fst kd)); ("items", JList (map b64_json (snd kd)))]%string.

(** [snapshot]. *)
Definition snapshot (s : self) : option bytes :=
  match live (sources s) with
  | [] => None
  | l => Some (json_dumps (JObj [("version", JInt 1); ("strategy", JStr "round_robin");
                                 ("sources", JList (map source_tree l))]%string))
  end.

(** The loop of [restore] over the recorded sources. *)
Fixpoint decode_sources (seen : list string) (entries : list json)
    : outcome (list (string * list bytes)) :=
  match entries with
  | [] => Ok []
  | JObj o :: entries' =>
      match assoc_get "source" o, assoc_get "items" o with
      | Some (JStr source), Some (JList raw_items) =>
          if bool_decide (source ∈ seen) then Raise EValue
          else obind (mapM_o b64_of_json raw_items) (fun items =>
               obind (decode_sources (source :: seen) entries') (fun rest =>
               Ok (match items with [] => rest | _ => (source, items) :: rest end)))
      | _, _ => Raise EValue
      end
  | _ :: _ => Raise EValue
  end.

Definition decode_snapshot (data : json) : outcome (list (string * list bytes)) :=
  match data with
  | JObj o =>
      if snapshot_header "round_robin" o then
        match assoc_get "sources" o with
        | Some (JList entries) => decode_sources [] entries
        | _ => Raise EValue
        end
      else Raise EValue
  | _ => Raise EValue
  end.

(** [restore]. *)
Definition restore (state : option bytes) : M self unit := fun s =>
  match state with
  | None => (Ok tt, s)
  | Some b =>
      match restore_guard (obind (json_loads b) decode_snapshot) with
      | Ok recovered => (Ok tt, with_sources s recovered)
      | Raise e => (Raise e, s)
      end
  end.
End Snapshot.

(** ** The invariant: distinct sources, none of them drained *)
Definition wf (s : self) : Prop :=
  NoDup (map fst (sources s)) /\ Forall (fun kd => snd kd <> []) (sources s).

Definition all_items (l : list (string * list bytes)) : list bytes := concat (map snd l).

(** The pushes and pops of one queue, as events. *)
Inductive event := EvPush (source : string) (item : bytes) | EvPop.

Definition step (ev : event) (l : list (string * list bytes)) : list (string * list bytes) :=
  match ev with
  | EvPush source item => append_source source item l
  | EvPop => snd (serve l)
  end.

Fixpoint run (evs : list event) (l : list (string * list bytes)) : list (string * list bytes) :=
  match evs with [] => l | ev :: evs' => run evs' (step ev l) end.

Fixpoint pops (evs : list event) : nat :=
  match evs with [] => 0 | EvPop :: evs' => S (pops evs') | EvPush _ _ :: evs' => pops evs' end.

Fixpoint pushed (evs : list event) : list bytes :=
  match evs with
  | [] => [] | EvPop :: evs' => pushed evs' | EvPush _ x :: evs' => x :: pushed evs'
  end.

(** The same events through the strategy's operations, on queue [q]. *)
Definition op (q : string) (ev : event) (s : self) : outcome (option bytes) * self :=
  match ev with
  | EvPush source item => (let! _ := push q item source in ret None) s
  | EvPop => pop q (AInt 0) s
  end.

Fixpoint run_ops (q : string) (evs : list event) (s : self) : self :=
  match evs with [] => s | ev :: evs' => run_ops q evs' (snd (op q ev s)) end.

Fixpoint outputs (q : string) (evs : list event) (s : self) : list bytes :=
  match evs with
  | [] => []
  | ev :: evs' =>
      match fst (op q ev s) with Ok (Some x) => [x] | _ => [] end
      ++ outputs q evs' (snd (op q ev s))
  end.

(** ** Lemmas *)
Definition wf_sources (l : list (string * list bytes)) : Prop :=
  NoDup (map fst l) /\ Forall (fun kd => snd kd <> []) l.

Lemma append_source_keys src x l k :
  k ∈ map fst (append_source src x l) <-> k ∈ map fst l \/ k = src.
Proof.
  induction l as [|[k' dq] l IH]; cbn.
  - rewrite list_elem_of_singleton, elem_of_nil. tauto.
  - case_bool_decide as Hk; cbn; rewrite !elem_of_cons; [|rewrite IH]; subst; tauto.
Qed.

Lemma append_source_wf src x l : wf_sources l -> wf_sources (append_source src x l).
Proof.
  intros [Hn Ha]. induction l as [|[k dq] l IH]; cbn.
  - split; [by apply NoDup_singleton|]. by repeat constructor.
  - cbn in Hn. apply NoDup_cons in Hn as [Hk Hn]. apply Forall_cons in Ha as [Hdq Ha].
    case_bool_decide as E; subst.
    + split; [by constructor|]. constructor; [|done]. cbn. by destruct dq.
    + destruct (IH Hn Ha) as [Hn' Ha']. split; [|by constructor].
      cbn. constructor; [|done]. rewrite append_source_keys. intros [?|?]; congruence.
Qed.

Lemma serve_wf l : wf_sources l -> wf_sources (snd (serve l)).
Proof.
  intros [Hn Ha]. destruct l as [|[k [|x dq]] l]; cbn; [done| |].
  - apply Forall_cons in Ha as [Hne _]. by destruct Hne.
  - cbn in Hn. apply NoDup_cons in Hn as [Hk Hn]. apply Forall_cons in Ha as [_ Ha].
    destruct dq as [|y dq]; [done|]. split.
    + rewrite map_app. apply NoDup_app. split; [done|]. cbn.
      split; [|apply NoDup_singleton].
      intros k' Hk' ->%list_elem_of_singleton. done.
    + apply Forall_app. split; [done|]. by repeat constructor.
Qed.

(** An interrupted [pop] neither loses an item nor moves the rotation. *)
Lemma interrupted_pop_restores at_ l : wf_sources l -> serve_interrupted at_ l = l.
Proof.
  intros [Hn Hf]. destruct l as [|[k [|item dq]] l]; [done|by apply Forall_cons in Hf as [? _]|].
  cbn in Hn. apply NoDup_cons in Hn as [Hk _].
  assert (filter (fun kd => fst kd <> k) l = l) as Hl.
  { clear -Hk. induction l as [|[k' dq'] l IH]; [done|]. cbn in Hk. apply not_elem_of_cons in Hk as [Hne Hk].
    rewrite filter_cons_True by done. by rewrite IH. }
  assert (length dq <? S (length dq) = true)%nat as Hlt by (apply Nat.ltb_lt; lia).
  destruct at_; cbn [serve_interrupted length]; unfold handler; rewrite ?Hlt, ?Nat.ltb_irrefl.
  - by rewrite filter_cons_False, Hl by (cbn; tauto).
  - by rewrite filter_cons_False, Hl by (cbn; tauto).
  - destruct dq; [by rewrite Hl|]. rewrite filter_app, filter_cons_False by (cbn; tauto). by rewrite Hl, filter_nil, app_nil_r.
Qed.

Lemma run_wf evs l : wf_sources l -> wf_sources (run evs l).
Proof.
  revert l. induction evs as [|ev evs IH]; intros l Hl; [done|].
  apply IH. destruct ev; [by apply append_source_wf|by apply serve_wf].
Qed.

Lemma append_source_items src x l :
  Permutation (all_items (append_source src x l)) (x :: all_items l).
Proof.
  unfold all_items. induction l as [|[k dq] l IH]; cbn; [done|].
  case_bool_decide; cbn.
  - rewrite <- app_assoc. cbn. by rewrite Permutation_middle.
  - rewrite IH. by rewrite Permutation_middle.
Qed.

Lemma serve_items l :
  Permutation (all_items l)
    (match fst (serve l) with Some (_, x) => [x] | None => [] end ++ all_items (snd (serve l))).
Proof.
  unfold all_items. induction l as [|[k [|x dq]] l IH]; cbn; [done|done|].
  constructor. destruct dq as [|y dq]; cbn; [done|].
  rewrite map_app, concat_app. cbn. rewrite app_nil_r. apply (Permutation_app_comm (y :: dq)).
Qed.

(** A push keeps the place and the head of every source already present. *)
Lemma append_source_lookup src x l i k y dq :
  l !! i = Some (k, y :: dq) -> exists dq', append_source src x l !! i = Some (k, y :: dq').
Proof.
  revert i. induction l as [|[k' dq0] l IH]; intros i Hi; [done|]. cbn.
  destruct i as [|i]; cbn in *.
  - injection Hi as -> ->. case_bool_decide; cbn; eauto.
  - case_bool_decide; cbn; eauto.
Qed.

Lemma serve_lookup l i k y dq :
  wf_sources l -> l !! S i = Some (k, y :: dq) -> snd (serve l) !! i = Some (k, y :: dq).
Proof.
  intros [_ Ha] Hi. destruct l as [|[k' [|x dq']] l]; cbn in *; [done| |].
  - apply Forall_cons in Ha as [Hne _]. by destruct Hne.
  - destruct dq'; [done|]. by apply lookup_app_l_Some.
Qed.

Lemma map_decode_sources l seen :
  NoDup (map fst l) -> (forall k, k ∈ map fst l -> k ∉ seen) -> Forall (fun kd => snd kd <> []) l ->
  decode_sources seen (map source_tree l) = Ok l.
Proof.
  revert seen. induction l as [|[k dq] l IH]; intros seen Hn Hs Ha; [done|].
  cbn in Hn. apply NoDup_cons in Hn as [Hk Hn]. apply Forall_cons in Ha as [Hdq Ha].
  cbn [map decode_sources source_tree fst snd].
  change (assoc_get "source" _) with (Some (JStr k)).
  change (assoc_get "items" _) with (Some (JList (map b64_json dq))). cbv iota beta.
  rewrite bool_decide_false by (apply Hs; left). rewrite b64_list_roundtrip. cbn [obind].
  rewrite IH; [| done| |done].
  - cbn [obind]. by destruct dq.
  - intros k' Hk' [->|Hin]%elem_of_cons; [done|]. eapply Hs; [right; exact Hk'|done].
Qed.

Lemma source_trees_wf l : json_wf (JList (map source_tree l)).
Proof.
  apply json_wf_list, Forall_forall. intros x ([k dq] & -> & _)%list_elem_of_fmap.
  apply json_wf_obj. split; [by apply (bool_decide_unpack _)|].
  constructor; [done|]. constructor; [|done]. apply json_wf_b64_list.
Qed.

Lemma live_id l : Forall (fun kd => snd kd <> []) l -> live l = l.
Proof.
  induction 1 as [|x l Hx _ IH]; [done|]. unfold live in *. by rewrite filter_cons_True, IH.
Qed.

Definition bindable (q : string) (s : self) : Prop := bound s = None \/ bound s = Some q.

Lemma op_spec q ev s :
  bindable q s ->
  op q ev s = (Ok match ev with EvPop => option_map snd (fst (serve (sources s))) | _ => None end,
               Self (step ev (sources s)) (Some q)).
Proof.
  intros Hb. assert (Hq : bind_queue q s = (Ok tt, Self (sources s) (Some q))).
  { unfold bind_queue, bind_single_queue. destruct Hb as [->| ->]; [done|].
    by rewrite bool_decide_false by (by intros []). }
  destruct ev as [src x|]; cbn [op]; unfold push, pop, bind at 1, lift.
  - unfold bind. by rewrite Hq.
  - change (normalize_queue_timeout (AInt 0)) with (Ok (A := float) fzero). cbv iota beta.
    unfold bind. rewrite Hq. cbn. by destruct (serve (sources s)).
Qed.

Lemma run_ops_spec q evs s :
  bindable q s ->
  sources (run_ops q evs s) = run evs (sources s) /\ bindable q (run_ops q evs s).
Proof.
  revert s. induction evs as [|ev evs IH]; intros s Hb; [done|].
  cbn [run_ops run]. rewrite op_spec by done. cbn [snd]. by apply IH; right.
Qed.

Lemma wait_lookup evs l i k y dq :
  wf_sources l -> l !! i = Some (k, y :: dq) -> pops evs = i ->
  fst (serve (run evs l)) = Some (k, y).
Proof.
  revert l i dq. induction evs as [|[src x|] evs IH]; intros l i dq Hwf Hi Hp; cbn in *.
  - subst i. destruct l as [|kd l]; cbn in *; [done|]. by injection Hi as ->.
  - destruct (append_source_lookup src x _ _ _ _ _ Hi) as [dq' Hi'].
    eapply IH; [by apply append_source_wf|exact Hi'|done].
  - subst i. eapply IH; [by apply serve_wf|by eapply serve_lookup|done].
Qed.

(** ** Properties *)

(** C37. Starvation freedom with an exact bound: an item at the head of the source
    in rotation position [i] is returned by the pop after the next [i] pops,
    whatever is pushed to any source in the meantime. *)
Theorem fair_service q s evs i source item dq
    (Hwf : wf s) (Hbound : bindable q s)
    (Hpos : sources s !! i = Some (source, item :: dq))
    (Hpops : pops evs = i) :
  fst (pop q (AInt 0) (run_ops q evs s)) = Ok (Some item).
Proof.
  destruct (run_ops_spec q evs s Hbound) as [Hsrc Hb].
  pose proof (op_spec q EvPop _ Hb) as Hop. cbn [op] in Hop. rewrite Hop. cbn [fst].
  by rewrite Hsrc, (wait_lookup evs _ i source item dq).
Qed.

(** Conservation and the representation invariant: over any pushes and pops,
    the items held before and the items pushed are, as multisets, the items
    popped and the items still held; sources stay distinct and none is kept
    drained. *)
Theorem conservation q s evs (Hwf : wf s) (Hbound : bindable q s) :
  Permutation (all_items (sources s) ++ pushed evs)
              (outputs q evs s ++ all_items (sources (run_ops q evs s))) /\
  wf (run_ops q evs s).
Proof.
  split; [|unfold wf; rewrite (proj1 (run_ops_spec q evs s Hbound)); by apply run_wf].
  clear Hwf. revert s Hbound. induction evs as [|ev evs IH]; intros s Hb; cbn [outputs run_ops].
  - by rewrite app_nil_r.
  - rewrite op_spec by done. cbn [fst snd].
    rewrite <- app_assoc, <- IH by by right. cbn [sources].
    destruct ev as [src x|]; cbn [pushed step].
    + rewrite append_source_items. cbn. by rewrite <- Permutation_middle.
    + rewrite (serve_items (sources s)) at 1.
      by destruct (fst (serve (sources s))) as [[k x]|]; cbn.
Qed.

Section SnapshotTheorem.
Context `{JsonTextLaws}.

(** Restart round trip: restoring a snapshot reproduces every source with its
    items, in rotation order; there is no snapshot exactly when nothing is
    held; and a rejected snapshot changes nothing. *)
Theorem sources_snapshot_restore s s0 (Hwf : wf s) :
  match snapshot s with
  | None => sources s = []
  | Some b => restore (Some b) s0 = (Ok tt, with_sources s0 (sources s))
  end /\
  (forall b e s', restore b s0 = (Raise e, s') -> s' = s0).
Proof.
  destruct Hwf as [Hn Ha]. split.
  - unfold snapshot. rewrite live_id by done.
    destruct (sources s) as [|kd l] eqn:Hs; [done|].
    assert (Hwfj : json_wf (JObj [("version", JInt 1); ("strategy", JStr "round_robin");
                              ("sources", JList (map source_tree (kd :: l)))]%string)).
    { apply json_wf_obj. split; [by apply (bool_decide_unpack _)|].
      constructor; [by vm_compute|]. constructor; [done|]. constructor; [|done].
      apply source_trees_wf. }
    unfold restore. rewrite json_loads_dumps by done. cbn [obind].
    unfold decode_snapshot. replace (snapshot_header _ _) with true by done.
    change (assoc_get "sources" _) with (Some (JList (map source_tree (kd :: l)))). cbv iota beta.
    rewrite map_decode_sources; [done|done| |done]. intros k _. apply not_elem_of_nil.
  - intros [b|] e s'; [|done]. unfold restore. cbv zeta.
    destruct (restore_guard _) as [recovered|e']; by intros [=].
Qed.
End SnapshotTheorem.

Module Examples.
Definition s0 : self := Self [("a", [[x61]; [x62]]); ("b", [[x63]])]%string None.

Lemma wf_s0 : wf s0.
Proof.
  split; [by apply (bool_decide_unpack _)|]. by repeat constructor.
Qed.

Lemma fair_service_witness :
  fst (pop "q" (AInt 0) (run_ops "q" [EvPush "c" [x64]; EvPop; EvPush "b" [x65]] s0)) = Ok (Some [x63]).
Proof.
  exact (fair_service "q" s0 [EvPush "c" [x64]; EvPop; EvPush "b" [x65]] 1%nat "b" [x63] []
           wf_s0 (or_introl eq_refl) eq_refl eq_refl).
Defined.

Lemma conservation_witness :
  Permutation [[x61]; [x62]; [x63]; [x64]]
    (outputs "q" [EvPush "a" [x64]; EvPop] s0
     ++ all_items (sources (run_ops "q" [EvPush "a" [x64]; EvPop] s0))).
Proof.
  exact (proj1 (conservation "q" s0 [EvPush "a" [x64]; EvPop] wf_s0 (or_introl eq_refl))).
Defined.

Lemma sources_snapshot_restore_witness :
  match @snapshot PlainText.text s0 with
  | None => sources s0 = []
  | Some b => @restore PlainText.text (Some b) init = (Ok tt, with_sources init (sources s0))
  end.
Proof.
  exact (proj1 (@sources_snapshot_restore PlainText.text PlainText.laws s0 init wf_s0)).
Defined.
End Examples.
End RoundRobin.
