(* ===== verification/Delay.v ===== *)
(** * The delay strategy

    queue/strategies/delay.py: items held in a heap until their deadline, then
    moved to the live backend queue.  The state is the strategy's with the
    environment [W], which holds the backend and the clocks. *)

From S2P Require Export Clock.

Module Delay.
Definition DEFAULT_DELAY_MAX_HELD : Z := 100000.

Record self := Self {
  default_delay : float;
  holding : list entry;
  seq : Z;
  max_held : Z;
  over_cap_warned : bool;
  bound : option string
}.

Definition with_holding (s : self) h n :=
  Self (default_delay s) h n (max_held s) (over_cap_warned s) (bound s).
Definition with_bound (s : self) b :=
  Self (default_delay s) (holding s) (seq s) (max_held s) (over_cap_warned s) b.

(** [__init__]. *)
Definition init (delay : pyarg) (cap : pyarg) (warned : bool) : outcome self :=
  obind (require_finite delay) (fun d =>
  if fltb d fzero then Raise EValue
  else match cap with
       | AInt n => Ok (Self d [] 0 n warned None)
       | _ => Raise EValue
       end).

Definition bind_queue (queue_name : string) : M self unit := fun s =>
  let '(o, b) := bind_single_queue queue_name (bound s) in (o, with_bound s b).

(** [_warn_over_cap_once]: only the latch is state. *)
Definition warn_over_cap_once (held : Z) : M self unit := fun s =>
  if (max_held s <=? 0) || (held <=? max_held s) || over_cap_warned s then (Ok tt, s)
  else (Ok tt, Self (default_delay s) (holding s) (seq s) (max_held s) true (bound s)).

Section Delay.
Context {W : Type} `{QueueBackend W, Clock W}.

(** [_require_finite(self._clock(), ...)]. *)
Definition read_clock : M (self * W) float :=
  let! v := on_snd clock_read in lift (require_finite v).

(** The shared tail of [push] and of the held prepared push. *)
Definition hold (item : bytes) (effective priority : float) : M (self * W) unit :=
  let! now := read_clock in
  let! ready_at := lift (require_finite (AFloat (fadd now effective))) in
  let! s := on_fst get in
  let h := insert_by entry_le (Entry ready_at (seq s) item priority) (holding s) in
  let! _ := on_fst (put (with_holding s h (seq s + 1))) in
  on_fst (warn_over_cap_once (Z.of_nat (length h))).

(** [push]. *)
Definition push (queue_name : string) (item : bytes) (priority delay : pyarg)
    : M (self * W) unit :=
  let! d := lift (require_finite delay) in
  let! p := lift (require_finite priority) in
  if fltb d fzero then raise EValue
  else
    let! _ := on_fst (bind_queue queue_name) in
    let! s := on_fst get in
    let effective := if fltb fzero d then d else default_delay s in
    if fleb effective fzero then
      let! _ := on_snd get_queue_backend in on_snd (qb_push queue_name item p)
    else hold item effective p.

(** [is_push_durable]. *)
Definition is_push_durable (s : self) (delay : float) : bool :=
  fleb (if fltb fzero delay then delay else default_delay s) fzero.

(** [_prepare_push]: the route is frozen before the commit validates. *)
Definition prepare_push (queue_name : string) (priority delay : pyarg)
    : M (self * W) (prepared_push (self * W)) :=
  let! _ := on_fst (bind_queue queue_name) in
  let! use_delay := lift (arg_positive delay) in
  let! s := on_fst get in
  let validated {A} (k : float -> float -> M (self * W) A) : M (self * W) A :=
    let! d := lift (require_finite delay) in
    let! p := lift (require_finite priority) in
    if fltb d fzero then raise EValue else k d p in
  if negb use_delay && fleb (default_delay s) fzero then
    ret (PreparedPush true (fun item require_durable =>
      validated (fun _ p => on_snd (push_backend_prepared queue_name item p require_durable))))
  else
    ret (local_prepared (fun item =>
      validated (fun d p => hold item (if use_delay : bool then d else default_delay s) p))).

(** The loop of [_drain_ready] from the current heap [h]: push the root, then
    drop it. *)
Fixpoint drain_loop (queue_name : string) (now : float) (h : list entry) : M (self * W) unit :=
  match h with
  | [] => ret tt
  | e :: h' =>
      if fleb (e_ready e) now then
        let! _ := on_snd (qb_push queue_name (e_item e) (e_priority e)) in
        let! _ := on_fst (modify (fun s => with_holding s h' (seq s))) in
        drain_loop queue_name now h'
      else ret tt
  end.

(** [_drain_ready]. *)
Definition drain_ready (queue_name : string) : M (self * W) unit :=
  let! _ := on_snd get_queue_backend in
  let! now := read_clock in
  let! s := on_fst get in
  drain_loop queue_name now (holding s).

(** [_next_ready_at]. *)
Definition next_ready_at (s : self) : option float := head (map e_ready (holding s)).

(** [_pop_until_deadline], with fuel for the [while True]; None is out of fuel. *)
Section Loop.
Context {A : Type} (backend_pop : float -> M W A) (has_item : A -> bool) (empty : A).

Fixpoint pop_loop (fuel : nat) (queue_name : string) (timeout : float)
    (deadline : option float) : M (self * W) (option A) :=
  match fuel with
  | O => ret None
  | S fuel' =>
      let! _ := drain_ready queue_name in
      let! before := read_clock in
      let! dl := (match deadline with
                  | Some d => ret d
                  | None => lift (require_finite (AFloat (fadd before timeout)))
                  end) in
      let remaining := fmax fzero (fsub dl before) in
      let! s := on_fst get in
      let wait := match next_ready_at s with
                  | Some r => fmin remaining (fmax fzero (fsub r before))
                  | None => remaining
                  end in
      let! result := on_snd (backend_pop wait) in
      if has_item result then ret (Some result)
      else
        let! after := read_clock in
        if feqb timeout fzero || fleb dl after || fleb after before
        then ret (Some empty)
        else pop_loop fuel' queue_name timeout (Some dl)
  end.
End Loop.

Definition live_pop (queue_name : string) (wait : float) : M W (option bytes) :=
  let! _ := get_queue_backend in qb_pop queue_name wait.

(** [pop]. *)
Definition pop (fuel : nat) (queue_name : string) (timeout : pyarg)
    : M (self * W) (option (option bytes)) :=
  let! t := lift (normalize_queue_timeout timeout) in
  let! _ := on_fst (bind_queue queue_name) in
  pop_loop (live_pop queue_name) (fun r => bool_decide (is_Some r)) None fuel queue_name t None.

(** [pop_with_ack]. *)
Definition pop_with_ack (fuel : nat) (queue_name : string) (timeout : pyarg)
    : M (self * W) (option (option bytes * option ack_token)) :=
  let! t := lift (normalize_queue_timeout timeout) in
  let! _ := on_fst (bind_queue queue_name) in
  pop_loop (pop_backend_with_ack queue_name)
    (fun r => bool_decide (is_Some (fst r)) || bool_decide (is_Some (snd r)))
    (None, None) fuel queue_name t None.

(** [queue_len]. *)
Definition queue_len (queue_name : string) : M (self * W) Z :=
  let! _ := on_fst (bind_queue queue_name) in
  let! s := on_fst get in
  let! _ := on_snd get_queue_backend in
  let! n := on_snd (qb_queue_len queue_name) in
  ret (n + Z.of_nat (length (holding s))).

(** [clear]. *)
Definition clear (queue_name : string) : M (self * W) unit :=
  let! _ := on_fst (bind_queue queue_name) in
  let! _ := on_snd get_queue_backend in
  let! _ := on_snd (qb_clear_queue queue_name) in
  on_fst (modify (fun s => with_holding s [] (seq s))).

(** [close]. *)
Definition close : M (self * W) unit := on_fst (modify (fun s => with_holding s [] (seq s))).

(** *** Snapshot and restore *)
Context `{JsonText}.

Definition entry_tree (now : float) (e : entry) : json :=
  JObj [("remaining", JFloat (fmax fzero (fsub (e_ready e) now)));
        ("item_b64", b64_json (e_item e));
        ("priority", JFloat (e_priority e))]%string.

(** [snapshot]. *)
Definition snapshot : M (self * W) (option bytes) :=
  let! s := on_fst get in
  match holding s with
  | [] => ret None
  | h =>
      let! now := read_clock in
      let! wv := on_snd wall_clock_read in
      let! wall := lift (require_finite wv) in
      ret (Some (json_dumps (JObj
        [("version", JInt 2); ("strategy", JStr "delay");
         ("snapshot_wall_time", JFloat wall);
         ("items", JList (map (entry_tree now) h))]%string)))
  end.

Record recovered := Recovered {
  r_ready : float; r_deadline : float; r_order : Z; r_item : bytes; r_priority : float
}.

(** The sort key of [restore]: [(ready_at, original_deadline, input_order)]. *)
Definition recovered_le (x y : recovered) : bool :=
  fltb (r_ready x) (r_ready y)
  || (feqb (r_ready x) (r_ready y)
      && (fltb (r_deadline x) (r_deadline y)
          || (feqb (r_deadline x) (r_deadline y) && (r_order x <=? r_order y)))).

(** One recorded entry. *)
Definition decode_entry (version : Z) (now downtime : float) (input_order : Z) (j : json)
    : outcome recovered :=
  match j with
  | JObj o =>
      obind (if version =? 2 then
               obind (item_of "remaining" o) (fun r =>
               obind (require_finite (arg_of_json r)) (fun remaining =>
               if fltb remaining fzero then Raise EValue
               else omap (fun ready_at => (ready_at, remaining))
                      (require_finite (AFloat (fadd now (fmax fzero (fsub remaining downtime)))))))
             else
               obind (item_of "ready_at" o) (fun r =>
               obind (py_float r) (fun f =>
               omap (fun d => (now, d)) (require_finite (AFloat f)))))
        (fun '(ready_at, original_deadline) =>
      obind (item_of "item_b64" o) (fun b =>
      obind (b64_of_json b) (fun item =>
      obind (item_of "priority" o) (fun p =>
      obind (py_float p) (fun f =>
      omap (Recovered ready_at original_deadline input_order item)
        (require_finite (AFloat f)))))))
  | _ => Raise EValue
  end.

Fixpoint decode_entries (version : Z) (now downtime : float) (n : Z) (js : list json)
    : outcome (list recovered) :=
  match js with
  | [] => Ok []
  | j :: js' => obind (decode_entry version now downtime n j) (fun r =>
                omap (cons r) (decode_entries version now downtime (n + 1) js'))
  end.

Fixpoint renumber (n : Z) (rs : list recovered) : list entry :=
  match rs with
  | [] => []
  | r :: rs' => Entry (r_ready r) n (r_item r) (r_priority r) :: renumber (n + 1) rs'
  end.

(** The header check: versions 1 and 2 are readable. *)
Definition delay_header (o : list (string * json)) : option (Z * list json) :=
  match assoc_get "strategy" o, assoc_get "version" o, assoc_get "items" o with
  | Some (JStr s), Some (JInt v), Some (JList items) =>
      if bool_decide (s = "delay"%string) && ((v =? 1) || (v =? 2)) then Some (v, items) else None
  | _, _, _ => None
  end.

(** The guarded body of [restore]: the rebuilt heap. *)
Definition rebuild (state : bytes) : M W (list entry) :=
  let! data := lift (json_loads state) in
  match data with
  | JObj o =>
      match delay_header o with
      | Some (version, items) =>
          let! cv := clock_read in
          let! now := lift (require_finite cv) in
          let! downtime :=
            (if version =? 2 then
               let! j := lift (item_of "snapshot_wall_time" o) in
               let! snapshot_wall_time := lift (py_float j) in
               let! wv := wall_clock_read in
               let! current := lift (match wv with
                                     | ABool b => py_float (JBool b)
                                     | AInt z => py_float (JInt z)
                                     | AFloat f => Ok f
                                     | AOther => Raise EType
                                     end) in
               if isfinite snapshot_wall_time && isfinite current
               then ret (fmax fzero (fsub current snapshot_wall_time))
               else raise EValue
             else ret fzero) in
          let! rs := lift (decode_entries version now downtime 0 items) in
          ret (renumber 0 (sort_by recovered_le rs))
      | None => raise EValue
      end
  | _ => raise EValue
  end.

(** [restore]. *)
Definition restore (state : option bytes) : M (self * W) unit := fun '(s, w) =>
  match state with
  | None => (Ok tt, (s, w))
  | Some b =>
      let '(o, w') := rebuild b w in
      match restore_guard o with
      | Ok h => (Ok tt, (with_holding s h (Z.of_nat (length h)), w'))
      | Raise e => (Raise e, (s, w'))
      end
  end.
End Delay.

(** ** The invariant of the holding heap *)
Definition ok (s : self) : Prop :=
  heap_ok (holding s) /\ Forall (fun e => e_seq e < seq s) (holding s).

(** ** Lemmas *)
Section Lemmas.
Context {W : Type} `{QueueBackend W, Clock W}.

Lemma drain_loop_spec q now h s w o s' w' :
  holding s = h -> drain_loop q now h (s, w) = (o, (s', w')) ->
  exists moved w1,
    h = moved ++ holding s' /\ s' = with_holding s (holding s') (seq s) /\
    Forall (fun e => fleb (e_ready e) now = true) moved /\ pushed_all q moved w w1 /\
    match o with
    | Ok _ => w' = w1 /\ match holding s' with
                         | [] => True | e :: _ => fleb (e_ready e) now = false end
    | Raise e => exists e0 h', holding s' = e0 :: h' /\ fleb (e_ready e0) now = true
                  /\ qb_push q (e_item e0) (e_priority e0) w1 = (Raise e, w')
    end.
Proof.
  revert s w. induction h as [|e h IH]; intros s w Hh; cbn [drain_loop].
  - intros [= <- <- <-]. exists [], w. rewrite Hh. repeat split; [|by constructor..].
    destruct s; cbn in *; by subst.
  - assert (Hid : s = with_holding s (holding s) (seq s)) by (by destruct s).
    destruct (fleb (e_ready e) now) eqn:Hdue.
    + unfold bind at 1, on_snd.
      destruct (qb_push q (e_item e) (e_priority e) w) as [[[]|x] w1] eqn:Hpush.
      * unfold bind, on_fst, modify. intros Hrun.
        destruct (IH (with_holding s h (seq s)) w1 eq_refl Hrun)
          as (moved & w2 & Hsplit & Hs' & Hall & Hp & Ho).
        exists (e :: moved), w2. rewrite Hsplit at 1. split; [done|].
        split; [by rewrite Hs' at 1|]. split; [by constructor|].
        split; [by econstructor|done].
      * intros [= <- <- <-]. exists [], w. split; [by rewrite Hh|]. split; [done|].
        split; [done|]. split; [constructor|]. exists e, h. by rewrite Hh.
    + intros [= <- <- <-]. exists [], w. rewrite Hh. repeat split; [|by constructor..|done].
      by rewrite <- Hh.
Qed.

Lemma require_finite_ok v f : require_finite v = Ok f -> isfinite f = true.
Proof.
  unfold require_finite, to_finite_float. destruct v as [|z|x|]; try done.
  - destruct (isfinite (float_of_Z z)) eqn:E; [|done]. by intros [= <-].
  - destruct (isfinite x) eqn:E; [|done]. by intros [= <-].
Qed.

Lemma read_clock_ok s w now s' w' :
  read_clock (s, w) = (Ok now, (s', w')) ->
  s' = s /\ exists v, clock_read w = (Ok v, w') /\ require_finite v = Ok now.
Proof.
  unfold read_clock. intros (v & st & Hc & Hl)%bind_ok_inv.
  apply on_snd_ok in Hc as (w1 & Hc & ->). apply lift_ok in Hl as [Hv [= -> ->]]. eauto.
Qed.

Lemma sorted_app_inv {A} (R : A -> A -> Prop) l1 l2 :
  StronglySorted R (l1 ++ l2) -> StronglySorted R l1 /\ StronglySorted R l2.
Proof.
  induction l1 as [|x l1 IH]; cbn; [by split; [constructor|]|].
  intros Hs. inversion Hs as [|? ? Hs' Hall]; subst. apply Forall_app in Hall as [Ha _].
  destruct (IH Hs') as [H1 H2]. split; [by constructor|done].
Qed.

Lemma heap_app_inv h1 h2 : heap_ok (h1 ++ h2) -> heap_ok h1 /\ heap_ok h2.
Proof.
  intros [Hf Hs]. apply Forall_app in Hf as [? ?]. apply sorted_app_inv in Hs as [? ?].
  by repeat split.
Qed.

Lemma read_clock_state s w o s' w' : read_clock (s, w) = (o, (s', w')) -> s' = s.
Proof.
  unfold read_clock, bind. destruct (on_snd clock_read (s, w)) as [o1 [s1 w1]] eqn:E.
  apply on_snd_fst in E as [-> _]. destruct o1; by intros [= _ <- _].
Qed.

(** The heap operations preserve the invariant. *)
Lemma hold_ok item eff p s w o s' w' :
  ok s -> hold item eff p (s, w) = (o, (s', w')) -> ok s'.
Proof.
  intros Hok. unfold hold. intros [(now & [s1 w1] & Hc & Hk)|(e & Hc & ->)]%bind_inv.
  2: { by apply read_clock_state in Hc as ->. }
  pose proof (read_clock_state _ _ _ _ _ Hc) as ->.
  apply bind_inv in Hk as [(r & st & Hr & Hk)|(e & Hr & ->)].
  2: { by injection Hr as _ <- <-. }
  apply lift_ok in Hr as [Hr ->]. apply require_finite_ok in Hr.
  unfold bind, on_fst, get, put in Hk.
  assert (Hok' : ok (with_holding s (insert_by entry_le (Entry r (seq s) item p) (holding s))
                       (seq s + 1))).
  { destruct Hok as [Hh Hseq]. split; cbn.
    - by apply heap_insert_ok.
    - rewrite insert_by_perm. constructor; [cbn; lia|].
      eapply Forall_impl; [exact Hseq|]. cbn. lia. }
  unfold warn_over_cap_once in Hk. destruct (_ || _) in Hk; by injection Hk as _ <- _.
Qed.
End Lemmas.

Section Theorems.
Context {W : Type} `{QueueBackend W, Clock W}.

(** The drain moves exactly the due items, in deadline order with their own
    priorities, and loses nothing on any path: what leaves the heap was pushed
    successfully, the rest stays held; a completed drain leaves only items
    whose deadline lies after the clock reading; when a backend push raises,
    the item it was about is still held. *)
Theorem drain_exact q s w o s' w'
    (Hok : ok s)
    (Hdrain : drain_ready q (s, w) = (o, (s', w'))) :
  (s' = s /\ exists e, o = Raise e) \/
  exists wc v now w0 moved w1,
    clock_read wc = (Ok v, w0) /\ require_finite v = Ok now /\
    holding s = moved ++ holding s' /\
    Forall (fun e => fleb (e_ready e) now = true) moved /\
    StronglySorted (le_rel entry_le) moved /\
    pushed_all q moved w0 w1 /\ ok s' /\
    match o with
    | Ok _ => w' = w1 /\ Forall (fun e => fleb (e_ready e) now = false) (holding s')
    | Raise e => exists e0 h', holding s' = e0 :: h'
        /\ qb_push q (e_item e0) (e_priority e0) w1 = (Raise e, w')
    end.
Proof.
  unfold drain_ready in Hdrain.
  apply bind_inv in Hdrain as [(i & [s1 w1] & Hg & Hk)|(e & Hg & ->)].
  2: { apply on_snd_fst in Hg as [-> _]. eauto. }
  apply on_snd_fst in Hg as [-> Hg].
  apply bind_inv in Hk as [(now & [s2 w2] & Hc & Hk)|(e & Hc & ->)].
  2: { apply read_clock_state in Hc as ->. eauto. }
  apply read_clock_ok in Hc as (-> & v & Hc & Hv).
  unfold bind, on_fst, get in Hk.
  destruct (drain_loop_spec q now _ _ _ _ _ _ eq_refl Hk)
    as (moved & w3 & Hsplit & Hs' & Hall & Hp & Ho).
  right. exists w1, v, now, w2, moved, w3.
  pose proof Hok as [Hh Hseq]. rewrite Hsplit in Hh, Hseq.
  apply heap_app_inv in Hh as [[_ Hsm] Hh']. apply Forall_app in Hseq as [_ Hseq'].
  repeat (split; [done|]). split; [by rewrite Hs' in Hh', Hseq' |- *|].
  destruct o as [u|e].
  - destruct Ho as [-> Hhead]. split; [done|].
    destruct (holding s') as [|e0 h']; [constructor|].
    apply heap_not_due; [by eapply require_finite_ok|done|done].
  - destruct Ho as (e0 & h' & He & _ & Hpush). eauto.
Qed.

(** A push with a positive effective delay performs no backend operation: it
    adds one entry whose deadline is the clock reading plus the delay, behind
    every entry with the same deadline, and the heap stays well formed. *)
Theorem push_holds q item p d s w u s' w' delay prio
    (Hok : ok s)
    (Hd : require_finite delay = Ok d) (Hp : require_finite prio = Ok p)
    (Heff : fltb fzero (if fltb fzero d then d else default_delay s) = true)
    (Hpush : push q item prio delay (s, w) = (Ok u, (s', w'))) :
  exists v now ready, clock_read w = (Ok v, w') /\ require_finite v = Ok now /\
    ready = fadd now (if fltb fzero d then d else default_delay s) /\
    isfinite ready = true /\
    holding s' = insert_by entry_le (Entry ready (seq s) item p) (holding s) /\ ok s'.
Proof.
  unfold push in Hpush. unfold bind at 1, lift at 1 in Hpush. rewrite Hd in Hpush.
  unfold bind at 1, lift at 1 in Hpush. rewrite Hp in Hpush.
  destruct (fltb d fzero); [done|].
  apply bind_ok_inv in Hpush as ([] & [s1 w1] & Hb & Hk).
  apply on_fst_ok in Hb as (s1' & Hb & [= <- <-]).
  assert (Hs1 : exists b, s1 = with_bound s b).
  { unfold bind_queue in Hb. destruct (bind_single_queue q (bound s)). injection Hb as _ <-. eauto. }
  destruct Hs1 as [b ->]. clear Hb. unfold bind at 1, on_fst at 1, get in Hk. cbn [default_delay with_bound] in Hk.
  set (eff := if fltb fzero d then d else default_delay s) in *.
  assert (Hle : fleb eff fzero = false).
  { destruct (fltb_not_nan _ _ Heff) as [_ Hn]. rewrite fleb_negb_fltb by done. by rewrite Heff. }
  rewrite Hle in Hk.
  assert (Hok' : ok s') by (eapply (hold_ok item eff p (with_bound s b)); [exact Hok|exact Hk]).
  unfold hold in Hk. apply bind_ok_inv in Hk as (now & [s2 w2] & Hc & Hk).
  apply read_clock_ok in Hc as (-> & v & Hc & Hv).
  apply bind_ok_inv in Hk as (r & st & Hr & Hk). apply lift_ok in Hr as [Hr ->].
  pose proof (require_finite_ok _ _ Hr) as Hfin.
  cbn in Hr.
  destruct (isfinite (fadd now eff)) eqn:Efin; [|done]. injection Hr as <-.
  exists v, now, (fadd now eff). unfold bind, on_fst, get, put in Hk.
  unfold warn_over_cap_once in Hk. destruct (_ || _) in Hk; injection Hk as _ <- <-; done.
Qed.

(** *** The deadline loop ends *)
Section Termination.
Context `{!ClockLaws W}.

Lemma time_not_nan w : is_nan (time w) = false.
Proof. apply isfinite_not_nan, time_ok. Qed.

Lemma drain_time q s w o s' w' :
  drain_ready q (s, w) = (o, (s', w')) -> fleb (time w) (time w') = true.
Proof.
  unfold drain_ready. intros [(i & [s1 w1] & Hg & Hk)|(e & Hg & ->)]%bind_inv.
  2: { apply on_snd_fst in Hg as [_ Hg]. by eapply backend_get_time. }
  apply on_snd_fst in Hg as [-> Hg]. apply backend_get_time in Hg.
  eapply fleb_trans; [exact Hg|]. clear Hg.
  unfold read_clock, bind, on_snd, lift in Hk.
  destruct (clock_read w1) as [o1 w2] eqn:Hc. apply clock_read_ok in Hc as [-> Hc].
  eapply fleb_trans; [exact Hc|]. clear Hc. destruct (require_finite _) as [now|e].
  2: { injection Hk as _ _ <-. apply fleb_refl, time_not_nan. }
  cbn [on_fst get] in Hk. revert Hk. generalize (holding s) at 1. clear w w1.
  intros h. revert s w2. induction h as [|e h IH]; intros s w Hk; cbn [drain_loop] in Hk.
  - injection Hk as _ _ <-. apply fleb_refl, time_not_nan.
  - destruct (fleb (e_ready e) now).
    2: { injection Hk as _ _ <-. apply fleb_refl, time_not_nan. }
    unfold bind at 1, on_snd in Hk.
    destruct (qb_push _ _ _ w) as [o1 w1] eqn:Hp. apply backend_push_time in Hp.
    eapply fleb_trans; [exact Hp|]. destruct o1.
    + by apply IH in Hk.
    + injection Hk as _ _ <-. apply fleb_refl, time_not_nan.
Qed.

Lemma read_clock_time s w o s' w' :
  read_clock (s, w) = (o, (s', w')) -> o = Ok (time w') /\ s' = s /\ fleb (time w) (time w') = true.
Proof.
  unfold read_clock, bind, on_snd, lift. destruct (clock_read w) as [o1 w1] eqn:Hc.
  apply clock_read_ok in Hc as [-> Hc]. cbn.
  destruct (time_ok w1) as [-> _]. by intros [= <- <- <-].
Qed.

Lemma read_clock_raw s w o s' w' :
  read_clock (s, w) = (o, (s', w')) -> clock_read w = (Ok (AFloat (time w')), w').
Proof.
  unfold read_clock, bind, on_snd, lift. destruct (clock_read w) as [o1 w1] eqn:Hc.
  apply clock_read_ok in Hc as [-> Hc]. cbn. by intros [= _ _ <-].
Qed.

Lemma live_pop_time q t w o w' : live_pop q t w = (o, w') -> fleb (time w) (time w') = true.
Proof.
  unfold live_pop, bind. destruct (get_queue_backend w) as [[i|e] w1] eqn:Hg;
    apply backend_get_time in Hg.
  - intros Hp. apply backend_pop_time in Hp. by eapply fleb_trans.
  - by intros [= _ <-].
Qed.

(** Every round of the loop that goes on has seen the clock pass to a later
    reading before the deadline: with [ticks] the readings the clock can take
    before the deadline, no more rounds are made than there are ticks. *)
Definition later (w : W) (ticks : list float) : nat :=
  length (filter (fun v => fltb (time w) v = true) ticks).

Lemma later_lt ticks w w2 w5 :
  fleb (time w) (time w2) = true -> fltb (time w2) (time w5) = true -> time w5 ∈ ticks ->
  (later w5 ticks < later w ticks)%nat.
Proof.
  intros Hle Hlt Hin. unfold later.
  assert (Hw : fltb (time w) (time w5) = true) by by eapply fleb_fltb_trans.
  assert (Hsub : forall v, fltb (time w5) v = true -> fltb (time w) v = true).
  { intros v Hv. eapply fleb_fltb_trans; [by eapply fltb_fleb|done]. }
  rewrite <- (list_filter_filter_l (fun v => fltb (time w5) v = true)
                (fun v => fltb (time w) v = true)) by done.
  apply (length_filter_lt _ _ (time w5)); [by apply list_elem_of_filter|].
  by rewrite fltb_irrefl.
Qed.

(** How a pop may end without an item: its last wait on the backend, which never
    reaches past the deadline, found nothing, and then the pop was a
    non-blocking one, the deadline had passed, or the clock stood still. *)
Definition gave_up (q : string) (t dl : float) (w' : W) : Prop :=
  exists wait w2 w4, live_pop q wait w2 = (Ok None, w4) /\
    clock_read w4 = (Ok (AFloat (time w')), w') /\
    fleb wait (fmax fzero (fsub dl (time w2))) = true /\
    (feqb t fzero = true \/ fleb dl (time w') = true \/ fleb (time w') (time w2) = true).

Definition ended (q : string) (t dl : float) (r : outcome (option (option bytes)) * (self * W)) : Prop :=
  match fst r with
  | Ok None => False
  | Ok (Some None) => gave_up q t dl (snd (snd r))
  | Ok (Some (Some x)) => exists wait w2, live_pop q wait w2 = (Ok (Some x), snd (snd r))
  | Raise _ => True
  end.

(** The timeout and the absolute deadline that a [pop] computes in its first
    round. *)
Definition deadline (q : string) (timeout : pyarg) : M (self * W) (float * float) :=
  let! t := lift (normalize_queue_timeout timeout) in
  let! _ := on_fst (bind_queue q) in
  let! _ := drain_ready q in
  let! before := read_clock in
  let! dl := lift (require_finite (AFloat (fadd before t))) in
  ret (t, dl).

Lemma pop_loop_ended q t d ticks (Hfin : isfinite d = true)
    (Hticks : forall w, fltb (time w) d = true -> time w ∈ ticks) fuel : forall odl s w,
  odl = Some d \/ odl = None /\ (forall s1 w1 b st, drain_ready q (s, w) = (Ok tt, (s1, w1)) ->
     read_clock (s1, w1) = (Ok b, st) -> require_finite (AFloat (fadd b t)) = Ok d) ->
  (later w ticks < fuel)%nat ->
  ended q t d (pop_loop (live_pop q) (fun r => bool_decide (is_Some r)) None fuel q t odl (s, w)).
Proof.
  induction fuel as [|fuel IH]; intros odl s w Hodl Hfuel; [lia|].
  cbn [pop_loop]. unfold bind at 1.
  destruct (drain_ready q (s, w)) as [[[]|e] [s1 w1]] eqn:Hd; [|done].
  pose proof (drain_time _ _ _ _ _ _ Hd) as Hdt. unfold bind at 1.
  destruct (read_clock (s1, w1)) as [o [s2 w2]] eqn:Hb.
  pose proof (read_clock_time _ _ _ _ _ Hb) as (-> & -> & Hbt). unfold bind at 1.
  assert (Hdl : (match odl with Some d => ret d
    | None => lift (require_finite (AFloat (fadd (time w2) t))) end) (s1, w2) = (Ok d, (s1, w2))).
  { destruct Hodl as [-> | [-> Hr] ]; [done|]. unfold lift. by rewrite (Hr _ _ _ _ eq_refl Hb). }
  rewrite Hdl. unfold bind at 1, on_fst at 1, get. unfold bind at 1, on_snd.
  set (wait := match next_ready_at s1 with Some _ => _ | None => _ end).
  assert (Hwait : fleb wait (fmax fzero (fsub d (time w2))) = true).
  { unfold wait. destruct (next_ready_at s1); [apply fmin_le|apply fleb_refl]; apply fmax_not_nan. }
  destruct (live_pop q wait w2) as [[r|e] w4] eqn:Hp; [|done].
  pose proof (live_pop_time _ _ _ _ _ Hp) as Hpt.
  destruct r as [x|]; [rewrite bool_decide_eq_true_2 by eauto; cbn; eauto|].
  rewrite bool_decide_eq_false_2 by (by intros [? [=] ]). unfold bind.
  destruct (read_clock (s1, w4)) as [o [s5 w5]] eqn:Ha.
  pose proof (read_clock_raw _ _ _ _ _ Ha) as Hraw.
  apply read_clock_time in Ha as (-> & -> & Hat).
  destruct (feqb t fzero || fleb d (time w5) || fleb (time w5) (time w2)) eqn:Hstop.
  { rewrite !orb_true_iff in Hstop. exists wait, w2, w4. cbn. tauto. }
  rewrite !orb_false_iff in Hstop. destruct Hstop as [ [_ Hbefore] Hadv].
  rewrite fleb_negb_fltb, negb_false_iff in Hbefore, Hadv
    by (try apply time_not_nan; by apply isfinite_not_nan).
  apply IH; [by left|]. enough (later w5 ticks < later w ticks)%nat by lia.
  apply (later_lt ticks w w2 w5); [by eapply fleb_trans|done|by apply Hticks].
Qed.

(** C40. The blocking pop ends within an explicit number of rounds: over a clock
    that never goes back and takes only the readings [ticks] before the
    deadline, [S (length ticks)] drain-and-wait rounds are enough, whatever the
    backend does. It hands out what the backend gave in its last round; it gives
    up only after a wait on the backend that reached no further than the
    deadline, and then because the pop was a non-blocking one, the deadline has
    passed, or the clock did not move during that wait. *)
Theorem pop_terminates q timeout s w t dl st ticks fuel
    (Hdl : deadline q timeout (s, w) = (Ok (t, dl), st))
    (Hticks : forall w', fltb (time w') dl = true -> time w' ∈ ticks)
    (Hfuel : (length ticks < fuel)%nat) :
  ended q t dl (pop fuel q timeout (s, w)).
Proof.
  unfold deadline, bind at 1, lift at 1 in Hdl. unfold pop, bind at 1, lift at 1.
  destruct (normalize_queue_timeout timeout) as [t'|e]; [|done].
  unfold bind at 1, on_fst at 1 in Hdl. unfold bind at 1, on_fst at 1.
  destruct (bind_queue q s) as [ [ []|e] s1]; [|done].
  apply bind_ok_inv in Hdl as ([] & [s2 w2] & Hd & Hdl).
  apply bind_ok_inv in Hdl as (b & [s3 w3] & Hb & Hdl).
  apply bind_ok_inv in Hdl as (d & st' & Hr & Hdl). apply lift_ok in Hr as [Hr ->].
  injection Hdl as <- <- _. pose proof (require_finite_ok _ _ Hr) as Hfin.
  apply (pop_loop_ended q t' d ticks Hfin Hticks).
  - right. split; [done|]. intros s4 w4 b' st' Hd' Hb'. rewrite Hd in Hd'.
    injection Hd' as <- <-. rewrite Hb in Hb'. by injection Hb' as <- _.
  - eapply Nat.le_lt_trans; [apply length_filter|done].
Qed.
End Termination.
End Theorems.

(** ** Restart *)
Section Restart.
Context {W : Type} `{HQB : QueueBackend W, HCL : Clock W, HJ : JsonText, HJL : !JsonTextLaws}.

Definition recovered_ok (r : recovered) : Prop :=
  isfinite (r_ready r) = true /\ isfinite (r_deadline r) = true.

Lemma recovered_le_spec x y : recovered_ok x -> recovered_ok y ->
  recovered_le x y = true <->
  klt (fkey (r_ready x)) (fkey (r_ready y)) \/
  (fkey (r_ready x) = fkey (r_ready y) /\
   (klt (fkey (r_deadline x)) (fkey (r_deadline y)) \/
    (fkey (r_deadline x) = fkey (r_deadline y) /\ r_order x <= r_order y))).
Proof.
  intros [Hx1 Hx2] [Hy1 Hy2]. unfold recovered_le.
  rewrite !orb_true_iff, !andb_true_iff, !orb_true_iff, !andb_true_iff.
  rewrite !fltb_klt, !feqb_fkey, Z.leb_le by by apply isfinite_not_nan. done.
Qed.

Lemma recovered_le_total x y : recovered_ok x -> recovered_ok y ->
  recovered_le x y = true \/ recovered_le y x = true.
Proof.
  intros Hx Hy. rewrite !recovered_le_spec by done.
  destruct (klt_total (fkey (r_ready x)) (fkey (r_ready y))) as [?|[->|?]]; auto.
  destruct (klt_total (fkey (r_deadline x)) (fkey (r_deadline y))) as [?|[->|?]]; auto.
  destruct (Z.le_ge_cases (r_order x) (r_order y)); auto 6.
Qed.

Lemma recovered_le_trans x y z : recovered_ok x -> recovered_ok y -> recovered_ok z ->
  recovered_le x y = true -> recovered_le y z = true -> recovered_le x z = true.
Proof.
  intros Hx Hy Hz. rewrite !recovered_le_spec by done.
  intros [H1|[E1 H1]] [H2|[E2 H2]].
  - left. by eapply klt_trans.
  - rewrite <- E2. auto.
  - rewrite E1. auto.
  - right. split; [congruence|]. destruct H1 as [H1|[F1 H1]], H2 as [H2|[F2 H2]].
    + left. by eapply klt_trans.
    + rewrite <- F2. auto.
    + rewrite F1. auto.
    + right. split; [congruence|lia].
Qed.

Lemma renumber_sorted n rs :
  Forall recovered_ok rs -> StronglySorted (le_rel recovered_le) rs ->
  heap_ok (renumber n rs) /\ Forall (fun e => n <= e_seq e < n + Z.of_nat (length rs)) (renumber n rs).
Proof.
  intros Hf Hs. revert n. induction Hs as [|r rs Hs IH Hall]; intros n; cbn [renumber].
  { by repeat constructor. }
  apply Forall_cons in Hf as [Hr Hf]. destruct (IH Hf (n + 1)) as [[He Hss] Hseq].
  split.
  - split; [constructor; [exact (proj1 Hr)|done]|]. constructor; [done|].
    clear IH Hs Hss He. revert n Hseq. induction rs as [|r' rs IHrs]; intros n Hseq; cbn [renumber]; [constructor|].
    apply Forall_cons in Hall as [H1 Hall], Hf as [Hr' Hf], Hseq as [Hs1 Hseq].
    constructor.
    + apply entry_le_spec; [exact (proj1 Hr)|exact (proj1 Hr')|]. cbn.
      apply recovered_le_spec in H1; [|done..]. destruct H1 as [?|[? _]]; [by left|right].
      split; [done|lia].
    + cbn in Hseq.
      assert (Hgo : forall m, n + 1 <= m -> Forall (le_rel entry_le (Entry (r_ready r) n (r_item r) (r_priority r)))
                 (renumber m rs)).
      { clear Hseq Hs1 IHrs. induction rs as [|r2 rs IH]; intros m Hm; cbn [renumber]; [constructor|].
        apply Forall_cons in Hall as [H2 Hall], Hf as [Hr2 Hf]. constructor; [|apply IH; auto; lia].
        apply entry_le_spec; [exact (proj1 Hr)|exact (proj1 Hr2)|]. cbn.
        apply recovered_le_spec in H2; [|done..]. destruct H2 as [?|[? _]]; [by left|right].
        split; [done|lia]. }
      apply Hgo. lia.
  - constructor; [cbn; lia|]. eapply Forall_impl; [exact Hseq|]. cbn. lia.
Qed.

(** The deadline an entry gets when it is restored. *)
Definition restored_ready (snap_now now downtime : float) (e : entry) : float :=
  fadd now (fmax fzero (fsub (fmax fzero (fsub (e_ready e) snap_now)) downtime)).

Lemma require_finite_float f g : require_finite (AFloat f) = Ok g -> g = f /\ isfinite f = true.
Proof. unfold require_finite, to_finite_float. destruct (isfinite f) eqn:E; [|done]. by intros [= <-]. Qed.

Lemma decode_entry_tree snap_now now downtime n e r :
  decode_entry 2 now downtime n (entry_tree snap_now e) = Ok r ->
  recovered_ok r /\ r_ready r = restored_ready snap_now now downtime e
  /\ r_item r = e_item e /\ r_priority r = e_priority e /\ r_order r = n.
Proof.
  unfold decode_entry, entry_tree. change (2 =? 2) with true. cbv iota.
  change (item_of "remaining" _) with (Ok (JFloat (fmax fzero (fsub (e_ready e) snap_now)))).
  change (item_of "item_b64" _) with (Ok (b64_json (e_item e))).
  change (item_of "priority" _) with (Ok (JFloat (e_priority e))).
  cbn [obind arg_of_json]. intros ([rd od] & H1 & Hk)%obind_ok.
  apply obind_ok in H1 as (rem & Hrem & H1). apply require_finite_float in Hrem as [-> Hfin].
  destruct (fltb _ fzero); [done|].
  apply omap_ok in H1 as (r1 & Hr1 & [= -> ->]). apply require_finite_float in Hr1 as [-> Hfin1].
  rewrite b64_of_json_b64 in Hk. cbn [obind] in Hk. cbn [py_float obind] in Hk.
  apply omap_ok in Hk as (p & Hp & ->). apply require_finite_float in Hp as [-> _]. done.
Qed.

Lemma decode_entries_tree snap_now now downtime es n rs :
  decode_entries 2 now downtime n (map (entry_tree snap_now) es) = Ok rs ->
  Forall recovered_ok rs /\
  map (fun r => (r_ready r, r_item r, r_priority r)) rs
  = map (fun e => (restored_ready snap_now now downtime e, e_item e, e_priority e)) es.
Proof.
  revert n rs. induction es as [|e es IH]; intros n rs; cbn [map decode_entries].
  - intros [= <-]. by split.
  - intros (r & Hr & Hk)%obind_ok. apply omap_ok in Hk as (rs' & Hrs & ->).
    apply decode_entry_tree in Hr as (Hok & H1 & H2 & H3 & _). apply IH in Hrs as [Hok' Heq].
    split; [by constructor|]. cbn. congruence.
Qed.

Lemma renumber_payload n rs :
  map (fun e => (e_ready e, e_item e, e_priority e)) (renumber n rs)
  = map (fun r => (r_ready r, r_item r, r_priority r)) rs.
Proof. revert n. induction rs as [|r rs IH]; intros n; cbn; [done|]. by rewrite IH. Qed.

Lemma renumber_length n rs : length (renumber n rs) = length rs.
Proof. revert n. induction rs as [|r rs IH]; intros n; cbn; auto. Qed.

Definition snapshot_tree (now wall : float) (h : list entry) : json :=
  JObj [("version", JInt 2); ("strategy", JStr "delay"); ("snapshot_wall_time", JFloat wall);
        ("items", JList (map (entry_tree now) h))]%string.

Lemma held_tree_wf now wall h : json_wf (snapshot_tree now wall h).
Proof.
  apply json_wf_obj. split; [by apply (bool_decide_unpack _)|].
  constructor; [by vm_compute|]. do 2 (constructor; [done|]). constructor; [|done].
  apply json_wf_list, Forall_forall. intros x (e & -> & _)%list_elem_of_fmap.
  apply json_wf_obj. split; [by apply (bool_decide_unpack _)|]. by repeat constructor.
Qed.

Lemma rebuild_tree snap_now wall h w o w' :
  rebuild (json_dumps (snapshot_tree snap_now wall h)) w = (o, w') ->
  match o with
  | Ok h' => exists now downtime, heap_ok h' /\
      Forall (fun e => 0 <= e_seq e < Z.of_nat (length h')) h' /\
      Permutation (map (fun e => (e_ready e, e_item e, e_priority e)) h')
        (map (fun e => (restored_ready snap_now now downtime e, e_item e, e_priority e)) h)
  | Raise _ => True
  end.
Proof.
  intros Hr. destruct o as [h'|]; [|done]. unfold rebuild in Hr.
  apply bind_ok_inv in Hr as (data & w1 & Hd & Hk).
  apply lift_ok in Hd as [Hd ->]. rewrite json_loads_dumps in Hd by apply held_tree_wf.
  injection Hd as <-. unfold snapshot_tree at 1 in Hk.
  replace (delay_header _) with (Some (2, map (entry_tree snap_now) h)) in Hk by done.
  apply bind_ok_inv in Hk as (cv & w2 & Hc & Hk).
  apply bind_ok_inv in Hk as (now & w3 & Hn & Hk). apply lift_ok in Hn as [_ ->].
  apply bind_ok_inv in Hk as (downtime & w4 & _ & Hk).
  apply bind_ok_inv in Hk as (rs & w5 & Hrs & Hk). apply lift_ok in Hrs as [Hrs ->].
  injection Hk as <- _. apply decode_entries_tree in Hrs as [Hok Hpay].
  assert (Hok' : Forall recovered_ok (sort_by recovered_le rs)).
  { by rewrite sort_by_perm. }
  pose proof (sort_by_sorted recovered_le recovered_ok recovered_le_total recovered_le_trans rs Hok) as Hs.
  destruct (renumber_sorted 0 _ Hok' Hs) as [Hh Hseq].
  exists now, downtime. split; [done|]. split.
  - rewrite renumber_length. eapply Forall_impl; [exact Hseq|]. cbn. lia.
  - by rewrite renumber_payload, sort_by_perm, Hpay.
Qed.

(** Restart round trip: a snapshot that restores brings back every held item
    with its priority, its deadline moved by the remaining delay minus the
    downtime, in a well-formed heap with fresh sequence numbers; a snapshot
    that is rejected leaves the strategy as it was. *)
Theorem held_snapshot_restore s w b s1 w1 s0 w0 o s' w'
    (Hsnap : snapshot (s, w) = (Ok (Some b), (s1, w1)))
    (Hrest : restore (Some b) (s0, w0) = (o, (s', w'))) :
  s1 = s /\
  match o with
  | Ok _ => exists snap_now now downtime, ok s' /\
      Permutation (map (fun e => (e_ready e, e_item e, e_priority e)) (holding s'))
        (map (fun e => (restored_ready snap_now now downtime e, e_item e, e_priority e)) (holding s))
  | Raise e => s' = s0 /\ (is_ordinary e = true -> e = ERestore)
  end.
Proof.
  unfold snapshot in Hsnap. unfold bind at 1, on_fst, get in Hsnap.
  assert (Hb : s1 = s /\ exists now wall, b = json_dumps (snapshot_tree now wall (holding s))).
  { destruct (holding s) as [|e h]; [done|].
    apply bind_ok_inv in Hsnap as (now & [s2 w2] & Hc & Hk).
    apply read_clock_ok in Hc as (-> & _).
    apply bind_ok_inv in Hk as (wv & [s3 w3] & Hw & Hk). apply on_snd_fst in Hw as [-> _].
    apply bind_ok_inv in Hk as (wall & st & Hw & Hk). apply lift_ok in Hw as [_ ->].
    injection Hk as <- <- <-. split; [done|]. by exists now, wall. }
  destruct Hb as [-> (snap_now & wall & ->)]. split; [done|].
  unfold restore in Hrest.
  destruct (rebuild _ w0) as [o1 w2] eqn:Hr. apply rebuild_tree in Hr.
  destruct o1 as [h|e]; cbn [restore_guard] in Hrest; injection Hrest as <- <- <-.
  - destruct Hr as (now & downtime & Hh & Hseq & Hp). exists snap_now, now, downtime.
    split; [|done]. split; [done|]. cbn. eapply Forall_impl; [exact Hseq|]. cbn. lia.
  - split; [done|]. by destruct (is_ordinary e) eqn:E; [|congruence].
Qed.
End Restart.

(** ** Concrete runs *)
Module Examples.
Import MemClock.
Definition two : float := float_of_Z 2.
Definition s0 : self := Self fzero [] 0 10 false None.
Definition held : self :=
  fst (snd ((let! _ := push "q" [x61] (AInt 0) (AInt 1) in push "q" [x62] (AInt 0) (AInt 8)) (s0, (∅, 0)))).

Lemma held_ok : ok held.
Proof.
  split; [split|]; [by repeat constructor|..].
  - assert (E : map (fun x => map (entry_le x) (holding held)) (holding held)
                = [[true; true]; [false; true]]) by by vm_compute.
    destruct (holding held) as [|x [|y [|z l] ] ]; [done..| |done]. injection E as E1 E2 E3 E4.
    constructor; [by repeat constructor|]. by repeat constructor.
  - apply Forall_forall. intros e He.
    assert (Hs : map e_seq (holding held) = [0; 1]) by by vm_compute.
    apply (list_elem_of_fmap_2 e_seq) in He. change (e_seq <$> holding held) with (map e_seq (holding held)) in He.
    rewrite Hs in He. change (seq held) with 2.
    apply elem_of_cons in He as [-> | ->%list_elem_of_singleton]; lia.
Qed.

Definition after_drain := Eval vm_compute in drain_ready "q" (held, (∅ : MemQueue.state, 2)).

Lemma drain_exact_witness :
  map e_item (holding (fst (snd after_drain))) = [[x62]] /\
  (fst (snd after_drain) = held /\ (exists e, fst after_drain = Raise e) \/
   exists moved, holding held = moved ++ holding (fst (snd after_drain))
     /\ ok (fst (snd after_drain))).
Proof.
  split; [by vm_compute|].
  assert (E : drain_ready "q" (held, (∅ : MemQueue.state, 2))
              = (fst after_drain, (fst (snd after_drain), snd (snd after_drain)))) by by vm_compute.
  destruct (drain_exact "q" held (∅, 2) _ _ _ held_ok E)
    as [H|(wc & v & now & w0 & moved & w1 & _ & _ & Hsplit & _ & _ & _ & Hok & _)]; [by left|].
  right. exists moved. split; [exact Hsplit|exact Hok].
Defined.

Definition after_push := Eval vm_compute in push "q" [x63] (AInt 1) (AFloat two) (held, (∅ : MemQueue.state, 2)).

Lemma push_holds_witness :
  exists v now ready, clock_read (∅ : MemQueue.state, 2) = (Ok v, snd (snd after_push))
    /\ require_finite v = Ok now /\ ready = fadd now two /\ isfinite ready = true /\
    holding (fst (snd after_push))
    = insert_by entry_le (Entry ready (seq held) [x63] (float_of_Z 1)) (holding held)
    /\ ok (fst (snd after_push)).
Proof.
  assert (E : push "q" [x63] (AInt 1) (AFloat two) (held, (∅ : MemQueue.state, 2))
              = (Ok tt, (fst (snd after_push), snd (snd after_push)))) by by vm_compute.
  exact (push_holds "q" [x63] (float_of_Z 1) two held (∅, 2) tt _ _ (AFloat two) (AInt 1)
           held_ok eq_refl eq_refl eq_refl E).
Defined.

(** The readings of the ticking clock before the deadline of a pop with a
    timeout of three seconds, started at tick 2. *)
Definition three_seconds := Eval vm_compute in deadline "q" (AInt 3) (s0, (∅ : MemQueue.state, 2)).
Definition before_deadline : list float := map float_of_Z (seqZ 0 7).

Lemma before_deadline_complete (w : env) :
  fltb (time w) (float_of_Z 7) = true -> time w ∈ before_deadline.
Proof.
  destruct w as [b n]. change (time (b, n)) with (at_tick n). unfold at_tick. intros Hlt.
  apply list_elem_of_fmap. exists (Z.max 0 (Z.min 1000 n)). split; [done|].
  apply elem_of_seqZ. split; [lia|].
  destruct (decide (Z.max 0 (Z.min 1000 n) < 7)) as [?|Hge]; [lia|exfalso].
  assert (Hall : forallb (fun k => negb (fltb (float_of_Z k) (float_of_Z 7))) (seqZ 7 994) = true)
    by by vm_compute.
  rewrite forallb_forall in Hall.
  assert (Hin : In (Z.max 0 (Z.min 1000 n)) (seqZ 7 994)) by (apply list_elem_of_In, elem_of_seqZ; lia).
  specialize (Hall _ Hin). by rewrite Hlt in Hall.
Qed.

Lemma pop_terminates_witness :
  ended "q" (float_of_Z 3) (float_of_Z 7) (pop 8 "q" (AInt 3) (s0, (∅ : MemQueue.state, 2)))
  /\ fst (pop 8 "q" (AInt 3) (s0, (∅ : MemQueue.state, 2))) = Ok (Some None).
Proof.
  split; [|by vm_compute].
  assert (E : deadline "q" (AInt 3) (s0, (∅ : MemQueue.state, 2))
              = (Ok (float_of_Z 3, float_of_Z 7), snd three_seconds)) by by vm_compute.
  apply (pop_terminates "q" (AInt 3) s0 (∅, 2) _ _ _ before_deadline 8 E before_deadline_complete).
  by vm_compute; lia.
Defined.

#[local] Instance text : JsonText := PlainText.text.
#[local] Instance text_laws : JsonTextLaws := PlainText.laws.
Definition blob : bytes :=
  match fst (snapshot (held, (∅ : MemQueue.state, 2))) with Ok (Some b) => b | _ => [] end.
Definition after_restore := restore (Some blob) (s0, (∅ : MemQueue.state, 5)).

Lemma held_snapshot_restore_witness :
  map e_item (holding (fst (snd after_restore))) = [[x61]; [x62]] /\ ok (fst (snd after_restore)).
Proof.
  split; [by vm_compute|].
  assert (E1 : snapshot (held, (∅ : MemQueue.state, 2)) = (Ok (Some blob), (held, (∅, 3)))) by by vm_compute.
  assert (E2 : restore (Some blob) (s0, (∅ : MemQueue.state, 5))
               = (Ok tt, (fst (snd after_restore), snd (snd after_restore)))) by by vm_compute.
  destruct (held_snapshot_restore _ _ _ _ _ _ _ _ _ _ E1 E2) as [_ (a & b & c & Hok & _)].
  exact Hok.
Defined.
End Examples.
End Delay.
