(* ===== verification/TimeWheel.v ===== *)
(** * The time-wheel strategy

    queue/strategies/time_wheel.py: a hashed timing wheel (parallel deques of
    entries and sequence numbers, a derived minimum per slot) with an overflow
    heap.  The interruptions the code rolls back (a process-control signal
    between two container updates) are not modelled; a raising backend is. *)

From S2P Require Export Clock.

Module TimeWheel.
Definition DEFAULT_WHEEL_SIZE : Z := 60.
Definition DEFAULT_TICKS_PER_SECOND : float := float_of_Z 1.
Definition MAX_WHEEL_SIZE : Z := 100000.

(** A wheel entry [(ready_at, item, priority)]. *)
Abbreviation wheel_entry := (float * bytes * float)%type.

Record self := Self {
  wheel_size : Z;
  ticks_per_second : float;
  wheel_duration : float;
  default_delay : float;
  wheel : list (list wheel_entry);
  wheel_sequences : list (list Z);
  slot_min_deadlines : list (option float);
  overflow : list entry;
  seq : Z;
  last_tick : Z;
  bound : option string
}.

Definition with_state (s : self) w q m o n t :=
  Self (wheel_size s) (ticks_per_second s) (wheel_duration s) (default_delay s)
    w q m o n t (bound s).
Definition with_bound (s : self) b :=
  Self (wheel_size s) (ticks_per_second s) (wheel_duration s) (default_delay s)
    (wheel s) (wheel_sequences s) (slot_min_deadlines s) (overflow s) (seq s) (last_tick s) b.

Definition bind_queue (queue_name : string) : M self unit := fun s =>
  let '(o, b) := bind_single_queue queue_name (bound s) in (o, with_bound s b).

(** [_tick_at]. *)
Definition tick_at (tps timestamp : float) : outcome Z :=
  let scaled := fmul timestamp tps in
  if isfinite scaled then Ok (ffloor scaled) else Raise EValue.

(** The tick at which a wheel entry is released, and [_slot_at]. *)
Definition release_tick (tps ready_at : float) : Z := fceil (fmul ready_at tps).
Definition slot_at (s : self) (ready_at : float) : outcome Z :=
  if isfinite (fmul ready_at (ticks_per_second s))
  then Ok (release_tick (ticks_per_second s) ready_at mod wheel_size s)
  else Raise EValue.

(** The running minimum of a slot: Python's [min] and the update on append. *)
Definition min_step (current : option float) (ready_at : float) : option float :=
  match current with
  | None => Some ready_at
  | Some m => if fltb ready_at m then Some ready_at else Some m
  end.
Definition slot_minimum (dq : list wheel_entry) : option float :=
  fold_left (fun m e => min_step m (fst (fst e))) dq None.

Definition slot_nat (slot : Z) : nat := Z.to_nat slot.
Definition dq_at {A} (l : list (list A)) (slot : Z) : list A :=
  match l !! slot_nat slot with Some dq => dq | None => [] end.

(** [_append_wheel_entry]. *)
Definition append_wheel_entry (slot : Z) (e : wheel_entry) (s : self) : self :=
  with_state s
    (<[slot_nat slot := dq_at (wheel s) slot ++ [e]]> (wheel s))
    (<[slot_nat slot := dq_at (wheel_sequences s) slot ++ [seq s]]> (wheel_sequences s))
    (alter (fun m => min_step m (fst (fst e))) (slot_nat slot) (slot_min_deadlines s))
    (overflow s) (seq s + 1) (last_tick s).

(** [_recompute_slot_min_deadline]. *)
Definition recompute_slot_min_deadline (slot : Z) (s : self) : self :=
  with_state s (wheel s) (wheel_sequences s)
    (<[slot_nat slot := slot_minimum (dq_at (wheel s) slot)]> (slot_min_deadlines s))
    (overflow s) (seq s) (last_tick s).

Section TimeWheel.
Context {W : Type} `{QueueBackend W, Clock W}.

(** [_clock_now]. *)
Definition clock_now : M (self * W) float :=
  let! v := on_snd clock_read in lift (finite_number v).

(** [__init__]. *)
Definition init (size tps delay : pyarg) : M W self :=
  match size with
  | AInt n =>
      if (n <? 1) || (MAX_WHEEL_SIZE <? n) then raise EValue
      else
        let! t := lift (finite_number tps) in
        if fleb t fzero then raise EValue
        else
          let! d := lift (finite_number delay) in
          if fltb d fzero then raise EValue
          else
            let duration := fdiv (float_of_Z n) t in
            if negb (isfinite duration) then raise EValue
            else
              let! v := clock_read in
              let! now := lift (finite_number v) in
              let! tick := lift (tick_at t now) in
              ret (Self n t duration d (repeat [] (Z.to_nat n)) (repeat [] (Z.to_nat n))
                     (repeat None (Z.to_nat n)) [] 0 tick None)
  | _ => raise EValue
  end.

(** The locked part of a delayed push. *)
Definition hold (item : bytes) (effective priority : float) : M (self * W) unit :=
  let! now := clock_now in
  let ready_at := fadd now effective in
  if negb (isfinite ready_at) then raise EValue
  else
    let! s := on_fst get in
    if fleb effective (wheel_duration s) then
      let! slot := lift (slot_at s ready_at) in
      on_fst (modify (append_wheel_entry slot (ready_at, item, priority)))
    else
      on_fst (modify (fun s =>
        with_state s (wheel s) (wheel_sequences s) (slot_min_deadlines s)
          (insert_by entry_le (Entry ready_at (seq s) item priority) (overflow s))
          (seq s + 1) (last_tick s))).

(** [push]. *)
Definition push (queue_name : string) (item : bytes) (priority delay : pyarg)
    : M (self * W) unit :=
  let! p := lift (finite_number priority) in
  let! d := lift (finite_number delay) in
  if fltb d fzero then raise EValue
  else
    let! _ := on_fst (bind_queue queue_name) in
    let! s := on_fst get in
    let effective := if fltb fzero d then d else default_delay s in
    if fleb effective fzero then
      let! _ := on_snd get_queue_backend in on_snd (qb_push queue_name item p)
    else hold item effective p.

(** [is_push_durable]. *)
Definition is_push_durable (s : self) (delay : float) : bool :=
  fleb (if fltb fzero delay then delay else default_delay s) fzero.

(** [_prepare_push]. *)
Definition prepare_push (queue_name : string) (priority delay : pyarg)
    : M (self * W) (prepared_push (self * W)) :=
  let! _ := on_fst (bind_queue queue_name) in
  let! use_delay := lift (arg_positive delay) in
  let! s := on_fst get in
  let validated {A} (k : float -> float -> M (self * W) A) : M (self * W) A :=
    let! p := lift (finite_number priority) in
    let! d := lift (finite_number delay) in
    if fltb d fzero then raise EValue else k d p in
  if negb use_delay && fleb (default_delay s) fzero then
    ret (PreparedPush true (fun item require_durable =>
      validated (fun _ p => on_snd (push_backend_prepared queue_name item p require_durable))))
  else
    ret (local_prepared (fun item =>
      validated (fun d p => hold item (if use_delay : bool then d else default_delay s) p))).

(** *** The drain *)

(** A candidate [(ready_at, sequence, source, slot, item, priority)]; the slot
    is None for the overflow heap. *)
Record candidate := Candidate { c_entry : entry; c_slot : option Z }.

Definition candidate_le (x y : candidate) : bool := entry_le (c_entry x) (c_entry y).

Definition mk_entry (e : wheel_entry) (sequence : Z) : entry :=
  let '(ready_at, item, priority) := e in Entry ready_at sequence item priority.

(** The entries of one slot with their sequence numbers. *)
Definition slot_entries (s : self) (slot : Z) : list entry :=
  zip_with mk_entry (dq_at (wheel s) slot) (dq_at (wheel_sequences s) slot).

(** The scanned slots: everything between the last tick and now, at most one
    full rotation.  (A set in the code; its order does not matter, the
    candidates are sorted.) *)
Definition slots_to_scan (s : self) (now_tick : Z) : list Z :=
  let span := Z.max 0 (Z.min (now_tick - last_tick s) (wheel_size s)) in
  map (fun offset => (last_tick s + 1 + offset) mod wheel_size s) (seqZ 0 span).

Definition due (now : float) (e : entry) : bool := fleb (e_ready e) now.

Definition scan_slot (s : self) (now : float) (slot : Z) : list candidate :=
  map (fun e => Candidate e (Some slot)) (List.filter (due now) (slot_entries s slot)).

(** [wheel_origin]: the index of every scanned entry in its slot. *)
Fixpoint index_origins (slot : Z) (i : nat) (es : list entry) (m : gmap (Z * Z) nat)
    : gmap (Z * Z) nat :=
  match es with
  | [] => m
  | e :: es' => index_origins slot (S i) es' (<[(slot, e_seq e) := i]> m)
  end.

Definition wheel_origins (s : self) (slots : list Z) : gmap (Z * Z) nat :=
  fold_left (fun m slot => index_origins slot 0 (slot_entries s slot) m) slots ∅.

Definition candidates (s : self) (now : float) (slots : list Z) : list candidate :=
  sort_by candidate_le
    (concat (map (scan_slot s now) slots)
     ++ map (fun e => Candidate e None) (List.filter (due now) (overflow s))).

(** [bisect.bisect_left] on a sorted list, and the insertion at that place. *)
Fixpoint bisect_left (l : list nat) (x : nat) : nat :=
  match l with
  | [] => 0
  | y :: l' => if (y <? x)%nat then S (bisect_left l' x) else 0
  end%nat.
Definition bisect_insert (l : list nat) (x : nat) : list nat :=
  take (bisect_left l x) l ++ x :: drop (bisect_left l x) l.

Definition delete_wheel_entry (slot : Z) (i : nat) (s : self) : self :=
  with_state s
    (<[slot_nat slot := delete i (dq_at (wheel s) slot)]> (wheel s))
    (<[slot_nat slot := delete i (dq_at (wheel_sequences s) slot)]> (wheel_sequences s))
    (slot_min_deadlines s) (overflow s) (seq s) (last_tick s).

(** Tuple equality of two overflow entries. *)
Definition entry_eqb (x y : entry) : bool :=
  feqb (e_ready x) (e_ready y) && (e_seq x =? e_seq y)
  && bool_decide (e_item x = e_item y) && feqb (e_priority x) (e_priority y).

Fixpoint index_of (e : entry) (l : list entry) : option nat :=
  match l with
  | [] => None
  | x :: l' => if entry_eqb x e then Some O else option_map S (index_of e l')
  end.

Definition delete_overflow (i : nat) (s : self) : self :=
  with_state s (wheel s) (wheel_sequences s) (slot_min_deadlines s)
    (delete i (overflow s)) (seq s) (last_tick s).

(** The transfer loop of [_drain_ready]: each candidate stays in its container
    until its backend push returned. *)
Fixpoint commit_candidates (queue_name : string) (origins : gmap (Z * Z) nat)
    (removed : gmap Z (list nat)) (cs : list candidate) : M (self * W) unit :=
  match cs with
  | [] => ret tt
  | c :: cs' =>
      let e := c_entry c in
      match c_slot c with
      | Some slot =>
          match origins !! (slot, e_seq e) with
          | None => commit_candidates queue_name origins removed cs'
          | Some origin =>
              let recorded := match removed !! slot with Some r => r | None => [] end in
              let entry_index := (origin - bisect_left recorded origin)%nat in
              fun '(s, w) =>
                if bool_decide (dq_at (wheel_sequences s) slot !! entry_index = Some (e_seq e)) then
                  match qb_push queue_name (e_item e) (e_priority e) w with
                  | (Ok _, w') =>
                      commit_candidates queue_name origins
                        (<[slot := bisect_insert recorded origin]> removed) cs'
                        (recompute_slot_min_deadline slot
                           (delete_wheel_entry slot entry_index s), w')
                  | (Raise x, w') => (Raise x, (recompute_slot_min_deadline slot s, w'))
                  end
                else commit_candidates queue_name origins removed cs' (s, w)
          end
      | None =>
          fun '(s, w) =>
            let root := match overflow s with x :: _ => entry_eqb x e | [] => false end in
            match (if root then Some O else index_of e (overflow s)) with
            | None => commit_candidates queue_name origins removed cs' (s, w)
            | Some i =>
                match qb_push queue_name (e_item e) (e_priority e) w with
                | (Ok _, w') =>
                    commit_candidates queue_name origins removed cs' (delete_overflow i s, w')
                | (Raise x, w') => (Raise x, (s, w'))
                end
            end
      end
  end.

(** [_drain_ready]. *)
Definition drain_ready (queue_name : string) : M (self * W) unit :=
  let! _ := on_snd get_queue_backend in
  let! now := clock_now in
  let! s := on_fst get in
  let! now_tick := lift (tick_at (ticks_per_second s) now) in
  let slots := slots_to_scan s now_tick in
  let! _ := commit_candidates queue_name (wheel_origins s slots) ∅ (candidates s now slots) in
  on_fst (modify (fun s =>
    with_state s (wheel s) (wheel_sequences s) (slot_min_deadlines s) (overflow s) (seq s)
      now_tick)).

(** [_wheel_release_at]: a true division of the tick by the rate. *)
Definition wheel_release_at (s : self) (ready_at : float) : float :=
  fdiv (float_of_Z (release_tick (ticks_per_second s) ready_at)) (ticks_per_second s).

(** [_next_release_at]. *)
Definition next_release_at (s : self) : option float :=
  fold_left (fun next m =>
    match m with
    | None => next
    | Some ready_at =>
        let release_at := wheel_release_at s ready_at in
        match next with
        | None => Some release_at
        | Some n => if fltb release_at n then Some release_at else Some n
        end
    end) (slot_min_deadlines s) (head (map e_ready (overflow s))).

Section Loop.
Context {A : Type} (backend_pop : float -> M W A) (has_item : A -> bool) (empty : A).

(** [_pop_until_deadline], with fuel for the [while True]; None is out of fuel. *)
Fixpoint pop_loop (fuel : nat) (queue_name : string) (timeout : float)
    (deadline : option float) : M (self * W) (option A) :=
  match fuel with
  | O => ret None
  | S fuel' =>
      let! _ := drain_ready queue_name in
      let! before := clock_now in
      let dl := match deadline with Some d => d | None => fadd before timeout end in
      let remaining := fmax fzero (fsub dl before) in
      let! s := on_fst get in
      let wait := match next_release_at s with
                  | Some r => fmin remaining (fmax fzero (fsub r before))
                  | None => remaining
                  end in
      let! result := on_snd (backend_pop wait) in
      if has_item result then ret (Some result)
      else
        let! after := clock_now in
        if feqb timeout fzero || fleb dl after || fleb after before
        then ret (Some empty)
        else pop_loop fuel' queue_name timeout (Some dl)
  end.
End Loop.

(** [pop]. *)
Definition pop (fuel : nat) (queue_name : string) (timeout : pyarg)
    : M (self * W) (option (option bytes)) :=
  let! t := lift (normalize_queue_timeout timeout) in
  let! _ := on_fst (bind_queue queue_name) in
  pop_loop (fun wait => let! _ := get_queue_backend in qb_pop queue_name wait)
    (fun r => bool_decide (is_Some r)) None fuel queue_name t None.

(** [pop_with_ack]. *)
Definition pop_with_ack (fuel : nat) (queue_name : string) (timeout : pyarg)
    : M (self * W) (option (option bytes * option ack_token)) :=
  let! t := lift (normalize_queue_timeout timeout) in
  let! _ := on_fst (bind_queue queue_name) in
  pop_loop (pop_backend_with_ack queue_name)
    (fun r => bool_decide (is_Some (fst r)) || bool_decide (is_Some (snd r)))
    (None, None) fuel queue_name t None.

Definition held_wheel (s : self) : nat := sum_list_with length (wheel s).

(** [queue_len]. *)
Definition queue_len (queue_name : string) : M (self * W) Z :=
  let! _ := on_fst (bind_queue queue_name) in
  let! _ := on_snd get_queue_backend in
  let! live := on_snd (qb_queue_len queue_name) in
  let! s := on_fst get in
  ret (live + Z.of_nat (held_wheel s) + Z.of_nat (length (overflow s))).

Definition emptied (s : self) : self :=
  with_state s (repeat [] (Z.to_nat (wheel_size s))) (repeat [] (Z.to_nat (wheel_size s)))
    (repeat None (Z.to_nat (wheel_size s))) [] (seq s) (last_tick s).

(** [clear]. *)
Definition clear (queue_name : string) : M (self * W) unit :=
  let! _ := on_fst (bind_queue queue_name) in
  let! _ := on_snd get_queue_backend in
  let! _ := on_snd (qb_clear_queue queue_name) in
  on_fst (modify emptied).

(** [close]. *)
Definition close : M (self * W) unit := on_fst (modify emptied).

(** *** Snapshot and restore *)
Context `{JsonText}.

Definition entry_tree (now : float) (e : entry) : json :=
  JObj [("remaining", JFloat (fmax fzero (fsub (e_ready e) now)));
        ("deadline", JFloat (fsub (e_ready e) now));
        ("item_b64", b64_json (e_item e));
        ("priority", JFloat (e_priority e));
        ("sequence", JInt (e_seq e))]%string.

Definition wheel_entries (s : self) : list entry :=
  concat (zip_with (zip_with mk_entry) (wheel s) (wheel_sequences s)).

Definition snapshot_tree (s : self) (now : float) (wall : json) : json :=
  JObj [("version", JInt 2); ("strategy", JStr "time_wheel");
        ("snapshot_wall_time", wall); ("wheel_size", JInt (wheel_size s));
        ("slots_flat", JList (map (entry_tree now) (wheel_entries s)));
        ("overflow", JList (map (entry_tree now) (overflow s)))]%string.

(** [math.isfinite] on the wall reading, which is written as it was read. *)
Definition wall_json (v : pyarg) : outcome json :=
  match v with
  | ABool b => Ok (JBool b)
  | AInt z => if isfinite (float_of_Z z) then Ok (JInt z) else Raise EOverflow
  | AFloat f => if isfinite f then Ok (JFloat f) else Raise EValue
  | AOther => Raise EType
  end.

(** [snapshot]. *)
Definition snapshot : M (self * W) (option bytes) :=
  let! s := on_fst get in
  if (held_wheel s =? 0)%nat && bool_decide (overflow s = []) then ret None
  else
    let! now := clock_now in
    let! wv := on_snd wall_clock_read in
    let! wall := lift (wall_json wv) in
    ret (Some (json_dumps (snapshot_tree s now wall))).

Record staged := Staged {
  st_ready : float; st_deadline : float; st_order : Z; st_sequence : option Z;
  st_item : bytes; st_priority : float
}.

(** The sort key [(original deadline, has no sequence, sequence or order)]. *)
Definition staged_le (x y : staged) : bool :=
  let rank st := match st_sequence st with Some q => (0, q) | None => (1, st_order st) end in
  fltb (st_deadline x) (st_deadline y)
  || (feqb (st_deadline x) (st_deadline y)
      && ((fst (rank x) <? fst (rank y))
          || ((fst (rank x) =? fst (rank y)) && (snd (rank x) <=? snd (rank y))))).

(** [restored_timing]. *)
Definition restored_timing (version : Z) (now downtime : float) (o : list (string * json))
    : outcome (float * float) :=
  if version =? 1 then
    obind (match assoc_get "ready_at" o with Some j => py_float j | None => Ok now end) (fun old =>
    if isfinite old then Ok (now, old) else Raise EValue)
  else
    obind (item_of "remaining" o) (fun r =>
    obind (finite_number (arg_of_json r)) (fun remaining =>
    if fltb remaining fzero then Raise EValue
    else
      obind (match assoc_get "deadline" o with
             | Some j => finite_number (arg_of_json j)
             | None => finite_number (AFloat remaining)
             end) (fun deadline =>
      let ready_at := fadd now (fmax fzero (fsub deadline downtime)) in
      if isfinite ready_at then Ok (ready_at, deadline) else Raise EValue))).

Fixpoint stage (version : Z) (now downtime : float) (n : Z) (seen : list Z) (js : list json)
    : outcome (list staged) :=
  match js with
  | [] => Ok []
  | JObj o :: js' =>
      obind (restored_timing version now downtime o) (fun '(ready_at, original_deadline) =>
      obind (item_of "item_b64" o) (fun b =>
      obind (b64_of_json b) (fun item =>
      obind (item_of "priority" o) (fun p =>
      obind (py_float p) (fun priority =>
      if negb (isfinite priority) then Raise EValue
      else
        obind (match assoc_get "sequence" o with
               | None | Some JNull => Ok None
               | Some (JInt q) =>
                   if (q <? 0) || bool_decide (q ∈ seen) then Raise EValue else Ok (Some q)
               | Some _ => Raise EValue
               end) (fun sequence =>
        omap (cons (Staged ready_at original_deadline n sequence item priority))
          (stage version now downtime (n + 1)
             (match sequence with Some q => q :: seen | None => seen end) js')))))))
  | _ :: _ => Raise EValue
  end.

(** The rebuilding loop: entries go to the wheel when they are due within one
    rotation, to the overflow heap otherwise. *)
Fixpoint place (now : float) (sts : list staged) (s : self) : outcome self :=
  match sts with
  | [] => Ok s
  | st :: sts' =>
      if fltb now (st_ready st) && fleb (fsub (st_ready st) now) (wheel_duration s) then
        obind (slot_at s (st_ready st)) (fun slot =>
        place now sts'
          (append_wheel_entry slot (st_ready st, st_item st, st_priority st) s))
      else
        place now sts'
          (with_state s (wheel s) (wheel_sequences s) (slot_min_deadlines s)
             (insert_by entry_le (Entry (st_ready st) (seq s) (st_item st) (st_priority st))
                (overflow s))
             (seq s + 1) (last_tick s))
  end.

Definition wheel_header (o : list (string * json)) : option (Z * list json * list json) :=
  match assoc_get "strategy" o, assoc_get "version" o,
        assoc_get "slots_flat" o, assoc_get "overflow" o with
  | Some (JStr n), Some (JInt v), Some (JList slots), Some (JList over) =>
      if bool_decide (n = "time_wheel"%string) && ((v =? 1) || (v =? 2))
      then Some (v, slots, over) else None
  | _, _, _, _ => None
  end.

(** [float(self._wall_clock())]. *)
Definition wall_float (v : pyarg) : outcome float :=
  match v with
  | ABool b => py_float (JBool b)
  | AInt z => py_float (JInt z)
  | AFloat f => Ok f
  | AOther => Raise EType
  end.

(** The guarded body of [restore]: the state to publish. *)
Definition rebuild (state : bytes) (s : self) : M W self :=
  let! data := lift (json_loads state) in
  match data with
  | JObj o =>
      match wheel_header o with
      | Some (version, slots_flat, over) =>
          let! cv := clock_read in
          let! now := lift (finite_number cv) in
          let! downtime :=
            (if version =? 2 then
               let! j := lift (item_of "snapshot_wall_time" o) in
               let! snapshot_wall_time := lift (py_float j) in
               let! wv := wall_clock_read in
               let! current := lift (wall_float wv) in
               if isfinite snapshot_wall_time && isfinite current
               then ret (fmax fzero (fsub current snapshot_wall_time))
               else raise EValue
             else ret fzero) in
          let! sts := lift (stage version now downtime 0 [] (slots_flat ++ over)) in
          let empty := with_state s (repeat [] (Z.to_nat (wheel_size s)))
                         (repeat [] (Z.to_nat (wheel_size s)))
                         (repeat None (Z.to_nat (wheel_size s))) [] 0 (last_tick s) in
          let! s1 := lift (place now (sort_by staged_le sts) empty) in
          let! tick := lift (tick_at (ticks_per_second s) now) in
          ret (with_state s1 (wheel s1) (wheel_sequences s1) (slot_min_deadlines s1)
                 (overflow s1) (seq s1) tick)
      | None => raise EValue
      end
  | _ => raise EValue
  end.

(** [restore]. *)
Definition restore (state : option bytes) : M (self * W) unit := fun '(s, w) =>
  match state with
  | None => (Ok tt, (s, w))
  | Some b =>
      let '(o, w') := rebuild b s w in
      match restore_guard o with
      | Ok s' => (Ok tt, (s', w'))
      | Raise e => (Raise e, (s, w'))
      end
  end.
End TimeWheel.
End TimeWheel.
