(* ===== verification/TimeWheelFacts.v ===== *)
(** * The time wheel: invariant and drain

    The representation invariant of queue/strategies/time_wheel.py (parallel
    deques in lockstep, derived minima, distinct sequence numbers, entries in
    the slot of their release tick) and what [_drain_ready] does: the index
    correction that lets it delete entries while iterating is right, and it
    moves exactly the due entries in deadline order. *)

From S2P Require Export TimeWheel.

(** ** Index correction

    [surv R 0 l] is what is left of [l] after the elements at the original
    indexes [R] were deleted. *)
Fixpoint surv {A} (R : list nat) (i : nat) (l : list A) : list A :=
  match l with
  | [] => []
  | x :: l' => if bool_decide (i ∈ R) then surv R (S i) l' else x :: surv R (S i) l'
  end.

(** How many deleted indexes lie in [lo, hi). *)
Definition rank (R : list nat) (lo hi : nat) : nat :=
  length (filter (fun r => lo <= r < hi)%nat R).

Lemma rank_cons r R lo hi :
  rank (r :: R) lo hi = ((if decide (lo <= r < hi)%nat then 1 else 0) + rank R lo hi)%nat.
Proof. unfold rank. rewrite filter_cons. by case_decide. Qed.

Lemma rank_split R lo hi : NoDup R -> (lo < hi)%nat ->
  rank R lo hi = ((if decide (lo ∈ R) then 1 else 0) + rank R (S lo) hi)%nat.
Proof.
  intros Hn Hlt. induction R as [|r R IH]; [done|].
  apply NoDup_cons in Hn as [Hr Hn]. rewrite !rank_cons, IH by done.
  destruct (decide (r = lo)) as [->|Hne].
  - rewrite (decide_False (P := lo ∈ R)) by done.
    rewrite (decide_True (P := lo ∈ lo :: R)) by left.
    rewrite (decide_True (P := (lo <= lo < hi)%nat)) by lia.
    rewrite (decide_False (P := (S lo <= lo < hi)%nat)) by lia. lia.
  - assert (Hiff : lo ∈ r :: R <-> lo ∈ R) by (rewrite elem_of_cons; split; [intros [?|?]; congruence|auto]).
    destruct (decide (lo ∈ R)); [rewrite (decide_True (P := lo ∈ r :: R)) by tauto
                                |rewrite (decide_False (P := lo ∈ r :: R)) by tauto];
      repeat case_decide; lia.
Qed.

Lemma rank_le R lo k : NoDup R -> (rank R lo (lo + k) <= k)%nat.
Proof.
  intros Hn. revert lo. induction k as [|k IH]; intros lo.
  - unfold rank. rewrite Nat.add_0_r.
    assert (filter (fun r => lo <= r < lo)%nat R = []) as ->; [|done].
    clear Hn. induction R as [|r R IH]; [done|]. rewrite filter_cons_False by lia. done.
  - rewrite rank_split by (done || lia). specialize (IH (S lo)).
    replace (lo + S k)%nat with (S lo + k)%nat by lia. case_decide; lia.
Qed.

(** The element at an index not deleted so far is found at the corrected
    index, and deleting it there is deleting its original index. *)
Lemma surv_lookup {A} (R : list nat) i (l : list A) k x :
  NoDup R -> l !! k = Some x -> (i + k)%nat ∉ R ->
  surv R i l !! (k - rank R i (i + k))%nat = Some x /\
  delete (k - rank R i (i + k))%nat (surv R i l) = surv ((i + k)%nat :: R) i l.
Proof.
  intros Hn. revert i k. induction l as [|y l IH]; intros i k Hl Hk; [done|].
  cbn [surv]. destruct k as [|k].
  - rewrite Nat.add_0_r in *. injection Hl as ->.
    rewrite (bool_decide_false (i ∈ R)) by done. cbn. split; [done|].
    rewrite bool_decide_true by left.
    assert (Hext : forall (l : list A) j, (i < j)%nat -> surv R j l = surv (i :: R) j l).
    { clear. induction l as [|y l IH]; intros j Hj; cbn; [done|].
      assert (Hiff : j ∈ i :: R <-> j ∈ R) by (rewrite elem_of_cons; split; [intros [?|?]; [lia|done]|auto]).
      rewrite (bool_decide_ext _ _ Hiff). rewrite IH by lia. done. }
    by rewrite Hext by lia.
  - rewrite Nat.add_succ_r in *.
    destruct (IH (S i) k Hl Hk) as [H1 H2]. cbn [Nat.add] in H1, H2.
    rewrite (rank_split R i) by (done || lia).
    assert (Hiff : i ∈ S (i + k) :: R <-> i ∈ R)
      by (rewrite elem_of_cons; split; [intros [?|?]; [lia|done]|auto]).
    rewrite (bool_decide_ext _ _ Hiff).
    case_bool_decide as Hi; [rewrite decide_True by done|rewrite decide_False by done].
    + cbn [Nat.add Nat.sub]. by split.
    + pose proof (rank_le R (S i) k Hn) as Hrk. cbn [Nat.add] in Hrk.
      replace (S k - (0 + rank R (S i) (S (i + k))))%nat
        with (S (k - rank R (S i) (S (i + k))))%nat by lia.
      cbn [lookup list_lookup delete list_delete]. split; [exact H1|]. by rewrite <- H2.
Qed.

Lemma surv_ext {A} R R' i (l : list A) :
  (forall r, r ∈ R <-> r ∈ R') -> surv R i l = surv R' i l.
Proof.
  intros H. revert i. induction l as [|x l IH]; intros i; cbn; [done|].
  rewrite (bool_decide_ext _ _ (H i)), IH. done.
Qed.

Lemma surv_nil {A} i (l : list A) : surv [] i l = l.
Proof. revert i. induction l as [|x l IH]; intros i; cbn; [done|]. by rewrite IH. Qed.

(** [bisect_left] counts the smaller elements of a sorted list. *)
Lemma bisect_left_rank R x :
  StronglySorted lt R -> TimeWheel.bisect_left R x = rank R 0 x.
Proof.
  induction 1 as [|r R Hs IH Hall]; [done|]. cbn [TimeWheel.bisect_left]. rewrite rank_cons.
  destruct (Nat.ltb_spec r x).
  - rewrite decide_True by lia. by rewrite IH.
  - rewrite decide_False by lia.
    assert (rank R 0 x = 0%nat) as ->; [|done]. unfold rank.
    clear IH Hs. induction Hall as [|y R Hy _ IH]; [done|].
    rewrite filter_cons_False by lia. exact IH.
Qed.

Lemma bisect_insert_elem R x r : r ∈ TimeWheel.bisect_insert R x <-> r = x \/ r ∈ R.
Proof.
  unfold TimeWheel.bisect_insert. set (k := TimeWheel.bisect_left R x).
  assert (Hsplit : r ∈ R <-> r ∈ take k R \/ r ∈ drop k R)
    by (by rewrite <- elem_of_app, take_drop).
  rewrite elem_of_app, elem_of_cons, Hsplit. tauto.
Qed.

Lemma bisect_insert_sorted R x :
  StronglySorted lt R -> x ∉ R -> StronglySorted lt (TimeWheel.bisect_insert R x).
Proof.
  unfold TimeWheel.bisect_insert.
  induction 1 as [|r R Hs IH Hall]; intros Hx;
    cbn [TimeWheel.bisect_left]; [by repeat constructor|].
  destruct (Nat.ltb_spec r x) as [Hlt|Hge]; cbn [take drop app].
  - constructor; [apply IH; intros ?; apply Hx; by right|].
    rewrite Forall_forall in Hall |- *. intros y Hy.
    apply (bisect_insert_elem R x y) in Hy as [->|Hy]; auto.
  - assert (x < r)%nat by (destruct (decide (x = r)) as [->|]; [exfalso; apply Hx; left|lia]).
    constructor; [by constructor|]. constructor; [done|].
    eapply Forall_impl; [exact Hall|]. cbn. lia.
Qed.

Lemma sorted_lt_NoDup R : StronglySorted lt R -> NoDup R.
Proof.
  induction 1 as [|r R Hs IH Hall]; constructor; [|done].
  rewrite Forall_forall in Hall. intros Hr. specialize (Hall _ Hr). lia.
Qed.

Module TimeWheelFacts.
Import TimeWheel.

(** ** The representation invariant *)

(** The wheel with its sequence numbers, slot by slot. *)
Definition grid (s : self) : list (list entry) :=
  zip_with (zip_with mk_entry) (wheel s) (wheel_sequences s).

Definition held (s : self) : list entry := wheel_entries s ++ overflow s.

(** Held entries have finite deadlines and priorities. *)
Definition fine (e : entry) : Prop := entry_ok e /\ isfinite (e_priority e) = true.

Record wf (s : self) : Prop := {
  wf_size : 1 <= wheel_size s;
  wf_wheel : length (wheel s) = Z.to_nat (wheel_size s);
  wf_lockstep : Forall2 (fun dq q => length dq = length q) (wheel s) (wheel_sequences s);
  wf_minima : slot_min_deadlines s = map slot_minimum (wheel s);
  wf_heap : heap_ok (overflow s);
  wf_fresh : Forall (fun e => fine e /\ e_seq e < seq s) (held s);
  wf_nodup : NoDup (map e_seq (held s));
  wf_place : forall i es e, grid s !! i = Some es -> e ∈ es ->
    Z.of_nat i = release_tick (ticks_per_second s) (e_ready e) mod wheel_size s
}.

Definition same_config (s s' : self) : Prop :=
  wheel_size s' = wheel_size s /\ ticks_per_second s' = ticks_per_second s
  /\ wheel_duration s' = wheel_duration s.

Lemma slot_range s slot : 1 <= wheel_size s -> 0 <= slot mod wheel_size s < wheel_size s.
Proof. intros. apply Z.mod_pos_bound. lia. Qed.

Lemma wf_slot s slot :
  wf s -> 0 <= slot < wheel_size s ->
  exists dq q, wheel s !! slot_nat slot = Some dq /\ wheel_sequences s !! slot_nat slot = Some q
    /\ length dq = length q /\ dq_at (wheel s) slot = dq /\ dq_at (wheel_sequences s) slot = q
    /\ slot_entries s slot = zip_with mk_entry dq q
    /\ grid s !! slot_nat slot = Some (slot_entries s slot).
Proof.
  intros Hwf Hs. unfold slot_nat.
  destruct (lookup_lt_is_Some_2 (wheel s) (Z.to_nat slot)) as [dq Hdq].
  { rewrite (wf_wheel s Hwf). lia. }
  destruct (Forall2_lookup_l _ _ _ _ _ (wf_lockstep s Hwf) Hdq) as (q & Hq & Hlen).
  exists dq, q. unfold slot_entries, dq_at, slot_nat, grid.
  rewrite Hdq, Hq, lookup_zip_with, Hdq, Hq. done.
Qed.

Lemma zip_with_snoc {A B C} (f : A -> B -> C) l k x y :
  length l = length k -> zip_with f (l ++ [x]) (k ++ [y]) = zip_with f l k ++ [f x y].
Proof. intros. by rewrite zip_with_app. Qed.

Lemma zip_with_delete {A B C} (f : A -> B -> C) l k i :
  zip_with f (delete i l) (delete i k) = delete i (zip_with f l k).
Proof.
  revert k i. induction l as [|x l IH]; intros [|y k] [|i]; cbn; try done.
  - by destruct l.
  - by rewrite IH.
Qed.

Lemma length_delete_eq {A B} (l : list A) (k : list B) i :
  length l = length k -> length (delete i l) = length (delete i k).
Proof.
  revert k i. induction l as [|x l IH]; intros [|y k] [|i]; cbn; intros [=]; auto.
Qed.

Lemma concat_insert_perm {A} (ls : list (list A)) i x y z :
  ls !! i = Some x -> Permutation y (z :: x) ->
  Permutation (concat (<[i := y]> ls)) (z :: concat ls).
Proof.
  revert i. induction ls as [|l ls IH]; intros [|i] Hi Hp; cbn in *; [done|done| |].
  - injection Hi as ->. by rewrite Hp.
  - rewrite (IH i Hi Hp). by rewrite Permutation_middle.
Qed.

Lemma Forall2_insert_len {A B} (l : list (list A)) (k : list (list B)) i x y :
  Forall2 (fun dq q => length dq = length q) l k -> length x = length y ->
  Forall2 (fun dq q => length dq = length q) (<[i := x]> l) (<[i := y]> k).
Proof. intros. by apply Forall2_insert. Qed.

(** Only the wheel containers change: the invariant of the rest follows from
    the multiset of held entries. *)
Lemma wf_from s s' e :
  wf s -> same_config s s' ->
  length (wheel s') = length (wheel s) ->
  Forall2 (fun dq q => length dq = length q) (wheel s') (wheel_sequences s') ->
  slot_min_deadlines s' = map slot_minimum (wheel s') -> heap_ok (overflow s') ->
  (forall i es x, grid s' !! i = Some es -> x ∈ es ->
     Z.of_nat i = release_tick (ticks_per_second s') (e_ready x) mod wheel_size s') ->
  (Permutation (held s) (e :: held s') /\ seq s <= seq s'
   \/ Permutation (held s') (e :: held s) /\ fine e /\ e_seq e = seq s /\ seq s' = seq s + 1) ->
  wf s'.
Proof.
  intros Hwf (Hsz & Htps & _) Hlen Hlock Hmin Hheap Hplace Hheld. constructor; auto.
  - rewrite Hsz. apply Hwf.
  - rewrite Hlen, Hsz. apply Hwf.
  - pose proof (wf_fresh s Hwf) as Hf. destruct Hheld as [[Hp Hle]|(Hp & He & Hseq & Hn)].
    + rewrite Hp in Hf. apply Forall_cons in Hf as [_ Hf].
      eapply Forall_impl; [exact Hf|]. cbn. intros x [? ?]. split; [done|lia].
    + rewrite Hp. constructor; [split; [done|lia]|].
      eapply Forall_impl; [exact Hf|]. cbn. intros x [? ?]. split; [done|lia].
  - pose proof (wf_nodup s Hwf) as Hnd. destruct Hheld as [[Hp _]|(Hp & _ & Hseq & _)].
    + rewrite Hp in Hnd. by apply NoDup_cons in Hnd as [_ ?].
    + rewrite Hp. cbn. constructor; [|done]. rewrite Hseq.
      intros (x & Hx & Hin)%list_elem_of_fmap. pose proof (wf_fresh s Hwf) as Hf.
      rewrite Forall_forall in Hf. destruct (Hf x Hin). lia.
Qed.

(** *** Appending to a slot *)
Lemma append_grid s slot w :
  wf s -> 0 <= slot < wheel_size s ->
  grid (append_wheel_entry slot w s)
  = <[slot_nat slot := slot_entries s slot ++ [mk_entry w (seq s)]]> (grid s).
Proof.
  intros Hwf Hs. destruct (wf_slot s slot Hwf Hs) as (dq & q & _ & _ & Hlen & Hd & Hq & He & _).
  unfold grid, append_wheel_entry. cbn. rewrite Hd, Hq, He.
  rewrite <- (zip_with_snoc mk_entry dq q w (seq s)) by done.
  by rewrite <- insert_zip_with.
Qed.

Lemma slot_minimum_snoc dq w :
  slot_minimum (dq ++ [w]) = min_step (slot_minimum dq) (fst (fst w)).
Proof. unfold slot_minimum. by rewrite fold_left_app. Qed.

Lemma append_wf s slot w :
  wf s -> slot_at s (fst (fst w)) = Ok slot -> isfinite (fst (fst w)) = true ->
  isfinite (snd w) = true ->
  wf (append_wheel_entry slot w s) /\
  Permutation (held (append_wheel_entry slot w s)) (mk_entry w (seq s) :: held s).
Proof.
  intros Hwf Hslot Hfin Hprio. unfold slot_at in Hslot.
  destruct (isfinite (fmul _ _)); [|done]. injection Hslot as Hslot.
  assert (Hs : 0 <= slot < wheel_size s) by (rewrite <- Hslot; apply slot_range, Hwf).
  pose proof (append_grid s slot w Hwf Hs) as Hg.
  destruct (wf_slot s slot Hwf Hs) as (dq & q & Hw & Hsq & Hlen & Hd & Hq & He & Hgr).
  assert (Hp : Permutation (held (append_wheel_entry slot w s)) (mk_entry w (seq s) :: held s)).
  { unfold held, wheel_entries. fold (grid (append_wheel_entry slot w s)) (grid s). rewrite Hg.
    rewrite (concat_insert_perm _ _ _ _ (mk_entry w (seq s)) Hgr); [done|].
    by rewrite Permutation_app_comm. }
  split; [|done]. eapply (wf_from s _ (mk_entry w (seq s))); [done|done|..].
  - cbn. by rewrite length_insert.
  - cbn. apply Forall2_insert_len; [apply Hwf|]. rewrite !length_app, Hd, Hq. cbn. lia.
  - cbn. rewrite (wf_minima s Hwf), Hd. apply list_eq. intros i.
    assert (Hb : (slot_nat slot < length (wheel s))%nat) by (by eapply lookup_lt_Some).
    destruct (decide (slot_nat slot = i)) as [<-|Hi].
    + rewrite list_lookup_alter_eq, list_lookup_fmap, Hw.
      rewrite list_lookup_fmap, list_lookup_insert_eq by done. cbn.
      by rewrite slot_minimum_snoc.
    + rewrite list_lookup_alter_ne, !list_lookup_fmap by done.
      by rewrite list_lookup_insert_ne.
  - apply Hwf.
  - rewrite Hg. intros i es x Hi Hx. rewrite list_lookup_insert in Hi. case_decide as Hd'.
    + destruct Hd' as [<- _]. injection Hi as <-.
      apply elem_of_app in Hx as [Hx|Hx%list_elem_of_singleton].
      * by eapply (wf_place s Hwf).
      * subst x. destruct w as [[r it] p]. cbn in *. unfold slot_nat. rewrite <- Hslot. lia.
    + by eapply (wf_place s Hwf).
  - right. split; [done|]. destruct w as [[r it] p]. done.
Qed.

(** *** Adding to the overflow heap *)
Definition add_overflow (e : entry) (s : self) : self :=
  with_state s (wheel s) (wheel_sequences s) (slot_min_deadlines s)
    (insert_by entry_le e (overflow s)) (seq s + 1) (last_tick s).

Lemma add_overflow_wf s e :
  wf s -> fine e -> e_seq e = seq s ->
  wf (add_overflow e s) /\ Permutation (held (add_overflow e s)) (e :: held s).
Proof.
  intros Hwf He Hseq.
  assert (Hp : Permutation (held (add_overflow e s)) (e :: held s)).
  { unfold held, add_overflow, wheel_entries. cbn. rewrite insert_by_perm.
    by rewrite <- Permutation_middle. }
  split; [|done]. eapply (wf_from s _ e); try done; try apply Hwf.
  - apply heap_insert_ok; [apply He|apply Hwf].
  - by right.
Qed.

(** *** Removing an entry *)
Lemma remove_wheel_wf s slot i e :
  wf s -> 0 <= slot < wheel_size s -> slot_entries s slot !! i = Some e ->
  let s' := recompute_slot_min_deadline slot (delete_wheel_entry slot i s) in
  wf s' /\ Permutation (held s) (e :: held s') /\
  grid s' = <[slot_nat slot := delete i (slot_entries s slot)]> (grid s).
Proof.
  intros Hwf Hs Hi s'.
  destruct (wf_slot s slot Hwf Hs) as (dq & q & Hw & Hsq & Hlen & Hd & Hq & He & Hgr).
  assert (Hg : grid s' = <[slot_nat slot := delete i (slot_entries s slot)]> (grid s)).
  { unfold grid, s'. cbn. rewrite Hd, Hq, He. rewrite <- zip_with_delete.
    by rewrite <- insert_zip_with. }
  assert (Hp : Permutation (held s) (e :: held s')).
  { unfold held, wheel_entries. fold (grid s') (grid s). rewrite Hg.
    cbn [overflow s' recompute_slot_min_deadline delete_wheel_entry with_state].
    change (e :: concat (<[slot_nat slot := delete i (slot_entries s slot)]> (grid s)) ++ overflow s)
      with ((e :: concat (<[slot_nat slot := delete i (slot_entries s slot)]> (grid s))) ++ overflow s).
    apply Permutation_app_tail.
    rewrite <- (list_insert_id (grid s) (slot_nat slot) (slot_entries s slot)) at 1 by done.
    rewrite <- (concat_insert_perm (<[slot_nat slot := delete i (slot_entries s slot)]> (grid s))
                  (slot_nat slot) (delete i (slot_entries s slot)) (slot_entries s slot) e).
    - by rewrite list_insert_insert_eq.
    - apply list_lookup_insert_eq. by eapply lookup_lt_Some.
    - by apply delete_Permutation. }
  split; [|done]. eapply (wf_from s s' e); [done|done|..].
  - cbn. by rewrite length_insert.
  - cbn. apply Forall2_insert_len; [apply Hwf|]. rewrite Hd, Hq. by apply length_delete_eq.
  - cbn. rewrite (wf_minima s Hwf), Hd. unfold dq_at.
    rewrite list_lookup_insert_eq by (by eapply lookup_lt_Some).
    by rewrite <- list_fmap_insert.
  - apply Hwf.
  - rewrite Hg. intros j es x Hj Hx. rewrite list_lookup_insert in Hj. case_decide as Hd'.
    + destruct Hd' as [<- _]. injection Hj as <-.
      eapply (wf_place s Hwf); [exact Hgr|].
      pose proof (delete_Permutation _ _ _ Hi) as ->. by right.
    + by eapply (wf_place s Hwf).
  - left. split; [done|]. cbn. lia.
Qed.

Lemma remove_overflow_wf s i e :
  wf s -> overflow s !! i = Some e ->
  wf (delete_overflow i s) /\ Permutation (held s) (e :: held (delete_overflow i s)).
Proof.
  intros Hwf Hi.
  assert (Hp : Permutation (held s) (e :: held (delete_overflow i s))).
  { unfold held, delete_overflow, wheel_entries. cbn.
    rewrite (delete_Permutation _ _ _ Hi) at 1. by rewrite <- Permutation_middle. }
  split; [|done]. eapply (wf_from s _ e); try done; try apply Hwf.
  - destruct (wf_heap s Hwf) as [Hf Hsort]. cbn. split; [by apply Forall_delete|].
    clear Hp. revert i Hi. induction Hsort as [|x l Hs IH Hall]; intros [|i] Hi; try done.
    cbn. apply Forall_cons in Hf as [? Hf]. constructor; [by apply IH|]. by apply Forall_delete.
  - left. split; [done|]. cbn. lia.
Qed.

(** ** The transfer loop *)
Lemma map_NoDup_inj {A B} (f : A -> B) l x y :
  NoDup (map f l) -> x ∈ l -> y ∈ l -> f x = f y -> x = y.
Proof.
  induction l as [|z l IH]; cbn; intros Hn Hx Hy E; [by apply elem_of_nil in Hx|].
  apply NoDup_cons in Hn as [Hz Hn].
  assert (Hin : forall v, v ∈ l -> f v ∈ map f l) by (intros v Hv; by apply (list_elem_of_fmap_2 f)).
  apply elem_of_cons in Hx as [-> | Hx], Hy as [-> | Hy]; auto.
  - exfalso. apply Hz. rewrite E. auto.
  - exfalso. apply Hz. rewrite <- E. auto.
Qed.

Lemma slot_held s slot e :
  wf s -> 0 <= slot < wheel_size s -> e ∈ slot_entries s slot -> e ∈ held s.
Proof.
  intros Hwf Hs He. destruct (wf_slot s slot Hwf Hs) as (dq & q & _ & _ & _ & _ & _ & _ & Hg).
  unfold held, wheel_entries. fold (grid s). apply elem_of_app. left.
  apply list_elem_of_In, in_concat. exists (slot_entries s slot).
  split; [|by apply list_elem_of_In]. apply list_elem_of_In. by eapply list_elem_of_lookup_2.
Qed.

Lemma entry_eqb_seq x y : entry_eqb x y = true -> e_seq x = e_seq y.
Proof. unfold entry_eqb. rewrite !andb_true_iff, Z.eqb_eq. tauto. Qed.

Lemma entry_eqb_refl x : fine x -> entry_eqb x x = true.
Proof.
  intros [Hr%isfinite_not_nan Hp%isfinite_not_nan]. unfold entry_eqb.
  rewrite !andb_true_iff, Z.eqb_refl, bool_decide_true by done.
  repeat split; by apply feqb_fkey.
Qed.

Lemma index_of_spec e l :
  fine e -> e ∈ l -> exists i x, index_of e l = Some i /\ l !! i = Some x /\ e_seq x = e_seq e.
Proof.
  intros He. induction l as [|x l IH]; intros Hin; [by apply elem_of_nil in Hin|]. cbn.
  destruct (entry_eqb x e) eqn:E.
  - exists O, x. split; [done|]. split; [done|]. by apply entry_eqb_seq.
  - apply elem_of_cons in Hin as [<- | Hin]; [by rewrite entry_eqb_refl in E|].
    destruct (IH Hin) as (i & y & -> & Hy & Hs). by exists (S i), y.
Qed.

Section Commit.
Context {W : Type} `{HQB : QueueBackend W}.
Variables (s0 : self) (origins : gmap (Z * Z) nat).

Definition recorded (removed : gmap Z (list nat)) (slot : Z) : list nat :=
  match removed !! slot with Some r => r | None => [] end.

Definition cand_ok (removed : gmap Z (list nat)) (s : self) (c : candidate) : Prop :=
  match c_slot c with
  | Some slot =>
      0 <= slot < wheel_size s /\ c_entry c ∈ slot_entries s slot /\
      exists o, origins !! (slot, e_seq (c_entry c)) = Some o
        /\ dq_at (wheel_sequences s0) slot !! o = Some (e_seq (c_entry c))
        /\ o ∉ recorded removed slot
  | None => c_entry c ∈ overflow s
  end.

Definition inv (removed : gmap Z (list nat)) (cs : list candidate) (s : self) : Prop :=
  wf s /\ NoDup (map (fun c => e_seq (c_entry c)) cs) /\
  (forall slot, 0 <= slot < wheel_size s ->
     dq_at (wheel_sequences s) slot
       = surv (recorded removed slot) 0 (dq_at (wheel_sequences s0) slot)
     /\ StronglySorted lt (recorded removed slot)) /\
  Forall (cand_ok removed s) cs.

(** The guard finds the candidate at its corrected index. *)
Lemma guard_true removed slot c cs s o :
  inv removed (c :: cs) s -> c_slot c = Some slot ->
  origins !! (slot, e_seq (c_entry c)) = Some o ->
  let i := (o - bisect_left (recorded removed slot) o)%nat in
  dq_at (wheel_sequences s) slot !! i = Some (e_seq (c_entry c))
  /\ slot_entries s slot !! i = Some (c_entry c)
  /\ delete i (dq_at (wheel_sequences s) slot)
     = surv (bisect_insert (recorded removed slot) o) 0 (dq_at (wheel_sequences s0) slot).
Proof.
  intros (Hwf & _ & Hseq & Hcs) Hc Ho i. apply Forall_cons in Hcs as [Hok _].
  unfold cand_ok in Hok. rewrite Hc in Hok.
  destruct Hok as (Hs & Hin & o' & Ho' & Hlk & Hnin).
  rewrite Ho in Ho'. injection Ho' as <-. destruct (Hseq slot Hs) as [Heq Hsorted].
  destruct (surv_lookup (recorded removed slot) 0 _ o _ (sorted_lt_NoDup _ Hsorted) Hlk Hnin) as [H1 H2].
  cbn [Nat.add] in H1, H2. rewrite <- bisect_left_rank in H1, H2 by done.
  fold i in H1, H2. rewrite <- Heq in H1, H2. split; [done|].
  destruct (wf_slot s slot Hwf Hs) as (dq & q & _ & _ & Hlen & Hd & Hq & He & Hgr).
  split.
  - rewrite Hq in H1. assert (Hi : (i < length dq)%nat).
    { rewrite Hlen. by eapply lookup_lt_Some. }
    apply lookup_lt_is_Some_2 in Hi as [w Hw].
    assert (Hm : slot_entries s slot !! i = Some (mk_entry w (e_seq (c_entry c)))).
    { by rewrite He, lookup_zip_with, Hw, H1. }
    rewrite Hm. f_equal. apply (map_NoDup_inj e_seq (held s)).
    + apply Hwf.
    + eapply slot_held; [done|exact Hs|]. by eapply list_elem_of_lookup_2.
    + by eapply slot_held.
    + by destruct w as [[r it] p].
  - rewrite H2. apply surv_ext. intros r. rewrite bisect_insert_elem, elem_of_cons. done.
Qed.

Lemma slot_entries_other s s' slot :
  wf s -> wf s' -> wheel_size s' = wheel_size s -> 0 <= slot < wheel_size s ->
  grid s' !! slot_nat slot = grid s !! slot_nat slot -> slot_entries s' slot = slot_entries s slot.
Proof.
  intros Hwf Hwf' Hsz Hs Hg.
  destruct (wf_slot s slot Hwf Hs) as (? & ? & _ & _ & _ & _ & _ & _ & H1).
  rewrite <- Hsz in Hs.
  destruct (wf_slot s' slot Hwf' Hs) as (? & ? & _ & _ & _ & _ & _ & _ & H2). congruence.
Qed.

(** One removal keeps the invariant for the remaining candidates. *)
Lemma inv_wheel removed slot c cs s o :
  inv removed (c :: cs) s -> c_slot c = Some slot ->
  origins !! (slot, e_seq (c_entry c)) = Some o ->
  let i := (o - bisect_left (recorded removed slot) o)%nat in
  let s' := recompute_slot_min_deadline slot (delete_wheel_entry slot i s) in
  inv (<[slot := bisect_insert (recorded removed slot) o]> removed) cs s' /\
  Permutation (held s) (c_entry c :: held s').
Proof.
  intros Hinv Hc Ho i s'.
  destruct (guard_true _ _ _ _ _ _ Hinv Hc Ho) as (Hg1 & Hg2 & Hg3). fold i in Hg1, Hg2, Hg3.
  destruct Hinv as (Hwf & Hnd & Hseq & Hcs). apply Forall_cons in Hcs as [Hok Hcs].
  unfold cand_ok in Hok. rewrite Hc in Hok.
  destruct Hok as (Hs & Hin & o' & Ho' & Hlk & Hnin).
  rewrite Ho in Ho'. injection Ho' as <-.
  destruct (remove_wheel_wf s slot i (c_entry c) Hwf Hs Hg2) as (Hwf' & Hp & Hgrid).
  fold s' in Hwf', Hp, Hgrid. split; [|done].
  cbn in Hnd. apply NoDup_cons in Hnd as [Hcn Hnd].
  assert (Hsz : wheel_size s' = wheel_size s) by done.
  assert (Hrec : forall sl, recorded (<[slot := bisect_insert (recorded removed slot) o]> removed) sl
            = if decide (slot = sl) then bisect_insert (recorded removed slot) o else recorded removed sl).
  { intros sl. unfold recorded at 1. rewrite lookup_insert. by case_decide. }
  assert (Hne : forall sl, 0 <= sl < wheel_size s -> slot <> sl -> slot_nat slot <> slot_nat sl).
  { unfold slot_nat. lia. }
  split; [done|]. split; [done|]. split.
  - intros sl Hsl. rewrite Hsz in Hsl. rewrite Hrec. destruct (decide (slot = sl)) as [<-|Hd].
    + split; [|apply bisect_insert_sorted; [apply Hseq, Hs|done]].
      rewrite <- Hg3. unfold s'. cbn. unfold dq_at at 1.
      destruct (wf_slot s slot Hwf Hs) as (dq & q & _ & Hq & _).
      by rewrite list_lookup_insert_eq by (by eapply lookup_lt_Some).
    + destruct (Hseq sl Hsl) as [H1 H2]. split; [|done]. rewrite <- H1. unfold s'. cbn.
      unfold dq_at. by rewrite list_lookup_insert_ne by auto.
  - rewrite Forall_forall in Hcs |- *. intros c2 Hc2. specialize (Hcs c2 Hc2).
    assert (Hseq2 : e_seq (c_entry c2) <> e_seq (c_entry c)).
    { intros E. apply Hcn. rewrite <- E. by apply (list_elem_of_fmap_2 (fun c => e_seq (c_entry c))). }
    unfold cand_ok in Hcs |- *. destruct (c_slot c2) as [sl|]; [|exact Hcs].
    destruct Hcs as (Hsl & Hin2 & o2 & Ho2 & Hlk2 & Hnin2). rewrite Hsz. split; [done|].
    destruct (decide (slot = sl)) as [<-|Hd].
    + split.
      * destruct (wf_slot s' slot Hwf' Hsl) as (? & ? & _ & _ & _ & _ & _ & _ & Hg').
        rewrite Hgrid, list_lookup_insert_eq in Hg'
          by (destruct (wf_slot s slot Hwf Hs) as (? & ? & _ & _ & _ & _ & _ & _ & Hgs);
              by eapply lookup_lt_Some).
        injection Hg' as <-. rewrite (delete_Permutation _ _ _ Hg2) in Hin2.
        apply elem_of_cons in Hin2 as [E|?]; [|done]. by rewrite E in Hseq2.
      * exists o2. split; [done|]. split; [done|]. rewrite Hrec, decide_True by done.
        rewrite bisect_insert_elem. intros [-> | ?]; [congruence|done].
    + split.
      * rewrite (slot_entries_other s s' sl) by (done || (rewrite Hgrid; apply list_lookup_insert_ne; auto)).
        done.
      * exists o2. rewrite Hrec, decide_False by done. done.
Qed.

Lemma inv_overflow removed c cs s i :
  inv removed (c :: cs) s -> c_slot c = None -> overflow s !! i = Some (c_entry c) ->
  inv removed cs (delete_overflow i s) /\
  Permutation (held s) (c_entry c :: held (delete_overflow i s)).
Proof.
  intros (Hwf & Hnd & Hseq & Hcs) Hc Hi. apply Forall_cons in Hcs as [_ Hcs].
  destruct (remove_overflow_wf s i _ Hwf Hi) as [Hwf' Hp]. split; [|done].
  cbn in Hnd. apply NoDup_cons in Hnd as [Hcn Hnd].
  split; [done|]. split; [done|]. split; [done|].
  rewrite Forall_forall in Hcs |- *. intros c2 Hc2. specialize (Hcs c2 Hc2).
  unfold cand_ok in Hcs |- *. destruct (c_slot c2) as [sl|]; [done|].
  rewrite (delete_Permutation _ _ _ Hi) in Hcs. apply elem_of_cons in Hcs as [E|?]; [|done].
  exfalso. apply Hcn. rewrite <- E. by apply (list_elem_of_fmap_2 (fun c => e_seq (c_entry c))).
Qed.

(** The overflow branch finds the exact entry, at the root or further in. *)
Lemma overflow_found removed c cs s :
  inv removed (c :: cs) s -> c_slot c = None ->
  exists i, (if match overflow s with x :: _ => entry_eqb x (c_entry c) | [] => false end
             then Some O else index_of (c_entry c) (overflow s)) = Some i
    /\ overflow s !! i = Some (c_entry c).
Proof.
  intros (Hwf & _ & _ & Hcs) Hc. apply Forall_cons in Hcs as [Hok _].
  unfold cand_ok in Hok. rewrite Hc in Hok.
  assert (Hheld : forall x, x ∈ overflow s -> x ∈ held s).
  { intros x Hx. apply elem_of_app. by right. }
  assert (Hsame : forall x, x ∈ overflow s -> e_seq x = e_seq (c_entry c) -> x = c_entry c).
  { intros x Hx E. apply (map_NoDup_inj e_seq (held s)); auto. apply Hwf. }
  assert (Hfine : fine (c_entry c)).
  { pose proof (wf_fresh s Hwf) as Hf. rewrite Forall_forall in Hf. by apply Hf, Hheld. }
  destruct (overflow s) as [|x l] eqn:Hov; [by apply elem_of_nil in Hok|].
  destruct (entry_eqb x (c_entry c)) eqn:E.
  - exists O. split; [done|]. apply entry_eqb_seq in E. cbn. f_equal. apply Hsame; [left|done].
  - destruct (index_of_spec _ _ Hfine Hok) as (i & y & Hi & Hy & Hs).
    exists i. split; [done|]. rewrite Hy. f_equal. apply Hsame; [|done].
    by eapply list_elem_of_lookup_2.
Qed.

Lemma commit_spec q : forall cs removed s w o s' w',
  inv removed cs s ->
  commit_candidates q origins removed cs (s, w) = (o, (s', w')) ->
  exists moved rest w1,
    cs = moved ++ rest /\ pushed_all q (map c_entry moved) w w1 /\ wf s' /\
    Permutation (held s) (map c_entry moved ++ held s') /\
    same_config s s' /\ last_tick s' = last_tick s /\ seq s' = seq s /\
    match o with
    | Ok _ => rest = [] /\ w' = w1
    | Raise e => exists c rest', rest = c :: rest'
        /\ qb_push q (e_item (c_entry c)) (e_priority (c_entry c)) w1 = (Raise e, w')
    end.
Proof.
  induction cs as [|c cs IH]; intros removed s w o s' w' Hinv Hrun; cbn [commit_candidates] in Hrun.
  { injection Hrun as <- <- <-. exists [], [], w. repeat split; try apply Hinv; try done. constructor. }
  destruct (c_slot c) as [slot|] eqn:Hc.
  - pose proof Hinv as (_ & _ & _ & Hcs). apply Forall_cons in Hcs as [Hok _].
    unfold cand_ok in Hok. rewrite Hc in Hok. destruct Hok as (Hs & _ & og & Hog & _).
    rewrite Hog in Hrun. fold (recorded removed slot) in Hrun.
    destruct (guard_true _ _ _ _ _ _ Hinv Hc Hog) as (Hg & _ & _).
    rewrite bool_decide_true in Hrun by exact Hg.
    destruct (qb_push q _ _ w) as [[[]|e] w1] eqn:Hpush.
    + destruct (inv_wheel _ _ _ _ _ _ Hinv Hc Hog) as [Hinv' Hp].
      destruct (IH _ _ _ _ _ _ Hinv' Hrun) as (moved & rest & w2 & -> & Hpa & Hwf' & Hp' & Hcf & Hlt & Hsq & Ho).
      exists (c :: moved), rest, w2. split; [done|]. split; [by econstructor|]. split; [done|].
      split; [by rewrite Hp, Hp'|]. done.
    + injection Hrun as <- <- <-. exists [], (c :: cs), w. destruct Hinv as (Hwf & _).
      assert (Hid : recompute_slot_min_deadline slot s = s).
      { destruct (wf_slot s slot Hwf Hs) as (dq & qq & Hw & _ & _ & Hd & _).
        unfold recompute_slot_min_deadline. rewrite Hd, (wf_minima s Hwf).
        rewrite list_insert_id by by rewrite list_lookup_fmap, Hw.
        rewrite <- (wf_minima s Hwf). by destruct s. }
      rewrite Hid. split; [done|]. split; [constructor|]. split; [done|]. split; [done|].
      split; [done|]. split; [done|]. split; [done|]. eauto.
  - destruct (overflow_found _ _ _ _ Hinv Hc) as (i & Hidx & Hi). rewrite Hidx in Hrun.
    destruct (qb_push q _ _ w) as [[[]|e] w1] eqn:Hpush.
    + destruct (inv_overflow _ _ _ _ _ Hinv Hc Hi) as [Hinv' Hp].
      destruct (IH _ _ _ _ _ _ Hinv' Hrun) as (moved & rest & w2 & -> & Hpa & Hwf' & Hp' & Hcf & Hlt & Hsq & Ho).
      exists (c :: moved), rest, w2. split; [done|]. split; [by econstructor|]. split; [done|].
      split; [by rewrite Hp, Hp'|]. done.
    + injection Hrun as <- <- <-. exists [], (c :: cs), w. destruct Hinv as (Hwf & _).
      split; [done|]. split; [constructor|]. repeat (split; [done|]). eauto.
Qed.
End Commit.

(** ** The scan *)
Lemma slots_to_scan_spec s tick :
  1 <= wheel_size s ->
  NoDup (slots_to_scan s tick) /\
  Forall (fun slot => 0 <= slot < wheel_size s) (slots_to_scan s tick).
Proof.
  intros Hn. unfold slots_to_scan. split.
  - apply (NoDup_fmap_2_strong (fun offset => (last_tick s + 1 + offset) mod wheel_size s));
      [|apply NoDup_seqZ].
    intros a b Ha%elem_of_seqZ Hb%elem_of_seqZ E.
    assert (Hd : (a - b) mod wheel_size s = 0).
    { replace (a - b) with ((last_tick s + 1 + a) - (last_tick s + 1 + b)) by lia.
      rewrite Zminus_mod, E, Z.sub_diag. apply Z.mod_0_l. lia. }
    apply Z.mod_divide in Hd; [|lia].
    destruct Hd as [k Hk]. clear E.
    assert (Hab : Z.abs (a - b) < wheel_size s) by lia. clear Ha Hb.
    assert (k = 0) as -> by nia. lia.
  - apply Forall_forall. intros x (a & -> & _)%list_elem_of_fmap. by apply slot_range.
Qed.

(** A slot is scanned as soon as a release tick that maps to it has passed. *)
Lemma slot_scanned s tick T :
  1 <= wheel_size s -> last_tick s < T <= tick -> T mod wheel_size s ∈ slots_to_scan s tick.
Proof.
  intros Hn HT. unfold slots_to_scan. apply list_elem_of_fmap.
  exists ((T - last_tick s - 1) mod wheel_size s). split.
  - rewrite Z.add_mod_idemp_r by lia. f_equal. lia.
  - apply elem_of_seqZ.
    pose proof (Z.mod_pos_bound (T - last_tick s - 1) (wheel_size s) ltac:(lia)).
    pose proof (Z.mod_le (T - last_tick s - 1) (wheel_size s) ltac:(lia) ltac:(lia)). lia.
Qed.

Lemma index_origins_other slot sl i es m q :
  sl <> slot -> index_origins slot i es m !! (sl, q) = m !! (sl, q).
Proof.
  intros Hne. revert i m. induction es as [|e es IH]; intros i m; cbn; [done|].
  rewrite IH, lookup_insert, decide_False by congruence. done.
Qed.

Lemma index_origins_miss slot i es m q :
  q ∉ map e_seq es -> index_origins slot i es m !! (slot, q) = m !! (slot, q).
Proof.
  revert i m. induction es as [|e es IH]; intros i m Hq; cbn; [done|]. cbn in Hq.
  rewrite not_elem_of_cons in Hq. rewrite IH by apply Hq.
  rewrite lookup_insert, decide_False by (intros [= E]; destruct Hq; congruence). done.
Qed.

Lemma index_origins_hit slot i es m k e :
  NoDup (map e_seq es) -> es !! k = Some e ->
  index_origins slot i es m !! (slot, e_seq e) = Some (i + k)%nat.
Proof.
  revert i m k. induction es as [|x es IH]; intros i m k Hn Hk; [done|]. cbn in *.
  apply NoDup_cons in Hn as [Hx Hn]. destruct k as [|k].
  - injection Hk as ->. rewrite index_origins_miss, lookup_insert, decide_True by done.
    f_equal. lia.
  - rewrite (IH _ _ k) by done. f_equal. lia.
Qed.

Lemma wheel_origins_hit s slots slot k e :
  NoDup slots -> slot ∈ slots -> NoDup (map e_seq (slot_entries s slot)) ->
  slot_entries s slot !! k = Some e ->
  wheel_origins s slots !! (slot, e_seq e) = Some k.
Proof.
  unfold wheel_origins. intros Hn Hin Hnd Hk. generalize (∅ : gmap (Z * Z) nat).
  revert Hin. induction Hn as [|x l Hx Hl IH]; intros Hin m; [by apply elem_of_nil in Hin|]. cbn.
  destruct (decide (slot ∈ l)) as [Hsl|Hsl]; [by apply IH|].
  apply elem_of_cons in Hin as [<- | ?]; [|done].
  clear IH Hl Hx. assert (Hrest : forall m, fold_left (fun m sl => index_origins sl 0 (slot_entries s sl) m) l m
                      !! (slot, e_seq e) = m !! (slot, e_seq e)).
  { clear m. induction l as [|y l IH]; intros m; cbn; [done|].
    rewrite not_elem_of_cons in Hsl. rewrite IH by apply Hsl. apply index_origins_other, Hsl. }
  rewrite Hrest. by rewrite (index_origins_hit _ _ _ _ k).
Qed.

Lemma NoDup_map_filter {A B} (f : A -> B) p l : NoDup (map f l) -> NoDup (map f (List.filter p l)).
Proof.
  induction l as [|x l IH]; cbn; [done|]. intros [Hx Hn]%NoDup_cons.
  destruct (p x); [|by apply IH]. cbn. constructor; [|by apply IH].
  intros (y & E & Hy)%list_elem_of_fmap. apply Hx. rewrite E.
  apply list_elem_of_In, List.filter_In in Hy as [Hy _].
  apply (list_elem_of_fmap_2 f). by apply list_elem_of_In.
Qed.

Lemma elem_of_lfilter {A} (p : A -> bool) l x : x ∈ List.filter p l <-> x ∈ l /\ p x = true.
Proof. by rewrite !list_elem_of_In, List.filter_In. Qed.

Lemma slot_NoDup s slot :
  wf s -> 0 <= slot < wheel_size s -> NoDup (map e_seq (slot_entries s slot)).
Proof.
  intros Hwf Hs. destruct (wf_slot s slot Hwf Hs) as (? & ? & _ & _ & _ & _ & _ & _ & Hg).
  pose proof (wf_nodup s Hwf) as Hn. unfold held, wheel_entries in Hn. fold (grid s) in Hn.
  rewrite map_app in Hn. apply NoDup_app in Hn as [Hn _].
  rewrite <- (take_drop_middle (grid s) _ _ Hg), concat_app, map_app in Hn.
  apply NoDup_app in Hn as (_ & _ & Hn). cbn in Hn. rewrite map_app in Hn.
  by apply NoDup_app in Hn as [? _].
Qed.

Lemma slots_disjoint s a b x y :
  wf s -> 0 <= a < wheel_size s -> 0 <= b < wheel_size s ->
  x ∈ slot_entries s a -> y ∈ slot_entries s b -> e_seq x = e_seq y -> a = b.
Proof.
  intros Hwf Ha Hb Hx Hy E.
  assert (x = y) as <-.
  { apply (map_NoDup_inj e_seq (held s)); [apply Hwf| | |done].
    - by apply (slot_held s a).
    - by apply (slot_held s b). }
  destruct (wf_slot s a Hwf Ha) as (? & ? & _ & _ & _ & _ & _ & _ & Hga).
  destruct (wf_slot s b Hwf Hb) as (? & ? & _ & _ & _ & _ & _ & _ & Hgb).
  pose proof (wf_place s Hwf _ _ _ Hga Hx). pose proof (wf_place s Hwf _ _ _ Hgb Hy).
  unfold slot_nat in *. lia.
Qed.

Lemma candidates_elem s now slots e :
  (exists c, c ∈ candidates s now slots /\ c_entry c = e) <->
  due now e = true /\ (e ∈ overflow s \/ exists slot, slot ∈ slots /\ e ∈ slot_entries s slot).
Proof.
  unfold candidates. split.
  - intros (c & Hc & <-). rewrite sort_by_perm in Hc. apply elem_of_app in Hc as [Hc|Hc].
    + apply list_elem_of_In, in_concat in Hc as (l & Hl & Hc).
      apply list_elem_of_In, list_elem_of_fmap in Hl as (slot & -> & Hslot).
      apply list_elem_of_In, list_elem_of_fmap in Hc as (e & -> & He).
      apply elem_of_lfilter in He as [He Hd]. cbn. eauto.
    + apply list_elem_of_fmap in Hc as (e & -> & [He Hd]%elem_of_lfilter). cbn. eauto.
  - intros [Hd [Ho|(slot & Hslot & He)]].
    + exists (Candidate e None). split; [|done]. rewrite sort_by_perm.
      apply elem_of_app. right. apply list_elem_of_fmap. exists e. split; [done|].
      by apply elem_of_lfilter.
    + exists (Candidate e (Some slot)). split; [|done]. rewrite sort_by_perm.
      apply elem_of_app. left. apply list_elem_of_In, in_concat. exists (scan_slot s now slot).
      split; apply list_elem_of_In; apply list_elem_of_fmap; [by exists slot|].
      exists e. split; [done|]. by apply elem_of_lfilter.
Qed.

Lemma concat_scan_NoDup s now slots :
  wf s -> NoDup slots -> Forall (fun slot => 0 <= slot < wheel_size s) slots ->
  NoDup (map (fun c => e_seq (c_entry c)) (concat (map (scan_slot s now) slots))).
Proof.
  intros Hwf Hn Hr. induction Hn as [|a l Ha Hl IH]; [constructor|].
  apply Forall_cons in Hr as [Hra Hr]. cbn. rewrite map_app. apply NoDup_app. split; [|split].
  - unfold scan_slot. rewrite map_map. cbn. apply NoDup_map_filter. by apply slot_NoDup.
  - intros z (c & -> & Hc)%list_elem_of_fmap (c2 & E & Hc2)%list_elem_of_fmap.
    apply list_elem_of_fmap in Hc as (x & -> & [Hx _]%elem_of_lfilter).
    apply list_elem_of_In, in_concat in Hc2 as (k & Hk & Hc2).
    apply list_elem_of_In, list_elem_of_fmap in Hk as (b & -> & Hb).
    apply list_elem_of_In, list_elem_of_fmap in Hc2 as (y & -> & [Hy _]%elem_of_lfilter).
    rewrite Forall_forall in Hr. cbn in E.
    rewrite (slots_disjoint s a b x y) in Ha; auto.
  - by apply IH.
Qed.

Lemma candidates_inv s now tick :
  wf s ->
  let slots := slots_to_scan s tick in
  inv s (wheel_origins s slots) ∅ (candidates s now slots) s.
Proof.
  intros Hwf slots. destruct (slots_to_scan_spec s tick (wf_size s Hwf)) as [Hn Hr].
  fold slots in Hn, Hr. split; [done|]. split; [|split].
  - unfold candidates. rewrite sort_by_perm, map_app. apply NoDup_app. split; [|split].
    + by apply concat_scan_NoDup.
    + intros z (c & -> & Hc)%list_elem_of_fmap (c2 & E & Hc2)%list_elem_of_fmap.
      apply list_elem_of_In, in_concat in Hc as (k & Hk & Hc).
      apply list_elem_of_In, list_elem_of_fmap in Hk as (b & -> & Hb).
      apply list_elem_of_In, list_elem_of_fmap in Hc as (x & -> & [Hx _]%elem_of_lfilter).
      apply list_elem_of_fmap in Hc2 as (y & -> & [Hy _]%elem_of_lfilter). cbn in E.
      rewrite Forall_forall in Hr. specialize (Hr b Hb).
      destruct (wf_slot s b Hwf Hr) as (? & ? & _ & _ & _ & _ & _ & _ & Hg).
      pose proof (wf_nodup s Hwf) as Hnd. unfold held in Hnd. rewrite map_app in Hnd.
      apply NoDup_app in Hnd as (_ & Hnd & _).
      eapply (Hnd (e_seq x)); [|rewrite E; by apply (list_elem_of_fmap_2 e_seq)].
      apply (list_elem_of_fmap_2 e_seq). unfold wheel_entries. fold (grid s).
      apply list_elem_of_In, in_concat. exists (slot_entries s b).
      split; apply list_elem_of_In; [by eapply list_elem_of_lookup_2|done].
    + rewrite map_map. cbn. apply NoDup_map_filter.
      pose proof (wf_nodup s Hwf) as Hnd. unfold held in Hnd. rewrite map_app in Hnd.
      by apply NoDup_app in Hnd as (_ & _ & ?).
  - intros slot Hs. unfold recorded. rewrite lookup_empty, surv_nil. split; [done|constructor].
  - apply Forall_forall. intros c Hc. unfold candidates in Hc. rewrite sort_by_perm in Hc.
    apply elem_of_app in Hc as [Hc|Hc].
    + apply list_elem_of_In, in_concat in Hc as (k & Hk & Hc).
      apply list_elem_of_In, list_elem_of_fmap in Hk as (b & -> & Hb).
      apply list_elem_of_In, list_elem_of_fmap in Hc as (x & -> & [Hx _]%elem_of_lfilter).
      rewrite Forall_forall in Hr. specialize (Hr b Hb). unfold cand_ok. cbn.
      split; [done|]. split; [done|]. apply list_elem_of_lookup in Hx as [i Hi]. exists i.
      split; [by apply wheel_origins_hit; [..|apply slot_NoDup|]|]. split.
      * destruct (wf_slot s b Hwf Hr) as (dq & q & _ & _ & _ & _ & Hq & He & _).
        rewrite He, lookup_zip_with in Hi. rewrite Hq.
        destruct (dq !! i) as [[[r it] p]|]; [|done]. cbn in Hi.
        destruct (q !! i); [|done]. by injection Hi as <-.
      * unfold recorded. rewrite lookup_empty. apply not_elem_of_nil.
    + apply list_elem_of_fmap in Hc as (x & -> & [Hx _]%elem_of_lfilter). done.
Qed.

Lemma candidates_sorted s now slots :
  wf s -> Forall (fun slot => 0 <= slot < wheel_size s) slots ->
  StronglySorted (le_rel entry_le) (map c_entry (candidates s now slots)).
Proof.
  intros Hwf Hr.
  assert (Hs : StronglySorted (le_rel candidate_le) (candidates s now slots)).
  { apply (sort_by_sorted candidate_le (fun c => entry_ok (c_entry c))).
    - intros x y. apply entry_le_total.
    - intros x y z. apply entry_le_trans.
    - apply Forall_forall. intros c Hc.
      assert (He : exists c', c' ∈ candidates s now slots /\ c_entry c' = c_entry c).
      { exists c. split; [|done]. unfold candidates. by rewrite sort_by_perm. }
      apply candidates_elem in He as [_ He].
      pose proof (wf_fresh s Hwf) as Hf. rewrite Forall_forall in Hf. rewrite Forall_forall in Hr.
      destruct He as [He|(slot & Hslot & He)].
      + apply (Hf (c_entry c)). apply elem_of_app. by right.
      + apply (Hf (c_entry c)). eapply slot_held; [done|by apply Hr|done]. }
  induction Hs as [|c l Hs IH Hall]; cbn; [constructor|]. constructor; [done|].
  rewrite Forall_forall in Hall. apply Forall_forall. intros x (c' & -> & Hc')%list_elem_of_fmap.
  by apply Hall.
Qed.

(** ** Properties *)
Section Theorems.
Context {W : Type} `{HQB : QueueBackend W, HCL : Clock W}.

Lemma finite_number_ok v f : finite_number v = Ok f -> isfinite f = true.
Proof.
  unfold finite_number, to_finite_float. destruct v as [|z|x|]; try done.
  - destruct (isfinite (float_of_Z z)) eqn:E; [|done]. by intros [= <-].
  - destruct (isfinite x) eqn:E; [|done]. by intros [= <-].
Qed.

Lemma clock_now_ok s w o s' w' :
  clock_now (s, w) = (o, (s', w')) ->
  s' = s /\ match o with
            | Ok now => exists v, clock_read w = (Ok v, w') /\ finite_number v = Ok now
            | Raise _ => True
            end.
Proof.
  unfold clock_now. intros [(v & [s1 w1] & Hc & Hl)|(e & Hc & ->)]%bind_inv.
  - apply on_snd_fst in Hc as [-> Hc]. injection Hl as <- <- <-. split; [done|].
    destruct (finite_number v) eqn:E; eauto.
  - by apply on_snd_fst in Hc as [-> _].
Qed.

Definition with_tick (s : self) (tick : Z) : self :=
  with_state s (wheel s) (wheel_sequences s) (slot_min_deadlines s) (overflow s) (seq s) tick.

Lemma with_tick_wf s tick : wf s -> wf (with_tick s tick).
Proof. intros []. by constructor. Qed.

(** What one call of [_drain_ready] does, with the clock reading it saw. *)
Lemma drain_spec q s w o s' w' :
  wf s -> drain_ready q (s, w) = (o, (s', w')) ->
  (s' = s /\ exists e, o = Raise e) \/
  exists wc v now tick w0 moved rest w1,
    clock_read wc = (Ok v, w0) /\ finite_number v = Ok now /\
    tick_at (ticks_per_second s) now = Ok tick /\
    candidates s now (slots_to_scan s tick) = moved ++ rest /\
    pushed_all q (map c_entry moved) w0 w1 /\
    Permutation (held s) (map c_entry moved ++ held s') /\ wf s' /\ same_config s s' /\
    match o with
    | Ok _ => rest = [] /\ w' = w1 /\ last_tick s' = tick
    | Raise e => last_tick s' = last_tick s /\ exists c rest', rest = c :: rest'
        /\ qb_push q (e_item (c_entry c)) (e_priority (c_entry c)) w1 = (Raise e, w')
    end.
Proof.
  intros Hwf Hdrain. unfold drain_ready in Hdrain.
  apply bind_inv in Hdrain as [(i & [s1 w1] & Hg & Hk)|(e & Hg & ->)].
  2: { apply on_snd_fst in Hg as [-> _]. eauto. }
  apply on_snd_fst in Hg as [-> Hg].
  apply bind_inv in Hk as [(now & [s2 w2] & Hc & Hk)|(e & Hc & ->)].
  2: { apply clock_now_ok in Hc as [-> _]. eauto. }
  apply clock_now_ok in Hc as (-> & v & Hc & Hv).
  unfold bind at 1, on_fst at 1, get in Hk.
  apply bind_inv in Hk as [(tick & st & Ht & Hk)|(e & Ht & ->)].
  2: { injection Ht as _ -> ->. eauto. }
  apply lift_ok in Ht as [Ht ->]. right. exists w1, v, now, tick, w2.
  pose proof (candidates_inv s now tick Hwf) as Hinv. cbv zeta in Hinv.
  apply bind_inv in Hk as [([] & [s3 w3] & Hcm & Hk)|(e & Hcm & ->)].
  - destruct (commit_spec s _ q _ _ _ _ _ _ _ Hinv Hcm)
      as (moved & rest & w4 & Hsplit & Hpa & Hwf' & Hp & Hcf & _ & _ & -> & ->).
    injection Hk as <- <- <-. fold (with_tick s3 tick). exists moved, [], w4.
    split_and!; try done. by apply with_tick_wf.
  - destruct (commit_spec s _ q _ _ _ _ _ _ _ Hinv Hcm)
      as (moved & rest & w4 & Hsplit & Hpa & Hwf' & Hp & Hcf & Hlt & _ & Ho).
    by exists moved, rest, w4.
Qed.

(** C1. The drain moves due entries only, never before their deadline, in global
    [(ready_at, sequence)] order over the wheel slots and the overflow heap,
    each exactly once with its priority; whatever the backend does, every
    other entry stays held (as multisets: held before = moved + held after),
    the representation invariant survives, and after a backend failure the
    failing entry and the tail are still held and will be scanned again. *)
Theorem drain_moves_due_in_order q s w o s' w'
    (Hwf : wf s)
    (Hdrain : drain_ready q (s, w) = (o, (s', w'))) :
  (s' = s /\ exists e, o = Raise e) \/
  exists wc v now tick w0 moved rest w1,
    clock_read wc = (Ok v, w0) /\ finite_number v = Ok now /\
    tick_at (ticks_per_second s) now = Ok tick /\
    StronglySorted (le_rel entry_le) (moved ++ rest) /\
    (forall e, e ∈ moved ++ rest <->
       fleb (e_ready e) now = true /\
       (e ∈ overflow s \/
        exists slot, slot ∈ slots_to_scan s tick /\ e ∈ slot_entries s slot)) /\
    pushed_all q moved w0 w1 /\
    Permutation (held s) (moved ++ held s') /\ wf s' /\
    match o with
    | Ok _ => rest = [] /\ w' = w1 /\ last_tick s' = tick
    | Raise e => last_tick s' = last_tick s /\ exists c rest', rest = c :: rest'
        /\ qb_push q (e_item c) (e_priority c) w1 = (Raise e, w')
    end.
Proof.
  destruct (drain_spec q s w o s' w' Hwf Hdrain)
    as [?|(wc & v & now & tick & w0 & moved & rest & w1 & Hc & Hv & Ht & Hsplit & Hpa & Hp & Hwf' & _ & Ho)];
    [by left|].
  right. exists wc, v, now, tick, w0, (map c_entry moved), (map c_entry rest), w1.
  do 3 (split; [done|]). rewrite <- map_app, <- Hsplit.
  destruct (slots_to_scan_spec s tick (wf_size s Hwf)) as [_ Hr].
  split; [by apply candidates_sorted|]. split.
  { intros e. fold (due now e). rewrite <- (candidates_elem s now _ e). split.
    - intros (c & -> & Hin)%list_elem_of_fmap. eauto.
    - intros (c & Hin & <-). by apply (list_elem_of_fmap_2 c_entry). }
  do 3 (split; [done|]). destruct o as [u|e].
  - destruct Ho as (-> & -> & ->). done.
  - destruct Ho as (Hlt & c & rest' & -> & Hpush). split; [done|]. cbn. eauto.
Qed.

(** Entries waiting for a tick that has not been drained yet. *)
Definition ahead (s : self) : Prop :=
  Forall (fun e => last_tick s < release_tick (ticks_per_second s) (e_ready e)) (wheel_entries s).

(** No due entry is left behind: after a completed drain, however many ticks
    or whole rotations went by, an entry that is still held is either not due
    at the clock reading or sits in the wheel with a release tick later than
    the drained one. *)
Theorem drain_leaves_nothing_due q s w s' w'
    (Hwf : wf s) (Hahead : ahead s)
    (Hdrain : drain_ready q (s, w) = (Ok tt, (s', w'))) :
  exists wc v w0 now, clock_read wc = (Ok v, w0) /\ finite_number v = Ok now /\
    tick_at (ticks_per_second s) now = Ok (last_tick s') /\
    Forall (fun e => fleb (e_ready e) now = false
                     \/ (e ∈ wheel_entries s /\
                         last_tick s' < release_tick (ticks_per_second s) (e_ready e)))
      (held s').
Proof.
  destruct (drain_spec q s w _ s' w' Hwf Hdrain)
    as [(_ & e & He)|(wc & v & now & tick & w0 & moved & rest & w1 & Hc & Hv & Ht & Hsplit & Hpa & Hp & Hwf' & _ & Ho)];
    [done|].
  destruct Ho as (-> & -> & Hlt). exists wc, v, w0, now. rewrite Hlt.
  do 3 (split; [done|]). apply Forall_forall. intros e He.
  destruct (fleb (e_ready e) now) eqn:Hd; [right|by left].
  assert (Hheld : e ∈ held s) by (rewrite Hp; apply elem_of_app; by right).
  assert (Hnot : ~ exists c, c ∈ candidates s now (slots_to_scan s tick) /\ c_entry c = e).
  { rewrite Hsplit, app_nil_r. intros (c & Hcin & Hce).
    pose proof (wf_nodup s Hwf) as Hn. rewrite Hp, map_app in Hn.
    apply NoDup_app in Hn as (_ & Hn & _). apply (Hn (e_seq e)).
    - apply (list_elem_of_fmap_2 e_seq). rewrite <- Hce. by apply (list_elem_of_fmap_2 c_entry).
    - by apply (list_elem_of_fmap_2 e_seq). }
  rewrite candidates_elem in Hnot. apply elem_of_app in Hheld as [Hw|Hov].
  2: { exfalso. apply Hnot. auto. }
  split; [done|]. destruct (Z.lt_ge_cases tick (release_tick (ticks_per_second s) (e_ready e))); [done|].
  exfalso. apply Hnot. split; [done|]. right.
  unfold ahead in Hahead. rewrite Forall_forall in Hahead. specialize (Hahead e Hw).
  exists (release_tick (ticks_per_second s) (e_ready e) mod wheel_size s).
  split; [apply slot_scanned; [apply Hwf|lia]|].
  unfold wheel_entries in Hw. fold (grid s) in Hw.
  apply list_elem_of_In, in_concat in Hw as (es & Hes & Hin).
  apply list_elem_of_In, list_elem_of_lookup in Hes as [k Hk]. apply list_elem_of_In in Hin.
  pose proof (wf_place s Hwf k es e Hk Hin) as Hplace. rewrite <- Hplace.
  assert (Hr : 0 <= Z.of_nat k < wheel_size s) by (rewrite Hplace; apply slot_range, Hwf).
  destruct (wf_slot s _ Hwf Hr) as (? & ? & _ & _ & _ & _ & _ & _ & Hg).
  unfold slot_nat in Hg. rewrite Nat2Z.id in Hg. congruence.
Qed.

(** A delayed push performs no backend operation; it adds one entry with
    deadline clock + delay, in the wheel when the delay fits one rotation and
    in the overflow heap otherwise, and keeps the representation invariant. *)
Theorem push_schedules q item p d s w u s' w' delay prio
    (Hwf : wf s)
    (Hd : finite_number delay = Ok d) (Hp : finite_number prio = Ok p)
    (Heff : fltb fzero (if fltb fzero d then d else default_delay s) = true)
    (Hpush : push q item prio delay (s, w) = (Ok u, (s', w'))) :
  let effective := if fltb fzero d then d else default_delay s in
  exists v now, clock_read w = (Ok v, w') /\ finite_number v = Ok now /\ wf s' /\
    let e := Entry (fadd now effective) (seq s) item p in
    Permutation (held s') (e :: held s) /\
    (if fleb effective (wheel_duration s) then e ∈ wheel_entries s' else e ∈ overflow s').
Proof.
  intros eff. unfold push in Hpush. unfold bind at 1, lift at 1 in Hpush. rewrite Hp in Hpush.
  unfold bind at 1, lift at 1 in Hpush. rewrite Hd in Hpush.
  destruct (fltb d fzero); [done|].
  apply bind_ok_inv in Hpush as ([] & [s1 w1] & Hb & Hk).
  apply on_fst_ok in Hb as (s1' & Hb & [= <- <-]).
  assert (Hs1 : exists b, s1 = with_bound s b).
  { unfold bind_queue in Hb. destruct (bind_single_queue q (bound s)). injection Hb as _ <-. eauto. }
  destruct Hs1 as [b ->]. clear Hb. unfold bind at 1, on_fst at 1, get in Hk.
  cbn [default_delay with_bound] in Hk. fold eff in Hk, Heff.
  assert (Hle : fleb eff fzero = false).
  { destruct (fltb_not_nan _ _ Heff) as [_ Hn]. rewrite fleb_negb_fltb by done. by rewrite Heff. }
  rewrite Hle in Hk. unfold hold in Hk.
  apply bind_ok_inv in Hk as (now & [s2 w2] & Hc & Hk).
  apply clock_now_ok in Hc as (-> & v & Hc & Hv).
  destruct (isfinite (fadd now eff)) eqn:Hfin; [|done]. cbn [negb] in Hk.
  unfold bind at 1, on_fst at 1, get in Hk. cbn [wheel_duration with_bound] in Hk.
  assert (Hwfb : wf (with_bound s b)) by (by destruct Hwf; constructor).
  apply finite_number_ok in Hp. exists v, now.
  destruct (fleb eff (wheel_duration s)).
  - apply bind_ok_inv in Hk as (slot & st & Hs & Hk). apply lift_ok in Hs as [Hs ->].
    injection Hk as _ <- <-.
    destruct (append_wf (with_bound s b) slot (fadd now eff, item, p) Hwfb Hs Hfin Hp) as [H1 H2].
    do 2 (split; [done|]). split; [done|]. split; [done|].
    unfold slot_at in Hs. destruct (isfinite (fmul _ _)); [|done]. injection Hs as Hs.
    assert (Hr : 0 <= slot < wheel_size (with_bound s b)) by (rewrite <- Hs; apply (slot_range (with_bound s b)), Hwfb).
    pose proof (append_grid (with_bound s b) slot (fadd now eff, item, p) Hwfb Hr) as Hg.
    destruct (wf_slot _ slot Hwfb Hr) as (? & ? & _ & _ & _ & _ & _ & _ & Hgr).
    unfold wheel_entries. fold (grid (append_wheel_entry slot (fadd now eff, item, p) (with_bound s b))).
    rewrite Hg. rewrite (concat_insert_perm _ _ _ _ (mk_entry (fadd now eff, item, p) (seq s)) Hgr).
    + left.
    + by rewrite Permutation_app_comm.
  - injection Hk as _ <- <-. set (e := Entry (fadd now eff) (seq s) item p).
    destruct (add_overflow_wf (with_bound s b) e Hwfb (conj Hfin Hp) eq_refl) as [H1 H2].
    do 4 (split; [done|]). cbn. rewrite insert_by_perm. left.
Qed.
End Theorems.

(** ** The empty wheel *)
Lemma empty_wf n tps dur d t b :
  1 <= n -> wf (Self n tps dur d (repeat [] (Z.to_nat n)) (repeat [] (Z.to_nat n))
                  (repeat None (Z.to_nat n)) [] 0 t b).
Proof.
  intros Hn. constructor; cbn.
  - done.
  - apply repeat_length.
  - generalize (Z.to_nat n). intros k. induction k; cbn; by constructor.
  - generalize (Z.to_nat n). intros k. induction k as [|k IH]; cbn; [done|]. by rewrite <- IH.
  - by repeat constructor.
  - assert (E : concat (zip_with (zip_with mk_entry) (repeat [] (Z.to_nat n)) (repeat [] (Z.to_nat n))) = []).
    { generalize (Z.to_nat n). intros k. by induction k. }
    unfold held, wheel_entries. cbn. rewrite E. constructor.
  - assert (E : concat (zip_with (zip_with mk_entry) (repeat [] (Z.to_nat n)) (repeat [] (Z.to_nat n))) = []).
    { generalize (Z.to_nat n). intros k. by induction k. }
    unfold held, wheel_entries. cbn. rewrite E. constructor.
  - intros i es e Hi He. exfalso. unfold grid in Hi. cbn in Hi. revert i Hi.
    generalize (Z.to_nat n). intros k. induction k as [|k IH]; intros [|i] Hi; cbn in Hi; try done.
    + injection Hi as <-. by apply elem_of_nil in He.
    + by eapply IH.
Qed.

Lemma empty_held n tps dur d t b :
  held (Self n tps dur d (repeat [] (Z.to_nat n)) (repeat [] (Z.to_nat n))
          (repeat None (Z.to_nat n)) [] 0 t b) = [].
Proof.
  unfold held, wheel_entries. cbn. rewrite app_nil_r.
  generalize (Z.to_nat n). intros k. by induction k.
Qed.

(** ** Restart *)
Section Restart.
Context {W : Type} `{HQB : QueueBackend W, HCL : Clock W, HJ : JsonText, HJL : !JsonTextLaws}.

Definition payload (e : entry) : float * bytes * float := (e_ready e, e_item e, e_priority e).
Definition staged_payload (st : staged) : float * bytes * float :=
  (st_ready st, st_item st, st_priority st).
Definition staged_fine (st : staged) : Prop :=
  isfinite (st_ready st) = true /\ isfinite (st_priority st) = true.

Lemma place_spec now sts : forall s s',
  wf s -> Forall staged_fine sts -> place now sts s = Ok s' ->
  wf s' /\ same_config s s' /\
  Permutation (map payload (held s')) (map staged_payload sts ++ map payload (held s)).
Proof.
  induction sts as [|st sts IH]; intros s s' Hwf Hf; cbn [place].
  { intros [= <-]. done. }
  apply Forall_cons in Hf as [[Hr Hp] Hf].
  destruct (fltb now (st_ready st) && _).
  - destruct (slot_at s (st_ready st)) as [slot|] eqn:Hs; [|done]. cbn [obind]. intros Hpl.
    destruct (append_wf s slot (st_ready st, st_item st, st_priority st) Hwf Hs Hr Hp) as [H1 H2].
    destruct (IH _ _ H1 Hf Hpl) as (Hwf' & Hcf & Hperm). split; [done|]. split; [done|].
    rewrite Hperm, H2. cbn. by rewrite Permutation_middle.
  - fold (add_overflow (Entry (st_ready st) (seq s) (st_item st) (st_priority st)) s). intros Hpl.
    destruct (add_overflow_wf s (Entry (st_ready st) (seq s) (st_item st) (st_priority st))
                Hwf (conj Hr Hp) eq_refl) as [H1 H2].
    destruct (IH _ _ H1 Hf Hpl) as (Hwf' & Hcf & Hperm). split; [done|]. split; [done|].
    rewrite Hperm, H2. cbn. by rewrite Permutation_middle.
Qed.

(** The deadline an entry gets when it is restored. *)
Definition restored_ready (snap_now now downtime : float) (e : entry) : float :=
  fadd now (fmax fzero (fsub (fsub (e_ready e) snap_now) downtime)).

Lemma finite_float f g : finite_number (AFloat f) = Ok g -> g = f /\ isfinite f = true.
Proof. unfold finite_number, to_finite_float. destruct (isfinite f) eqn:E; [|done]. by intros [= <-]. Qed.

Lemma stage_tree snap_now now downtime es : forall n seen sts,
  stage 2 now downtime n seen (map (entry_tree snap_now) es) = Ok sts ->
  Forall staged_fine sts /\
  map staged_payload sts
  = map (fun e => (restored_ready snap_now now downtime e, e_item e, e_priority e)) es.
Proof.
  induction es as [|e es IH]; intros n seen sts; cbn [map stage].
  { intros [= <-]. by split. }
  unfold entry_tree at 1. unfold restored_timing. change (2 =? 1) with false. cbv iota.
  change (item_of "remaining" _) with (Ok (JFloat (fmax fzero (fsub (e_ready e) snap_now)))).
  change (assoc_get "deadline" _) with (Some (JFloat (fsub (e_ready e) snap_now))).
  change (item_of "item_b64" _) with (Ok (b64_json (e_item e))).
  change (item_of "priority" _) with (Ok (JFloat (e_priority e))).
  change (assoc_get "sequence" _) with (Some (JInt (e_seq e))). cbv iota.
  intros ([rd od] & H1 & Hk)%obind_ok. cbn [obind arg_of_json] in H1.
  apply obind_ok in H1 as (rem & Hrem & H1). destruct (fltb rem fzero); [done|].
  apply obind_ok in H1 as (dl & Hdl & H1). apply finite_float in Hdl as [-> _].
  destruct (isfinite (fadd now _)) eqn:Hfin; [|done]. injection H1 as <- <-.
  cbn [obind] in Hk. rewrite b64_of_json_b64 in Hk. cbn [obind py_float] in Hk.
  destruct (isfinite (e_priority e)) eqn:Hp; [|done]. cbn [negb] in Hk.
  destruct (_ || _) in Hk; [done|]. cbn [obind] in Hk.
  destruct (stage _ _ _ _ _ _) as [sts'|] eqn:Hst; [|done]. injection Hk as <-.
  apply IH in Hst as [Hf Heq]. split; [by constructor|]. cbn. by rewrite Heq.
Qed.

Lemma wheel_tree_wf s now f :
  Z.abs (wheel_size s) < 10 ^ max_str_digits ->
  Forall (fun e => Z.abs (e_seq e) < 10 ^ max_str_digits) (held s) ->
  json_wf (snapshot_tree s now (JFloat f)).
Proof.
  intros Hsz Hf. apply Forall_app in Hf as [Hw Ho].
  assert (Hentries : forall es, Forall (fun e => Z.abs (e_seq e) < 10 ^ max_str_digits) es ->
            json_wf (JList (map (entry_tree now) es))).
  { intros es Hes. apply json_wf_list, Forall_forall. rewrite Forall_forall in Hes.
    intros x (e & -> & He)%list_elem_of_fmap. apply json_wf_obj.
    split; [by apply (bool_decide_unpack _)|]. do 4 (constructor; [done|]).
    constructor; [exact (Hes e He)|constructor]. }
  apply json_wf_obj. split; [by apply (bool_decide_unpack _)|].
  constructor; [by vm_compute|]. do 2 (constructor; [done|]). constructor; [exact Hsz|].
  constructor; [by apply Hentries|]. constructor; [by apply Hentries|constructor].
Qed.

(** Restart round trip: a snapshot that restores brings back every entry of
    the wheel and of the overflow heap with its priority, its deadline moved
    by the remaining delay minus the downtime, in a well-formed wheel with
    fresh sequence numbers; a rejected snapshot leaves the strategy as it was. *)
Theorem wheel_snapshot_restore s w b s1 w1 s0 w0 o s' w'
    (Hwf0 : wf s0)
    (Hsize : Z.abs (wheel_size s) < 10 ^ max_str_digits)
    (Hseq : Forall (fun e => Z.abs (e_seq e) < 10 ^ max_str_digits) (held s))
    (Hwall : forall w v w', wall_clock_read w = (Ok v, w') -> exists f, v = AFloat f)
    (Hsnap : snapshot (s, w) = (Ok (Some b), (s1, w1)))
    (Hrest : restore (Some b) (s0, w0) = (o, (s', w'))) :
  s1 = s /\
  match o with
  | Ok _ => exists snap_now now downtime, wf s' /\
      Permutation (map payload (held s'))
        (map (fun e => (restored_ready snap_now now downtime e, e_item e, e_priority e)) (held s))
  | Raise e => s' = s0 /\ (is_ordinary e = true -> e = ERestore)
  end.
Proof.
  assert (Hb : s1 = s /\ exists now f, b = json_dumps (snapshot_tree s now (JFloat f))).
  { unfold snapshot in Hsnap. unfold bind at 1, on_fst, get in Hsnap.
    destruct (_ && _); [done|].
    apply bind_ok_inv in Hsnap as (now & [s2 w2] & Hc & Hk). apply clock_now_ok in Hc as [-> _].
    apply bind_ok_inv in Hk as (wv & [s3 w3] & Hw & Hk). apply on_snd_fst in Hw as [-> Hw].
    apply bind_ok_inv in Hk as (wall & st & Hj & Hk). apply lift_ok in Hj as [Hj ->].
    destruct (Hwall _ _ _ Hw) as [f ->]. unfold wall_json in Hj.
    destruct (isfinite f); [|done]. injection Hj as <-. injection Hk as <- <- <-. eauto. }
  destruct Hb as [-> (snap_now & f & ->)]. split; [done|].
  unfold restore in Hrest. destruct (rebuild _ s0 w0) as [o1 w2] eqn:Hr.
  destruct o1 as [s2|e]; cbn [restore_guard] in Hrest; injection Hrest as <- <- <-.
  2: { split; [done|]. destruct (is_ordinary e) eqn:E; [done|congruence]. }
  unfold rebuild in Hr. apply bind_ok_inv in Hr as (data & w3 & Hd & Hk).
  apply lift_ok in Hd as [Hd ->].
  rewrite json_loads_dumps in Hd by by apply wheel_tree_wf. injection Hd as <-.
  unfold snapshot_tree at 1 in Hk.
  replace (wheel_header _) with (Some (2, map (entry_tree snap_now) (wheel_entries s),
                                     map (entry_tree snap_now) (overflow s))) in Hk by done.
  apply bind_ok_inv in Hk as (cv & w4 & Hc & Hk).
  apply bind_ok_inv in Hk as (now & w5 & Hn & Hk). apply lift_ok in Hn as [_ ->].
  apply bind_ok_inv in Hk as (downtime & w6 & _ & Hk).
  apply bind_ok_inv in Hk as (sts & w7 & Hst & Hk). apply lift_ok in Hst as [Hst ->].
  apply bind_ok_inv in Hk as (s3 & w8 & Hpl & Hk). apply lift_ok in Hpl as [Hpl ->].
  apply bind_ok_inv in Hk as (tick & w9 & _ & Hk). injection Hk as <- _.
  rewrite <- map_app in Hst. apply stage_tree in Hst as [Hfine Hpay].
  eapply place_spec in Hpl as (Hwf3 & _ & Hperm);
    [|apply empty_wf, Hwf0|by rewrite sort_by_perm].
  exists snap_now, now, downtime. split; [by apply (with_tick_wf s3 tick)|].
  change (held (with_state s3 _ _ _ _ _ _)) with (held s3).
  unfold with_state in Hperm. rewrite Hperm, empty_held, app_nil_r, sort_by_perm, Hpay. done.
Qed.
End Restart.

(** ** Concrete runs *)
Module Examples.
Import MemClock.
Definition fl (n : Z) : float := float_of_Z n.
Definition s0 : self :=
  Self 4 (fl 1) (fl 4) fzero (repeat [] 4) (repeat [] 4) (repeat None 4) [] 0 0 None.
Definition s1 : self := append_wheel_entry 2 (fl 2, [x61], fzero) s0.
Definition s2 : self := add_overflow (Entry (fl 9) (seq s1) [x62] fzero) s1.

Lemma s2_wf : wf s2.
Proof.
  assert (H0 : wf s0) by (apply (empty_wf 4); lia).
  assert (H1 : wf s1).
  { refine (proj1 (append_wf s0 2 (fl 2, [x61], fzero) H0 _ _ _)); by vm_compute. }
  refine (proj1 (add_overflow_wf s1 (Entry (fl 9) (seq s1) [x62] fzero) H1 _ _)); [|done].
  split; by vm_compute.
Qed.

Definition drained := Eval vm_compute in drain_ready "q" (s2, (∅ : MemQueue.state, 4)).

Lemma drain_moves_due_in_order_witness :
  map e_item (held (fst (snd drained))) = [[x62]] /\
  (fst (snd drained) = s2 /\ (exists e, fst drained = Raise e) \/
   exists moved, Permutation (held s2) (moved ++ held (fst (snd drained)))
                 /\ wf (fst (snd drained))).
Proof.
  split; [by vm_compute|].
  assert (E : drain_ready "q" (s2, (∅ : MemQueue.state, 4))
              = (fst drained, (fst (snd drained), snd (snd drained)))) by by vm_compute.
  destruct (drain_moves_due_in_order "q" s2 (∅, 4) _ _ _ s2_wf E)
    as [H|(wc & v & now & tick & w0 & moved & rest & w1 & _ & _ & _ & _ & _ & _ & Hp & Hw & _)];
    [by left|right].
  exists moved. split; [exact Hp|exact Hw].
Defined.

Lemma drain_leaves_nothing_due_witness :
  exists wc v w0 now, clock_read wc = (Ok v, w0) /\ finite_number v = Ok now /\
    tick_at (fl 1) now = Ok (last_tick (fst (snd drained))) /\
    Forall (fun e => fleb (e_ready e) now = false
                     \/ (e ∈ wheel_entries s2 /\
                         last_tick (fst (snd drained)) < release_tick (fl 1) (e_ready e)))
      (held (fst (snd drained))).
Proof.
  assert (E : drain_ready "q" (s2, (∅ : MemQueue.state, 4))
              = (Ok tt, (fst (snd drained), snd (snd drained)))) by by vm_compute.
  assert (Ha : ahead s2).
  { change (Forall (fun e => last_tick s2 < release_tick (ticks_per_second s2) (e_ready e))
              [Entry (fl 2) 0 [x61] fzero]).
    constructor; [by vm_compute|constructor]. }
  exact (drain_leaves_nothing_due "q" s2 (∅, 4) _ _ s2_wf Ha E).
Defined.

Definition pushed := Eval vm_compute in push "q" [x63] (AInt 0) (AInt 1) (s2, (∅ : MemQueue.state, 4)).

Lemma push_schedules_witness :
  exists v now, clock_read (∅ : MemQueue.state, 4) = (Ok v, snd (snd pushed)) /\
    finite_number v = Ok now /\ wf (fst (snd pushed)) /\
    let e := Entry (fadd now (fl 1)) (seq s2) [x63] (fl 0) in
    Permutation (held (fst (snd pushed))) (e :: held s2) /\ e ∈ wheel_entries (fst (snd pushed)).
Proof.
  assert (E : push "q" [x63] (AInt 0) (AInt 1) (s2, (∅ : MemQueue.state, 4))
              = (Ok tt, (fst (snd pushed), snd (snd pushed)))) by by vm_compute.
  exact (push_schedules "q" [x63] (fl 0) (fl 1) s2 (∅, 4) tt _ _ (AInt 1) (AInt 0)
           s2_wf eq_refl eq_refl eq_refl E).
Defined.

#[local] Instance text : JsonText := PlainText.text.
#[local] Instance text_laws : JsonTextLaws := PlainText.laws.
Definition blob : bytes :=
  match fst (snapshot (s2, (∅ : MemQueue.state, 4))) with Ok (Some b) => b | _ => [] end.
Definition restored := restore (Some blob) (s0, (∅ : MemQueue.state, 6)).

Lemma wheel_snapshot_restore_witness :
  map e_item (held (fst (snd restored))) = [[x62]; [x61]] /\ wf (fst (snd restored)).
Proof.
  split; [by vm_compute|].
  assert (E1 : snapshot (s2, (∅ : MemQueue.state, 4)) = (Ok (Some blob), (s2, (∅, 5)))) by by vm_compute.
  assert (E2 : restore (Some blob) (s0, (∅ : MemQueue.state, 6))
               = (Ok tt, (fst (snd restored), snd (snd restored)))) by by vm_compute.
  assert (Hw : forall (w : env) v w', wall_clock_read w = (Ok v, w') -> exists f, v = AFloat f).
  { intros [m n] v w' [= <- _]. eauto. }
  assert (H0 : wf s0) by (apply (empty_wf 4); lia).
  assert (Hsize : Z.abs (wheel_size s2) < 10 ^ max_str_digits) by by vm_compute.
  assert (Hseq : Forall (fun e => Z.abs (e_seq e) < 10 ^ max_str_digits) (held s2)).
  { change (Forall (fun e => Z.abs (e_seq e) < 10 ^ max_str_digits)
              [Entry (fl 2) 0 [x61] fzero; Entry (fl 9) 1 [x62] fzero]).
    constructor; [by vm_compute|]. constructor; [by vm_compute|constructor]. }
  destruct (wheel_snapshot_restore _ _ _ _ _ _ _ _ _ _ H0 Hsize Hseq Hw E1 E2)
    as [_ (a & b & c & Hok & _)].
  exact Hok.
Defined.

(** *** A delay below the resolution of the clock

    An environment whose clock shows the value it holds, so that two readings
    can be equal. *)
Definition still : Type := MemQueue.state * float.
#[local] Instance still_backend : QueueBackend still :=
  let mem := MemQueue.backend false in {|
  get_queue_backend := on_fst (@get_queue_backend _ mem);
  qb_push q x p := on_fst (@qb_push _ mem q x p);
  qb_pop q t := on_fst (@qb_pop _ mem q t);
  qb_pop_with_ack_override := None;
  qb_ack i q t := ret tt;
  qb_nack i q t := ret tt;
  qb_queue_len q := on_fst (@qb_queue_len _ mem q);
  qb_clear_queue q := on_fst (@qb_clear_queue _ mem q);
  qb_push_is_durable := false;
  qb_push_with_durability_override := None
|}.
#[local] Instance still_clock : Clock still := {|
  clock_read := fun '(b, t) => (Ok (AFloat t), (b, t));
  wall_clock_read := fun '(b, t) => (Ok (AFloat t), (b, t))
|}.

Definition tiny : float := S754_finite false 4503599627370496 (-112).
Definition drain_at (t : Z) (s : self) : self :=
  fst (snd (@drain_ready still _ _ "q" (s, (∅, fl t)))).
Definition at8 : self := drain_at 8 s0.
Definition with_tiny : self :=
  fst (snd (@push still _ _ "q" [x64] (AInt 0) (AFloat tiny) (at8, (∅, fl 8)))).

(** The release tick of an entry can equal the tick that was just drained: a
    positive delay that rounds away against a clock reading that is an exact
    tick.  Its slot is then not scanned again before a full rotation: the item
    is due at clock 8, drains at 9, 10 and 11 leave it held although the wait
    computed from its slot minimum is zero, and the drain at 12 releases it. *)
Lemma sub_resolution_delay_waits_a_rotation :
  map (fun e => (e_item e, feqb (e_ready e) (fl 8))) (held with_tiny) = [([x64], true)] /\
  map e_item (held (drain_at 11 (drain_at 10 (drain_at 9 with_tiny)))) = [[x64]] /\
  next_release_at (drain_at 9 with_tiny) = Some (fl 8) /\
  held (drain_at 12 (drain_at 11 with_tiny)) = [].
Proof. by vm_compute. Qed.
End Examples.
End TimeWheelFacts.
