(* ===== verification/Throttle.v ===== *)
(** * The throttle strategy

    queue/strategies/throttle.py: a minimum interval between successful pops.
    Pushes, lengths and the backend itself are those of the passthrough route.
    The clock is one that returns floats. *)

From S2P Require Export Clock.

Module Throttle.
Definition THROTTLE_MAX_MIN_INTERVAL_S : float := float_of_Z 3600.

Record self := Self { min_interval : float; last_pop : option float }.

(** [__init__]. *)
Definition init (interval : pyarg) : outcome self :=
  obind (to_finite_float interval) (fun f =>
  if fltb f fzero then Raise EValue
  else if fltb THROTTLE_MAX_MIN_INTERVAL_S f then Raise EConfiguration
  else Ok (Self f None)).

Section Throttle.
Context {W : Type} `{QueueBackend W, Clock W}.

Definition read_clock : M (self * W) float :=
  let! v := on_snd clock_read in
  match v with AFloat f => ret f | _ => raise EType end.

Definition is_push_durable : bool := true.

(** [_prepare_push] and [push]: the backend route, untouched by the gate. *)
Definition prepare_push (queue_name : string) (priority : float) : prepared_push W :=
  prepare_backend_push queue_name priority.
Definition push (queue_name : string) (item : bytes) (priority : float) : M (self * W) unit :=
  let! _ := on_snd get_queue_backend in on_snd (qb_push queue_name item priority).

(** The gate: may a pop proceed at clock reading [now]? *)
Definition throttled (s : self) (now : float) : bool :=
  match last_pop s with
  | Some t => fltb (fsub now t) (min_interval s)
  | None => false
  end.

(** [pop]. *)
Definition pop (queue_name : string) (timeout : pyarg) : M (self * W) (option bytes) :=
  let! t := lift (normalize_queue_timeout timeout) in
  let! _ := on_snd get_queue_backend in
  let! s := on_fst get in
  if feqb (min_interval s) fzero then on_snd (qb_pop queue_name t)
  else
    let! now := read_clock in
    if throttled s now then ret None
    else
      let! item := on_snd (qb_pop queue_name t) in
      match item with
      | None => ret None
      | Some x =>
          let! after := read_clock in
          let! _ := on_fst (modify (fun s => Self (min_interval s) (Some after))) in
          ret (Some x)
      end.

(** [pop_with_ack]: a token-only delivery does not move the timer. *)
Definition pop_with_ack (queue_name : string) (timeout : pyarg)
    : M (self * W) (option bytes * option ack_token) :=
  let! t := lift (normalize_queue_timeout timeout) in
  let! s := on_fst get in
  if feqb (min_interval s) fzero then on_snd (pop_backend_with_ack queue_name t)
  else
    let! now := read_clock in
    if throttled s now then ret (None, None)
    else
      let! r := on_snd (pop_backend_with_ack queue_name t) in
      match fst r with
      | None => ret r
      | Some _ =>
          let! after := read_clock in
          let! _ := on_fst (modify (fun s => Self (min_interval s) (Some after))) in
          ret r
      end.

(** [queue_len]. *)
Definition queue_len (queue_name : string) : M (self * W) Z :=
  let! _ := on_snd get_queue_backend in on_snd (qb_queue_len queue_name).

(** [clear]. *)
Definition clear (queue_name : string) : M (self * W) unit :=
  let! _ := on_snd get_queue_backend in
  let! _ := on_snd (qb_clear_queue queue_name) in
  on_fst (modify (fun s => Self (min_interval s) None)).

(** ** Lemmas *)
Lemma read_clock_inv s w o s' w' :
  read_clock (s, w) = (o, (s', w')) ->
  s' = s /\ (forall f, o = Ok f -> clock_read w = (Ok (AFloat f), w')).
Proof.
  unfold read_clock. intros [(v & [s1 w1] & Hc & Hk)|(e & Hc & ->)]%bind_inv.
  - apply on_snd_fst in Hc as [-> Hc]. destruct v; injection Hk as <- <- <-;
      (split; [done|]); intros g [=]; by subst.
  - apply on_snd_fst in Hc as [-> _]. done.
Qed.

(** What a pop with a positive interval does to the timer. *)
Lemma pop_timer q timeout s w o s' w' :
  feqb (min_interval s) fzero = false ->
  pop q timeout (s, w) = (o, (s', w')) ->
  min_interval s' = min_interval s /\
  match o with
  | Ok (Some x) => exists now after wg wb wp,
      clock_read wg = (Ok (AFloat now), wb) /\ throttled s now = false /\
      clock_read wp = (Ok (AFloat after), w') /\ last_pop s' = Some after
  | _ => last_pop s' = last_pop s
  end.
Proof.
  intros Hint Hpop. unfold pop in Hpop.
  apply bind_inv in Hpop as [(t & st & Ht & Hk)|(e & Ht & ->)].
  2: { by injection Ht as _ <- <-. }
  apply lift_ok in Ht as [_ ->].
  apply bind_inv in Hk as [(i & [s1 w1] & Hg & Hk)|(e & Hg & ->)].
  2: { by apply on_snd_fst in Hg as [-> _]. }
  apply on_snd_fst in Hg as [-> _]. unfold bind at 1, on_fst at 1, get in Hk. rewrite Hint in Hk.
  apply bind_inv in Hk as [(now & [s2 w2] & Hc & Hk)|(e & Hc & ->)].
  2: { by apply read_clock_inv in Hc as [-> _]. }
  apply read_clock_inv in Hc as [-> Hc].
  destruct (throttled s now) eqn:Hth; [by injection Hk as <- <- <-|].
  apply bind_inv in Hk as [(r & [s3 w3] & Hp & Hk)|(e & Hp & ->)].
  2: { by apply on_snd_fst in Hp as [-> _]. }
  apply on_snd_fst in Hp as [-> _]. destruct r as [x|]; [|by injection Hk as <- <- <-].
  apply bind_inv in Hk as [(after & [s4 w4] & Ha & Hk)|(e & Ha & ->)].
  2: { by apply read_clock_inv in Ha as [-> _]. }
  apply read_clock_inv in Ha as [-> Ha]. injection Hk as <- <- <-. split; [done|].
  exists now, after, w1, w2, w3. split_and!; auto.
Qed.

(** ** Properties *)

(** A pop inside the interval is refused without touching the backend: all it
    did was resolve the backend object and read the clock. *)
Theorem throttled_pop_is_inert q t s w i w1 now w2
    (Hint : feqb (min_interval s) fzero = false)
    (Hget : get_queue_backend w = (Ok i, w1))
    (Hclock : clock_read w1 = (Ok (AFloat now), w2))
    (Hth : throttled s now = true) :
  pop q (AInt t) (s, w)
  = match normalize_queue_timeout (AInt t) with
    | Ok _ => (Ok None, (s, w2))
    | Raise e => (Raise e, (s, w))
    end.
Proof.
  unfold pop. unfold bind at 1, lift. destruct (normalize_queue_timeout _); [|done].
  unfold bind at 1, on_snd at 1. rewrite Hget. unfold bind at 1, on_fst at 1, get.
  rewrite Hint. unfold bind at 1, read_clock, bind, on_snd. rewrite Hclock.
  unfold ret. by rewrite Hth.
Qed.

(** Pops in sequence, with the timestamps of the successful ones: the reading
    that opened the gate and the reading that was stored. *)
Inductive pops (q : string) : self * W -> list (float * float) -> self * W -> Prop :=
  | pops_nil st : pops q st [] st
  | pops_miss t st o st1 l st2 :
      pop q t st = (o, st1) -> (forall x, o <> Ok (Some x)) -> pops q st1 l st2 ->
      pops q st l st2
  | pops_hit t s w x s1 w1 now after l st2 :
      pop q t (s, w) = (Ok (Some x), (s1, w1)) ->
      throttled s now = false -> last_pop s1 = Some after ->
      (exists wg wb, clock_read wg = (Ok (AFloat now), wb)) ->
      pops q (s1, w1) l st2 -> pops q (s, w) ((now, after) :: l) st2.

(** The gap between a stored timestamp and the next gate opening. *)
Fixpoint spaced (interval : float) (last : option float) (l : list (float * float)) : Prop :=
  match l with
  | [] => True
  | (now, after) :: l' =>
      match last with Some t => fltb (fsub now t) interval = false | None => True end
      /\ spaced interval (Some after) l'
  end.

(** Rate limit: over any sequence of pops, with misses, refusals and failures
    in between, every successful pop passed its gate at least [min_interval]
    after the timestamp taken when the previous success completed; and every
    successful pop is timestamped. *)
Theorem pops_spaced q s w l s' w'
    (Hint : feqb (min_interval s) fzero = false)
    (Hrun : pops q (s, w) l (s', w')) :
  spaced (min_interval s) (last_pop s) l.
Proof.
  remember (s, w) as st eqn:Est. remember (s', w') as st' eqn:Est'.
  revert s w Est Hint. induction Hrun as [st|t st o st1 l st2 Hp Hmiss Hrun IH|t s0 w0 x s1 w1 now after l st2 Hp Hth Hl Hc Hrun IH];
    intros s w Est Hint; [done| |].
  - subst st. destruct st1 as [s1 w1]. destruct (pop_timer _ _ _ _ _ _ _ Hint Hp) as [Hm Hlp].
    assert (last_pop s1 = last_pop s) as E.
    { destruct o as [[x|]|e]; [by destruct (Hmiss x)|done|done]. }
    rewrite <- Hm, <- E. apply (IH Est' s1 w1); [done|by rewrite Hm].
  - injection Est as -> ->. destruct (pop_timer _ _ _ _ _ _ _ Hint Hp) as [Hm _].
    cbn [spaced]. split.
    + unfold throttled in Hth. by destruct (last_pop s).
    + rewrite <- Hm, <- Hl. apply (IH Est' s1 w1); [done|by rewrite Hm].
Qed.
End Throttle.

Module Examples.
Import MemClock.
Definition s0 : self := Self (float_of_Z 3) None.
Definition b0 : MemQueue.state := {["q"%string := [[x61]; [x62]]]}.

Lemma throttled_pop_is_inert_witness :
  pop "q" (AInt 0) (Self (float_of_Z 3) (Some (float_of_Z 4)), (b0, 4))
  = (Ok None, (Self (float_of_Z 3) (Some (float_of_Z 4)), (b0, 5))).
Proof.
  exact (throttled_pop_is_inert "q" 0 (Self (float_of_Z 3) (Some (float_of_Z 4))) (b0, 4) 0%nat
           (b0, 4) (float_of_Z 5) (b0, 5) eq_refl eq_refl eq_refl eq_refl).
Defined.

(** Two successes with a refused pop in between. *)
Lemma pops_spaced_witness :
  spaced (float_of_Z 3) None [(float_of_Z 1, float_of_Z 2); (float_of_Z 5, float_of_Z 6)].
Proof.
  refine (pops_spaced "q" s0 (b0, 0) _ (Self (float_of_Z 3) (Some (float_of_Z 6)))
            ({["q"%string := []]} : MemQueue.state, 6) _ _).
  - reflexivity.
  - eapply (pops_hit "q" (AInt 0)); [by vm_compute|by vm_compute|by vm_compute| |].
    { exists (b0, 0), (b0, 1). by vm_compute. }
    eapply (pops_miss "q" (AInt 0)); [by vm_compute|done|].
    eapply (pops_miss "q" (AInt 0)); [by vm_compute|done|].
    eapply (pops_hit "q" (AInt 0)); [by vm_compute|by vm_compute|by vm_compute| |].
    { exists (b0, 4), (b0, 5). by vm_compute. }
    apply pops_nil.
Defined.
End Examples.
End Throttle.
