(* ===== verification/WorkStealing.v ===== *)
(** * The work-stealing strategy

    queue/strategies/work_stealing.py: one physical queue per worker; a pop
    tries the own queue, then steals from the peers in rotation, then waits on
    its own queue.  [time.monotonic] is the clock of the environment and
    [uuid.uuid4] a parameter. *)

From S2P Require Export Loops Names Clock.

Module WorkStealing.
Definition MAX_STEAL_PEERS : Z := 256.

Record self := Self {
  worker_id : string;
  peer_ids : list string;
  steal_timeout : float;
  steal_idx : Z;
  physical_names : gmap (string * string) string;
  name_generation : string;
  backend_type : option string;
  noop_warned : bool
}.

Definition with_idx (s : self) (idx : Z) : self :=
  Self (worker_id s) (peer_ids s) (steal_timeout s) idx (physical_names s)
    (name_generation s) (backend_type s) (noop_warned s).
Definition with_names (s : self) names warned : self :=
  Self (worker_id s) (peer_ids s) (steal_timeout s) (steal_idx s) names
    (name_generation s) (backend_type s) warned.

Definition n_peers (s : self) : Z := Z.of_nat (length (peer_ids s)).

(** The loop of [__init__] over [peer_ids]; None stands for a value that is
    not a string. *)
Fixpoint normalize_peers (seen : list string) (count : Z) (peers : list (option string))
    : outcome (list string) :=
  match peers with
  | [] => Ok []
  | None :: _ => Raise EValue
  | Some peer :: peers' =>
      if bool_decide (peer = EmptyString) then Raise EValue
      else
        obind (validate_key_name peer None) (fun _ =>
        if bool_decide (peer ∈ seen) then normalize_peers seen count peers'
        else if MAX_STEAL_PEERS <? count + 1 then Raise EValue
        else omap (cons peer) (normalize_peers (peer :: seen) (count + 1) peers'))
  end.

Section WorkStealing.
Variable blake2s_hex : bytes -> string.
Variable uuid4_hex : string.

(** [__init__]; [worker] is None for a value that is neither None nor a
    string, [Some None] for None; [peers] is None when it is one string. *)
Definition init (bt : option string) (warned : bool) (worker : option (option string))
    (peers : option (list (option string))) (timeout : pyarg) (generation : string)
    : outcome self :=
  obind (ensure_fanout_backend_supported bt) (fun _ =>
  obind (normalize_queue_timeout timeout) (fun st =>
  obind (match worker with
         | None => Raise EValue
         | Some None => Ok tt
         | Some (Some w) =>
             if bool_decide (w = EmptyString) then Raise EValue else validate_key_name w None
         end) (fun _ =>
  if negb (string_in generation [CURRENT_FANOUT_NAME_GENERATION; LEGACY_FANOUT_NAME_GENERATION])
  then Raise EValue
  else
    let w := match worker with Some (Some w) => w | _ => uuid4_hex end in
    match peers with
    | None => Raise EValue
    | Some ps =>
        omap (fun l => Self w l st 0 ∅ generation bt warned) (normalize_peers [w] 0 ps)
    end))).

Definition resolve (s : self) (queue_name worker : string) : M bool string :=
  physical_strategy_queue_name blake2s_hex (backend_type s) queue_name "worker"
    worker (queue_name ++ ":" ++ worker) (name_generation s).

(** [_worker_queue]: the memoised physical name. *)
Definition worker_queue (queue_name worker : string) : M self string := fun s =>
  match physical_names s !! (queue_name, worker) with
  | Some name => (Ok name, s)
  | None =>
      match resolve s queue_name worker (noop_warned s) with
      | (Ok name, w) =>
          (Ok name, with_names s (<[(queue_name, worker) := name]> (physical_names s)) w)
      | (Raise e, w) => (Raise e, with_names s (physical_names s) w)
      end
  end.

(** [_own_queue]. *)
Definition own_queue (queue_name : string) : M self string :=
  fun s => worker_queue queue_name (worker_id s) s.

Context {W : Type} `{QueueBackend W, Clock W}.

Definition monotonic : M (self * W) float :=
  let! v := on_snd clock_read in
  match v with AFloat f => ret f | _ => raise EType end.

(** [_remaining_timeout]. *)
Definition remaining_timeout (deadline : option float) : M (self * W) float :=
  match deadline with
  | None => ret fzero
  | Some d => let! now := monotonic in ret (fmax fzero (fsub d now))
  end.

Definition is_push_durable : bool := true.

(** [_prepare_push]: the own queue is resolved when the route is frozen. *)
Definition prepare_push (queue_name : string) (priority : float)
    : M (self * W) (prepared_push W) :=
  let! own := on_fst (own_queue queue_name) in ret (prepare_backend_push own priority).

(** [push]. *)
Definition push (queue_name : string) (item : bytes) (priority : float) : M (self * W) unit :=
  let! _ := on_snd get_queue_backend in
  let! own := on_fst (own_queue queue_name) in
  on_snd (qb_push own item priority).

Section Pop.
Context {A : Type} (pop_from : string -> float -> M W A) (hit : A -> bool) (none : A).

(** One probe of the steal loop: the peer at rotation offset [i]. *)
Definition probe_peer (queue_name : string) (deadline : option float) (base : Z) (i : Z)
    : M (self * W) (Z * A) :=
  let! s := on_fst get in
  let idx := (base + i) mod n_peers s in
  let peer := match peer_ids s !! Z.to_nat idx with Some p => p | None => EmptyString end in
  let! remaining := remaining_timeout deadline in
  let! name := on_fst (worker_queue queue_name peer) in
  let! r := on_snd (pop_from name (fmin (steal_timeout s) remaining)) in
  ret (idx, r).

(** The steal loop: the cursor moves past the peer that was stolen from. *)
Definition steal (queue_name : string) (deadline : option float) : M (self * W) A :=
  let! s := on_fst get in
  let! found := scan_first (probe_peer queue_name deadline (steal_idx s)) (fun r => hit (snd r))
                  (0, none) (seqZ 0 (n_peers s)) in
  if hit (snd found) then
    let! _ := on_fst (modify (fun s => with_idx s ((fst found + 1) mod n_peers s))) in
    ret (snd found)
  else ret none.

Definition probe_worker (queue_name worker : string) : M (self * W) A :=
  let! name := on_fst (worker_queue queue_name worker) in on_snd (pop_from name fzero).

(** The common body of [pop] and [pop_with_ack] once the backend is resolved. *)
Definition pop_body (queue_name : string) (timeout : float) : M (self * W) A :=
  let! own := on_fst (own_queue queue_name) in
  let! deadline := (if fltb fzero timeout
                    then let! now := monotonic in ret (Some (fadd now timeout))
                    else ret None) in
  let! r := on_snd (pop_from own fzero) in
  if hit r then ret r
  else
    let! s := on_fst get in
    let! stolen := (if 0 <? n_peers s then steal queue_name deadline else ret none) in
    if hit stolen then ret stolen
    else
      let! remaining := remaining_timeout deadline in
      if fltb fzero remaining then
        let! r1 := on_snd (pop_from own remaining) in
        if hit r1 then ret r1
        else
          let! r2 := on_snd (pop_from own fzero) in
          if hit r2 then ret r2
          else
            let! s := on_fst get in
            scan_first (probe_worker queue_name) hit none (peer_ids s)
      else ret none.
End Pop.

(** [pop]. *)
Definition pop (queue_name : string) (timeout : pyarg) : M (self * W) (option bytes) :=
  let! t := lift (normalize_queue_timeout timeout) in
  let! _ := on_snd get_queue_backend in
  pop_body qb_pop (fun r => bool_decide (is_Some r)) None queue_name t.

(** [pop_with_ack]: a token-only tombstone counts as a hit. *)
Definition pop_with_ack (queue_name : string) (timeout : pyarg)
    : M (self * W) (option bytes * option ack_token) :=
  let! t := lift (normalize_queue_timeout timeout) in
  let! i := on_snd get_queue_backend in
  pop_body (pop_backend_instance_with_ack i)
    (fun r => bool_decide (is_Some (fst r)) || bool_decide (is_Some (snd r)))
    (None, None) queue_name t.

(** [queue_len]: the own queue and every peer's. *)
Definition queue_len (queue_name : string) : M (self * W) Z :=
  let! _ := on_snd get_queue_backend in
  let! s := on_fst get in
  sum_over (fun worker => let! name := on_fst (worker_queue queue_name worker) in
                          on_snd (qb_queue_len name)) 0 (worker_id s :: peer_ids s).

(** [clear]: the own queue only. *)
Definition clear (queue_name : string) : M (self * W) unit :=
  let! _ := on_snd get_queue_backend in
  let! own := on_fst (own_queue queue_name) in
  on_snd (qb_clear_queue own).
End WorkStealing.

(** ** Lemmas *)
Section Lemmas.
Variable blake2s_hex : bytes -> string.

Definition worker_name (s : self) (queue_name worker : string) : outcome string :=
  fst (resolve blake2s_hex s queue_name worker false).

Definition same_config (s s' : self) : Prop :=
  worker_id s' = worker_id s /\ peer_ids s' = peer_ids s /\ steal_timeout s' = steal_timeout s
  /\ name_generation s' = name_generation s /\ backend_type s' = backend_type s.

(** The memo holds computed names, the cursor is in range and the steal
    timeout is one [__init__] accepts. *)
Record ok (s : self) : Prop := {
  ok_memo : forall q w n, physical_names s !! (q, w) = Some n -> worker_name s q w = Ok n;
  ok_cursor : 0 <= steal_idx s < Z.max 1 (n_peers s);
  ok_timeout : fleb fzero (steal_timeout s) = true
}.

Lemma worker_name_config s s' q w : same_config s s' -> worker_name s' q w = worker_name s q w.
Proof. intros (_ & _ & _ & H1 & H2). unfold worker_name, resolve. by rewrite H1, H2. Qed.

Lemma ws_config_trans s1 s2 s3 : same_config s1 s2 -> same_config s2 s3 -> same_config s1 s3.
Proof. unfold same_config. intuition congruence. Qed.

Lemma worker_latch s q l w : fst (resolve blake2s_hex s q l w) = worker_name s q l.
Proof.
  unfold worker_name, resolve, physical_strategy_queue_name.
  destruct (negb _); [done|]. unfold bind, ret, lift, warn_legacy_generation_noop.
  destruct (_ && negb _); [|by destruct (_ && _)]. unfold bind, get, put.
  destruct w; by destruct (_ && _).
Qed.

Lemma worker_queue_spec q w s o s' :
  ok s -> worker_queue blake2s_hex q w s = (o, s') ->
  o = worker_name s q w /\ ok s' /\ same_config s s' /\ steal_idx s' = steal_idx s.
Proof.
  intros Hok. unfold worker_queue. destruct (physical_names s !! (q, w)) as [n|] eqn:E.
  - intros [= <- <-]. by rewrite (ok_memo s Hok _ _ _ E).
  - pose proof (worker_latch s q w (noop_warned s)) as Hr.
    destruct (resolve blake2s_hex s q w (noop_warned s)) as [[n|e] b];
      intros [= <- <-]; cbn in Hr; (split; [done|]); (split; [|done]).
    + constructor; [|apply Hok|apply Hok].
      intros q' w' n'. cbn. rewrite lookup_insert. case_decide as Hd.
      * injection Hd as <- <-. by intros [= <-].
      * apply Hok.
    + destruct Hok. by constructor.
Qed.

Context {W : Type} `{HQB : QueueBackend W, HCL : Clock W, HL : !QueueBackendLaws W}.

Definition empty_at (s : self) (q : string) (b : W) (worker : string) : Prop :=
  forall name, worker_name s q worker = Ok name -> waiting b name = [].

(** One non-blocking probe of a worker's queue, whatever the zero is. *)
Lemma probe_spec q worker t s b name r s1 b' :
  ok s -> feqb t fzero = true ->
  worker_queue blake2s_hex q worker s = (Ok name, s1) -> qb_pop name t b = (Ok r, b') ->
  worker_name s q worker = Ok name /\
  match r with
  | Some x => Permutation (waiting b name) (x :: waiting b' name)
              /\ forall n, n <> name -> waiting b' n = waiting b n
  | None => waiting b name = [] /\ forall n, waiting b' n = waiting b n
  end.
Proof.
  intros Hok Ht Hn Hp. destruct (worker_queue_spec _ _ _ _ _ Hok Hn) as (E & _ & _ & _).
  split; [done|]. apply qb_pop_ok in Hp as [Hr Ho]; [|done]. destruct r as [x|]; [done|].
  destruct Hr as [Hw Hw']. split; [done|]. intros n.
  destruct (decide (n = name)) as [->|]; [congruence|auto].
Qed.

Definition peer_at (s : self) (i : Z) : string :=
  match peer_ids s !! Z.to_nat ((steal_idx s + i) mod n_peers s) with
  | Some p => p | None => EmptyString end.

Lemma probe_timeout s : ok s -> feqb (fmin (steal_timeout s) fzero) fzero = true.
Proof.
  intros Hok. pose proof (ok_timeout s Hok) as Ht. unfold fmin.
  destruct (fltb fzero (steal_timeout s)) eqn:E; [done|].
  destruct (fleb_not_nan _ _ Ht) as [_ Hn]. apply feqb_fkey; [done|done|].
  destruct (klt_total (fkey (steal_timeout s)) (fkey fzero)) as [Hk|[Hk|Hk]]; [|done|].
  - apply fleb_klt in Ht; done.
  - apply fltb_klt in Hk; [congruence|done|done].
Qed.

(** A chain of missed probes of the rotation. *)
Lemma steal_misses q base js s b s' b' :
  ok s -> steal_idx s = base ->
  misses (probe_peer blake2s_hex qb_pop q None base) (fun r => bool_decide (is_Some (snd r))) js
    (s, b) (s', b') ->
  ok s' /\ same_config s s' /\ steal_idx s' = base /\ (forall n, waiting b' n = waiting b n)
  /\ Forall (fun i => empty_at s q b (peer_at s i)) js.
Proof.
  revert s b. induction js as [|i js IH]; intros s b Hok Hidx; cbn [misses].
  - by intros [= -> ->].
  - intros (r & [s2 b2] & Hp & Hr & Hms). apply bool_decide_eq_false in Hr.
    unfold probe_peer in Hp. unfold bind at 1, on_fst at 1, get in Hp.
    unfold bind at 1 in Hp. cbn [remaining_timeout ret] in Hp.
    apply bind_ok_inv in Hp as (name & st & H1 & H2).
    apply on_fst_ok in H1 as (s1 & H1 & ->). apply bind_ok_inv in H2 as (r0 & st & H2 & H3).
    apply on_snd_ok in H2 as (b1 & H2 & ->). injection H3 as <- <- <-.
    destruct (worker_queue_spec _ _ _ _ _ Hok H1) as (_ & Hok1 & Hc1 & Hi1).
    destruct (probe_spec _ _ _ _ _ _ _ _ _ Hok (probe_timeout s Hok) H1 H2) as [Hn Hw].
    cbn in Hr. destruct r0 as [x|]; [by destruct Hr|]. destruct Hw as [Hw Hsame].
    rewrite <- Hi1 in Hidx. destruct (IH s1 b1 Hok1 Hidx Hms) as (Hok' & Hc' & Hi' & Hsame' & Hall).
    split; [done|]. split; [by eapply ws_config_trans|]. split; [done|].
    split; [intros n; by rewrite Hsame'|]. constructor.
    + intros n Hn'. unfold peer_at in Hn'. rewrite <- Hi1, Hidx in Hn'. congruence.
    + eapply Forall_impl; [exact Hall|]. intros j He n Hn'. rewrite <- (Hsame n). apply He.
      rewrite (worker_name_config s) by done. unfold peer_at, n_peers in *.
      destruct Hc1 as (_ & -> & _). by rewrite Hi1.
Qed.

(** The cursor arithmetic of a hit. *)
Lemma cursor_range s i : 0 < n_peers s -> 0 <= (i + 1) mod n_peers s < Z.max 1 (n_peers s).
Proof. intros Hn. pose proof (Z.mod_pos_bound (i + 1) (n_peers s) Hn). lia. Qed.

Lemma with_idx_ok s i : ok s -> 0 < n_peers s -> ok (with_idx s ((i + 1) mod n_peers s)).
Proof. intros [] Hn. constructor; [done|exact (cursor_range s i Hn)|done]. Qed.

(** The steal loop without a deadline. *)
Lemma steal_spec q s b r s' b' :
  ok s -> 0 < n_peers s ->
  steal blake2s_hex qb_pop (fun r => bool_decide (is_Some r)) None q None (s, b) = (Ok r, (s', b')) ->
  ok s' /\ same_config s s' /\
  match r with
  | Some x => exists i name, 0 <= i < n_peers s /\
      worker_name s q (peer_at s i) = Ok name /\
      (forall j, 0 <= j < i -> empty_at s q b (peer_at s j)) /\
      Permutation (waiting b name) (x :: waiting b' name) /\
      (forall n, n <> name -> waiting b' n = waiting b n) /\
      steal_idx s' = (steal_idx s + i + 1) mod n_peers s
  | None => (forall j, 0 <= j < n_peers s -> empty_at s q b (peer_at s j))
      /\ (forall n, waiting b' n = waiting b n) /\ steal_idx s' = steal_idx s
  end.
Proof.
  intros Hok Hn. unfold steal. unfold bind at 1, on_fst at 1, get.
  intros (found & [s3 b3] & Hscan & Hk)%bind_ok_inv.
  apply scan_first_ok in Hscan as [(pre & i & post & [s2 b2] & Hrange & Hms & Hp & Hhit)|[Hms ->]].
  - destruct (steal_misses _ _ _ _ _ _ _ Hok eq_refl Hms) as (Hok2 & Hc2 & Hi2 & Hsame2 & Hall).
    unfold probe_peer in Hp. unfold bind at 1, on_fst at 1, get in Hp.
    unfold bind at 1 in Hp. cbn [remaining_timeout ret] in Hp.
    apply bind_ok_inv in Hp as (name & st & H1 & H2).
    apply on_fst_ok in H1 as (s4 & H1 & ->). apply bind_ok_inv in H2 as (r0 & st & H2 & H3).
    apply on_snd_ok in H2 as (b4 & H2 & ->). injection H3 as <- <- <-.
    destruct (worker_queue_spec _ _ _ _ _ Hok2 H1) as (_ & Hok4 & Hc4 & Hi4).
    destruct (probe_spec _ _ _ _ _ _ _ _ _ Hok2 (probe_timeout _ Hok2) H1 H2) as [Hnm Hw].
    cbn [snd] in Hhit. apply bool_decide_eq_true in Hhit as [x ->]. destruct Hw as [Hperm Hoth].
    cbn [snd fst] in Hk. rewrite bool_decide_true in Hk by done. injection Hk as <- <- <-.
    assert (Hpe : peer_ids s2 = peer_ids s) by apply Hc2.
    assert (Hpe4 : peer_ids s4 = peer_ids s) by (rewrite <- Hpe; apply Hc4).
    assert (Hn2 : n_peers s2 = n_peers s) by (unfold n_peers; by rewrite Hpe).
    assert (Hn4 : n_peers s4 = n_peers s) by (unfold n_peers; by rewrite Hpe4).
    apply seqZ_split in Hrange as [Hi Hpre]. subst pre.
    split; [apply with_idx_ok; [done|by rewrite Hn4]|].
    split; [by apply (ws_config_trans _ s2); [|apply (ws_config_trans _ s4)]|].
    exists i, name. split; [done|]. split.
    { rewrite (worker_name_config s s2) in Hnm by done. rewrite Hn2, Hpe in Hnm. exact Hnm. }
    split.
    { intros j Hj. rewrite Forall_forall in Hall. apply Hall, elem_of_seqZ. lia. }
    rewrite <- Hsame2. split; [done|].
    split; [intros n Hne; by rewrite Hoth|].
    cbn. rewrite Hn4, Hn2. rewrite Z.add_mod_idemp_l by lia. done.
  - destruct (steal_misses _ _ _ _ _ _ _ Hok eq_refl Hms) as (Hok2 & Hc2 & Hi2 & Hsame2 & Hall).
    injection Hk as <- <- <-. split; [done|]. split; [done|]. split; [|done].
    intros j Hj. rewrite Forall_forall in Hall. apply Hall, elem_of_seqZ. lia.
Qed.

(** The non-blocking pop prefers the own queue; when it is empty it takes from
    the first non-empty peer in rotation order starting at the cursor, and
    the cursor moves just past that peer, so the next steal starts behind it;
    it returns None exactly when the own queue and every peer's are empty.
    Nothing else is touched, and the representation invariant (memo coherence,
    cursor in range) is kept. *)
Theorem own_first_then_rotate q s b r s' b'
    (Hok : ok s)
    (Hpop : pop blake2s_hex q (AInt 0) (s, b) = (Ok r, (s', b'))) :
  ok s' /\
  match r with
  | Some x => exists name,
      (worker_name s q (worker_id s) = Ok name /\ steal_idx s' = steal_idx s
       \/ exists i, 0 <= i < n_peers s /\ worker_name s q (peer_at s i) = Ok name /\
            empty_at s q b (worker_id s) /\
            (forall j, 0 <= j < i -> empty_at s q b (peer_at s j)) /\
            steal_idx s' = (steal_idx s + i + 1) mod n_peers s) /\
      Permutation (waiting b name) (x :: waiting b' name) /\
      (forall n, n <> name -> waiting b' n = waiting b n)
  | None => empty_at s q b (worker_id s)
      /\ (forall j, 0 <= j < n_peers s -> empty_at s q b (peer_at s j))
      /\ (forall n, waiting b' n = waiting b n) /\ steal_idx s' = steal_idx s
  end.
Proof.
  unfold pop in Hpop. apply bind_ok_inv in Hpop as (t & st0 & Ht & Hpop).
  injection Ht as <- <-. apply bind_ok_inv in Hpop as (i0 & st1 & Hg & Hpop).
  apply on_snd_ok in Hg as (b1 & Hg & ->).
  pose proof (get_queue_backend_ok _ _ _ Hg) as Hsame1. unfold pop_body in Hpop.
  apply bind_ok_inv in Hpop as (own & st2 & H1 & Hpop).
  apply on_fst_ok in H1 as (s1 & H1 & ->). unfold own_queue in H1.
  destruct (worker_queue_spec _ _ _ _ _ Hok H1) as (_ & Hok1 & Hc1 & Hi1).
  change (fltb fzero (float_of_Z 0)) with false in Hpop. cbv iota in Hpop.
  unfold bind at 1, ret at 1 in Hpop.
  apply bind_ok_inv in Hpop as (r1 & st3 & H2 & Hpop).
  apply on_snd_ok in H2 as (b2 & H2 & ->).
  destruct (probe_spec _ _ _ _ _ _ _ _ _ Hok (eq_refl : feqb fzero fzero = true) H1 H2) as [Hown Hw].
  case_bool_decide as Hr1.
  { destruct Hr1 as [x ->]. injection Hpop as <- <- <-. split; [done|].
    destruct Hw as [Hp Ho]. exists own. split; [by left|].
    rewrite <- Hsame1. split; [done|]. intros n Hn. by rewrite Ho. }
  destruct r1 as [x|]; [by destruct Hr1|]. destruct Hw as [Hw Hsame2].
  assert (Hempty : empty_at s q b (worker_id s)).
  { intros n Hn. rewrite Hown in Hn. injection Hn as <-. by rewrite <- Hsame1. }
  assert (Hpe1 : peer_ids s1 = peer_ids s) by apply Hc1.
  assert (Hn1 : n_peers s1 = n_peers s) by (unfold n_peers; by rewrite Hpe1).
  assert (Hpa : forall j, peer_at s1 j = peer_at s j).
  { intros j. unfold peer_at. by rewrite Hi1, Hn1, Hpe1. }
  assert (Hemp : forall w, empty_at s1 q b2 w -> empty_at s q b w).
  { intros w He n Hn. rewrite <- Hsame1, <- Hsame2. apply He. by rewrite (worker_name_config s). }
  unfold bind at 1, on_fst at 1, get in Hpop.
  apply bind_ok_inv in Hpop as (stolen & [s4 b4] & Hst & Hpop).
  assert (Hend : r = stolen /\ s' = s4 /\ b' = b4).
  { destruct stolen as [x|]; [by injection Hpop as <- <- <-|]. by injection Hpop as <- <- <-. }
  destruct Hend as (-> & -> & ->). clear Hpop.
  destruct (Z.ltb_spec 0 (n_peers s1)) as [Hlt|Hge].
  - destruct (steal_spec _ _ _ _ _ _ Hok1 Hlt Hst) as (Hok4 & Hc4 & Hres). split; [done|].
    destruct stolen as [x|].
    + destruct Hres as (i & name & Hi & Hnm & Hbefore & Hp & Ho & Hidx).
      rewrite Hn1, Hi1 in Hidx. rewrite Hn1 in Hi. rewrite Hpa, (worker_name_config s) in Hnm by done.
      exists name. split; [right; exists i|].
      * split_and!; try done; try lia. intros j Hj. rewrite <- Hpa. apply Hemp. by apply Hbefore.
      * rewrite <- Hsame1, <- Hsame2. split; [done|]. intros n Hn. by rewrite Ho, Hsame2.
    + destruct Hres as (Hall & Hsame & Hidx). split; [done|]. rewrite <- Hn1. split_and!.
      * intros j Hj. rewrite <- Hpa. by apply Hemp, Hall.
      * intros n. by rewrite Hsame, Hsame2.
      * congruence.
  - injection Hst as <- <- <-. split; [done|]. split; [done|].
    split; [intros j Hj; unfold n_peers in *; lia|]. split; [|done]. intros n. by rewrite Hsame2.
Qed.
End Lemmas.

(** ** Construction *)
Section Init.
Variable uuid4_hex : string.

Lemma normalize_peers_spec seen count ps l :
  0 <= count -> normalize_peers seen count ps = Ok l ->
  NoDup l /\ (forall p, p ∈ l -> p ∉ seen /\ Some p ∈ ps) /\
  (count <= MAX_STEAL_PEERS -> count + Z.of_nat (length l) <= MAX_STEAL_PEERS) /\
  (forall p, Some p ∈ ps -> p ∈ seen \/ p ∈ l).
Proof.
  revert seen count l. induction ps as [|[p|] ps IH]; intros seen count l Hc; cbn [normalize_peers]; [|..|done].
  - intros [= <-]. split_and!; [constructor| |cbn; lia|]; intros p Hp; by apply elem_of_nil in Hp.
  - case_bool_decide; [done|]. intros (u & _ & Hk)%obind_ok. case_bool_decide as Hseen.
    + destruct (IH _ _ _ Hc Hk) as (H1 & H2 & H3 & H4). split_and!; [done| |done|].
      * intros x Hx. destruct (H2 x Hx). split; [done|by right].
      * intros x [[= ->] | Hx]%elem_of_cons; auto.
    + destruct (Z.ltb_spec MAX_STEAL_PEERS (count + 1)); [done|].
      apply omap_ok in Hk as (l' & Hk & ->).
      destruct (IH (p :: seen) (count + 1) l' ltac:(lia) Hk) as (H1 & H2 & H3 & H4). split_and!.
      * constructor; [|done]. intros Hin. destruct (H2 p Hin) as [Hno _]. apply Hno. left.
      * intros x [-> | Hx]%elem_of_cons; [split; [done|left]|].
        destruct (H2 x Hx) as [Hno Hin]. split; [|by right]. intros ?. apply Hno. by right.
      * intros _. cbn. lia.
      * intros x [[= ->] | Hx]%elem_of_cons; [right; left|].
        destruct (H4 x Hx) as [Hs|Hl]; [|right; by right].
        apply elem_of_cons in Hs as [-> | ?]; [right; left|by left].
Qed.

(** A constructed strategy has distinct peers that are exactly the configured
    ones other than itself, at most the allowed number of them, and satisfies
    the representation invariant. *)
Theorem init_peers hex bt warned worker peers timeout generation s
    (Hinit : init uuid4_hex bt warned worker (Some peers) timeout generation = Ok s) :
  NoDup (peer_ids s) /\ worker_id s ∉ peer_ids s /\ n_peers s <= MAX_STEAL_PEERS /\
  (forall p, p ∈ peer_ids s <-> Some p ∈ peers /\ p <> worker_id s) /\ ok hex s.
Proof.
  unfold init in Hinit. apply obind_ok in Hinit as (u1 & _ & Hk).
  apply obind_ok in Hk as (st & Hst & Hk). apply obind_ok in Hk as (u2 & _ & Hk).
  destruct (negb _); [done|]. apply omap_ok in Hk as (l & Hl & ->).
  set (w := match worker with Some (Some w) => w | _ => uuid4_hex end) in *.
  destruct (normalize_peers_spec [w] 0 peers l ltac:(lia) Hl) as (H1 & H2 & H3 & H4). cbn.
  split_and!; [done| | | |].
  - intros Hw. destruct (H2 w Hw) as [Hno _]. apply Hno. left.
  - unfold n_peers. cbn. unfold MAX_STEAL_PEERS in *. lia.
  - intros p. split.
    + intros Hp. destruct (H2 p Hp) as [Hno Hin]. split; [done|]. intros ->. apply Hno. left.
    + intros [Hin Hne]. destruct (H4 p Hin) as [Hs|]; [|done].
      by apply list_elem_of_singleton in Hs.
  - constructor; cbn.
    + intros q x n. by rewrite lookup_empty.
    + unfold n_peers. cbn. lia.
    + unfold normalize_queue_timeout, normalize_pop_timeout in Hst.
      destruct timeout as [|z|f|]; try done;
        (destruct (negb _ || _) eqn:E; [done|]); injection Hst as <-;
        apply orb_false_iff in E as [E1 E2]; apply negb_false_iff, isfinite_not_nan in E1;
        by rewrite fleb_negb_fltb, E2.
Qed.
End Init.

Module Examples.
Import MemClock.
Definition hex (_ : bytes) : string := "00112233445566778899aabbccddeeff".
Definition s0 : self :=
  Self "w1" ["w2"; "w3"; "w4"] fzero 1 ∅ LEGACY_FANOUT_NAME_GENERATION (Some "redis"%string) false.
Definition b0 : env := ({["q:w2"%string := [[x61]]]}, 0).

Lemma init_peers_witness :
  init "uuid" (Some "redis"%string) false (Some (Some "w1"%string))
    (Some [Some "w2"; Some "w1"; Some "w2"]%string) (AInt 1) "v2"
  = Ok (Self "w1" ["w2"%string] (float_of_Z 1) 0 ∅ "v2" (Some "redis"%string) false) /\
  NoDup ["w2"%string].
Proof.
  assert (E : init "uuid" (Some "redis"%string) false (Some (Some "w1"%string))
    (Some [Some "w2"; Some "w1"; Some "w2"]%string) (AInt 1) "v2"
    = Ok (Self "w1" ["w2"%string] (float_of_Z 1) 0 ∅ "v2" (Some "redis"%string) false)) by by vm_compute.
  split; [exact E|]. exact (proj1 (init_peers "uuid" hex _ _ _ _ _ _ _ E)).
Defined.

#[local] Instance env_laws : QueueBackendLaws env.
Proof.
  refine {| waiting := fun w => MemQueue.items (fst w) |}.
  - intros [m n] o b'. by intros [= _ <-].
  - intros q x p [m n] [m' n']. intros [= <- <-]. cbn [fst]. split.
    + rewrite MemQueue.items_insert, decide_True by done. apply Permutation_app_comm.
    + intros q' Hq. by rewrite MemQueue.items_insert, decide_False.
  - intros q t [m n] o [m' n'] _. cbn. destruct (MemQueue.items m q) as [|x l] eqn:E;
      intros [= <- <- <-].
    + done.
    + split.
      * by rewrite MemQueue.items_insert, decide_True.
      * intros q' Hq. by rewrite MemQueue.items_insert, decide_False.
  - intros q [m n] k [m' n'] [= <- <- <-]. done.
  - intros q [m n] [m' n'] [= <- <-]. cbn [fst]. split.
    + by rewrite MemQueue.items_insert, decide_True.
    + intros q' Hq. by rewrite MemQueue.items_insert, decide_False.
Defined.

Lemma s0_ok : ok hex s0.
Proof. constructor; [intros q w n; cbn; by rewrite lookup_empty|by vm_compute|by vm_compute]. Qed.

Definition stolen := pop hex "q" (AInt 0) (s0, b0).

Lemma own_first_then_rotate_witness :
  fst stolen = Ok (Some [x61]) /\ steal_idx (fst (snd stolen)) = 1 /\ ok hex (fst (snd stolen)).
Proof.
  assert (E : pop hex "q" (AInt 0) (s0, b0)
              = (Ok (Some [x61]), (fst (snd stolen), snd (snd stolen)))) by by vm_compute.
  split; [by vm_compute|]. split; [by vm_compute|].
  exact (proj1 (own_first_then_rotate hex "q" s0 b0 _ _ _ s0_ok E)).
Defined.
End Examples.
End WorkStealing.
