(* ===== verification/Membership.v ===== *)
(** * Membership filters

    dupefilter/filters/base.py: the interface of the duplicate filters, with
    the guarantee the crawl relies on ("a successfully recorded item is never
    reported as new again") as a second class, and what a client gets from it;
    memory_filter.py (exact, in process, LRU-bounded) and set_filter.py (exact,
    delegating to a set backend) are here, the probabilistic filters have files
    of their own. *)

From S2P Require Export PyFloat PyBytes.

Class MembershipFilter (F : Type) := {
  mf_add : bytes -> M F bool;
  mf_contains : bytes -> M F bool;
  mf_len : M F Z;
  mf_clear : M F unit;
  mf_remove : bytes -> M F bool
}.

(** [mf_inv] is the representation invariant and [mf_has f x] says that [x] is
    recorded.  A returning [add] records its item and forgets nothing; a
    raising one forgets nothing either; recorded items are reported. *)
Class NoFalseNegatives (F : Type) `{MembershipFilter F} := {
  mf_inv : F -> Prop;
  mf_has : F -> bytes -> Prop;
  mf_add_inv : forall x f o f', mf_inv f -> mf_add x f = (o, f') ->
    mf_inv f' /\ (is_ok o = true -> mf_has f' x) /\ forall y, mf_has f y -> mf_has f' y;
  mf_contains_inv : forall x f o f', mf_inv f -> mf_contains x f = (o, f') ->
    mf_inv f' /\ forall y, mf_has f y -> mf_has f' y;
  mf_has_add : forall x f, mf_inv f -> mf_has f x -> fst (mf_add x f) = Ok false;
  mf_has_contains : forall x f, mf_inv f -> mf_has f x -> fst (mf_contains x f) = Ok true
}.

(** ** The client side: any use of a filter between two sightings *)
Section Client.
Context {F : Type} `{NoFalseNegatives F}.

Inductive filter_op := OpAdd (x : bytes) | OpContains (x : bytes).

Definition run_op (op : filter_op) (f : F) : F :=
  match op with OpAdd x => snd (mf_add x f) | OpContains x => snd (mf_contains x f) end.

Fixpoint run_ops (ops : list filter_op) (f : F) : F :=
  match ops with [] => f | op :: ops' => run_ops ops' (run_op op f) end.

Lemma run_op_has op f : mf_inv f ->
  mf_inv (run_op op f) /\ forall y, mf_has f y -> mf_has (run_op op f) y.
Proof.
  intros Hi. destruct op as [x|x]; cbn.
  - destruct (mf_add x f) as [o f'] eqn:E. by destruct (mf_add_inv _ _ _ _ Hi E) as (? & _ & ?).
  - destruct (mf_contains x f) as [o f'] eqn:E. by apply (mf_contains_inv _ _ _ _ Hi E).
Qed.

Lemma run_ops_has ops f : mf_inv f ->
  mf_inv (run_ops ops f) /\ forall y, mf_has f y -> mf_has (run_ops ops f) y.
Proof.
  revert f. induction ops as [|op ops IH]; intros f Hi; [done|]. cbn.
  destruct (run_op_has op f Hi) as [H1 H2]. destruct (IH _ H1) as [H3 H4]. split; auto.
Qed.

(** Whatever happens between two sightings of an item (additions that succeed
    or fail, lookups), once an [add] of it returned, every later [add] says
    "duplicate" and every later lookup finds it. *)
Theorem seen_stays_seen x f b f' ops
    (Hinv : mf_inv f) (Hadd : mf_add x f = (Ok b, f')) :
  fst (mf_add x (run_ops ops f')) = Ok false /\
  fst (mf_contains x (run_ops ops f')) = Ok true.
Proof.
  destruct (mf_add_inv _ _ _ _ Hinv Hadd) as (Hi & Hx & _).
  destruct (run_ops_has ops f' Hi) as [Hi' Hk].
  split; [apply mf_has_add|apply mf_has_contains]; auto.
Qed.
End Client.

(** ** memory_filter.py *)
Module MemoryFilter.
Definition DEFAULT_MEMORY_MAXSIZE : Z := 1000000.

(** [data] lists the fingerprints from least to most recently used; the
    process-wide eviction latch is part of the state. *)
Record self := Self { maxsize : option Z; data : list bytes; evicted_warned : bool }.

Definition init (maxsize : option Z) (warned : bool) : outcome self :=
  match maxsize with
  | Some n => if n <=? 0 then Raise EValue else Ok (Self maxsize [] warned)
  | None => Ok (Self None [] warned)
  end.

Definition size (f : self) : Z := Z.of_nat (length (data f)).

Definition member (x : bytes) (l : list bytes) : bool := bool_decide (x ∈ l).
Definition drop_item (x : bytes) (l : list bytes) : list bytes := filter (fun y => y <> x) l.
Definition move_to_end (x : bytes) (l : list bytes) : list bytes := drop_item x l ++ [x].
Arguments move_to_end : simpl never.
Arguments drop_item : simpl never.

(** [saturation]: Some when the filter is full. *)
Definition saturated (f : self) : bool :=
  match maxsize f with Some n => n <=? size f | None => false end.

Definition warn_evicted_once : M self unit :=
  modify (fun f => Self (maxsize f) (data f) true).

(** [add]. *)
Definition add (item : bytes) : M self bool := fun f =>
  if member item (data f) then
    (Ok false, Self (maxsize f) (move_to_end item (data f)) (evicted_warned f))
  else
    let f1 := if saturated f
              then snd (warn_evicted_once (Self (maxsize f) (tl (data f)) (evicted_warned f)))
              else f in
    (Ok true, Self (maxsize f1) (data f1 ++ [item]) (evicted_warned f1)).

(** [__contains__] refreshes the position of a hit. *)
Definition contains (item : bytes) : M self bool := fun f =>
  if member item (data f) then
    (Ok true, Self (maxsize f) (move_to_end item (data f)) (evicted_warned f))
  else (Ok false, f).

Definition len : M self Z := fun f => (Ok (size f), f).
Definition clear : M self unit := modify (fun f => Self (maxsize f) [] (evicted_warned f)).
Definition remove (item : bytes) : M self bool := fun f =>
  if member item (data f)
  then (Ok true, Self (maxsize f) (drop_item item (data f)) (evicted_warned f))
  else (Ok false, f).

#[export] Instance memory_filter : MembershipFilter self := {|
  mf_add := add; mf_contains := contains; mf_len := len; mf_clear := clear; mf_remove := remove
|}.

(** The invariant: distinct items within the cap. *)
Definition ok (f : self) : Prop :=
  NoDup (data f) /\ match maxsize f with Some n => 1 <= n /\ size f <= n | None => True end.

Lemma drop_item_perm x l : NoDup l -> x ∈ l -> Permutation l (x :: drop_item x l).
Proof.
  unfold drop_item. induction l as [|y l IH]; intros Hn Hx; [by apply elem_of_nil in Hx|].
  apply NoDup_cons in Hn as [Hy Hn]. rewrite filter_cons. case_decide as Hd.
  - apply elem_of_cons in Hx as [-> | Hx]; [done|].
    rewrite (IH Hn Hx) at 1. apply perm_swap.
  - assert (y = x) as -> by (destruct (decide (y = x)); [done|by destruct Hd]).
    constructor. clear IH Hx Hn Hd. induction l as [|z l IH]; [done|].
    apply not_elem_of_cons in Hy as [Hz Hy]. rewrite filter_cons_True by congruence.
    constructor. by apply IH.
Qed.

Lemma move_to_end_perm x l : NoDup l -> x ∈ l -> Permutation (move_to_end x l) l.
Proof.
  intros Hn Hx. unfold move_to_end. etrans; [apply Permutation_app_comm|].
  symmetry. by apply drop_item_perm.
Qed.

Lemma memory_add_spec x f : ok f ->
  ok (snd (add x f)) /\ x ∈ data (snd (add x f)) /\ maxsize (snd (add x f)) = maxsize f /\
  fst (add x f) = Ok (negb (member x (data f))) /\
  (saturated f = false -> forall y, y ∈ data f -> y ∈ data (snd (add x f))).
Proof.
  intros [Hn Hsz]. unfold add, member. case_bool_decide as Hx.
  - cbn. pose proof (move_to_end_perm x _ Hn Hx) as Hp. split_and!; try done.
    + split; cbn; [by rewrite Hp|]. destruct (maxsize f); [|done].
      unfold size in *. cbn. by rewrite Hp.
    + by rewrite Hp.
    + intros _ y Hy. by rewrite Hp.
  - destruct (saturated f) eqn:Hs; cbn; split_and!; try done.
    + unfold saturated in Hs. destruct (maxsize f) as [n|] eqn:Hm; [|done]. apply Z.leb_le in Hs.
      destruct (data f) as [|y l] eqn:Hd; [unfold size in *; rewrite Hd in *; cbn in *; lia|].
      apply NoDup_cons in Hn as [Hy Hn]. apply not_elem_of_cons in Hx as [Hxy Hx].
      split; cbn.
      * apply NoDup_app. split; [done|]. split; [|apply NoDup_singleton].
        intros z Hz ->%list_elem_of_singleton. done.
      * rewrite ?Hm. unfold size in *. rewrite ?Hd in Hsz. cbn in *. rewrite length_app. cbn. lia.
    + apply elem_of_app. right. by apply list_elem_of_singleton.
    + split; cbn.
      * apply NoDup_app. split; [done|]. split; [|apply NoDup_singleton].
        intros z Hz ->%list_elem_of_singleton. done.
      * unfold saturated in Hs. destruct (maxsize f) as [n|]; [|done]. apply Z.leb_gt in Hs.
        unfold size in *. cbn in *. rewrite length_app. cbn. lia.
    + apply elem_of_app. right. by apply list_elem_of_singleton.
    + intros _ y Hy. apply elem_of_app. by left.
Qed.

Lemma memory_contains_spec x f : ok f ->
  ok (snd (contains x f)) /\ Permutation (data (snd (contains x f))) (data f) /\
  maxsize (snd (contains x f)) = maxsize f /\ fst (contains x f) = Ok (member x (data f)).
Proof.
  intros [Hn Hsz]. unfold contains, member. case_bool_decide as Hx; [|done].
  pose proof (move_to_end_perm x _ Hn Hx) as Hp. cbn. split_and!; try done.
  split; cbn; [by rewrite Hp|]. destruct (maxsize f); [|done].
  unfold size in *. cbn. by rewrite Hp.
Qed.

(** Without a cap the filter gives the full guarantee. *)
#[export] Instance unbounded_no_false_negatives : NoFalseNegatives self.
Proof.
  refine {| mf_inv := fun f => ok f /\ maxsize f = None; mf_has := fun f x => x ∈ data f |}.
  - intros x f o f' [Hok Hm] Hadd. cbn in Hadd.
    destruct (memory_add_spec x f Hok) as (H1 & H2 & H3 & _ & H5). rewrite Hadd in *. cbn in *.
    split; [by rewrite H3|]. split; [done|]. apply H5. unfold saturated. by rewrite Hm.
  - intros x f o f' [Hok Hm] Hc. cbn in Hc.
    destruct (memory_contains_spec x f Hok) as (H1 & H2 & H3 & _). rewrite Hc in *. cbn in *.
    split; [by rewrite H3|]. intros y Hy. by rewrite H2.
  - intros x f [Hok _] Hx. cbn. destruct (memory_add_spec x f Hok) as (_ & _ & _ & -> & _).
    unfold member. by rewrite bool_decide_true.
  - intros x f [Hok _] Hx. cbn. destruct (memory_contains_spec x f Hok) as (_ & _ & _ & ->).
    unfold member. by rewrite bool_decide_true.
Defined.

(** The LRU bound: every operation keeps the items distinct and within the
    cap; [add] answers exactly whether the item was absent; it evicts only
    when the filter is full, and then exactly the least recently used item,
    so an item used (added or looked up) most recently is evicted last. *)
Theorem lru_exact x f (Hok : ok f) :
  let f' := snd (add x f) in
  ok f' /\ fst (add x f) = Ok (negb (member x (data f))) /\
  last (data f') = Some x /\
  (x ∉ data f -> data f' = (if saturated f then tl (data f) else data f) ++ [x]) /\
  (x ∈ data f -> Permutation (data f') (data f)) /\
  ok (snd (contains x f)) /\ Permutation (data (snd (contains x f))) (data f) /\
  (x ∈ data f -> last (data (snd (contains x f))) = Some x).
Proof.
  intros f'. destruct (memory_add_spec x f Hok) as (H1 & H2 & H3 & H4 & H5).
  destruct (memory_contains_spec x f Hok) as (C1 & C2 & C3 & C4). split_and!; try done.
  - unfold f', add. destruct (member x (data f)); cbn; [unfold move_to_end|];
      by rewrite last_snoc.
  - intros Hx. unfold f', add, member. rewrite bool_decide_false by done.
    by destruct (saturated f).
  - intros Hx. unfold f', add, member. rewrite bool_decide_true by done. cbn.
    apply move_to_end_perm; [apply Hok|done].
  - intros Hx. unfold contains, member. rewrite bool_decide_true by done. cbn.
    unfold move_to_end. by rewrite last_snoc.
Qed.

Lemma lru_exact_witness :
  let f := Self (Some 2) [[x61]; [x62]] false in
  let f' := snd (add [x63] f) in
  ok f /\ ok f' /\ data f' = [[x62]; [x63]].
Proof.
  intros f f'. assert (Hok : ok f).
  { split; [by apply (bool_decide_unpack _)|cbn; unfold size; cbn; lia]. }
  split; [exact Hok|]. destruct (lru_exact [x63] f Hok) as (H1 & _ & _ & H2 & _).
  split; [exact H1|]. apply H2. by apply (bool_decide_unpack _).
Defined.

Lemma seen_stays_seen_witness :
  fst (mf_add [x61] (run_ops [OpAdd [x62]; OpContains [x61]; OpAdd [x63]]
                       (Self None [[x61]] false))) = Ok false.
Proof.
  assert (Hi : mf_inv (Self None [] false)).
  { split; [|done]. split; [constructor|done]. }
  assert (E : mf_add [x61] (Self None [] false) = (Ok true, Self None [[x61]] false)) by done.
  exact (proj1 (seen_stays_seen [x61] (Self None [] false) true (Self None [[x61]] false)
                  [OpAdd [x62]; OpContains [x61]; OpAdd [x63]] Hi E)).
Defined.
End MemoryFilter.

(** ** set_filter.py *)
Module SetFilter.
(** [SetBackend], with the manager's lazy resolution. *)
Class SetBackend (B : Type) := {
  get_set_backend : M B unit;
  sb_add : string -> bytes -> M B bool;
  sb_remove : string -> bytes -> M B bool;
  sb_contains : string -> bytes -> M B bool;
  sb_set_len : string -> M B Z;
  sb_clear_set : string -> M B unit
}.

Record self := Self { key : string }.

Section SetFilter.
Context {B : Type} `{SetBackend B}.

(** Every operation resolves the backend and delegates under the key. *)
Definition delegate {A} (f : string -> M B A) : M (self * B) A :=
  let! s := on_fst get in
  let! _ := on_snd get_set_backend in on_snd (f (key s)).

Definition add (item : bytes) : M (self * B) bool := delegate (fun k => sb_add k item).
Definition contains (item : bytes) : M (self * B) bool := delegate (fun k => sb_contains k item).
Definition len : M (self * B) Z := delegate sb_set_len.
Definition clear : M (self * B) unit := delegate sb_clear_set.
Definition remove (item : bytes) : M (self * B) bool := delegate (fun k => sb_remove k item).

#[export] Instance set_filter : MembershipFilter (self * B) := {|
  mf_add := add; mf_contains := contains; mf_len := len; mf_clear := clear; mf_remove := remove
|}.
End SetFilter.
End SetFilter.
