(* ===== verification/Bloom.v ===== *)
(** * The Bloom filter

    dupefilter/filters/bloom_filter.py: sizing by an exact integer search per
    hash count, k distinct positions per item by Floyd's sampling over
    domain-separated SHA-256 samples with rejection, a bytearray of bits.

    SHA-256 and the logarithms of the [math] module are parameters.  The
    generator [_indices] has no side effect besides its own bookkeeping, so it
    is modelled by what it yields: a list of positions, then a normal end or an
    exception, which its consumers see after having consumed the positions. *)

From S2P Require Export Membership.

Module Bloom.
Definition MAX_HASHES : Z := 64.
Definition HASH_DOMAIN : bytes := encode "scrapy-extension:bloom:v1" ++ [x00].
Definition HASH_RANGE : Z := 2 ^ 256.
Definition MAX_FILTER_BYTES : Z := 128 * 1024 * 1024.

(** [math.log1p], [math.expm1] and [math.log], at arguments of their domains
    (the callers pass -k/m with k < m, a negative number and a probability). *)
Class MathLib := { log1p : float -> float; expm1 : float -> float; log : float -> float }.

Record self := Self {
  num_bits : Z; num_hashes : Z; bits : list Z; count : Z; capacity : Z
}.

(** ** Sizing *)
Section Sizing.
Context {ML : MathLib}.

(** [_log_false_positive_bound]; both integers of the quotient are below
    [2^53], so dividing their conversions is the correctly rounded quotient. *)
Definition log_false_positive_bound (capacity num_bits num_hashes : Z) : float :=
  let log_unset_probability :=
    fmul (float_of_Z capacity) (log1p (fdiv (float_of_Z (- num_hashes)) (float_of_Z num_bits))) in
  let set_probability := SFopp (expm1 log_unset_probability) in
  fmul (float_of_Z num_hashes) (log set_probability).

(** The comparison both phases of [_minimum_num_bits] make. *)
Definition fits (capacity : Z) (log_error_rate : float) (num_hashes num_bits : Z) : bool :=
  fleb (log_false_positive_bound capacity num_bits num_hashes) log_error_rate.

(** The binary search. *)
Fixpoint bisect (fuel : nat) (ok : Z -> bool) (lower upper : Z) : Z :=
  match fuel with
  | O => lower
  | S fuel' =>
      if lower <? upper then
        let midpoint := (lower + upper) / 2 in
        if ok midpoint then bisect fuel' ok lower midpoint
        else bisect fuel' ok (midpoint + 1) upper
      else lower
  end.

Definition minimum_num_bits (capacity : Z) (log_error_rate : float) (num_hashes max_bits : Z) : Z :=
  let over_budget := max_bits + 1 in
  if max_bits <=? num_hashes then over_budget
  else if MAX_HASHES * max_bits <? capacity then over_budget
  else if fltb log_error_rate (log_false_positive_bound capacity max_bits num_hashes)
  then over_budget
  else bisect (Z.to_nat (Z.log2_up max_bits) + 1) (fits capacity log_error_rate num_hashes)
         (num_hashes + 1) max_bits.

(** [min] on pairs: the second argument only if it is strictly smaller. *)
Definition pair_min (a b : Z * Z) : Z * Z :=
  if (fst b <? fst a) || ((fst b =? fst a) && (snd b <? snd a)) then b else a.

Definition select_sizing (capacity : Z) (error_rate : float) (max_bits : Z) : Z * Z :=
  let log_error_rate := log error_rate in
  fold_left (fun best num_hashes =>
      pair_min best (minimum_num_bits capacity log_error_rate num_hashes max_bits, num_hashes))
    (seqZ 1 MAX_HASHES) (max_bits + 1, 1).

Definition check_allocation (num_bits : Z) : outcome unit :=
  if MAX_FILTER_BYTES <? Z.shiftr (num_bits + 7) 3 then Raise EValue else Ok tt.

Definition init (capacity error_rate : pyarg) : outcome self :=
  match capacity with
  | AInt capacity =>
      if capacity <=? 0 then Raise EValue else
      match error_rate with
      | AFloat error_rate =>
          if negb (isfinite error_rate)
             || negb (fltb fzero error_rate && fltb error_rate (float_of_Z 1))
          then Raise EValue
          else
            let max_bits := MAX_FILTER_BYTES * 8 in
            let '(m, k) := select_sizing capacity error_rate max_bits in
            obind (check_allocation m) (fun _ =>
            Ok (Self m k (replicate (Z.to_nat (Z.shiftr (m + 7) 3)) 0) 0 capacity))
      | _ => Raise EType
      end
  | _ => Raise EType
  end.

(** *** What the search returns *)
Lemma bisect_spec ok fuel lower upper :
  lower <= upper -> upper - lower < 2 ^ Z.of_nat fuel -> ok upper = true ->
  let r := bisect fuel ok lower upper in
  lower <= r <= upper /\ ok r = true /\ (r = lower \/ ok (r - 1) = false).
Proof.
  revert lower upper. induction fuel as [|fuel IH]; intros lower upper Hle Hf Hok; cbn.
  - cbn in Hf. assert (lower = upper) as -> by lia. auto with lia.
  - rewrite Nat2Z.inj_succ, Z.pow_succ_r in Hf by lia.
    destruct (Z.ltb_spec lower upper) as [Hlt|Hge].
    + assert (Hmid : lower <= (lower + upper) / 2 < upper) by zdm.
      destruct (ok ((lower + upper) / 2)) eqn:Em.
      * destruct (IH lower ((lower + upper) / 2)) as (H1 & H2 & H3);
          [lia|zdm|done|]. split; [lia|done].
      * destruct (IH ((lower + upper) / 2 + 1) upper) as (H1 & H2 & H3); [lia|zdm|done|].
        split; [lia|]. split; [done|]. right. destruct H3 as [-> | H3]; [|done].
        by replace ((lower + upper) / 2 + 1 - 1) with ((lower + upper) / 2) by lia.
    + assert (lower = upper) as -> by lia. auto with lia.
Qed.

(** The last size below the result failed, if there was a legal one. *)
Definition tight (capacity : Z) (log_error_rate : float) (k m : Z) : Prop :=
  k < m /\ fits capacity log_error_rate k m = true /\
  (m = k + 1 \/ fits capacity log_error_rate k (m - 1) = false).

Lemma minimum_num_bits_spec capacity ler k max_bits :
  0 < k -> is_nan ler = false ->
  (forall m, k < m <= max_bits -> capacity <= MAX_HASHES * max_bits ->
     is_nan (log_false_positive_bound capacity m k) = false) ->
  let r := minimum_num_bits capacity ler k max_bits in
  r = max_bits + 1 \/ (r <= max_bits /\ tight capacity ler k r).
Proof.
  intros Hk Hn Hb. unfold minimum_num_bits.
  destruct (Z.leb_spec max_bits k) as [|H1]; [by left|].
  destruct (Z.ltb_spec (MAX_HASHES * max_bits) capacity) as [|H2]; [by left|].
  destruct (fltb ler _) eqn:H3; [by left|]. right.
  assert (Hfit : fits capacity ler k max_bits = true).
  { unfold fits. rewrite fleb_negb_fltb by (done || apply Hb; lia). by rewrite H3. }
  destruct (bisect_spec (fits capacity ler k) (Z.to_nat (Z.log2_up max_bits) + 1)
              (k + 1) max_bits) as (B1 & B2 & B3); [lia| |done|].
  - rewrite Nat2Z.inj_add, Z2Nat.id by apply Z.log2_up_nonneg.
    rewrite Z.pow_add_r by (pose proof (Z.log2_up_nonneg max_bits); lia).
    pose proof (Z.log2_up_spec max_bits ltac:(lia)) as [_ Hl].
    assert (0 <= 2 ^ Z.log2_up max_bits) by (apply Z.pow_nonneg; lia).
    change (2 ^ Z.of_nat 1) with 2. lia.
  - split; [lia|]. split; [lia|]. split; [done|].
    destruct B3 as [-> | B3]; [by left|by right].
Qed.

Definition pair_le (a b : Z * Z) : Prop := fst a < fst b \/ (fst a = fst b /\ snd a <= snd b).

Lemma pair_min_le a b : pair_le (pair_min a b) a /\ pair_le (pair_min a b) b.
Proof.
  unfold pair_min, pair_le. destruct a as [a1 a2], b as [b1 b2]. cbn [fst snd].
  destruct (Z.ltb_spec b1 a1), (Z.eqb_spec b1 a1), (Z.ltb_spec b2 a2); cbn; lia.
Qed.

Lemma pair_min_choice a b : pair_min a b = a \/ pair_min a b = b.
Proof. unfold pair_min. case_match; auto. Qed.

Lemma pair_le_trans a b c : pair_le a b -> pair_le b c -> pair_le a c.
Proof. unfold pair_le. lia. Qed.

Lemma select_fold (g : Z -> Z) ks best :
  let r := fold_left (fun b k => pair_min b (g k, k)) ks best in
  pair_le r best /\ (forall k, k ∈ ks -> pair_le r (g k, k)) /\
  (r = best \/ exists k, k ∈ ks /\ r = (g k, k)).
Proof.
  revert best. induction ks as [|k ks IH]; intros best; cbn [fold_left].
  - split; [unfold pair_le; lia|]. split; [|by left]. intros k Hk. by apply elem_of_nil in Hk.
  - destruct (IH (pair_min best (g k, k))) as (H1 & H2 & H3).
    destruct (pair_min_le best (g k, k)) as [P1 P2].
    split; [by eapply pair_le_trans|]. split.
    + intros k' [-> | Hk']%elem_of_cons; [by eapply pair_le_trans|auto].
    + destruct H3 as [-> | (k' & Hk' & ->)].
      * destruct (pair_min_choice best (g k, k)) as [-> | ->]; [by left|].
        right. exists k. split; [left|done].
      * right. exists k'. split; [by right|done].
Qed.

(** The sizing search: the pair it returns is, in (bits, hash count) order, the
    least of the candidates of the 64 hash counts; and unless it is the
    over-budget sentinel, its size meets the false-positive bound for its hash
    count, leaves more bits than hashes, and one bit less would not do. *)
Theorem sizing_is_tight capacity error_rate max_bits
    (Herr : is_nan (log error_rate) = false)
    (Hbound : forall m k, 1 <= k <= 64 -> k < m <= max_bits ->
       capacity <= MAX_HASHES * max_bits ->
       is_nan (log_false_positive_bound capacity m k) = false) :
  let '(m, k) := select_sizing capacity error_rate max_bits in
  (forall k', 1 <= k' <= 64 ->
     pair_le (m, k) (minimum_num_bits capacity (log error_rate) k' max_bits, k')) /\
  (m = max_bits + 1 \/
   (m <= max_bits /\ 1 <= k <= 64 /\ tight capacity (log error_rate) k m)).
Proof.
  pose proof (select_fold (fun k => minimum_num_bits capacity (log error_rate) k max_bits)
                (seqZ 1 MAX_HASHES) (max_bits + 1, 1)) as (_ & H2 & H3).
  unfold select_sizing. destruct (fold_left _ _ _) as [m k]. cbn in H2, H3. split.
  - intros k' Hk'. apply H2, elem_of_seqZ. unfold MAX_HASHES. lia.
  - destruct H3 as [[= -> ->] | (k' & Hk' & [= -> ->])]; [by left|].
    apply elem_of_seqZ in Hk'. unfold MAX_HASHES in Hk'.
    destruct (minimum_num_bits_spec capacity (log error_rate) k' max_bits) as [?|[? ?]];
      [lia|done|intros; apply Hbound; lia|by left|]. right. auto with lia.
Qed.
End Sizing.

(** ** Positions *)
Section Filter.
Variable sha256 : bytes -> bytes.

(** One turn of the rejection loop of [_uniform_index], with the number of
    attempts made so far; [attempt.to_bytes(4, "big")] ends the loop with an
    OverflowError after [2^32] rejections. *)
Definition sample_step (item : bytes) (hash_index upper_bound : Z) (attempt : Z)
    : Z + outcome Z :=
  let limit := HASH_RANGE - HASH_RANGE mod upper_bound in
  match to_bytes_big 1 hash_index, to_bytes_big 4 attempt with
  | Ok h, Ok a =>
      let sample := from_bytes_big (sha256 (HASH_DOMAIN ++ h ++ a ++ item)) in
      if sample <? limit then inr (Ok (sample mod upper_bound)) else inl (attempt + 1)
  | Raise e, _ | _, Raise e => inr (Raise e)
  end.

Definition sample_turns : positive := 4294967297.

Definition uniform_index (item : bytes) (hash_index upper_bound : Z) : outcome Z :=
  match iter_until sample_turns (sample_step item hash_index upper_bound) 0 with
  | inr r => r
  | inl _ => Raise ERuntime
  end.

(** The loop ends within its [2^32 + 1] turns: by an index in range or by the
    OverflowError. *)
Lemma uniform_index_ends item h ub :
  0 < ub ->
  match uniform_index item h ub with
  | Ok p => 0 <= p < ub
  | Raise e => e = EOverflow
  end.
Proof.
  intros Hub. unfold uniform_index.
  set (Q := fun r : outcome Z => match r with Ok p => 0 <= p < ub | Raise e => e = EOverflow end).
  pose proof (iter_until_measure (sample_step item h ub)
    (fun n a => a = 2 ^ 32 - n /\ n <= 2 ^ 32 /\ 0 <= n) Q) as Hm.
  assert (Hstep : forall n a, a = 2 ^ 32 - n /\ n <= 2 ^ 32 /\ 0 <= n ->
    match sample_step item h ub a with
    | inl a' => a' = 2 ^ 32 - (n - 1) /\ n - 1 <= 2 ^ 32 /\ 0 <= n - 1
    | inr r => Q r end).
  { intros n a (-> & Hn & Hn0). unfold sample_step.
    destruct (to_bytes_big 1 h) as [b|e] eqn:Eh;
      [|unfold to_bytes_big in Eh; case_match; [done|]; by injection Eh as <-].
    unfold to_bytes_big. change (256 ^ Z.of_nat 4) with (2 ^ 32).
    destruct (Z.leb_spec 0 (2 ^ 32 - n)); [|lia]. cbn [andb].
    destruct (Z.ltb_spec (2 ^ 32 - n) (2 ^ 32)); [|done].
    destruct (_ <? _); [apply Z.mod_pos_bound; lia|lia]. }
  cbv beta in Hm. specialize (Hm Hstep sample_turns (2 ^ 32) 0 ltac:(lia)).
  revert Hm. destruct (iter_until _ _ _); [unfold sample_turns; lia|done].
Qed.

(** [_indices]: Floyd's sampling over the upper indices m-k .. m-1. *)
Fixpoint floyd (item : bytes) (steps : list (Z * Z)) (selected : list Z)
    : list Z * option exn :=
  match steps with
  | [] => ([], None)
  | (hash_index, upper_index) :: steps' =>
      match uniform_index item hash_index (upper_index + 1) with
      | Raise e => ([], Some e)
      | Ok position =>
          let position := if bool_decide (position ∈ selected) then upper_index else position in
          let '(ps, fault) := floyd item steps' (position :: selected) in
          (position :: ps, fault)
      end
  end.

Definition indices (f : self) (item : bytes) : list Z * option exn :=
  let m := num_bits f in
  let k := num_hashes f in
  floyd item (zip (seqZ 0 k) (seqZ (m - k) k)) [].

(** ** Operations *)
Definition byte_at (bs : list Z) (idx : Z) : outcome Z :=
  match bs !! Z.to_nat (Z.shiftr idx 3) with Some b => Ok b | None => Raise EIndex end.
Definition mask (idx : Z) : Z := Z.shiftl 1 (Z.land idx 7).

(** The loop of [add] over the yielded positions. *)
Fixpoint set_positions (ps : list Z) (bs : list Z) (already_present : bool)
    : outcome bool * list Z :=
  match ps with
  | [] => (Ok already_present, bs)
  | idx :: ps' =>
      match byte_at bs idx with
      | Raise e => (Raise e, bs)
      | Ok b =>
          if Z.land b (mask idx) =? 0 then
            set_positions ps' (<[Z.to_nat (Z.shiftr idx 3) := Z.lor b (mask idx)]> bs) false
          else set_positions ps' bs already_present
      end
  end.

Definition add (item : bytes) : M self bool := fun f =>
  let '(ps, fault) := indices f item in
  let '(r, bs) := set_positions ps (bits f) true in
  let f' := Self (num_bits f) (num_hashes f) bs (count f) (capacity f) in
  match r, fault with
  | Raise e, _ => (Raise e, f')
  | Ok _, Some e => (Raise e, f')
  | Ok already_present, None =>
      (Ok (negb already_present),
       if already_present then f'
       else Self (num_bits f) (num_hashes f) bs (count f + 1) (capacity f))
  end.

(** The loop of [__contains__], with its early return. *)
Fixpoint all_set (ps : list Z) (fault : option exn) (bs : list Z) : outcome bool :=
  match ps with
  | [] => match fault with Some e => Raise e | None => Ok true end
  | idx :: ps' =>
      obind (byte_at bs idx) (fun b =>
      if Z.land b (mask idx) =? 0 then Ok false else all_set ps' fault bs)
  end.

Definition contains (item : bytes) : M self bool := fun f =>
  let '(ps, fault) := indices f item in (all_set ps fault (bits f), f).

Definition len : M self Z := fun f => (Ok (count f), f).
Definition clear : M self unit :=
  modify (fun f => Self (num_bits f) (num_hashes f) (replicate (length (bits f)) 0) 0 (capacity f)).

#[export] Instance bloom_filter : MembershipFilter self := {|
  mf_add := add; mf_contains := contains; mf_len := len; mf_clear := clear;
  mf_remove := fun _ => raise ENotImplemented
|}.

(** ** Invariant *)
Definition ok (f : self) : Prop :=
  0 < num_hashes f < num_bits f /\
  Z.of_nat (length (bits f)) = Z.shiftr (num_bits f + 7) 3 /\
  Forall (fun b => 0 <= b < 256) (bits f).

(** Floyd's positions: in range, distinct, one per step unless a sample
    overflowed, which is the only fault. *)
Lemma floyd_spec item steps selected :
  forall lo, 0 <= lo ->
  (map snd steps = seqZ lo (Z.of_nat (length steps))) ->
  Forall (fun p => 0 <= p < lo) selected ->
  let '(ps, fault) := floyd item steps selected in
  NoDup ps /\ Forall (fun p => 0 <= p < lo + Z.of_nat (length steps) /\ p ∉ selected) ps /\
  (fault = None /\ length ps = length steps \/ fault = Some EOverflow).
Proof.
  revert selected. induction steps as [|[h u] steps IH]; intros selected lo Hlo Hseq Hsel; cbn [floyd].
  - split; [constructor|]. split; [constructor|]. by left.
  - cbn [map length snd] in Hseq. rewrite Nat2Z.inj_succ, seqZ_cons in Hseq by lia.
    injection Hseq as -> Hseq. rewrite Z.pred_succ in Hseq.
    pose proof (uniform_index_ends item h (lo + 1) ltac:(lia)) as Hu.
    destruct (uniform_index item h (lo + 1)) as [p|e]; [|subst; repeat split; auto; constructor].
    set (p' := if bool_decide (p ∈ selected) then lo else p).
    assert (Hp' : 0 <= p' <= lo /\ p' ∉ selected).
    { unfold p'. case_bool_decide as Hb; [|split; [lia|done]]. split; [lia|].
      intros Hin. rewrite Forall_forall in Hsel. specialize (Hsel _ Hin). lia. }
    specialize (IH (p' :: selected) (Z.succ lo) ltac:(lia) Hseq).
    destruct (floyd item steps (p' :: selected)) as [ps fault].
    destruct IH as (H1 & H2 & H3).
    { constructor; [lia|]. eapply Forall_impl; [exact Hsel|]. cbn. lia. }
    split; [|split].
    + constructor; [|done]. intros Hin. rewrite Forall_forall in H2.
      destruct (H2 _ Hin) as [_ Hn]. apply Hn. left.
    + constructor; [split; [cbn [length]; lia|apply Hp']|].
      eapply Forall_impl; [exact H2|]. cbn [length]. intros q [Hq Hn]. split; [lia|].
      intros Hin. apply Hn. by right.
    + cbn [length]. destruct H3 as [[-> ->] | ->]; auto.
Qed.

Lemma steps_snd m k : 0 <= k ->
  map snd (zip (seqZ 0 k) (seqZ (m - k) k)) = seqZ (m - k) k /\
  length (zip (seqZ 0 k) (seqZ (m - k) k)) = Z.to_nat k.
Proof.
  intros Hk. split.
  - change (snd <$> zip (seqZ 0 k) (seqZ (m - k) k) = seqZ (m - k) k).
    apply snd_zip. rewrite !length_seqZ. lia.
  - rewrite length_zip_with, !length_seqZ. lia.
Qed.

Lemma indices_spec f item : ok f ->
  let '(ps, fault) := indices f item in
  NoDup ps /\ Forall (fun p => 0 <= p < num_bits f) ps /\
  (fault = None /\ Z.of_nat (length ps) = num_hashes f \/ fault = Some EOverflow).
Proof.
  intros (Hk & _). destruct (steps_snd (num_bits f) (num_hashes f)) as [S1 S2]; [lia|].
  pose proof (floyd_spec item (zip (seqZ 0 (num_hashes f))
    (seqZ (num_bits f - num_hashes f) (num_hashes f))) [] (num_bits f - num_hashes f)) as H.
  unfold indices. rewrite S1, S2, Z2Nat.id in H by lia.
  specialize (H ltac:(lia) eq_refl (Forall_nil_2 _)).
  destruct (floyd _ _ _) as [ps fault]. destruct H as (H1 & H2 & H3).
  split; [done|]. split.
  - eapply Forall_impl; [exact H2|]. cbn. lia.
  - destruct H3 as [[-> ->] | ->]; [left|by right]. split; [done|]. lia.
Qed.

(** ** Bits *)
Definition bit (bs : list Z) (p : Z) : bool :=
  match byte_at bs p with Ok b => negb (Z.land b (mask p) =? 0) | Raise _ => false end.

Lemma mask_testbit b p : (Z.land b (mask p) =? 0) = negb (Z.testbit b (Z.land p 7)).
Proof.
  unfold mask. set (n := Z.land p 7).
  assert (Hn : 0 <= n) by (apply Z.land_nonneg; right; lia).
  assert (E : Z.land b (Z.shiftl 1 n) = if Z.testbit b n then Z.shiftl 1 n else 0).
  { apply Z.bits_inj'. intros i Hi. rewrite Z.land_spec, Z.shiftl_1_l.
    destruct (decide (i = n)) as [-> | Hne].
    - rewrite Z.pow2_bits_true by lia. destruct (Z.testbit b n); cbn.
      + by rewrite Z.pow2_bits_true by lia.
      + by rewrite Z.bits_0.
    - rewrite Z.pow2_bits_false by lia. rewrite andb_false_r. destruct (Z.testbit b n).
      + by rewrite Z.pow2_bits_false by lia.
      + by rewrite Z.bits_0. }
  rewrite E, Z.shiftl_1_l. destruct (Z.testbit b n); cbn; [|done].
  apply Z.eqb_neq. pose proof (Z.pow_pos_nonneg 2 n). lia.
Qed.

Lemma mask_mod p : Z.land p 7 = p mod 8.
Proof. change 7 with (Z.ones 3). by rewrite Z.land_ones. Qed.

Lemma byte_index p : Z.shiftr p 3 = p / 8.
Proof. by rewrite Z.shiftr_div_pow2. Qed.

Lemma mask_byte b p : 0 <= b < 256 -> 0 <= Z.lor b (mask p) < 256.
Proof.
  intros Hb. assert (Hm : 0 <= mask p < 256).
  { unfold mask. rewrite Z.shiftl_1_l, mask_mod. pose proof (Z.mod_pos_bound p 8 ltac:(lia)).
    split; [apply Z.pow_nonneg; lia|]. change 256 with (2 ^ 8). apply Z.pow_lt_mono_r; lia. }
  assert (Hl : 0 <= Z.lor b (mask p)) by (apply Z.lor_nonneg; lia). split; [done|].
  destruct (Z.eq_dec (Z.lor b (mask p)) 0) as [-> | Hne]; [lia|].
  assert (Hlog : forall x, 0 <= x < 256 -> Z.log2 x < 8).
  { intros x Hx. destruct (Z.eq_dec x 0) as [-> | Hx0]; [done|].
    apply Z.log2_lt_pow2; change (2 ^ 8) with 256; lia. }
  change 256 with (2 ^ 8). apply Z.log2_lt_pow2; [lia|]. rewrite Z.log2_lor by lia.
  by apply Z.max_lub_lt; apply Hlog.
Qed.

(** Every position below the vector's size has its byte. *)
Lemma byte_at_ok f p : ok f -> 0 <= p < num_bits f ->
  (Z.to_nat (Z.shiftr p 3) < length (bits f))%nat.
Proof.
  intros (_ & Hl & _) Hp. rewrite byte_index in *. zdm.
Qed.

(** Setting one bit. *)
Definition set_bit (bs : list Z) (p b : Z) : list Z :=
  <[Z.to_nat (Z.shiftr p 3) := Z.lor b (mask p)]> bs.

Lemma bit_set_bit bs p b q : 0 <= p -> 0 <= q -> byte_at bs p = Ok b ->
  bit (set_bit bs p b) q = bool_decide (q = p) || bit bs q.
Proof.
  intros Hp Hq Hb. unfold byte_at in Hb. destruct (bs !! _) as [b'|] eqn:Hl; [|done].
  injection Hb as ->. unfold bit, byte_at, set_bit.
  destruct (decide (Z.to_nat (Z.shiftr q 3) = Z.to_nat (Z.shiftr p 3))) as [He|He].
  - rewrite He. rewrite list_lookup_insert_eq by (by apply lookup_lt_Some in Hl).
    rewrite Hl, !mask_testbit, !negb_involutive, Z.lor_spec, orb_comm. f_equal.
    unfold mask. rewrite Z.shiftl_1_l, Z.pow2_bits_eqb by (apply Z.land_nonneg; right; lia).
    rewrite !mask_mod. rewrite !byte_index in He.
    case_bool_decide as Hd; [subst; apply Z.eqb_refl|]. apply Z.eqb_neq. zdm.
  - rewrite list_lookup_insert_ne by done.
    rewrite bool_decide_false; [done|]. by intros ->.
Qed.

(** ** What the loops compute *)
Definition all_bits (ps : list Z) (bs : list Z) : bool := forallb (bit bs) ps.

Definition vec_ok (m : Z) (bs : list Z) : Prop :=
  Z.of_nat (length bs) = Z.shiftr (m + 7) 3 /\ Forall (fun b => 0 <= b < 256) bs.

Lemma byte_at_in m bs p : vec_ok m bs -> 0 <= p < m ->
  exists b, byte_at bs p = Ok b /\ 0 <= b < 256.
Proof.
  intros [Hl Hb] Hp. unfold byte_at. rewrite byte_index in Hl |- *.
  destruct (lookup_lt_is_Some_2 bs (Z.to_nat (p / 8))) as [b E]; [zdm|].
  rewrite E. exists b. split; [done|]. by apply (Forall_lookup_1 _ _ _ _ Hb E).
Qed.

Lemma vec_ok_set_bit m bs p b : vec_ok m bs -> 0 <= b < 256 -> vec_ok m (set_bit bs p b).
Proof.
  intros [Hl Hb] Hr. split; unfold set_bit; [by rewrite length_insert|].
  apply Forall_insert; [done|]. by apply mask_byte.
Qed.

Lemma bit_false bs p b : byte_at bs p = Ok b -> (Z.land b (mask p) =? 0) = negb (bit bs p).
Proof. unfold bit. intros ->. by rewrite negb_involutive. Qed.

(** [add]'s loop sets exactly the given positions and reports whether they
    were all set before. *)
Lemma set_positions_spec m ps bs acc :
  vec_ok m bs -> Forall (fun p => 0 <= p < m) ps ->
  exists bs', set_positions ps bs acc = (Ok (acc && all_bits ps bs), bs') /\ vec_ok m bs' /\
    forall q, 0 <= q -> bit bs' q = bool_decide (q ∈ ps) || bit bs q.
Proof.
  revert bs acc. induction ps as [|p ps IH]; intros bs acc Hv Hps; cbn [set_positions].
  - exists bs. cbn. rewrite andb_true_r. auto.
  - apply Forall_cons in Hps as [Hp Hps].
    destruct (byte_at_in m bs p Hv Hp) as (b & Eb & Hb). rewrite Eb.
    rewrite (bit_false bs p b Eb). cbn [all_bits forallb]. destruct (bit bs p) eqn:Ep; cbn [negb].
    + destruct (IH bs acc Hv Hps) as (bs' & E & Hv' & Hq). exists bs'.
      split; [exact E|]. split; [done|]. intros q Hq0. rewrite (Hq q Hq0).
      rewrite (bool_decide_ext (q ∈ p :: ps) (q = p \/ q ∈ ps)) by apply elem_of_cons.
      rewrite bool_decide_or. destruct (decide (q = p)) as [-> | Hne].
      * by rewrite Ep, !orb_true_r.
      * by rewrite (bool_decide_false (q = p)).
    + fold (set_bit bs p b).
      destruct (IH (set_bit bs p b) false) as (bs' & E & Hv' & Hq); [by apply vec_ok_set_bit|done|].
      exists bs'. split; [by rewrite E, andb_false_r|]. split; [done|].
      intros q Hq0. rewrite (Hq q Hq0), (bit_set_bit bs p b q) by (done || lia).
      rewrite (bool_decide_ext (q ∈ p :: ps) (q = p \/ q ∈ ps)) by apply elem_of_cons.
      rewrite bool_decide_or. by destruct (bool_decide (q = p)), (bool_decide (q ∈ ps)), (bit bs q).
Qed.

Lemma all_set_spec m ps fault bs :
  vec_ok m bs -> Forall (fun p => 0 <= p < m) ps ->
  all_set ps fault bs =
    if all_bits ps bs then match fault with Some e => Raise e | None => Ok true end else Ok false.
Proof.
  intros Hv. induction 1 as [|p ps Hp Hps IH]; cbn [all_set]; [done|].
  destruct (byte_at_in m bs p Hv Hp) as (b & Eb & Hb). rewrite Eb. cbn [obind].
  rewrite (bit_false bs p b Eb). cbn [all_bits forallb]. by destruct (bit bs p).
Qed.

Arguments all_bits : simpl never.

(** An item is recorded when its positions could be drawn and are all set. *)
Definition has (f : self) (x : bytes) : Prop :=
  snd (indices f x) = None /\ all_bits (fst (indices f x)) (bits f) = true.

Lemma has_mono f bs' c x :
  (forall q, 0 <= q -> bit (bits f) q = true -> bit bs' q = true) ->
  ok f -> has f x ->
  has (Self (num_bits f) (num_hashes f) bs' c (capacity f)) x.
Proof.
  intros Hb Hok [H1 H2]. pose proof (indices_spec f x Hok) as Hi. unfold has.
  change (indices (Self (num_bits f) (num_hashes f) bs' c (capacity f)) x) with (indices f x).
  destruct (indices f x) as [ps fault]. cbn in *. split; [done|].
  unfold all_bits in *. rewrite forallb_forall in H2 |- *. intros q Hq. apply Hb; [|by apply H2].
  destruct Hi as (_ & Hr & _). rewrite Forall_forall in Hr. apply list_elem_of_In, Hr in Hq. lia.
Qed.

Lemma bloom_add_spec f x : ok f ->
  exists bs' c,
    snd (add x f) = Self (num_bits f) (num_hashes f) bs' c (capacity f) /\
    ok (snd (add x f)) /\
    (forall q, 0 <= q -> bit bs' q = bool_decide (q ∈ fst (indices f x)) || bit (bits f) q) /\
    match snd (indices f x) with
    | Some e => fst (add x f) = Raise e /\ e = EOverflow /\ c = count f
    | None => fst (add x f) = Ok (negb (all_bits (fst (indices f x)) (bits f))) /\
              c = (if all_bits (fst (indices f x)) (bits f) then count f else count f + 1)
    end.
Proof.
  intros Hok. pose proof (indices_spec f x Hok) as Hi. destruct Hok as (Hk & Hl & Hb).
  unfold add. destruct (indices f x) as [ps fault]. destruct Hi as (_ & Hr & Hf).
  destruct (set_positions_spec (num_bits f) ps (bits f) true (conj Hl Hb) Hr)
    as (bs' & E & [Hl' Hb'] & Hq). rewrite E. cbn [andb fst snd].
  destruct fault as [e|]; cbn [fst snd].
  - eexists _, _. split; [reflexivity|]. split; [done|]. split; [done|].
    destruct Hf as [[? _] | [= ->]]; done.
  - destruct (all_bits ps (bits f)); eexists _, _; (split; [reflexivity|]); done.
Qed.

Lemma bloom_contains_spec f x : ok f ->
  contains x f =
    (if all_bits (fst (indices f x)) (bits f)
     then match snd (indices f x) with Some e => Raise e | None => Ok true end
     else Ok false, f).
Proof.
  intros Hok. pose proof (indices_spec f x Hok) as Hi. destruct Hok as (Hk & Hl & Hb).
  unfold contains. destruct (indices f x) as [ps fault]. destruct Hi as (_ & Hr & _). cbn.
  by rewrite (all_set_spec (num_bits f) ps fault (bits f) (conj Hl Hb) Hr).
Qed.

(** The Bloom filter keeps the promise of the filter interface. *)
#[export] Instance bloom_no_false_negatives : NoFalseNegatives self.
Proof.
  refine {| mf_inv := ok; mf_has := has |}.
  - intros x f o f' Hok E. cbn in E.
    destruct (bloom_add_spec f x Hok) as (bs' & c & Es & Hok' & Hq & Hr). rewrite E in *. cbn in *.
    subst f'. split; [done|]. split.
    + intros Ho. unfold has.
      change (indices (Self (num_bits f) (num_hashes f) bs' c (capacity f)) x) with (indices f x).
      pose proof (indices_spec f x Hok) as Hi.
      destruct (indices f x) as [ps [e|]]; cbn in *; [destruct Hr as (-> & _); done|].
      split; [done|]. unfold all_bits. apply forallb_forall. intros q Hin%list_elem_of_In.
      destruct Hi as (_ & Hr' & _). rewrite Forall_forall in Hr'.
      rewrite Hq by (specialize (Hr' _ Hin); lia). by rewrite bool_decide_true.
    + intros y Hy. apply has_mono; [|done|done]. intros q Hq0 Hb.
      rewrite Hq by done. by rewrite Hb, orb_true_r.
  - intros x f o f' Hok E. cbn in E. rewrite bloom_contains_spec in E by done. by injection E as <- <-.
  - intros x f Hok [H1 H2]. cbn. destruct (bloom_add_spec f x Hok) as (bs' & c & _ & _ & _ & Hr).
    rewrite H1, H2 in Hr. apply Hr.
  - intros x f Hok [H1 H2]. cbn. rewrite bloom_contains_spec by done. by rewrite H1, H2.
Defined.

(** The positions of an item: distinct, inside the bit vector, exactly one per
    hash function; the generator can only fail by exhausting the 32-bit attempt
    counter of one sample, and the rejection loop always ends. *)
Theorem indices_distinct f item (Hok : ok f) :
  NoDup (fst (indices f item)) /\
  Forall (fun p => 0 <= p < num_bits f) (fst (indices f item)) /\
  (snd (indices f item) = None -> Z.of_nat (length (fst (indices f item))) = num_hashes f) /\
  (forall e, snd (indices f item) = Some e -> e = EOverflow).
Proof.
  pose proof (indices_spec f item Hok) as H. destruct (indices f item) as [ps fault]. cbn.
  destruct H as (H1 & H2 & [[-> H3] | ->]); split_and!; try done. by intros e [= <-].
Qed.

(** A returning [add] answers the negation of the membership test made just
    before it; afterwards the item is a member; exactly the item's positions are
    added to the set bits, and the counter moves exactly for new items. *)
Theorem add_answers_contains f x b f' (Hok : ok f) (Hadd : add x f = (Ok b, f')) :
  ok f' /\ contains x f = (Ok (negb b), f) /\ contains x f' = (Ok true, f') /\
  count f' = (if b then count f + 1 else count f) /\
  forall q, 0 <= q ->
    bit (bits f') q = bool_decide (q ∈ fst (indices f x)) || bit (bits f) q.
Proof.
  destruct (bloom_add_spec f x Hok) as (bs' & c & Es & Hok' & Hq & Hr). rewrite Hadd in *. cbn in *.
  subst f'. pose proof (indices_spec f x Hok) as Hi. rewrite !bloom_contains_spec by done.
  change (indices (Self (num_bits f) (num_hashes f) bs' c (capacity f)) x) with (indices f x).
  destruct (indices f x) as [ps [e|]]; cbn in *; [by destruct Hr|].
  destruct Hr as ([= Hb] & ->).
  assert (Hall : all_bits ps bs' = true).
  { unfold all_bits. apply forallb_forall. intros q Hin%list_elem_of_In.
    destruct Hi as (_ & Hr' & _). rewrite Forall_forall in Hr'.
    rewrite Hq by (specialize (Hr' _ Hin); lia). by rewrite bool_decide_true. }
  rewrite Hall. subst b. by destruct (all_bits ps (bits f)).
Qed.
End Filter.

(** ** Construction *)
Section Construction.
Context {ML : MathLib}.

Lemma bisect_lower ok fuel lower upper : lower <= upper ->
  lower <= bisect fuel ok lower upper <= upper.
Proof.
  revert lower upper. induction fuel as [|fuel IH]; intros lower upper Hle; cbn; [lia|].
  destruct (Z.ltb_spec lower upper); [|lia].
  assert (Hmid : lower <= (lower + upper) / 2 < upper) by zdm.
  destruct (ok ((lower + upper) / 2)).
  - pose proof (IH lower ((lower + upper) / 2)). lia.
  - pose proof (IH ((lower + upper) / 2 + 1) upper). lia.
Qed.

Lemma select_range capacity er max_bits m k : 64 < max_bits ->
  select_sizing capacity er max_bits = (m, k) ->
  1 <= k <= 64 /\ (m = max_bits + 1 \/ k < m <= max_bits).
Proof.
  intros Hmb E. pose proof (select_fold (fun k => minimum_num_bits capacity (log er) k max_bits)
                        (seqZ 1 MAX_HASHES) (max_bits + 1, 1)) as (_ & _ & H3).
  unfold select_sizing in E. rewrite E in H3.
  destruct H3 as [[= -> ->] | (k' & Hk' & [= -> ->])]; [lia|].
  apply elem_of_seqZ in Hk'. unfold MAX_HASHES in Hk'. split; [lia|].
  unfold minimum_num_bits. repeat (case_match; [by left|]). right.
  match goal with |- context [bisect ?n ?o ?l ?u] => pose proof (bisect_lower o n l u) end. lia.
Qed.

Lemma bit_empty bs p : Forall (fun b => b = 0) bs -> bit bs p = false.
Proof.
  intros Hz. unfold bit, byte_at. destruct (bs !! _) as [b|] eqn:E; [|done].
  apply (Forall_lookup_1 _ _ _ _ Hz) in E as ->. by rewrite Z.land_0_l.
Qed.

Lemma init_ok capacity error_rate f :
  init capacity error_rate = Ok f ->
  ok f /\ 1 <= num_hashes f <= 64 /\ Z.of_nat (length (bits f)) <= MAX_FILTER_BYTES /\
  count f = 0 /\ (exists n, capacity = AInt n /\ 0 < n /\ Bloom.capacity f = n) /\
  (exists e, error_rate = AFloat e /\ fltb fzero e = true /\ fltb e (float_of_Z 1) = true) /\
  Forall (fun b => b = 0) (bits f).
Proof.
  intros Hinit. unfold init in Hinit. destruct capacity as [|n| |]; try done.
  destruct (Z.leb_spec n 0); [done|]. destruct error_rate as [| |e|]; try done.
  destruct (isfinite e); [|done]. destruct (fltb fzero e) eqn:E0; [|done].
  destruct (fltb e (float_of_Z 1)) eqn:E1; [|done]. cbn [negb andb orb] in Hinit.
  destruct (select_sizing n e (MAX_FILTER_BYTES * 8)) as [m k] eqn:Es.
  apply obind_ok in Hinit as ([] & Hc & [= <-]). unfold check_allocation in Hc.
  destruct (Z.ltb_spec MAX_FILTER_BYTES (Z.shiftr (m + 7) 3)) as [|Hb]; [done|].
  destruct (select_range n e (MAX_FILTER_BYTES * 8) m k eq_refl Es) as [Hk Hm].
  assert (Hs : 0 <= Z.shiftr (m + 7) 3).
  { apply Z.shiftr_nonneg. unfold MAX_FILTER_BYTES in *. lia. }
  cbn [Bloom.capacity count num_hashes bits].
  assert (Hlen : Z.of_nat (length (replicate (Z.to_nat (Z.shiftr (m + 7) 3)) 0))
                 = Z.shiftr (m + 7) 3) by (rewrite length_replicate; by apply Z2Nat.id).
  split; [|split; [done|split; [by rewrite Hlen|split; [done|]]]].
  - split; cbn [num_hashes num_bits bits]; [|split; [exact Hlen|]].
    + destruct Hm as [-> | Hm]; [|lia]. rewrite byte_index in Hb.
      exfalso. apply (Z.lt_irrefl MAX_FILTER_BYTES).
      eapply Z.lt_le_trans; [|exact Hb]. by vm_compute.
    + by apply Forall_replicate.
  - split; [by exists n|split; [by exists e|by apply Forall_replicate]].
Qed.

(** A constructed filter is well formed, empty, uses 1 to 64 hash functions and
    stays inside the 128 MiB allocation budget; every bad argument is refused
    before the vector is allocated, and the new filter contains nothing. *)
Theorem constructed_within_budget sha256 capacity error_rate f x
    (Hinit : init capacity error_rate = Ok f) :
  ok f /\ 1 <= num_hashes f <= 64 /\ Z.of_nat (length (bits f)) <= MAX_FILTER_BYTES /\
  count f = 0 /\
  (exists n e, capacity = AInt n /\ 0 < n /\ error_rate = AFloat e /\
     fltb fzero e = true /\ fltb e (float_of_Z 1) = true) /\
  fst (contains sha256 x f) <> Ok true.
Proof.
  destruct (init_ok _ _ _ Hinit) as (Hok & Hk & Hb & Hc & (n & -> & Hn & _) & (e & -> & He & He1) & Hz).
  split; [done|]. split; [done|]. split; [done|]. split; [done|]. split; [by exists n, e|].
  rewrite (bloom_contains_spec sha256 f x Hok). cbn [fst].
  pose proof (indices_spec sha256 f x Hok) as Hi. destruct (indices sha256 f x) as [ps fault].
  cbn [fst snd]. destruct ps as [|p ps].
  - destruct Hi as (_ & _ & [[-> Hl] | ->]); cbn in *; [lia|done].
  - unfold all_bits. cbn [forallb]. rewrite (bit_empty _ p Hz). done.
Qed.
End Construction.

(** ** Examples *)
Module Examples.
Definition toy_sha (b : bytes) : bytes :=
  be_bytes 32 (fold_left (fun a x => (a * 1000003 + Z_of_byte x * 7919 + 12345) mod 2 ^ 256) b 1
               * 2654435761 mod 2 ^ 256).
Definition toy_math : MathLib :=
  {| log1p := fun x => x; expm1 := fun x => x; log := fun x => fsub x (float_of_Z 1) |}.
Definition small : self := Self 20 3 [0; 0; 0] 0 5.

Lemma small_ok : ok small.
Proof. split; [cbn; lia|]. split; [done|]. repeat constructor; lia. Qed.

(** On a saturated vector an item never inserted is answered "seen". *)
Lemma fresh_item_reported_seen :
  fst (add toy_sha [x61] (Self 20 3 [255; 255; 255] 9 5)) = Ok false.
Proof. by vm_compute. Qed.

Lemma indices_distinct_witness :
  ok small /\ NoDup (fst (indices toy_sha small [x61])) /\
  Z.of_nat (length (fst (indices toy_sha small [x61]))) = 3.
Proof.
  split; [exact small_ok|].
  destruct (indices_distinct toy_sha small [x61] small_ok) as (H1 & _ & H2 & _).
  split; [exact H1|]. apply H2. by vm_compute.
Defined.

Lemma add_answers_contains_witness :
  exists b f', add toy_sha [x61] small = (Ok b, f') /\ contains toy_sha [x61] f' = (Ok true, f').
Proof.
  assert (E : add toy_sha [x61] small = (Ok true, snd (add toy_sha [x61] small))) by by vm_compute.
  exists true, (snd (add toy_sha [x61] small)). split; [exact E|].
  exact (proj1 (proj2 (proj2 (add_answers_contains toy_sha small [x61] true _ small_ok E)))).
Defined.

Lemma sizing_is_tight_witness :
  let '(m, k) := @select_sizing toy_math 3 (fdiv (float_of_Z 1) (float_of_Z 4)) 100 in
  m = 101 \/ (m <= 100 /\ 1 <= k <= 64 /\
    @tight toy_math 3 (fsub (fdiv (float_of_Z 1) (float_of_Z 4)) (float_of_Z 1)) k m).
Proof.
  assert (Hb : forall m k, 1 <= k <= 64 -> k < m <= 100 -> 3 <= MAX_HASHES * 100 ->
       is_nan (@log_false_positive_bound toy_math 3 m k) = false).
  { intros m k Hk Hm _.
    assert (Hall : forallb (fun m => forallb (fun k =>
      negb (is_nan (@log_false_positive_bound toy_math 3 m k))) (seqZ 1 64)) (seqZ 1 100) = true)
      by by vm_compute.
    rewrite forallb_forall in Hall. specialize (Hall m).
    rewrite <- list_elem_of_In, elem_of_seqZ, forallb_forall in Hall. specialize (Hall ltac:(lia) k).
    rewrite <- list_elem_of_In, elem_of_seqZ in Hall. specialize (Hall ltac:(lia)).
    by apply negb_true_iff in Hall. }
  pose proof (@sizing_is_tight toy_math 3 (fdiv (float_of_Z 1) (float_of_Z 4)) 100 eq_refl Hb) as H.
  destruct (select_sizing _ _ _) as [m k]. exact (proj2 H).
Defined.

Lemma constructed_within_budget_witness :
  exists f, @init toy_math (AInt 3) (AFloat (fdiv (float_of_Z 1) (float_of_Z 4))) = Ok f /\
    ok f /\ count f = 0.
Proof.
  destruct (@init toy_math (AInt 3) (AFloat (fdiv (float_of_Z 1) (float_of_Z 4)))) as [f|e] eqn:E.
  - exists f. split; [reflexivity|].
    destruct (constructed_within_budget toy_sha _ _ f [x61] E) as (H1 & _ & _ & H2 & _). by split.
  - exfalso. assert (E' : is_ok (@init toy_math (AInt 3)
      (AFloat (fdiv (float_of_Z 1) (float_of_Z 4)))) = true) by by vm_compute.
    by rewrite E in E'.
Defined.
End Examples.
End Bloom.
