(* ===== verification/Cuckoo.v ===== *)
(** * The cuckoo filter

    dupefilter/filters/cuckoo_filter.py: fingerprints in two candidate buckets
    of four slots, insertion by kicking random occupants along at most 500
    displacements, a journal that puts every displaced fingerprint back when
    the table turns out full or the insertion is interrupted.

    SHA-256, the random slot and the places where an asynchronous exception
    can strike are parameters: [poll] stands at each statement boundary of the
    [try] block and may raise. *)

From S2P Require Export Loops Membership.

Module Cuckoo.
Definition BUCKET_SIZE : Z := 4.
Definition MAX_KICKS : nat := 500.
Definition SHA256_DIGEST_BYTES : Z := 32.

(** [_TARGET_LOAD], the binary64 value of 0.85. *)
Definition TARGET_LOAD : float := S754_finite false 7656119366529843 (-53).

Record self := Self {
  num_buckets : Z; fp_len : Z; buckets : list (list bytes); count : Z;
  configured_capacity : Z
}.

(** ** Construction *)

(** [math.ldexp(2.0 * b, -(8 * fp_len))]. *)
Definition byte_threshold (fp_len : Z) : float :=
  SFldexp prec emax (fmul (float_of_Z 2) (float_of_Z BUCKET_SIZE)) (- (8 * fp_len)).

Definition find_fp_len (error_rate : float) : option Z :=
  List.find (fun fp_len => fleb (byte_threshold fp_len) error_rate) (seqZ 1 SHA256_DIGEST_BYTES).

(** [math.ceil(capacity / b / load)]: the int quotient by four is the rounded
    [capacity * 2^-2]; an infinite quotient raises OverflowError. *)
Definition ideal_buckets (capacity : Z) : outcome Z :=
  let q := binary_normalize prec emax capacity (-2) false in
  if isfinite q && isfinite (fdiv q TARGET_LOAD) then Ok (fceil (fdiv q TARGET_LOAD))
  else Raise EOverflow.

(** [while m < ideal: m <<= 1]. *)
Fixpoint double_until (fuel : nat) (m ideal : Z) : Z :=
  match fuel with
  | O => m
  | S fuel' => if m <? ideal then double_until fuel' (Z.shiftl m 1) ideal else m
  end.

Definition init (capacity : Z) (error_rate : float) : outcome self :=
  if capacity <=? 0 then Raise EValue
  else if negb (isfinite error_rate)
          || negb (fltb fzero error_rate && fltb error_rate (float_of_Z 1))
  then Raise EValue
  else match find_fp_len error_rate with
       | None => Raise EValue
       | Some fp_len =>
           obind (ideal_buckets capacity) (fun ideal =>
           let m := double_until (Z.to_nat (Z.log2_up ideal)) 2 ideal in
           Ok (Self m fp_len (replicate (Z.to_nat m) []) 0 capacity))
       end.

(** ** Table primitives; every index is masked, see [alt_index_range]. *)
Abbreviation table := (list (list bytes)).
Definition bucket (t : table) (i : Z) : list bytes := default [] (t !! Z.to_nat i).
Definition slot_at (t : table) (i s : Z) : bytes := default [] (bucket t i !! Z.to_nat s).
Definition set_slot (t : table) (i s : Z) (fp : bytes) : table :=
  alter (fun l => <[Z.to_nat s := fp]> l) (Z.to_nat i) t.
Definition append_to (t : table) (i : Z) (fp : bytes) : table :=
  alter (fun l => l ++ [fp]) (Z.to_nat i) t.
Definition pop_from (t : table) (i : Z) : table := alter (fun l => removelast l) (Z.to_nat i) t.
Definition bucket_len (t : table) (i : Z) : Z := Z.of_nat (length (bucket t i)).

(** The journal, latest entry first, and its replay. *)
Abbreviation journal := (list (Z * Z * bytes)).
Fixpoint unwind (path : journal) (t : table) : table :=
  match path with
  | [] => t
  | (index, slot, evicted) :: path' => unwind path' (set_slot t index slot evicted)
  end.

Class KickWorld (R : Type) := { randrange : Z -> M R Z; poll : M R unit }.
Class KickWorldLaws (R : Type) `{KickWorld R} := {
  randrange_range : forall b w s w', randrange b w = (Ok s, w') -> 0 <= s < b
}.

(** How the displacement loop ends: placed, out of kicks, or interrupted, with
    the bucket a final append may already have reached. *)
Inductive kick_end :=
  | Placed (t : table)
  | Exhausted (t : table) (path : journal)
  | Interrupted (e : exn) (t : table) (path : journal) (appended : option (Z * Z)).

Section Filter.
Variable sha256 : bytes -> bytes.
Context {R : Type} {KW : KickWorld R}.

(** ** Indices *)
Definition fingerprint (f : self) (item : bytes) : bytes * Z :=
  let digest := sha256 item in
  let fp := take (Z.to_nat (fp_len f)) digest in
  let fp := if bool_decide (fp = replicate (Z.to_nat (fp_len f)) x00) then x01 :: tl fp else fp in
  (fp, Z.land (from_bytes_big (take 8 (drop 8 digest))) (num_buckets f - 1)).

Definition hash_fp (m : Z) (fp : bytes) : Z :=
  Z.land (from_bytes_big (take 8 (sha256 fp))) (m - 1).

Definition alt_index (m index : Z) (fp : bytes) : Z := Z.lxor index (hash_fp m fp).

(** ** Insertion *)
Fixpoint kick (n : nat) (m : Z) (t : table) (index : Z) (fp : bytes) (path : journal) (w : R)
    : kick_end * R :=
  match n with
  | O => (Exhausted t path, w)
  | S n' =>
      match randrange BUCKET_SIZE w with
      | (Raise e, w1) => (Interrupted e t path None, w1)
      | (Ok slot, w1) =>
          let evicted := slot_at t index slot in
          let path1 := (index, slot, evicted) :: path in
          match poll w1 with
          | (Raise e, w2) => (Interrupted e t path1 None, w2)
          | (Ok _, w2) =>
              let t1 := set_slot t index slot fp in
              match poll w2 with
              | (Raise e, w3) => (Interrupted e t1 path1 None, w3)
              | (Ok _, w3) =>
                  let index1 := alt_index m index evicted in
                  if bucket_len t1 index1 <? BUCKET_SIZE then
                    let size := bucket_len t1 index1 in
                    let t2 := append_to t1 index1 evicted in
                    match poll w3 with
                    | (Raise e, w4) => (Interrupted e t2 path1 (Some (index1, size)), w4)
                    | (Ok _, w4) => (Placed t2, w4)
                    end
                  else kick n' m t1 index1 evicted path1 w3
              end
          end
      end
  end.

(** The [except BaseException] clause. *)
Definition restore_interrupted (t : table) (path : journal) (appended : option (Z * Z)) : table :=
  let t := match appended with
           | Some (index, size) => if size <? bucket_len t index then pop_from t index else t
           | None => t
           end in
  unwind path t.

Definition insert (m : Z) (t : table) (fp : bytes) (i1 i2 : Z) (w : R)
    : outcome bool * table * R :=
  if bucket_len t i1 <? BUCKET_SIZE then (Ok true, append_to t i1 fp, w)
  else if bucket_len t i2 <? BUCKET_SIZE then (Ok true, append_to t i2 fp, w)
  else match kick MAX_KICKS m t i1 fp [] w with
       | (Placed t', w') => (Ok true, t', w')
       | (Exhausted t' path, w') => (Ok false, unwind path t', w')
       | (Interrupted e t' path appended, w') =>
           (Raise e, restore_interrupted t' path appended, w')
       end.

Definition with_table (f : self) (t : table) (c : Z) : self :=
  Self (num_buckets f) (fp_len f) t c (configured_capacity f).

Definition in_buckets (f : self) (fp : bytes) (i1 i2 : Z) : bool :=
  bool_decide (fp ∈ bucket (buckets f) i1) || bool_decide (fp ∈ bucket (buckets f) i2).

Definition add (item : bytes) : M (self * R) bool := fun fw =>
  let '(f, w) := fw in
  let '(fp, i1) := fingerprint f item in
  let i2 := alt_index (num_buckets f) i1 fp in
  if in_buckets f fp i1 i2 then (Ok false, (f, w))
  else match insert (num_buckets f) (buckets f) fp i1 i2 w with
       | (Ok true, t, w') => (Ok true, (with_table f t (count f + 1), w'))
       | (Ok false, t, w') => (Raise EFilterFull, (with_table f t (count f), w'))
       | (Raise e, t, w') => (Raise e, (with_table f t (count f), w'))
       end.

Definition contains (item : bytes) : M (self * R) bool := fun fw =>
  let '(f, w) := fw in
  let '(fp, i1) := fingerprint f item in
  let i2 := alt_index (num_buckets f) i1 fp in
  (Ok (in_buckets f fp i1 i2), fw).

Definition len : M (self * R) Z := fun fw => (Ok (count (fst fw)), fw).
Definition clear : M (self * R) unit :=
  on_fst (modify (fun f => with_table f (replicate (Z.to_nat (num_buckets f)) []) 0)).

#[export] Instance cuckoo_filter : MembershipFilter (self * R) := {|
  mf_add := add; mf_contains := contains; mf_len := len; mf_clear := clear;
  mf_remove := fun _ => raise ENotImplemented
|}.

(** ** The two buckets of a fingerprint *)
Definition power_of_two (m : Z) : Prop := exists j, 0 <= j /\ m = 2 ^ j.

Lemma alt_index_involutive m i fp : alt_index m (alt_index m i fp) fp = i.
Proof. unfold alt_index. by rewrite Z.lxor_assoc, Z.lxor_nilpotent, Z.lxor_0_r. Qed.

Lemma masked_range m x : power_of_two m -> 0 <= Z.land x (m - 1) < m.
Proof.
  intros (j & Hj & ->). replace (2 ^ j - 1) with (Z.ones j) by (rewrite Z.ones_equiv; lia).
  rewrite Z.land_ones by done. apply Z.mod_pos_bound. lia.
Qed.

Lemma lxor_range m x y : power_of_two m -> 0 <= x < m -> 0 <= y < m -> 0 <= Z.lxor x y < m.
Proof.
  intros (j & Hj & ->) Hx Hy. assert (Hn : 0 <= Z.lxor x y) by (apply Z.lxor_nonneg; lia).
  split; [done|].
  replace (Z.lxor x y) with (Z.land (Z.lxor x y) (Z.ones j)).
  - rewrite Z.land_ones by done. apply Z.mod_pos_bound. lia.
  - apply Z.bits_inj'. intros n Hn'. rewrite Z.land_spec, Z.lxor_spec.
    destruct (Z.ltb_spec n j).
    + rewrite Z.ones_spec_low by lia. apply andb_true_r.
    + rewrite Z.ones_spec_high by lia. rewrite andb_false_r.
      rewrite <- (Z.mod_small x (2 ^ j)), <- (Z.mod_small y (2 ^ j)) by lia.
      by rewrite !Z.mod_pow2_bits_high by lia.
Qed.

Definition full_table (m : Z) (t : table) : Prop :=
  Z.of_nat (length t) = m /\ Forall (fun l => (length l <= 4)%nat) t.

(** ** The primitives *)
Lemma bucket_alter g t i j : 0 <= i -> 0 <= j -> (i < Z.of_nat (length t) \/ g [] = []) ->
  bucket (alter g (Z.to_nat i) t) j = if decide (j = i) then g (bucket t i) else bucket t j.
Proof.
  intros Hi Hj Hr. unfold bucket. rewrite list_lookup_alter.
  case_decide as H1; case_decide as H2; try lia; [|done].
  destruct (t !! Z.to_nat i) as [l|] eqn:E; cbn; [done|].
  apply lookup_ge_None in E. destruct Hr as [?|Hg]; [lia|done].
Qed.

Lemma bucket_set_slot t i s fp j : 0 <= i -> 0 <= j ->
  bucket (set_slot t i s fp) j =
    if decide (j = i) then <[Z.to_nat s := fp]> (bucket t i) else bucket t j.
Proof. intros. apply bucket_alter; auto. Qed.

Lemma bucket_append t i fp j : 0 <= i < Z.of_nat (length t) -> 0 <= j ->
  bucket (append_to t i fp) j = if decide (j = i) then bucket t i ++ [fp] else bucket t j.
Proof. intros. apply bucket_alter; [lia|done|lia]. Qed.

Lemma set_slot_undo t i s fp : 0 <= i ->
  set_slot (set_slot t i s fp) i s (slot_at t i s) = t.
Proof.
  intros Hi. unfold set_slot, slot_at, bucket. apply list_eq. intros k.
  rewrite !list_lookup_alter. case_decide as Hk; [subst k|done].
  destruct (decide _); [|done]. destruct (t !! Z.to_nat i) as [l|] eqn:E; cbn; [|done].
  rewrite list_insert_insert_eq. f_equal.
  destruct (l !! Z.to_nat s) as [x|] eqn:Ex; cbn; [by apply list_insert_id|].
  apply list_insert_ge. by apply lookup_ge_None.
Qed.

Lemma set_slot_same t i s : set_slot t i s (slot_at t i s) = t.
Proof.
  unfold set_slot, slot_at, bucket. apply list_eq. intros k. rewrite list_lookup_alter.
  case_decide as Hk; [subst k|done]. destruct (t !! Z.to_nat i) as [l|] eqn:E; cbn; [|done].
  f_equal. destruct (l !! Z.to_nat s) as [x|] eqn:Ex; cbn; [by apply list_insert_id|].
  apply list_insert_ge. by apply lookup_ge_None.
Qed.

Lemma pop_append t i fp : pop_from (append_to t i fp) i = t.
Proof.
  unfold pop_from, append_to. apply list_eq. intros k. rewrite !list_lookup_alter.
  case_decide as Hk; [subst k|done]. destruct (decide _); [|done].
  destruct (t !! Z.to_nat i) as [l|] eqn:E; cbn; [|done]. by rewrite removelast_last.
Qed.

Lemma append_longer t i fp : 0 <= i < Z.of_nat (length t) ->
  bucket_len (append_to t i fp) i = bucket_len t i + 1.
Proof.
  intros Hi. unfold bucket_len. rewrite bucket_append by lia.
  rewrite decide_True by done. rewrite length_app. cbn. lia.
Qed.

Lemma set_slot_shape m t i s fp : full_table m t -> full_table m (set_slot t i s fp).
Proof.
  intros [Hl Hb]. unfold set_slot. split; [by rewrite length_alter|].
  apply Forall_alter; [done|]. intros l _ Hlen. by rewrite length_insert.
Qed.

Lemma bucket_small m t i : full_table m t -> (length (bucket t i) <= 4)%nat.
Proof.
  intros [_ Hb]. unfold bucket. destruct (t !! Z.to_nat i) as [l|] eqn:E; cbn; [|lia].
  by apply (Forall_lookup_1 _ _ _ _ Hb E).
Qed.

Lemma append_shape m t i fp : full_table m t -> bucket_len t i < BUCKET_SIZE ->
  full_table m (append_to t i fp).
Proof.
  intros [Hl Hb] Hlen. split; [unfold append_to; by rewrite length_alter|].
  apply Forall_alter; [done|]. intros l El _. unfold bucket_len, bucket in Hlen.
  rewrite El in Hlen. cbn in Hlen. rewrite length_app. cbn. unfold BUCKET_SIZE in Hlen. lia.
Qed.

(** The number of stored fingerprints. *)
Definition total (t : table) : Z := Z.of_nat (length (concat t)).

Lemma total_alter g t i d :
  (forall l, t !! Z.to_nat i = Some l -> Z.of_nat (length (g l)) = Z.of_nat (length l) + d) ->
  (t !! Z.to_nat i = None -> d = 0) ->
  total (alter g (Z.to_nat i) t) = total t + d.
Proof.
  generalize (Z.to_nat i) as n. unfold total. induction t as [|l t IH]; intros n H1 H2.
  - rewrite H2 by done. done.
  - destruct n as [|n]; cbn; rewrite !length_app.
    + specialize (H1 l eq_refl). cbn in *. lia.
    + rewrite !Nat2Z.inj_add, IH; [lia|by intros; apply H1|by intros; apply H2].
Qed.

Lemma total_set_slot t i s fp : total (set_slot t i s fp) = total t.
Proof.
  unfold set_slot. rewrite (total_alter _ t i 0); [lia| |done].
  intros l _. rewrite length_insert. lia.
Qed.

Lemma total_append t i fp : 0 <= i < Z.of_nat (length t) ->
  total (append_to t i fp) = total t + 1.
Proof.
  intros Hi. apply total_alter.
  - intros l _. rewrite length_app. cbn. lia.
  - intros E%lookup_ge_None. lia.
Qed.

(** ** The displacement loop *)
Section Kicks.
Variable m : Z.
Hypothesis Hm : power_of_two m.

(** A fingerprint is found from either of its two indices. *)
Definition stored (t : table) (fp : bytes) (j : Z) : Prop :=
  fp ∈ bucket t j \/ fp ∈ bucket t (alt_index m j fp).

(** The fingerprint in hand may still go to bucket [index]. *)
Definition floating (fp : bytes) (index : Z) (p : bytes) (j : Z) : Prop :=
  p = fp /\ (j = index \/ alt_index m j fp = index).

Lemma alt_index_range i fp : 0 <= i < m -> 0 <= alt_index m i fp < m.
Proof. intros Hi. apply lxor_range; [done..|]. by apply masked_range. Qed.

Lemma append_stored t fp index p j :
  0 <= index < m -> 0 <= j < m -> Z.of_nat (length t) = m ->
  stored t p j \/ floating fp index p j -> stored (append_to t index fp) p j.
Proof.
  intros Hi Hj Hl Hs. pose proof (alt_index_range j p Hj) as Ha. unfold stored.
  rewrite !bucket_append by lia.
  destruct Hs as [[H|H]|[-> [-> | H]]].
  - left. case_decide; subst; [|done]. apply elem_of_app. by left.
  - right. case_decide as Hd; [|done]. rewrite <- Hd. apply elem_of_app. by left.
  - left. rewrite decide_True by done. apply elem_of_app. right. by apply list_elem_of_singleton.
  - right. rewrite decide_True by done. apply elem_of_app. right. by apply list_elem_of_singleton.
Qed.

(** Replacing the occupant of a full bucket: the newcomer is stored, the
    occupant floats towards its other bucket, nothing else moves. *)
Lemma insert_keeps (l : list bytes) (s : nat) fp p :
  p ∈ l -> p ∈ <[s := fp]> l \/ p = default [] (l !! s).
Proof.
  intros [k Hk]%list_elem_of_lookup. destruct (decide (k = s)) as [-> | Hne].
  - right. by rewrite Hk.
  - left. apply list_elem_of_lookup. exists k. by rewrite list_lookup_insert_ne.
Qed.

Lemma swap_stored t fp index s p j :
  0 <= index < m -> 0 <= j < m -> 0 <= s < bucket_len t index ->
  stored t p j \/ floating fp index p j ->
  stored (set_slot t index s fp) p j \/
  floating (slot_at t index s) (alt_index m index (slot_at t index s)) p j.
Proof.
  intros Hi Hj Hs Hst. pose proof (alt_index_range j p Hj) as Ha. unfold bucket_len in Hs.
  assert (Hin : fp ∈ <[Z.to_nat s := fp]> (bucket t index)).
  { apply list_elem_of_lookup. exists (Z.to_nat s). apply list_lookup_insert_eq. lia. }
  unfold stored, floating. rewrite !bucket_set_slot by lia.
  destruct Hst as [[H|H]|[-> [-> | H]]].
  - case_decide as Hd; [|auto]. subst j.
    destruct (insert_keeps _ (Z.to_nat s) fp p H) as [H1| ->]; [auto|]. right.
    split; [done|]. by right.
  - destruct (decide (alt_index m j p = index)) as [Hd|Hd]; [|auto]. rewrite Hd in H.
    destruct (insert_keeps _ (Z.to_nat s) fp p H) as [H1|H1]; [auto|]. right.
    change (default [] (bucket t index !! Z.to_nat s)) with (slot_at t index s) in H1.
    split; [done|]. left. rewrite <- H1, <- Hd. by rewrite alt_index_involutive.
  - left. left. by rewrite decide_True.
  - left. right. by rewrite decide_True.
Qed.

(** The loop invariant, for the table [t0] the insertion found and the
    fingerprints [P] that must stay findable. *)
Definition kick_inv (t0 : table) (P : bytes -> Z -> Prop)
    (t : table) (index : Z) (fp : bytes) (path : journal) : Prop :=
  full_table m t /\ 0 <= index < m /\ BUCKET_SIZE <= bucket_len t index /\
  unwind path t = t0 /\ total t = total t0 /\
  forall p j, 0 <= j < m -> P p j -> stored t p j \/ floating fp index p j.

Definition kick_post (t0 : table) (P : bytes -> Z -> Prop) (k : kick_end) : Prop :=
  match k with
  | Placed t => full_table m t /\ total t = total t0 + 1 /\
      forall p j, 0 <= j < m -> P p j -> stored t p j
  | Exhausted t path => unwind path t = t0
  | Interrupted e t path appended => restore_interrupted t path appended = t0
  end.

Context `{!KickWorldLaws R}.

Lemma kick_spec t0 P n t index fp path w :
  kick_inv t0 P t index fp path -> kick_post t0 P (fst (kick n m t index fp path w)).
Proof.
  revert t index fp path w. induction n as [|n IH]; intros t index fp path w Hi; cbn [kick].
  - apply Hi.
  - destruct Hi as (Hf & Hx & Hfull & Hu & Ht & HP).
    destruct (randrange BUCKET_SIZE w) as [[s|e] w1] eqn:Er; [|exact Hu].
    apply randrange_range in Er. unfold BUCKET_SIZE in Er.
    set (ev := slot_at t index s).
    assert (Hu1 : unwind ((index, s, ev) :: path) t = t0).
    { cbn [unwind]. unfold ev. by rewrite set_slot_same. }
    assert (Hu2 : unwind ((index, s, ev) :: path) (set_slot t index s fp) = t0).
    { cbn [unwind]. unfold ev. by rewrite set_slot_undo by lia. }
    destruct (poll w1) as [[[]|e] w2]; [|exact Hu1].
    destruct (poll w2) as [[[]|e] w3]; [|exact Hu2].
    assert (Hf1 : full_table m (set_slot t index s fp)) by by apply set_slot_shape.
    assert (Hx1 : 0 <= alt_index m index ev < m) by by apply alt_index_range.
    assert (HP1 : forall p j, 0 <= j < m -> P p j ->
      stored (set_slot t index s fp) p j \/ floating ev (alt_index m index ev) p j).
    { intros p j Hj Hp. apply swap_stored; [done|done|unfold BUCKET_SIZE in Hfull; lia|auto]. }
    cbv zeta. destruct (Z.ltb_spec (bucket_len (set_slot t index s fp) (alt_index m index ev))
                          BUCKET_SIZE) as [Hlt|Hge].
    + assert (Hl1 : Z.of_nat (length (set_slot t index s fp)) = m) by apply Hf1.
      destruct (poll w3) as [[[]|e] w4]; cbn [fst kick_post].
      * split; [by apply append_shape|]. split.
        -- rewrite total_append, total_set_slot by lia. lia.
        -- intros p j Hj Hp. apply append_stored; auto.
      * unfold restore_interrupted. rewrite append_longer by lia.
        destruct (Z.ltb_spec (bucket_len (set_slot t index s fp) (alt_index m index ev))
          (bucket_len (set_slot t index s fp) (alt_index m index ev) + 1)); [|lia].
        by rewrite pop_append.
    + apply IH. split_and!; try done; [lia..|]. by rewrite total_set_slot.
Qed.

(** An insertion either places the fingerprint, keeping every stored one
    findable, or puts the table back exactly as it was. *)
Lemma insert_spec t0 fp i1 w :
  full_table m t0 -> 0 <= i1 < m ->
  let '(o, t, _) := insert m t0 fp i1 (alt_index m i1 fp) w in
  match o with
  | Ok true => full_table m t /\ total t = total t0 + 1 /\ stored t fp i1 /\
      forall p j, 0 <= j < m -> stored t0 p j -> stored t p j
  | Ok false | Raise _ => t = t0
  end.
Proof.
  intros Hf Hi. pose proof (alt_index_range i1 fp Hi) as Ha.
  assert (Hl : Z.of_nat (length t0) = m) by apply Hf. unfold insert.
  destruct (Z.ltb_spec (bucket_len t0 i1) BUCKET_SIZE) as [H1|H1].
  { split; [by apply append_shape|]. split; [apply total_append; lia|]. split.
    - apply append_stored; [done..|]. right. split; auto.
    - intros p j Hj Hs. apply append_stored; auto. }
  destruct (Z.ltb_spec (bucket_len t0 (alt_index m i1 fp)) BUCKET_SIZE) as [H2|H2].
  { split; [by apply append_shape|]. split; [apply total_append; lia|]. split.
    - apply append_stored; [done..|]. right. split; auto.
    - intros p j Hj Hs. apply append_stored; auto. }
  set (P := fun p j => stored t0 p j \/ floating fp i1 p j).
  assert (Hk : kick_post t0 P (fst (kick MAX_KICKS m t0 i1 fp [] w))).
  { apply kick_spec. unfold kick_inv. split_and!; [done|lia..|done|done|done|auto]. }
  destruct (kick MAX_KICKS m t0 i1 fp [] w) as [[t|t path|e t path ap] w']; cbn [fst] in Hk; [|done..].
  destruct Hk as (K1 & K2 & K3). split; [done|]. split; [done|]. split.
  - apply K3; [done|]. right. split; auto.
  - intros p j Hj Hs. apply K3; [done|]. by left.
Qed.
End Kicks.

(** ** The filter *)
Arguments fingerprint : simpl never.

(** The table has the advertised shape and the counter is exactly the number of
    fingerprints it holds. *)
Definition ok (f : self) : Prop :=
  power_of_two (num_buckets f) /\ full_table (num_buckets f) (buckets f) /\
  count f = total (buckets f).

Definition has (f : self) (x : bytes) : Prop :=
  stored (num_buckets f) (buckets f) (fst (fingerprint f x)) (snd (fingerprint f x)).

Lemma fingerprint_range f x : power_of_two (num_buckets f) ->
  0 <= snd (fingerprint f x) < num_buckets f.
Proof. intros Hp. by apply masked_range. Qed.

Lemma in_buckets_stored f fp i1 :
  in_buckets f fp i1 (alt_index (num_buckets f) i1 fp) = true <->
  stored (num_buckets f) (buckets f) fp i1.
Proof. unfold in_buckets, stored. by rewrite orb_true_iff, !bool_decide_eq_true. Qed.

Lemma cuckoo_contains_spec x f w : exists b, contains x (f, w) = (Ok b, (f, w)) /\ (b = true <-> has f x).
Proof.
  unfold contains, has. destruct (fingerprint f x) as [fp i1]. eexists. split; [reflexivity|].
  apply in_buckets_stored.
Qed.

Section Laws.
Context `{!KickWorldLaws R}.

Lemma cuckoo_add_spec x f w o f' w' : ok f -> add x (f, w) = (o, (f', w')) ->
  ok f' /\
  match o with
  | Ok false => f' = f /\ has f x
  | Ok true => ~ has f x /\ count f' = count f + 1 /\
      has f' x /\ (forall y, has f y -> has f' y) /\
      num_buckets f' = num_buckets f /\ fp_len f' = fp_len f
  | Raise _ => f' = f /\ ~ has f x
  end.
Proof.
  intros (Hp & Hf & Hc) E. unfold add in E. unfold has at 1 2 5 6.
  pose proof (fingerprint_range f x Hp) as Hr. destruct (fingerprint f x) as [fp i1] eqn:Efp.
  cbn [fst snd] in *. destruct (in_buckets f fp i1 _) eqn:Eb.
  - injection E as <- <- <-. split; [done|]. split; [done|]. by apply in_buckets_stored.
  - assert (Hns : ~ stored (num_buckets f) (buckets f) fp i1).
    { intros H%in_buckets_stored. congruence. }
    pose proof (insert_spec (num_buckets f) Hp (buckets f) fp i1 w Hf Hr) as Hi.
    destruct (insert _ _ _ _ _ _) as [[r t] w1].
    destruct r as [[|]|e]; injection E as <- <- <-.
    + destruct Hi as (I1 & I2 & I3 & I4). split; [split_and!; cbn; [done..|lia]|].
      split_and!; try done; cbn.
      * unfold has. change (fingerprint (with_table f t (count f + 1)) x) with (fingerprint f x).
        by rewrite Efp.
      * intros y Hy. unfold has.
        change (fingerprint (with_table f t (count f + 1)) y) with (fingerprint f y).
        apply I4; [by apply fingerprint_range|done].
    + subst t. replace (with_table f (buckets f) (count f)) with f by by destruct f. done.
    + subst t. replace (with_table f (buckets f) (count f)) with f by by destruct f. done.
Qed.

(** The cuckoo filter keeps the promise of the filter interface. *)
#[export] Instance cuckoo_no_false_negatives : NoFalseNegatives (self * R).
Proof.
  refine {| mf_inv := fun fw => ok (fst fw); mf_has := fun fw x => has (fst fw) x |}.
  - intros x [f w] o [f' w'] Hok E. destruct (cuckoo_add_spec _ _ _ _ _ _ Hok E) as [H1 H2]. cbn.
    split; [done|]. destruct o as [[|]|e]; cbn.
    + destruct H2 as (_ & _ & H3 & H4 & _). by split.
    + destruct H2 as [-> H2]. by split.
    + destruct H2 as [-> H2]. by split.
  - intros x [f w] o fw Hok E. destruct (cuckoo_contains_spec x f w) as (b & Eb & _).
    cbn [mf_contains cuckoo_filter] in E. rewrite Eb in E. by injection E as <- <-.
  - intros x [f w] Hok Hx. cbn [mf_add cuckoo_filter fst] in *. destruct (add x (f, w)) as [o [f' w']] eqn:E.
    destruct (cuckoo_add_spec _ _ _ _ _ _ Hok E) as [_ H2]. destruct o as [[|]|e]; [|done|].
    + by destruct H2.
    + by destruct H2.
  - intros x [f w] Hok Hx. cbn [mf_contains cuckoo_filter fst] in *. destruct (cuckoo_contains_spec x f w) as (b & -> & Hb).
    cbn. f_equal. by apply Hb.
Defined.

(** C7. A refused or interrupted insertion leaves no trace: when [add] raises
    (table full after 500 kicks, or an exception striking anywhere along the
    displacement path), the filter is exactly what it was, so every recorded
    item is still found, and the item was indeed absent. *)
Theorem failed_add_leaves_no_trace x f w e f' w' (Hok : ok f)
    (Hadd : add x (f, w) = (Raise e, (f', w'))) :
  f' = f /\ contains x (f, w) = (Ok false, (f, w)).
Proof.
  destruct (cuckoo_add_spec x f w _ f' w' Hok Hadd) as (_ & -> & Hn). split; [done|].
  destruct (cuckoo_contains_spec x f w) as (b & -> & Hb). destruct b; [|done]. by destruct Hn; apply Hb.
Qed.

(** A returning [add] answers whether the item was absent, keeps the table
    within four slots per bucket and the counter equal to the number of stored
    fingerprints, and keeps every recorded item findable however many
    fingerprints it displaced. *)
Theorem add_displaces_nothing_away x f w b f' w' (Hok : ok f)
    (Hadd : add x (f, w) = (Ok b, (f', w'))) :
  ok f' /\ contains x (f, w) = (Ok (negb b), (f, w)) /\
  contains x (f', w') = (Ok true, (f', w')) /\
  count f' = (if b then count f + 1 else count f) /\
  forall y, contains y (f, w) = (Ok true, (f, w)) -> contains y (f', w') = (Ok true, (f', w')).
Proof.
  destruct (cuckoo_add_spec x f w _ f' w' Hok Hadd) as (Hok' & H).
  assert (Hx : has f' x) by (destruct b; destruct H as (? & ?); [tauto|by subst]).
  assert (Hkeep : forall y, has f y -> has f' y) by (destruct b; destruct H as (? & ?); [tauto|by subst]).
  split; [done|]. split; [|split; [|split]].
  - destruct (cuckoo_contains_spec x f w) as (c & -> & Hc). do 2 f_equal.
    destruct b; destruct H as [H1 H2]; cbn [negb].
    + destruct c; [|done]. by destruct H1; apply Hc.
    + by apply Hc.
  - destruct (cuckoo_contains_spec x f' w') as (c & -> & Hc). do 2 f_equal. by apply Hc.
  - destruct b; destruct H as (? & ?); [tauto|by subst].
  - intros y Hy. destruct (cuckoo_contains_spec y f w) as (c & Ec & Hc). rewrite Ec in Hy.
    injection Hy as ->. destruct (cuckoo_contains_spec y f' w') as (c' & -> & Hc').
    do 2 f_equal. apply Hc', Hkeep. by apply Hc.
Qed.
End Laws.
End Filter.

(** ** Sizing *)
Lemma double_until_spec fuel ideal : forall m,
  0 < m -> ideal <= m * 2 ^ Z.of_nat fuel ->
  exists j, 0 <= j /\ double_until fuel m ideal = m * 2 ^ j /\
    ideal <= double_until fuel m ideal /\ (j = 0 \/ double_until fuel m ideal < 2 * ideal).
Proof.
  induction fuel as [|fuel IH]; intros m Hm Hf; cbn [double_until].
  - exists 0. cbn in Hf. split; [done|]. split; [by rewrite Z.mul_1_r|]. split; [lia|by left].
  - destruct (Z.ltb_spec m ideal) as [Hlt|Hge].
    + rewrite Nat2Z.inj_succ, Z.pow_succ_r in Hf by lia. rewrite Z.shiftl_mul_pow2 by lia.
      change (2 ^ 1) with 2.
      destruct (IH (m * 2)) as (j & Hj & E & H1 & H2); [lia..|].
      exists (j + 1). split; [lia|]. split; [|split; [done|right]].
      * rewrite E, Z.pow_add_r by lia. change (2 ^ 1) with 2. ring.
      * destruct H2 as [-> | H2]; [|done]. rewrite E. change (2 ^ 0) with 1. lia.
    + exists 0. split; [done|]. split; [by rewrite Z.mul_1_r|]. split; [lia|by left].
Qed.

Lemma total_empty n : total (replicate n []) = 0.
Proof. unfold total. by induction n. Qed.

(** A constructed filter is empty and well formed; its bucket count is the least
    power of two, at least two, that reaches the load target; its fingerprint is
    the shortest whose byte threshold the error rate reaches, at most 32 bytes. *)
Theorem constructed_table_fits capacity error_rate f
    (Hinit : init capacity error_rate = Ok f) :
  ok f /\ count f = 0 /\ configured_capacity f = capacity /\ 0 < capacity /\
  (exists ideal, ideal_buckets capacity = Ok ideal /\ ideal <= num_buckets f /\
     (num_buckets f = 2 \/ num_buckets f < 2 * ideal)) /\
  1 <= fp_len f <= SHA256_DIGEST_BYTES /\
  fleb (byte_threshold (fp_len f)) error_rate = true /\
  (forall l, 1 <= l < fp_len f -> fleb (byte_threshold l) error_rate = false).
Proof.
  unfold init in Hinit. destruct (Z.leb_spec capacity 0); [done|].
  destruct (negb (isfinite error_rate) || _); [done|].
  destruct (find_fp_len error_rate) as [l|] eqn:Ef; [|done].
  apply obind_ok in Hinit as (ideal & Ei & [= <-]).
  destruct (double_until_spec (Z.to_nat (Z.log2_up ideal)) ideal 2) as (j & Hj & E & H1 & H2); [lia| |].
  { rewrite Z2Nat.id by apply Z.log2_up_nonneg. destruct (Z.leb_spec ideal 1) as [Hle|Hgt].
    - assert (0 < 2 ^ Z.log2_up ideal) by (apply Z.pow_pos_nonneg; [lia|apply Z.log2_up_nonneg]). lia.
    - pose proof (Z.log2_up_spec ideal Hgt). lia. }
  set (m := double_until _ _ _) in *. cbn [count configured_capacity num_buckets fp_len].
  assert (Hm : 0 <= m) by (rewrite E; pose proof (Z.pow_nonneg 2 j); lia).
  unfold find_fp_len in Ef. split; [|split; [done|split; [done|split; [done|split]]]].
  - split; [|split]; cbn [count num_buckets buckets].
    + exists (j + 1). split; [lia|]. rewrite E, Z.pow_add_r by lia. change (2 ^ 1) with 2. ring.
    + split; [rewrite length_replicate; by apply Z2Nat.id|]. apply Forall_replicate. cbn. lia.
    + by rewrite total_empty.
  - exists ideal. split; [done|]. split; [done|]. destruct H2 as [-> | H2]; [left|by right].
    rewrite E. done.
  - apply find_seqZ in Ef as (Hr & Hb & Hmin). split; [lia|]. by split.
Qed.

(** ** Examples *)
Module Examples.
Definition toy_sha (b : bytes) : bytes :=
  be_bytes 32 (fold_left (fun a x =>
      (a * (2 ^ 251 - 129) + (Z_of_byte x + 1) * (2 ^ 247 + 2 ^ 192 + 2 ^ 128 + 77)) mod 2 ^ 256)
    b 1).

Definition four : list bytes := [[x01]; [x02]; [x03]; [x04]].
(** Both buckets of a two-bucket table full. *)
Definition packed : self := Self 2 1 [four; four] 8 8.
(** The buckets of the example item are full, but occupants can move on. *)
Definition roomy : self := Self 4 1 [four; []; four; []] 8 8.

Lemma packed_ok : ok packed.
Proof.
  split; [by exists 1|]. split; [|done]. split; [done|]. repeat constructor.
Qed.
Lemma roomy_ok : ok roomy.
Proof. split; [by exists 2|]. split; [|done]. split; [done|]. repeat constructor; cbn; lia. Qed.

(** A world that cycles through the slots and interrupts at a given poll. *)
#[local] Instance checked_world : KickWorld (Z * Z) := {|
  randrange := fun b w =>
    if 0 <? b then (Ok (fst w mod b), (fst w + 1, snd w)) else (Raise EValue, w);
  poll := fun w => (if snd w =? 0 then Raise (ECtl 1) else Ok tt, (fst w, snd w - 1))
|}.
#[local] Instance checked_world_laws : KickWorldLaws (Z * Z).
Proof.
  split. intros b [x y] s w'. cbn. destruct (Z.ltb_spec 0 b) as [Hb|]; [|done].
  intros [= <- <-]. by apply Z.mod_pos_bound.
Qed.

Lemma failed_add_leaves_no_trace_witness :
  (exists w', add toy_sha [x61] (packed, (0, -1)) = (Raise EFilterFull, (packed, w'))) /\
  (exists f' w', add toy_sha [x61] (packed, (0, 5)) = (Raise (ECtl 1), (f', w')) /\ f' = packed).
Proof.
  split.
  - exists (500, -1001). by vm_compute.
  - set (r := add toy_sha [x61] (packed, (0, 5))).
    assert (E : add toy_sha [x61] (packed, (0, 5)) = (Raise (ECtl 1), (fst (snd r), snd (snd r))))
      by by vm_compute.
    exists (fst (snd r)), (snd (snd r)). split; [exact E|].
    exact (proj1 (failed_add_leaves_no_trace toy_sha [x61] packed (0, 5) _ _ _ packed_ok E)).
Defined.

Lemma add_displaces_nothing_away_witness :
  exists f' w', add toy_sha [x61] (roomy, (0, -1)) = (Ok true, (f', w')) /\ count f' = 9 /\
    contains toy_sha [x61] (f', w') = (Ok true, (f', w')).
Proof.
  set (r := add toy_sha [x61] (roomy, (0, -1))).
  assert (E : add toy_sha [x61] (roomy, (0, -1)) = (Ok true, (fst (snd r), snd (snd r))))
    by by vm_compute.
  exists (fst (snd r)), (snd (snd r)). split; [exact E|].
  destruct (add_displaces_nothing_away toy_sha [x61] roomy (0, -1) _ _ _ roomy_ok E)
    as (_ & _ & H1 & H2 & _).
  split; [exact H2|exact H1].
Defined.

Lemma constructed_table_fits_witness :
  exists f, init 10 (fdiv (float_of_Z 1) (float_of_Z 100)) = Ok f /\ ok f /\ fp_len f = 2 /\
    num_buckets f = 4.
Proof.
  assert (E : init 10 (fdiv (float_of_Z 1) (float_of_Z 100))
              = Ok (Self 4 2 (replicate 4 []) 0 10)) by by vm_compute.
  exists (Self 4 2 (replicate 4 []) 0 10). split; [exact E|].
  destruct (constructed_table_fits _ _ _ E) as (H1 & _). by split.
Defined.
End Examples.
End Cuckoo.
