(* ===== verification/FilterFactory.v ===== *)
(** * Choosing a duplicate filter

    dupefilter/filters/factory.py: the strategy names, the strict check that
    refuses per-process strategies, the once-per-process warning, and the
    dispatch to the constructors. *)

From S2P Require Export Bloom Cuckoo.

Module FilterFactory.
Inductive DedupeStrategy := SET | MEMORY | BLOOM | CUCKOO.

#[export] Instance strategy_eq_dec : EqDecision DedupeStrategy.
Proof. solve_decision. Defined.

Definition value (s : DedupeStrategy) : string :=
  match s with SET => "set" | MEMORY => "memory" | BLOOM => "bloom" | CUCKOO => "cuckoo" end.

(** [DedupeStrategy(value)]; [_missing_] raises ValueError. *)
Definition strategy_of (v : string) : outcome DedupeStrategy :=
  match List.find (fun s => bool_decide (value s = v)) [SET; MEMORY; BLOOM; CUCKOO] with
  | Some s => Ok s
  | None => Raise EValue
  end.

Definition per_process (s : DedupeStrategy) : bool :=
  bool_decide (s ∈ [MEMORY; BLOOM; CUCKOO]).

(** The module-level [_warned] set and the warnings logged so far. *)
Record process := Process {
  warned : list DedupeStrategy; log : list DedupeStrategy; evicted_warned : bool
}.

Definition warn_per_process_scope (s : DedupeStrategy) : M process unit := fun p =>
  if negb (per_process s) then (Ok tt, p)
  else if bool_decide (s ∈ warned p) then (Ok tt, p)
  else (Ok tt, Process (s :: warned p) (log p ++ [s]) (evicted_warned p)).

(** A filter of one of the four classes; the set filter keeps the manager. *)
Inductive built (CM : Type) :=
  | BSet (connection_manager : CM) (s : SetFilter.self)
  | BMemory (s : MemoryFilter.self)
  | BBloom (s : Bloom.self)
  | BCuckoo (s : Cuckoo.self).
Arguments BSet {CM}. Arguments BMemory {CM}. Arguments BBloom {CM}. Arguments BCuckoo {CM}.

Record options := Options {
  key : string; memory_maxsize : option Z; bloom_capacity : Z; bloom_error_rate : float;
  cuckoo_capacity : Z; cuckoo_error_rate : float; strict : bool
}.

Section Build.
Context {CM : Type} {ML : Bloom.MathLib}.

Definition build_membership_filter (strategy : DedupeStrategy) (connection_manager : option CM)
    (o : options) : M process (built CM) :=
  if strict o && per_process strategy then raise EConfiguration
  else
    let! _ := warn_per_process_scope strategy in
    let! p := get in
    match strategy with
    | SET => match connection_manager with
             | None => raise EConfiguration
             | Some cm => ret (BSet cm (SetFilter.Self (key o)))
             end
    | MEMORY => lift (omap BMemory (MemoryFilter.init (memory_maxsize o) (evicted_warned p)))
    | BLOOM => lift (omap BBloom (Bloom.init (AInt (bloom_capacity o)) (AFloat (bloom_error_rate o))))
    | CUCKOO => lift (omap BCuckoo (Cuckoo.init (cuckoo_capacity o) (cuckoo_error_rate o)))
    end.

Definition kind_of (b : built CM) : DedupeStrategy :=
  match b with BSet _ _ => SET | BMemory _ => MEMORY | BBloom _ => BLOOM | BCuckoo _ => CUCKOO end.

(** Successive selections in one process. *)
Fixpoint build_all (reqs : list (DedupeStrategy * option CM * options)) (p : process) : process :=
  match reqs with
  | [] => p
  | (s, cm, o) :: reqs' => build_all reqs' (snd (build_membership_filter s cm o p))
  end.

Definition tracked (p : process) : Prop := NoDup (log p) /\ forall s, s ∈ log p -> s ∈ warned p.

Lemma strategy_of_value s : strategy_of (value s) = Ok s.
Proof. by destruct s. Qed.

Lemma warn_tracked s p : tracked p -> tracked (snd (warn_per_process_scope s p)).
Proof.
  intros [Hn Hl]. unfold warn_per_process_scope. destruct (per_process s); cbn [negb]; [|done].
  case_bool_decide as Hs; [done|]. split; cbn.
  - apply NoDup_app. split; [done|]. split; [|apply NoDup_singleton].
    intros x Hx ->%list_elem_of_singleton. by apply Hs, Hl.
  - intros x [Hx| ->%list_elem_of_singleton]%elem_of_app; [right; auto|left].
Qed.

Lemma build_state s cm o p :
  snd (build_membership_filter s cm o p) =
    if strict o && per_process s then p else snd (warn_per_process_scope s p).
Proof.
  unfold build_membership_filter. destruct (strict o && per_process s); [done|].
  unfold bind. destruct (warn_per_process_scope s p) as [[[]|e] p1]; cbn; [|done].
  destruct s; try done. by destruct cm.
Qed.

(** The factory's contract: a strict process never gets a per-process filter
    (and the refusal leaves no trace in the warn-once set); any filter it does
    return is of the class the strategy names, and is well formed; the per-process
    warning is logged exactly for per-process strategies and at most once per
    strategy over any sequence of selections. *)
Theorem factory_contract s cm o reqs p (Hp : tracked p) :
  (strict o = true -> s <> SET -> build_membership_filter s cm o p = (Raise EConfiguration, p)) /\
  (forall b p', build_membership_filter s cm o p = (Ok b, p') ->
     kind_of b = s /\ match b with
                      | BSet m f => Some m = cm /\ SetFilter.key f = key o
                      | BMemory f => MemoryFilter.ok f
                      | BBloom f => Bloom.num_hashes f < Bloom.num_bits f
                      | BCuckoo f => 0 < Cuckoo.configured_capacity f
                      end) /\
  NoDup (log (build_all reqs p)).
Proof.
  split; [|split].
  - intros Hs Hne. unfold build_membership_filter. rewrite Hs. by destruct s.
  - intros b p' E. unfold build_membership_filter in E.
    destruct (strict o && per_process s); [done|].
    apply bind_ok_inv in E as ([] & p1 & _ & E). apply bind_ok_inv in E as (p2 & p3 & _ & E).
    destruct s.
    + destruct cm as [m|]; [|done]. by injection E as <- <-.
    + apply lift_ok in E as [(f & Ef & ->)%omap_ok _]. split; [done|].
      unfold MemoryFilter.init in Ef. destruct (memory_maxsize o) as [n|].
      * destruct (Z.leb_spec n 0); [done|]. injection Ef as <-.
        split; [constructor|]. cbn. unfold MemoryFilter.size. cbn. lia.
      * injection Ef as <-. split; [constructor|done].
    + apply lift_ok in E as [(f & Ef & ->)%omap_ok _]. split; [done|].
      apply Bloom.init_ok in Ef as ((? & _) & _). lia.
    + apply lift_ok in E as [(f & Ef & ->)%omap_ok _]. split; [done|].
      unfold Cuckoo.init in Ef. destruct (Z.leb_spec (cuckoo_capacity o) 0); [done|].
      destruct (_ || _); [done|]. destruct (Cuckoo.find_fp_len _); [|done].
      by apply obind_ok in Ef as (i & _ & [= <-]).
  - revert p Hp. induction reqs as [|[[s' cm'] o'] reqs IH]; intros p Hp; cbn; [apply Hp|].
    apply IH. rewrite build_state. destruct (strict o' && per_process s'); [done|].
    by apply warn_tracked.
Qed.
End Build.

Module Examples.
Definition opts : options :=
  Options "dupefilter" (Some 10) 3 (fdiv (float_of_Z 1) (float_of_Z 4)) 10
    (fdiv (float_of_Z 1) (float_of_Z 100)) false.
#[local] Existing Instance Bloom.Examples.toy_math.

Lemma factory_contract_witness :
  let p := Process [] [] false in
  tracked p /\ build_membership_filter (CM := unit) CUCKOO None opts p
    = (Ok (BCuckoo (Cuckoo.Self 4 2 (replicate 4 []) 0 10)), Process [CUCKOO] [CUCKOO] false) /\
  NoDup (log (build_all (CM := unit) [(CUCKOO, None, opts); (CUCKOO, None, opts)] p)).
Proof.
  intros p. assert (Hp : tracked p).
  { split; [constructor|]. intros s Hs. by apply elem_of_nil in Hs. }
  split; [exact Hp|]. split; [by vm_compute|].
  exact (proj2 (proj2 (factory_contract (CM := unit) CUCKOO None opts
    [(CUCKOO, None, opts); (CUCKOO, None, opts)] p Hp))).
Defined.
End Examples.
End FilterFactory.
