(* ===== verification/CircuitBreaker.v ===== *)
(** * The circuit breaker

    backends/circuit_breaker.py: the CLOSED / OPEN / HALF_OPEN machine around
    the hot-path operations of a backend, and the proxies that choose which
    operations it guards.

    The lock makes [_allow_call], the three settlement methods, [reset] and the
    drain of pending notifications atomic; backend calls run outside it.  So a
    concurrent execution is a sequence of these atomic steps over the breaker
    and the admissions still in flight ([step]), and one thread's [call] is
    their composition around the protected function. *)

From S2P Require Export PyFloat.

Module CircuitBreaker.
Inductive BreakerState := CLOSED | OPEN | HALF_OPEN.

#[export] Instance breaker_state_eq_dec : EqDecision BreakerState.
Proof. solve_decision. Defined.

(** [_CallAdmission]. *)
Record admission := Admission { a_state : BreakerState; a_epoch : Z }.

Definition CIRCUIT_BREAKER_MAX_RESET_TIMEOUT_S : float := float_of_Z 3600.

(** The immutable part; [counted] is [isinstance(exc, failure_exceptions)]. *)
Record config := Config {
  failure_threshold : Z; reset_timeout : float; counted : exn -> bool
}.

Record self := Self {
  state : BreakerState;
  failure_count : Z;
  last_failure_time : option float;
  epoch : Z;
  probe_in_flight : bool;
  probe_started_at : option float;
  pending : list BreakerState;   (* _pending_state_changes *)
  drained : list BreakerState    (* transitions taken by _notify_pending so far *)
}.

Definition fresh : self := Self CLOSED 0 None 0 false None [] [].

Definition init (failure_threshold : pyarg) (reset_timeout : pyarg) (counted : exn -> bool)
    : outcome (config * self) :=
  match failure_threshold with
  | AInt n =>
      if n <? 1 then Raise EValue else
      match reset_timeout with
      | ABool _ => Raise EValue
      | AOther => Raise EType
      | AInt _ | AFloat _ =>
          let t := match reset_timeout with AInt z => float_of_Z z | AFloat f => f | _ => fzero end in
          if match reset_timeout with AInt _ => negb (isfinite t) | _ => false end
          then Raise EOverflow
          else if negb (isfinite t) || fltb t fzero then Raise EValue
          else if fltb CIRCUIT_BREAKER_MAX_RESET_TIMEOUT_S t then Raise EValue
          else Ok (Config n t counted, fresh)
      end
  | _ => Raise EValue
  end.

(** [new_generation]: same configuration, fresh state. *)
Definition new_generation (c : config) : config * self := (c, fresh).

(** [time_fn]. *)
Class TimeFn (W : Type) := { time_fn : M W float }.

(** Assignments. *)
Definition set_state (st : BreakerState) (b : self) : self :=
  Self st (failure_count b) (last_failure_time b) (epoch b) (probe_in_flight b)
    (probe_started_at b) (pending b) (drained b).
Definition set_count (n : Z) (b : self) : self :=
  Self (state b) n (last_failure_time b) (epoch b) (probe_in_flight b)
    (probe_started_at b) (pending b) (drained b).
Definition set_last (t : option float) (b : self) : self :=
  Self (state b) (failure_count b) t (epoch b) (probe_in_flight b)
    (probe_started_at b) (pending b) (drained b).
Definition bump (b : self) : self :=
  Self (state b) (failure_count b) (last_failure_time b) (epoch b + 1) (probe_in_flight b)
    (probe_started_at b) (pending b) (drained b).
Definition set_probe (f : bool) (b : self) : self :=
  Self (state b) (failure_count b) (last_failure_time b) (epoch b) f
    (probe_started_at b) (pending b) (drained b).
Definition set_started (t : option float) (b : self) : self :=
  Self (state b) (failure_count b) (last_failure_time b) (epoch b) (probe_in_flight b)
    t (pending b) (drained b).
Definition note (st : BreakerState) (b : self) : self :=
  Self (state b) (failure_count b) (last_failure_time b) (epoch b) (probe_in_flight b)
    (probe_started_at b) (pending b ++ [st]) (drained b).

(** [reset]. *)
Definition reset_locked (b : self) : self :=
  let b := if bool_decide (state b = CLOSED) then b else note CLOSED b in
  set_started None (set_probe false (set_last None (set_count 0 (bump (set_state CLOSED b))))).

(** The swap under the lock in [_notify_pending]; the observer runs outside the
    lock and whatever it raises is swallowed. *)
Definition notify_pending (b : self) : self :=
  Self (state b) (failure_count b) (last_failure_time b) (epoch b) (probe_in_flight b)
    (probe_started_at b) [] (drained b ++ pending b).

Section Breaker.
Variable c : config.
Context {W : Type} {TF : TimeFn W}.

Definition now : M (self * W) float := on_snd time_fn.
Definition assign (f : self -> self) : M (self * W) unit := on_fst (modify f).

(** [(t - since) >= reset_timeout]. *)
Definition elapsed (t since : float) : bool := fleb (reset_timeout c) (fsub t since).

Definition rejected : M (self * W) admission :=
  let! b := on_fst get in ret (Admission OPEN (epoch b)).
Definition admitted : M (self * W) admission :=
  let! b := on_fst get in ret (Admission (state b) (epoch b)).

(** The re-open of a probe that never settled. *)
Definition reopen_stuck_probe : M (self * W) unit :=
  let! _ := assign (fun b => set_count 0 (bump (set_state OPEN b))) in
  let! t := now in
  assign (fun b => note OPEN (set_started None (set_probe false (set_last (Some t) b)))).

Definition allow_call : M (self * W) admission :=
  let! b := on_fst get in
  match state b with
  | OPEN =>
      let! t := now in
      match last_failure_time b with
      | Some opened_at =>
          if elapsed t opened_at then
            let! _ := assign (fun b => note HALF_OPEN (set_started (Some t)
                                (set_probe true (bump (set_state HALF_OPEN b))))) in admitted
          else rejected
      | None => rejected
      end
  | HALF_OPEN =>
      if probe_in_flight b then
        match probe_started_at b with
        | Some started_at =>
            if fltb fzero (reset_timeout c) then
              let! t := now in
              if elapsed t started_at then
                let! _ := reopen_stuck_probe in rejected
              else rejected
            else rejected
        | None => rejected
        end
      else
        let! _ := assign (set_probe true) in
        let! t := now in
        let! _ := assign (set_started (Some t)) in admitted
  | CLOSED => admitted
  end.

(** [admission.epoch != self._epoch or admission.state is not self._state]. *)
Definition stale (a : admission) (b : self) : bool :=
  negb (a_epoch a =? epoch b) || negb (bool_decide (a_state a = state b)).

Definition record_success (a : admission) (b : self) : self :=
  if stale a b then b
  else
    let b := set_last None (set_count 0 b) in
    match a_state a with
    | HALF_OPEN => note CLOSED (set_started None (set_probe false (bump (set_state CLOSED b))))
    | _ => b
    end.

Definition record_failure (a : admission) : M (self * W) unit :=
  let! b := on_fst get in
  if stale a b then ret tt
  else
    let! t := now in
    let! _ := assign (set_last (Some t)) in
    match a_state a with
    | HALF_OPEN =>
        assign (fun b => note OPEN (set_started None (set_probe false
                  (set_count 0 (bump (set_state OPEN b))))))
    | _ =>
        let! _ := assign (fun b => set_count (failure_count b + 1) b) in
        let! b := on_fst get in
        if failure_threshold c <=? failure_count b
        then assign (fun b => note OPEN (bump (set_state OPEN b)))
        else ret tt
    end.

Definition release_probe (a : admission) (b : self) : self :=
  if bool_decide (a_state a = HALF_OPEN) && (a_epoch a =? epoch b)
     && bool_decide (state b = HALF_OPEN)
  then set_probe false b else b.

(** The locked settlement of a finished call, by how it ended: process-control
    signals, the durable-policy rejection and exceptions outside
    [failure_exceptions] only release a probe. *)
Definition counts (e : exn) : bool :=
  is_ordinary e && negb (bool_decide (e = EDurablePushRequired)) && counted c e.

Definition settle {A} (a : admission) (o : outcome A) : M (self * W) unit :=
  match o with
  | Ok _ => assign (record_success a)
  | Raise e =>
      if counts e then record_failure a
      else match a_state a with HALF_OPEN => assign (release_probe a) | _ => ret tt end
  end.

(** Which ends are followed by a drain of the pending notifications. *)
Definition settle_notifies {A} (o : outcome A) : bool :=
  match o with Ok _ => true | Raise e => counts e end.

Definition call {A} (func : M W A) : M (self * W) A :=
  let! a := allow_call in
  match a_state a with
  | OPEN => let! _ := assign notify_pending in raise EBreakerOpen
  | st =>
      let! _ := (match st with HALF_OPEN => assign notify_pending | _ => ret tt end) in
      fun bw =>
        let '(o, w') := func (snd bw) in
        match settle a o (fst bw, w') with
        | (Raise e, bw') => (Raise e, bw')
        | (Ok _, bw') =>
            (o, if settle_notifies o then (notify_pending (fst bw'), snd bw') else bw')
        end
  end.

Definition reset : M (self * W) unit := assign (fun b => notify_pending (reset_locked b)).

(** ** Interleavings *)
Record sys := Sys { breaker : self; world : W; inflight : list admission }.

Inductive step : sys -> sys -> Prop :=
  | step_admit b w l a b' w' :
      allow_call (b, w) = (Ok a, (b', w')) ->
      step (Sys b w l)
        (Sys b' w' (if bool_decide (a_state a = OPEN) then l else a :: l))
  | step_admit_raise b w l e b' w' :
      allow_call (b, w) = (Raise e, (b', w')) -> step (Sys b w l) (Sys b' w' l)
  | step_settle {A} b w l1 a l2 (o : outcome A) r b' w' :
      settle a o (b, w) = (r, (b', w')) ->
      step (Sys b w (l1 ++ a :: l2)) (Sys b' w' (l1 ++ l2))
  | step_notify b w l : step (Sys b w l) (Sys (notify_pending b) w l)
  | step_reset b w l : step (Sys b w l) (Sys (reset_locked b) w l)
  | step_world b w l w' : step (Sys b w l) (Sys b w' l).
End Breaker.

(** ** Facts *)

(** [time.monotonic] returns: a reading and a later world. *)
Class TimeLaws (W : Type) `{TimeFn W} := {
  reading : W -> float;
  tick : W -> W;
  time_fn_eq : forall w, time_fn w = (Ok (reading w), tick w)
}.

Section Facts.
Variable c : config.
Context {W : Type} {TF : TimeFn W} {TL : TimeLaws W}.

Definition claim_probe (t : float) (b : self) : self :=
  note HALF_OPEN (set_started (Some t) (set_probe true (bump (set_state HALF_OPEN b)))).
Definition reclaim_probe (t : float) (b : self) : self :=
  set_started (Some t) (set_probe true b).
Definition reopened (t : float) (b : self) : self :=
  note OPEN (set_started None (set_probe false (set_last (Some t)
    (set_count 0 (bump (set_state OPEN b)))))).

(** The five outcomes of [_allow_call]. *)
Inductive allowed (b : self) (w : W) : admission -> self -> W -> Prop :=
  | allowed_closed : state b = CLOSED -> allowed b w (Admission CLOSED (epoch b)) b w
  | allowed_rejected w' : state b <> CLOSED -> w' = w \/ w' = tick w ->
      allowed b w (Admission OPEN (epoch b)) b w'
  | allowed_probe t0 : state b = OPEN -> last_failure_time b = Some t0 ->
      elapsed c (reading w) t0 = true ->
      allowed b w (Admission HALF_OPEN (epoch b + 1)) (claim_probe (reading w) b) (tick w)
  | allowed_reclaim : state b = HALF_OPEN -> probe_in_flight b = false ->
      allowed b w (Admission HALF_OPEN (epoch b)) (reclaim_probe (reading w) b) (tick w)
  | allowed_reopen t0 : state b = HALF_OPEN -> probe_in_flight b = true ->
      probe_started_at b = Some t0 -> fltb fzero (reset_timeout c) = true ->
      elapsed c (reading w) t0 = true ->
      allowed b w (Admission OPEN (epoch b + 1)) (reopened (reading (tick w)) b) (tick (tick w)).

Lemma allow_call_allowed b w :
  exists a b' w', allow_call c (b, w) = (Ok a, (b', w')) /\ allowed b w a b' w'.
Proof.
  unfold allow_call, rejected, admitted, reopen_stuck_probe, assign, now, bind, on_fst, on_snd,
    get, modify, ret.
  cbn -[claim_probe reclaim_probe reopened]. destruct (state b) eqn:Es.
  - cbn. eexists _, _, _. split; [reflexivity|]. rewrite Es. by constructor.
  - cbn. rewrite time_fn_eq. cbn. destruct (last_failure_time b) as [t0|] eqn:El.
    + destruct (elapsed c (reading w) t0) eqn:Ee; cbn; eexists _, _, _; (split; [reflexivity|]).
      * by econstructor.
      * constructor; [congruence|by right].
    + cbn. eexists _, _, _. split; [reflexivity|]. constructor; [congruence|by right].
  - destruct (probe_in_flight b) eqn:Ep.
    + destruct (probe_started_at b) as [t0|] eqn:Et; cbn;
        [|eexists _, _, _; split; [reflexivity|]; constructor; [congruence|by left]].
      destruct (fltb fzero (reset_timeout c)) eqn:Ez; cbn;
        [|eexists _, _, _; split; [reflexivity|]; constructor; [congruence|by left]].
      rewrite time_fn_eq. cbn. destruct (elapsed c (reading w) t0) eqn:Ee; cbn.
      * rewrite time_fn_eq. cbn. eexists _, _, _. split; [reflexivity|].
        by apply (allowed_reopen b w t0).
      * eexists _, _, _. split; [reflexivity|]. constructor; [congruence|by right].
    + cbn. rewrite time_fn_eq. cbn. eexists _, _, _. split; [reflexivity|].
      rewrite Es. by constructor.
Qed.

Lemma allow_call_inv b w a b' w' :
  allow_call c (b, w) = (Ok a, (b', w')) -> allowed b w a b' w'.
Proof.
  intros E. destruct (allow_call_allowed b w) as (a1 & b1 & w1 & E1 & H).
  rewrite E in E1. by injection E1 as -> -> ->.
Qed.

(** The settlement as a function of the next reading. *)
Definition failed (a : admission) (t : float) (b : self) : self :=
  if stale a b then b else
  let b := set_last (Some t) b in
  match a_state a with
  | HALF_OPEN => note OPEN (set_started None (set_probe false (set_count 0 (bump (set_state OPEN b)))))
  | _ => let b := set_count (failure_count b + 1) b in
         if failure_threshold c <=? failure_count b then note OPEN (bump (set_state OPEN b)) else b
  end.

Definition settled {A} (a : admission) (o : outcome A) (t : float) (b : self) : self :=
  match o with
  | Ok _ => record_success a b
  | Raise e => if counts c e then failed a t b
               else match a_state a with HALF_OPEN => release_probe a b | _ => b end
  end.

Lemma settle_eq {A} a (o : outcome A) b w :
  exists w', settle c a o (b, w) = (Ok tt, (settled a o (reading w) b, w')) /\
    (w' = w \/ w' = tick w).
Proof.
  unfold settle, settled, record_failure, failed, assign, now, bind, on_fst, on_snd,
    get, modify, ret. destruct o as [v|e]; cbn.
  - exists w. auto.
  - destruct (counts c e).
    + cbn. destruct (stale a b); cbn; [exists w; auto|]. rewrite time_fn_eq.
      cbn. exists (tick w). split; [|auto].
      destruct (a_state a); cbn; try done; by destruct (failure_threshold c <=? _).
    + exists w. destruct (a_state a); auto.
Qed.

(** ** The invariant of concurrent executions *)

(** The transitions in lock order, delivered or not. *)
Definition history (b : self) : list BreakerState := drained b ++ pending b.

Definition legal (s s' : BreakerState) : Prop :=
  match s, s' with
  | CLOSED, OPEN | OPEN, HALF_OPEN | OPEN, CLOSED | HALF_OPEN, CLOSED | HALF_OPEN, OPEN => True
  | _, _ => False
  end.

Fixpoint legal_path (s : BreakerState) (l : list BreakerState) (s' : BreakerState) : Prop :=
  match l with
  | [] => s' = s
  | s1 :: l' => legal s s1 /\ legal_path s1 l' s'
  end.

Lemma legal_path_snoc l s s1 s2 :
  legal_path s l s1 -> legal s1 s2 -> legal_path s (l ++ [s2]) s2.
Proof.
  revert s. induction l as [|x l IH]; intros s; cbn; [by intros ->|].
  intros [H1 H2] H3. split; [done|]. by eapply IH.
Qed.

(** A live probe: admitted in the current generation of a half-open breaker. *)
Definition live_probe (b : self) (a : admission) : bool :=
  bool_decide (a_state a = HALF_OPEN) && (a_epoch a =? epoch b)
  && bool_decide (state b = HALF_OPEN).

Definition live_probes (b : self) (l : list admission) : nat :=
  length (List.filter (live_probe b) l).

(** An admission never outlives its generation unnoticed. *)
Definition admission_ok (b : self) (a : admission) : Prop :=
  a_epoch a <= epoch b /\ a_state a <> OPEN /\ (a_epoch a = epoch b -> a_state a = state b).

Record inv (b : self) (l : list admission) : Prop := {
  inv_count : 0 <= failure_count b /\ (state b = CLOSED -> failure_count b < failure_threshold c);
  inv_closed : state b = CLOSED -> probe_in_flight b = false;
  inv_started : probe_in_flight b = true -> is_Some (probe_started_at b);
  inv_last : state b <> CLOSED -> is_Some (last_failure_time b);
  inv_adm : Forall (admission_ok b) l;
  inv_probe : (live_probes b l <= 1)%nat /\
    (probe_in_flight b = false -> live_probes b l = 0%nat);
  inv_history : legal_path CLOSED (history b) (state b)
}.

(** A new generation orphans every admission in flight. *)
Lemma adm_bump b b' l : epoch b < epoch b' ->
  Forall (admission_ok b) l -> Forall (admission_ok b') l /\ live_probes b' l = 0%nat.
Proof.
  intros He Hl. unfold live_probes. induction Hl as [|a l (H1 & H2 & H3) Hl [IH1 IH2]]; [done|].
  split.
  - constructor; [|done]. split; [lia|]. split; [done|lia].
  - cbn. unfold live_probe at 1. destruct (Z.eqb_spec (a_epoch a) (epoch b')); [lia|].
    by rewrite andb_false_r.
Qed.

Lemma live_same b b' l : epoch b' = epoch b -> state b' = state b ->
  live_probes b' l = live_probes b l /\ (Forall (admission_ok b) l -> Forall (admission_ok b') l).
Proof.
  intros He Hs. split.
  - unfold live_probes, live_probe. by rewrite He, Hs.
  - unfold admission_ok. by rewrite He, Hs.
Qed.

Lemma live_remove b l1 a l2 :
  live_probes b (l1 ++ a :: l2) =
    (live_probes b (l1 ++ l2) + if live_probe b a then 1 else 0)%nat.
Proof.
  unfold live_probes. rewrite !List.filter_app, !length_app. cbn.
  destruct (live_probe b a); cbn; lia.
Qed.

Lemma inv_remove b l1 a l2 : inv b (l1 ++ a :: l2) -> inv b (l1 ++ l2).
Proof.
  intros [H1 H2 Hst H3 H4 [H5 H5'] H6]. rewrite live_remove in H5, H5'. split; try done.
  - apply Forall_app in H4 as [H4a [_ H4b]%Forall_cons]. by apply Forall_app.
  - split; [lia|]. intros Hp. specialize (H5' Hp). lia.
Qed.

(** A transition to a new generation re-establishes the invariant. *)
Lemma inv_transition b b' l :
  inv b l -> epoch b < epoch b' ->
  (0 <= failure_count b' /\ (state b' = CLOSED -> failure_count b' < failure_threshold c)) ->
  (state b' = CLOSED -> probe_in_flight b' = false) ->
  (probe_in_flight b' = true -> is_Some (probe_started_at b')) ->
  (state b' <> CLOSED -> is_Some (last_failure_time b')) ->
  (history b' = history b ++ [state b'] /\ legal (state b) (state b') \/
   history b' = history b /\ state b' = state b) ->
  inv b' l.
Proof.
  intros [H1 H2 Hst H3 H4 H5 H6] He Hc Hp Hq Hl Hh. destruct (adm_bump b b' l He H4) as [A1 A2].
  split; try done.
  - rewrite A2. split; [lia|done].
  - destruct Hh as [[-> Hh]|[-> ->]]; [by eapply legal_path_snoc|done].
Qed.

(** A change inside a generation that leaves state, epoch and history alone. *)
Lemma inv_local b b' l :
  inv b l -> epoch b' = epoch b -> state b' = state b -> history b' = history b ->
  (0 <= failure_count b' /\ (state b' = CLOSED -> failure_count b' < failure_threshold c)) ->
  (state b' = CLOSED -> probe_in_flight b' = false) ->
  (probe_in_flight b' = true -> is_Some (probe_started_at b')) ->
  (state b' <> CLOSED -> is_Some (last_failure_time b')) ->
  (probe_in_flight b' = false -> live_probes b l = 0%nat) ->
  inv b' l.
Proof.
  intros [H1 H2 Hst H3 H4 [H5 _] H6] He Hs Hh Hc Hp Hq' Hl Hq.
  destruct (live_same b b' l He Hs) as [L1 L2].
  split; try done; [by apply L2|by rewrite L1|by rewrite Hh, Hs].
Qed.

Hypothesis Hthr : 1 <= failure_threshold c.

Ltac appended := unfold history; cbn; by rewrite app_assoc.

Ltac inv_side := try done; try lia; try (split; [lia|done]); eauto.

Lemma inv_allowed b w a b' w' l : inv b l -> allowed b w a b' w' ->
  inv b' (if bool_decide (a_state a = OPEN) then l else a :: l).
Proof.
  intros Hi Ha. pose proof Hi as [H1 H2 Hst H3 H4 [H5 H5'] H6]. destruct Ha as
    [Hs|w2 Hs Hw|t0 Hs Hl He|Hs Hp|t0 Hs Hp Ht Hz He]; cbn [a_state bool_decide];
    try rewrite bool_decide_false by done; try rewrite bool_decide_true by done; try done.
  - split; try done.
    constructor; [|done]. split; [done|]. split; [done|]. by rewrite Hs.
  - assert (Hi' : inv (claim_probe (reading w) b) l).
    { apply (inv_transition b); cbn; [done|lia|split; [lia|done]|done|eauto| |left].
      - intros _. apply H3. congruence.
      - rewrite Hs. split; [appended|done]. }
    destruct Hi' as [I1 I2 Ist I3 I4 [I5 I5'] I6]. split; try done.
    + constructor; [|done]. split; [cbn; lia|]. by split.
    + destruct (adm_bump b (claim_probe (reading w) b) l ltac:(cbn; lia) H4) as [_ A].
      split; [|done]. revert A. unfold live_probes. cbn [List.filter].
      destruct (live_probe _ _); cbn [length]; lia.
  - assert (Hi' : inv (reclaim_probe (reading w) b) l).
    { apply (inv_local b); cbn; inv_side. congruence. }
    destruct Hi' as [I1 I2 Ist I3 I4 [I5 I5'] I6]. split; try done.
    + constructor; [|done]. split; [done|]. by split.
    + destruct (live_same b (reclaim_probe (reading w) b) l eq_refl eq_refl) as [A _].
      rewrite (H5' Hp) in A. split; [|done]. revert A. unfold live_probes. cbn [List.filter].
      destruct (live_probe _ _); cbn [length]; lia.
  - apply (inv_transition b); cbn; [done|lia|split; [lia|done]|done|done|eauto|left].
    rewrite Hs. split; [appended|done].
Qed.

Lemma not_stale a b : stale a b = false -> a_epoch a = epoch b /\ a_state a = state b.
Proof.
  unfold stale. rewrite orb_false_iff, !negb_false_iff, Z.eqb_eq, bool_decide_eq_true. done.
Qed.

Lemma inv_settled {A} b l1 a l2 (o : outcome A) t :
  inv b (l1 ++ a :: l2) -> inv (settled a o t b) (l1 ++ l2).
Proof.
  intros Hi. pose proof (inv_remove _ _ _ _ Hi) as Hr. pose proof Hr as [H1 H2 Hst H3 H4 [H5 H5'] H6].
  assert (Ho : a_state a <> OPEN).
  { destruct Hi as [_ _ _ _ Hf _ _]. apply Forall_app in Hf as [_ [(_ & Ha & _) _]%Forall_cons]. done. }
  assert (Hlive : live_probe b a = true -> live_probes b (l1 ++ l2) = 0%nat).
  { intros Hl. destruct Hi as [_ _ _ _ _ [Hp _] _]. rewrite live_remove, Hl in Hp. lia. }
  unfold settled. destruct o as [v|e].
  - unfold record_success. destruct (stale a b) eqn:Es; [done|]. apply not_stale in Es as [Ee Es].
    destruct (a_state a) eqn:Ea; try done.
    + apply (inv_local b); cbn; try done; lia.
    + apply (inv_transition b); cbn; inv_side.
      left. split; [appended|by rewrite <- Es].
  - destruct (counts c e).
    + unfold failed. destruct (stale a b) eqn:Es; [done|]. apply not_stale in Es as [Ee Es].
      destruct (a_state a) eqn:Ea; try done.
      * cbn. destruct (Z.leb_spec (failure_threshold c) (failure_count b + 1)).
        -- apply (inv_transition b); cbn; inv_side.
           left. split; [appended|by rewrite <- Es].
        -- apply (inv_local b); cbn; inv_side.
      * apply (inv_transition b); cbn; inv_side.
        left. split; [appended|by rewrite <- Es].
    + destruct (a_state a) eqn:Ea; try done. unfold release_probe. rewrite Ea.
      case_match eqn:Hg; [|done]. apply (inv_local b); cbn; try done.
      intros _. apply Hlive. unfold live_probe. by rewrite Ea.
Qed.

Lemma inv_reset b l : inv b l -> inv (reset_locked b) l.
Proof.
  intros Hi. apply (inv_transition b); try done.
  - unfold reset_locked. case_bool_decide; cbn; lia.
  - unfold reset_locked. case_bool_decide; cbn; lia.
  - unfold reset_locked. case_bool_decide as Hs; cbn.
    + right. by rewrite Hs.
    + left. split; [appended|]. by destruct (state b).
Qed.

Lemma inv_notify b l : inv b l -> inv (notify_pending b) l.
Proof.
  intros Hi. pose proof Hi as [H1 H2 Hst H3 H4 [H5 H5'] H6]. apply (inv_local b); try done.
  unfold history, notify_pending. cbn. by rewrite app_nil_r.
Qed.

Lemma breaker_inv_step s s' : inv (breaker s) (inflight s) -> step c s s' ->
  inv (breaker s') (inflight s').
Proof.
  intros Hi Hst. destruct Hst as [b w l a b' w' E|b w l e b' w' E|A b w l1 a l2 o r b' w' E|b w l|b w l|b w l w'];
    cbn [breaker inflight] in *; [| | |by apply inv_notify|by apply inv_reset|done].
  - eapply inv_allowed; [done|]. by apply allow_call_inv in E.
  - destruct (allow_call_allowed b w) as (a1 & b1 & w1 & E1 & _). by rewrite E in E1.
  - destruct (settle_eq a o b w) as (w1 & E1 & _). rewrite E in E1. injection E1 as -> -> ->.
    by apply inv_settled.
Qed.

Lemma breaker_inv_steps s s' : inv (breaker s) (inflight s) -> rtc (step c) s s' ->
  inv (breaker s') (inflight s').
Proof. intros Hi Hr. induction Hr; eauto using breaker_inv_step. Qed.

Lemma inv_fresh : inv fresh [].
Proof. split; cbn; inv_side. Qed.

(** C3. At most one probe is ever live, over all interleavings of admissions,
    settlements, resets and notification drains of any number of threads; and
    while it is in flight nobody else is admitted: every other call is rejected
    without reaching the backend. *)
Theorem single_live_probe s w0 (Hreach : rtc (step c) (Sys fresh w0 []) s) :
  (live_probes (breaker s) (inflight s) <= 1)%nat /\
  forall w, live_probes (breaker s) (inflight s) = 1%nat ->
    exists a bw', allow_call c (breaker s, w) = (Ok a, bw') /\ a_state a = OPEN.
Proof.
  pose proof (breaker_inv_steps _ _ (inv_fresh : inv (breaker (Sys fresh w0 [])) []) Hreach)
    as [H1 H2 Hst H3 H4 [H5 H5'] H6]. split; [done|]. intros w Hlive.
  destruct (allow_call_allowed (breaker s) w) as (a & b' & w' & E & Ha).
  exists a, (b', w'). split; [done|].
  assert (Hs : state (breaker s) = HALF_OPEN).
  { revert Hlive. unfold live_probes. destruct (List.filter _ _) as [|x l] eqn:Ef; [done|].
    intros _. assert (Hx : In x (List.filter (live_probe (breaker s)) (inflight s)))
      by (rewrite Ef; by left).
    apply filter_In in Hx as [_ Hx]. unfold live_probe in Hx.
    by apply andb_prop in Hx as [_ Hx%bool_decide_eq_true]. }
  destruct Ha; cbn; try congruence.
  match goal with H : probe_in_flight _ = false |- _ => apply H5' in H end. lia.
Qed.

(** Every transition sequence of a concurrent execution is a path of the
    documented state machine, from CLOSED to the current state. *)
Theorem transitions_legal s w0 (Hreach : rtc (step c) (Sys fresh w0 []) s) :
  legal_path CLOSED (history (breaker s)) (state (breaker s)) /\
  (state (breaker s) = CLOSED -> 0 <= failure_count (breaker s) < failure_threshold c).
Proof.
  pose proof (breaker_inv_steps _ _ (inv_fresh : inv (breaker (Sys fresh w0 [])) []) Hreach)
    as [[H1 H1'] _ _ _ _ _ H6]. split; [done|]. intros Hs. specialize (H1' Hs). lia.
Qed.

Lemma step_epoch s s' : inv (breaker s) (inflight s) -> step c s s' ->
  epoch (breaker s) <= epoch (breaker s') /\
  (state (breaker s') <> state (breaker s) -> epoch (breaker s) < epoch (breaker s')).
Proof.
  intros Hi Hst. destruct Hst as [b w l a b' w' E|b w l e b' w' E|A b w l1 a l2 o r b' w' E|b w l|b w l|b w l w'];
    cbn [breaker inflight] in *.
  - apply allow_call_inv in E. destruct E; cbn; split; try lia; congruence.
  - destruct (allow_call_allowed b w) as (a1 & b1 & w1 & E1 & _). by rewrite E in E1.
  - destruct (settle_eq a o b w) as (w1 & E1 & _). rewrite E in E1. injection E1 as -> -> ->.
    unfold settled, record_success, failed, release_probe.
    destruct o as [v|e]; [|destruct (counts c e)]; repeat case_match; cbn; split; try lia; done.
  - done.
  - unfold reset_locked. case_bool_decide; cbn; lia.
  - done.
Qed.

(** A call admitted before a transition can change nothing after it, whatever
    it returns or raises: late failures of an old connection never trip, and
    late successes never close, the recovered breaker. *)
Theorem stale_outcome_fenced s s' w0 a w {A} (o : outcome A)
    (Hreach : rtc (step c) (Sys fresh w0 []) s) (Hstep : step c s s')
    (Htrans : state (breaker s') <> state (breaker s)) (Hin : a ∈ inflight s) :
  settle c a o (breaker s', w) = (Ok tt, (breaker s', w)).
Proof.
  pose proof (breaker_inv_steps _ _ (inv_fresh : inv (breaker (Sys fresh w0 [])) []) Hreach) as Hi.
  destruct (step_epoch s s' Hi Hstep) as [_ He]. specialize (He Htrans).
  destruct Hi as [_ _ _ _ H4 _ _]. rewrite Forall_forall in H4.
  destruct (H4 a Hin) as (Hle & _ & _).
  assert (Hs : stale a (breaker s') = true).
  { unfold stale. destruct (Z.eqb_spec (a_epoch a) (epoch (breaker s'))); [lia|done]. }
  unfold settle, assign, record_success, record_failure, release_probe, bind, on_fst, get, modify, ret.
  destruct o as [v|e]; cbn; rewrite ?Hs; [done|]. destruct (counts c e); [by rewrite ?Hs|].
  destruct (a_state a); [done..|]. destruct (Z.eqb_spec (a_epoch a) (epoch (breaker s'))); [lia|].
  by rewrite andb_false_r.
Qed.

(** ** One thread's calls *)
Context {A : Type}.

(** A breaker that is open inside its cool-down, or half-open with a probe in
    flight, rejects: the function is not called, only the clock is read. *)
Theorem rejects_without_calling b w (func : M W A)
    (Hb : state b = OPEN /\ (forall t0, last_failure_time b = Some t0 -> elapsed c (reading w) t0 = false)
          \/ state b = HALF_OPEN /\ probe_in_flight b = true) :
  exists b' w', call c func (b, w) = (Raise EBreakerOpen, (b', w')) /\
    (w' = w \/ w' = tick w \/ w' = tick (tick w)) /\ state b' <> CLOSED /\
    (state b = OPEN -> b' = notify_pending b).
Proof.
  destruct (allow_call_allowed b w) as (a & b1 & w1 & E & Ha).
  unfold call, bind at 1. rewrite E. destruct Ha as
    [Hs|w2 Hs Hw|t0 Hs Hl He|Hs Hp|t0 Hs Hp Ht Hz He]; cbn.
  - destruct Hb as [[? _]|[? _]]; congruence.
  - eexists _, _. split; [reflexivity|]. split; [tauto|]. by split.
  - destruct Hb as [[_ Hb]|[? _]]; [|congruence]. specialize (Hb _ Hl). congruence.
  - destruct Hb as [[? _]|[_ ?]]; congruence.
  - eexists _, _. split; [reflexivity|]. split; [tauto|]. split; [done|]. congruence.
Qed.

(** The run of trailing counted failures; other exceptions leave it alone. *)
Fixpoint trailing (n : Z) (os : list (outcome A)) : Z :=
  match os with
  | [] => n
  | Ok _ :: os' => trailing 0 os'
  | Raise e :: os' => trailing (if counts c e then n + 1 else n) os'
  end.

Fixpoint run_calls (fs : list (M W A)) (bw : self * W) : list (outcome A) * (self * W) :=
  match fs with
  | [] => ([], bw)
  | f :: fs' => let '(o, bw1) := call c f bw in
                let '(os, bw2) := run_calls fs' bw1 in (o :: os, bw2)
  end.

(** A call on a closed breaker. *)
Lemma call_closed b w (func : M W A) o :
  state b = CLOSED -> (forall w, fst (func w) = o) ->
  exists b' w', call c func (b, w) = (o, (b', w')) /\
    let n := trailing (failure_count b) [o] in
    failure_count b' = n /\
    (state b' = if (match o with Raise e => counts c e | _ => false end)
                   && (failure_threshold c <=? n) then OPEN else CLOSED).
Proof.
  intros Hs Hf. unfold call, allow_call, admitted, bind, on_fst, get, modify, ret. cbn. rewrite Hs.
  cbn. rewrite Hs. cbn. specialize (Hf w). destruct (func w) as [o1 w1]. cbn in Hf. subst o1.
  destruct (settle_eq (Admission CLOSED (epoch b)) o b w1) as (w2 & E & _). cbn [snd fst]. rewrite E.
  assert (Hns : stale (Admission CLOSED (epoch b)) b = false).
  { unfold stale. cbn. rewrite Hs, Z.eqb_refl. done. }
  destruct o as [v|e]; cbn.
  - eexists _, _. split; [reflexivity|]. cbn. unfold record_success. by rewrite Hns.
  - destruct (counts c e) eqn:Ec; (eexists _, _; split; [reflexivity|]); cbn; rewrite ?Ec.
    + unfold failed. rewrite Hns. cbn.
      destruct (failure_threshold c <=? failure_count b + 1); cbn; by rewrite ?Hs.
    + by rewrite Hs.
Qed.

Lemma run_closed fs os : Forall2 (fun f o => forall w, fst (f w) = o) fs os ->
  forall b w, state b = CLOSED -> failure_count b < failure_threshold c ->
  (forall k, (k < length os)%nat -> trailing (failure_count b) (take k os) < failure_threshold c) ->
  exists b' w', run_calls fs (b, w) = (os, (b', w')) /\
    failure_count b' = trailing (failure_count b) os /\
    state b' = (if failure_threshold c <=? trailing (failure_count b) os then OPEN else CLOSED).
Proof.
  induction 1 as [|f o fs os Hf Hr IH]; intros b w Hs Hn Hpre; cbn [run_calls].
  - exists b, w. split; [done|]. split; [done|]. cbn. by destruct (Z.leb_spec (failure_threshold c) (failure_count b)); [lia|].
  - destruct (call_closed b w f o Hs Hf) as (b1 & w1 & E & Hc & Hst). rewrite E.
    set (n := trailing (failure_count b) [o]) in *.
    assert (Ht : forall l, trailing (failure_count b) (o :: l) = trailing n l).
    { intros l. unfold n. by destruct o. }
    destruct os as [|o2 os].
    + inversion Hr; subst. cbn [run_calls]. exists b1, w1. split; [done|].
      rewrite Ht. cbn [trailing]. split; [done|]. rewrite Hst.
      destruct (Z.leb_spec (failure_threshold c) n) as [Hle|]; [|by rewrite andb_false_r].
      rewrite andb_true_r. unfold n in Hle. destruct o as [v|e]; cbn in Hle; [lia|].
      destruct (counts c e); [done|lia].
    + assert (Hn1 : n < failure_threshold c) by (apply (Hpre 1%nat); cbn; lia).
      destruct (IH b1 w1) as (b2 & w2 & E2 & Hc2 & Hst2).
      * rewrite Hst. destruct (Z.leb_spec (failure_threshold c) n); [lia|]. by rewrite andb_false_r.
      * by rewrite Hc.
      * intros k Hk. rewrite Hc. rewrite <- Ht. apply (Hpre (S k)). cbn in *. lia.
      * rewrite E2. exists b2, w2. split; [done|]. rewrite Ht, Hc2, Hst2, Hc. done.
Qed.

(** The breaker trips exactly when the run of consecutive counted failures
    reaches the threshold: as long as it has not, every call goes through with
    its own outcome; a success resets the run; process-control signals, the
    durable-push rejection and uncounted exceptions do not touch it. *)
Theorem trips_exactly fs os w
    (Hall : Forall2 (fun f o => forall w, fst (f w) = o) fs os)
    (Hpre : forall k, (k < length os)%nat -> trailing 0 (take k os) < failure_threshold c) :
  exists b w', run_calls fs (fresh, w) = (os, (b, w')) /\
    failure_count b = trailing 0 os /\
    state b = (if failure_threshold c <=? trailing 0 os then OPEN else CLOSED).
Proof. apply run_closed; [done|done|cbn; lia|done]. Qed.

(** A successful call that was admitted closes a half-open breaker. *)
Lemma probe_closes b w (func : M W A) a b1 w1 :
  allow_call c (b, w) = (Ok a, (b1, w1)) -> a_state a = HALF_OPEN -> state b1 = HALF_OPEN ->
  a_epoch a = epoch b1 -> is_ok (fst (func w1)) = true ->
  is_ok (fst (call c func (b, w))) = true /\ state (fst (snd (call c func (b, w)))) = CLOSED.
Proof.
  intros E Ha Hs He Hf.
  assert (Hc : exists v w2, call c func (b, w) =
    (Ok v, (notify_pending (record_success a (notify_pending b1)), w2))).
  { unfold call, bind at 1. rewrite E, Ha. cbn.
    destruct (func w1) as [[v|e] w2]; [|done]. eexists _, _. reflexivity. }
  destruct Hc as (v & w2 & ->). split; [done|]. cbn. unfold record_success, stale. cbn.
  by rewrite Ha, Hs, He, Z.eqb_refl.
Qed.

(** C39. With a positive cool-down ([reset_timeout > 0]) the breaker never wedges:
    from any state reachable under concurrency, once the cool-down has elapsed a
    call that succeeds closes it, or (when an earlier probe hangs) takes the slot
    back so that the next call after another cool-down closes it.  A cool-down of
    zero is legal too; it has no deadline for a probe, so there a hung probe
    keeps the breaker half open ([zero_cooldown_keeps_probe]). *)
Theorem never_wedged s w0 w1 (func : M W A)
    (Hreach : rtc (step c) (Sys fresh w0 []) s)
    (Hfunc : forall w, is_ok (fst (func w)) = true)
    (Hreset : fltb fzero (reset_timeout c) = true)
    (Hwait : forall t0, last_failure_time (breaker s) = Some t0 \/
       probe_started_at (breaker s) = Some t0 -> elapsed c (reading w1) t0 = true) :
  let '(o, (b1, _)) := call c func (breaker s, w1) in
  (is_ok o = true /\ state b1 = CLOSED) \/
  (o = Raise EBreakerOpen /\ exists t1, last_failure_time b1 = Some t1 /\
     forall w2, elapsed c (reading w2) t1 = true ->
       is_ok (fst (call c func (b1, w2))) = true /\
       state (fst (snd (call c func (b1, w2)))) = CLOSED).
Proof.
  pose proof (breaker_inv_steps _ _ (inv_fresh : inv (breaker (Sys fresh w0 [])) []) Hreach)
    as [H1 H2 Hst H3 H4 _ _]. set (b := breaker s) in *.
  destruct (allow_call_allowed b w1) as (a & b1 & w2 & E & Ha).
  assert (Hopen : forall b w, state b = OPEN -> (exists t0, last_failure_time b = Some t0 /\
      elapsed c (reading w) t0 = true) ->
    is_ok (fst (call c func (b, w))) = true /\ state (fst (snd (call c func (b, w)))) = CLOSED).
  { clear -Hfunc TL. intros b w Hs (t0 & Hl & He).
    destruct (allow_call_allowed b w) as (a & b1 & w1 & E & Ha).
    destruct Ha as [?|w2 ? ?|t1 ? ? ?|? ?|t1 ? ? ? ? ?]; try congruence.
    - exfalso. unfold allow_call, now, assign, rejected, bind, on_fst, on_snd, get, ret, modify in E.
      cbn in E. rewrite Hs in E. cbn in E. rewrite time_fn_eq in E. cbn in E. rewrite Hl, He in E.
      cbn in E. by injection E.
    - eapply probe_closes; eauto. }
  destruct (state b) eqn:Hs.
  - unfold call, bind at 1. rewrite E. destruct Ha as [?|w3 ? ?|t1 ? ? ?|? ?|t1 ? ? ? ? ?]; try congruence.
    cbn. specialize (Hfunc w1). destruct (func w1) as [[v|e] w2]; [|done]. cbn. left. split; [done|].
    unfold record_success, stale. cbn. by rewrite Hs, Z.eqb_refl.
  - destruct (H3 ltac:(congruence)) as [t0 Hl].
    destruct (Hopen b w1 Hs) as [G1 G2]; [eauto|].
    destruct (call c func (b, w1)) as [o [b2 w3]]. by left.
  - destruct Ha as [?|w3 ? ?|t1 ? ? ?|? ?|t1 ? ? ? ? ?]; try congruence.
    + exfalso. destruct (probe_in_flight b) eqn:Ep.
      * destruct (Hst eq_refl) as [t1 Ht]. specialize (Hwait t1 (or_intror Ht)).
        unfold allow_call, now, assign, rejected, reopen_stuck_probe, bind, on_fst, on_snd, get, ret, modify in E.
        cbn in E. rewrite Hs, Ep, Ht, Hreset in E. cbn in E. rewrite time_fn_eq in E. cbn in E.
        rewrite Hwait in E. cbn in E. rewrite time_fn_eq in E. cbn in E. injection E. intros. 
        assert (epoch b + 1 = epoch b) by congruence. lia.
      * unfold allow_call, now, assign, admitted, bind, on_fst, on_snd, get, ret, modify in E.
        cbn in E. rewrite Hs, Ep in E. cbn in E. rewrite time_fn_eq in E. cbn in E. rewrite Hs in E.
        by injection E.
    + destruct (probe_closes b w1 func _ _ _ E) as [G1 G2]; [done..|].
      destruct (call c func (b, w1)) as [o [b2 w3]]. by left.
    + unfold call, bind at 1. rewrite E. cbn. right. split; [done|].
      exists (reading (tick w1)). split; [done|]. intros w2 He2. apply Hopen; [done|eauto].
Qed.

(** Without a cool-down the slot of a probe that hangs is never taken back. *)
Lemma zero_cooldown_keeps_probe b w (func : M W A)
    (Hreset : fltb fzero (reset_timeout c) = false)
    (Hs : state b = HALF_OPEN) (Hp : probe_in_flight b = true) :
  let '(o, (b1, _)) := call c func (b, w) in
  o = Raise EBreakerOpen /\ state b1 = HALF_OPEN /\ probe_in_flight b1 = true.
Proof.
  assert (E : allow_call c (b, w) = (Ok (Admission OPEN (epoch b)), (b, w))).
  { unfold allow_call, rejected, bind, on_fst, get. cbn. rewrite Hs, Hp, Hreset.
    by destruct (probe_started_at b). }
  unfold call, bind at 1. by rewrite E.
Qed.
End Facts.

(** ** The proxies *)
Module Proxy.
Inductive iface := IQueue | ISet | IStorage.

Definition HOT_PATH (i : iface) : list string :=
  match i with
  | IQueue => ["push"; "_push_with_durability"; "pop"; "pop_with_ack"; "ack"; "nack"]
  | ISet => ["add"; "contains"; "remove"]
  | IStorage => ["store"; "retrieve"; "delete"]
  end.

Definition PROTECTED_FORWARDED (i : iface) : list string :=
  match i with
  | IQueue => ["queue_len"; "clear_queue"]
  | ISet => ["set_len"; "clear_set"]
  | IStorage => ["exists"; "ttl"; "list_storage_keys"; "clear_storage"]
  end ++ ["connect"; "disconnect"; "is_connected"; "ping"].

Definition SAFE_QUEUE_OPERATIONS : list string :=
  ["push"; "pop"; "ack"; "nack"; "queue_len"; "clear_queue"].
Definition SAFE_STORAGE_OPERATIONS : list string :=
  ["store"; "retrieve"; "delete"; "exists"; "ttl"; "list_storage_keys"; "clear_storage"].

(** [_QUEUE_METHOD_OPERATIONS] and [_STORAGE_METHOD_OPERATIONS]. *)
Definition queue_operation (m : string) : option string :=
  if bool_decide (m = "_push_with_durability") then Some "push"
  else if bool_decide (m = "pop_with_ack") then Some "pop"
  else if bool_decide (m ∈ SAFE_QUEUE_OPERATIONS) then Some m else None.
Definition storage_operation (m : string) : option string :=
  if bool_decide (m ∈ SAFE_STORAGE_OPERATIONS) then Some m else None.
Definition SET_METHODS : list string := ["add"; "contains"; "remove"; "set_len"; "clear_set"].

(** [_new_operation_error]; a missing operation name is the empty string. *)
Definition new_operation_error (m : string) : exn :=
  match queue_operation m, storage_operation m with
  | Some op, _ => EQueue op
  | None, Some op => EStorage op
  | None, None => if bool_decide (m ∈ SET_METHODS) then EConnection else EBackend
  end.

(** The operation name [sanitize_backend_error] keeps. *)
Definition safe_operation (safe : list string) (fallback : option string) (op : string) : string :=
  if bool_decide (op ∈ safe) then op
  else match fallback with
       | Some f => if bool_decide (f ∈ safe) then f else ""
       | None => ""
       end.

(** exceptions/_redaction.py [sanitize_backend_error]. *)
Definition sanitize_backend_error (safe_queue safe_storage : list string)
    (fallback_queue fallback_storage : option string) (e : exn) : exn :=
  match e with
  | EQueue op => EQueue (safe_operation safe_queue fallback_queue op)
  | EStorage op => EStorage (safe_operation safe_storage fallback_storage op)
  | e => e
  end.

Section Calls.
Variable c : config.
Context {W : Type} {TF : TimeFn W} {A : Type}.
(** Whether a NotImplementedError carries one of the vetted messages. *)
Variable vetted_message : exn -> bool.

Definition sanitize_ordinary_failure (m : string) (e : exn) : exn :=
  if bool_decide (e = ENotImplemented) && vetted_message e then ENotImplemented
  else new_operation_error m.

(** The error mapping both wrappers share, given the safe operation sets. *)
Definition publish (safe_queue safe_storage : list string) (m : string) (e : exn) : exn :=
  if negb (is_ordinary e) || bool_decide (e = EDurablePushRequired) then e
  else if backend_error e
  then sanitize_backend_error safe_queue safe_storage (queue_operation m) (storage_operation m) e
  else sanitize_ordinary_failure m e.

Definition republish {S} (f : exn -> exn) (m : M S A) : M S A := fun s =>
  match m s with (Raise e, s') => (Raise (f e), s') | r => r end.

Definition opt_list (o : option string) : list string := match o with Some x => [x] | None => [] end.

(** [proxy.m(...)]: [bound] is the method the constructor captured, if any. *)
Definition invoke (i : iface) (m : string) (bound : option (M W A)) : M (self * W) A :=
  match bound with
  | None => raise (new_operation_error m)
  | Some func =>
      if bool_decide (m ∈ HOT_PATH i)
      then republish (publish SAFE_QUEUE_OPERATIONS SAFE_STORAGE_OPERATIONS m) (call c func)
      else republish (publish (opt_list (queue_operation m)) (opt_list (storage_operation m)) m)
             (on_snd func)
  end.

Lemma new_operation_error_backend m : backend_error (new_operation_error m) = true.
Proof. unfold new_operation_error. by repeat case_match. Qed.

Lemma safe_operation_in safe fb op :
  safe_operation safe fb op ∈ "" :: safe.
Proof.
  unfold safe_operation. case_bool_decide; [by right|].
  destruct fb as [f|]; [case_bool_decide; [by right|left]|left].
Qed.

(** The terminal error boundary of the proxies: administrative and lifecycle
    methods run without the breaker's knowledge; no method publishes an ordinary
    exception that is not a typed backend error (or a vetted NotImplementedError),
    and a published queue error names one of the vetted operations or none. *)
Theorem proxy_boundary i m bound b w o b' w'
    (Hrun : invoke i m bound (b, w) = (o, (b', w'))) :
  (m ∉ HOT_PATH i -> b' = b) /\
  forall e, o = Raise e -> is_ordinary e = true -> e <> EDurablePushRequired ->
    (backend_error e = true \/ e = ENotImplemented) /\
    (forall op, e = EQueue op -> op ∈ "" :: SAFE_QUEUE_OPERATIONS).
Proof.
  assert (Hnew : forall op, new_operation_error m = EQueue op -> op ∈ "" :: SAFE_QUEUE_OPERATIONS).
  { intros op. unfold new_operation_error. destruct (queue_operation m) as [q|] eqn:Eq.
    - intros [= <-]. unfold queue_operation in Eq. repeat case_bool_decide; try discriminate;
        injection Eq as <-; [by apply (bool_decide_unpack _)..|by right].
    - by repeat case_match. }
  assert (Hpub : forall sq ss e, (forall x, x ∈ sq -> x ∈ SAFE_QUEUE_OPERATIONS) ->
    is_ordinary (publish sq ss m e) = true -> publish sq ss m e <> EDurablePushRequired ->
    (backend_error (publish sq ss m e) = true \/ publish sq ss m e = ENotImplemented) /\
    (forall op, publish sq ss m e = EQueue op -> op ∈ "" :: SAFE_QUEUE_OPERATIONS)).
  { intros sq ss e Hsq. unfold publish. destruct (negb (is_ordinary e) || _) eqn:Ec.
    - apply orb_prop in Ec as [Ec%negb_true_iff|Ec%bool_decide_eq_true]; [congruence|done].
    - intros _ _. destruct (backend_error e) eqn:Eb.
      + destruct e; try done; cbn; (split; [by left|]); try done. intros op [= <-].
        pose proof (safe_operation_in sq (queue_operation m) operation) as [-> | Hin]%elem_of_cons;
          [left|right; auto].
      + unfold sanitize_ordinary_failure. destruct (_ && _); [split; [by right|done]|].
        split; [left; apply new_operation_error_backend|done]. }
  assert (Hop : forall x, x ∈ opt_list (queue_operation m) -> x ∈ SAFE_QUEUE_OPERATIONS).
  { intros x. unfold queue_operation. repeat case_bool_decide; cbn;
      try (intros ->%list_elem_of_singleton; by apply (bool_decide_unpack _)).
    - by intros ->%list_elem_of_singleton.
    - by intros ?%elem_of_nil. }
  unfold invoke in Hrun. destruct bound as [func|].
  - destruct (bool_decide_reflect (m ∈ HOT_PATH i)) as [Hh|Hh].
    + split; [done|]. intros e -> Ho Hd. unfold republish in Hrun.
      destruct (call c func (b, w)) as [[v|e1] [b1 w1]]; [done|]. injection Hrun as <- <- <-.
      by apply Hpub.
    + unfold republish in Hrun. cbn in Hrun. destruct (func w) as [[v|e1] w1].
      * injection Hrun as <- <- <-. by split.
      * injection Hrun as <- <- <-. split; [done|]. intros e [= <-] Ho Hd. by apply Hpub.
  - injection Hrun as <- <- <-. split; [done|]. intros e [= <-] _ _.
    split; [left; apply new_operation_error_backend|done].
Qed.
End Calls.
End Proxy.

(** ** Examples *)
Module Examples.
(** A world whose clock shows whole seconds and a tape of backend outcomes. *)
#[local] Instance clock : TimeFn Z := {| time_fn := fun w => (Ok (float_of_Z w), w + 1) |}.
#[local] Instance clock_laws : TimeLaws Z.
Proof. by refine {| reading := float_of_Z; tick := fun w => w + 1 |}. Defined.

Definition cfg : config := Config 2 (float_of_Z 30) (fun _ => true).
Definition fails : M Z Z := raise EConnection.
Definition works : M Z Z := ret 7.

Definition opened : self := Self OPEN 2 (Some (float_of_Z 1)) 1 false None [] [OPEN].
Definition probing : self :=
  Self HALF_OPEN 2 (Some (float_of_Z 1)) 2 true (Some (float_of_Z 40)) [] [OPEN; HALF_OPEN].

Lemma trips_exactly_witness :
  exists b w', run_calls cfg [fails; works; fails; fails] (fresh, 0)
    = ([Raise EConnection; Ok 7; Raise EConnection; Raise EConnection], (b, w')) /\
    state b = OPEN.
Proof.
  assert (Hall : Forall2 (fun (f : M Z Z) o => forall w, fst (f w) = o)
    [fails; works; fails; fails]
    [Raise EConnection; Ok 7; Raise EConnection; Raise EConnection]) by by repeat constructor.
  assert (Hpre : forall k, (k < 4)%nat ->
    trailing cfg 0 (take k [Raise EConnection; Ok 7; Raise EConnection; Raise EConnection]) < 2).
  { intros k Hk. do 4 (destruct k as [|k]; [by vm_compute|]). lia. }
  destruct (trips_exactly cfg ltac:(by vm_compute) _ _ 0 Hall Hpre) as (b & w' & H1 & _ & H2).
  exists b, w'. split; [exact H1|exact H2].
Defined.

Lemma rejects_without_calling_witness :
  exists b' w', call cfg works (opened, 10) = (Raise EBreakerOpen, (b', w')) /\ w' <> 12.
Proof.
  assert (Hb : state opened = OPEN /\
    (forall t0, last_failure_time opened = Some t0 -> elapsed cfg (reading 10) t0 = false)
    \/ state opened = HALF_OPEN /\ probe_in_flight opened = true).
  { left. split; [done|]. by intros t0 [= <-]. }
  destruct (rejects_without_calling cfg opened 10 works Hb) as (b' & w' & H1 & _).
  exists b', w'. split; [exact H1|].
  assert (E : snd (snd (call cfg works (opened, 10))) = 11) by by vm_compute.
  rewrite H1 in E. cbn in E. lia.
Defined.

(** The steps from a fresh breaker to one with a live probe. *)
Lemma reach_open : rtc (step cfg) (Sys fresh 0 []) (Sys (Self OPEN 2 (Some (float_of_Z 1)) 1 false None [OPEN] []) 2 []).
Proof.
  eapply rtc_l; [apply (step_admit cfg fresh 0 [] (Admission CLOSED 0)); by vm_compute|].
  eapply rtc_l; [eapply (step_settle cfg (A := unit) _ _ [] _ [] (Raise EConnection)); by vm_compute|].
  eapply rtc_l; [eapply (step_admit cfg _ _ [] (Admission CLOSED 0)); by vm_compute|].
  eapply rtc_l; [eapply (step_settle cfg (A := unit) _ _ [] _ [] (Raise EConnection)); by vm_compute|].
  apply rtc_refl.
Qed.

Definition probed : self :=
  Self HALF_OPEN 2 (Some (float_of_Z 1)) 2 true (Some (float_of_Z 40)) [OPEN; HALF_OPEN] [].

Lemma reach_probe : rtc (step cfg) (Sys fresh 0 []) (Sys probed 41 [Admission HALF_OPEN 2]).
Proof.
  etrans; [apply reach_open|].
  eapply rtc_l; [eapply (step_world cfg _ _ _ 40)|].
  eapply rtc_l; [eapply (step_admit cfg _ _ [] (Admission HALF_OPEN 2)); by vm_compute|].
  apply rtc_refl.
Qed.

Lemma single_live_probe_witness :
  exists a bw', allow_call cfg (probed, 50) = (Ok a, bw') /\ a_state a = OPEN.
Proof.
  exact (proj2 (single_live_probe cfg ltac:(by vm_compute) _ 0 reach_probe) 50 eq_refl).
Defined.

Lemma transitions_legal_witness : legal_path CLOSED [OPEN; HALF_OPEN] HALF_OPEN.
Proof. exact (proj1 (transitions_legal cfg ltac:(by vm_compute) _ 0 reach_probe)). Defined.

Lemma stale_outcome_fenced_witness :
  let b := fst (snd (settle cfg (A := unit) (Admission HALF_OPEN 2) (Raise EConnection) (probed, 41))) in
  settle cfg (A := unit) (Admission HALF_OPEN 2) (Ok tt) (b, 42) = (Ok tt, (b, 42)).
Proof.
  intros b.
  assert (Hs : step cfg (Sys probed 41 [Admission HALF_OPEN 2]) (Sys b 42 [])).
  { apply (step_settle cfg (A := unit) probed 41 [] (Admission HALF_OPEN 2) [] (Raise EConnection) (Ok tt)).
    by vm_compute. }
  assert (Ht : state b <> HALF_OPEN) by by vm_compute.
  assert (Hin : Admission HALF_OPEN 2 ∈ [Admission HALF_OPEN 2]) by left.
  exact (stale_outcome_fenced cfg ltac:(by vm_compute) _ _ 0 (Admission HALF_OPEN 2) 42 (Ok tt)
           reach_probe Hs Ht Hin).
Defined.

Lemma never_wedged_witness :
  let '(o, (b1, _)) := call cfg works (probed, 80) in
  (is_ok o = true /\ state b1 = CLOSED) \/
  (o = Raise EBreakerOpen /\ exists t1, last_failure_time b1 = Some t1 /\
     forall w2, elapsed cfg (reading w2) t1 = true ->
       is_ok (fst (call cfg works (b1, w2))) = true /\
       state (fst (snd (call cfg works (b1, w2)))) = CLOSED).
Proof.
  assert (Hw : forall t0, last_failure_time probed = Some t0 \/ probe_started_at probed = Some t0 ->
    elapsed cfg (reading 80) t0 = true) by (by intros t0 [[= <-]|[= <-]]; vm_compute).
  exact (never_wedged cfg ltac:(by vm_compute) _ 0 80 works reach_probe (fun _ => eq_refl)
           ltac:(by vm_compute) Hw).
Defined.

(** A released probe slot keeps the claim's timestamp. *)
Lemma released_slot_keeps_timestamp :
  let b := release_probe (Admission HALF_OPEN 2) probed in
  probe_in_flight b = false /\ probe_started_at b = Some (float_of_Z 40).
Proof. by vm_compute. Qed.

Lemma proxy_boundary_witness :
  let r := Proxy.invoke (A := Z) cfg (fun _ => false) Proxy.IQueue "queue_len" (Some (raise EValue)) (opened, 5) in
  r = (Raise (EQueue "queue_len"), (opened, 5)) /\ fst (snd r) = opened.
Proof.
  intros r. assert (E : r = (Raise (EQueue "queue_len"), (opened, 5))) by by vm_compute.
  split; [exact E|]. rewrite E.
  refine (proj1 (Proxy.proxy_boundary (A := Z) cfg (fun _ => false) Proxy.IQueue "queue_len"
    (Some (raise EValue)) opened 5 _ _ _ E) _).
  by apply (bool_decide_unpack _).
Defined.
End Examples.
End CircuitBreaker.
