(* ===== verification/Batched.v ===== *)
(** * Storage strategies

    storage/strategies/batched.py: a bounded buffer of records, each bound to
    the backend it was stored with, flushed in insertion order with the unwritten
    tail put back when a write fails; storage/strategies/passthrough.py and
    factory.py.

    The buffer lock makes admission, the snapshot, the release of a persisted
    record and the requeue of a tail atomic; backend calls run outside it, one
    flush at a time.  [step] interleaves these atomic pieces over any number of
    threads, and the executable [flush_serialized] is shown to be one of its
    runs, whatever other threads do while a backend call is in progress. *)

From S2P Require Export PyFloat.

(** A record: the backend capability, key, value, time to live. *)
Record record := Rec { r_backend : nat; r_key : string; r_value : bytes; r_ttl : option Z }.

(** ** passthrough.py and the parameters of the storage side *)
Class StorageBackends (W : Type) := { sb_store : record -> M W unit }.

Module Passthrough.
Section Passthrough.
Context {W : Type} {SB : StorageBackends W}.
Definition store (r : record) : M W unit := sb_store r.
Definition flush : M W unit := ret tt.
Definition close : M W unit := ret tt.
End Passthrough.
End Passthrough.

Module Batched.
Definition DEFAULT_BATCH_THRESHOLD : Z := 100.

Record self := Self {
  threshold : Z;
  max_buffer_age_s : option float;
  max_pending : Z;
  buffer : list record;
  in_flight_count : Z;
  closed : bool;
  owner : option nat;
  oldest_ts : option float;
  flusher : bool                 (* _flusher is not None *)
}.

(** [__init__]. *)
Definition init (threshold : pyarg) (max_buffer_age_s : option float) (max_pending : option pyarg)
    : outcome self :=
  match threshold with
  | AInt n =>
      if n <? 1 then Raise EValue else
      let mp := match max_pending with None => AInt (2 * n) | Some v => v end in
      match mp with
      | AInt mp =>
          if mp <? n then Raise EValue
          else if match max_buffer_age_s with
                  | Some a => negb (isfinite a) || fleb a fzero
                  | None => false
                  end
          then Raise EValue
          else Ok (Self n max_buffer_age_s mp [] 0 false None None false)
      | _ => Raise EValue
      end
  | _ => Raise EValue
  end.

Definition with_buffer (s : self) (b : list record) (n : Z) (ts : option float) : self :=
  Self (threshold s) (max_buffer_age_s s) (max_pending s) b n (closed s) (owner s) ts (flusher s).
Definition with_closed (s : self) : self :=
  Self (threshold s) (max_buffer_age_s s) (max_pending s) (buffer s) (in_flight_count s) true
    (owner s) (oldest_ts s) (flusher s).
Definition with_owner (s : self) (o : option nat) : self :=
  Self (threshold s) (max_buffer_age_s s) (max_pending s) (buffer s) (in_flight_count s) (closed s)
    o (oldest_ts s) (flusher s).
Definition with_flusher (s : self) (f : bool) : self :=
  Self (threshold s) (max_buffer_age_s s) (max_pending s) (buffer s) (in_flight_count s) (closed s)
    (owner s) (oldest_ts s) f.

(** [attach_owner]. *)
Definition attach_owner (o : nat) : M self unit := fun s =>
  if closed s then (Raise ERuntime, s)
  else match owner s with
       | None => (Ok tt, with_owner s (Some o))
       | Some o' => if bool_decide (o' = o) then (Ok tt, s) else (Raise ERuntime, s)
       end.

(** [_pending_locked]. *)
Definition pending (s : self) : Z := Z.of_nat (length (buffer s)) + in_flight_count s.

(** ** The atomic pieces *)

(** The locked part of [store]: the depth to publish and whether to flush; the
    clock reading is used when the buffer had no age yet. *)
Definition admit_record (r : record) (now : float) : M self (Z * bool) := fun s =>
  if closed s then (Raise ERuntime, s)
  else if max_pending s <=? pending s then (Raise EBackpressure, s)
  else
    let ts := match oldest_ts s with None => Some now | ts => ts end in
    let s := with_buffer s (buffer s ++ [r]) (in_flight_count s) ts in
    (Ok (pending s, threshold s <=? Z.of_nat (length (buffer s))), s).

(** The snapshot that opens [_flush_serialized]. *)
Definition detach (s : self) : list record * self :=
  (buffer s, with_buffer s [] (in_flight_count s + Z.of_nat (length (buffer s))) None).

Definition release_persisted_entry : M self unit := fun s =>
  if in_flight_count s <=? 0 then (Raise ERuntime, s)
  else (Ok tt, with_buffer s (buffer s) (in_flight_count s - 1) (oldest_ts s)).

Definition requeue_tail (tail : list record) (now : float) : M self Z := fun s =>
  let tail_size := Z.of_nat (length tail) in
  if in_flight_count s <? tail_size then (Raise ERuntime, s)
  else
    let b := tail ++ buffer s in
    let ts := match b with [] => oldest_ts s | _ => Some now end in
    let s := with_buffer s b (in_flight_count s - tail_size) ts in
    (Ok (pending s), s).

(** ** The world: backends, monitor, clock, locks and threads. A backend call
    may let other threads run, so it acts on the shared state too. *)
Class World (W : Type) := {
  backend_store : record -> M (self * W) unit;
  on_store : string -> M W unit;
  on_buffer_depth : Z -> M W unit;
  monotonic : W -> float * W;
  acquire_flush_lock : M W bool;      (* bounded by _FLUSH_LOCK_TIMEOUT_S *)
  start_flusher : M W unit;
  join_flusher : M W unit;            (* close's bounded join loop *)
  (* close's bounded acquire loop: success, and the first interruption *)
  acquire_until_deadline : W -> bool * option exn * W;
  flusher_alive : W -> bool * W
}.

Section Operations.
Context {W : Type} {WD : World W}.

Definition now : M (self * W) float :=
  on_snd (fun w => let '(t, w') := monotonic w in (Ok t, w')).

(** [_emit_buffer_depth]: an ordinary monitor failure is swallowed. *)
Definition emit_buffer_depth (depth : Z) : M (self * W) unit := fun sw =>
  match on_snd (on_buffer_depth depth) sw with
  | (Raise e, sw') => if is_ordinary e then (Ok tt, sw') else (Raise e, sw')
  | r => r
  end.

(** Telemetry behind a failure in flight: nothing it raises replaces it. *)
Definition quietly (m : M (self * W) unit) : M (self * W) unit := fun sw => (Ok tt, snd (m sw)).

Definition ensure_flusher : M (self * W) unit := fun '(s, w) =>
  match max_buffer_age_s s with
  | None => (Ok tt, (s, w))
  | Some _ =>
      if closed s || flusher s then (Ok tt, (s, w))
      else match start_flusher w with
           | (Ok _, w') => (Ok tt, (with_flusher s true, w'))
           | (Raise e, w') => (Raise e, (with_flusher s false, w'))
           end
  end.

(** The [for] loop of [_flush_serialized] over the snapshot. *)
Fixpoint write_batch (batch : list record) : M (self * W) unit :=
  match batch with
  | [] => ret tt
  | r :: tail => fun sw =>
      match backend_store r sw with
      | (Raise e, sw1) =>
          (let! t := now in
           let! depth := on_fst (requeue_tail (r :: tail) t) in
           let! _ := quietly (emit_buffer_depth depth) in
           raise e) sw1
      | (Ok _, sw1) =>
          (let! _ := on_fst release_persisted_entry in
           fun sw2 =>
             match on_snd (on_store (r_key r)) sw2 with
             | (Raise e, sw3) =>
                 if is_ordinary e then write_batch tail sw3
                 else match tail with
                      | [] => (Raise e, sw3)
                      | _ => (let! t := now in
                              let! _ := on_fst (requeue_tail tail t) in raise e) sw3
                      end
             | (Ok _, sw3) => write_batch tail sw3
             end) sw1
      end
  end.

Definition flush_serialized : M (self * W) unit := fun '(s, w) =>
  let '(batch, s1) := detach s in
  (let! _ := write_batch batch in
   match batch with
   | [] => ret tt
   | _ => let! s2 := on_fst get in emit_buffer_depth (pending s2)
   end) (s1, w).

(** [_flush]; the lock is released whatever happens. *)
Definition flush_locked (raise_on_lock_timeout : bool) : M (self * W) unit :=
  let! acquired := on_snd acquire_flush_lock in
  if acquired then flush_serialized
  else if raise_on_lock_timeout then raise (EStorage "store") else ret tt.

Definition store (r : record) : M (self * W) unit :=
  let! t := now in
  let! (depth, flush_now) := on_fst (admit_record r t) in
  let! _ := emit_buffer_depth depth in
  let! _ := ensure_flusher in
  if flush_now : bool then flush_locked false else ret tt.

(** The public error boundary rebuilds storage errors under the operation name
    "store"; connection errors keep their class, everything else passes. *)
Definition boundary (m : M (self * W) unit) : M (self * W) unit := fun sw =>
  match m sw with
  | (Raise (EStorage _), sw') => (Raise (EStorage "store"), sw')
  | r => r
  end.

Definition flush : M (self * W) unit := boundary (flush_locked true).

(** [primary_error] of [close]: the first one recorded wins. *)
Definition first_error (a : option exn) (o : outcome unit) : option exn :=
  match a, o with Some e, _ => Some e | None, Raise e => Some e | None, Ok _ => None end.

(** The drain under the lock: an ordinary failure that left records is retried
    once. *)
Definition final_drain : M (self * W) unit := fun sw =>
  match flush_serialized sw with
  | (Raise e, (s, w)) =>
      if is_ordinary e then
        match buffer s with [] => (Raise e, (s, w)) | _ => flush_serialized (s, w) end
      else (Raise e, (s, w))
  | r => r
  end.

Definition close_body : M (self * W) unit := fun '(s0, w0) =>
  let s := with_closed s0 in
  let '(e1, w) :=
    if flusher s then let '(o, w) := join_flusher w0 in (first_error None o, w)
    else (None, w0) in
  let '(acquired, interrupted, w) := acquire_until_deadline w in
  let e1 := match e1 with None => interrupted | e => e end in
  let '(e2, (s, w)) :=
    if acquired : bool then let '(o, sw) := final_drain (s, w) in (first_error e1 o, sw)
    else (first_error e1 (Raise (EStorage "store")), (s, w)) in
  let '(alive, w) := if flusher s then flusher_alive w else (false, w) in
  let e3 := if negb (pending s =? 0) || alive
            then first_error e2 (Raise (EStorage "store")) else e2 in
  match e3 with
  | None => (Ok tt, (with_owner s None, w))
  | Some e => (Raise e, (s, w))
  end.

Definition close : M (self * W) unit := boundary close_body.

(** [_next_age_wait_interval]. *)
Definition AGE_WAIT_FLOOR_S : float := S754_finite false 5764607523034235 (-59).
Definition next_age_wait_interval (age : float) : M (self * W) float := fun '(s, w) =>
  match buffer s, oldest_ts s with
  | _ :: _, Some oldest =>
      let '(t, w') := monotonic w in
      (Ok (fmax (fsub age (fsub t oldest)) AGE_WAIT_FLOOR_S), (s, w'))
  | _, _ => (Ok age, (s, w))
  end.

(** One turn of [_age_flush_loop]: an ordinary failure keeps the loop alive. *)
Definition age_flush_turn (age : float) : M (self * W) unit := fun '(s, w) =>
  match buffer s, oldest_ts s with
  | _ :: _, Some oldest =>
      let '(t, w') := monotonic w in
      if fleb age (fsub t oldest) then
        match flush_locked false (s, w') with
        | (Raise e, sw) => if is_ordinary e then (Ok tt, sw) else (Raise e, sw)
        | r => r
        end
      else (Ok tt, (s, w'))
  | _, _ => (Ok tt, (s, w))
  end.
End Operations.

(** ** Interleavings *)

(** [flushing] is what the holder of the flush lock has still to write;
    [persisted] and [accepted] record the acknowledged writes and admissions. *)
Record sys := Sys {
  st : self; flushing : option (list record); persisted : list record; accepted : list record
}.

Inductive step : sys -> sys -> Prop :=
  | step_admit s f p a r t z s' : admit_record r t s = (Ok z, s') ->
      step (Sys s f p a) (Sys s' f p (a ++ [r]))
  | step_refuse s f p a r t e s' : admit_record r t s = (Raise e, s') ->
      step (Sys s f p a) (Sys s' f p a)
  | step_attach s f p a o r s' : attach_owner o s = (r, s') -> step (Sys s f p a) (Sys s' f p a)
  | step_closed s f p a : step (Sys s f p a) (Sys (with_closed s) f p a)
  | step_released s f p a : step (Sys s f p a) (Sys (with_owner s None) f p a)
  | step_flusher s f p a b : step (Sys s f p a) (Sys (with_flusher s b) f p a)
  | step_detach s p a : step (Sys s None p a) (Sys (snd (detach s)) (Some (fst (detach s))) p a)
  | step_persist s p a r tail s' : release_persisted_entry s = (Ok tt, s') ->
      step (Sys s (Some (r :: tail)) p a) (Sys s' (Some tail) (p ++ [r]) a)
  | step_requeue s p a r tail t d s' : requeue_tail (r :: tail) t s = (Ok d, s') ->
      step (Sys s (Some (r :: tail)) p a) (Sys s' None p a)
  | step_done s p a : step (Sys s (Some []) p a) (Sys s None p a).

(** What other threads may do while a backend call of the flush holder runs. *)
Inductive other : self -> self -> Prop :=
  | other_admit s r t o s' : admit_record r t s = (o, s') -> other s s'
  | other_attach s o r s' : attach_owner o s = (r, s') -> other s s'
  | other_closed s : other s (with_closed s)
  | other_flusher s b : other s (with_flusher s b).

(** [confirmed] is the log of the records whose store returned, in order: a store
    that raises confirms nothing, and only stores are logged. *)
Class WorldLaws (W : Type) `{World W} := {
  confirmed : W -> list record;
  backend_store_others : forall r s w o s' w',
    backend_store r (s, w) = (o, (s', w')) -> rtc other s s';
  backend_store_confirms : forall r s w o s' w',
    backend_store r (s, w) = (o, (s', w')) ->
    confirmed w' = confirmed w ++ match o with Ok _ => [r] | Raise _ => [] end;
  on_store_confirms : forall k w, confirmed (snd (on_store k w)) = confirmed w;
  on_buffer_depth_confirms : forall d w, confirmed (snd (on_buffer_depth d w)) = confirmed w;
  monotonic_confirms : forall w, confirmed (snd (monotonic w)) = confirmed w
}.

(** ** The invariant *)
Record inv (y : sys) : Prop := {
  inv_flight : in_flight_count (st y) = Z.of_nat (length (default [] (flushing y)));
  inv_records : persisted y ++ default [] (flushing y) ++ buffer (st y) = accepted y;
  inv_bound : pending (st y) <= max_pending (st y)
}.

Lemma admit_ok r t s z s' : admit_record r t s = (Ok z, s') ->
  closed s = false /\ pending s < max_pending s /\ buffer s' = buffer s ++ [r] /\
  in_flight_count s' = in_flight_count s /\ max_pending s' = max_pending s /\ closed s' = closed s.
Proof.
  unfold admit_record. destruct (closed s) eqn:Ec; [done|].
  destruct (Z.leb_spec (max_pending s) (pending s)); [done|]. intros [= <- <-]. by split_and!.
Qed.

Lemma admit_raise r t s e s' : admit_record r t s = (Raise e, s') -> s' = s.
Proof. unfold admit_record. destruct (closed s); [by intros [= _ <-]|]. destruct (_ <=? _); by intros [= _ <-]. Qed.

Lemma attach_same o r s s' : attach_owner o s = (r, s') ->
  buffer s' = buffer s /\ in_flight_count s' = in_flight_count s /\ max_pending s' = max_pending s /\
  closed s' = closed s.
Proof. unfold attach_owner. repeat case_match; intros [= _ <-]; done. Qed.

Lemma inv_same y s' : inv y -> buffer s' = buffer (st y) ->
  in_flight_count s' = in_flight_count (st y) -> max_pending s' = max_pending (st y) ->
  inv (Sys s' (flushing y) (persisted y) (accepted y)).
Proof.
  intros [H1 H2 H3] Hb Hf Hm. unfold pending in H3.
  split; cbn; rewrite ?Hb, ?Hf; auto. unfold pending. by rewrite Hb, Hf, Hm.
Qed.

Lemma store_inv_step y y' : inv y -> step y y' -> inv y'.
Proof.
  intros Hi Hst. destruct Hst as
    [s f p a r t z s' E|s f p a r t e s' E|s f p a o r s' E|s f p a|s f p a|s f p a b|s p a
    |s p a r tail s' E|s p a r tail t d s' E|s p a];
    try (by apply (inv_same _ _ Hi)).
  - destruct Hi as [H1 H2 H3]. cbn in *. destruct (admit_ok _ _ _ _ _ E) as (_ & Hp & Hb & Hf & Hm & _).
    split; cbn; [by rewrite Hf| |].
    + rewrite Hb, <- H2. by rewrite !app_assoc.
    + unfold pending in *. rewrite Hb, Hf, Hm, length_app. cbn. lia.
  - apply admit_raise in E as ->. done.
  - destruct (attach_same _ _ _ _ E) as (? & ? & ? & _). by apply (inv_same _ _ Hi).
  - destruct Hi as [H1 H2 H3]. unfold pending in *. cbn in *. split; cbn; [lia|by rewrite app_nil_r|].
    unfold pending. cbn. lia.
  - destruct Hi as [H1 H2 H3]. unfold pending in *. cbn in *. unfold release_persisted_entry in E.
    destruct (in_flight_count s <=? 0); [done|]. injection E as <-.
    split; cbn; [lia|by rewrite <- app_assoc|]. unfold pending. cbn. lia.
  - destruct Hi as [H1 H2 H3]. unfold pending in *. cbn in *. unfold requeue_tail in E.
    destruct (_ <? _); [done|]. injection E as _ <-. cbn [length] in *.
    split; cbn; [lia|done|]. unfold pending. cbn. rewrite length_app. lia.
  - destruct Hi as [H1 H2 H3]. cbn in *. by split.
Qed.

Lemma store_inv_steps y y' : inv y -> rtc step y y' -> inv y'.
Proof. intros Hi Hr. induction Hr; eauto using store_inv_step. Qed.

(** The accounting guards of the two pieces a flush uses never fire. *)
Lemma accounting_ok s p a r tail t : inv (Sys s (Some (r :: tail)) p a) ->
  is_ok (fst (release_persisted_entry s)) = true /\ is_ok (fst (requeue_tail (r :: tail) t s)) = true.
Proof.
  intros [H1 _ _]. cbn in H1. unfold release_persisted_entry, requeue_tail. cbn [length].
  destruct (Z.leb_spec (in_flight_count s) 0); [lia|].
  destruct (Z.ltb_spec (in_flight_count s) (Z.of_nat (S (length tail)))); [lia|done].
Qed.

Lemma init_inv th age mp s : init th age mp = Ok s -> inv (Sys s None [] []).
Proof.
  unfold init. destruct th as [|n| |]; try done. destruct (Z.ltb_spec n 1); [done|].
  destruct (match mp with None => AInt (2 * n) | Some v => v end) as [|m| |]; try done.
  destruct (Z.ltb_spec m n); [done|]. destruct (match age with Some _ => _ | None => false end); [done|].
  intros [= <-]. split; [done|done|]. unfold pending. cbn. lia.
Qed.

(** ** The executable flush is a run of the interleaving *)
Section Refinement.
Context {W : Type} {WD : World W} {WL : WorldLaws W}.

Lemma others_steps s s' : rtc other s s' ->
  forall f p a, exists a', rtc step (Sys s f p a) (Sys s' f p a').
Proof.
  induction 1 as [s|s s1 s' Ho Hr IH]; intros f p a; [exists a; apply rtc_refl|].
  assert (Hs : exists a1, step (Sys s f p a) (Sys s1 f p a1)).
  { destruct Ho as [s r t o s1 E|s o r s1 E|s|s b].
    - destruct o as [z|e]; [exists (a ++ [r]); by eapply step_admit|exists a; by eapply step_refuse].
    - exists a. by eapply step_attach.
    - exists a. apply step_closed.
    - exists a. apply step_flusher. }
  destruct Hs as [a1 Hs]. destruct (IH f p a1) as [a' Hr']. exists a'. by eapply rtc_l.
Qed.

Lemma now_eq s (w : W) : now (s, w) = (Ok (fst (monotonic w)), (s, snd (monotonic w))).
Proof. unfold now. cbn. by destruct (monotonic w). Qed.

Lemma on_snd_eq {A} (m : M W A) (s : self) w : on_snd m (s, w) = (fst (m w), (s, snd (m w))).
Proof. cbn. by destruct (m w). Qed.

(** Putting a tail back, once the failure is known. *)
Lemma requeue_run s w r tail p a : inv (Sys s (Some (r :: tail)) p a) ->
  exists d s', on_fst (requeue_tail (r :: tail) (fst (monotonic w))) (s, w) = (Ok d, (s', w)) /\
    step (Sys s (Some (r :: tail)) p a) (Sys s' None p a).
Proof.
  intros Hi. destruct (accounting_ok _ _ _ _ _ (fst (monotonic w)) Hi) as [_ Hok]. cbn.
  destruct (requeue_tail (r :: tail) (fst (monotonic w)) s) as [[d|e] s'] eqn:E; [|done].
  exists d, s'. split; [done|]. by eapply step_requeue.
Qed.

Lemma emit_self depth s w : fst (snd (emit_buffer_depth depth (s, w))) = s.
Proof.
  unfold emit_buffer_depth. rewrite on_snd_eq.
  destruct (fst (on_buffer_depth depth w)) as [|e]; [done|]. by destruct (is_ordinary e).
Qed.

Lemma emit_confirms depth s w : confirmed (snd (snd (emit_buffer_depth depth (s, w)))) = confirmed w.
Proof.
  unfold emit_buffer_depth. rewrite on_snd_eq. rewrite <- (on_buffer_depth_confirms depth w).
  destruct (fst (on_buffer_depth depth w)) as [|e]; [done|]. by destruct (is_ordinary e).
Qed.

Definition finished (o : outcome unit) (batch rest : list record) (f : option (list record)) : Prop :=
  match o with Ok _ => rest = [] /\ f = Some [] | Raise _ => f = None end.

Lemma write_batch_run batch : forall s w o s' w' p a,
  inv (Sys s (Some batch) p a) -> write_batch batch (s, w) = (o, (s', w')) ->
  exists f done rest a', rtc step (Sys s (Some batch) p a) (Sys s' f (p ++ done) a') /\
    batch = done ++ rest /\ finished o batch rest f /\ confirmed w' = confirmed w ++ done.
Proof.
  induction batch as [|r tail IH]; intros s w o s' w' p a Hi E; cbn [write_batch] in E.
  - injection E as <- <- <-. exists (Some []), [], [], a. rewrite !app_nil_r.
    split; [apply rtc_refl|]. by split_and!.
  - destruct (backend_store r (s, w)) as [ob [s1 w1]] eqn:Eb.
    destruct (others_steps _ _ (backend_store_others _ _ _ _ _ _ Eb) (Some (r :: tail)) p a) as [a1 H1].
    pose proof (store_inv_steps _ _ Hi H1) as Hi1.
    pose proof (backend_store_confirms _ _ _ _ _ _ Eb) as Hc. destruct ob as [[]|e].
    + destruct (accounting_ok _ _ _ _ _ fzero Hi1) as [Hrel _]. unfold bind at 1 in E. cbn [on_fst] in E.
      destruct (release_persisted_entry s1) as [[[]|?] s2] eqn:Er; [|done].
      pose proof (step_persist s1 p a1 r tail s2 Er) as H2.
      assert (H12 : rtc step (Sys s (Some (r :: tail)) p a) (Sys s2 (Some tail) (p ++ [r]) a1))
        by (etrans; [exact H1|by apply rtc_once]).
      pose proof (store_inv_steps _ _ Hi H12) as Hi2.
      rewrite <- (on_store_confirms (r_key r) w1) in Hc.
      assert (Hgo : write_batch tail (s2, snd (on_store (r_key r) w1)) = (o, (s', w')) ->
        exists f done rest a', rtc step (Sys s (Some (r :: tail)) p a) (Sys s' f (p ++ done) a') /\
          r :: tail = done ++ rest /\ finished o (r :: tail) rest f /\
          confirmed w' = confirmed w ++ done).
      { intros E2. destruct (IH _ _ _ _ _ _ _ Hi2 E2) as (f & dn & rest & a' & H3 & -> & Hfin & Hc3).
        exists f, (r :: dn), rest, a'. rewrite <- app_assoc in H3.
        split; [by etrans|]. split; [done|]. split; [done|]. by rewrite Hc3, Hc, <- app_assoc. }
      rewrite on_snd_eq in E. destruct (fst (on_store (r_key r) w1)) as [[]|e]; [by apply (Hgo E)|].
      destruct (is_ordinary e); [by apply (Hgo E)|]. destruct tail as [|r2 tail].
      * injection E as <- <- <-. exists None, [r], [], a1.
        split; [|by split_and!]. etrans; [exact H12|]. apply rtc_once, step_done.
      * unfold bind at 1 in E. rewrite now_eq in E. unfold bind at 1 in E.
        destruct (requeue_run s2 (snd (on_store (r_key r) w1)) r2 tail (p ++ [r]) a1 Hi2) as (d & s3 & Eq & H3).
        cbn [on_fst] in Eq, E.
        destruct (requeue_tail (r2 :: tail) _ s2) as [od s3'] eqn:Eq'. injection Eq as -> ->.
        injection E as <- <- <-. exists None, [r], (r2 :: tail), a1. rewrite monotonic_confirms.
        split; [|by split_and!]. etrans; [exact H12|]. by apply rtc_once.
    + unfold bind at 1 in E. rewrite now_eq in E. unfold bind at 1 in E.
      destruct (requeue_run s1 w1 r tail p a1 Hi1) as (d & s2 & Eq & H2).
      cbn [on_fst] in Eq, E.
      destruct (requeue_tail (r :: tail) _ s1) as [od s2'] eqn:Eq'. injection Eq as -> ->.
      unfold bind at 1, quietly at 1 in E.
      destruct (emit_buffer_depth d (s2, snd (monotonic w1))) as [oe [s3 w3]] eqn:Ee.
      pose proof (emit_self d s2 (snd (monotonic w1))) as Hs. rewrite Ee in Hs. cbn in Hs. subst s3.
      pose proof (emit_confirms d s2 (snd (monotonic w1))) as Hw. rewrite Ee, monotonic_confirms in Hw.
      injection E as <- <- <-. exists None, [], (r :: tail), a1. rewrite !app_nil_r in *.
      split; [|split_and!; try done; cbn in Hw; congruence]. etrans; [exact H1|]. by apply rtc_once.
Qed.

(** A flush, from an idle lock back to an idle lock. *)
Lemma flush_run s w o s' w' p a :
  inv (Sys s None p a) -> flush_serialized (s, w) = (o, (s', w')) ->
  exists done rest a', rtc step (Sys s None p a) (Sys s' None (p ++ done) a') /\
    buffer s = done ++ rest /\ (o = Ok tt -> rest = []) /\
    inv (Sys s' None (p ++ done) a') /\ confirmed w' = confirmed w ++ done.
Proof.
  intros Hi E. unfold flush_serialized in E. cbn [detach] in E.
  set (batch := buffer s) in *. set (s1 := with_buffer s [] _ None) in E.
  pose proof (step_detach s p a) as H0. cbn [detach fst snd] in H0. fold batch s1 in H0.
  pose proof (store_inv_step _ _ Hi H0) as Hi0. unfold bind at 1 in E.
  destruct (write_batch batch (s1, w)) as [ob [s2 w2]] eqn:Eb.
  destruct (write_batch_run _ _ _ _ _ _ _ _ Hi0 Eb) as (f & dn & rest & a' & H1 & Hb & Hfin & Hc).
  assert (H2 : rtc step (Sys s None p a) (Sys s2 None (p ++ dn) a')).
  { etrans; [by apply rtc_once|]. etrans; [exact H1|]. destruct ob as [[]|e]; cbn in Hfin.
    - destruct Hfin as [_ ->]. apply rtc_once, step_done.
    - subst f. apply rtc_refl. }
  assert (Es : s' = s2 /\ (o = Ok tt -> rest = []) /\ confirmed w' = confirmed w2).
  { destruct ob as [[]|e]; [|by injection E as <- <- <-]. destruct Hfin as [-> _].
    destruct batch as [|r0 batch]; [by injection E as <- <- <-|].
    unfold bind at 1 in E. cbn [on_fst get] in E.
    pose proof (emit_self (pending s2) s2 w2) as Hs.
    pose proof (emit_confirms (pending s2) s2 w2) as Hw. rewrite E in Hs, Hw. by cbn in Hs, Hw. }
  destruct Es as (-> & Hr & Hw). exists dn, rest, a'. split; [exact H2|]. split; [exact Hb|].
  split; [exact Hr|]. split; [by apply (store_inv_steps _ _ Hi)|]. by rewrite Hw.
Qed.

Lemma steps_grow y y' : rtc step y y' ->
  (exists n, accepted y' = accepted y ++ n) /\ (closed (st y) = true -> closed (st y') = true).
Proof.
  induction 1 as [y|y y1 y' Hst Hr [[n1 IH1] IH2]]; [split; [exists []; by rewrite app_nil_r|done]|].
  assert (H1 : (exists n, accepted y1 = accepted y ++ n) /\ (closed (st y) = true -> closed (st y1) = true)).
  { destruct Hst as [s f p a r t z s' E|s f p a r t e s' E|s f p a o r s' E|s f p a|s f p a|s f p a b|s p a
      |s p a r tail s' E|s p a r tail t d s' E|s p a]; cbn.
    - split; [by exists [r]|]. destruct (admit_ok _ _ _ _ _ E) as (? & _ & _ & _ & _ & ->). congruence.
    - apply admit_raise in E as ->. split; [exists []; by rewrite app_nil_r|done].
    - destruct (attach_same _ _ _ _ E) as (_ & _ & _ & ->). split; [exists []; by rewrite app_nil_r|done].
    - split; [exists []; by rewrite app_nil_r|done].
    - split; [exists []; by rewrite app_nil_r|done].
    - split; [exists []; by rewrite app_nil_r|done].
    - split; [exists []; by rewrite app_nil_r|done].
    - split; [exists []; by rewrite app_nil_r|]. unfold release_persisted_entry in E.
      destruct (_ <=? _); [done|]. by injection E as <-.
    - split; [exists []; by rewrite app_nil_r|]. unfold requeue_tail in E.
      destruct (_ <? _); [done|]. by injection E as _ <-.
    - split; [exists []; by rewrite app_nil_r|done]. }
  destruct H1 as [[n H1] H2]. split; [|auto]. exists (n ++ n1). by rewrite IH1, H1, app_assoc.
Qed.

Lemma final_drain_run s w o s' w' p a :
  inv (Sys s None p a) -> final_drain (s, w) = (o, (s', w')) ->
  exists p' a', rtc step (Sys s None p a) (Sys s' None p' a') /\ inv (Sys s' None p' a').
Proof.
  intros Hi E. unfold final_drain in E.
  destruct (flush_serialized (s, w)) as [o1 [s1 w1]] eqn:E1.
  destruct (flush_run _ _ _ _ _ _ _ Hi E1) as (d & rest & a1 & H1 & _ & _ & Hi1 & _).
  assert (Hstop : (o1, (s1, w1)) = (o, (s', w')) ->
    exists p' a', rtc step (Sys s None p a) (Sys s' None p' a') /\ inv (Sys s' None p' a')).
  { intros [= _ <- _]. by exists (p ++ d), a1. }
  destruct o1 as [[]|e]; [by apply Hstop|]. destruct (is_ordinary e); [|by apply Hstop].
  destruct (buffer s1); [by apply Hstop|].
  destruct (flush_run _ _ _ _ _ _ _ Hi1 E) as (d2 & rest2 & a2 & H2 & _ & _ & Hi2 & _).
  exists ((p ++ d) ++ d2), a2. split; [by etrans|done].
Qed.

(** C5. Records are neither lost, duplicated nor reordered: in every interleaving,
    what was accepted is, in order, what was acknowledged by the backends, what
    the running flush still holds, and what waits in the buffer; the outstanding
    records never exceed [max_pending]; and the accounting guards of the flush
    never fire. *)
Theorem records_conserved y th age mp s0 (Hinit : init th age mp = Ok s0)
    (Hreach : rtc step (Sys s0 None [] []) y) :
  persisted y ++ default [] (flushing y) ++ buffer (st y) = accepted y /\
  0 <= pending (st y) <= max_pending (st y) /\
  (forall r tail t, flushing y = Some (r :: tail) ->
     is_ok (fst (release_persisted_entry (st y))) = true /\
     is_ok (fst (requeue_tail (r :: tail) t (st y))) = true).
Proof.
  pose proof (store_inv_steps _ _ (init_inv _ _ _ _ Hinit) Hreach) as Hi. pose proof Hi as [H1 H2 H3].
  split; [done|]. split; [unfold pending in *; lia|]. intros r tail t Hf.
  destruct y as [s f p a]. cbn in *. subst f. by apply (accounting_ok s p a).
Qed.

(** C6. The executable flush refines the interleaving, whatever other threads do
    during its backend calls: it writes a prefix [done] of the buffered records
    in order, and these are exactly the records whose store the backends
    confirmed during the flush; when it returns, all of them; when it raises, the
    rest is back in the buffer ahead of newer records, and the accounting is
    intact. *)
Theorem flush_refines s w o s' w' p a
    (Hinv : inv (Sys s None p a)) (Hflush : flush_serialized (s, w) = (o, (s', w'))) :
  exists done rest newer, rtc step (Sys s None p a) (Sys s' None (p ++ done) (a ++ newer)) /\
    buffer s = done ++ rest /\ buffer s' = rest ++ newer /\ in_flight_count s' = 0 /\
    confirmed w' = confirmed w ++ done /\ (o = Ok tt -> rest = []).
Proof.
  destruct (flush_run _ _ _ _ _ _ _ Hinv Hflush) as (dn & rest & a' & H1 & H2 & H3 & [I1 I2 I3] & Hc).
  destruct Hinv as [J1 J2 J3]. cbn in *. rewrite H2 in J2.
  destruct (steps_grow _ _ H1) as [[n Hn] _]. cbn in Hn. rewrite Hn in H1. rewrite Hn in I2.
  exists dn, rest, n. split; [exact H1|]. split; [done|]. split; [|by split_and!].
  rewrite <- J2, <- !app_assoc in I2. by do 2 apply app_inv_head in I2.
Qed.

(** A returning [close] is a durability barrier: nothing is outstanding, every
    accepted record has been acknowledged by its backend in order, and the
    strategy refuses further records. *)
Theorem close_is_barrier s w s' w' p a
    (Hinv : inv (Sys s None p a)) (Hclose : close (s, w) = (Ok tt, (s', w'))) :
  exists a', rtc step (Sys s None p a) (Sys s' None a' a') /\ pending s' = 0 /\ buffer s' = [] /\
    closed s' = true /\ owner s' = None /\
    forall r t, admit_record r t s' = (Raise ERuntime, s').
Proof.
  unfold close, boundary in Hclose.
  destruct (close_body (s, w)) as [[[]|e] [s1 w1]] eqn:E; [|by destruct e].
  injection Hclose as -> ->. unfold close_body in E.
  destruct (if flusher (with_closed s) then _ else _) as [e1 w2].
  destruct (acquire_until_deadline w2) as [[acquired interrupted] w3].
  set (e1' := match e1 with None => interrupted | e => e end) in E.
  assert (Hno : forall e x, first_error e (Raise x) <> None) by (by intros [|]).
  destruct acquired.
  - destruct (final_drain (with_closed s, w3)) as [o [s2 w4]] eqn:Ed.
    assert (Hc : inv (Sys (with_closed s) None p a)) by by apply (inv_same _ _ Hinv).
    destruct (final_drain_run _ _ _ _ _ _ _ Hc Ed) as (p' & a' & Hr & [I1 I2 I3]).
    destruct (if flusher s2 then _ else _) as [alive w5].
    destruct (negb (pending s2 =? 0) || alive) eqn:Ep.
    + destruct (first_error _ (Raise _)) eqn:Ef; [done|]. by apply Hno in Ef.
    + apply orb_false_iff in Ep as [Ep%negb_false_iff%Z.eqb_eq _].
      destruct (first_error e1' o); [done|]. injection E as <- <-.
      cbn in I1, I2. unfold pending in Ep. rewrite I1 in Ep. cbn in Ep.
      destruct (buffer s2) as [|r l] eqn:Eb; [|cbn in Ep; lia]. rewrite app_nil_r in I2. subst p'.
      destruct (steps_grow _ _ Hr) as [_ Hcl]. cbn in Hcl. specialize (Hcl eq_refl).
      exists a'. split; [|split_and!; cbn; try done].
      * eapply rtc_l; [apply step_closed|]. etrans; [exact Hr|]. apply rtc_once, step_released.
      * unfold pending. cbn. rewrite Eb, I1. done.
      * intros r t. unfold admit_record. cbn. by rewrite Hcl.
  - destruct (if flusher (with_closed s) then _ else _) as [alive w5].
    destruct (negb _ || alive); destruct (first_error e1' _) eqn:Ef; try done; by apply Hno in Ef.
Qed.

(** Admission is all or nothing: a closed or full strategy refuses without
    touching anything, before any flush is considered; otherwise the record goes
    to the end of the buffer under the bound. *)
Theorem admission_bounded r t s o s' (Hadmit : admit_record r t s = (o, s')) :
  match o with
  | Raise e => s' = s /\ (closed s = true /\ e = ERuntime \/
                          closed s = false /\ max_pending s <= pending s /\ e = EBackpressure)
  | Ok (depth, flush_now) =>
      closed s = false /\ pending s < max_pending s /\ buffer s' = buffer s ++ [r] /\
      depth = pending s + 1 /\ pending s' = depth /\
      (flush_now = true <-> threshold s <= Z.of_nat (length (buffer s')))
  end.
Proof.
  destruct o as [[depth now_]|e].
  - destruct (admit_ok _ _ _ _ _ Hadmit) as (H1 & H2 & H3 & H4 & _). unfold admit_record in Hadmit.
    rewrite H1 in Hadmit. destruct (Z.leb_spec (max_pending s) (pending s)); [lia|].
    injection Hadmit as <- <- <-. unfold pending in *. cbn in *. rewrite length_app in *. cbn.
    rewrite Z.leb_le. split_and!; try done; lia.
  - pose proof (admit_raise _ _ _ _ _ Hadmit) as ->. split; [done|]. unfold admit_record in Hadmit.
    destruct (closed s); [injection Hadmit as <-; by left|]. right.
    destruct (Z.leb_spec (max_pending s) (pending s)); [|done]. by injection Hadmit as <-.
Qed.
End Refinement.

(** ** Examples *)
Module Examples.
(** A scripted world: each backend call fails or not, and meanwhile another
    thread stores a record or does not; with it the log of confirmed records. *)
Definition script : Type := list (option exn * option record) * list record.

Definition arrive (o : option record) (s : self) : self :=
  match o with Some r => snd (admit_record r fzero s) | None => s end.

#[local] Instance world : World script := {|
  backend_store := fun r '(s, (w, log)) =>
    match w with
    | [] => (Ok tt, (s, ([], log ++ [r])))
    | (None, x) :: w' => (Ok tt, (arrive x s, (w', log ++ [r])))
    | (Some e, x) :: w' => (Raise e, (arrive x s, (w', log)))
    end;
  on_store := fun _ => ret tt;
  on_buffer_depth := fun _ => ret tt;
  monotonic := fun w => (fzero, w);
  acquire_flush_lock := ret true;
  start_flusher := ret tt;
  join_flusher := ret tt;
  acquire_until_deadline := fun w => (true, None, w);
  flusher_alive := fun w => (false, w)
|}.

#[local] Instance world_laws : WorldLaws script.
Proof.
  refine {| confirmed := snd |}; [| |done..]; intros r s [w log] o s' w' E; cbn in E.
  - assert (Ha : forall x, rtc other s (arrive x s)).
    { intros [x|]; [|apply rtc_refl]. cbn. destruct (admit_record x fzero s) as [z s1] eqn:Ea.
      apply rtc_once. by eapply other_admit. }
    destruct w as [|[ [e|] x] w]; injection E as _ <- _; [apply rtc_refl|apply Ha..].
  - destruct w as [|[ [e|] x] w]; injection E as <- _ <-; cbn; by rewrite ?app_nil_r.
Defined.

Definition rec (n : nat) : record := Rec 0 "k" (repeat x61 n) None.
Definition two : self := Self 2 None 4 [rec 1; rec 2] 0 false (Some 7%nat) (Some fzero) false.

Lemma two_inv : inv (Sys two None [] [rec 1; rec 2]).
Proof. split; [done|done|]. by vm_compute. Qed.

(** The second write fails while a third record arrives: the tail goes back in
    front of it. *)
Definition failing : script := ([(None, None); (Some EConnection, Some (rec 3))], []).

Lemma flush_refines_witness :
  let '(o, (s', w')) := flush_serialized (two, failing) in
  o = Raise EConnection /\ buffer s' = [rec 2; rec 3] /\ in_flight_count s' = 0 /\
  confirmed w' = [rec 1].
Proof.
  assert (E : flush_serialized (two, failing) =
    (Raise EConnection, (fst (snd (flush_serialized (two, failing))),
                         snd (snd (flush_serialized (two, failing)))))) by by vm_compute.
  destruct (flush_refines _ _ _ _ _ _ _ two_inv E) as (d & r & n & _ & _ & _ & Hz & _).
  rewrite E. split; [reflexivity|]. split; [by vm_compute|]. split; [exact Hz|by vm_compute].
Defined.

Lemma close_is_barrier_witness :
  exists s' w' a', close (two, failing) = (Ok tt, (s', w')) /\ pending s' = 0 /\
    rtc step (Sys two None [] [rec 1; rec 2]) (Sys s' None a' a').
Proof.
  assert (E : close (two, failing) = (Ok tt, (fst (snd (close (two, failing))),
                                             snd (snd (close (two, failing))))) ) by by vm_compute.
  destruct (close_is_barrier _ _ _ _ _ _ two_inv E) as (a' & H1 & H2 & _).
  exists (fst (snd (close (two, failing)))), (snd (snd (close (two, failing)))), a'.
  split; [exact E|]. split; [exact H2|exact H1].
Defined.

Lemma records_conserved_witness :
  exists y, rtc step (Sys (Self 2 None 4 [] 0 false None None false) None [] []) y /\
    persisted y ++ default [] (flushing y) ++ buffer (st y) = [rec 1; rec 2].
Proof.
  assert (Hr : rtc step (Sys (Self 2 None 4 [] 0 false None None false) None [] [])
    (Sys (Self 2 None 4 [] 1 false None None false) (Some [rec 2]) [rec 1] [rec 1; rec 2])).
  { eapply rtc_l; [eapply (step_admit _ _ _ [] (rec 1) fzero); by vm_compute|].
    eapply rtc_l; [eapply (step_admit _ _ _ [rec 1] (rec 2) fzero); by vm_compute|].
    eapply rtc_l; [apply step_detach|].
    eapply rtc_l; [eapply step_persist; by vm_compute|]. apply rtc_refl. }
  assert (Hi : init (AInt 2) None None = Ok (Self 2 None 4 [] 0 false None None false)) by by vm_compute.
  eexists. split; [exact Hr|].
  exact (proj1 (records_conserved _ _ _ _ _ Hi Hr)).
Defined.

Lemma admission_bounded_witness :
  fst (admit_record (rec 3) fzero two) = Ok (3, true) /\
  buffer (snd (admit_record (rec 3) fzero two)) = [rec 1; rec 2; rec 3].
Proof.
  assert (E : admit_record (rec 3) fzero two = (Ok (3, true), snd (admit_record (rec 3) fzero two))) by by vm_compute.
  split; [by rewrite E|].
  destruct (admission_bounded (rec 3) fzero two _ _ E) as (_ & _ & H & _). exact H.
Defined.
End Examples.
End Batched.

(** ** factory.py *)
Module StorageFactory.
Inductive StorageStrategyType := PASSTHROUGH | BATCHED.

(** [StorageStrategyType(name)]. *)
Definition strategy_type (name : string) : outcome StorageStrategyType :=
  if bool_decide (name = "passthrough") then Ok PASSTHROUGH
  else if bool_decide (name = "batched") then Ok BATCHED
  else Raise EValue.

Record options := Options {
  threshold : option Z; max_pending : option Z; max_buffer_age_s : option float
}.

Inductive built := BPassthrough | BBatched (s : Batched.self).

(** [parse_int_setting] on an integer, with its minimum. *)
Definition parse_int_setting (value minimum : Z) : outcome Z :=
  if value <? minimum then Raise EConfiguration else Ok value.

Definition create_storage_strategy (name : string) (o : options) : outcome built :=
  match strategy_type name with
  | Raise _ => Raise EConfiguration
  | Ok PASSTHROUGH => Ok BPassthrough
  | Ok BATCHED =>
      obind (parse_int_setting (default Batched.DEFAULT_BATCH_THRESHOLD (threshold o)) 1) (fun th =>
      obind (match max_pending o with
             | None => Ok None
             | Some m => omap Some (parse_int_setting m th)
             end) (fun mp =>
      omap BBatched (Batched.init (AInt th) (max_buffer_age_s o) (option_map AInt mp))))
  end.
End StorageFactory.
