(* ===== verification/DupeFilter.v ===== *)
(** * The duplicate filter

    dupefilter/dupefilter.py: [BackendDupeFilter] over any membership filter.
    A request is checked either through Scrapy's boolean protocol
    ([request_seen], whose marker is written at once and compensated by
    [forget] when the queue push fails) or transactionally
    ([request_seen_with_reservation], whose marker is written by the commit
    that follows a durable push).  Every method is a program of atomic
    sections (Conc): one section per critical section of the lifecycle lock,
    one per call of the membership filter.

    Requests, owner tokens, receipts and reservations are Python objects
    compared by identity: numbers here.  A fingerprint that was computed is its
    encoded bytes.  Telemetry (the monitor FIFO, the warnings) is not part of
    the state; asynchronous signals arrive in calls of the membership filter
    and in waits. *)

From S2P Require Export Drain Membership.

Module DupeFilter.
Definition DEFAULT_RETRY_ALLOWANCE_LIMIT : Z := 1024.
Definition DEFAULT_VOLATILE_MARKER_LIMIT : Z := 65536.

Inductive lifecycle := NEW | OPENING | OPEN | CLEARING | CLOSING | CLOSED.
#[export] Instance lifecycle_eq_dec : EqDecision lifecycle.
Proof. solve_decision. Defined.

(** [_DedupReservation]. *)
Record reservation := Reservation {
  res_id : nat; res_fingerprint : bytes; res_epoch : Z; res_owner : nat; res_request : nat
}.
#[export] Instance reservation_eq_dec : EqDecision reservation.
Proof. solve_decision. Defined.

(** [_LegacyReservation]. *)
Record receipt := Receipt {
  rc_id : nat; rc_fingerprint : bytes; rc_epoch : Z; rc_request : nat;
  rc_consumed : bool; rc_consumer : option nat; rc_settling : bool; rc_slot : bool
}.
#[export] Instance eta_receipt : Settable receipt := fun r =>
  Receipt (rc_id r) (rc_fingerprint r) (rc_epoch r) (rc_request r) (rc_consumed r) (rc_consumer r)
    (rc_settling r) (rc_slot r).
#[export] Instance receipt_eq_dec : EqDecision receipt.
Proof. solve_decision. Defined.

Inductive any_reservation := Transactional (r : reservation) | Legacy (r : receipt).

(** [_OperationLease] and [DedupDecision]. *)
Record lease := Lease { lease_epoch : Z; lease_thread : nat }.
Record decision := Decision {
  seen : bool; intent_of : option reservation; observational : bool
}.

(** ** The recovery ledger

    One retry allowance per fingerprint, oldest first, and the number of
    admission slots reserved for markers that are not settled yet. *)
Record ledger := Ledger {
  retry_allowances : list bytes; slots_reserved : Z; allowance_limit : Z; overflow_warned : bool
}.
#[export] Instance eta_ledger : Settable ledger := fun r =>
  Ledger (retry_allowances r) (slots_reserved r) (allowance_limit r) (overflow_warned r).

Definition ledger_size (L : ledger) : Z := Z.of_nat (length (retry_allowances L)) + slots_reserved L.

Definition reserve_retry_allowance_slot (L : ledger) : bool * ledger :=
  if allowance_limit L <=? ledger_size L then (false, L)
  else (true, L <| slots_reserved ::= Z.succ |>).

Definition note_retry_allowance_backpressure (L : ledger) : bool * ledger :=
  if overflow_warned L then (false, L) else (true, L <| overflow_warned := true |>).

Definition release_retry_allowance_slot (L : ledger) : ledger :=
  if slots_reserved L =? 0 then L else L <| slots_reserved ::= Z.pred |>.

(** [_grant_retry_allowance]; the caller clears the receipt's flag when the
    slot is converted. *)
Definition grant_retry_allowance (fp : bytes) (reserved_slot : bool) (L : ledger) : bool * ledger :=
  if bool_decide (fp ∈ retry_allowances L) then
    let L := L <| retry_allowances ::= MemoryFilter.move_to_end fp |> in
    (true, if reserved_slot then release_retry_allowance_slot L else L)
  else if reserved_slot then
    (true, release_retry_allowance_slot L <| retry_allowances ::= fun l => l ++ [fp] |>)
  else if allowance_limit L <=? ledger_size L then
    (false, if overflow_warned L then L else L <| overflow_warned := true |>)
  else (true, L <| retry_allowances ::= fun l => l ++ [fp] |>).

Definition consume_retry_allowance (fp : bytes) (L : ledger) : bool * ledger :=
  if bool_decide (fp ∈ retry_allowances L) then
    (true, L <| retry_allowances ::= MemoryFilter.drop_item fp |> <| slots_reserved ::= Z.succ |>)
  else (false, L).

(** ** The receipt tables

    A dictionary of per-request FIFOs whose empty entries are removed is the
    list of its receipts: the FIFO of a request is the sublist of its entries.
    [legacy_add_intents] pairs requests with the identities of the pre-publish
    intents. *)
Record tables := Tables {
  active_reservations : gmap nat reservation;
  reservations_by_owner : gmap nat reservation;
  legacy_reservations : list receipt;
  legacy_handoffs : list receipt;
  legacy_add_intents : list (nat * nat);
  pending_requests : gset nat;
  retired_requests : gset nat
}.
#[export] Instance eta_tables : Settable tables := fun r =>
  Tables (active_reservations r) (reservations_by_owner r) (legacy_reservations r)
    (legacy_handoffs r) (legacy_add_intents r) (pending_requests r) (retired_requests r).

Definition no_tables : tables := Tables ∅ ∅ [] [] [] ∅ ∅.

Definition all_receipts (T : tables) : list receipt := legacy_reservations T ++ legacy_handoffs T.

Definition is_receipt (i : nat) (rc : receipt) : bool := bool_decide (rc_id rc = i).

(** The current fields of a receipt object. *)
Definition deref (rc : receipt) (T : tables) : receipt :=
  default rc (List.find (is_receipt (rc_id rc)) (all_receipts T)).

Definition mutate (i : nat) (f : receipt -> receipt) (l : list receipt) : list receipt :=
  map (fun rc => if is_receipt i rc then f rc else rc) l.

(** [_remove_receipt_from_table_locked]: the first receipt with the identity. *)
Fixpoint remove_receipt (i : nat) (l : list receipt) : list receipt :=
  match l with
  | [] => []
  | rc :: l' => if is_receipt i rc then l' else rc :: remove_receipt i l'
  end.

Definition has_entry (r : nat) (l : list receipt) : bool :=
  existsb (fun rc => bool_decide (rc_request rc = r)) l.

(** [self._pending_reservations.discard(request)] when no entry is left. *)
Definition prune_pending (r : nat) (T : tables) : tables :=
  if has_entry r (legacy_reservations T) then T else T <| pending_requests ::= fun s => s ∖ {[r]} |>.

Definition discard_reservation (r : reservation) (T : tables) : tables :=
  let T := if bool_decide (active_reservations T !! res_id r = Some r)
           then T <| active_reservations ::= delete (res_id r) |> else T in
  if bool_decide (reservations_by_owner T !! res_owner r = Some r)
  then T <| reservations_by_owner ::= delete (res_owner r) |> else T.

(** [_legacy_reservation_for_request_locked] on one table. *)
Definition selectable (r : nat) (thread : option nat) (handoffs : bool) (rc : receipt) : bool :=
  bool_decide (rc_request rc = r) && negb (rc_settling rc) &&
  negb (bool_decide (is_Some thread) && handoffs &&
        negb (bool_decide (rc_consumer rc = None \/ rc_consumer rc = thread))).

Definition select_pending (r : nat) (T : tables) : option receipt :=
  List.find (selectable r None false) (legacy_reservations T).
Definition select_handoff (r t : nat) (T : tables) : option receipt :=
  List.find (selectable r (Some t) true) (legacy_handoffs T).

(** ** The filter object *)

(** Lifecycle transitions in progress and the release reservation. *)
Record transitions := Transitions {
  clear_in_progress : bool; transition_thread : option nat; close_requested : bool;
  opened_spider : option nat; open_owner : option nat;
  release_owner : option nat; release_aliases : list nat;
  release_in_progress : bool; release_thread : option nat;
  filter_released : bool; manager_released : bool
}.
#[export] Instance eta_transitions : Settable transitions := fun r =>
  Transitions (clear_in_progress r) (transition_thread r) (close_requested r) (opened_spider r)
    (open_owner r) (release_owner r) (release_aliases r) (release_in_progress r) (release_thread r)
    (filter_released r) (manager_released r).

(** The LRU shadow of volatile queues. *)
Record shadow := Shadow { fingerprints : list bytes; fingerprint_limit : Z; shadow_warned : bool }.
#[export] Instance eta_shadow : Settable shadow := fun r =>
  Shadow (fingerprints r) (fingerprint_limit r) (shadow_warned r).

Record self := Self {
  state : lifecycle; epoch : Z;
  active_operations : Z;
  active_operations_by_epoch : gmap Z Z;
  active_operation_threads : gmap nat Z;
  filter_lock : option (nat * nat);       (* owner and depth of the filter RLock *)
  filter_requests : gset nat;
  the_ledger : ledger; the_tables : tables; the_shadow : shadow;
  the_transitions : transitions;
  next_object : nat                       (* the next fresh object identity *)
}.
#[export] Instance eta_self : Settable self := fun r =>
  Self (state r) (epoch r) (active_operations r) (active_operations_by_epoch r)
    (active_operation_threads r) (filter_lock r) (filter_requests r) (the_ledger r) (the_tables r)
    (the_shadow r) (the_transitions r) (next_object r).

(** [direct_release_owner] is the object 0. *)
Definition direct_release_owner : nat := 0%nat.

Definition init : self :=
  Self NEW 0 0 ∅ ∅ None ∅ (Ledger [] 0 DEFAULT_RETRY_ALLOWANCE_LIMIT false) no_tables
    (Shadow [] DEFAULT_VOLATILE_MARKER_LIMIT false)
    (Transitions false None false None None None [] false None false false) 1%nat.

(** *** Admission *)
Inductive operation := RequestSeen | Commit | Rollback | Forget.
#[export] Instance operation_eq_dec : EqDecision operation.
Proof. solve_decision. Defined.
Definition operation_name (o : operation) : string :=
  match o with RequestSeen => "request_seen" | Commit => "commit"
             | Rollback => "rollback" | Forget => "forget" end.

Definition accepts (s : self) : bool := bool_decide (state s = NEW \/ state s = OPEN).

(** [_reservation_is_current_locked]. *)
Definition reservation_is_current (r : any_reservation) (s : self) : bool :=
  match r with
  | Transactional r => (res_epoch r =? epoch s) &&
      bool_decide (active_reservations (the_tables s) !! res_id r = Some r)
  | Legacy rc => (rc_epoch rc =? epoch s) &&
      existsb (is_receipt (rc_id rc)) (all_receipts (the_tables s))
  end.

(** [_remove_legacy_reservation_locked]. *)
Definition remove_legacy_reservation (rc : receipt) (s : self) : self :=
  let cur := deref rc (the_tables s) in
  let s := s <| the_tables ::= fun T =>
    prune_pending (rc_request rc)
      (T <| legacy_reservations ::= remove_receipt (rc_id rc) |>
         <| legacy_handoffs ::= remove_receipt (rc_id rc) |>) |> in
  if rc_slot cur then s <| the_ledger ::= release_retry_allowance_slot |> else s.

Definition discard_any_reservation (r : any_reservation) (s : self) : self :=
  match r with
  | Transactional r => s <| the_tables ::= discard_reservation r |>
  | Legacy rc => remove_legacy_reservation rc s
  end.

Definition enter_operation (e : Z) (t : nat) (s : self) : self :=
  s <| active_operations ::= Z.succ |>
    <| active_operations_by_epoch ::= fun m => <[e := default 0 (m !! e) + 1]> m |>
    <| active_operation_threads ::= fun m => <[t := default 0 (m !! t) + 1]> m |>.

(** The entry of [_admit_operation]. *)
Definition admit_operation (op : operation) (t : nat) (r : option any_reservation)
    : M self (option lease) := fun s =>
  match r with
  | None =>
      if accepts s then (Ok (Some (Lease (epoch s) t)), enter_operation (epoch s) t s)
      else (Raise (EQueue (operation_name op)), s)
  | Some r =>
      if negb (reservation_is_current r s) then (Ok None, s)
      else if negb (accepts s) && negb (bool_decide (op = Rollback)) then
        (Ok None, discard_any_reservation r s)
      else
        let e := match r with Transactional r => res_epoch r | Legacy rc => rc_epoch rc end in
        (Ok (Some (Lease e t)), enter_operation e t s)
  end.

Definition count_down {K} `{Countable K} (k : K) (m : gmap K Z) : gmap K Z :=
  let n := default 0 (m !! k) in if n <=? 1 then delete k m else <[k := n - 1]> m.

(** Its [finally] block. *)
Definition exit_operation (l : lease) (s : self) : self :=
  s <| active_operations ::= Z.pred |>
    <| active_operations_by_epoch ::= count_down (lease_epoch l) |>
    <| active_operation_threads ::= count_down (lease_thread l) |>.

(** The predicate of [_wait_for_quiescence_locked]. *)
Definition busy (include_reservations include_legacy : bool) (s : self) : bool :=
  negb (active_operations s =? 0) ||
  include_reservations &&
    (negb (bool_decide (active_reservations (the_tables s) = ∅)) ||
     include_legacy && negb (bool_decide (legacy_reservations (the_tables s) = []))).

Definition in_operation (t : nat) (s : self) : bool :=
  negb (default 0 (active_operation_threads s !! t) =? 0).

(** *** [_clear_retry_allowances] *)
Definition clear_retry_allowances (advance_epoch clear_reservations : bool) (s : self) : self :=
  let s := s <| the_ledger ::= fun L =>
    L <| retry_allowances := [] |> <| overflow_warned := false |> <| slots_reserved := 0 |> |> in
  let s := if clear_reservations then
    s <| the_tables ::= fun T =>
      Tables ∅ ∅ [] [] [] ∅ (retired_requests T ∪ list_to_set (map rc_request (all_receipts T))) |>
      <| the_shadow ::= fun V => V <| fingerprints := [] |> <| shadow_warned := false |> |>
    else s in
  if advance_epoch then s <| epoch ::= Z.succ |> else s.

(** *** Receipts *)

Definition fresh (s : self) : nat * self := (next_object s, s <| next_object ::= S |>).

(** [_new_legacy_reservation_locked]. *)
Definition new_legacy_reservation (r : nat) (fp : bytes) (slot : bool) (s : self) : self :=
  let '(i, s) := fresh s in
  s <| the_tables ::= fun T =>
    T <| legacy_reservations ::= fun l => l ++ [Receipt i fp (epoch s) r false None false slot] |>
      <| pending_requests ::= fun p => {[r]} ∪ p |> |>.

(** [_register_legacy_add_intent_locked]. *)
Definition register_legacy_add_intent (r : nat) (s : self) : nat * self :=
  let '(i, s) := fresh s in
  (i, s <| the_tables ::= fun T => T <| legacy_add_intents ::= fun l => l ++ [(r, i)] |> |>).

Definition drop_intent (r i : nat) (l : list (nat * nat)) : list (nat * nat) :=
  filter (fun x => x <> (r, i)) l.

(** [consume_reservation]. *)
Definition consume_reservation (t r : nat) : M self bool := fun s =>
  let T := the_tables s in
  if negb (bool_decide (r ∈ pending_requests T)) then (Ok false, s)
  else
    match select_pending r T with
    | Some rc =>
        if rc_epoch rc =? epoch s then
          let rc' := rc <| rc_consumed := true |> <| rc_consumer := Some t |> in
          (Ok true, s <| the_tables := prune_pending r
            (T <| legacy_reservations ::= remove_receipt (rc_id rc) |>
               <| retired_requests ::= fun x => x ∖ {[r]} |>
               <| legacy_handoffs ::= fun l => l ++ [rc'] |>) |>)
        else (Ok false, s <| the_tables ::= prune_pending r |>)
    | None => (Ok false, s <| the_tables ::= prune_pending r |>)
    end.

(** [settle_reservation]. *)
Definition settle_reservation (t r : nat) : M self bool := fun s =>
  match select_handoff r t (the_tables s) with
  | Some rc => if rc_epoch rc =? epoch s then (Ok true, remove_legacy_reservation rc s) else (Ok false, s)
  | None => (Ok false, s)
  end.

(** [_legacy_request_collected]: the weak-reference callback. *)
Definition legacy_request_collected (r : nat) (s : self) : self :=
  let gone := fun rc => bool_decide (rc_request rc = r) in
  let T := the_tables s in
  let freed := length (List.filter (fun rc => gone rc && rc_slot rc) (all_receipts T)) in
  s <| the_tables := T <| legacy_reservations ::= List.filter (fun rc => negb (gone rc)) |>
                       <| legacy_handoffs ::= List.filter (fun rc => negb (gone rc)) |>
                       <| pending_requests ::= fun p => p ∖ {[r]} |>
                       <| retired_requests ::= fun p => p ∖ {[r]} |> |>
    <| the_ledger ::= fun L => Nat.iter freed release_retry_allowance_slot L |>.

(** The selection of [forget]. *)
Definition forget_select (t r : nat) : M self (option receipt) := fun s =>
  let T := the_tables s in
  if bool_decide (state s = CLOSED) then (Raise ERuntime, s)
  else
    let mark rc :=
      if rc_epoch rc =? epoch s then
        let settle := mutate (rc_id rc) (fun rc => rc <| rc_settling := true |>) in
        (Ok (Some (rc <| rc_settling := true |>)),
         s <| the_tables := T <| legacy_reservations ::= settle |> <| legacy_handoffs ::= settle |> |>)
      else (Ok None, s) in
    match select_handoff r t T with
    | Some rc => mark rc
    | None =>
        if bool_decide (r ∈ retired_requests T) then (Ok None, s)
        else match select_pending r T with Some rc => mark rc | None => (Ok None, s) end
    end.

(** [_grant_retry_allowance] for a receipt: converting its slot clears its flag. *)
Definition grant_for_receipt (rc : receipt) (s : self) : self :=
  let slot := rc_slot (deref rc (the_tables s)) in
  let s := s <| the_ledger ::= fun L => snd (grant_retry_allowance (rc_fingerprint rc) slot L) |> in
  if slot then
    let unflag := mutate (rc_id rc) (fun rc => rc <| rc_slot := false |>) in
    s <| the_tables ::= fun T => T <| legacy_reservations ::= unflag |> <| legacy_handoffs ::= unflag |> |>
  else s.

(** [commit_volatile_reservation]'s LRU insertion. *)
Definition shadow_insert (fp : bytes) (V : shadow) : shadow :=
  if bool_decide (fp ∈ fingerprints V) then V <| fingerprints ::= MemoryFilter.move_to_end fp |>
  else
    let V := if fingerprint_limit V <=? Z.of_nat (length (fingerprints V))
             then V <| fingerprints ::= fun l => tl l |> <| shadow_warned := true |> else V in
    V <| fingerprints ::= fun l => l ++ [fp] |>.

(** ** The methods *)

(** What a thread is in the middle of, for the statements about interleavings:
    the admission slot its invocation's intent owns ([intent.slot_reserved],
    with the epoch it was reserved in), its admitted operation, the receipt it
    settles, its lifecycle transition, and whether the compensation of its
    interruption left the slot to somebody else: to a pending receipt of the
    same request, or to a lifecycle boundary that had removed the intent. *)
Inductive admission := Outside | Settling | Busy (e : Z).
Inductive phase := Idle | Waiting | Drained | Opened.
Record local := Local {
  slot_owed : option Z; admitted : admission; marked : option nat; in_phase : phase;
  handed_over : bool
}.
#[export] Instance eta_local : Settable local := fun r =>
  Local (slot_owed r) (admitted r) (marked r) (in_phase r) (handed_over r).
Definition thread_start : local := Local None Outside None Idle false.

Inductive added_state := Added | Allowance.

(** Transient failures of the membership backend. *)
Definition transient (e : exn) : bool :=
  match e with EConnection | EBreakerOpen => true | _ => false end.
Definition filter_full (e : exn) : bool := match e with EFilterFull => true | _ => false end.
Definition unsupported (e : exn) : bool := match e with ENotImplemented => true | _ => false end.

Section Methods.
Context {F : Type} `{MembershipFilter F}.
(** The configured fingerprinter and what the lifecycle calls around the
    filter: the validation and resolution of a spider's key, the filter's own
    [open] and [close], the release of an owned connection manager, the drain
    timeout. *)
Context (fingerprint : nat -> outcome bytes) (resolve_spider_key : nat -> outcome unit)
  (filter_open filter_close : M F unit) (manager_close : option (M F unit))
  (clear_on_open : bool) (drain_timeout_s : float).

Definition shared : Type := self * F.
Abbreviation method := (prog local shared).

Definition on_self {A} (m : M self A) : M (local * shared) A := on_shared (on_fst m).
Definition on_filter {A} (m : M F A) : M (local * shared) A := on_shared (on_snd m).
Definition note (f : local -> local) : M (local * shared) unit := on_local (modify f).
Definition pure {A} (f : self -> A * self) : M self A := fun s => let '(a, s) := f s in (Ok a, s).

Definition in_ledger (f : ledger -> bool * ledger) : M self bool :=
  pure (fun s => let '(b, L) := f (the_ledger s) in (b, s <| the_ledger := L |>)).

(** *** Locks *)
Definition lock_free (t : nat) (s : self) : bool :=
  match filter_lock s with Some (o, _) => bool_decide (o = t) | None => true end.
Definition lock_filter (t : nat) (s : self) : self :=
  s <| filter_lock ::= fun k => Some (t, match k with Some (_, n) => S n | None => 1%nat end) |>.
Definition unlock_filter (s : self) : self :=
  s <| filter_lock ::= fun k => match k with Some (o, S (S n)) => Some (o, S n) | _ => None end |>.

Definition with_filter_lock {A} (t : nat) (body : method A) : method A :=
  let? _ := section_when (fun _ g => lock_free t (fst g)) (on_self (modify (lock_filter t))) in
  pfinally body (atomically (on_self (modify unlock_filter))).

(** [_filter_operation_scope]: [previous] is whether the request was marked. *)
Definition filter_operation_scope {A} (t r : nat) (body : method A) : method A :=
  with_filter_lock t (
    let? previous := atomically (on_self (pure (fun s =>
      (bool_decide (r ∈ filter_requests s), s <| filter_requests ::= fun x => {[r]} ∪ x |>)))) in
    pfinally body (atomically (on_self (modify (fun s =>
      if previous : bool then s else s <| filter_requests ::= fun x => x ∖ {[r]} |>))))).

(** *** [_admit_operation] *)
Definition note_admission (op : operation) (le : option lease) (l : local) : local :=
  match le with
  | Some le => l <| admitted := if decide (op = Rollback) then Settling else Busy (lease_epoch le) |>
  | None => l <| marked := None |>
  end.

Definition with_operation {A} (t : nat) (op : operation) (r : option any_reservation)
    (body : option lease -> method A) : method A :=
  let? le := atomically (let! le := on_self (admit_operation op t r) in
                         let! _ := note (note_admission op le) in ret le) in
  match le with
  | None => body None
  | Some l => pfinally (body le) (atomically (
      let! _ := on_self (modify (exit_operation l)) in
      note (fun l => l <| admitted := Outside |>)))
  end.

(** *** [_request_seen_unlocked] *)
Definition filter_add (fp : bytes) : method bool := atomically (on_filter (mf_add fp)).
Definition filter_contains (fp : bytes) : method bool := atomically (on_filter (mf_contains fp)).

Definition in_shadow (fp : bytes) (s : self) : bool := bool_decide (fp ∈ fingerprints (the_shadow s)).

(** A ledger step that may hand a slot to this invocation's intent. *)
Definition take_slot (f : ledger -> bool * ledger) : method bool :=
  atomically (let! e := on_self (peek epoch) in
              let! b := on_self (in_ledger f) in
              let! _ := note (fun l => if b : bool then l <| slot_owed := Some e |> else l) in ret b).

Definition release_slot : method unit :=
  atomically (let! _ := on_self (modify (fun s => s <| the_ledger ::= release_retry_allowance_slot |>)) in
              note (fun l => l <| slot_owed := None |>)).

(** [(seen, reservation_state, slot_reserved)]. *)
Definition request_seen_unlocked (fp : bytes) : method (bool * option added_state * bool) :=
  let? hit := atomically (on_self (peek (in_shadow fp))) in
  if hit : bool then pret (true, None, false) else
  let? allowed := take_slot (consume_retry_allowance fp) in
  if allowed : bool then pret (false, Some Allowance, true) else
  let? reserved := take_slot reserve_retry_allowance_slot in
  if negb reserved then
    let? _ := atomically (on_self (in_ledger note_retry_allowance_backpressure)) in
    ptry (filter_contains fp) (fun o =>
      match o with
      | Ok already_seen => pret (already_seen, None, false)
      | Raise e => if unsupported e then praise ERuntime
                   else if transient e then pret (false, None, false) else praise e
      end)
  else
    ptry (filter_add fp) (fun o =>
      match o with
      | Ok true => pret (false, Some Added, true)
      | Ok false => let? _ := release_slot in pret (true, None, false)
      | Raise e => if unsupported e then let? _ := release_slot in praise ERuntime
                   else if filter_full e || transient e then let? _ := release_slot in pret (false, None, false)
                   else praise e
      end).

(** *** [_request_seen_for_scheduler_unlocked] *)
Definition request_seen_for_scheduler_unlocked (fp : bytes) : method bool :=
  let? hit := atomically (on_self (peek (in_shadow fp))) in
  if hit : bool then pret true else
  ptry (filter_contains fp) (fun o =>
    match o with
    | Ok seen => pret seen
    | Raise e => if unsupported e then praise ERuntime
                 else if transient e then pret false else praise e
    end).

(** *** Compensation of interrupted decisions *)
(** [_compensate_interrupted_legacy_add_locked]; converting the slot ends the
    intent's claim, and the two early returns leave it to others. *)
Definition compensate_interrupted_legacy_add (r i : nat) (fp : bytes) : M (local * shared) unit :=
  let! s := on_self get in
  let! l := on_local get in
  let T := the_tables s in
  let known := existsb (fun x => bool_decide (x.1 = r)) (legacy_add_intents T) in
  if known && negb (bool_decide ((r, i) ∈ legacy_add_intents T))
  then note (fun l => l <| handed_over := true |>)
  else
    let! _ := on_self (modify (fun s =>
      s <| the_tables ::= fun T => T <| legacy_add_intents ::= drop_intent r i |> |>)) in
    match slot_owed l with
    | None => ret tt
    | Some _ =>
        let published := match select_pending r T with
                         | Some rc => bool_decide (rc_fingerprint rc = fp) && rc_slot rc
                         | None => false end in
        if published then note (fun l => l <| handed_over := true |>)
        else
          let! _ := on_self (modify (fun s =>
            s <| the_ledger ::= fun L => snd (grant_retry_allowance fp true L) |>)) in
          note (fun l => l <| slot_owed := None |>)
    end.

(** *** [_request_seen_decision] *)
Inductive started := Observed | Reserved (r : reservation) | Intended (i : nat).

(** The registration of the receipt or intent. *)
Definition register_decision (r : nat) (fp : bytes) (owner : option nat) (e : Z) : M self started := fun s =>
  if bool_decide (r ∈ filter_requests s) then (Ok Observed, s)
  else
    match owner with
    | Some w =>
        match reservations_by_owner (the_tables s) !! w with
        | Some _ => (Raise ERuntime, s)
        | None =>
            let '(i, s) := fresh s in
            let res := Reservation i fp e w r in
            (Ok (Reserved res), s <| the_tables ::= fun T =>
               T <| active_reservations ::= <[i := res]> |> <| reservations_by_owner ::= <[w := res]> |> |>)
        end
    | None => let '(i, s) := register_legacy_add_intent r s in (Ok (Intended i), s)
    end.

(** The final section of the boolean protocol. *)
Definition publish_legacy (r i : nat) (fp : bytes) (st : option added_state) (slot : bool)
    : M (local * shared) unit :=
  let! _ := on_self (modify (fun s =>
    let s := match st with Some _ => new_legacy_reservation r fp slot s | None => s end in
    s <| the_tables ::= fun T => T <| legacy_add_intents ::= drop_intent r i |> |>)) in
  note (fun l => l <| slot_owed := None |>).

(** [owner = None]: the boolean protocol.  Up to the registration there is
    nothing to compensate. *)
Definition request_seen_decision (t r : nat) (owner : option nat) : method decision :=
  with_operation t RequestSeen None (fun le =>
    match le with
    | None => praise EAssertion
    | Some le =>
        let? fp := Done (fingerprint r) in
        let? st := atomically (on_self (register_decision r fp owner (lease_epoch le))) in
        match st with
        | Observed => pret (Decision true None true)
        | Reserved res =>
            prescue
              (let? seen := filter_operation_scope t r (request_seen_for_scheduler_unlocked fp) in
               atomically (
                 if seen : bool then
                   let! _ := on_self (modify (discard_any_reservation (Transactional res))) in
                   ret (Decision true None false)
                 else ret (Decision false (Some res) false)))
              (atomically (on_self (modify (discard_any_reservation (Transactional res)))))
        | Intended i =>
            prescue
              (let? result := filter_operation_scope t r (request_seen_unlocked fp) in
               let '(seen, st, slot) := result in
               atomically (let! _ := publish_legacy r i fp st slot in ret (Decision seen None false)))
              (atomically (compensate_interrupted_legacy_add r i fp))
        end
    end).

Definition request_seen (t r : nat) : method bool :=
  let? d := request_seen_decision t r None in pret (seen d).

(** Without an owner a fresh token is used. *)
Definition request_seen_with_reservation (t r : nat) (owner : option nat) : method decision :=
  let? w := match owner with
            | Some w => pret w
            | None => atomically (on_self (pure fresh))
            end in
  request_seen_decision t r (Some w).

(** *** Settling a reservation *)
Definition commit_reservation (t : nat) (res : reservation) : method unit :=
  with_operation t Commit (Some (Transactional res)) (fun le =>
    match le with
    | None => pret tt
    | Some _ =>
        pfinally
          (filter_operation_scope t (res_request res)
             (ptry (filter_add (res_fingerprint res)) (fun o =>
                match o with
                | Ok _ => pret tt
                | Raise e => if filter_full e || transient e then pret tt else praise e
                end)))
          (atomically (on_self (modify (discard_any_reservation (Transactional res)))))
    end).

Definition commit_volatile_reservation (t : nat) (res : reservation) : method unit :=
  with_operation t Commit (Some (Transactional res)) (fun le =>
    match le with
    | None => pret tt
    | Some _ => atomically (on_self (modify (fun s =>
        discard_any_reservation (Transactional res)
          (s <| the_shadow ::= shadow_insert (res_fingerprint res) |>))))
    end).

Definition rollback_reservation (t : nat) (res : reservation) : method unit :=
  with_operation t Rollback (Some (Transactional res)) (fun le =>
    match le with
    | None => pret tt
    | Some _ => atomically (on_self (modify (discard_any_reservation (Transactional res))))
    end).

Definition rollback_reservation_intent (owner : nat) : method unit :=
  atomically (on_self (modify (fun s =>
    match reservations_by_owner (the_tables s) !! owner with
    | Some res => discard_any_reservation (Transactional res) s
    | None => s
    end))).

(** *** [forget] *)
Definition forget (t r : nat) : method unit :=
  let? sel := atomically (let! rc := on_self (forget_select t r) in
                          let! _ := note (fun l => l <| marked := fmap rc_id rc |>) in ret rc) in
  match sel with
  | None => pret tt
  | Some rc =>
      with_operation t Forget (Some (Legacy rc)) (fun le =>
        match le with
        | None => pret tt
        | Some _ =>
            ptry (filter_operation_scope t r
                    (ptry (atomically (on_filter (mf_remove (rc_fingerprint rc)))) (fun o =>
                       match o with
                       | Ok _ => pret false
                       | Raise e => if unsupported e || transient e then pret true else praise e
                       end)))
              (fun o =>
                 let retry_allowance_needed := match o with Ok b => b | Raise _ => true end in
                 let? _ := if retry_allowance_needed
                           then atomically (on_self (modify (grant_for_receipt rc))) else pret tt in
                 let? _ := atomically (let! _ := on_self (modify (remove_legacy_reservation rc)) in
                                       note (fun l => l <| marked := None |>)) in
                 Done (omap (fun _ => tt) o))
        end)
  end.

(** *** Lifecycle *)
Definition set_transitions (f : transitions -> transitions) (s : self) : self :=
  s <| the_transitions ::= f |>.

(** A transition that re-enters an active operation of its own thread. *)
Definition reentered (t : nat) (s : self) : bool := in_operation t s.

(** The boundary of [open]: [None] when it is already open for the spider. *)
Definition open_failed (e : exn) : M (local * shared) unit :=
  let! _ := on_self (modify (fun s =>
    set_transitions (fun x => x <| open_owner := None |>) s <| state := NEW |>)) in
  let! _ := note (fun l => l <| in_phase := Idle |>) in
  raise e.

Definition open_begin (t : nat) (spider : option nat) : M (local * shared) (option nat) :=
  let! s := on_self get in
  match state s with
  | CLOSED | CLOSING | OPENING | CLEARING => raise ERuntime
  | OPEN => if bool_decide (spider = opened_spider (the_transitions s)) then ret None else raise ERuntime
  | NEW =>
      let! token := on_self (pure fresh) in
      let! _ := on_self (modify (fun s =>
        set_transitions (fun x => x <| open_owner := Some token |> <| close_requested := false |>) s
          <| state := OPENING |>)) in
      let! _ := note (fun l => l <| in_phase := Waiting |>) in
      if reentered t s then let! _ := open_failed ERuntime in ret None else ret (Some token)
  end.

Definition cross_open_boundary (o : outcome unit) : M (local * shared) unit :=
  match o with
  | Ok _ => let! _ := on_self (modify (clear_retry_allowances true true)) in
            note (fun l => l <| in_phase := Opened |>)
  | Raise e => open_failed e
  end.

Definition release_owners_are_aliases (a b : nat) (x : transitions) : bool :=
  bool_decide (a = b) ||
  bool_decide (a = direct_release_owner) && existsb (Nat.eqb b) (release_aliases x) ||
  bool_decide (b = direct_release_owner) && existsb (Nat.eqb a) (release_aliases x).

(** [_reserve_release_locked].  A present open token is one of a running
    frame. *)
Definition reserve_release (owner t : nat) (opening : option nat) : M self bool := fun s =>
  let x := the_transitions s in
  if bool_decide (state s = CLOSED) then (Ok false, s)
  else if bool_decide (state s = OPENING) && bool_decide (is_Some (open_owner x)) &&
          negb (bool_decide (opening = open_owner x)) then (Raise ERuntime, s)
  else
    let s := if bool_decide (state s = OPENING)
             then set_transitions (fun x => x <| open_owner := None |>) s else s in
    let x := the_transitions s in
    if bool_decide (transition_thread x = Some t) && clear_in_progress x then (Raise ERuntime, s)
    else if reentered t s then (Raise ERuntime, s)
    else
      let reserve (s : self) : outcome bool * self :=
        let x := the_transitions s in
        if release_in_progress x then
          if bool_decide (release_thread x = Some t) then (Ok false, s) else (Raise ERuntime, s)
        else
          (Ok true, set_transitions (fun x =>
             x <| release_in_progress := true |> <| release_thread := Some t |>
               <| close_requested := bool_decide (state s = CLEARING) |>
               <| opened_spider := None |>) s <| state := CLOSING |>) in
      match release_owner x with
      | None => reserve (set_transitions (fun x => x <| release_owner := Some owner |>) s)
      | Some o => if release_owners_are_aliases o owner x then reserve s else (Raise ERuntime, s)
      end.

(** [_close_locked]: the two drains (with their clock readings and waits), the
    filter's close, the manager's release, the terminal state. *)
Definition close_locked (t : nat) (started1 started2 : float) (wakes1 wakes2 : list wake) : method unit :=
  let? _ := atomically (let! s := on_self get in
    if clear_in_progress (the_transitions s) && bool_decide (transition_thread (the_transitions s) = Some t)
    then raise ERuntime else ret tt) in
  let? _ := bounded_drain_wait (fun g => clear_in_progress (the_transitions (fst g))) drain_timeout_s
              "backend-dupefilter-close-clear-drain" started1 wakes1 lift in
  let? _ := atomically (let! s := on_self get in if reentered t s then raise ERuntime else ret tt) in
  let? _ := bounded_drain_wait (fun g => busy false true (fst g)) drain_timeout_s
              "backend-dupefilter-quiescence-drain" started2 wakes2
              (fun o => match o with
                        | Ok _ => on_self (modify (clear_retry_allowances true true))
                        | Raise e => raise e
                        end) in
  let? released := atomically (on_self (peek (fun s => filter_released (the_transitions s)))) in
  let? primary := if released : bool then pret None else
    ptry (atomically (on_filter filter_close)) (fun o =>
      match o with
      | Ok _ => let? _ := atomically (on_self (modify
                  (set_transitions (fun x => x <| filter_released := true |>)))) in pret None
      | Raise e => pret (Some e)
      end) in
  let? x := atomically (on_self (peek the_transitions)) in
  let? primary := match manager_close with
    | Some release =>
        if filter_released x && negb (manager_released x) then
          ptry (atomically (on_filter release)) (fun o =>
            match o with
            | Ok _ => let? _ := atomically (on_self (modify
                        (set_transitions (fun x => x <| manager_released := true |>)))) in pret primary
            | Raise e => pret (match primary with Some p => Some p | None => Some e end)
            end)
        else pret primary
    | None => pret primary
    end in
  let? _ := atomically (on_self (modify (fun s =>
    let x := the_transitions s in
    if filter_released x && (match manager_close with None => true | Some _ => manager_released x end)
    then set_transitions (fun x => x <| close_requested := false |>) s <| state := CLOSED |>
    else s))) in
  match primary with Some e => praise e | None => pret tt end.

Definition run_reserved_release (t : nat) (started1 started2 : float) (wakes1 wakes2 : list wake)
    : method unit :=
  pfinally (close_locked t started1 started2 wakes1 wakes2)
    (atomically (on_self (modify (set_transitions (fun x =>
       x <| release_in_progress := false |> <| release_thread := None |>))))).

Definition release (owner t : nat) (started1 started2 : float) (wakes1 wakes2 : list wake) : method unit :=
  let? reserved := atomically (on_self (reserve_release owner t None)) in
  if reserved : bool then run_reserved_release t started1 started2 wakes1 wakes2 else pret tt.

Definition close := release direct_release_owner.

Definition authorize_release_owner_alias (owner : nat) : method unit :=
  atomically (on_self (modify (fun s =>
    if bool_decide (state s = CLOSED) || existsb (Nat.eqb owner) (release_aliases (the_transitions s)) then s
    else set_transitions (fun x => x <| release_aliases ::= fun l => l ++ [owner] |>) s))).

Definition open (t : nat) (spider : option nat) (started started1 started2 : float)
    (wakes wakes1 wakes2 : list wake) : method unit :=
  let? token := atomically (open_begin t spider) in
  match token with
  | None => pret tt
  | Some token =>
      let? _ := bounded_drain_wait (fun g => busy false true (fst g)) drain_timeout_s
                  "backend-dupefilter-quiescence-drain" started wakes cross_open_boundary in
      ptry (let? _ := match spider with Some x => Done (resolve_spider_key x) | None => pret tt end in
            with_filter_lock t (
              let? _ := atomically (on_filter filter_open) in
              if clear_on_open then atomically (on_filter mf_clear) else pret tt))
        (fun o =>
          match o with
          | Ok _ =>
              let? _ := if clear_on_open
                        then atomically (on_self (modify (clear_retry_allowances false true)))
                        else pret tt in
              atomically (
                let! s := on_self get in
                let! _ := note (fun l => l <| in_phase := Idle |>) in
                if bool_decide (open_owner (the_transitions s) = Some token) then
                  on_self (modify (fun s =>
                    set_transitions (fun x => x <| opened_spider := spider |> <| open_owner := None |>) s
                      <| state := OPEN |>))
                else raise ERuntime)
          | Raise e =>
              ptry (let? reserved := atomically (
                      let! _ := note (fun l => l <| in_phase := Idle |>) in
                      on_self (reserve_release direct_release_owner t (Some token))) in
                    if reserved : bool then run_reserved_release t started1 started2 wakes1 wakes2
                    else pret tt)
                (fun _ => praise e)
          end)
  end.

(** [clear]. *)
Definition clear_ended (final : lifecycle) : M (local * shared) unit :=
  let! _ := on_self (modify (fun s =>
    set_transitions (fun x => x <| clear_in_progress := false |> <| transition_thread := None |>) s
      <| state := final |>)) in
  note (fun l => l <| in_phase := Idle |>).

Definition clear_begin (t : nat) : M (local * shared) lifecycle :=
  let! s := on_self get in
  match state s with
  | CLOSED | CLOSING | OPENING | CLEARING => raise ERuntime
  | prior =>
      let! _ := on_self (modify (fun s =>
        set_transitions (fun x => x <| clear_in_progress := true |> <| transition_thread := Some t |>) s
          <| state := CLEARING |>)) in
      let! _ := note (fun l => l <| in_phase := Waiting |>) in
      if reentered t s then let! _ := clear_ended prior in raise ERuntime else ret prior
  end.

Definition clear (t : nat) (started : float) (wakes : list wake) : method unit :=
  let? prior := atomically (clear_begin t) in
  let? _ := bounded_drain_wait (fun g => busy false true (fst g)) drain_timeout_s
              "backend-dupefilter-quiescence-drain" started wakes
              (fun o => match o with
                        | Ok _ => note (fun l => l <| in_phase := Drained |>)
                        | Raise e => let! _ := clear_ended prior in raise e
                        end) in
  ptry (with_filter_lock t (atomically (on_filter mf_clear))) (fun o =>
    let? _ := atomically (
      let! _ := match o with
                | Ok _ => on_self (modify (clear_retry_allowances true true))
                | Raise _ => ret tt
                end in
      let! s := on_self get in
      clear_ended (if close_requested (the_transitions s) then CLOSING else prior)) in
    Done o).

(** *** The calls a client may make at any time *)
Definition collectable (r : nat) (s : self) : bool :=
  forallb (fun rc => negb (bool_decide (rc_request rc = r) && rc_settling rc)) (all_receipts (the_tables s)).

Inductive client : prog local shared unit -> Prop :=
  | client_seen t r : client (call (request_seen t r))
  | client_reserve t r w : client (call (request_seen_with_reservation t r w))
  | client_commit t res : client (commit_reservation t res)
  | client_commit_volatile t res : client (commit_volatile_reservation t res)
  | client_rollback t res : client (rollback_reservation t res)
  | client_rollback_intent w : client (rollback_reservation_intent w)
  | client_consume t r : client (call (atomically (on_self (consume_reservation t r))))
  | client_settle t r : client (call (atomically (on_self (settle_reservation t r))))
  | client_forget t r : client (forget t r)
  | client_open t sp a b c wa wb wc : client (open t sp a b c wa wb wc)
  | client_clear t a wa : client (clear t a wa)
  | client_release w t a b wa wb : client (release w t a b wa wb)
  | client_authorize w : client (authorize_release_owner_alias w)
  | client_collected r : client (section_when (fun _ g => collectable r (fst g))
                                   (on_self (modify (legacy_request_collected r)))).

Definition start (l : local) (p : prog local shared unit) : Prop := l = thread_start /\ client p.
Definition step : pool local shared -> pool local shared -> Prop := pstep start.
End Methods.
End DupeFilter.
