(* ===== verification/DupeFilterFacts.v ===== *)
(** * The duplicate filter under interleavings

    The invariant of [DupeFilter] over every interleaving of the atomic
    sections of any number of calls: exact accounting of the recovery slots,
    the bound of the recovery ledger, and the discipline of the lifecycle
    transitions that the accounting rests on; then the behaviour of calls that
    run alone. *)

From S2P Require Export DupeFilter.

Module DupeFilterFacts.
Import DupeFilter.

Definition count {A} (P : A -> bool) (l : list A) : Z := Z.of_nat (length (List.filter P l)).

Lemma tally_cons {A} (P : A -> bool) x l : count P (x :: l) = count P l + Z.b2z (P x).
Proof. unfold count. cbn. destruct (P x); cbn; lia. Qed.
Lemma count_nil {A} (P : A -> bool) : count P [] = 0.
Proof. done. Qed.
Lemma count_app {A} (P : A -> bool) l k : count P (l ++ k) = count P l + count P k.
Proof. unfold count. rewrite List.filter_app, length_app. lia. Qed.
Lemma count_nonneg {A} (P : A -> bool) l : 0 <= count P l.
Proof. unfold count. lia. Qed.
#[export] Instance count_perm {A} (P : A -> bool) : Proper (Permutation ==> eq) (count P).
Proof.
  intros l k Hp. induction Hp as [|x l k _ IH|x y l|l k m _ IH1 _ IH2]; rewrite ?tally_cons; [done|lia|lia|lia].
Qed.
Lemma count_zero {A} (P : A -> bool) l : count P l = 0 <-> Forall (fun x => P x = false) l.
Proof.
  induction l as [|x l IH]; [by rewrite count_nil|]. rewrite tally_cons, Forall_cons, <- IH.
  pose proof (count_nonneg P l). destruct (P x); cbn; split; intros; [lia|by destruct_and?|split; [done|lia]|lia].
Qed.
Lemma count_ext {A} (P Q : A -> bool) l : Forall (fun x => P x = Q x) l -> count P l = count Q l.
Proof. induction 1 as [|x l E _ IH]; [done|]. by rewrite !tally_cons, IH, E. Qed.

(** ** The observations of the invariant *)
Definition is_inside (l : local) : bool := match admitted l with Outside => false | _ => true end.
Definition is_busy (l : local) : bool := match admitted l with Busy _ => true | _ => false end.
Definition owes (e : Z) (l : local) : bool := bool_decide (slot_owed l = Some e).
Definition in_transition (l : local) : bool := match in_phase l with Idle => false | _ => true end.
Definition past_boundary (l : local) : bool :=
  match in_phase l with Drained | Opened => true | _ => false end.
Definition has_opened (l : local) : bool := match in_phase l with Opened => true | _ => false end.
Definition marks (i : nat) (l : local) : bool := bool_decide (marked l = Some i).
Definition with_id (i : nat) (rc : receipt) : bool := is_receipt i rc.

(** The slots the ledger has to account for: those of the receipts in the
    tables and those of the intents of this epoch. *)
Definition accounted (ls : list local) (s : self) : Z :=
  count rc_slot (all_receipts (the_tables s)) + count (owes (epoch s)) ls.

Record inv_self (ls : list local) (s : self) : Prop := {
  inv_count : active_operations s = count is_inside ls;
  inv_slots : slots_reserved (the_ledger s) = accounted ls s;
  inv_limit : allowance_limit (the_ledger s) = DEFAULT_RETRY_ALLOWANCE_LIMIT;
  inv_bound : ledger_size (the_ledger s) <= DEFAULT_RETRY_ALLOWANCE_LIMIT;
  inv_unique : NoDup (retry_allowances (the_ledger s));
  inv_future : Forall (fun l => forall e, slot_owed l = Some e -> e <= epoch s) ls;
  inv_busy : Forall (fun l => forall e, admitted l = Busy e -> e = epoch s) ls;
  (* at most one open or clear is in progress, and none while calls are accepted *)
  inv_transition : count in_transition ls + Z.b2z (accepts s) <= 1;
  inv_quiet : 0 < count past_boundary ls -> count is_busy ls = 0;
  inv_opened : 0 < count has_opened ls -> accounted ls s = 0 /\ all_receipts (the_tables s) = [];
  (* identities *)
  inv_once : forall i, count (with_id i) (all_receipts (the_tables s)) <= 1;
  inv_ids : Forall (fun rc => (rc_id rc < next_object s)%nat) (all_receipts (the_tables s));
  (* a receipt being settled belongs to one call *)
  inv_marks : forall i, count (marks i) ls <= 1;
  inv_settling : Forall (fun l => forall i, marked l = Some i -> (i < next_object s)%nat /\
      Forall (fun rc => rc_id rc = i -> rc_settling rc = true) (all_receipts (the_tables s))) ls;
  inv_held : Forall (fun l => forall i, marked l = Some i -> is_busy l = true ->
      count (with_id i) (all_receipts (the_tables s)) = 1) ls
}.

Definition inv {F} (ls : list local) (g : shared (F := F)) : Prop := inv_self ls (fst g).

Lemma inv_self_perm ls ls' s : Permutation ls ls' -> inv_self ls s -> inv_self ls' s.
Proof.
  intros Hp [A B C D E F G H I J K L M N O]. unfold accounted in *.
  split; unfold accounted; rewrite <- ?Hp; try done. intros i. rewrite <- Hp. apply M.
Qed.

(** The invariant looks at six components only. *)
Lemma inv_agree ls s s' :
  inv_self ls s ->
  state s' = state s -> epoch s' = epoch s -> active_operations s' = active_operations s ->
  slots_reserved (the_ledger s') = slots_reserved (the_ledger s) ->
  allowance_limit (the_ledger s') = allowance_limit (the_ledger s) ->
  retry_allowances (the_ledger s') = retry_allowances (the_ledger s) ->
  all_receipts (the_tables s') = all_receipts (the_tables s) ->
  (next_object s <= next_object s')%nat -> inv_self ls s'.
Proof.
  intros [A B C D E F G H I J K L M N O] E1 E2 E3 E4 E5 E6 E7 E8.
  unfold accounted, ledger_size, accepts in *.
  split; unfold accounted, ledger_size, accepts; rewrite ?E1, ?E2, ?E3, ?E4, ?E5, ?E6, ?E7; try done.
  - eapply Forall_impl; [exact L|]. cbn. lia.
  - eapply Forall_impl; [exact N|]. cbn. intros l Hl i Hi. destruct (Hl i Hi). split; [lia|done].
Qed.


(** ** Stepping the invariant *)
Lemma owes_eq e so {ho} ad mk ph :
  owes e (Local so ad mk ph ho) = match so with Some e' => e' =? e | None => false end.
Proof.
  unfold owes. cbn. destruct so as [e'|]; [|done]. destruct (Z.eqb_spec e' e) as [-> | Hn].
  - by rewrite bool_decide_true.
  - rewrite bool_decide_false; [done|]. congruence.
Qed.
Lemma marks_eq i so {ho} ad mk ph :
  marks i (Local so ad mk ph ho) = match mk with Some j => Nat.eqb j i | None => false end.
Proof.
  unfold marks. cbn. destruct mk as [j|]; [|done]. destruct (Nat.eqb_spec j i) as [-> | Hn].
  - by rewrite bool_decide_true.
  - rewrite bool_decide_false; [done|]. congruence.
Qed.

Lemma phase_counts ls :
  count past_boundary ls <= count in_transition ls /\ count has_opened ls <= count past_boundary ls.
Proof.
  induction ls as [|l ls [IH1 IH2]]; [done|]. rewrite !tally_cons.
  unfold past_boundary, in_transition, has_opened in *. destruct (in_phase l); cbn; lia.
Qed.

Lemma count_signs s (ls : list local) :
  0 <= count in_transition ls /\ 0 <= count past_boundary ls /\ 0 <= count has_opened ls /\
  0 <= count is_busy ls /\ 0 <= count (owes (epoch s)) ls /\
  0 <= count rc_slot (all_receipts (the_tables s)).
Proof. split_and!; apply count_nonneg. Qed.

Ltac expand :=
  unfold accounted, ledger_size in *; cbn -[count owes marks accepts] in *;
  repeat rewrite tally_cons in *; repeat rewrite Forall_cons in *; repeat rewrite owes_eq in *;
  cbn -[count owes marks accepts] in *.
Ltac marking M :=
  let i := fresh "i" in intros i; specialize (M i); rewrite tally_cons in *; rewrite marks_eq in *;
  cbn -[count marks] in *; try lia.
Ltac lia_counts s fr :=
  pose proof (count_signs s fr); pose proof (phase_counts fr); lia.

(** *** Admission *)
Lemma inv_enter fr s mk t ad :
  inv_self (Local None Outside mk Idle false :: fr) s ->
  (ad = Settling \/ ad = Busy (epoch s) /\ accepts s = true) ->
  (forall i, mk = Some i -> count (with_id i) (all_receipts (the_tables s)) = 1) ->
  forall e, inv_self (Local None ad mk Idle false :: fr) (enter_operation e t s).
Proof.
  intros [A B C D E F G H I J K L M N O] Ha Hm e.
  split; expand; try done.
  - destruct Ha as [-> |[-> _]]; cbn; lia.
  - split; [|apply G]. destruct Ha as [-> |[-> _]]; [done|]. by intros e' [= <-].
  - destruct Ha as [-> |[-> Ha]]; cbn; [apply I|]. rewrite Ha in H. cbn in H. lia_counts s fr.
  - marking M.
  - destruct O as [_ O]. split; [|done]. intros i Hi _. by apply Hm.
Qed.

Lemma inv_exit fr s so {ho} mk ad l :
  inv_self (Local so ad mk Idle ho :: fr) s -> ad <> Outside ->
  inv_self (Local so Outside mk Idle ho :: fr) (exit_operation l s).
Proof.
  intros [A B C D E F G H I J K L M N O] Ha.
  split; expand; try done.
  - destruct ad; [done|cbn in *; lia|cbn in *; lia].
  - destruct G. split; done.
  - destruct ad; cbn in *; try done; lia_counts s fr.
  - marking M.
  - destruct O as [_ O]. split; done.
Qed.

(** *** The ledger *)
Lemma drop_item_length fp l : NoDup l -> fp ∈ l ->
  Z.of_nat (length (MemoryFilter.drop_item fp l)) = Z.of_nat (length l) - 1.
Proof. intros Hn Hi. rewrite (MemoryFilter.drop_item_perm _ _ Hn Hi) at 2. cbn. lia. Qed.

Lemma inv_consume fr s fp mk :
  inv_self (Local None (Busy (epoch s)) mk Idle false :: fr) s -> fp ∈ retry_allowances (the_ledger s) ->
  inv_self (Local (Some (epoch s)) (Busy (epoch s)) mk Idle false :: fr)
    (s <| the_ledger := snd (consume_retry_allowance fp (the_ledger s)) |>).
Proof.
  intros [A B C D E F G H I J K L M N O] Hin. unfold consume_retry_allowance.
  rewrite bool_decide_true by done. pose proof (drop_item_length _ _ E Hin).
  split; expand; rewrite ?Z.eqb_refl; cbn; try done; try lia; try solve [marking M].
  - unfold MemoryFilter.drop_item. by apply NoDup_filter.
  - split; [|apply F]. intros e [= <-]. lia.
  - lia_counts s fr.
Qed.

Lemma inv_reserve fr s mk :
  inv_self (Local None (Busy (epoch s)) mk Idle false :: fr) s ->
  ledger_size (the_ledger s) < allowance_limit (the_ledger s) ->
  inv_self (Local (Some (epoch s)) (Busy (epoch s)) mk Idle false :: fr)
    (s <| the_ledger ::= fun L => L <| slots_reserved ::= Z.succ |> |>).
Proof.
  intros [A B C D E F G H I J K L M N O] Hlt.
  split; expand; rewrite ?Z.eqb_refl; cbn; try done; try lia; try solve [marking M].
  - split; [|apply F]. intros e [= <-]. lia.
  - lia_counts s fr.
Qed.

Lemma release_slots L : 0 < slots_reserved L ->
  release_retry_allowance_slot L = L <| slots_reserved ::= Z.pred |>.
Proof. intros Hp. unfold release_retry_allowance_slot. by rewrite (proj2 (Z.eqb_neq _ _)) by lia. Qed.

Lemma inv_release fr s mk :
  inv_self (Local (Some (epoch s)) (Busy (epoch s)) mk Idle false :: fr) s ->
  inv_self (Local None (Busy (epoch s)) mk Idle false :: fr)
    (s <| the_ledger ::= release_retry_allowance_slot |>).
Proof.
  intros [A B C D E F G H I J K L M N O]. pose proof (count_signs s fr).
  split; expand; rewrite ?Z.eqb_refl in *; cbn in *; rewrite ?release_slots by lia; cbn; try done; try lia; try solve [marking M].
  - destruct F. split; done.
Qed.

(** Granting keeps the allowances distinct and the ledger within its bound;
    a converted slot leaves the counter. *)
Lemma grant_spec fp reserved L :
  NoDup (retry_allowances L) -> ledger_size L <= allowance_limit L ->
  (reserved = true -> 0 < slots_reserved L) ->
  let L' := snd (grant_retry_allowance fp reserved L) in
  allowance_limit L' = allowance_limit L /\ NoDup (retry_allowances L') /\
  slots_reserved L' = slots_reserved L - Z.b2z reserved /\ ledger_size L' <= allowance_limit L'.
Proof.
  intros Hn Hs Hp. unfold grant_retry_allowance, ledger_size in *. case_bool_decide as Hin.
  - assert (Hm : Permutation (MemoryFilter.move_to_end fp (retry_allowances L)) (retry_allowances L))
      by by apply MemoryFilter.move_to_end_perm.
    destruct reserved; cbn; rewrite ?release_slots by (cbn; auto); cbn; rewrite !Hm; split_and!; done || lia.
  - assert (Hn' : NoDup (retry_allowances L ++ [fp])).
    { apply NoDup_app. split; [done|]. split; [|apply NoDup_singleton].
      by intros x Hx ->%list_elem_of_singleton. }
    destruct reserved; [|destruct (Z.leb_spec (allowance_limit L) (Z.of_nat (length (retry_allowances L)) + slots_reserved L))].
    + rewrite release_slots by auto. cbn. rewrite length_app. cbn. split_and!; done || lia.
    + cbn. destruct (overflow_warned L); cbn; split_and!; done || lia.
    + cbn. rewrite length_app. cbn. split_and!; done || lia.
Qed.

(** The slot of an interrupted intent becomes an allowance. *)
Lemma inv_grant fr s fp mk :
  inv_self (Local (Some (epoch s)) (Busy (epoch s)) mk Idle false :: fr) s ->
  inv_self (Local None (Busy (epoch s)) mk Idle false :: fr)
    (s <| the_ledger := snd (grant_retry_allowance fp true (the_ledger s)) |>).
Proof.
  intros [A B C D E F G H I J K L M N O]. pose proof (count_signs s fr).
  destruct (grant_spec fp true (the_ledger s) E) as (G1 & G2 & G3 & G4); [lia|intros _|].
  { expand. rewrite Z.eqb_refl in B. cbn in B. lia. }
  split; expand; rewrite ?Z.eqb_refl in *; cbn in *; try done; try lia; try solve [marking M].
  - destruct F. split; done.
Qed.

(** *** Receipts *)

(** What the invariant sees of a receipt. *)
Definition summary (rc : receipt) : nat * bool * bool := (rc_id rc, rc_slot rc, rc_settling rc).

Lemma summary_count (P : nat * bool * bool -> bool) l k :
  Permutation (map summary l) (map summary k) ->
  count (fun rc => P (summary rc)) l = count (fun rc => P (summary rc)) k.
Proof.
  assert (Hm : forall l, count (fun rc => P (summary rc)) l = count P (map summary l)).
  { clear. intros l. induction l as [|x l IH]; [done|]. cbn [map]. by rewrite !tally_cons, IH. }
  intros Hp. by rewrite !Hm, Hp.
Qed.

Lemma summary_forall (P : nat * bool * bool -> Prop) l k :
  Permutation (map summary l) (map summary k) ->
  Forall (fun rc => P (summary rc)) l -> Forall (fun rc => P (summary rc)) k.
Proof.
  intros Hp Hl. assert (Hm : Forall P (map summary l)) by by apply Forall_map.
  rewrite Hp in Hm. exact (proj1 (Forall_map _ _ _) Hm).
Qed.

Lemma inv_moved ls s s' :
  inv_self ls s ->
  state s' = state s -> epoch s' = epoch s -> active_operations s' = active_operations s ->
  the_ledger s' = the_ledger s ->
  Permutation (map summary (all_receipts (the_tables s))) (map summary (all_receipts (the_tables s'))) ->
  next_object s' = next_object s -> inv_self ls s'.
Proof.
  intros [A B C D E F G H I J K L M N O] E1 E2 E3 E4 E5 E6.
  pose proof (summary_count (fun x => x.1.2) _ _ E5) as Cs.
  pose proof (fun i => summary_count (fun x => bool_decide (x.1.1 = i)) _ _ E5) as Ci.
  change (count rc_slot (all_receipts (the_tables s)) = count rc_slot (all_receipts (the_tables s'))) in Cs.
  change (forall i, count (with_id i) (all_receipts (the_tables s)) =
    count (with_id i) (all_receipts (the_tables s'))) in Ci.
  unfold accounted, ledger_size, accepts in *.
  split; unfold accounted, ledger_size, accepts; rewrite ?E1, ?E2, ?E3, ?E4, <- ?Cs; try done.
  - intros Ho. destruct (J Ho) as [J1 J2]. split; [done|]. rewrite J2 in E5. cbn in E5.
    apply Permutation_nil in E5. by destruct (all_receipts (the_tables s')).
  - intros i. by rewrite <- Ci.
  - rewrite E6. apply (summary_forall (fun x => (x.1.1 < next_object s)%nat) _ _ E5 L).
  - rewrite E6. eapply Forall_impl; [exact N|]. cbn. intros l Hl i Hi. destruct (Hl i Hi) as [Hlt Hs].
    split; [done|]. apply (summary_forall (fun x => x.1.1 = i -> x.2 = true) _ _ E5 Hs).
  - eapply Forall_impl; [exact O|]. cbn. intros l Hl i Hi Hb. rewrite <- Ci. by apply Hl.
Qed.

Lemma inv_drop ls s s' gone :
  inv_self ls s ->
  state s' = state s -> epoch s' = epoch s -> active_operations s' = active_operations s ->
  slots_reserved (the_ledger s') = slots_reserved (the_ledger s) - count rc_slot gone ->
  allowance_limit (the_ledger s') = allowance_limit (the_ledger s) ->
  retry_allowances (the_ledger s') = retry_allowances (the_ledger s) ->
  Permutation (all_receipts (the_tables s)) (gone ++ all_receipts (the_tables s')) ->
  next_object s' = next_object s ->
  Forall (fun l => forall i, marked l = Some i -> is_busy l = true -> count (with_id i) gone = 0) ls ->
  inv_self ls s'.
Proof.
  intros [A B C D E F G H I J K L M N O] E1 E2 E3 E4 E5 E6 E7 E8 Hg.
  unfold accounted, ledger_size, accepts in *.
  pose proof (count_nonneg rc_slot gone). pose proof (count_signs s ls).
  assert (Cs : count rc_slot (all_receipts (the_tables s)) =
    count rc_slot gone + count rc_slot (all_receipts (the_tables s'))) by by rewrite E7, count_app.
  assert (Ci : forall i, count (with_id i) (all_receipts (the_tables s)) =
    count (with_id i) gone + count (with_id i) (all_receipts (the_tables s'))).
  { intros i. by rewrite E7, count_app. }
  split; unfold accounted, ledger_size, accepts; rewrite ?E1, ?E2, ?E3, ?E4, ?E5, ?E6; try done; try lia.
  - intros Ho. destruct (J Ho) as [J1 J2]. rewrite J2 in E7. apply Permutation_nil in E7.
    destruct gone as [|x gone]; [|done]. cbn in E7. rewrite E7. rewrite J2 in J1. split; [|done]. lia.
  - intros i. specialize (K i). rewrite Ci in K. pose proof (count_nonneg (with_id i) gone). lia.
  - rewrite E8. rewrite E7 in L. by apply Forall_app in L as [_ L].
  - rewrite E8. eapply Forall_impl; [exact N|]. cbn. intros l Hl i Hi. destruct (Hl i Hi) as [Hlt Hs].
    split; [done|]. rewrite E7 in Hs. by apply Forall_app in Hs as [_ Hs].
  - rewrite Forall_forall in O, Hg |- *. intros l Hl i Hi Hb. specialize (O l Hl i Hi Hb).
    rewrite Ci, (Hg l Hl i Hi Hb) in O. lia.
Qed.

Lemma remove_receipt_none i l : count (with_id i) l = 0 -> remove_receipt i l = l.
Proof.
  induction l as [|x l IH]; [done|]. rewrite tally_cons. cbn. unfold with_id at 2.
  pose proof (count_nonneg (with_id i) l). destruct (is_receipt i x); cbn; [lia|]. intros Hc. f_equal. apply IH. lia.
Qed.

Lemma remove_receipt_perm i l : 0 < count (with_id i) l ->
  exists rc, rc_id rc = i /\ List.find (is_receipt i) l = Some rc /\ Permutation l (rc :: remove_receipt i l).
Proof.
  induction l as [|x l IH]; [done|]. rewrite tally_cons. cbn. unfold with_id at 2.
  destruct (is_receipt i x) eqn:Ex; cbn; intros Hc.
  - exists x. unfold is_receipt in Ex. by apply bool_decide_eq_true in Ex.
  - destruct IH as (rc & H1 & H2 & H3); [lia|]. exists rc. split_and!; [done|done|].
    rewrite H3 at 1. apply perm_swap.
Qed.

Lemma find_none i l : count (with_id i) l = 0 -> List.find (is_receipt i) l = None.
Proof.
  induction l as [|x l IH]; [done|]. rewrite tally_cons. cbn. unfold with_id at 2.
  pose proof (count_nonneg (with_id i) l). destruct (is_receipt i x); cbn; [lia|]. intros Hc. apply IH. lia.
Qed.

Lemma find_app {A} (P : A -> bool) l k :
  List.find P (l ++ k) = match List.find P l with Some x => Some x | None => List.find P k end.
Proof. induction l as [|x l IH]; [done|]. cbn. by destruct (P x). Qed.

(** Removing the receipt with an identity from both tables. *)
Lemma remove_both i rc0 T :
  count (with_id i) (all_receipts T) = 1 -> rc_id rc0 = i ->
  exists rc, rc_id rc = i /\ deref rc0 T = rc /\
    Permutation (all_receipts T)
      (rc :: remove_receipt i (legacy_reservations T) ++ remove_receipt i (legacy_handoffs T)).
Proof.
  unfold all_receipts, deref. intros Hc <-. rewrite count_app in Hc.
  pose proof (count_nonneg (with_id (rc_id rc0)) (legacy_reservations T)).
  pose proof (count_nonneg (with_id (rc_id rc0)) (legacy_handoffs T)). unfold all_receipts. rewrite find_app.
  destruct (decide (count (with_id (rc_id rc0)) (legacy_reservations T) = 0)) as [Hz|Hz].
  - rewrite (find_none _ _ Hz), (remove_receipt_none _ _ Hz).
    destruct (remove_receipt_perm (rc_id rc0) (legacy_handoffs T)) as (rc & H1 & -> & H3); [lia|].
    exists rc. split_and!; [done|done|]. rewrite H3 at 1. by rewrite Permutation_middle.
  - destruct (remove_receipt_perm (rc_id rc0) (legacy_reservations T)) as (rc & H1 & -> & H3); [lia|].
    rewrite (remove_receipt_none _ (legacy_handoffs T)) by lia.
    exists rc. split_and!; [done|done|]. by rewrite H3 at 1.
Qed.

Lemma prune_receipts r T : all_receipts (prune_pending r T) = all_receipts T.
Proof. unfold prune_pending. by destruct (has_entry r (legacy_reservations T)). Qed.

(** [_remove_legacy_reservation_locked]. *)
Lemma inv_remove_receipt ls s rc0 :
  inv_self ls s -> count (with_id (rc_id rc0)) (all_receipts (the_tables s)) = 1 ->
  Forall (fun l => marked l = Some (rc_id rc0) -> is_busy l = false) ls ->
  inv_self ls (remove_legacy_reservation rc0 s).
Proof.
  intros Hi Hc Hm. destruct (remove_both _ rc0 _ Hc eq_refl) as (rc & H1 & H2 & H3).
  unfold remove_legacy_reservation. rewrite H2.
  assert (Hs : rc_slot rc = true -> 0 < slots_reserved (the_ledger s)).
  { intros Hs. destruct Hi. rewrite inv_slots0. unfold accounted. rewrite H3, tally_cons, Hs. cbn.
    pose proof (count_signs s ls). pose proof (count_nonneg rc_slot (remove_receipt (rc_id rc0)
      (legacy_reservations (the_tables s)) ++ remove_receipt (rc_id rc0) (legacy_handoffs (the_tables s)))). lia. }
  apply (inv_drop _ _ _ [rc] Hi); destruct (rc_slot rc) eqn:Es; cbn; rewrite ?tally_cons, ?count_nil, ?Es;
    rewrite ?release_slots by auto; cbn; try done; try lia; rewrite ?prune_receipts; try done.
  all: eapply Forall_impl; [exact Hm|]; cbn; intros l Hl i Hmk Hb; rewrite tally_cons, count_nil;
    unfold with_id, is_receipt; rewrite bool_decide_false; [done|]; intros <-;
    rewrite Hl in Hb; [done|congruence].
Qed.

(** *** Publishing, consuming, settling *)
Lemma inv_publish_receipt fr s r fp :
  inv_self (Local (Some (epoch s)) (Busy (epoch s)) None Idle false :: fr) s ->
  inv_self (Local None (Busy (epoch s)) None Idle false :: fr) (new_legacy_reservation r fp true s).
Proof.
  intros [A B C D E F G H I J K L M N O].
  set (new := Receipt (next_object s) fp (epoch s) r false None false true).
  assert (Hp : Permutation (all_receipts (the_tables (new_legacy_reservation r fp true s)))
                 (new :: all_receipts (the_tables s))).
  { unfold all_receipts. cbn. fold new. rewrite <- app_assoc. cbn. by rewrite Permutation_middle. }
  assert (Hid : count (with_id (next_object s)) (all_receipts (the_tables s)) = 0).
  { apply count_zero. eapply Forall_impl; [exact L|]. cbn. intros rc Hrc. unfold with_id, is_receipt.
    apply bool_decide_eq_false. lia. }
  assert (Hother : forall i, (i < next_object s)%nat -> with_id i new = false).
  { intros i Hi. apply bool_decide_eq_false. cbn. lia. }
  split; expand; rewrite ?Hp, ?tally_cons; rewrite ?Z.eqb_refl in *; cbn in *; try done; try lia; try solve [marking M].
  - destruct F. split; done.
  - pose proof (phase_counts fr). intros Ho. lia_counts s fr.
  - intros i. rewrite Hp, tally_cons. destruct (with_id i new) eqn:Ei; cbn; [|specialize (K i); lia].
    apply bool_decide_eq_true in Ei as <-. cbn. lia.
  - apply Forall_cons. cbn. split; [lia|]. eapply Forall_impl; [exact L|]. cbn. lia.
  - destruct N as [_ N]. split; [done|]. eapply Forall_impl; [exact N|]. cbn. intros l Hl i Hi.
    destruct (Hl i Hi) as [Hlt Hs]. split; [lia|]. rewrite Hp. apply Forall_cons. split; [cbn; lia|done].
  - destruct O as [_ O], N as [_ N]. split; [done|]. rewrite Forall_forall in O, N |- *. intros l Hl i Hi Hb.
    rewrite Hp, tally_cons, Hother, (O l Hl i Hi Hb); [done|]. by apply (N l Hl).
Qed.

Lemma find_perm (P : receipt -> bool) l rc : List.find P l = Some rc -> count (with_id (rc_id rc)) l <= 1 ->
  P rc = true /\ Permutation l (rc :: remove_receipt (rc_id rc) l).
Proof.
  intros Hf Hc. destruct (List.find_some _ _ Hf) as [Hin HP]. split; [done|].
  apply list_elem_of_In in Hin. apply list_elem_of_split in Hin as (l1 & l2 & ->).
  rewrite count_app, tally_cons in Hc. change (with_id (rc_id rc) rc) with (is_receipt (rc_id rc) rc) in Hc.
  pose proof (count_nonneg (with_id (rc_id rc)) l2). pose proof (count_nonneg (with_id (rc_id rc)) l1).
  assert (Hself : is_receipt (rc_id rc) rc = true) by (unfold is_receipt; by rewrite bool_decide_true).
  rewrite Hself in Hc. cbn in Hc.
  assert (Hr : remove_receipt (rc_id rc) (l1 ++ rc :: l2) = l1 ++ l2).
  { assert (Hz : count (with_id (rc_id rc)) l1 = 0) by lia. clear -Hz Hself.
    induction l1 as [|x l1 IH]; cbn; [by rewrite Hself|]. rewrite tally_cons in Hz.
    unfold with_id at 2 in Hz. pose proof (count_nonneg (with_id (rc_id rc)) l1).
    destruct (is_receipt (rc_id rc) x); cbn in Hz; [lia|]. f_equal. apply IH. lia. }
  rewrite Hr. by rewrite Permutation_middle.
Qed.

Lemma ids_split T i : count (with_id i) (all_receipts T) <= 1 ->
  count (with_id i) (legacy_reservations T) <= 1 /\ count (with_id i) (legacy_handoffs T) <= 1.
Proof.
  unfold all_receipts. rewrite count_app. pose proof (count_nonneg (with_id i) (legacy_reservations T)).
  pose proof (count_nonneg (with_id i) (legacy_handoffs T)). lia.
Qed.

Lemma inv_consume_receipt ls s t r o s' :
  inv_self ls s -> consume_reservation t r s = (o, s') -> inv_self ls s'.
Proof.
  intros Hi. unfold consume_reservation. destruct (bool_decide _); cbn; [|by intros [= <- <-]].
  destruct (select_pending r (the_tables s)) as [rc|] eqn:Es; [destruct (rc_epoch rc =? epoch s)|]; intros [= <- <-].
  - apply (inv_moved ls s); try done. cbn. rewrite prune_receipts. unfold all_receipts. cbn.
    destruct (ids_split _ _ (inv_once _ _ Hi (rc_id rc))) as [Hc _].
    destruct (find_perm _ _ _ Es Hc) as [_ Hp]. rewrite !map_app. cbn. rewrite Hp at 1. cbn.
    rewrite app_assoc. apply Permutation_cons_append.
  - eapply inv_agree; [exact Hi|..]; cbn; try done. by rewrite prune_receipts.
  - eapply inv_agree; [exact Hi|..]; cbn; try done. by rewrite prune_receipts.
Qed.

(** A selected receipt is in the tables and not being settled. *)
Lemma selected T sel rc : (forall i, count (with_id i) (all_receipts T) <= 1) ->
  (exists r, sel = select_pending r T) \/ (exists r t, sel = select_handoff r t T) -> sel = Some rc ->
  count (with_id (rc_id rc)) (all_receipts T) = 1 /\ rc ∈ all_receipts T /\ rc_settling rc = false /\
  deref rc T = rc.
Proof.
  intros Hc Hsel ->.
  assert (Hs : exists P, (List.find P (legacy_reservations T) = Some rc \/ List.find P (legacy_handoffs T) = Some rc)
                 /\ (P rc = true -> rc_settling rc = false)).
  { destruct Hsel as [[r Hs]|(r & t & Hs)].
    - exists (selectable r None false). split; [by left|]. unfold selectable.
      rewrite !andb_true_iff, !negb_true_iff. tauto.
    - exists (selectable r (Some t) true). split; [by right|]. unfold selectable.
      rewrite !andb_true_iff, !negb_true_iff. tauto. }
  destruct Hs as (P & Hf & HP). destruct (ids_split _ _ (Hc (rc_id rc))) as [H1 H2].
  assert (Hin : rc ∈ all_receipts T /\ rc_settling rc = false).
  { unfold all_receipts. rewrite elem_of_app. destruct Hf as [Hf|Hf].
    - destruct (find_perm _ _ _ Hf H1) as [? Hp]. split; [left|auto]. rewrite Hp. left.
    - destruct (find_perm _ _ _ Hf H2) as [? Hp]. split; [right|auto]. rewrite Hp. left. }
  destruct Hin as [Hin Hns].
  assert (Hone : count (with_id (rc_id rc)) (all_receipts T) = 1).
  { pose proof (Hc (rc_id rc)). apply list_elem_of_split in Hin as (l1 & l2 & Hl). rewrite Hl in *.
    rewrite count_app, tally_cons in *. pose proof (count_nonneg (with_id (rc_id rc)) l1).
    pose proof (count_nonneg (with_id (rc_id rc)) l2).
    assert (with_id (rc_id rc) rc = true) as Hw by (apply bool_decide_eq_true; done). rewrite Hw in *. cbn in *. lia. }
  split_and!; try done.
  destruct (remove_both _ rc T Hone eq_refl) as (rc' & Hi' & Hd & Hp). rewrite Hd.
  rewrite Hp in Hin. apply elem_of_cons in Hin as [-> | Hin]; [done|].
  exfalso. rewrite Hp, tally_cons in Hone. unfold with_id at 2, is_receipt in Hone.
  rewrite bool_decide_true in Hone by done. cbn in Hone.
  apply list_elem_of_split in Hin as (l1 & l2 & Hl). rewrite Hl, count_app, tally_cons in Hone.
  pose proof (count_nonneg (with_id (rc_id rc)) l1). pose proof (count_nonneg (with_id (rc_id rc)) l2).
  assert (with_id (rc_id rc) rc = true) as Hw by (apply bool_decide_eq_true; done). rewrite Hw in Hone. cbn in Hone. lia.
Qed.

(** An unsettled receipt is marked by no call. *)
Lemma unmarked ls s rc : inv_self ls s -> rc ∈ all_receipts (the_tables s) -> rc_settling rc = false ->
  Forall (fun l => marked l <> Some (rc_id rc)) ls.
Proof.
  intros Hi Hin Hs. eapply Forall_impl; [exact (inv_settling _ _ Hi)|]. cbn. intros l Hl Hm.
  destruct (Hl _ Hm) as [_ Ha]. rewrite Forall_forall in Ha. specialize (Ha rc Hin eq_refl). congruence.
Qed.

Lemma inv_settle_receipt ls s t r o s' :
  inv_self ls s -> settle_reservation t r s = (o, s') -> inv_self ls s'.
Proof.
  intros Hi. unfold settle_reservation.
  destruct (select_handoff r t (the_tables s)) as [rc|] eqn:Es; [|by intros [= <- <-]].
  destruct (rc_epoch rc =? epoch s); intros [= <- <-]; [|done].
  destruct (selected _ _ _ (inv_once _ _ Hi) (or_intror (ex_intro _ r (ex_intro _ t eq_refl))) Es)
    as (H1 & H2 & H3 & _).
  apply inv_remove_receipt; [done|done|]. eapply Forall_impl; [exact (unmarked _ _ _ Hi H2 H3)|]. by cbn.
Qed.

Lemma mutate_count (P : receipt -> bool) i f l : (forall rc, P (f rc) = P rc) ->
  count P (mutate i f l) = count P l.
Proof.
  intros HP. unfold mutate. induction l as [|x l IH]; [done|]. cbn. rewrite !tally_cons, IH.
  destruct (is_receipt i x); by rewrite ?HP.
Qed.

Lemma mutate_forall (P : receipt -> Prop) i f l : (forall rc, P rc -> P (f rc)) ->
  Forall P l -> Forall P (mutate i f l).
Proof.
  intros HP. unfold mutate. induction 1 as [|x l Hx _ IH]; cbn; [done|]. constructor; [|done].
  destruct (is_receipt i x); auto.
Qed.

Lemma mutate_receipts i f T :
  all_receipts (T <| legacy_reservations ::= mutate i f |> <| legacy_handoffs ::= mutate i f |>) =
  mutate i f (all_receipts T).
Proof. unfold all_receipts, mutate. cbn. by rewrite map_app. Qed.

(** *** Compensating *)
Lemma inv_unmark fr s so {ho} ad mk ph :
  inv_self (Local so ad mk ph ho :: fr) s -> inv_self (Local so ad None ph ho :: fr) s.
Proof.
  intros [A B C D E F G H I J K L M N O].
  split; expand; try done.
  - intros i. specialize (M i). rewrite tally_cons, marks_eq in *.
    destruct mk as [j|]; [destruct (Nat.eqb j i)|]; cbn in *; lia.
  - destruct N. done.
  - destruct O. done.
Qed.

Lemma inv_mark fr s rc :
  inv_self (Local None Outside None Idle false :: fr) s ->
  count (with_id (rc_id rc)) (all_receipts (the_tables s)) = 1 -> rc ∈ all_receipts (the_tables s) ->
  rc_settling rc = false ->
  let settle := mutate (rc_id rc) (fun rc => rc <| rc_settling := true |>) in
  inv_self (Local None Outside (Some (rc_id rc)) Idle false :: fr)
    (s <| the_tables ::= fun T => T <| legacy_reservations ::= settle |> <| legacy_handoffs ::= settle |> |>).
Proof.
  intros Hi Hc Hin Hs settle. pose proof (unmarked _ _ _ Hi Hin Hs) as Hu.
  apply Forall_cons in Hu as [_ Hu].
  destruct Hi as [A B C D E F G H I J K L M N O].
  assert (Er : all_receipts (the_tables (s <| the_tables ::= fun T =>
      T <| legacy_reservations ::= settle |> <| legacy_handoffs ::= settle |> |>)) =
      settle (all_receipts (the_tables s))) by apply mutate_receipts.
  assert (Ec : forall i, count (with_id i) (settle (all_receipts (the_tables s))) =
      count (with_id i) (all_receipts (the_tables s))) by (intros i; by apply mutate_count).
  split; unfold accounted; rewrite ?Er; cbn -[count owes marks accepts];
    rewrite ?tally_cons, ?Forall_cons, ?owes_eq; expand; try done.
  - unfold settle. by rewrite mutate_count.
  - intros Ho. apply J in Ho as [J1 J2]. rewrite J2. unfold settle. by rewrite J2 in J1.
  - intros i. by rewrite Ec.
  - by apply mutate_forall.
  - intros i. specialize (M i). rewrite tally_cons, marks_eq in *. cbn in *.
    destruct (Nat.eqb_spec (rc_id rc) i) as [<-|]; [|cbn; lia].
    assert (Hz : count (marks (rc_id rc)) fr = 0); [|rewrite Hz; cbn; lia].
    apply count_zero. eapply Forall_impl; [exact Hu|]. cbn. intros l Hl. by apply bool_decide_eq_false.
  - destruct N as [_ N]. split.
    + intros i [= <-]. rewrite Forall_forall in L. split; [by apply L|].
      apply Forall_forall. unfold settle, mutate. intros x Hx.
      apply list_elem_of_In, in_map_iff in Hx as (y & <- & _).
      destruct (is_receipt (rc_id rc) y) eqn:Ey; [done|]. apply bool_decide_eq_false in Ey. by intros.
    + eapply Forall_impl; [exact N|]. cbn. intros l Hl i Hi. destruct (Hl i Hi). split; [done|].
      apply mutate_forall; [|done]. intros x Hx Hid. by cbn.
  - destruct O as [_ O]. split; [done|]. eapply Forall_impl; [exact O|]. cbn. intros l Hl i Hi Hb.
    rewrite Ec. auto.
Qed.

(** The conversion of a receipt's slot. *)
Lemma inv_grant_for_receipt fr s ad mk rc0 :
  inv_self (Local None ad mk Idle false :: fr) s -> count (with_id (rc_id rc0)) (all_receipts (the_tables s)) = 1 ->
  inv_self (Local None ad mk Idle false :: fr) (grant_for_receipt rc0 s).
Proof.
  intros Hi Hc. destruct (remove_both _ rc0 _ Hc eq_refl) as (rc & H1 & H2 & H3).
  unfold grant_for_receipt. rewrite H2.
  pose proof Hi as [A B C D E F G H I J K L M N O].
  pose proof (count_signs s (Local None ad mk Idle false :: fr)) as Hsg.
  set (rest := remove_receipt (rc_id rc0) (legacy_reservations (the_tables s)) ++
               remove_receipt (rc_id rc0) (legacy_handoffs (the_tables s))) in *.
  pose proof (count_nonneg rc_slot rest).
  assert (Bs : count rc_slot (all_receipts (the_tables s)) = count rc_slot rest + Z.b2z (rc_slot rc))
    by by rewrite H3, tally_cons.
  destruct (grant_spec (rc_fingerprint rc0) (rc_slot rc) (the_ledger s) E) as (G1 & G2 & G3 & G4).
  { by rewrite C. }
  { intros Hs. rewrite B. unfold accounted. rewrite Bs, Hs. cbn. lia. }
  set (L1 := snd (grant_retry_allowance (rc_fingerprint rc0) (rc_slot rc) (the_ledger s))) in *.
  assert (Hopen : count has_opened (Local None ad mk Idle false :: fr) <= 0).
  { destruct (Z.leb_spec (count has_opened (Local None ad mk Idle false :: fr)) 0) as [|Hlt]; [done|].
    destruct (J Hlt) as [_ J2]. rewrite J2 in Hc. by rewrite count_nil in Hc. }
  destruct (rc_slot rc) eqn:Es; cbn [Z.b2z] in *.
  2:{ change (s <| the_ledger ::= _ |>) with (s <| the_ledger := L1 |>).
      split; unfold accounted in *; cbn -[count accepts]; try done; try lia. }
  set (unflag := mutate (rc_id rc0) (fun rc => rc <| rc_slot := false |>)).
  assert (Er : all_receipts (the_tables (s <| the_ledger := L1 |> <| the_tables ::= fun T =>
      T <| legacy_reservations ::= unflag |> <| legacy_handoffs ::= unflag |> |>)) =
      unflag (all_receipts (the_tables s))) by apply mutate_receipts.
  assert (Ec : forall i, count (with_id i) (unflag (all_receipts (the_tables s))) =
      count (with_id i) (all_receipts (the_tables s))) by (intros i; by apply mutate_count).
  assert (Hz : count (with_id (rc_id rc0)) rest = 0).
  { rewrite H3, tally_cons in Hc. change (with_id (rc_id rc0) rc) with (is_receipt (rc_id rc0) rc) in Hc.
    unfold is_receipt in Hc. rewrite bool_decide_true in Hc by done. cbn in Hc. lia. }
  assert (Hu : Permutation (unflag (all_receipts (the_tables s))) (rc <| rc_slot := false |> :: rest)).
  { unfold unflag, mutate. rewrite H3. cbn. unfold is_receipt at 1. rewrite bool_decide_true by done.
    constructor. apply count_zero in Hz. clear -Hz. induction Hz as [|x l Hx _ IH]; [done|]. cbn.
    change (is_receipt (rc_id rc0) x = false) in Hx. rewrite Hx. by constructor. }
  change (s <| the_ledger ::= _ |>) with (s <| the_ledger := L1 |>).
  assert (Eu : count rc_slot (unflag (all_receipts (the_tables s))) = count rc_slot rest).
  { rewrite Hu, tally_cons. cbn. lia. }
  split; unfold accounted in *; rewrite ?Er, ?Eu; cbn -[count accepts]; try done; try lia.
  - intros i. by rewrite Ec.
  - by apply mutate_forall.
  - eapply Forall_impl; [exact N|]. cbn. intros l Hl i Hi'. destruct (Hl i Hi'). split; [done|].
    apply mutate_forall; [|done]. intros x Hx Hid. by apply Hx.
  - eapply Forall_impl; [exact O|]. cbn. intros l Hl i Hi' Hb. rewrite Ec. auto.
Qed.

(** *** Collected requests *)
Lemma iter_release n L : Z.of_nat n <= slots_reserved L ->
  Nat.iter n release_retry_allowance_slot L = L <| slots_reserved ::= fun z => z - Z.of_nat n |>.
Proof.
  induction n as [|n IH]; intros Hn.
  - destruct L. unfold update, eta. cbn. f_equal. lia.
  - change (Nat.iter (S n) release_retry_allowance_slot L)
      with (release_retry_allowance_slot (Nat.iter n release_retry_allowance_slot L)).
    rewrite IH by lia. rewrite release_slots by (cbn; lia). unfold update, eta. cbn. f_equal. lia.
Qed.

Lemma filter_split {A} (P : A -> bool) l :
  Permutation l (List.filter P l ++ List.filter (fun x => negb (P x)) l).
Proof.
  induction l as [|x l IH]; cbn; [done|]. destruct (P x); cbn; [by constructor|].
  rewrite IH at 1. apply Permutation_middle.
Qed.

Lemma inv_collected ls s r :
  inv_self ls s -> collectable r s = true -> inv_self ls (legacy_request_collected r s).
Proof.
  intros Hi Hc. set (gone := fun rc => bool_decide (rc_request rc = r)).
  set (T := the_tables s).
  assert (Hp : Permutation (all_receipts T) (List.filter gone (all_receipts T) ++
      all_receipts (the_tables (legacy_request_collected r s)))).
  { unfold legacy_request_collected, all_receipts. cbn. fold T. rewrite (filter_split gone) at 1.
    by rewrite !List.filter_app. }
  assert (Hf : Z.of_nat (length (List.filter (fun rc => gone rc && rc_slot rc) (all_receipts T))) =
      count rc_slot (List.filter gone (all_receipts T))).
  { unfold count. f_equal. clear. induction (all_receipts T) as [|x l IH]; [done|]. cbn.
    destruct (gone x); cbn; [|done]. destruct (rc_slot x); cbn; by rewrite ?IH. }
  assert (Hle : Z.of_nat (length (List.filter (fun rc => gone rc && rc_slot rc) (all_receipts T))) <=
      slots_reserved (the_ledger s)).
  { rewrite Hf. destruct Hi. rewrite inv_slots0. unfold accounted. fold T.
    pose proof (count_perm rc_slot _ _ Hp) as Hq. rewrite count_app in Hq.
    pose proof (count_signs s ls). pose proof (count_nonneg rc_slot
      (all_receipts (the_tables (legacy_request_collected r s)))). lia. }
  apply (inv_drop _ _ _ (List.filter gone (all_receipts T)) Hi); try done; unfold legacy_request_collected; cbn;
    fold T gone; rewrite ?iter_release by done; cbn; try done.
  - unfold gone, T in *. lia.
  - eapply Forall_impl; [exact (inv_settling _ _ Hi)|]. cbn. intros l Hl i Hm _.
    destruct (Hl i Hm) as [_ Hs]. apply count_zero, Forall_forall. intros rc Hrc.
    apply list_elem_of_In, filter_In in Hrc as [Hrc Hg]. apply bool_decide_eq_false. intros Hid.
    apply list_elem_of_In in Hrc. rewrite Forall_forall in Hs. specialize (Hs rc Hrc Hid).
    unfold collectable in Hc. rewrite forallb_forall in Hc. apply list_elem_of_In in Hrc. specialize (Hc rc Hrc).
    apply negb_true_iff, andb_false_iff in Hc as [Hc|Hc]; [|congruence]. unfold gone in Hg. congruence.
Qed.

(** *** Lifecycle transitions *)
Lemma inv_lifecycle fr s s' so {ho} ad mk ph ph' :
  inv_self (Local so ad mk ph ho :: fr) s ->
  epoch s' = epoch s -> active_operations s' = active_operations s -> the_ledger s' = the_ledger s ->
  the_tables s' = the_tables s -> (next_object s <= next_object s')%nat ->
  Z.b2z (in_transition (Local so ad mk ph' ho)) + Z.b2z (accepts s') <=
    Z.b2z (in_transition (Local so ad mk ph ho)) + Z.b2z (accepts s) ->
  (past_boundary (Local so ad mk ph' ho) = true ->
     past_boundary (Local so ad mk ph ho) = true \/ active_operations s = 0) ->
  (ph' = Opened -> ph = Opened \/ slots_reserved (the_ledger s) = 0 /\ all_receipts (the_tables s) = []) ->
  inv_self (Local so ad mk ph' ho :: fr) s'.
Proof.
  intros [A B C D E F G H I J K L M N O] E1 E2 E3 E4 E5 Ht Hq Ho.
  assert (Hb : active_operations s = 0 -> count is_busy (Local so ad mk ph ho :: fr) = 0).
  { intros Hz. rewrite Hz in A. symmetry in A. apply count_zero in A. apply count_zero.
    eapply Forall_impl; [exact A|]. cbn. intros l. unfold is_inside, is_busy. by destruct (admitted l). }
  split; unfold accounted, ledger_size in *; rewrite ?E1, ?E2, ?E3, ?E4; rewrite ?tally_cons in *;
    rewrite ?Forall_cons in *; rewrite ?owes_eq in *; try done.
  - lia.
  - intros Hp. pose proof (count_signs s fr).
    change (is_busy (Local so ad mk ph ho)) with (is_busy (Local so ad mk ph' ho)) in *.
    destruct (past_boundary (Local so ad mk ph' ho)) eqn:Ep; cbn [Z.b2z] in *.
    + destruct (Hq eq_refl) as [Hq'|Hq']; [|auto]. rewrite Hq' in I. cbn [Z.b2z] in I. lia.
    + assert (0 < count past_boundary fr + Z.b2z (past_boundary (Local so ad mk ph ho))); [|auto].
      destruct (past_boundary (Local so ad mk ph ho)); cbn; lia.
  - intros Hop. pose proof (count_signs s fr).
    destruct (has_opened (Local so ad mk ph' ho)) eqn:Ep; cbn [Z.b2z] in *.
    + destruct Ho as [-> | [Ho1 Ho2]]; [by destruct ph'|apply J; cbn; lia|]. split; [|done]. lia.
    + apply J. destruct (has_opened (Local so ad mk ph ho)); cbn; lia.
  - eapply Forall_impl; [exact L|]. cbn. lia.
  - marking M.
  - destruct N as [N1 N2]. split.
    + intros i Hi. destruct (N1 i Hi). split; [lia|done].
    + eapply Forall_impl; [exact N2|]. cbn. intros l Hl i Hi. destruct (Hl i Hi). split; [lia|done].
Qed.

(** Retiring an epoch, when no call is inside. *)
Lemma inv_clear ls s : inv_self ls s -> count is_busy ls = 0 ->
  inv_self ls (clear_retry_allowances true true s) /\
  slots_reserved (the_ledger (clear_retry_allowances true true s)) = 0 /\
  all_receipts (the_tables (clear_retry_allowances true true s)) = [].
Proof.
  intros [A B C D E F G H I J K L M N O] Hb. split; [|done]. apply count_zero in Hb.
  assert (Hz : count (owes (epoch s + 1)) ls = 0).
  { apply count_zero. eapply Forall_impl; [exact F|]. cbn. intros l Hl. apply bool_decide_eq_false.
    intros Hs. specialize (Hl _ Hs). lia. }
  split; unfold accounted, ledger_size, clear_retry_allowances; cbn -[count accepts];
    rewrite ?count_nil; unfold Z.succ; rewrite ?Hz; try done.
  - by constructor.
  - eapply Forall_impl; [exact F|]. cbn. intros l Hl e He. specialize (Hl e He). lia.
  - eapply Forall_impl; [exact Hb|]. cbn. intros l Hl e He. unfold is_busy in Hl. by rewrite He in Hl.
  - eapply Forall_impl; [exact N|]. cbn. intros l Hl i Hi. by destruct (Hl i Hi).
  - eapply Forall_impl; [exact Hb|]. cbn. congruence.
Qed.

(** The second clear of [open], behind the boundary. *)
Lemma inv_clear_again fr s so {ho} ad mk :
  inv_self (Local so ad mk Opened ho :: fr) s ->
  inv_self (Local so ad mk Opened ho :: fr) (clear_retry_allowances false true s).
Proof.
  intros [A B C D E F G H I J K L M N O].
  assert (Ho : 0 < count has_opened (Local so ad mk Opened ho :: fr)).
  { rewrite tally_cons. pose proof (count_signs s fr). cbn. lia. }
  destruct (J Ho) as [J1 J2]. unfold accounted in *. rewrite J2, count_nil in J1. cbn in J1.
  split; unfold accounted, ledger_size, clear_retry_allowances; cbn -[count accepts];
    rewrite ?count_nil; try done.
  - by constructor.
  - eapply Forall_impl; [exact N|]. cbn. intros l Hl i Hi. by destruct (Hl i Hi).
  - rewrite J2 in O. done.
Qed.

(** ** The sections of the methods *)

(** Running the monad of a section. *)
Ltac exec E :=
  cbv beta iota zeta delta [bind ret raise get modify peek pure lift on_self on_filter on_shared on_local
    on_fst on_snd note in_ledger] in E.

Ltac execute :=
  cbv beta iota zeta delta [bind ret raise get modify peek pure lift on_self on_filter on_shared on_local
    on_fst on_snd note in_ledger fst snd].

Section Methods.
Context {F : Type} `{MembershipFilter F}.
Context (fingerprint : nat -> outcome bytes) (resolve_spider_key : nat -> outcome unit)
  (filter_open filter_close : M F unit) (manager_close : option (M F unit))
  (clear_on_open : bool) (drain_timeout_s : float).

Abbreviation safe := (wp (inv (F := F))).
Implicit Types l : local.

Lemma wp_self {A} (m : M self A) (Q : outcome A -> local -> Prop) l :
  (forall fr s o s', inv_self (l :: fr) s -> m s = (o, s') -> inv_self (l :: fr) s' /\ Q o l) ->
  safe (atomically (on_self m)) Q l.
Proof.
  intros Hm. apply wp_atomically. intros fr [s f] o l' [s' f'] Hi. cbn.
  destruct (m s) as [o1 s1] eqn:E. intros [= <- <- <- <-]. by apply (Hm fr s).
Qed.

Lemma wp_self_modify (f : self -> self) (Q : outcome unit -> local -> Prop) l :
  (forall fr s, inv_self (l :: fr) s -> inv_self (l :: fr) (f s)) -> Q (Ok tt) l ->
  safe (atomically (on_self (modify f))) Q l.
Proof. intros Hf HQ. apply wp_self. intros fr s o s' Hi [= <- <-]. split; [by apply Hf|done]. Qed.

Lemma wp_peek {A} (f : self -> A) (Q : outcome A -> local -> Prop) l :
  (forall a, Q (Ok a) l) -> safe (atomically (on_self (peek f))) Q l.
Proof. intros HQ. apply wp_self. by intros fr s o s' Hi [= <- <-]. Qed.

Lemma wp_filter {A} (m : M F A) (Q : outcome A -> local -> Prop) l :
  (forall o, Q o l) -> safe (atomically (on_filter m)) Q l.
Proof.
  intros HQ. apply wp_atomically. intros fr [s f] o l' [s' f'] Hi. cbn.
  destruct (m f) as [o1 f1]. by intros [= <- <- <- <-].
Qed.

Lemma wp_pair {A} (m : M (local * shared) A) (Q : outcome A -> local -> Prop) l :
  (forall fr s f o l' s' f', inv_self (l :: fr) s -> m (l, (s, f)) = (o, (l', (s', f'))) ->
     inv_self (l' :: fr) s' /\ Q o l') ->
  safe (atomically m) Q l.
Proof. intros Hm. apply wp_atomically. intros fr [s f] o l' [s' f'] Hi. by apply Hm. Qed.

(** The fields outside the invariant. *)
Ltac same Hi := eapply inv_agree; [exact Hi|done..].

Lemma wp_with_filter_lock {A} t (body : prog local shared A) (Q : outcome A -> local -> Prop) l :
  safe body Q l -> safe (with_filter_lock t body) Q l.
Proof.
  intros Hb. apply wp_bind, wp_section. intros fr [s f] o l' [s' f'] Hi _. cbn. intros [= <- <- <- <-].
  split; [unfold inv in *; cbn in *; same Hi|]. apply wp_finally. revert Hb. apply wp_mono. intros o l' HQ.
  apply wp_self_modify; [|done]. intros fr' s' Hi'. same Hi'.
Qed.

Lemma wp_scope {A} t r (body : prog local shared A) (Q : outcome A -> local -> Prop) l :
  safe body Q l -> safe (filter_operation_scope t r body) Q l.
Proof.
  intros Hb. apply wp_with_filter_lock, wp_bind, wp_self. intros fr s o s' Hi [= <- <-]. split; [same Hi|].
  apply wp_finally. revert Hb. apply wp_mono. intros o l' HQ. apply wp_self_modify; [|done].
  intros fr' s' Hi'. destruct (bool_decide _); [done|same Hi'].
Qed.

Lemma busy_epoch fr s so {ho} e mk ph : inv_self (Local so (Busy e) mk ph ho :: fr) s -> e = epoch s.
Proof. intros Hi. pose proof (inv_busy _ _ Hi) as Hb. apply Forall_cons in Hb as [Hb _]. by apply Hb. Qed.

Abbreviation idle mk := (Local None Outside mk Idle false).
Abbreviation inside so e mk := (Local so (Busy e) mk Idle false).

Lemma wp_exit {A} le ad mk so {ho} (o : outcome A) (Q : outcome A -> local -> Prop) :
  ad <> Outside -> Q o (Local so Outside mk Idle ho) ->
  safe (atomically (let! _ := on_self (modify (exit_operation le)) in
    note (fun l => l <| admitted := Outside |>)))
    (fun oq l'' => match oq with Ok _ => Q o l'' | Raise e => Q (Raise e) l'' end)
    (Local so ad mk Idle ho).
Proof.
  intros Ha HQ. apply wp_pair. intros fr s f o' l' s' f' Hi [= <- <- <- <-].
  split; [|done]. by apply (inv_exit fr s so mk ad le).
Qed.

(** *** An operation admitted without a receipt *)
Lemma wp_request {A} t (body : option lease -> prog local shared A) (Q : outcome A -> local -> Prop) :
  Q (Raise (EQueue "request_seen")) (idle None) ->
  (forall e, safe (body (Some (Lease e t)))
     (fun o l' => exists so ho, l' = Local so (Busy e) None Idle ho /\ Q o (Local so Outside None Idle ho))
     (inside None e None)) ->
  safe (with_operation t RequestSeen None body) Q (idle None).
Proof.
  intros Hr Hb. apply wp_bind, wp_pair. intros fr s f o l' s' f' Hi E. exec E. cbn in E.
  destruct (accepts s) eqn:Ea; injection E as <- <- <- <-; [|done]. split.
  - apply inv_enter; [done|auto|done].
  - apply wp_finally. eapply wp_mono; [|apply Hb]. cbn. intros o l' (so & ho & -> & HQ). by apply wp_exit.
Qed.

(** *** [_request_seen_unlocked] *)
Lemma wp_release_slot e (Q : outcome unit -> local -> Prop) :
  Q (Ok tt) (inside None e None) -> safe release_slot Q (inside (Some e) e None).
Proof.
  intros HQ. apply wp_pair. intros fr s f o l' s' f' Hi [= <- <- <- <-]. split; [|done]. pose proof (busy_epoch _ _ _ _ _ _ Hi) as ->.
  by apply inv_release.
Qed.

Lemma wp_take_slot (f : ledger -> bool * ledger) e (Q : outcome bool -> local -> Prop) :
  (forall fr s, inv_self (inside None (epoch s) None :: fr) s ->
     inv_self (inside (if fst (f (the_ledger s)) then Some (epoch s) else None) (epoch s) None :: fr)
       (s <| the_ledger := snd (f (the_ledger s)) |>)) ->
  (forall b : bool, Q (Ok b) (inside (if b then Some e else None) e None)) ->
  safe (take_slot f) Q (inside None e None).
Proof.
  intros Hf HQ. apply wp_pair. intros fr s g o l' s' g' Hi E.
  pose proof (busy_epoch _ _ _ _ _ _ Hi) as ->. specialize (Hf fr s Hi). exec E.
  destruct (f (the_ledger s)) as [b L]. cbn in Hf, E.
  injection E as <- <- <- <-. specialize (HQ b). by destruct b.
Qed.

Lemma wp_consume e fp (Q : outcome bool -> local -> Prop) : (forall b : bool, Q (Ok b) (inside (if b then Some e else None) e None)) ->
  safe (take_slot (consume_retry_allowance fp)) Q (inside None e None).
Proof.
  apply wp_take_slot. intros fr s Hi. destruct (decide (fp ∈ retry_allowances (the_ledger s))) as [Hin|Hin].
  - pose proof (inv_consume _ _ _ _ Hi Hin) as Hc. unfold consume_retry_allowance in *.
    by rewrite bool_decide_true in * by done.
  - unfold consume_retry_allowance. rewrite bool_decide_false by done. same Hi.
Qed.

Lemma wp_reserve e (Q : outcome bool -> local -> Prop) : (forall b : bool, Q (Ok b) (inside (if b then Some e else None) e None)) ->
  safe (take_slot reserve_retry_allowance_slot) Q (inside None e None).
Proof.
  apply wp_take_slot. intros fr s Hi. unfold reserve_retry_allowance_slot.
  destruct (Z.leb_spec (allowance_limit (the_ledger s)) (ledger_size (the_ledger s))); [same Hi|].
  by apply (inv_reserve _ _ _ Hi).
Qed.

Lemma wp_backpressure (Q : outcome bool -> local -> Prop) l : (forall b, Q (Ok b) l) ->
  safe (atomically (on_self (in_ledger note_retry_allowance_backpressure))) Q l.
Proof.
  intros HQ. apply wp_self. intros fr s o s' Hi. unfold in_ledger, pure, note_retry_allowance_backpressure.
  destruct (overflow_warned _); intros [= <- <-]; (split; [same Hi|apply HQ]).
Qed.

Definition seen_post e (o : outcome (bool * option added_state * bool)) l' : Prop :=
  match o with
  | Ok (_, st, slot) => l' = inside (if slot then Some e else None) e None /\
      slot = match st with Some _ => true | None => false end
  | Raise _ => exists so, l' = inside so e None /\ (so = None \/ so = Some e)
  end.

Lemma wp_seen_unlocked fp e :
  safe (request_seen_unlocked fp) (seen_post e) (inside None e None).
Proof.
  unfold request_seen_unlocked. apply wp_bind, wp_peek. intros [|]; [by split|].
  apply wp_bind, wp_consume. intros [|]; [by split|].
  apply wp_bind, wp_reserve. intros [|]; cbn [negb].
  - apply wp_try, wp_filter. intros [[|]|x]; [by split| |].
    + by apply wp_bind, wp_release_slot.
    + destruct (unsupported x); [|destruct (filter_full x || transient x)];
        [apply wp_bind, wp_release_slot; cbn; eauto..|cbn; eauto].
  - apply wp_bind, wp_backpressure. intros _. apply wp_try, wp_filter. intros [b|x]; [by split|].
    destruct (unsupported x); [|destruct (transient x)]; cbn; eauto.
Qed.

(** *** Publication and compensation *)
Lemma wp_publish r i fp e st slot b :
  slot = match st with Some _ => true | None => false end ->
  safe (atomically (let! _ := publish_legacy r i fp st slot in ret (Decision b None false)))
    (fun o l' => l' = inside None e None) (inside (if slot then Some e else None) e None).
Proof.
  intros ->. apply wp_pair. intros fr s f o l' s' f' Hi [= <- <- <- <-]. split; [|done].
  assert (Hp : inv_self (inside None e None :: fr)
      (match st with Some _ => new_legacy_reservation r fp true s | None => s end)).
  { pose proof (busy_epoch _ _ _ _ _ _ Hi) as ->. destruct st; [by apply inv_publish_receipt|done]. }
  destruct st; same Hp.
Qed.

(** A call that has ended owns no slot, unless its compensation left it. *)
Definition settled (l : local) : Prop :=
  match slot_owed l with Some _ => handed_over l = true | None => True end.

Lemma inv_hand_over fr s so ad mk ph ho ho' :
  inv_self (Local so ad mk ph ho :: fr) s -> inv_self (Local so ad mk ph ho' :: fr) s.
Proof.
  intros [A B C D E F' G H' I J K L M N O].
  constructor; unfold accounted in *; repeat rewrite tally_cons in *; repeat rewrite Forall_cons in *; [exact A|exact B|exact C|exact D|exact E|exact F'|exact G|exact H'|exact I|exact J|exact K|exact L
    |intros i; specialize (M i); by rewrite tally_cons in *|exact N|exact O].
Qed.

Lemma wp_compensate r i fp e so : so = None \/ so = Some e ->
  safe (atomically (compensate_interrupted_legacy_add r i fp))
    (fun o l' => exists so ho, l' = Local so (Busy e) None Idle ho /\ settled l') (inside so e None).
Proof.
  intros Hso. apply wp_pair. intros fr s f o l' s' f' Hi E.
  unfold compensate_interrupted_legacy_add in E. exec E.
  destruct (existsb _ _ && _).
  { injection E as <- <- <- <-. split; [eapply inv_hand_over; exact Hi|]. eexists _, _. split; [reflexivity|by destruct so]. }
  cbn [slot_owed] in E.
  set (s1 := s <| the_tables ::= _ |>) in E.
  assert (H1 : inv_self (inside so e None :: fr) s1) by same Hi.
  destruct so as [e'|]; [|injection E as <- <- <- <-; split; [done|]; by eexists _, _].
  destruct (match select_pending r (the_tables s) with Some _ => _ | None => false end).
  { injection E as <- <- <- <-. split; [eapply inv_hand_over; exact H1|]. by eexists _, _. }
  injection E as <- <- <- <-. split; [|by eexists _, _].
  destruct Hso as [|[= ->]]; [done|]. pose proof (busy_epoch _ _ _ _ _ _ Hi) as ->.
  apply (inv_grant _ s1 fp _ H1).
Qed.

(** *** Transactional receipts are outside the ledger *)
Lemma discard_receipts r T : all_receipts (discard_reservation r T) = all_receipts T.
Proof. unfold discard_reservation. destruct (bool_decide _); cbn; by destruct (bool_decide _). Qed.

Lemma inv_discard ls s r : inv_self ls s -> inv_self ls (discard_any_reservation (Transactional r) s).
Proof. intros Hi. eapply inv_agree; [exact Hi|done..| |done]. apply discard_receipts. Qed.

Lemma wp_discard r (Q : outcome unit -> local -> Prop) l : Q (Ok tt) l ->
  safe (atomically (on_self (modify (discard_any_reservation (Transactional r))))) Q l.
Proof. apply wp_self_modify. intros fr s. apply inv_discard. Qed.

Lemma wp_scheduler_read fp (Q : outcome bool -> local -> Prop) l : (forall o, Q o l) ->
  safe (request_seen_for_scheduler_unlocked fp) Q l.
Proof.
  intros HQ. apply wp_bind, wp_peek. intros [|]; [apply HQ|]. apply wp_try, wp_filter.
  intros [b|x]; [apply HQ|]. destruct (unsupported x); [|destruct (transient x)]; apply HQ.
Qed.

Lemma wp_register r fp owner e l (Q : outcome started -> local -> Prop) : (forall o, Q o l) ->
  safe (atomically (on_self (register_decision r fp owner e))) Q l.
Proof.
  intros HQ. apply wp_self. intros fr s o s' Hi E. split; [|done]. unfold register_decision in E.
  destruct (bool_decide _); [by injection E as <- <-|].
  destruct owner as [w|].
  - destruct (reservations_by_owner (the_tables s) !! w); [by injection E as <- <-|].
    cbn in E. injection E as <- <-. eapply inv_agree; [exact Hi|done..|]. cbn. lia.
  - cbn in E. injection E as <- <-. eapply inv_agree; [exact Hi|done..|]. cbn. lia.
Qed.

(** *** The two decision protocols *)
Lemma wp_decision t r owner :
  safe (request_seen_decision fingerprint t r owner) (fun _ l' => settled l') (idle None).
Proof.
  apply wp_request; [done|]. intros e. cbn beta.
  set (post := fun l' => exists so ho, l' = Local so (Busy e) None Idle ho /\ settled l').
  eapply (wp_mono _ _ (fun _ => post)); [intros o l' (so & ho & -> & ?); eauto|].
  assert (Hin : post (inside None e None)) by by eexists _, _.
  destruct (fingerprint r) as [fp|x]; [|exact Hin]. cbn [pbind ptry].
  apply wp_bind, wp_register. intros [[|res|i]|x]; [exact Hin| | |exact Hin].
  - apply wp_rescue, wp_bind, wp_scope, wp_scheduler_read. intros [seen|x].
    + apply wp_pair. intros fr s f o l' s' f' Hi E. destruct seen; exec E.
      * injection E as <- <- <- <-. split; [by apply inv_discard|done].
      * injection E as <- <- <- <-. done.
    + by apply wp_discard.
  - apply wp_rescue, wp_bind, wp_scope. eapply wp_mono; [|apply wp_seen_unlocked].
    intros [[[seen st] slot]|x] l'; cbn [seen_post].
    + intros [-> Hs]. eapply wp_mono; [|by apply wp_publish]. intros [d|x] l' ->; [done|].
      eapply wp_mono; [|apply wp_compensate; auto]. by intros [[]|y] l' Hp.
    + intros (so & -> & Hso). eapply wp_mono; [|by apply wp_compensate]. by intros [[]|y] l' Hp.
Qed.

(** *** Settling reservations *)
Lemma wp_transactional t op res (body : option lease -> prog local shared unit) :
  op = Commit \/ op = Rollback -> body None = pret tt ->
  (forall le ad, ad <> Outside ->
     safe (body (Some le)) (fun _ l' => l' = Local None ad None Idle false) (Local None ad None Idle false)) ->
  safe (with_operation t op (Some (Transactional res)) body) (fun _ l' => settled l') (idle None).
Proof.
  intros Hop Hn Hb. apply wp_bind, wp_pair. intros fr s f o l' s' f' Hi E.
  unfold admit_operation in E. exec E.
  destruct (reservation_is_current (Transactional res) s) eqn:Ec; cbn [negb] in E.
  2:{ injection E as <- <- <- <-. split; [by apply (inv_unmark fr s None Outside None Idle)|by rewrite Hn]. }
  destruct (negb (accepts s) && _) eqn:Ea.
  { injection E as <- <- <- <-. split; [|by rewrite Hn].
    apply (inv_unmark fr _ None Outside None Idle). by apply inv_discard. }
  apply andb_true_iff in Ec as [Ee _]. apply Z.eqb_eq in Ee.
  injection E as <- <- <- <-. cbn [lease_epoch note_admission].
  set (ad := if decide (op = Rollback) then Settling else Busy (res_epoch res)).
  assert (Had : ad = Settling \/ ad = Busy (epoch s) /\ accepts s = true).
  { unfold ad. destruct (decide (op = Rollback)) as [|Hne]; [by left|]. right. rewrite Ee.
    split; [done|]. rewrite bool_decide_false in Ea by done. rewrite andb_true_r in Ea. by apply negb_false_iff. }
  split; [by apply inv_enter|]. apply wp_finally. eapply wp_mono; [|apply Hb].
  - intros o l' ->. apply (wp_exit _ _ _ _ o (fun _ l' => settled l')); [|done]. destruct Had as [-> |[-> _]]; done.
  - destruct Had as [-> |[-> _]]; done.
Qed.

Lemma wp_commit t res : safe (commit_reservation t res) (fun _ l' => settled l') (idle None).
Proof.
  apply wp_transactional; [auto|done|]. intros le ad Ha. apply wp_finally, wp_scope, wp_try, wp_filter.
  assert (Hq : forall (q : prog local shared unit), (exists o, q = Done o) ->
    safe q (fun o l' => safe (atomically (on_self (modify (discard_any_reservation (Transactional res)))))
      (fun oq l'' => match oq with Ok _ => l'' = Local None ad None Idle false | Raise e => l'' = Local None ad None Idle false end) l')
      (Local None ad None Idle false)).
  { intros q [o ->]. by apply wp_discard. }
  intros [b|x]; apply Hq; [eexists; reflexivity|].
  destruct (filter_full x || transient x); eexists; reflexivity.
Qed.

Lemma wp_commit_volatile t res : safe (commit_volatile_reservation t res) (fun _ l' => settled l') (idle None).
Proof.
  apply wp_transactional; [auto|done|]. intros le ad Ha. apply wp_self_modify; [|done].
  intros fr s Hi. apply inv_discard. same Hi.
Qed.

Lemma wp_rollback t res : safe (rollback_reservation t res) (fun _ l' => settled l') (idle None).
Proof. apply wp_transactional; [auto|done|]. intros le ad Ha. by apply wp_discard. Qed.

Lemma wp_rollback_intent w : safe (rollback_reservation_intent w) (fun _ l' => settled l') (idle None).
Proof.
  apply wp_self_modify; [|done]. intros fr s Hi.
  destruct (reservations_by_owner (the_tables s) !! w); [by apply inv_discard|done].
Qed.

(** *** [forget] *)
Lemma marked_alone fr s i ad ph so {ho} :
  inv_self (Local so ad (Some i) ph ho :: fr) s -> Forall (fun l => marked l = Some i -> is_busy l = false) fr.
Proof.
  intros Hi. pose proof (inv_marks _ _ Hi i) as Hm. rewrite tally_cons, marks_eq, Nat.eqb_refl in Hm.
  cbn in Hm. pose proof (count_nonneg (marks i) fr).
  assert (Hz : count (marks i) fr = 0) by lia. apply count_zero in Hz.
  eapply Forall_impl; [exact Hz|]. cbn. intros l Hl He. unfold marks in Hl. by apply bool_decide_eq_false in Hl.
Qed.

(** The receipt is removed and its mark dropped. *)
Lemma inv_settled_receipt fr s ad rc :
  inv_self (Local None ad (Some (rc_id rc)) Idle false :: fr) s ->
  count (with_id (rc_id rc)) (all_receipts (the_tables s)) = 1 ->
  inv_self (Local None ad None Idle false :: fr) (remove_legacy_reservation rc s).
Proof.
  intros Hi Hc. pose proof (marked_alone _ _ _ _ _ _ Hi) as Ha.
  apply inv_remove_receipt; [by apply inv_unmark in Hi|done|]. by constructor.
Qed.

Lemma wp_forget_select t r (Q : outcome (option receipt) -> local -> Prop) :
  (forall x, Q (Raise x) (idle None)) -> Q (Ok None) (idle None) ->
  (forall rc, Q (Ok (Some rc)) (idle (Some (rc_id rc)))) ->
  safe (atomically (let! rc := on_self (forget_select t r) in
                    let! _ := note (fun l => l <| marked := fmap rc_id rc |>) in ret rc)) Q (idle None).
Proof.
  intros H1 H2 H3. apply wp_pair. intros fr s f o l' s' f' Hi E. unfold forget_select in E. exec E.
  destruct (bool_decide (state s = CLOSED)); [by injection E as <- <- <- <-|].
  assert (Hmark : forall sel rc,
    (exists r, sel = select_pending r (the_tables s)) \/ (exists r t, sel = select_handoff r t (the_tables s)) ->
    sel = Some rc ->
    let settle := mutate (rc_id rc) (fun rc => rc <| rc_settling := true |>) in
    inv_self (idle (Some (rc_id rc)) :: fr)
      (s <| the_tables ::= fun T => T <| legacy_reservations ::= settle |> <| legacy_handoffs ::= settle |> |>)).
  { intros sel rc Hsel Hrc. destruct (selected _ _ _ (inv_once _ _ Hi) Hsel Hrc) as (S1 & S2 & S3 & _).
    by apply (inv_mark fr s rc). }
  destruct (select_handoff r t (the_tables s)) as [rc|] eqn:Eh.
  - destruct (rc_epoch rc =? epoch s); injection E as <- <- <- <-; [|done].
    split; [|exact (H3 (rc <| rc_settling := true |>))].
    apply (Hmark (select_handoff r t (the_tables s))); eauto.
  - destruct (bool_decide _); [by injection E as <- <- <- <-|].
    destruct (select_pending r (the_tables s)) as [rc|] eqn:Ep; [|by injection E as <- <- <- <-].
    destruct (rc_epoch rc =? epoch s); injection E as <- <- <- <-; [|done].
    split; [|exact (H3 (rc <| rc_settling := true |>))].
    apply (Hmark (select_pending r (the_tables s))); eauto.
Qed.

Lemma current_count rc s ls : inv_self ls s -> reservation_is_current (Legacy rc) s = true ->
  rc_epoch rc = epoch s /\ count (with_id (rc_id rc)) (all_receipts (the_tables s)) = 1.
Proof.
  intros Hi Hc. apply andb_true_iff in Hc as [He Hx]. apply Z.eqb_eq in He. split; [done|].
  pose proof (inv_once _ _ Hi (rc_id rc)) as Ho. apply existsb_exists in Hx as (x & Hx & Hid).
  apply list_elem_of_In in Hx. apply list_elem_of_split in Hx as (l1 & l2 & Hl). rewrite Hl in *.
  rewrite count_app, tally_cons in *. change (with_id (rc_id rc) x) with (is_receipt (rc_id rc) x) in *.
  rewrite Hid in *. cbn in *.
  pose proof (count_nonneg (with_id (rc_id rc)) l1). pose proof (count_nonneg (with_id (rc_id rc)) l2). lia.
Qed.

Lemma wp_forget t r : safe (forget t r) (fun _ l' => settled l') (idle None).
Proof.
  apply wp_bind, wp_forget_select; [done|done|]. intros rc.
  apply wp_bind, wp_pair. intros fr s f o l' s' f' Hi E. unfold admit_operation in E. exec E.
  destruct (reservation_is_current (Legacy rc) s) eqn:Ec; cbn [negb] in E.
  2:{ injection E as <- <- <- <-. split; [|done]. by apply inv_unmark in Hi. }
  destruct (current_count _ _ _ Hi Ec) as [Ee Hone].
  rewrite bool_decide_false in E by done. rewrite andb_true_r in E.
  destruct (accepts s) eqn:Ea; cbn [negb] in E; injection E as <- <- <- <-.
  2:{ split; [|done]. by apply inv_settled_receipt. }
  split; [|].
  { cbn -[count]. apply inv_enter; [done|right; by rewrite Ee|]. by intros i [= <-]. }
  cbn [lease_epoch note_admission].
  set (e := rc_epoch rc). apply wp_finally.
  eapply (wp_mono _ _ (fun _ l' => l' = inside None e None)).
  { intros o l' ->. by apply (wp_exit _ _ _ _ o (fun _ l' => settled l')). }
  apply wp_try, wp_scope, wp_try, wp_filter. intros ob.
  set (q := match ob with Ok _ => pret false | Raise _ => _ end).
  assert (Hq : exists o, q = Done o).
  { unfold q. destruct ob as [b|x]; [eexists; reflexivity|].
    destruct (unsupported x || transient x); eexists; reflexivity. }
  destruct Hq as [o ->]. cbn [wp].
  assert (Hend : forall so, so = inside None e (Some (rc_id rc)) ->
    safe (let? _ := atomically (let! _ := on_self (modify (remove_legacy_reservation rc)) in
                                note (fun l => l <| marked := None |>)) in
          Done (omap (fun _ => tt) o)) (fun _ l' => l' = inside None e None) so).
  { intros so ->. apply wp_bind, wp_pair. intros fr1 s1 f1 o1 l1 s2 f2 Hi1 [= <- <- <- <-].
    split; [|done]. pose proof (inv_held _ _ Hi1) as Hh. apply Forall_cons in Hh as [Hh _].
    apply inv_settled_receipt; [done|]. by apply Hh. }
  destruct (match o with Ok b => b | Raise _ => true end); [|by apply wp_bind, Hend].
  apply wp_bind, wp_self_modify; [|by apply Hend]. intros fr1 s1 Hi1.
  pose proof (inv_held _ _ Hi1) as Hh. apply Forall_cons in Hh as [Hh _].
  apply inv_grant_for_receipt; [done|]. by apply Hh.
Qed.

(** *** Lifecycle *)
Abbreviation in_state ph := (Local None Outside None ph false).

Lemma calm s ls : inv_self ls s -> busy false true s = false -> count is_busy ls = 0.
Proof.
  intros Hi Hb. unfold busy in Hb. cbn in Hb. rewrite orb_false_r in Hb.
  apply negb_false_iff, Z.eqb_eq in Hb. rewrite (inv_count _ _ Hi) in Hb. apply count_zero in Hb.
  apply count_zero. eapply Forall_impl; [exact Hb|]. cbn. intros l. unfold is_inside, is_busy.
  by destruct (admitted l).
Qed.

Lemma calm_active s : busy false true s = false -> active_operations s = 0.
Proof. unfold busy. cbn. rewrite orb_false_r. intros Hb. by apply negb_false_iff, Z.eqb_eq in Hb. Qed.

(** Leaving a transition, to any state. *)
Lemma inv_leave fr s s' ph :
  inv_self (in_state ph :: fr) s -> ph <> Idle ->
  epoch s' = epoch s -> active_operations s' = active_operations s -> the_ledger s' = the_ledger s ->
  the_tables s' = the_tables s -> next_object s' = next_object s ->
  inv_self (in_state Idle :: fr) s'.
Proof.
  intros Hi Hph E1 E2 E3 E4 E5. eapply inv_lifecycle; [exact Hi|done|done|done|done| | | |]; cbn.
  - lia.
  - destruct ph; [done|..]; cbn; destruct (accepts s'), (accepts s); cbn; lia.
  - done.
  - done.
Qed.

(** Stopping admission. *)
Lemma inv_stop fr s s' ph :
  inv_self (in_state ph :: fr) s -> accepts s' = false \/ state s' = state s ->
  epoch s' = epoch s -> active_operations s' = active_operations s -> the_ledger s' = the_ledger s ->
  the_tables s' = the_tables s -> next_object s' = next_object s ->
  inv_self (in_state ph :: fr) s'.
Proof.
  intros Hi Ha E1 E2 E3 E4 E5. eapply inv_lifecycle; [exact Hi|done|done|done|done| | | |]; cbn.
  - lia.
  - destruct Ha as [-> | Hs]; [destruct (accepts s); cbn; lia|]. unfold accepts. rewrite Hs. lia.
  - by left.
  - by left.
Qed.

Lemma accepts_spec s : accepts s = true <-> state s = NEW \/ state s = OPEN.
Proof. unfold accepts. by rewrite bool_decide_eq_true. Qed.

Lemma accepts_false x : x <> NEW -> x <> OPEN -> forall s, state s = x -> accepts s = false.
Proof. intros H1 H2 s Hs. apply not_true_iff_false. rewrite accepts_spec, Hs. by intros [?|?]. Qed.

Lemma inv_reserve_release fr s ph owner t opening o s' :
  inv_self (in_state ph :: fr) s -> reserve_release owner t opening s = (o, s') ->
  inv_self (in_state ph :: fr) s'.
Proof.
  intros Hi. unfold reserve_release.
  destruct (bool_decide (state s = CLOSED)); [by intros [= <- <-]|].
  destruct (_ && _ && _); [by intros [= <- <-]|].
  set (s1 := if bool_decide (state s = OPENING) then _ else s).
  assert (H1 : inv_self (in_state ph :: fr) s1) by (unfold s1; destruct (bool_decide _); [same Hi|done]).
  clearbody s1. clear Hi s. destruct (_ && _); [by intros [= <- <-]|].
  destruct (reentered t s1); [by intros [= <- <-]|].
  assert (Hr : forall s2 o s', inv_self (in_state ph :: fr) s2 ->
    (if release_in_progress (the_transitions s2)
     then if bool_decide (release_thread (the_transitions s2) = Some t) then (Ok false, s2) else (Raise ERuntime, s2)
     else (Ok true, set_transitions (fun x => x <| release_in_progress := true |> <| release_thread := Some t |>
               <| close_requested := bool_decide (state s2 = CLEARING) |>
               <| opened_spider := None |>) s2 <| state := CLOSING |>)) = (o, s') ->
    inv_self (in_state ph :: fr) s').
  { clear. intros s2 o s' H2. destruct (release_in_progress _); [destruct (bool_decide _); by intros [= <- <-]|].
    intros [= <- <-]. eapply inv_stop; [exact H2|left; by apply (accepts_false CLOSING)|done..]. }
  destruct (release_owner (the_transitions s1)) as [w|].
  - destruct (release_owners_are_aliases _ _ _); [by apply Hr|by intros [= <- <-]].
  - apply Hr. same H1.
Qed.

Lemma wp_reserve_release ph owner t opening (Q : outcome bool -> local -> Prop) :
  (forall o, Q o (in_state ph)) -> safe (atomically (on_self (reserve_release owner t opening))) Q (in_state ph).
Proof.
  intros HQ. apply wp_self. intros fr s o s' Hi E. split; [by eapply inv_reserve_release|done].
Qed.

Lemma wp_transitions f (Q : outcome unit -> local -> Prop) l : Q (Ok tt) l ->
  safe (atomically (on_self (modify (set_transitions f)))) Q l.
Proof. apply wp_self_modify. intros fr s Hi. same Hi. Qed.

Lemma wp_guard (b : self -> bool) (Q : outcome unit -> local -> Prop) l : (forall o, Q o l) ->
  safe (atomically (let! s := on_self get in if b s then raise ERuntime else ret tt)) Q l.
Proof.
  intros HQ. apply wp_pair. intros fr s f o l' s' f' Hi E. exec E.
  destruct (b s); injection E as <- <- <- <-; done.
Qed.

Lemma wp_close_locked t a b wa wb :
  safe (close_locked filter_close manager_close drain_timeout_s t a b wa wb) (fun _ l' => settled l') (in_state Idle).
Proof.
  unfold close_locked. apply wp_bind.
  apply (wp_guard (fun s => clear_in_progress (the_transitions s) &&
    bool_decide (transition_thread (the_transitions s) = Some t))). intros [[]|x]; [|done].
  apply wp_bind, wp_drain. intros o fr [s f] o' l' g' Hi _ [= <- <- <-]. split; [done|].
  destruct o as [[]|x]; [|done].
  apply wp_bind, (wp_guard (reentered t)). intros [[]|x]; [|done].
  apply wp_bind, wp_drain. clear. intros o fr [s f] o' l' [s' f'] Hi Hb E.
  destruct o as [[]|x]; exec E; injection E as <- <- <- <-; [|done].
  destruct Hb as [Hb|]; [|done]. split; [exact (proj1 (inv_clear _ _ Hi (calm _ _ Hi Hb)))|].
  apply wp_bind, wp_peek. intros released.
  apply wp_bind.
  eapply (wp_mono _ _ (fun o l => l = in_state Idle /\ exists p, o = Ok p)).
  2:{ destruct released; [by split; [|eexists]|]. apply wp_try, wp_filter. intros [[]|x]; [|by split; [|eexists]].
      apply wp_bind, wp_transitions. by split; [|eexists]. }
  intros o l [-> [p ->]]. apply wp_bind, wp_peek. intros x. apply wp_bind.
  eapply (wp_mono _ _ (fun o l => l = in_state Idle /\ exists p, o = Ok p)).
  2:{ destruct manager_close as [rel|]; [|by split; [|eexists]].
      destruct (_ && _); [|by split; [|eexists]]. apply wp_try, wp_filter.
      intros [[]|y]; [|by split; [|eexists]]. apply wp_bind, wp_transitions. by split; [|eexists]. }
  intros o l [-> [p' ->]]. apply wp_bind, wp_self_modify; [|by destruct p'].
  clear. intros fr s Hi. destruct (_ && _); [|done].
  eapply inv_stop; [exact Hi|left; by apply (accepts_false CLOSED)|done..].
Qed.

Lemma wp_run_reserved_release t a b wa wb :
  safe (run_reserved_release filter_close manager_close drain_timeout_s t a b wa wb)
    (fun _ l' => settled l') (in_state Idle).
Proof.
  apply wp_finally. eapply wp_mono; [|apply wp_close_locked]. intros o l Hl. cbn beta.
  by apply wp_transitions.
Qed.

Lemma wp_release w t a b wa wb :
  safe (release filter_close manager_close drain_timeout_s w t a b wa wb) (fun _ l' => settled l') (in_state Idle).
Proof.
  apply wp_bind, wp_reserve_release. intros [[|]|x]; [|done|done]. apply wp_run_reserved_release.
Qed.

Lemma wp_open_failed x fr s (f : F) o l' s' f' :
  inv_self (in_state Waiting :: fr) s -> open_failed x (in_state Waiting, (s, f)) = (o, (l', (s', f'))) ->
  inv_self (l' :: fr) s' /\ o = Raise x /\ l' = in_state Idle.
Proof.
  intros Hi E. unfold open_failed in E. exec E. injection E as <- <- <- <-.
  split; [|done]. by eapply inv_leave; [exact Hi|done..].
Qed.

Lemma wp_open_begin t sp (Q : outcome (option nat) -> local -> Prop) :
  (forall x, Q (Raise x) (in_state Idle)) -> Q (Ok None) (in_state Idle) ->
  (forall i, Q (Ok (Some i)) (in_state Waiting)) ->
  safe (atomically (open_begin (F := F) t sp)) Q (in_state Idle).
Proof.
  intros H1 H2 H3. apply wp_pair. intros fr s f o l' s' f' Hi E. unfold open_begin in E. exec E.
  destruct (state s) eqn:Es; try (by injection E as <- <- <- <-).
  - cbn [fresh] in E. set (s1 := set_transitions _ _ <| state := OPENING |>) in E.
    assert (Hi1 : inv_self (in_state Waiting :: fr) s1).
    { eapply inv_lifecycle; [exact Hi|done|done|done|done| | | |]; try done.
      - cbn. lia.
      - rewrite (proj2 (accepts_spec s)) by auto.
        by rewrite (accepts_false OPENING). }
    cbn zeta in E. destruct (reentered t s).
    + destruct (open_failed ERuntime (in_state Waiting, (s1, f))) as [o1 [l1 [s2 f2]]] eqn:Ef.
      destruct (wp_open_failed _ _ _ _ _ _ _ _ Hi1 Ef) as (Hi2 & -> & ->).
      unfold s1 in Ef. cbn in Ef, E. 
      injection Ef as <- <-. injection E as <- <- <- <-. done.
    + injection E as <- <- <- <-. by split.
  - destruct (bool_decide _); by injection E as <- <- <- <-.
Qed.

(** Behind the boundary of [open]. *)
Lemma wp_cross o fr (g : shared (F := F)) o' l' g' :
  inv (in_state Waiting :: fr) g -> busy false true (fst g) = false \/ o = Raise (ETimeout "backend-dupefilter-quiescence-drain") ->
  cross_open_boundary o (in_state Waiting, g) = (o', (l', g')) ->
  inv (l' :: fr) g' /\
  ((exists x, o' = Raise x /\ l' = in_state Idle) \/ (o' = Ok tt /\ l' = in_state Opened)).
Proof.
  intros Hi Hb E. destruct g as [s f], g' as [s' f'], o as [[]|x].
  - destruct Hb as [Hb|]; [|done]. unfold cross_open_boundary in E. exec E. injection E as <- <- <- <-.
    split; [|auto]. destruct (inv_clear _ _ Hi (calm _ _ Hi Hb)) as (Hc & Hz & Hr).
    eapply inv_lifecycle; [exact Hc|done|done|done|done| | | |]; try done.
    + intros _. right. apply (calm_active _ Hb).
    + intros _. by right.
  - destruct (wp_open_failed _ _ _ _ _ _ _ _ Hi E) as (Hi2 & -> & ->). eauto.
Qed.

Lemma wp_open_end token (Q : outcome unit -> local -> Prop) sp : (forall o, Q o (in_state Idle)) ->
  safe (atomically (
    let! s := on_self get in
    let! _ := note (fun l => l <| in_phase := Idle |>) in
    if bool_decide (open_owner (the_transitions s) = Some token) then
      on_self (modify (fun s =>
        set_transitions (fun x => x <| opened_spider := sp |> <| open_owner := None |>) s
          <| state := OPEN |>))
    else raise ERuntime)) Q (in_state Opened).
Proof.
  intros HQ. apply wp_pair. intros fr s f o l' s' f' Hi E. exec E.
  destruct (bool_decide _); injection E as <- <- <- <-; (split; [|apply HQ]).
  - by eapply inv_leave; [exact Hi|done..].
  - by eapply inv_leave; [exact Hi|done..].
Qed.

Lemma wp_open t sp a b c wa wb wc :
  safe (open resolve_spider_key filter_open filter_close manager_close clear_on_open drain_timeout_s
          t sp a b c wa wb wc) (fun _ l' => settled l') (in_state Idle).
Proof.
  apply wp_bind, wp_open_begin; [done|done|]. intros token. apply wp_bind, wp_drain.
  intros o fr g o' l' g' Hi Hb E.
  destruct (wp_cross _ _ _ _ _ _ Hi Hb E) as [Hi' [(x & -> & ->)|[-> ->]]]; (split; [exact Hi'|]); [done|].
  apply wp_try.
  eapply (wp_mono _ _ (fun _ l => l = in_state Opened)).
  2:{ apply wp_bind. assert (Hb' : forall o : outcome unit, match o with
        | Ok _ => safe (with_filter_lock t (let? _ := atomically (on_filter filter_open) in
                    if clear_on_open then atomically (on_filter mf_clear) else pret tt))
                    (fun _ l => l = in_state Opened) (in_state Opened)
        | Raise _ => in_state Opened = in_state Opened end).
      { intros [[]|x]; [|done]. apply wp_with_filter_lock, wp_bind, wp_filter. intros [[]|x]; [|done].
        destruct clear_on_open; [by apply wp_filter|done]. }
      destruct sp as [x|]; [exact (Hb' (resolve_spider_key x))|exact (Hb' (Ok tt))]. }
  clear. intros [[]|x] l ->.
  - apply wp_bind. destruct clear_on_open; [|by apply wp_open_end].
    apply wp_self_modify; [|by apply wp_open_end]. intros fr s. apply inv_clear_again.
  - apply wp_try, wp_bind, wp_pair. intros fr s f o l' s' f' Hi E. exec E.
    destruct (reserve_release direct_release_owner t (Some token) s) as [o1 s1] eqn:Er.
    assert (Hi' : inv_self (in_state Idle :: fr) s).
    { eapply inv_lifecycle; [exact Hi|done|done|done|done| | | |]; try done. cbn. lia. }
    pose proof (inv_reserve_release _ _ _ _ _ _ _ _ Hi' Er) as H1.
    injection E as <- <- <- <-. split; [done|]. destruct o1 as [[|]|y]; [|done|done].
    eapply wp_mono; [|apply wp_run_reserved_release]. done.
Qed.

Lemma inv_ended fr s f final ph o l' s' (f' : F) :
  inv_self (in_state ph :: fr) s -> ph <> Idle ->
  clear_ended final (in_state ph, (s, f)) = (o, (l', (s', f'))) ->
  inv_self (l' :: fr) s' /\ o = Ok tt /\ l' = in_state Idle.
Proof.
  intros Hi Hp E. unfold clear_ended in E. exec E. injection E as <- <- <- <-.
  split; [|done]. by eapply inv_leave; [exact Hi|done..].
Qed.

Lemma wp_clear_begin t (Q : outcome lifecycle -> local -> Prop) :
  (forall x, Q (Raise x) (in_state Idle)) -> (forall p, Q (Ok p) (in_state Waiting)) ->
  safe (atomically (clear_begin (F := F) t)) Q (in_state Idle).
Proof.
  intros H1 H2. apply wp_pair. intros fr s f o l' s' f' Hi E. unfold clear_begin, clear_ended in E. exec E.
  set (s1 := set_transitions (fun x => x <| clear_in_progress := true |> <| transition_thread := Some t |>) s
               <| state := CLEARING |>).
  assert (Hi1 : accepts s = true -> inv_self (in_state Waiting :: fr) s1).
  { intros Ha. eapply inv_lifecycle; [exact Hi|done|done|done|done| | | |]; try done.
    rewrite Ha. by rewrite (accepts_false CLEARING). }
  destruct (state s) eqn:Es; try (by injection E as <- <- <- <-);
    (specialize (Hi1 (proj2 (accepts_spec s) ltac:(auto)));
     destruct (reentered t s); injection E as <- <- <- <-; [|by split];
     split; [|done]; by eapply inv_leave; [exact Hi1|done..]).
Qed.

Lemma wp_clear t a wa :
  safe (clear drain_timeout_s t a wa) (fun _ l' => settled l') (in_state Idle).
Proof.
  apply wp_bind, wp_clear_begin; [done|]. intros prior. apply wp_bind, wp_drain.
  intros o fr [s f] o' l' [s' f'] Hi Hb E. destruct o as [[]|x].
  - destruct Hb as [Hb|]; [|done]. injection E as <- <- <- <-. split.
    + eapply inv_lifecycle; [exact Hi|done|done|done|done| | | |]; try done.
      intros _. right. apply (calm_active _ Hb).
    + apply wp_try, wp_with_filter_lock, wp_filter. clear. intros o. apply wp_bind, wp_pair.
      intros fr s f o' l' s' f' Hi E.
      set (s1 := match o with Ok _ => clear_retry_allowances true true s | Raise _ => s end).
      assert (H1 : inv_self (in_state Drained :: fr) s1).
      { unfold s1. destruct o; [|done]. apply inv_clear; [done|]. apply (inv_quiet _ _ Hi).
        rewrite tally_cons. pose proof (count_signs s fr). cbn. lia. }
      assert (E' : clear_ended (if close_requested (the_transitions s1) then CLOSING else prior)
        (in_state Drained, (s1, f)) = (o', (l', (s', f')))).
      { rewrite <- E. unfold s1. by destruct o. }
      destruct (inv_ended _ _ _ _ _ _ _ _ _ H1 ltac:(done) E') as (H2 & -> & ->). done.
  - assert (E' : exists o'', clear_ended prior (in_state Waiting, (s, f)) = (o'', (l', (s', f'))) /\ o' = Raise x).
    { unfold clear_ended in *. exec E. injection E as <- <- <- <-. eexists. split; [reflexivity|done]. }
    destruct E' as (o'' & E' & ->).
    destruct (inv_ended _ _ _ _ _ _ _ _ _ Hi ltac:(done) E') as (H2 & _ & ->). done.
Qed.

Lemma wp_client p : client fingerprint resolve_spider_key filter_open filter_close manager_close
    clear_on_open drain_timeout_s p -> safe p (fun _ l' => settled l') thread_start.
Proof.
  intros Hc. destruct Hc.
  - apply wp_call_ends, wp_bind. eapply wp_mono; [|apply wp_decision]. by intros [d|x].
  - apply wp_call_ends, wp_bind. destruct w as [w|].
    + cbn [wp pret]. apply wp_decision.
    + apply wp_self. intros fr s o s' Hi [= <- <-]. split; [|apply wp_decision].
      eapply inv_agree; [exact Hi|done..|]. cbn. lia.
  - apply wp_commit.
  - apply wp_commit_volatile.
  - apply wp_rollback.
  - apply wp_rollback_intent.
  - apply wp_call_ends, wp_self. intros fr s o s' Hi E. split; [|done]. by eapply inv_consume_receipt.
  - apply wp_call_ends, wp_self. intros fr s o s' Hi E. split; [|done]. by eapply inv_settle_receipt.
  - apply wp_forget.
  - apply wp_open.
  - apply wp_clear.
  - apply wp_release.
  - apply wp_self_modify; [|done]. intros fr s Hi. destruct (_ || _); [done|same Hi].
  - apply wp_section. intros fr [s f] o l' [s' f'] Hi Hg [= <- <- <- <-]. split; [|done].
    by apply inv_collected.
Qed.

Lemma inv_new_filter : inv_self [] init.
Proof. split; try done; try (by constructor); intros i; cbn; lia. Qed.

Lemma inv_start ls s : inv_self ls s -> inv_self (thread_start :: ls) s.
Proof.
  unfold thread_start. intros [A B C D E F' G H' I J K L M N O].
  split; expand; try done; try lia; try solve [marking M].
  intros Ho. rewrite Z.add_0_r in Ho. destruct (J Ho). split; [lia|done].
Qed.

Lemma pool_safe ts g f :
  rtc (step fingerprint resolve_spider_key filter_open filter_close manager_close clear_on_open drain_timeout_s)
    ([], (init, f)) (ts, g) ->
  inv_self (map fst ts) (fst g) /\ Forall (fun t => forall o, snd t = Done o -> settled (fst t)) ts.
Proof.
  intros Hs. apply (ending_pool_steps _ (inv (F := F)) (fun ls ls' g0 => inv_self_perm ls ls' (fst g0))
    (fun _ l => settled l)) in Hs.
  - destruct Hs as [Hi Hw]. split; [exact Hi|]. eapply Forall_impl; [exact Hw|]. cbn.
    intros [l p] Hp o E. cbn in *. by rewrite E in Hp.
  - intros l p [-> Hc]. by apply wp_client.
  - intros l p ls g0 [-> _]. apply inv_start.
  - split; [apply inv_new_filter|constructor].
Qed.
End Methods.
End DupeFilterFacts.
