(* ===== verification/DupeFilterAlone.v ===== *)
(** * The duplicate filter: calls that run alone

    The sequential behaviour of the calls of [DupeFilter]: the boolean protocol
    refines its specification, a transactional check leaves no marker until it
    is committed, a filter that cannot remove grants exactly one retry, and a
    recorded fingerprint is reported by both protocols (against the interface
    [NoFalseNegatives] of the membership filters). *)

From S2P Require Export DupeFilterFacts.

Module DupeFilterAlone.
Import DupeFilter DupeFilterFacts.

(** ** Calls that run alone *)

(** No call is inside: the bookkeeping of the admitted operations is empty. *)
Record quiescent (s : self) : Prop := {
  q_accepts : accepts s = true;
  q_active : active_operations s = 0;
  q_epochs : active_operations_by_epoch s = ∅;
  q_threads : active_operation_threads s = ∅;
  q_lock : filter_lock s = None;
  q_marks : filter_requests s = ∅;
  q_intents : legacy_add_intents (the_tables s) = [];
  q_slots : 0 <= slots_reserved (the_ledger s)
}.

Section Alone.
Context {F : Type} `{MembershipFilter F} (fingerprint : nat -> outcome bytes).

(** The decision of one call, as a function of the recovery ledger and the
    filter: the answer, whether a marker or an allowance backs it, and whether
    the call is left with an admission slot. *)
Definition decide_seen (fp : bytes) (hit : bool) (L : ledger) (f : F)
    : outcome (bool * option added_state) * bool * ledger * F :=
  let with_slot := L <| slots_reserved ::= Z.succ |> in
  if hit then (Ok (true, None), false, L, f)
  else if bool_decide (fp ∈ retry_allowances L) then
    (Ok (false, Some Allowance), true, with_slot <| retry_allowances ::= MemoryFilter.drop_item fp |>, f)
  else if allowance_limit L <=? ledger_size L then
    let '(_, L) := note_retry_allowance_backpressure L in
    match mf_contains fp f with
    | (Ok b, f') => (Ok (b, None), false, L, f')
    | (Raise e, f') =>
        (if unsupported e then Raise ERuntime
         else if transient e then Ok (false, None) else Raise e, false, L, f')
    end
  else
    match mf_add fp f with
    | (Ok true, f') => (Ok (false, Some Added), true, with_slot, f')
    | (Ok false, f') => (Ok (true, None), false, L, f')
    | (Raise e, f') =>
        if unsupported e then (Raise ERuntime, false, L, f')
        else if filter_full e || transient e then (Ok (false, None), false, L, f')
        else (Raise e, true, with_slot, f')
    end.

(** Whether an earlier receipt of the request stands for the interrupted one. *)
Definition stands_in (r : nat) (fp : bytes) (s : self) : bool :=
  match select_pending r (the_tables s) with
  | Some rc => bool_decide (rc_fingerprint rc = fp) && rc_slot rc
  | None => false
  end.

(** The specification of [request_seen]: a decision, then the publication of a
    receipt or the compensation of an interruption. *)
Definition seen_spec (r : nat) (fp : bytes) (s : self) (f : F) : outcome bool * (self * F) :=
  let '(o, owed, L, f') := decide_seen fp (in_shadow fp s) (the_ledger s) f in
  let s1 := s <| next_object ::= S |> in
  match o with
  | Ok (b, st) =>
      let s2 := s1 <| the_ledger := L |> in
      (Ok b, (match st with Some _ => new_legacy_reservation r fp true s2 | None => s2 end, f'))
  | Raise e =>
      let L' := if owed && negb (stands_in r fp s) then snd (grant_retry_allowance fp true L) else L in
      (Raise e, (s1 <| the_ledger := L' |>, f'))
  end.

Lemma count_up_down {K} `{Countable K} (k : K) :
  count_down k (<[k := default 0 ((∅ : gmap K Z) !! k) + 1]> ∅) = ∅.
Proof.
  unfold count_down. rewrite lookup_insert_eq. cbn. rewrite lookup_empty. cbn.
  by rewrite delete_insert_id || (rewrite insert_empty; apply delete_singleton_eq).
Qed.

Lemma run_request {A} t (body : option lease -> prog local shared A) (s : self) (f : F) :
  accepts s = true ->
  run (with_operation t RequestSeen None body) thread_start (s, f) =
  match run (body (Some (Lease (epoch s) t))) (Local None (Busy (epoch s)) None Idle false)
          (enter_operation (epoch s) t s, f) with
  | Some (o, (l', (s', f'))) =>
      Some (o, (l' <| admitted := Outside |>, (exit_operation (Lease (epoch s) t) s', f')))
  | None => None
  end.
Proof.
  intros Ha. unfold with_operation. rewrite run_bind, run_atomically. unfold admit_operation. execute. rewrite Ha. execute.
  rewrite run_finally. unfold note_admission. cbn -[run].
  destruct (run _ _ _) as [[o [l' [s' f']]]|]; [|done]. by rewrite run_atomically.
Qed.

Lemma run_scope {A} t r (body : prog local shared A) l (s : self) (f : F) :
  filter_lock s = None -> filter_requests s = ∅ ->
  run (filter_operation_scope t r body) l (s, f) =
  match run body l (s <| filter_lock := Some (t, 1%nat) |> <| filter_requests := {[r]} ∪ ∅ |>, f) with
  | Some (o, (l', (s', f'))) =>
      Some (o, (l', (unlock_filter (s' <| filter_requests ::= fun x => x ∖ {[r]} |>), f')))
  | None => None
  end.
Proof.
  intros Hk Hm. unfold filter_operation_scope, with_filter_lock. rewrite run_bind, run_section.
  2:{ unfold lock_free. cbn. by rewrite Hk. }
  execute. rewrite run_finally, run_bind, run_atomically. execute.
  rewrite run_finally. cbn -[run]. rewrite Hm, bool_decide_false by done.
  replace ((lock_filter t s) <| filter_requests ::= _ |>)
    with (s <| filter_lock := Some (t, 1%nat) |> <| filter_requests := {[r]} ∪ ∅ |>).
  2:{ unfold lock_filter, update. cbn. by rewrite Hm, Hk. }
  destruct (run _ _ _) as [[o [l' [s' f']]]|]; [|done].
  rewrite run_atomically. execute. by rewrite run_atomically.
Qed.

Lemma ledger_eta (s : self) : s <| the_ledger := the_ledger s |> = s.
Proof. by destruct s. Qed.

Lemma release_reserved L : 0 <= slots_reserved L ->
  release_retry_allowance_slot (L <| slots_reserved ::= Z.succ |>) = L.
Proof.
  intros Hp. rewrite release_slots by (cbn; lia). destruct L. unfold update, eta. cbn. f_equal. lia.
Qed.

Lemma run_release_slot {A} (p : prog local shared A) e (s : self) (f : F) :
  0 <= slots_reserved (the_ledger s) ->
  run (let? _ := release_slot in p) (Local (Some e) (Busy e) None Idle false)
    (s <| the_ledger := the_ledger s <| slots_reserved ::= Z.succ |> |>, f) =
  run p (Local None (Busy e) None Idle false) (s, f).
Proof.
  intros Hp. unfold release_slot. rewrite run_bind, run_atomically. execute. cbn -[run]. do 3 f_equal.
  destruct s. unfold update. cbn in *. f_equal. by apply release_reserved.
Qed.

Lemma run_unlocked fp e (s : self) (f : F) : epoch s = e -> 0 <= slots_reserved (the_ledger s) ->
  run (request_seen_unlocked fp) (Local None (Busy e) None Idle false) (s, f) =
  let '(o, owed, L, f') := decide_seen fp (in_shadow fp s) (the_ledger s) f in
  Some (omap (fun x => (x, owed)) o,
    (Local (if owed then Some e else None) (Busy e) None Idle false, (s <| the_ledger := L |>, f'))).
Proof.
  intros <- Hp. unfold request_seen_unlocked, decide_seen. rewrite run_bind, run_atomically. execute.
  destruct (in_shadow fp s); [by rewrite ledger_eta|]. unfold take_slot. rewrite run_bind, run_atomically. execute.
  unfold consume_retry_allowance. case_bool_decide as Hin; [done|]. execute. rewrite ledger_eta.
  rewrite run_bind, run_atomically. unfold reserve_retry_allowance_slot. execute.
  destruct (allowance_limit (the_ledger s) <=? ledger_size (the_ledger s)); execute.
  - rewrite ledger_eta. cbn [negb]. rewrite run_bind, run_atomically. execute.
    destruct (note_retry_allowance_backpressure (the_ledger s)) as [b L]. execute.
    rewrite run_try. unfold filter_contains. rewrite run_atomically. execute.
    destruct (mf_contains fp f) as [[c|x] f']; [done|].
    destruct (unsupported x); [done|by destruct (transient x)].
  - cbn [negb]. rewrite run_try. unfold filter_add. rewrite run_atomically. execute.
    destruct (mf_add fp f) as [[[|]|x] f']; [done| |].
    + etrans; [by apply (run_release_slot _ (epoch s) s f')|]. by rewrite ledger_eta.
    + destruct (unsupported x); [etrans; [by apply (run_release_slot _ (epoch s) s f')|by rewrite ledger_eta]|].
      destruct (filter_full x || transient x); [|done].
      etrans; [by apply (run_release_slot _ (epoch s) s f')|]. by rewrite ledger_eta.
Qed.

(** *** The bookkeeping around the decision *)

(** Admitted, registered and inside the scope; and outside it again. *)
Definition within (t r : nat) (s : self) (L : ledger) (T : tables) (n : nat) : self :=
  Self (state s) (epoch s) (Z.succ (active_operations s))
    (<[epoch s := default 0 (active_operations_by_epoch s !! epoch s) + 1]> (active_operations_by_epoch s))
    (<[t := default 0 (active_operation_threads s !! t) + 1]> (active_operation_threads s))
    (Some (t, 1%nat)) ({[r]} ∪ ∅) L T (the_shadow s) (the_transitions s) n.

Definition outside (t r : nat) (s : self) (L : ledger) (T : tables) (n : nat) : self :=
  Self (state s) (epoch s) (Z.succ (active_operations s))
    (<[epoch s := default 0 (active_operations_by_epoch s !! epoch s) + 1]> (active_operations_by_epoch s))
    (<[t := default 0 (active_operation_threads s !! t) + 1]> (active_operation_threads s))
    None (({[r]} ∪ ∅) ∖ {[r]}) L T (the_shadow s) (the_transitions s) n.

Definition changed (s : self) (L : ledger) (T : tables) (n : nat) : self :=
  Self (state s) (epoch s) (active_operations s) (active_operations_by_epoch s)
    (active_operation_threads s) (filter_lock s) (filter_requests s) L T (the_shadow s) (the_transitions s) n.

Lemma exit_outside t r s L T n : quiescent s ->
  exit_operation (Lease (epoch s) t) (outside t r s L T n) = changed s L T n.
Proof.
  intros [Q1 Q2 Q3 Q4 Q5 Q6 Q7 Q8]. unfold exit_operation, outside, changed, update, eta, eta_self.
  cbn -[insert union difference singleton lookup count_down].
  rewrite Q3, Q4, Q5, Q6, Z.pred_succ, !count_up_down, union_empty_r_L, difference_diag_L. done.
Qed.

(** Reducing record updates and projections, and nothing else. *)
Ltac fields :=
  cbv beta iota zeta delta [update eta eta_self eta_tables eta_ledger eta_local
    state epoch active_operations active_operations_by_epoch active_operation_threads filter_lock
    filter_requests the_ledger the_tables the_shadow the_transitions next_object
    active_reservations reservations_by_owner legacy_reservations legacy_handoffs legacy_add_intents
    pending_requests retired_requests
    retry_allowances slots_reserved allowance_limit overflow_warned
    within outside changed enter_operation].

Definition intend (T : tables) (r i : nat) : tables := T <| legacy_add_intents := [(r, i)] |>.

Lemma run_seen t r fp (s : self) (f : F) : quiescent s -> fingerprint r = Ok fp ->
  run (request_seen fingerprint t r) thread_start (s, f) =
  let '(o, owed, L, f1) := decide_seen fp (in_shadow fp s) (the_ledger s) f in
  let s2 := outside t r s L (intend (the_tables s) r (next_object s)) (S (next_object s)) in
  let l := Local (if owed then Some (epoch s) else None) (Busy (epoch s)) None Idle false in
  let finish A (m : M (local * shared) A) :=
    let '(o, (l, (s3, f3))) := m (l, (s2, f1)) in
    (o, (l <| admitted := Outside |>, (exit_operation (Lease (epoch s) t) s3, f3))) in
  match o with
  | Ok (b, st) =>
      let '(o, x) := finish _ (publish_legacy r (next_object s) fp st owed) in Some (Ok b, x)
  | Raise e =>
      let '(o, x) := finish _ (compensate_interrupted_legacy_add r (next_object s) fp) in Some (Raise e, x)
  end.
Proof.
  intros [Q1 Q2 Q3 Q4 Q5 Q6 Q7 Q8] Hfp. unfold request_seen, request_seen_decision.
  rewrite run_bind, run_request, Hfp by done. cbn [pbind ptry].
  rewrite run_bind, run_atomically. unfold register_decision. execute.
  rewrite bool_decide_false by (cbn; rewrite Q6; done). unfold register_legacy_add_intent, fresh. execute.
  rewrite run_rescue, run_bind, run_scope by done.
  rewrite run_unlocked by done.
  replace (_ <| filter_lock := Some (t, 1%nat) |> <| filter_requests := {[r]} ∪ ∅ |>)
    with (within t r s (the_ledger s) (intend (the_tables s) r (next_object s)) (S (next_object s))).
  2:{ clear -Q7. unfold intend. destruct s as [a b c d e g h L T i j k]. destruct T. cbn in Q7. subst.
      fields. reflexivity. }
  change (in_shadow fp (within t r s _ _ _)) with (in_shadow fp s).
  cbn [the_ledger within].
  destruct (decide_seen fp (in_shadow fp s) (the_ledger s) f) as [[[o owed] L] f1].
  set (T := intend (the_tables s) r (next_object s)). set (n := S (next_object s)).
  change (unlock_filter _) with (outside t r s L T n).
  destruct o as [[b st]|x]; cbn [omap].
  - rewrite run_atomically. by execute.
  - rewrite run_atomically. execute.
    destruct (compensate_interrupted_legacy_add _ _ _ _) as [o [l2 [s3 f3]]] eqn:Ec.
    assert (o = Ok tt) as ->; [|done].
    clear -Ec. unfold compensate_interrupted_legacy_add in Ec. exec Ec.
    repeat case_match; by simplify_eq.
Qed.

Lemma drop_own r i : drop_intent r i [(r, i)] = [].
Proof. unfold drop_intent. by rewrite filter_cons_False by (intros Hn; by apply Hn). Qed.

Lemma intend_drop (T : tables) r i : legacy_add_intents T = [] ->
  intend T r i <| legacy_add_intents ::= drop_intent r i |> = T.
Proof.
  intros Hl. unfold intend. destruct T. cbn in Hl. subst. fields. f_equal. apply drop_own.
Qed.

Lemma run_publish t r i fp (st : option added_state) (owed : bool) e (s : self) L n (f : F) :
  legacy_add_intents (the_tables s) = [] -> owed = (match st with Some _ => true | None => false end) ->
  publish_legacy r i fp st owed
    (Local (if owed then Some e else None) (Busy e) None Idle false, (outside t r s L (intend (the_tables s) r i) n, f)) =
  (Ok tt, (Local None (Busy e) None Idle false,
    (match st with
     | Some _ => outside t r s L (the_tables (new_legacy_reservation r fp true (changed s L (the_tables s) n))) (S n)
     | None => outside t r s L (the_tables s) n
     end, f))).
Proof.
  intros Hl ->. unfold publish_legacy. execute. destruct st as [a|].
  - unfold new_legacy_reservation, fresh. fields. do 4 f_equal.
    destruct s as [a1 b1 c1 d1 e1 g1 h1 L1 T1 i1 j1 k1]. destruct T1. cbn in Hl. subst. unfold intend. fields.
    f_equal. by rewrite drop_own.
  - do 2 f_equal. unfold intend. destruct s as [a1 b1 c1 d1 e1 g1 h1 L1 T1 i1 j1 k1]. destruct T1. cbn in Hl. subst.
    fields. by rewrite drop_own.
Qed.

Lemma run_compensate t r i fp (owed : bool) e (s : self) L n (f : F) : legacy_add_intents (the_tables s) = [] ->
  exists l, compensate_interrupted_legacy_add r i fp
    (Local (if owed then Some e else None) (Busy e) None Idle false, (outside t r s L (intend (the_tables s) r i) n, f)) =
  (Ok tt, (l, (outside t r s (if owed && negb (stands_in r fp s) then snd (grant_retry_allowance fp true L) else L)
    (the_tables s) n, f))).
Proof.
  intros Hl. unfold compensate_interrupted_legacy_add. execute.
  change (legacy_add_intents (the_tables (outside t r s L (intend (the_tables s) r i) n))) with [(r, i)].
  rewrite (bool_decide_true ((r, i) ∈ [(r, i)])) by (by left). rewrite andb_false_r.
  change (select_pending r (the_tables (outside t r s L (intend (the_tables s) r i) n)))
    with (select_pending r (the_tables s)). fold (stands_in r fp s).
  change (outside t r s L (intend (the_tables s) r i) n <| the_tables ::= _ |>)
    with (outside t r s L (intend (the_tables s) r i <| legacy_add_intents ::= drop_intent r i |>) n).
  rewrite intend_drop by done.
  destruct owed; cbn [slot_owed]; [|by eexists].
  destruct (stands_in r fp s); by eexists.
Qed.

(** The boolean protocol run alone is its specification. *)
Lemma run_request_seen t r fp (s : self) (f : F)
    (Hq : quiescent s) (Hfp : fingerprint r = Ok fp) :
  exists l, run (request_seen fingerprint t r) thread_start (s, f) =
    Some (fst (seen_spec r fp s f), (l, snd (seen_spec r fp s f))).
Proof.
  rewrite (run_seen t r fp) by done. unfold seen_spec. pose proof (q_intents _ Hq) as Qi.
  destruct (decide_seen fp (in_shadow fp s) (the_ledger s) f) as [[[o owed] L] f1] eqn:Ed.
  destruct o as [[b st]|x]; cbv zeta.
  - rewrite run_publish; [|done|].
    2:{ revert Ed. unfold decide_seen. repeat case_match; intros; by simplify_eq. }
    destruct st as [a|]; rewrite exit_outside by done; by eexists.
  - destruct (run_compensate t r (next_object s) fp owed (epoch s) s L (S (next_object s)) f1 Qi) as [l ->].
    rewrite exit_outside by done. by eexists.
Qed.

(** *** The transactional protocol *)
Definition entered (t : nat) (s : self) (L : ledger) (T : tables) (n : nat) : self :=
  Self (state s) (epoch s) (Z.succ (active_operations s))
    (<[epoch s := default 0 (active_operations_by_epoch s !! epoch s) + 1]> (active_operations_by_epoch s))
    (<[t := default 0 (active_operation_threads s !! t) + 1]> (active_operation_threads s))
    (filter_lock s) (filter_requests s) L T (the_shadow s) (the_transitions s) n.

Lemma exit_entered t s L T n : quiescent s ->
  exit_operation (Lease (epoch s) t) (entered t s L T n) = changed s L T n.
Proof.
  intros [Q1 Q2 Q3 Q4 Q5 Q6 Q7 Q8]. unfold exit_operation, entered, changed, update, eta, eta_self.
  cbn -[insert union difference singleton lookup count_down].
  rewrite Q3, Q4, Q5, Q6, Z.pred_succ, !count_up_down. done.
Qed.

Lemma run_scope_entered {A} t r (body : prog local shared A) l (s : self) L T n (f : F) : quiescent s ->
  run (filter_operation_scope t r body) l (entered t s L T n, f) =
  match run body l (within t r s L T n, f) with
  | Some (o, (l', (s', f'))) =>
      Some (o, (l', (unlock_filter (s' <| filter_requests ::= fun x => x ∖ {[r]} |>), f')))
  | None => None
  end.
Proof. intros [Q1 Q2 Q3 Q4 Q5 Q6 Q7 Q8]. by rewrite run_scope. Qed.

Lemma scheduler_reads fp l (s : self) (f : F) :
  run (request_seen_for_scheduler_unlocked fp) l (s, f) =
  if in_shadow fp s then Some (Ok true, (l, (s, f)))
  else let '(o, f') := mf_contains fp f in
       Some (match o with
             | Ok b => Ok b
             | Raise e => if unsupported e then Raise ERuntime else if transient e then Ok false else Raise e
             end, (l, (s, f'))).
Proof.
  unfold request_seen_for_scheduler_unlocked. rewrite run_bind, run_atomically. execute.
  destruct (in_shadow fp s); [done|]. rewrite run_try. unfold filter_contains. rewrite run_atomically. execute.
  destruct (mf_contains fp f) as [[b|x] f']; [done|]. destruct (unsupported x); [done|by destruct (transient x)].
Qed.

(** What a check does to the filter: a lookup, or nothing. *)
Definition probe (fp : bytes) (s : self) (f : F) : outcome bool * F :=
  if in_shadow fp s then (Ok true, f)
  else let '(o, f') := mf_contains fp f in
       (match o with
        | Ok b => Ok b
        | Raise e => if unsupported e then Raise ERuntime else if transient e then Ok false else Raise e
        end, f').

Definition reserve (res : reservation) (T : tables) : tables :=
  T <| active_reservations ::= <[res_id res := res]> |> <| reservations_by_owner ::= <[res_owner res := res]> |>.

Lemma discard_reserve res (T : tables) :
  active_reservations T !! res_id res = None -> reservations_by_owner T !! res_owner res = None ->
  discard_reservation res (reserve res T) = T.
Proof.
  intros H1 H2. destruct T as [A O a b c d e]. cbn in *. unfold reserve, discard_reservation. fields.
  rewrite (bool_decide_true (<[res_id res := res]> A !! res_id res = Some res)) by apply lookup_insert_eq.
  cbv beta iota. rewrite bool_decide_true by apply lookup_insert_eq. by rewrite !delete_insert_id.
Qed.

(** *** A check alone *)
Lemma run_reserve t r fp w (s : self) (f : F) :
  quiescent s -> fingerprint r = Ok fp ->
  reservations_by_owner (the_tables s) !! w = None ->
  active_reservations (the_tables s) !! next_object s = None ->
  let res := Reservation (next_object s) fp (epoch s) w r in
  let s1 := s <| next_object ::= S |> in
  let '(o, f') := probe fp s f in
  exists l, run (request_seen_with_reservation fingerprint t r (Some w)) thread_start (s, f) =
    Some (match o with
          | Ok true => (Ok (Decision true None false), (l, (s1, f')))
          | Ok false => (Ok (Decision false (Some res) false), (l, (s1 <| the_tables ::= reserve res |>, f')))
          | Raise e => (Raise e, (l, (s1, f')))
          end).
Proof.
  intros Hq Hfp Hw Hn res s1. pose proof Hq as [Q1 Q2 Q3 Q4 Q5 Q6 Q7 Q8].
  unfold request_seen_with_reservation, request_seen_decision. rewrite run_bind. cbn [run pret].
  rewrite run_request, Hfp by done. cbn [pbind ptry]. rewrite run_bind, run_atomically.
  unfold register_decision. execute. rewrite bool_decide_false by (cbn; rewrite Q6; done).
  change (reservations_by_owner (the_tables (enter_operation (epoch s) t s)) !! w)
    with (reservations_by_owner (the_tables s) !! w). rewrite Hw. unfold fresh. cbv beta iota zeta.
  cbn [lease_epoch]. change (next_object (enter_operation (epoch s) t s)) with (next_object s). fold res.
  set (T1 := reserve res (the_tables s)). set (n1 := S (next_object s)).
  change (enter_operation (epoch s) t s <| next_object ::= S |> <| the_tables ::= _ |>) with (entered t s (the_ledger s) T1 n1).
  rewrite run_rescue, run_bind, run_scope_entered, scheduler_reads by done.
  change (in_shadow fp (within t r s (the_ledger s) T1 n1)) with (in_shadow fp s). unfold probe.
  assert (Hd : discard_reservation res T1 = the_tables s) by by apply discard_reserve.
  assert (Hback : exit_operation (Lease (epoch s) t) (discard_any_reservation (Transactional res)
      (outside t r s (the_ledger s) T1 n1)) = s1).
  { change (discard_any_reservation (Transactional res) (outside t r s (the_ledger s) T1 n1))
      with (outside t r s (the_ledger s) (discard_reservation res T1) n1).
    rewrite Hd. rewrite exit_outside by done. unfold s1. by fields. }
  assert (Hkeep : exit_operation (Lease (epoch s) t) (outside t r s (the_ledger s) T1 n1) =
      s1 <| the_tables ::= reserve res |>).
  { rewrite exit_outside by done. unfold s1. by fields. }
  destruct (in_shadow fp s).
  { change (unlock_filter _) with (outside t r s (the_ledger s) T1 n1).
    rewrite run_atomically. execute. rewrite Hback. by eexists. }
  destruct (mf_contains fp f) as [o f'].
  change (unlock_filter _) with (outside t r s (the_ledger s) T1 n1).
  set (o' := match o with Ok b => Ok b | Raise e => _ end). destruct o' as [[|]|x].
  - rewrite run_atomically. execute. rewrite Hback. by eexists.
  - rewrite run_atomically. execute. rewrite Hkeep. by eexists.
  - rewrite run_atomically. execute. rewrite Hback. by eexists.
Qed.

(** *** Settling alone *)
Lemma run_settling {A} t op r (body : option lease -> prog local shared A) mk (s : self) (f : F) :
  accepts s = true -> reservation_is_current r s = true ->
  exists ad,
  run (with_operation t op (Some r) body) (Local None Outside mk Idle false) (s, f) =
  match run (body (Some (Lease (epoch s) t))) (Local None ad mk Idle false)
          (entered t s (the_ledger s) (the_tables s) (next_object s), f) with
  | Some (o, (l', (s', f'))) =>
      Some (o, (l' <| admitted := Outside |>, (exit_operation (Lease (epoch s) t) s', f')))
  | None => None
  end.
Proof.
  intros Ha Hc. unfold with_operation, admit_operation. rewrite run_bind, run_atomically. execute.
  rewrite Hc, Ha. cbn [negb andb].
  assert (He : match r with Transactional r => res_epoch r | Legacy rc => rc_epoch rc end = epoch s).
  { destruct r; apply andb_true_iff in Hc as [Hc _]; by apply Z.eqb_eq in Hc. }
  rewrite He. rewrite run_finally. unfold note_admission. cbn [lease_epoch update eta eta_local].
  exists (if decide (op = Rollback) then Settling else Busy (epoch s)).
  change (enter_operation (epoch s) t s) with (entered t s (the_ledger s) (the_tables s) (next_object s)).
  cbn [slot_owed admitted marked in_phase].
  destruct (run _ _ _) as [[o [l' [s' f']]]|]; [|done]. by rewrite run_atomically.
Qed.

Lemma entered_self t (s : self) T : quiescent s ->
  exit_operation (Lease (epoch s) t) (entered t s (the_ledger s) T (next_object s)) = s <| the_tables := T |>.
Proof. intros Hq. rewrite exit_entered by done. by fields. Qed.

Lemma outside_self t r (s : self) T : quiescent s ->
  exit_operation (Lease (epoch s) t) (outside t r s (the_ledger s) T (next_object s)) = s <| the_tables := T |>.
Proof. intros Hq. rewrite exit_outside by done. by fields. Qed.

Lemma run_rollback t res (s : self) (f : F) :
  quiescent s -> reservation_is_current (Transactional res) s = true ->
  exists l, run (rollback_reservation t res) thread_start (s, f) =
    Some (Ok tt, (l, (s <| the_tables := discard_reservation res (the_tables s) |>, f))).
Proof.
  intros Hq Hc. unfold rollback_reservation.
  destruct (run_settling t Rollback (Transactional res) (fun le => match le with
    | None => pret tt
    | Some _ => atomically (on_self (modify (discard_any_reservation (Transactional res)))) end)
    None s f (q_accepts _ Hq) Hc) as [ad Hr].
  change thread_start with (Local None Outside None Idle false). rewrite Hr, run_atomically. execute.
  change (discard_any_reservation (Transactional res) (entered t s (the_ledger s) (the_tables s) (next_object s)))
    with (entered t s (the_ledger s) (discard_reservation res (the_tables s)) (next_object s)).
  rewrite entered_self by done. by eexists.
Qed.

Lemma run_commit t res (s : self) (f : F) :
  quiescent s -> reservation_is_current (Transactional res) s = true ->
  let '(o, f') := mf_add (res_fingerprint res) f in
  exists l, run (commit_reservation t res) thread_start (s, f) =
    Some (match o with
          | Ok _ => Ok tt
          | Raise e => if filter_full e || transient e then Ok tt else Raise e
          end, (l, (s <| the_tables := discard_reservation res (the_tables s) |>, f'))).
Proof.
  intros Hq Hc. destruct (mf_add (res_fingerprint res) f) as [o f'] eqn:Ef. unfold commit_reservation.
  match goal with |- context [with_operation t Commit _ ?body] =>
    destruct (run_settling t Commit (Transactional res) body None s f (q_accepts _ Hq) Hc) as [ad Hr] end.
  change thread_start with (Local None Outside None Idle false). rewrite Hr. clear Hr.
  rewrite run_finally, run_scope_entered by done. rewrite run_try. unfold filter_add. rewrite run_atomically.
  execute. rewrite Ef.
  assert (Hend : forall o : outcome bool, run (match o with
      | Ok _ => pret tt | Raise e => if filter_full e || transient e then pret tt else praise e end)
      (Local None ad None Idle false) (within t (res_request res) s (the_ledger s) (the_tables s) (next_object s), f') =
      Some (match o return outcome unit with Ok _ => Ok tt | Raise e => if filter_full e || transient e then Ok tt else Raise e end,
        (Local None ad None Idle false, (within t (res_request res) s (the_ledger s) (the_tables s) (next_object s), f')))).
  { intros [b|x]; [done|]. cbn. by destruct (filter_full x || transient x). }
  rewrite Hend. clear Hend. rewrite run_atomically. execute.
  change (discard_any_reservation (Transactional res) _)
    with (outside t (res_request res) s (the_ledger s) (discard_reservation res (the_tables s)) (next_object s)).
  rewrite outside_self by done. by eexists.
Qed.

Lemma run_commit_volatile t res (s : self) (f : F) :
  quiescent s -> reservation_is_current (Transactional res) s = true ->
  exists l, run (commit_volatile_reservation t res) thread_start (s, f) =
    Some (Ok tt, (l, (s <| the_tables := discard_reservation res (the_tables s) |>
                        <| the_shadow ::= shadow_insert (res_fingerprint res) |>, f))).
Proof.
  intros Hq Hc. unfold commit_volatile_reservation.
  match goal with |- context [with_operation t Commit _ ?body] =>
    destruct (run_settling t Commit (Transactional res) body None s f (q_accepts _ Hq) Hc) as [ad Hr] end.
  change thread_start with (Local None Outside None Idle false). rewrite Hr. clear Hr.
  rewrite run_atomically. execute.
  change (exit_operation _ _) with (exit_operation (Lease (epoch s) t)
    (entered t s (the_ledger s) (discard_reservation res (the_tables s)) (next_object s))
    <| the_shadow ::= shadow_insert (res_fingerprint res) |>).
  rewrite entered_self by done. by eexists.
Qed.

(** A reservation that is not of this epoch settles nothing. *)
Lemma run_stale t res (s : self) (f : F) : res_epoch res <> epoch s ->
  exists l, run (commit_reservation t res) thread_start (s, f) = Some (Ok tt, (l, (s, f))) /\
    run (commit_volatile_reservation t res) thread_start (s, f) = Some (Ok tt, (l, (s, f))) /\
    run (rollback_reservation t res) thread_start (s, f) = Some (Ok tt, (l, (s, f))).
Proof.
  intros He. assert (Hc : reservation_is_current (Transactional res) s = false).
  { unfold reservation_is_current. by rewrite (proj2 (Z.eqb_neq _ _) He). }
  exists thread_start.
  unfold commit_reservation, commit_volatile_reservation, rollback_reservation, with_operation, admit_operation.
  rewrite !run_bind, !run_atomically. execute. by rewrite Hc.
Qed.

(** *** [forget] alone *)
Lemma find_mutate i f l : (forall rc, rc_id (f rc) = rc_id rc) ->
  List.find (is_receipt i) (mutate i f l) = option_map f (List.find (is_receipt i) l).
Proof.
  intros Hf. induction l as [|x l IH]; [done|]. cbn. destruct (is_receipt i x) eqn:Ex; [|by rewrite Ex].
  assert (is_receipt i (f x) = true) as ->; [|done]. unfold is_receipt in *. by rewrite Hf.
Qed.

Lemma mutate_absent i f l : count (with_id i) l = 0 -> mutate i f l = l.
Proof.
  intros Hc. apply count_zero in Hc. induction Hc as [|x l Hx _ IH]; [done|]. cbn.
  change (is_receipt i x = false) in Hx. rewrite Hx. f_equal. exact IH.
Qed.

Lemma remove_mutate i f l : (forall rc, rc_id (f rc) = rc_id rc) -> count (with_id i) l <= 1 ->
  remove_receipt i (mutate i f l) = remove_receipt i l.
Proof.
  intros Hf. induction l as [|x l IH]; [done|]. rewrite tally_cons. change (with_id i x) with (is_receipt i x).
  pose proof (count_nonneg (with_id i) l). cbn. destruct (is_receipt i x) eqn:Ex; cbn; intros Hc.
  - assert (is_receipt i (f x) = true) as ->; [unfold is_receipt in *; by rewrite Hf|]. apply mutate_absent. lia.
  - rewrite Ex. f_equal. apply IH. lia.
Qed.

Definition mutated (i : nat) (f : receipt -> receipt) (T : tables) : tables :=
  T <| legacy_reservations ::= mutate i f |> <| legacy_handoffs ::= mutate i f |>.

Lemma deref_mutated rc f T : (forall rc, rc_id (f rc) = rc_id rc) ->
  deref rc T = rc -> List.find (is_receipt (rc_id rc)) (all_receipts T) <> None ->
  forall rc', rc_id rc' = rc_id rc -> deref rc' (mutated (rc_id rc) f T) = f rc.
Proof.
  intros Hf Hd Hn rc' Hi. unfold deref, mutated. rewrite mutate_receipts, Hi, find_mutate by done.
  unfold deref in Hd. destruct (List.find _ _) as [x|]; [|done]. cbn in *. by subst.
Qed.

(** The tables without a settled receipt. *)
Definition removed (rc : receipt) (T : tables) : tables :=
  prune_pending (rc_request rc)
    (T <| legacy_reservations ::= remove_receipt (rc_id rc) |> <| legacy_handoffs ::= remove_receipt (rc_id rc) |>).

Lemma removed_mutated i f rc T : (forall rc, rc_id (f rc) = rc_id rc) -> rc_id rc = i ->
  (forall i, count (with_id i) (all_receipts T) <= 1) -> removed rc (mutated i f T) = removed rc T.
Proof.
  intros Hf <- Hc. destruct (ids_split T (rc_id rc) (Hc _)) as [H1 H2]. unfold removed. f_equal.
  unfold mutated. destruct T. cbn in H1, H2. fields. by rewrite !remove_mutate.
Qed.

Lemma remove_legacy_eq rc (s : self) :
  remove_legacy_reservation rc s =
  let s1 := s <| the_tables ::= removed rc |> in
  if rc_slot (deref rc (the_tables s)) then s1 <| the_ledger ::= release_retry_allowance_slot |> else s1.
Proof. done. Qed.

Definition forget_target (t r : nat) (s : self) : option receipt :=
  match select_handoff r t (the_tables s) with
  | Some rc => Some rc
  | None => if bool_decide (r ∈ retired_requests (the_tables s)) then None else select_pending r (the_tables s)
  end.

Definition settle_flag (rc : receipt) : receipt := rc <| rc_settling := true |>.
Definition slot_flag (rc : receipt) : receipt := rc <| rc_slot := false |>.

Lemma run_forget t r rc (s : self) (f : F) :
  quiescent s -> (forall i, count (with_id i) (all_receipts (the_tables s)) <= 1) ->
  forget_target t r s = Some rc -> rc_epoch rc = epoch s -> rc_slot rc = true ->
  let '(o, f') := mf_remove (rc_fingerprint rc) f in
  exists l, run (forget t r) thread_start (s, f) =
    Some (match o with
          | Ok _ => Ok tt
          | Raise e => if unsupported e || transient e then Ok tt else Raise e
          end,
          (l, (s <| the_ledger := match o with
                                  | Ok _ => release_retry_allowance_slot (the_ledger s)
                                  | Raise _ => snd (grant_retry_allowance (rc_fingerprint rc) true (the_ledger s))
                                  end |>
                 <| the_tables := removed rc (the_tables s) |>, f'))).
Proof.
  intros Hq Hc Ht He Hs. destruct (mf_remove (rc_fingerprint rc) f) as [o f'] eqn:Ef.
  assert (Hsel : exists sel, ((exists r, sel = select_pending r (the_tables s)) \/
      (exists r t, sel = select_handoff r t (the_tables s))) /\ sel = Some rc).
  { unfold forget_target in Ht. destruct (select_handoff r t (the_tables s)) eqn:Eh; [by eauto 8|].
    case_bool_decide; [done|]. eauto. }
  destruct Hsel as (sel & Hsel & Hrc). destruct (selected _ _ _ Hc Hsel Hrc) as (S1 & S2 & S3 & S4).
  set (T1 := mutated (rc_id rc) settle_flag (the_tables s)). set (rc1 := settle_flag rc).
  assert (Hstart : forget_select t r s = (Ok (Some rc1), s <| the_tables := T1 |>)).
  { unfold forget_select, forget_target in *. rewrite bool_decide_false.
    2:{ pose proof (q_accepts _ Hq) as Ha. apply accepts_spec in Ha. intros Hx. destruct Ha; congruence. }
    destruct (select_handoff r t (the_tables s)) as [x|].
    - injection Ht as ->. by rewrite He, Z.eqb_refl.
    - destruct (bool_decide _); [done|]. rewrite Ht. by rewrite He, Z.eqb_refl. }
  assert (Hfind : List.find (is_receipt (rc_id rc)) (all_receipts (the_tables s)) <> None).
  { intros Hn. apply list_elem_of_In in S2. pose proof (List.find_none _ _ Hn rc S2) as Hx.
    unfold is_receipt in Hx. by rewrite bool_decide_true in Hx. }
  unfold forget. rewrite run_bind, run_atomically. execute. rewrite Hstart.
  set (s1 := s <| the_tables := T1 |>).
  assert (Hq1 : quiescent s1) by (destruct Hq; by constructor).
  assert (Hcur : reservation_is_current (Legacy rc1) s1 = true).
  { unfold reservation_is_current. change (rc_epoch rc1) with (rc_epoch rc). change (epoch s1) with (epoch s).
    rewrite He, Z.eqb_refl. cbn [andb]. change (the_tables s1) with T1. unfold T1, mutated.
    rewrite mutate_receipts. change (rc_id rc1) with (rc_id rc).
    apply existsb_exists. exists rc1. unfold is_receipt. change (rc_id rc1) with (rc_id rc).
    rewrite bool_decide_true by done. split; [|done]. apply in_map_iff. exists rc.
    unfold is_receipt. rewrite bool_decide_true by done. split; [done|]. by apply list_elem_of_In. }
  change (thread_start <| marked := rc_id <$> Some rc1 |>) with (Local None Outside (Some (rc_id rc)) Idle false).
  match goal with |- context [with_operation t Forget _ ?body] =>
    destruct (run_settling t Forget (Legacy rc1) body (Some (rc_id rc)) s1 f (q_accepts _ Hq1) Hcur) as [ad Hr] end.
  rewrite Hr. clear Hr Hcur Hstart. rewrite run_try, run_scope_entered by done. rewrite run_try, run_atomically.
  change (rc_fingerprint rc1) with (rc_fingerprint rc). execute. rewrite Ef.
  set (n := next_object s1). set (L := the_ledger s1). change (the_tables s1) with T1.
  assert (Hd1 : deref rc1 T1 = rc1) by by apply deref_mutated.
  assert (Hr1 : removed rc1 T1 = removed rc (the_tables s)).
  { change (removed rc1 T1) with (removed rc T1). by apply removed_mutated. }
  (* the end of the call, from the tables left by the conversion *)
  assert (Hend : forall (b : outcome bool) L' T' fin,
    removed rc1 T' = removed rc (the_tables s) ->
    (if rc_slot (deref rc1 T') then release_retry_allowance_slot L' else L') = fin ->
    exists l, match run (let? _ := atomically (let! _ := on_self (modify (remove_legacy_reservation rc1)) in
                                               note (fun l => l <| marked := None |>)) in
                         Done (omap (fun _ => tt) b))
                (Local None ad (Some (rc_id rc)) Idle false) (outside t r s1 L' T' n, f') with
      | Some (o0, (l', (s', f2))) =>
          Some (o0, (l' <| admitted := Outside |>, (exit_operation (Lease (epoch s1) t) s', f2)))
      | None => None end =
    Some (omap (fun _ => tt) b, (l, (s <| the_ledger := fin |> <| the_tables := removed rc (the_tables s) |>, f')))).
  { intros b L' T' fin HT <-. rewrite run_bind, run_atomically. execute. rewrite remove_legacy_eq.
    change (the_tables (outside t r s1 L' T' n)) with T'. cbv zeta.
    change (outside t r s1 L' T' n <| the_tables ::= removed rc1 |>) with (outside t r s1 L' (removed rc1 T') n).
    rewrite HT. destruct (rc_slot (deref rc1 T')).
    - change (outside t r s1 L' ?T n <| the_ledger ::= ?g |>) with (outside t r s1 (g L') T n).
      cbn [run]. rewrite exit_outside by done. by eexists.
    - cbn [run]. rewrite exit_outside by done. by eexists. }
  assert (Hgrant : forall b : outcome bool, exists l,
    match run (let? _ := atomically (on_self (modify (grant_for_receipt rc1))) in
               let? _ := atomically (let! _ := on_self (modify (remove_legacy_reservation rc1)) in
                                     note (fun l => l <| marked := None |>)) in
               Done (omap (fun _ => tt) b))
            (Local None ad (Some (rc_id rc)) Idle false) (outside t r s1 L T1 n, f') with
      | Some (o0, (l', (s', f2))) =>
          Some (o0, (l' <| admitted := Outside |>, (exit_operation (Lease (epoch s1) t) s', f2)))
      | None => None end =
    Some (omap (fun _ => tt) b, (l, (s <| the_ledger := snd (grant_retry_allowance (rc_fingerprint rc) true L) |>
                                       <| the_tables := removed rc (the_tables s) |>, f')))).
  { intros b. rewrite run_bind, run_atomically. unfold grant_for_receipt. execute.
    change (the_tables (outside t r s1 L T1 n)) with T1. rewrite Hd1. change (rc_slot rc1) with (rc_slot rc).
    rewrite Hs. set (L' := snd (grant_retry_allowance (rc_fingerprint rc) true L)).
    change (outside t r s1 L T1 n <| the_ledger ::= _ |> <| the_tables ::= _ |>)
      with (outside t r s1 L' (mutated (rc_id rc1) slot_flag T1) n).
    assert (Hf1 : List.find (is_receipt (rc_id rc1)) (all_receipts T1) <> None).
    { unfold T1, mutated. rewrite mutate_receipts. change (rc_id rc1) with (rc_id rc).
      rewrite find_mutate by done. by destruct (List.find _ _). }
    apply Hend.
    - rewrite removed_mutated; [done|done|done|]. intros i. unfold T1, mutated. rewrite mutate_receipts.
      by rewrite mutate_count.
    - by rewrite (deref_mutated rc1 slot_flag T1). }
  destruct o as [b|x]; [|destruct (unsupported x || transient x)]; cbn [run pret praise];
    change (unlock_filter _) with (outside t r s1 L T1 n).
  - apply (Hend (Ok false) L T1); [done|]. rewrite Hd1. change (rc_slot rc1) with (rc_slot rc). by rewrite Hs.
  - apply (Hgrant (Ok true)).
  - apply (Hgrant (Raise x)).
Qed.
End Alone.
End DupeFilterAlone.
