(* ===== verification/DupeFilterContract.v ===== *)
(** * The duplicate filter: its contract

    What the scheduler relies on: the accounting of the recovery ledger under
    any interleaving, the single retry after a failed push, the all-or-nothing
    check-and-commit, and two schedules that leave the intended behaviour. *)

From S2P Require Export DupeFilterAlone Bloom.

Module DupeFilterContract.
Import DupeFilter DupeFilterFacts DupeFilterAlone.

Section Contract.
Context {F : Type} `{MembershipFilter F}.
Context (fingerprint : nat -> outcome bytes).

(** The pools reachable from a new filter. *)
Definition reachable resolve_spider_key (filter_open filter_close : M F unit) manager_close clear_on_open
    drain_timeout_s (f : F) (x : pool local shared) : Prop :=
  rtc (step fingerprint resolve_spider_key filter_open filter_close manager_close clear_on_open drain_timeout_s)
    ([], (init, f)) x.

(** The calls that hold a slot of this epoch: those still running, and the ended
    ones whose compensation left their slot to a pending receipt of the same
    request, or to a lifecycle boundary that had removed their intent. *)
Definition is_running (c : task local (shared (F := F))) : bool :=
  match snd c with Done _ => false | Sect _ _ _ => true end.
Definition holds_slot (e : Z) (c : task local (shared (F := F))) : bool :=
  is_running c && owes e (fst c) && negb (handed_over (fst c)).
Definition left_slot (e : Z) (c : task local (shared (F := F))) : bool := owes e (fst c) && handed_over (fst c).

Lemma owes_split e (cs : list (task local (shared (F := F)))) :
  Forall (fun c => forall o, snd c = Done o -> settled (fst c)) cs ->
  count (owes e) (map fst cs) = count (holds_slot e) cs + count (left_slot e) cs.
Proof.
  induction 1 as [|[l p] cs Hc _ IH]; [done|]. cbn [map]. rewrite !tally_cons, IH.
  unfold holds_slot, left_slot, is_running in *. cbn [fst snd] in *.
  destruct (owes e l) eqn:Eo, (handed_over l) eqn:Eh; cbn; rewrite ?andb_false_r; cbn; try lia.
  destruct p as [o|]; cbn; [|lia]. specialize (Hc o eq_refl). unfold settled in Hc.
  apply bool_decide_eq_true in Eo. rewrite Eo in Hc. congruence.
Qed.


(** ** One retry *)
Lemma select_new r (T : tables) rc : has_entry r (legacy_reservations T) = false ->
  selectable r None false rc = true ->
  List.find (selectable r None false) (legacy_reservations T ++ [rc]) = Some rc.
Proof.
  intros Hn Hs. rewrite find_app. replace (List.find _ (legacy_reservations T)) with (@None receipt).
  - cbn. by rewrite Hs.
  - symmetry. induction (legacy_reservations T) as [|x l IH]; [done|]. cbn in *.
    apply orb_false_iff in Hn as [Hx Hn]. unfold selectable. rewrite Hx. by apply IH.
Qed.

Lemma handoff_absent r t (T : tables) : has_entry r (legacy_handoffs T) = false -> select_handoff r t T = None.
Proof.
  unfold select_handoff. intros Hn. induction (legacy_handoffs T) as [|x l IH]; [done|]. cbn in *.
  apply orb_false_iff in Hn as [Hx Hn]. unfold selectable. rewrite Hx. by apply IH.
Qed.

Lemma quiescent_next (s : self) L T n : quiescent s -> 0 <= slots_reserved L -> legacy_add_intents T = [] ->
  quiescent (s <| next_object := n |> <| the_ledger := L |> <| the_tables := T |>).
Proof. intros [Q1 Q2 Q3 Q4 Q5 Q6 Q7 Q8] HL HT. by constructor. Qed.

(** A request with no receipt of its own yet. *)
Definition unknown (r : nat) (s : self) : Prop :=
  has_entry r (all_receipts (the_tables s)) = false /\ r ∉ retired_requests (the_tables s).

Lemma unknown_parts r s : unknown r s ->
  has_entry r (legacy_reservations (the_tables s)) = false /\ has_entry r (legacy_handoffs (the_tables s)) = false.
Proof.
  intros [Hu _]. unfold has_entry, all_receipts in *. rewrite existsb_app in Hu. by apply orb_false_iff.
Qed.

(** What a call that runs alone answers, and the state it leaves. *)
Definition answer {A} (p : prog local shared A) (g : shared (F := F)) : option (outcome A * shared (F := F)) :=
  match run p thread_start g with Some (o, (_, g')) => Some (o, g') | None => None end.

Lemma answer_seen t r fp (s : self) (f : F) : quiescent s -> fingerprint r = Ok fp ->
  answer (request_seen fingerprint t r) (s, f) = Some (seen_spec r fp s f).
Proof.
  intros Hq Hfp. unfold answer. destruct (run_request_seen fingerprint t r fp s f Hq Hfp) as [l ->].
  by destruct (seen_spec r fp s f) as [o [s' f']].
Qed.

(** The state after a miss was published. *)
Definition published (r : nat) (fp : bytes) (L : ledger) (s : self) : self :=
  new_legacy_reservation r fp true (s <| next_object ::= S |> <| the_ledger := L |>).

Lemma quiescent_fields (s : self) L T n : quiescent s -> 0 <= slots_reserved L -> legacy_add_intents T = [] ->
  quiescent (changed s L T n).
Proof. intros [Q1 Q2 Q3 Q4 Q5 Q6 Q7 Q8] HL HT. by constructor. Qed.

Lemma decide_slots fp hit (L : ledger) (f : F) : 0 <= slots_reserved L ->
  let '(_, owed, L', _) := decide_seen fp hit L f in
  slots_reserved L' = slots_reserved L + Z.b2z owed.
Proof.
  intros HL. unfold decide_seen, note_retry_allowance_backpressure. destruct hit; [cbn; lia|].
  case_bool_decide; [cbn; lia|]. destruct (_ <=? _).
  - destruct (overflow_warned L), (mf_contains fp f) as [[b|e] f']; cbn; lia.
  - destruct (mf_add fp f) as [[[|]|e] f']; [cbn; lia..|].
    destruct (unsupported e); [cbn; lia|]. destruct (_ || _); cbn; lia.
Qed.

Lemma grant_nonneg fp (L : ledger) : 0 <= slots_reserved L -> 0 <= slots_reserved (snd (grant_retry_allowance fp true L)).
Proof.
  intros HL. assert (Hrel : forall L, 0 <= slots_reserved L -> 0 <= slots_reserved (release_retry_allowance_slot L)).
  { intros L0 H0. unfold release_retry_allowance_slot. destruct (Z.eqb_spec (slots_reserved L0) 0); cbn; lia. }
  unfold grant_retry_allowance. case_bool_decide; cbn [snd]; apply Hrel; done.
Qed.

(** C13. The boolean protocol, with its locks, admission, intent, receipt and
    compensation, computes its specification when it runs alone: one decision
    from the ledger and the filter, then the publication of one receipt or the
    compensation of one slot; and it leaves the filter quiescent, so sequences
    of calls compose. *)
Theorem request_seen_refines t r fp (s : self) (f : F) (Hq : quiescent s) (Hfp : fingerprint r = Ok fp) :
  answer (request_seen fingerprint t r) (s, f) = Some (seen_spec r fp s f) /\
  quiescent (fst (snd (seen_spec r fp s f))).
Proof.
  split; [by apply answer_seen|]. pose proof (q_slots _ Hq) as Hs. pose proof (q_intents _ Hq) as Hi.
  unfold seen_spec. pose proof (decide_slots fp (in_shadow fp s) (the_ledger s) f Hs) as Hd.
  destruct (decide_seen fp (in_shadow fp s) (the_ledger s) f) as [[[o owed] L] f'].
  assert (HL : 0 <= slots_reserved L) by (rewrite Hd; destruct owed; cbn; lia).
  destruct o as [[b [a|]]|e]; cbn [fst snd].
  - by apply (quiescent_fields s L (the_tables (published r fp L s)) (S (S (next_object s)))).
  - by apply (quiescent_fields s L (the_tables s) (S (next_object s))).
  - destruct (owed && _).
    + apply (quiescent_fields s _ (the_tables s) (S (next_object s))); [done|by apply grant_nonneg|done].
    + by apply (quiescent_fields s L (the_tables s) (S (next_object s))).
Qed.

Lemma published_quiescent r fp L (s : self) : quiescent s -> 0 <= slots_reserved L -> quiescent (published r fp L s).
Proof. intros [Q1 Q2 Q3 Q4 Q5 Q6 Q7 Q8] HL. by constructor. Qed.

Lemma published_once r fp L (s : self) : inv_self [] s ->
  forall i, count (with_id i) (all_receipts (the_tables (published r fp L s))) <= 1.
Proof.
  intros Hi i. pose proof (inv_once _ _ Hi i) as Ho.
  assert (Hz : (next_object s < i)%nat -> count (with_id i) (all_receipts (the_tables s)) = 0).
  { intros Hlt. apply count_zero. eapply Forall_impl; [exact (inv_ids _ _ Hi)|]. cbn. intros rc Hrc.
    unfold with_id, is_receipt. rewrite bool_decide_false; [done|lia]. }
  unfold published, new_legacy_reservation, fresh, all_receipts in *. cbn -[count] in *.
  rewrite !count_app in *. rewrite !tally_cons, count_nil. unfold with_id at 2, is_receipt. cbn [rc_id].
  case_bool_decide as He; cbn [Z.b2z]; [|lia]. specialize (Hz ltac:(lia)). lia.
Qed.

Lemma published_target t r fp L (s : self) : unknown r s ->
  forget_target t r (published r fp L s) =
  Some (Receipt (S (next_object s)) fp (epoch s) r false None false true).
Proof.
  intros Hu. destruct (unknown_parts _ _ Hu) as [Hp Hh]. destruct Hu as [_ Hr]. unfold forget_target.
  change (select_handoff r t (the_tables (published r fp L s))) with (select_handoff r t (the_tables s)).
  rewrite handoff_absent, bool_decide_false by done. apply select_new; [done|].
  unfold selectable. cbn. by rewrite bool_decide_true.
Qed.

(** The answers to a fingerprint that is in the filter. *)
Lemma seen_recorded `{!NoFalseNegatives F} r fp (s : self) (f : F) : mf_inv f -> mf_has f fp ->
  fp ∉ retry_allowances (the_ledger s) -> fst (seen_spec r fp s f) = Ok true.
Proof.
  intros Hi Hh Ha. unfold seen_spec, decide_seen. destruct (in_shadow fp s); [done|].
  rewrite bool_decide_false by done. destruct (_ <=? _).
  - destruct (note_retry_allowance_backpressure _). pose proof (mf_has_contains _ _ Hi Hh) as Hc.
    by destruct (mf_contains fp f) as [o f'] eqn:E; cbn in Hc; subst.
  - pose proof (mf_has_add _ _ Hi Hh) as Hc. by destruct (mf_add fp f) as [o f'] eqn:E; cbn in Hc; subst.
Qed.

Lemma drop_absent fp (l : list bytes) : fp ∉ MemoryFilter.drop_item fp l.
Proof. unfold MemoryFilter.drop_item. rewrite list_elem_of_filter. by intros [? _]. Qed.

(** With a filter that cannot remove, a request whose queue push failed is
    retried exactly once: [request_seen] misses, [forget] converts its slot to
    an allowance, the next check of the same fingerprint misses again without
    touching the filter, and the one after it is a duplicate. *)
Theorem one_retry `{!NoFalseNegatives F} t t' t'' r r' r'' fp (s : self) (f f1 : F)
    (Hq : quiescent s) (Hi : inv_self [] s)
    (Hr : fingerprint r = Ok fp) (Hr' : fingerprint r' = Ok fp) (Hr'' : fingerprint r'' = Ok fp)
    (Hu : unknown r s) (Hsh : in_shadow fp s = false) (Hal : fp ∉ retry_allowances (the_ledger s))
    (Hroom : ledger_size (the_ledger s) < allowance_limit (the_ledger s))
    (Hf : mf_inv f) (Hadd : mf_add fp f = (Ok true, f1))
    (Hremove : mf_remove fp f1 = (Raise ENotImplemented, f1)) :
  exists s1 s2 s3 g4,
    answer (request_seen fingerprint t r) (s, f) = Some (Ok false, (s1, f1)) /\
    answer (forget t r) (s1, f1) = Some (Ok tt, (s2, f1)) /\
    answer (request_seen fingerprint t' r') (s2, f1) = Some (Ok false, (s3, f1)) /\
    answer (request_seen fingerprint t'' r'') (s3, f1) = Some (Ok true, g4).
Proof.
  pose proof (q_slots _ Hq) as Hsl. destruct (mf_add_inv _ _ _ _ Hf Hadd) as (Hf1 & Hhas & _).
  set (L := the_ledger s). set (L1 := L <| slots_reserved ::= Z.succ |>).
  set (L2 := L <| retry_allowances ::= fun l => l ++ [fp] |>).
  set (L3 := L2 <| slots_reserved ::= Z.succ |> <| retry_allowances ::= MemoryFilter.drop_item fp |>).
  set (s1 := published r fp L1 s).
  set (rc := Receipt (S (next_object s)) fp (epoch s) r false None false true).
  set (s2 := s1 <| the_ledger := L2 |> <| the_tables := removed rc (the_tables s1) |>).
  assert (Hq1 : quiescent s1).
  { apply published_quiescent; [done|]. change (0 <= Z.succ (slots_reserved (the_ledger s))). lia. }
  assert (Hq2 : quiescent s2).
  { destruct Hq1 as [Q1 Q2 Q3 Q4 Q5 Q6 Q7 Q8]. constructor; try done.
    cbn [the_tables s2 update eta eta_self]. unfold removed, prune_pending. by destruct (has_entry _ _). }
  set (s3 := published r' fp L3 s2).
  assert (Hq3 : quiescent s3).
  { apply published_quiescent; [done|]. change (0 <= Z.succ (slots_reserved (the_ledger s))). lia. }
  exists s1, s2, s3, (snd (seen_spec r'' fp s3 f1)). split_and!.
  - rewrite (answer_seen _ _ fp) by done. unfold seen_spec, decide_seen. rewrite Hsh, bool_decide_false by done.
    rewrite (proj2 (Z.leb_gt _ _)), Hadd by done. done.
  - pose proof (run_forget t r rc s1 f1 Hq1) as Hfg. change (rc_fingerprint rc) with fp in Hfg.
    rewrite Hremove in Hfg. destruct Hfg as [l Hl].
    + by apply published_once.
    + by apply published_target.
    + done.
    + done.
    + unfold answer. rewrite Hl. do 4 f_equal. change (the_ledger s1) with L1. unfold grant_retry_allowance.
      rewrite bool_decide_false by done. cbn [snd]. unfold L1. by rewrite release_reserved.
  - rewrite (answer_seen _ _ fp) by done. unfold seen_spec, decide_seen.
    change (in_shadow fp s2) with (in_shadow fp s). rewrite Hsh.
    rewrite bool_decide_true; [done|]. cbn. apply elem_of_app. right. by left.
  - rewrite (answer_seen _ _ fp) by done.
    assert (Hseen : fst (seen_spec r'' fp s3 f1) = Ok true).
    { apply (seen_recorded r'' fp s3 f1 Hf1 (Hhas eq_refl)). apply drop_absent. }
    destruct (seen_spec r'' fp s3 f1) as [o g]. cbn in Hseen. by subst.
Qed.

(** ** Check and commit *)

(** C12. A transactional check that misses records nothing: rolled back, the filter
    was only probed and the tables are as before.  A commit adds the fingerprint
    to the filter and returns normally when the filter takes it, and also when the
    filter is full or its backend fails transiently; any other error it raises;
    the reservation is gone in every case, and the filter is what its [add] left.
    Once the filter took it, every later transactional check is a duplicate, and
    every later boolean check too, unless an earlier [forget] left a retry
    allowance for the fingerprint: that check misses and consumes it. *)
Theorem transaction `{!NoFalseNegatives F} t r w fp (s : self) (f f1 : F)
    (Hq : quiescent s) (Hr : fingerprint r = Ok fp)
    (Hw : reservations_by_owner (the_tables s) !! w = None)
    (Hn : active_reservations (the_tables s) !! next_object s = None)
    (Hsh : in_shadow fp s = false) (Hf : mf_inv f) (Hmiss : mf_contains fp f = (Ok false, f1)) :
  let res := Reservation (next_object s) fp (epoch s) w r in
  let s1 := s <| next_object ::= S |> in
  exists s2,
    answer (request_seen_with_reservation fingerprint t r (Some w)) (s, f) =
      Some (Ok (Decision false (Some res) false), (s2, f1)) /\
    answer (rollback_reservation t res) (s2, f1) = Some (Ok tt, (s1, f1)) /\
    forall o f2, mf_add fp f1 = (o, f2) ->
      answer (commit_reservation t res) (s2, f1) =
        Some (match o with
              | Ok _ => Ok tt
              | Raise e => if filter_full e || transient e then Ok tt else Raise e
              end, (s1, f2)) /\
      (is_ok o = true -> forall t' r', fingerprint r' = Ok fp ->
        (exists g, answer (request_seen fingerprint t' r') (s1, f2) =
           Some (Ok (negb (bool_decide (fp ∈ retry_allowances (the_ledger s)))), g)) /\
        forall w', reservations_by_owner (the_tables s) !! w' = None ->
          active_reservations (the_tables s) !! next_object s1 = None ->
          exists g, answer (request_seen_with_reservation fingerprint t' r' (Some w')) (s1, f2) =
            Some (Ok (Decision true None false), g)).
Proof.
  intros res s1. set (s2 := s1 <| the_tables ::= reserve res |>). exists s2.
  assert (Hq1 : quiescent s1) by (destruct Hq; by constructor).
  assert (Hq2 : quiescent s2) by (destruct Hq; by constructor).
  assert (Hd : s2 <| the_tables := discard_reservation res (the_tables s2) |> = s1).
  { change (the_tables s2) with (reserve res (the_tables s)). rewrite discard_reserve by done. by destruct s. }
  assert (Hc : reservation_is_current (Transactional res) s2 = true).
  { unfold reservation_is_current. cbn -[insert lookup]. rewrite Z.eqb_refl. cbn [andb].
    by rewrite bool_decide_true by apply lookup_insert_eq. }
  pose proof (run_reserve fingerprint t r fp w s f Hq Hr Hw Hn) as Hres. unfold probe in Hres.
  rewrite Hsh, Hmiss in Hres. destruct Hres as [l1 Hres].
  split_and!.
  - unfold answer. by rewrite Hres.
  - unfold answer. destruct (run_rollback t res s2 f1 Hq2 Hc) as [l ->]. by rewrite Hd.
  - intros o f2 Hadd. split.
    + pose proof (run_commit t res s2 f1 Hq2 Hc) as Hcm. change (res_fingerprint res) with fp in Hcm.
      rewrite Hadd in Hcm. destruct Hcm as [l Hcm]. unfold answer. by rewrite Hcm, Hd.
    + intros Ho t' r' Hr'. destruct o as [b|]; [|done].
      destruct (mf_contains_inv _ _ _ _ Hf Hmiss) as [Hf1 _].
      destruct (mf_add_inv _ _ _ _ Hf1 Hadd) as (Hf2 & Hhas & _). specialize (Hhas eq_refl). split.
      * rewrite (answer_seen _ _ fp) by done. case_bool_decide as Ha.
        -- unfold seen_spec, decide_seen. change (in_shadow fp s1) with (in_shadow fp s). rewrite Hsh.
           change (the_ledger s1) with (the_ledger s). rewrite bool_decide_true by done. by eexists.
        -- pose proof (seen_recorded r' fp s1 f2 Hf2 Hhas Ha) as Hseen.
           destruct (seen_spec r' fp s1 f2) as [o g]. cbn in Hseen. subst. by exists g.
      * intros w' Hw' Hn'. pose proof (run_reserve fingerprint t' r' fp w' s1 f2 Hq1 Hr' Hw' Hn') as Hs.
        unfold probe in Hs. change (in_shadow fp s1) with (in_shadow fp s) in Hs. rewrite Hsh in Hs.
        pose proof (mf_has_contains _ _ Hf2 Hhas) as Hm. destruct (mf_contains fp f2) as [o f3]. cbn in Hm. subst o.
        destruct Hs as [l Hs]. unfold answer. rewrite Hs. by eexists.
Qed.
(** ** Two departures *)

(** An interrupted check of a request that already has a pending receipt keeps
    its admission slot: the compensation takes the earlier receipt for its own,
    and neither a receipt, an intent nor an allowance stands for the slot. *)
Theorem interrupted_sibling_leaks t r fp rc n (s : self) (f f1 : F)
    (Hq : quiescent s) (Hr : fingerprint r = Ok fp)
    (Hsel : select_pending r (the_tables s) = Some rc) (Hfp : rc_fingerprint rc = fp) (Hslot : rc_slot rc = true)
    (Hsh : in_shadow fp s = false) (Hal : fp ∉ retry_allowances (the_ledger s))
    (Hroom : ledger_size (the_ledger s) < allowance_limit (the_ledger s))
    (Hadd : mf_add fp f = (Raise (ECtl n), f1)) :
  exists s', answer (request_seen fingerprint t r) (s, f) = Some (Raise (ECtl n), (s', f1)) /\
    slots_reserved (the_ledger s') = slots_reserved (the_ledger s) + 1 /\
    the_tables s' = the_tables s /\ retry_allowances (the_ledger s') = retry_allowances (the_ledger s).
Proof.
  rewrite (answer_seen _ _ fp) by done. unfold seen_spec, decide_seen.
  rewrite Hsh, bool_decide_false, (proj2 (Z.leb_gt _ _)), Hadd by done. cbn [unsupported filter_full transient orb].
  unfold stands_in. rewrite Hsel, Hfp, bool_decide_true, Hslot by done. cbn [andb negb].
  eexists. split; [reflexivity|]. split; [|done]. cbn. lia.
Qed.
End Contract.

Module Examples.
#[local] Existing Instance MemoryFilter.memory_filter.
#[local] Existing Instance MemoryFilter.unbounded_no_false_negatives.
Definition fp_of (r : nat) : outcome bytes := Ok [x61].
Definition resolve (r : nat) : outcome unit := Ok tt.
Definition noop {F} : M F unit := ret tt.

(** A filter whose write is interrupted. *)
Definition interrupted : MembershipFilter unit := {|
  mf_add := fun _ _ => (Raise (ECtl 1), tt); mf_contains := fun _ _ => (Ok false, tt);
  mf_len := fun _ => (Ok 0, tt); mf_clear := fun _ => (Ok tt, tt);
  mf_remove := fun _ _ => (Ok true, tt) |}.

Definition memory : MemoryFilter.self := MemoryFilter.Self None [] false.
Definition timeout : float := float_of_Z 30.

Lemma init_quiescent : quiescent init.
Proof. constructor; by vm_compute. Qed.

Abbreviation reach := (reachable (F := MemoryFilter.self) fp_of resolve noop noop None false timeout memory).
Abbreviation go cs := (after cs ([], (init, memory))).
Abbreviation seen_by t r := (Spawn thread_start (call (request_seen (F := MemoryFilter.self) fp_of t r))).

(** A call that is waiting for the filter, and a settled one. *)
Definition two_calls : list (Conc.choice local (shared (F := MemoryFilter.self))) :=
  [seen_by 1 7; Go 0; Go 0; Go 0; Go 0; Go 0; Go 0; Go 0].


(** A close that begins while a clear waits for its drain, and the drain runs
    into its deadline. *)
Definition late_clear : list (Conc.choice local (shared (F := MemoryFilter.self))) :=
  [seen_by 1 7; Go 0;
   Spawn thread_start (clear timeout 2 fzero [Wake (float_of_Z 100) None]); Go 1;
   Spawn thread_start (close noop None timeout 3 fzero fzero [] []); Go 2; Go 1].
Lemma request_seen_refines_witness :
  answer (request_seen fp_of 1 7) (init, memory) = Some (seen_spec 7 [x61] init memory) /\
  fst (seen_spec 7 [x61] init memory) = Ok false.
Proof.
  split; [|reflexivity].
  exact (proj1 (request_seen_refines fp_of 1 7 [x61] init memory init_quiescent eq_refl)).
Defined.

Lemma transaction_witness :
  let res := Reservation 1 [x61] 0 9 7 in
  exists s2 f2,
    answer (request_seen_with_reservation fp_of 1 7 (Some 9%nat)) (init, memory) =
      Some (Ok (Decision false (Some res) false), (s2, memory)) /\
    answer (commit_reservation 1 res) (s2, memory) = Some (Ok tt, (init <| next_object ::= S |>, f2)).
Proof.
  assert (Hf : mf_inv memory) by (split; [split; [constructor|done]|reflexivity]).
  destruct (transaction fp_of 1 7 9 [x61] init memory memory init_quiescent eq_refl eq_refl eq_refl eq_refl Hf eq_refl)
    as (s2 & H1 & _ & H3).
  exists s2, (snd (mf_add [x61] memory)). split; [exact H1|]. exact (proj1 (H3 (Ok true) _ eq_refl)).
Defined.

Lemma interrupted_sibling_leaks_witness :
  let s := published 7 [x61] (the_ledger init <| slots_reserved := 1 |>) init in
  exists s', answer (request_seen (H := interrupted) fp_of 1 7) (s, tt) = Some (Raise (ECtl 1), (s', tt)) /\
    slots_reserved (the_ledger s') = 2 /\ length (all_receipts (the_tables s')) = 1%nat.
Proof.
  intros s. assert (Hq : quiescent s) by (apply published_quiescent; [exact init_quiescent|done]).
  destruct (interrupted_sibling_leaks (H := interrupted) fp_of 1 7 [x61]
    (Receipt 2 [x61] 0 7 false None false true) 1 s tt tt Hq eq_refl eq_refl eq_refl eq_refl eq_refl
    ltac:(by apply not_elem_of_nil) eq_refl eq_refl) as (s' & H1 & H2 & H3 & _).
  exists s'. split; [exact H1|]. rewrite H2, H3. by split.
Defined.

(** A Bloom filter cannot remove. *)
Abbreviation bloom := (Bloom.bloom_filter Bloom.Examples.toy_sha).

Lemma one_retry_witness : exists g1 g2 g3 g4,
  answer (request_seen (H := bloom) fp_of 1 7) (init, Bloom.Examples.small) = Some (Ok false, g1) /\
  answer (forget (H := bloom) 1 7) g1 = Some (Ok tt, g2) /\
  answer (request_seen (H := bloom) fp_of 1 7) g2 = Some (Ok false, g3) /\
  answer (request_seen (H := bloom) fp_of 1 8) g3 = Some (Ok true, g4).
Proof.
  assert (E : @mf_add _ bloom [x61] Bloom.Examples.small =
    (Ok true, snd (@mf_add _ bloom [x61] Bloom.Examples.small))) by by vm_compute.
  destruct (one_retry (H := bloom) (NoFalseNegatives0 := Bloom.bloom_no_false_negatives Bloom.Examples.toy_sha)
    fp_of 1 1 1 7 7 8 [x61] init Bloom.Examples.small _ init_quiescent
    inv_new_filter eq_refl eq_refl eq_refl
    (conj eq_refl (not_elem_of_empty 7%nat)) eq_refl (not_elem_of_nil _) eq_refl Bloom.Examples.small_ok E eq_refl)
    as (s1 & s2 & s3 & g4 & H1 & H2 & H3 & H4).
  do 4 eexists. split; [exact H1|]. split; [exact H2|]. split; [exact H3|exact H4].
Defined.
End Examples.

#[local] Existing Instance MemoryFilter.memory_filter.

(** A clear whose drain fails restores the state before it even when a close
    has begun in between: the filter accepts new calls while it is closing. *)
Theorem clear_timeout_reopens :
  exists x, Examples.reach x /\
    let s := fst (snd x) in
    accepts s = true /\ close_requested (the_transitions s) = true /\ release_in_progress (the_transitions s) = true.
Proof.
  exists (after Examples.late_clear ([], (init, Examples.memory))). split; [|by vm_compute].
  apply runs_steps; [repeat constructor|by vm_compute].
Qed.
End DupeFilterContract.
