(* ===== verification/Identity.v ===== *)
(** * Identity templates

    utils/identity.py: [resolve_identity_template], which builds the default
    queue and duplicate-filter keys from a project and a spider name. *)

From S2P Require Export PyText.

Module Identity.
Abbreviation text := (list ascii).
Definition chars (s : string) : text := list_ascii_of_string s.

(** [s.replace(old, new)] for a nonempty [old]; the fuel is the length of [s]. *)
Fixpoint replace_from (fuel : nat) (old new s : text) : text :=
  match fuel with
  | O => s
  | S fuel =>
      match s with
      | [] => []
      | c :: s' =>
          match cut_prefix old s with
          | Some r => new ++ replace_from fuel old new r
          | None => c :: replace_from fuel old new s'
          end
      end
  end.
Definition replace (old new s : text) : text := replace_from (length s) old new s.

(** [sub in s]. *)
Fixpoint occurs (sub s : text) : bool :=
  match cut_prefix sub s with
  | Some _ => true
  | None => match s with [] => false | _ :: s' => occurs sub s' end
  end.

(** [value.strip()] on ASCII text. *)
Definition py_space (c : ascii) : bool :=
  let n := N_of_ascii c in ((n =? 32) || ((9 <=? n) && (n <=? 13)) || ((28 <=? n) && (n <=? 31)))%N.
Fixpoint lstrip (s : text) : text :=
  match s with c :: s' => if py_space c then lstrip s' else s | [] => [] end.
Definition strip (s : text) : text := rev (lstrip (rev (lstrip s))).

(** [project_name_from_settings]: the configured name when it is a string
    ([None]: no such setting, another type, or no settings object). *)
Definition DEFAULT_PROJECT_NAME : text := chars "default".
Definition project_name_from_settings (bot_name : option text) : text :=
  match bot_name with
  | Some v => match strip v with [] => DEFAULT_PROJECT_NAME | t => t end
  | None => DEFAULT_PROJECT_NAME
  end.

Definition PROJECT : text := chars "{project}".
Definition SPIDER : text := chars "{spider}".
Definition colon : ascii := ":"%char.

Definition rejects (template : text) (value : option text) (placeholder : text) : bool :=
  match value with
  | Some v => occurs placeholder template && bool_decide (colon ∈ v)
  | None => false
  end.

Definition substitute (placeholder : text) (value : option text) (s : text) : text :=
  match value with Some v => replace placeholder v s | None => s end.

Definition resolve_identity_template (template : text) (spider_name project_name : option text) : outcome text :=
  if rejects template project_name PROJECT || rejects template spider_name SPIDER then Raise EValue
  else Ok (substitute SPIDER spider_name (substitute PROJECT project_name template)).

Definition DEFAULT_QUEUE_KEY_TEMPLATE : text := chars "scheduler-queue:{project}:{spider}".
Definition DEFAULT_DUPEFILTER_KEY_TEMPLATE : text := chars "dupefilter:{project}:{spider}".

(** ** Replacement *)
Definition free (old a rest : text) : Prop :=
  forall a1 a2, a = a1 ++ a2 -> a2 <> [] -> cut_prefix old (a2 ++ rest) = None.

Lemma replace_fuel old new s fuel : old <> [] -> (length s <= fuel)%nat ->
  replace_from fuel old new s = replace old new s.
Proof.
  intros Ho. unfold replace. revert s. induction fuel as [fuel IH] using lt_wf_ind. intros s Hl.
  destruct s as [|c s]; [by destruct fuel|]. destruct fuel as [|fuel]; [cbn in Hl; lia|]. cbn.
  destruct (cut_prefix old (c :: s)) as [r|] eqn:E.
  - pose proof (cut_prefix_Some _ _ _ E) as Hr. destruct old as [|o old]; [done|].
    assert (length r <= length s)%nat.
    { apply (f_equal length) in Hr. rewrite length_app in Hr. cbn in Hr. lia. }
    cbn in Hl. rewrite (IH fuel), (IH (length s)) by lia. done.
  - cbn in Hl. rewrite (IH fuel) by lia. done.
Qed.

Lemma replace_free old new a s : old <> [] -> free old a s -> replace old new (a ++ s) = a ++ replace old new s.
Proof.
  intros Ho. induction a as [|c a IH]; intros Hf; [done|]. cbn [app]. unfold replace at 1. cbn.
  pose proof (Hf [] (c :: a) eq_refl ltac:(done)) as Hc. cbn [app] in Hc. rewrite Hc.
  rewrite replace_fuel by done. f_equal. apply IH. intros a1 a2 -> Hn. by apply (Hf (c :: a1) a2).
Qed.

Lemma replace_hit old new s : old <> [] -> replace old new (old ++ s) = new ++ replace old new s.
Proof.
  intros Ho. destruct old as [|o old]; [done|]. unfold replace at 1. cbn [app length replace_from].
  change (o :: old ++ s) with ((o :: old) ++ s). rewrite cut_prefix_app. f_equal.
  apply replace_fuel; [done|]. rewrite length_app. lia.
Qed.

Lemma replace_nil old new : replace old new [] = [].
Proof. done. Qed.

(** A placeholder starts with a brace and has no colon. *)
Lemma free_no_brace old a s : head old = Some "{"%char -> "{"%char ∉ a -> free old a s.
Proof.
  intros Ho Ha a1 a2 -> Hn. destruct old as [|o old]; [done|]. injection Ho as ->.
  destruct a2 as [|c a2]; [done|]. cbn. rewrite bool_decide_false; [done|].
  intros <-. apply Ha. apply elem_of_app. right. by left.
Qed.

Lemma occurs_false old a1 a2 : occurs old (a1 ++ a2) = false -> cut_prefix old a2 = None.
Proof.
  induction a1 as [|c a1 IH]; cbn [app].
  - destruct a2; cbn; by destruct (cut_prefix old _).
  - cbn. destruct (cut_prefix old (c :: a1 ++ a2)); [done|]. apply IH.
Qed.

(** An occurrence that would run over a colon is none. *)
Lemma cut_colon old a s : colon ∉ old -> cut_prefix old a = None -> cut_prefix old (a ++ colon :: s) = None.
Proof.
  revert a. induction old as [|o old IH]; intros a Hc; [done|].
  destruct a as [|c a]; cbn.
  - intros _. rewrite bool_decide_false; [done|]. intros ->. apply Hc. by left.
  - case_bool_decide; [|done]. apply IH. intros Hin. apply Hc. by right.
Qed.

Lemma free_value old v s : colon ∉ old -> occurs old v = false -> free old v (colon :: s).
Proof. intros Hc Hv a1 a2 -> _. apply cut_colon; [done|]. by apply (occurs_false old a1). Qed.

(** ** The default keys *)
Definition default_key (prefix : text) (project spider : text) : text :=
  prefix ++ colon :: project ++ colon :: spider.

Lemma resolve_default prefix project spider :
  "{"%char ∉ prefix -> colon ∉ project -> colon ∉ spider -> occurs SPIDER project = false ->
  resolve_identity_template (prefix ++ colon :: PROJECT ++ colon :: SPIDER) (Some spider) (Some project)
  = Ok (default_key prefix project spider).
Proof.
  intros Hp Hpc Hsc Hs. unfold resolve_identity_template, rejects. rewrite !bool_decide_false by done.
  rewrite !andb_false_r. cbn [orb substitute]. f_equal. unfold default_key.
  assert (Hpre : forall old s, head old = Some "{"%char -> free old (prefix ++ [colon]) s).
  { intros old s Ho. apply free_no_brace; [done|]. rewrite elem_of_app. intros [|[?|?%elem_of_nil]%elem_of_cons]; done. }
  assert (Hr1 : replace PROJECT project (prefix ++ colon :: PROJECT ++ colon :: SPIDER) =
    (prefix ++ [colon]) ++ project ++ colon :: SPIDER).
  { change (prefix ++ colon :: PROJECT ++ colon :: SPIDER) with (prefix ++ [colon] ++ PROJECT ++ colon :: SPIDER).
    rewrite app_assoc, replace_free, replace_hit by (done || by apply Hpre). done. }
  rewrite Hr1, replace_free by (done || by apply Hpre). rewrite replace_free.
  2:{ done. }
  2:{ apply free_value; [|done]. unfold SPIDER, chars, colon. cbn. rewrite !elem_of_cons, elem_of_nil. intuition discriminate. }
  change (colon :: SPIDER) with ([colon] ++ SPIDER ++ []). rewrite replace_free, replace_hit, replace_nil, app_nil_r.
  - by rewrite <- app_assoc.
  - done.
  - done.
  - apply free_no_brace; [done|]. rewrite elem_of_cons, elem_of_nil. intuition discriminate.
Qed.

Lemma cut_at_colon (a a' b b' : text) : colon ∉ a -> colon ∉ a' -> a ++ colon :: b = a' ++ colon :: b' -> a = a' /\ b = b'.
Proof.
  revert a'. induction a as [|c a IH]; intros [|c' a'] H1 H2; cbn; intros E; simplify_eq; try done.
  - exfalso. apply H2. by left.
  - exfalso. apply H1. by left.
  - destruct (IH a') as [-> ->]; try done; intros Hin; [apply H1|apply H2]; by right.
Qed.
Lemma default_templates t : t ∈ [DEFAULT_QUEUE_KEY_TEMPLATE; DEFAULT_DUPEFILTER_KEY_TEMPLATE] ->
  exists prefix, t = prefix ++ colon :: PROJECT ++ colon :: SPIDER /\ "{"%char ∉ prefix.
Proof.
  intros [->|[->|[]%elem_of_nil]%elem_of_cons]%elem_of_cons.
  - exists (chars "scheduler-queue"). split; [reflexivity|]. apply (bool_decide_eq_true_1 (_ ∉ _)). by vm_compute.
  - exists (chars "dupefilter"). split; [reflexivity|]. apply (bool_decide_eq_true_1 (_ ∉ _)). by vm_compute.
Qed.

(** Distinct projects or spiders never share a default queue or filter key: a
    colon in a name is rejected, and the composed key determines both names
    (for projects that do not spell the spider placeholder). *)
Theorem default_keys_distinct template p1 s1 p2 s2 k
    (Ht : template ∈ [DEFAULT_QUEUE_KEY_TEMPLATE; DEFAULT_DUPEFILTER_KEY_TEMPLATE])
    (H1 : resolve_identity_template template (Some s1) (Some p1) = Ok k)
    (H2 : resolve_identity_template template (Some s2) (Some p2) = Ok k)
    (Hp1 : occurs SPIDER p1 = false) (Hp2 : occurs SPIDER p2 = false) :
  p1 = p2 /\ s1 = s2.
Proof.
  assert (Hacc : forall p s, resolve_identity_template template (Some s) (Some p) = Ok k -> colon ∉ p /\ colon ∉ s).
  { intros p s. unfold resolve_identity_template, rejects.
    assert (occurs PROJECT template = true /\ occurs SPIDER template = true) as [-> ->].
    { apply elem_of_cons in Ht as [->|[->|[]%elem_of_nil]%elem_of_cons]; by vm_compute. }
    cbn [andb]. repeat case_bool_decide; done. }
  destruct (Hacc _ _ H1) as [A1 B1], (Hacc _ _ H2) as [A2 B2]. clear Hacc.
  apply default_templates in Ht as (prefix & -> & Hpre).
  rewrite resolve_default in H1, H2 by done. rewrite <- H2 in H1. injection H1 as E.
  unfold default_key in E. apply app_inv_head in E. injection E as E. by apply cut_at_colon.
Qed.

Module Examples.
Lemma default_keys_distinct_witness :
  resolve_identity_template DEFAULT_QUEUE_KEY_TEMPLATE (Some (chars "a")) (Some (chars "shop"))
    <> resolve_identity_template DEFAULT_QUEUE_KEY_TEMPLATE (Some (chars "b")) (Some (chars "shop")).
Proof.
  intros E.
  destruct (default_keys_distinct DEFAULT_QUEUE_KEY_TEMPLATE (chars "shop") (chars "a") (chars "shop") (chars "b")
    (chars "scheduler-queue:shop:a") ltac:(by left) eq_refl (eq_trans (eq_sym E) eq_refl) eq_refl eq_refl) as [_ H].
  discriminate H.
Defined.

(** A project named after the placeholder shares its key with another pair. *)
Example placeholder_project_collides :
  let shared := Ok (chars "scheduler-queue:x:x") in
  resolve_identity_template DEFAULT_QUEUE_KEY_TEMPLATE (Some (chars "x")) (Some (chars "{spider}")) = shared /\
  resolve_identity_template DEFAULT_QUEUE_KEY_TEMPLATE (Some (chars "x")) (Some (chars "x")) = shared.
Proof. split; vm_compute; reflexivity. Qed.
End Examples.
End Identity.
