(* ===== verification/Envelope.v ===== *)
(** * Request envelopes

    queue/queue.py, the serialization half of [BackendQueue]: a request becomes
    a stamped dictionary ([_request_to_dict]) written by the JSON serializer; a
    popped payload is validated field by field and rebuilt without imports or
    attribute lookups the payload controls.  Scrapy's request classes are a
    parameter: their dictionary form, their attributes and their constructor. *)

From S2P Require Export Codec.

Module Envelope.
Import Codec.

Definition ENVELOPE_PROJECT_FIELD : string := "_scrapy_extension_project".
Definition ENVELOPE_SPIDER_FIELD : string := "_scrapy_extension_spider".
Definition BACKEND_ACK_TOKEN_META_KEY : string := "_backend_ack_token".
Definition BODY_CODEC_FIELD : string := "_scrapy_extension_body_codec".
Definition BODY_CODEC_BASE64_V1 : string := "base64-v1".

(** The allowlist of request classes. *)
Inductive request_class := Request | FormRequest | JsonRequest | XmlRpcRequest.
Definition all_classes : list request_class := [Request; FormRequest; JsonRequest; XmlRpcRequest].

(** [getattr(spider, name)]: absent, a bound method of this very spider, or
    anything else. *)
Inductive attribute := Missing | Method (m : nat) | NotAMethod.

(** What the queue reads of a spider. *)
Record spider := Spider { name : option string; getattr : string -> attribute }.

(** Keyword arguments of a request constructor. *)
Section Args.
Context {I : IsoDates}.
Inductive kwarg := Value (v : value) | Bound (m : nat).

Definition kget (k : string) (l : list (string * kwarg)) : option kwarg :=
  option_map snd (List.find (fun kv => bool_decide (fst kv = k)) l).
End Args.

(** Scrapy's requests. *)
Class Requests `{IsoDates} (R : Type) := {
  to_dict : R -> outcome (list (string * value));
  body : R -> bytes;
  headers : R -> list (bytes * list bytes);
  meta : R -> list (key * value);
  (* the dotted path, [Request.attributes], the constructor *)
  class_path : request_class -> string;
  attributes : request_class -> list string;
  construct : request_class -> list (string * kwarg) -> outcome R
}.

Section Envelope.
Context {I : IsoDates} {J : JsonText} {R : Type} `{!Requests R}.

(** The part of a queue that routes and bounds envelopes. *)
Record config := Config {
  the_spider : option spider; project_name : string; allow_cross_spider : bool; max_item_bytes : Z
}.

(** ** Dictionaries *)

(** [d[k] = v]. *)
Fixpoint vset {A} (k : string) (v : A) (l : list (string * A)) : list (string * A) :=
  match l with
  | [] => [(k, v)]
  | (k', v') :: l' => if bool_decide (k' = k) then (k, v) :: l' else (k', v') :: vset k v l'
  end.
Definition vdel {A} (k : string) (l : list (string * A)) : list (string * A) :=
  List.filter (fun kv => negb (bool_decide (fst kv = k))) l.

(** [_REQUEST_CLASSES.get(path)]. *)
Definition REQUEST_CLASSES (path : string) : option request_class :=
  List.find (fun c => bool_decide (class_path c = path)) all_classes.

(** ** Writing *)
Definition spider_name (c : config) : option string :=
  match the_spider c with Some s => name s | None => None end.

(** The class discriminator of [to_dict]. *)
Definition check_class (d : list (string * value)) : outcome unit :=
  match vget "_class" d with
  | None | Some VNone => Ok tt
  | Some (VStr s) => match REQUEST_CLASSES s with Some _ => Ok tt | None => Raise EValue end
  | Some (VList _) | Some (VDict _) | Some (VSet _) | Some (VByteArray _) => Raise EType
  | Some _ => Raise EValue
  end.

(** [name.decode("ascii")]. *)
Definition ascii_text (b : bytes) : outcome string :=
  if forallb (fun x => Z_of_byte x <? 128) b then Ok (string_of_list_byte b) else Raise EDecode.

Fixpoint header_dict (l : list (bytes * list bytes)) : outcome (list (string * value)) :=
  match l with
  | [] => Ok []
  | (n, vs) :: l' =>
      obind (ascii_text n) (fun n => omap (cons (n, VList (map VBytes vs))) (header_dict l'))
  end.

Definition transient_key (k : key) : bool :=
  match k with
  | KStr s => bool_decide (s ∈ [BACKEND_ACK_TOKEN_META_KEY; "delay"; "source"]%string)
  | _ => false
  end.
Definition serialized_meta (m : list (key * value)) : list (key * value) :=
  List.filter (fun kv => negb (transient_key (fst kv))) m.

Definition stamp (c : config) (d : list (string * value)) : list (string * value) :=
  match spider_name c with
  | Some n =>
      if bool_decide (n = ""%string) then d
      else vset ENVELOPE_SPIDER_FIELD (VStr n) (vset ENVELOPE_PROJECT_FIELD (VStr (project_name c)) d)
  | None => d
  end.

(** [_request_to_dict]. *)
Definition request_to_dict (c : config) (r : R) : outcome (list (string * value)) :=
  obind (to_dict r) (fun d =>
  obind (check_class d) (fun _ =>
  let body_value := match body r with [] => VNone | b => VStr (b64_text b) end in
  obind (header_dict (headers r)) (fun hs =>
  let d := vset "meta" (VDict (serialized_meta (meta r))) (vset "body" body_value (vset "headers" (vdict hs) d)) in
  let d := stamp c d in
  Ok (match body r with [] => d | _ => vset BODY_CODEC_FIELD (VStr BODY_CODEC_BASE64_V1) d end)))).

(** [self._serializer.serialize(self._request_to_dict(request))]. *)
Definition serialize_request (c : config) (r : R) : outcome bytes :=
  obind (request_to_dict c r) (fun d => serialize (vdict d)).

(** ** Reading *)

(** [_validate_serialized_priority]. *)
Definition validate_serialized_priority (d : list (string * value)) : outcome (list (string * value)) :=
  match vget "priority" d with
  | None | Some VNone => Ok d
  | Some (VInt z) =>
      if isfinite (float_of_Z z) then Ok (vset "priority" (VInt z) d) else Raise EType
  | Some (VFloat f) =>
      if isfinite f && (fceil f =? ffloor f) then Ok (vset "priority" (VInt (ffloor f)) d) else Raise EType
  | Some _ => Raise EType
  end.

(** [_validate_envelope_identity]: whether the envelope is somebody else's. *)
Definition foreign (c : config) (d : list (string * value)) : bool :=
  match spider_name c with
  | None => false
  | Some expected =>
      if allow_cross_spider c then false
      else
        match vget ENVELOPE_SPIDER_FIELD d, vget ENVELOPE_PROJECT_FIELD d with
        | (None | Some VNone), (None | Some VNone) => false
        | Some (VStr s), Some (VStr p) => negb (bool_decide (s = expected /\ p = project_name c))
        | _, _ => true
        end
  end.

(** [_decode_body]. *)
Definition decode_body (d : list (string * value)) : outcome (list (string * value)) :=
  let codec := vget BODY_CODEC_FIELD d in
  let d := vdel BODY_CODEC_FIELD d in
  let v1 := match codec with Some (VStr s) => bool_decide (s = BODY_CODEC_BASE64_V1) | _ => false end in
  match codec with
  | Some (VList _) | Some (VDict _) => Raise EType
  | _ =>
      if negb v1 && negb (match codec with None | Some VNone => true | _ => false end) then Raise EValue
      else
        match vget "body" d with
        | None | Some VNone => Ok d
        | Some (VStr s) =>
            match b64decode (list_ascii_of_string s) with
            | Some b => Ok (vset "body" (VBytes b) d)
            | None => if v1 then Raise EValue else Ok (vset "body" (VBytes (encode s)) d)
            end
        | Some (VBytes b) =>
            match b64decode (list_ascii_of_string (string_of_list_byte b)) with
            | Some b => Ok (vset "body" (VBytes b) d)
            | None => Raise EValue
            end
        | Some _ => Raise EType
        end
  end.

(** [_validate_request_dict]. *)
Definition is_str (v : value) : bool := match v with VStr _ => true | _ => false end.
Definition is_dict (v : value) : bool := match v with VDict _ => true | _ => false end.
Definition is_list (v : value) : bool := match v with VList _ => true | _ => false end.
Definition is_none (v : value) : bool := match v with VNone => true | _ => false end.
Definition is_bytes (v : value) : bool := match v with VBytes _ => true | _ => false end.
Definition is_bool (v : value) : bool := match v with VBool _ => true | _ => false end.

Definition field_types : list (string * (value -> bool)) :=
  [("url", is_str); ("method", is_str); ("encoding", is_str); ("headers", is_dict); ("meta", is_dict);
   ("cb_kwargs", is_dict); ("cookies", fun v => is_dict v || is_list v);
   ("body", fun v => is_bytes v || is_none v); ("callback", fun v => is_str v || is_none v);
   ("errback", fun v => is_str v || is_none v); ("dont_filter", is_bool); ("flags", is_list);
   ("_class", is_str); ("dumps_kwargs", is_dict)]%string.

Definition require_type (d : list (string * value)) (ft : string * (value -> bool)) : bool :=
  match vget (fst ft) d with Some v => snd ft v | None => true end.

Definition flags_ok (d : list (string * value)) : bool :=
  match vget "flags" d with Some (VList l) => forallb is_str l | _ => true end.

Definition header_ok (kv : key * value) : bool :=
  match fst kv, snd kv with
  | KStr _, (VStr _ | VBytes _) => true
  | KStr _, VList l => forallb (fun v => is_str v || is_bytes v) l
  | _, _ => false
  end.
Definition headers_ok (d : list (string * value)) : bool :=
  match vget "headers" d with Some (VDict l) => forallb header_ok l | _ => true end.

Definition validate_request_dict (d : list (string * value)) : outcome (list (string * value)) :=
  if forallb (require_type d) field_types && flags_ok d && headers_ok d
  then validate_serialized_priority d else Raise EType.

(** [_request_from_dict]. *)
Definition dunder (s : string) : bool := String.prefix "__" s.

Definition resolve_callback (c : config) (d : list (string * value)) (field : string)
    (kwargs : list (string * kwarg)) : outcome (list (string * kwarg)) :=
  match vget field d, the_spider c with
  | Some (VStr m), Some s =>
      if bool_decide (m = ""%string) then Ok kwargs
      else if dunder m then Raise EValue
      else match getattr s m with
           | Method f => Ok (vset field (Bound f) kwargs)
           | _ => Raise EValue
           end
  | _, _ => Ok kwargs
  end.

Definition class_of (d : list (string * value)) : outcome request_class :=
  match vget "_class" d with
  | None | Some VNone => Ok Request
  | Some (VStr s) => match REQUEST_CLASSES s with Some c => Ok c | None => Raise EValue end
  | Some _ => Raise EValue
  end.

Definition keyword_arguments (cls : request_class) (d : list (string * value)) : list (string * kwarg) :=
  map (fun kv => (fst kv, Value (snd kv)))
    (List.filter (fun kv => bool_decide (fst kv ∈ attributes cls)) d).

Definition request_from_dict (c : config) (d : list (string * value)) : outcome R :=
  obind (class_of d) (fun cls =>
  obind (resolve_callback c d "callback" (keyword_arguments cls d)) (fun kw =>
  obind (resolve_callback c d "errback" kw) (construct cls))).

(** The decoding half of [_process_pop]: an accepted request, somebody else's
    envelope (with the priority it is returned with), or a payload that cannot
    be used; [Escapes] is a signal. *)
Inductive verdict := Accepted (r : R) | Foreign (priority : option value) | Malformed (oversize : bool)
  | Escapes (e : exn).

(** The members of a dictionary of a deserialized tree. *)
Fixpoint members (l : list (key * value)) : option (list (string * value)) :=
  match l with
  | [] => Some []
  | (KStr k, v) :: l' => option_map (cons (k, v)) (members l')
  | _ :: _ => None
  end.

Definition malformed (e : exn) : verdict := if is_ordinary e then Malformed false else Escapes e.

Definition decode_request (c : config) (data : bytes) : verdict :=
  if max_item_bytes c <? Z.of_nat (length data) then Malformed true
  else
    match deserialize data with
    | Ok (VDict l) =>
        match members l with
        | None => Malformed false
        | Some d =>
            match validate_serialized_priority d with
            | Raise e => malformed e
            | Ok d =>
                if foreign c d then Foreign (vget "priority" d)
                else
                  match obind (obind (decode_body d) validate_request_dict) (request_from_dict c) with
                  | Ok r => Accepted r
                  | Raise e => malformed e
                  end
            end
        end
    | Ok _ => Malformed false
    | Raise e => malformed e
    end.
End Envelope.

(** ** Facts *)
Section Facts.
Context {I : IsoDates} {J : JsonText} {R : Type} `{!Requests R}.

(** *** Dictionaries *)
Lemma vget_vset k k' (v : value) d : vget k' (vset k v d) = if bool_decide (k = k') then Some v else vget k' d.
Proof.
  induction d as [|[k0 v0] d IH]; cbn.
  - unfold vget. cbn. by case_bool_decide.
  - unfold vget in *. cbn. destruct (decide (k0 = k)) as [->|Hk].
    + rewrite bool_decide_true by done. cbn. by case_bool_decide.
    + rewrite (bool_decide_false (k0 = k)) by done. cbn. destruct (decide (k0 = k')) as [->|H1].
      * rewrite bool_decide_true by done. by rewrite bool_decide_false by congruence.
      * rewrite bool_decide_false by done. exact IH.
Qed.

Lemma vset_keys {A} k (v : A) d x : x ∈ map fst (vset k v d) <-> x = k \/ x ∈ map fst d.
Proof.
  induction d as [|[k0 v0] d IH]; cbn; [rewrite elem_of_cons; tauto|].
  case_bool_decide; cbn; rewrite !elem_of_cons; [subst|rewrite IH]; tauto.
Qed.

Lemma vset_nodup {A} k (v : A) d : NoDup (map fst d) -> NoDup (map fst (vset k v d)).
Proof.
  induction d as [|[k0 v0] d IH]; cbn; [intros _; apply NoDup_singleton|].
  intros [Hx Hn]%NoDup_cons. case_bool_decide as Hk; cbn; [by subst; apply NoDup_cons|].
  apply NoDup_cons. split; [|by apply IH]. rewrite vset_keys. by intros [->|].
Qed.

Lemma vset_forall {A} (P : string * A -> Prop) k (v : A) d : P (k, v) -> Forall P d -> Forall P (vset k v d).
Proof.
  intros Hv Hd. induction Hd as [|[k0 v0] d H0 Hd IH]; cbn; [by constructor|].
  case_bool_decide; by constructor.
Qed.

Lemma vset_map (f : value -> value) k v d :
  map (fun kv => (fst kv, f (snd kv))) (vset k v d) = vset k (f v) (map (fun kv => (fst kv, f (snd kv))) d).
Proof. induction d as [|[k0 v0] d IH]; cbn; [done|]. destruct (bool_decide (k0 = k)); cbn; by rewrite ?IH. Qed.

Lemma vset_vset {A} k (v v' : A) d : vset k v (vset k v' d) = vset k v d.
Proof.
  induction d as [|[k0 v0] d IH]; cbn; [by rewrite bool_decide_true|]. destruct (decide (k0 = k)) as [->|Hk].
  - rewrite bool_decide_true by done. cbn. by rewrite bool_decide_true.
  - rewrite bool_decide_false by done. cbn. rewrite bool_decide_false by done. by rewrite IH.
Qed.

Lemma vset_same k (v : value) d : vget k d = Some v -> vset k v d = d.
Proof.
  induction d as [|[k0 v0] d IH]; cbn; [done|]. unfold vget. cbn.
  case_bool_decide as Hk; cbn; [intros [= ->]; by subst|]. intros Hg. f_equal. by apply IH.
Qed.

Lemma vdel_absent k (d : list (string * value)) : vget k d = None -> vdel k d = d.
Proof.
  induction d as [|[k0 v0] d IH]; cbn; [done|]. unfold vget. cbn.
  case_bool_decide as Hk; cbn; [done|]. intros Hg. f_equal. by apply IH.
Qed.

Lemma vdel_vset k (v : value) d : vget k d = None -> vdel k (vset k v d) = d.
Proof.
  induction d as [|[k0 v0] d IH]; cbn; [by rewrite bool_decide_true|]. unfold vget. cbn.
  case_bool_decide as Hk; cbn; [done|]. intros Hg. rewrite bool_decide_false by done. cbn. f_equal. by apply IH.
Qed.

Lemma vget_vdel k k' (d : list (string * value)) : k' <> k -> vget k' (vdel k d) = vget k' d.
Proof.
  intros Hk. induction d as [|[k0 v0] d IH]; [done|]. unfold vget in *. cbn.
  case_bool_decide as H0; cbn; [subst; by rewrite bool_decide_false|]. by case_bool_decide.
Qed.

Lemma vget_map (f : value -> value) k d : vget k (map (fun kv => (fst kv, f (snd kv))) d) = option_map f (vget k d).
Proof. induction d as [|[k0 v0] d IH]; [done|]. unfold vget in *. cbn. by case_bool_decide. Qed.

Lemma members_vdict d : members (map (fun kv => (KStr (fst kv), snd kv)) d) = Some d.
Proof. induction d as [|[k v] d IH]; [done|]. cbn. by rewrite IH. Qed.

Lemma members_ok l d : members l = Some d -> VDict l = vdict d.
Proof.
  revert d. induction l as [|[[k| |] v] l IH]; intros d; cbn; [by intros [= <-]| |done|done].
  destruct (members l) as [d'|]; [|done]. intros [= <-]. pose proof (IH d' eq_refl) as Hd.
  unfold vdict in *. cbn. by injection Hd as ->.
Qed.

Lemma norm_vdict d : norm (vdict d) = vdict (map (fun kv => (fst kv, norm (snd kv))) d).
Proof. unfold vdict. cbn. f_equal. by rewrite !map_map. Qed.

(** *** The priority field *)
Lemma priority_ok d d' : validate_serialized_priority d = Ok d' ->
  (forall k, k <> "priority"%string -> vget k d' = vget k d) /\
  match vget "priority" d' with None | Some VNone | Some (VInt _) => True | _ => False end.
Proof.
  unfold validate_serialized_priority.
  destruct (vget "priority" d) as [[| |z|f| | | | | | | | | | | | | | |]|] eqn:E; try done;
    try (intros [= <-]; by rewrite E).
  - destruct (isfinite _); [|done]. intros [= <-]. split; [|by rewrite vget_vset, bool_decide_true].
    intros k Hk. rewrite vget_vset. rewrite bool_decide_false; [done|congruence].
  - destruct (_ && _); [|done]. intros [= <-]. split; [|by rewrite vget_vset, bool_decide_true].
    intros k Hk. rewrite vget_vset. rewrite bool_decide_false; [done|congruence].
Qed.

Lemma priority_stable d z : vget "priority" d = Some (VInt z) -> isfinite (float_of_Z z) = true ->
  validate_serialized_priority d = Ok d.
Proof. intros E Hf. unfold validate_serialized_priority. rewrite E, Hf. by rewrite vset_same. Qed.
(** *** Reading what was written *)
Definition norm_all (d : list (string * value)) : list (string * value) :=
  map (fun kv => (fst kv, norm (snd kv))) d.

Lemma vset_comm {A} k k' (v v' : A) d : k <> k' -> k ∈ map fst d ->
  vset k v (vset k' v' d) = vset k' v' (vset k v d).
Proof.
  intros Hk. induction d as [|[k0 v0] d IH]; cbn; [by intros ?%elem_of_nil|].
  destruct (decide (k0 = k)) as [->|H1]; [|destruct (decide (k0 = k')) as [->|H2]].
  - intros _. rewrite (bool_decide_false (k = k')), (bool_decide_true (k = k)) by done. cbn.
    rewrite bool_decide_true by done. cbn. by rewrite bool_decide_false by done.
  - intros _. rewrite (bool_decide_true (k' = k')), (bool_decide_false (k' = k)) by done. cbn.
    rewrite bool_decide_false by done. cbn. by rewrite bool_decide_true by done.
  - intros [?|Hin]%elem_of_cons; [congruence|]. rewrite !bool_decide_false by done. cbn.
    rewrite !bool_decide_false by done. by rewrite IH.
Qed.

Lemma vget_in k (v : value) d : vget k d = Some v -> k ∈ map fst d.
Proof.
  unfold vget. destruct (List.find _ d) as [kv|] eqn:E; [|done]. intros _.
  apply find_some in E as [Hin Hk%bool_decide_eq_true]. subst. apply list_elem_of_fmap_2, list_elem_of_In, Hin.
Qed.

(** What Scrapy's [to_dict] promises about the fields the queue does not write. *)
Definition written : list string := ["headers"; "body"; "meta"]%string.
Record documented (r : R) (d : list (string * value)) : Prop := {
  doc_dict : to_dict r = Ok d;
  doc_distinct : distinct_keys (vdict d);
  doc_meta : distinct_keys (VDict (meta r));
  doc_headers : NoDup (map fst (headers r));
  doc_fields : forallb (fun ft => bool_decide (fst ft ∈ written) || require_type d ft) field_types = true;
  doc_flags : flags_ok d = true;
  doc_priority : match vget "priority" d with
                 | None | Some VNone => True
                 | Some (VInt z) => isfinite (float_of_Z z) = true
                 | _ => False
                 end;
  doc_reserved : Forall (fun f => vget f d = None)
                   [ENVELOPE_PROJECT_FIELD; ENVELOPE_SPIDER_FIELD; BODY_CODEC_FIELD]
}.

Definition decoded_body (r : R) : value := match body r with [] => VNone | b => VBytes b end.

(** The dictionary the consumer rebuilds the request from. *)
Definition restored (c : config) (r : R) (d hs : list (string * value)) : list (string * value) :=
  stamp c (vset "meta" (norm (VDict (serialized_meta (meta r))))
    (vset "body" (decoded_body r) (vset "headers" (vdict hs) (norm_all d)))).

Lemma vget_stamp c k d : k <> ENVELOPE_PROJECT_FIELD -> k <> ENVELOPE_SPIDER_FIELD -> vget k (stamp c d) = vget k d.
Proof.
  intros H1 H2. unfold stamp. destruct (spider_name c) as [n|]; [|done]. case_bool_decide; [done|].
  by rewrite !vget_vset, !bool_decide_false by congruence.
Qed.

Lemma stamp_vset c k v d : k <> ENVELOPE_PROJECT_FIELD -> k <> ENVELOPE_SPIDER_FIELD -> k ∈ map fst d ->
  vset k v (stamp c d) = stamp c (vset k v d).
Proof.
  intros H1 H2 Hin. unfold stamp. destruct (spider_name c) as [n|]; [|done]. case_bool_decide; [done|].
  rewrite (vset_comm k ENVELOPE_SPIDER_FIELD) by (try done; rewrite vset_keys; by right).
  by rewrite (vset_comm k ENVELOPE_PROJECT_FIELD) by done.
Qed.

Lemma stamp_map c d : norm_all (stamp c d) = stamp c (norm_all d).
Proof.
  unfold stamp, norm_all. destruct (spider_name c) as [n|]; [|done]. case_bool_decide; [done|].
  by rewrite !vset_map.
Qed.

(** *** The header dictionary *)
Lemma header_dict_ok l hs : header_dict l = Ok hs ->
  norm (vdict hs) = vdict hs /\ forallb header_ok (map (fun kv => (KStr (fst kv), snd kv)) hs) = true /\
  map (fun kv => list_byte_of_string (fst kv)) hs = map fst l /\ Forall (fun kv => distinct_keys (snd kv)) hs.
Proof.
  revert hs. induction l as [|[n vs] l IH]; intros hs; cbn.
  { intros [= <-]. repeat split; constructor. }
  intros (n' & Hn & (hs' & Hh & ->)%omap_ok)%obind_ok. destruct (IH hs' Hh) as (H1 & H2 & H3 & H4).
  assert (Hbytes : forall l : list bytes, map norm (map VBytes l) = map VBytes l /\
      forallb (fun v => is_str v || is_bytes v) (map VBytes l) = true).
  { clear. induction l as [|x l [I1 I2]]; [done|]. cbn in *. by rewrite I1, I2. }
  destruct (Hbytes vs) as [B1 B2]. repeat split.
  - unfold vdict in *. cbn in *. injection H1 as H1. by rewrite B1, H1.
  - cbn in *. by rewrite B2, H2.
  - cbn. f_equal; [|done]. unfold ascii_text in Hn. destruct (forallb _ n); [|done]. injection Hn as <-.
    exact (list_byte_of_string_of_list_byte n).
  - constructor; [|done]. cbn [snd]. apply distinct_list. clear. induction vs; cbn; by constructor.
Qed.
Lemma distinct_vset k v d : distinct_keys v -> distinct_keys (vdict d) -> distinct_keys (vdict (vset k v d)).
Proof.
  intros Hv [Hn Hd]%distinct_dict. apply distinct_dict. unfold vdict in *. split.
  - rewrite map_map in *. cbn in *. rewrite <- (map_map fst KStr) in *. apply NoDup_fmap_1 in Hn.
    apply NoDup_fmap_2; [by intros ? ? [= ->]|]. by apply vset_nodup.
  - rewrite Forall_map in Hd |- *.
    exact (vset_forall (fun x => distinct_keys (snd x)) k v d Hv Hd).
Qed.

Lemma distinct_filter (P : key * value -> bool) m : distinct_keys (VDict m) -> distinct_keys (VDict (List.filter P m)).
Proof.
  intros [Hn Hd]%distinct_dict. apply distinct_dict. split.
  - induction m as [|x m IH]; [done|]. apply NoDup_cons in Hn as [Hx Hn]. apply Forall_cons in Hd as [_ Hd].
    cbn. destruct (P x); [|by apply IH]. cbn. apply NoDup_cons. split; [|by apply IH].
    intros (y & Hy & Hin)%list_elem_of_fmap. apply Hx. rewrite Hy. apply list_elem_of_fmap_2.
    apply list_elem_of_In, filter_In in Hin as [Hin _]. by apply list_elem_of_In.
  - rewrite Forall_forall in *. intros x Hx. apply Hd. apply list_elem_of_In, filter_In in Hx as [Hx _].
    by apply list_elem_of_In.
Qed.

Lemma distinct_stamp c d : distinct_keys (vdict d) -> distinct_keys (vdict (stamp c d)).
Proof.
  intros Hd. unfold stamp. destruct (spider_name c); [|done]. case_bool_decide; [done|].
  by apply distinct_vset, distinct_vset.
Qed.

Lemma hs_distinct l hs : header_dict l = Ok hs -> NoDup (map fst l) -> distinct_keys (vdict hs).
Proof.
  intros Hh Hn. destruct (header_dict_ok l hs Hh) as (_ & _ & H3 & H4). apply distinct_dict. split.
  - unfold vdict. rewrite map_map. cbn. rewrite <- (map_map fst KStr). apply NoDup_fmap_2; [by intros ? ? [= ->]|].
    rewrite <- H3, <- (map_map fst list_byte_of_string) in Hn. by apply NoDup_fmap_1 in Hn.
  - unfold vdict. by rewrite Forall_map.
Qed.

(** The dictionary that goes over the wire, normalised. *)
Lemma written_dict c r d hs d0 : documented r d -> header_dict (headers r) = Ok hs -> request_to_dict c r = Ok d0 ->
  let wire := match body r with [] => VNone | b => VStr (b64_text b) end in
  let sent := stamp c (vset "meta" (norm (VDict (serialized_meta (meta r))))
                (vset "body" wire (vset "headers" (vdict hs) (norm_all d)))) in
  distinct_keys (vdict d0) /\
  norm_all d0 = match body r with [] => sent | _ => vset BODY_CODEC_FIELD (VStr BODY_CODEC_BASE64_V1) sent end.
Proof.
  intros [D1 D2 D3 D4 D5 D6 D7 D8] Hh. unfold request_to_dict. rewrite D1. cbn [obind].
  destruct (check_class d); [|done]. cbn [obind]. rewrite Hh. cbn [obind].
  set (wire := match body r with [] => VNone | b => VStr (b64_text b) end).
  intros E. cbv zeta. pose proof (proj1 (header_dict_ok _ _ Hh)) as Hhs.
  assert (Hw : distinct_keys wire /\ norm wire = wire) by (unfold wire; by destruct (body r)).
  set (d1 := stamp c (vset "meta" (VDict (serialized_meta (meta r))) (vset "body" wire (vset "headers" (vdict hs) d)))) in *.
  assert (Hd1 : distinct_keys (vdict d1)).
  { apply distinct_stamp, distinct_vset; [by apply distinct_filter|]. apply distinct_vset; [apply Hw|].
    apply distinct_vset; [by apply (hs_distinct (headers r))|done]. }
  assert (Hn1 : norm_all d1 = stamp c (vset "meta" (norm (VDict (serialized_meta (meta r))))
      (vset "body" wire (vset "headers" (vdict hs) (norm_all d))))).
  { unfold d1. rewrite stamp_map. unfold norm_all. rewrite !vset_map. destruct Hw as [_ ->]. by rewrite Hhs. }
  destruct (body r); injection E as <-; [by rewrite Hn1|]. split; [by apply distinct_vset|].
  unfold norm_all at 1. rewrite vset_map. change (map _ d1) with (norm_all d1). by rewrite Hn1.
Qed.
#[local] Instance KStr_inj : Inj (=) (=) KStr.
Proof. by intros ? ? [= ->]. Qed.

(** *** Lookups in a written dictionary *)
Definition unreserved (k : string) : Prop :=
  k <> ENVELOPE_PROJECT_FIELD /\ k <> ENVELOPE_SPIDER_FIELD /\ k <> BODY_CODEC_FIELD.

Lemma vget_written c k m b h d : unreserved k ->
  vget k (stamp c (vset "meta" m (vset "body" b (vset "headers" h (norm_all d))))) =
  if bool_decide (k = "meta"%string) then Some m
  else if bool_decide (k = "body"%string) then Some b
  else if bool_decide (k = "headers"%string) then Some h
  else option_map norm (vget k d).
Proof.
  intros (H1 & H2 & _). rewrite vget_stamp, !vget_vset by done. unfold norm_all. rewrite vget_map.
  repeat (case_bool_decide; subst; try done).
Qed.

Lemma vget_field_written c f m b h d : f ∈ [ENVELOPE_PROJECT_FIELD; ENVELOPE_SPIDER_FIELD; BODY_CODEC_FIELD] ->
  vget f d = None ->
  vget f (stamp c (vset "meta" m (vset "body" b (vset "headers" h (norm_all d))))) =
  match spider_name c with
  | Some n => if bool_decide (n = ""%string) then None
              else if bool_decide (f = ENVELOPE_SPIDER_FIELD) then Some (VStr n)
              else if bool_decide (f = ENVELOPE_PROJECT_FIELD) then Some (VStr (project_name c)) else None
  | None => None
  end.
Proof.
  intros Hf Hd. assert (Hin : vget f (vset "meta" m (vset "body" b (vset "headers" h (norm_all d)))) = None).
  { rewrite !vget_vset. unfold norm_all. rewrite vget_map, Hd.
    apply elem_of_cons in Hf as [->|[->|[->|[]%elem_of_nil]%elem_of_cons]%elem_of_cons]; done. }
  unfold stamp. destruct (spider_name c) as [n|]; [|done]. case_bool_decide; [done|].
  rewrite (vget_vset ENVELOPE_SPIDER_FIELD), (vget_vset ENVELOPE_PROJECT_FIELD), Hin.
  by repeat case_bool_decide.
Qed.

Lemma written_own c c' m b h d : the_spider c' = the_spider c -> project_name c' = project_name c ->
  Forall (fun f => vget f d = None) [ENVELOPE_PROJECT_FIELD; ENVELOPE_SPIDER_FIELD; BODY_CODEC_FIELD] ->
  foreign c' (stamp c (vset "meta" m (vset "body" b (vset "headers" h (norm_all d))))) = false.
Proof.
  intros Hs Hp Hr. unfold foreign. assert (spider_name c' = spider_name c) as -> by (unfold spider_name; by rewrite Hs).
  apply Forall_cons in Hr as [R1 [R2 _]%Forall_cons].
  destruct (spider_name c) as [n|] eqn:En; [|done]. destruct (allow_cross_spider c'); [done|].
  rewrite !vget_field_written, En by (done || set_solver). case_bool_decide; [done|].
  rewrite (bool_decide_true (ENVELOPE_SPIDER_FIELD = _)), (bool_decide_false (ENVELOPE_PROJECT_FIELD = _)),
    (bool_decide_true (ENVELOPE_PROJECT_FIELD = _)) by done.
  by rewrite bool_decide_true.
Qed.

Lemma foreign_vset c k v d : unreserved k \/ k = BODY_CODEC_FIELD -> foreign c (vset k v d) = foreign c d.
Proof.
  intros Hk. unfold foreign. rewrite !vget_vset, !bool_decide_false; [done|..];
    destruct Hk as [(H1 & H2 & _)| ->]; done.
Qed.

Lemma norm_typed ft v : ft ∈ field_types -> snd ft v = true -> snd ft (norm v) = true.
Proof.
  intros Hin. unfold field_types in Hin.
  repeat (apply elem_of_cons in Hin as [->|Hin]; [by destruct v|]). by apply elem_of_nil in Hin.
Qed.

Lemma priority_written c m b h r d : documented r d ->
  validate_serialized_priority (stamp c (vset "meta" m (vset "body" b (vset "headers" h (norm_all d))))) =
  Ok (stamp c (vset "meta" m (vset "body" b (vset "headers" h (norm_all d))))).
Proof.
  intros [_ _ _ _ _ _ D7 _]. set (D := stamp _ _).
  assert (Hg : vget "priority" D = option_map norm (vget "priority" d)) by by apply vget_written.
  unfold validate_serialized_priority. rewrite Hg. destruct (vget "priority" d) as [[]|]; try done.
  cbn [option_map norm] in *. rewrite D7. by rewrite vset_same.
Qed.

(** Case analysis on a documented field. *)
Ltac fields_of Hin tac :=
  unfold field_types in Hin;
  repeat (apply elem_of_cons in Hin as [->|Hin]; [cbn [fst snd] in *; tac|]);
  by apply elem_of_nil in Hin.

Lemma restored_valid c r d hs : documented r d -> header_dict (headers r) = Ok hs ->
  validate_request_dict (restored c r d hs) = Ok (restored c r d hs).
Proof.
  intros Hd Hh. pose proof Hd as [D1 D2 D3 D4 D5 D6 D7 D8]. unfold validate_request_dict.
  destruct (header_dict_ok _ _ Hh) as (_ & Hok & _).
  assert (forallb (require_type (restored c r d hs)) field_types = true) as ->.
  { apply forallb_forall. intros ft Hin. rewrite forallb_forall in D5. specialize (D5 ft Hin).
    apply list_elem_of_In in Hin. unfold require_type, restored in *.
    assert (Hu : unreserved (fst ft)).
    { clear -Hin. unfold field_types in Hin.
      repeat (apply elem_of_cons in Hin as [->|Hin]; [by repeat split|]). by apply elem_of_nil in Hin. }
    rewrite vget_written by done.
    destruct (decide (fst ft ∈ written)) as [Hw|Hw].
    - clear -Hin Hw. unfold written, decoded_body in *. repeat rewrite elem_of_cons in Hw. rewrite elem_of_nil in Hw.
      fields_of Hin ltac:(first [done|by destruct (body r)|exfalso; destruct Hw as [Hw|[Hw|[Hw|[]]]]; discriminate Hw]).
    - rewrite bool_decide_false in D5 by done. cbn [orb] in D5.
      rewrite !bool_decide_false by (intros E; apply Hw; rewrite E; unfold written; rewrite !elem_of_cons; tauto).
      destruct (vget (fst ft) d) as [v|]; [|done]. cbn. by apply norm_typed. }
  assert (flags_ok (restored c r d hs) = true) as ->.
  { unfold flags_ok, restored in *. rewrite vget_written by done. cbn [bool_decide].
    rewrite forallb_forall in D5. specialize (D5 ("flags"%string, is_list) ltac:(cbn; tauto)).
    unfold require_type in D5. cbn [fst snd] in D5. rewrite bool_decide_false in D5 by (unfold written; set_solver).
    rewrite !bool_decide_false by done. destruct (vget "flags" d) as [[]|]; try done. cbn in *.
    clear -D6. induction l as [|x l IH]; [done|]. cbn in *. apply andb_true_iff in D6 as [H1 H2].
    rewrite IH by done. by destruct x. }
  assert (headers_ok (restored c r d hs) = true) as ->.
  { unfold headers_ok, restored. rewrite vget_written by done. rewrite !bool_decide_false, bool_decide_true by done.
    exact Hok. }
  by apply (priority_written c _ _ _ r d).
Qed.

Lemma body_restored c r d hs : documented r d -> header_dict (headers r) = Ok hs ->
  forall d0, request_to_dict c r = Ok d0 -> decode_body (norm_all d0) = Ok (restored c r d hs).
Proof.
  intros Hd Hh d0 E. destruct (written_dict c r d hs d0 Hd Hh E) as [_ ->].
  pose proof Hd as [_ _ _ _ _ _ _ D8].
  set (m := norm (VDict (serialized_meta (meta r)))). set (h := vdict hs).
  assert (Hno : forall w, vget BODY_CODEC_FIELD (stamp c (vset "meta" m (vset "body" w (vset "headers" h (norm_all d))))) = None).
  { intros w. apply Forall_cons in D8 as [_ [_ [D8 _]%Forall_cons]%Forall_cons].
    rewrite vget_field_written by (done || set_solver). destruct (spider_name c); [|done].
    case_bool_decide; [done|]. by rewrite !bool_decide_false. }
  unfold restored, decoded_body. fold m h. destruct (body r) as [|x b] eqn:Eb.
  - unfold decode_body. rewrite Hno, vdel_absent by apply Hno. cbn [orb andb negb].
    rewrite vget_written by done. by rewrite bool_decide_false, bool_decide_true by done.
  - unfold decode_body. rewrite vget_vset, bool_decide_true by done. rewrite vdel_vset by apply Hno.
    rewrite bool_decide_true by done. cbn [orb andb negb]. rewrite vget_written by done.
    rewrite bool_decide_false, bool_decide_true by done. unfold b64_text.
    rewrite list_ascii_of_string_of_list_ascii, b64decode_encode. f_equal.
    rewrite stamp_vset; [|done..|rewrite vset_keys; right; rewrite vset_keys; by left]. f_equal.
    rewrite vset_comm; [|done|rewrite vset_keys; by left]. by rewrite vset_vset.
Qed.

Context {IL : IsoDatesLaws} {JL : JsonTextLaws}.

(** C34. A request that was accepted for writing is read back by any queue of the
    same spider and project as the same dictionary: every documented field with
    the codec's normalisation, the body to the byte, every header value, and
    the metadata without the transient keys (delay, source, broker token). *)
Theorem envelope_roundtrip c c' r d hs b
    (Hd : documented r d) (Hh : header_dict (headers r) = Ok hs)
    (Hb : serialize_request c r = Ok b) (Hsize : Z.of_nat (length b) <= max_item_bytes c')
    (Hs : the_spider c' = the_spider c) (Hp : project_name c' = project_name c) :
  decode_request c' b =
  match request_from_dict c' (restored c r d hs) with
  | Ok r' => Accepted r'
  | Raise e => malformed e
  end.
Proof.
  unfold serialize_request in Hb. apply obind_ok in Hb as (d0 & E & Hb).
  destruct (written_dict c r d hs d0 Hd Hh E) as [Hdist Hn]. unfold decode_request.
  rewrite (proj2 (Z.ltb_ge _ _)) by lia. rewrite (serialize_norm _ _ Hdist Hb), norm_vdict.
  unfold vdict at 1. rewrite members_vdict. fold (norm_all d0).
  assert (validate_serialized_priority (norm_all d0) = Ok (norm_all d0)) as ->.
  { rewrite Hn. pose proof (priority_written c (norm (VDict (serialized_meta (meta r))))
      (match body r with [] => VNone | b => VStr (b64_text b) end) (vdict hs) r d Hd) as Hpr.
    destruct (body r); [exact Hpr|]. unfold validate_serialized_priority in *.
    rewrite vget_vset, bool_decide_false by done. set (D := stamp _ _) in *.
    destruct (vget "priority" D) as [[]|] eqn:Eg; try done.
    - destruct (isfinite _); [|done]. f_equal. apply vset_same. rewrite vget_vset, bool_decide_false by done.
      rewrite Eg. done.
    - exfalso. unfold D in Eg. rewrite vget_written in Eg by done. rewrite !bool_decide_false in Eg by done.
      pose proof (doc_priority _ _ Hd) as D7. destruct (vget "priority" d) as [[]|]; done. }
  assert (foreign c' (norm_all d0) = false) as ->.
  { rewrite Hn. pose proof (written_own c c' (norm (VDict (serialized_meta (meta r))))
      (match body r with [] => VNone | b => VStr (b64_text b) end) (vdict hs) d Hs Hp (doc_reserved _ _ Hd)) as Hf.
    destruct (body r); [exact Hf|]. rewrite foreign_vset by by right. exact Hf. }
  rewrite (body_restored c r d hs Hd Hh d0 E). cbn [obind]. by rewrite restored_valid.
Qed.
(** *** What any payload can lead to *)
Lemma resolve_kwargs c d field kw kw' : resolve_callback c d field kw = Ok kw' ->
  kw' = kw \/ exists s n m, the_spider c = Some s /\ vget field d = Some (VStr n) /\ dunder n = false /\
                         getattr s n = Method m /\ kw' = vset field (Bound m) kw.
Proof.
  unfold resolve_callback. destruct (vget field d) as [[]|]; try (intros [= ->]; by left).
  destruct (the_spider c) as [sp|]; [|intros [= ->]; by left].
  case_bool_decide; [intros [= ->]; by left|]. destruct (dunder s) eqn:Ed; [done|].
  destruct (getattr sp s) as [|m|] eqn:Eg; [done| |done]. intros [= <-]. right. by exists sp, s, m.
Qed.

(** The keyword arguments a payload may bring: typed values of listed attributes,
    taken from the envelope [d], and bound methods of the queue's own spider
    under the public or single-underscore name in the envelope. *)
Definition safe_argument (c : config) (cls : request_class) (d : list (string * value))
    (kv : string * kwarg) : Prop :=
  match snd kv with
  | Value v => fst kv ∈ attributes cls /\ native v /\ (forall p, (fst kv, p) ∈ field_types -> p v = true) /\
      (fst kv <> "body"%string -> fst kv <> "priority"%string -> vget (fst kv) d = Some v)
  | Bound m => fst kv ∈ ["callback"; "errback"]%string /\
      exists s n, the_spider c = Some s /\ vget (fst kv) d = Some (VStr n) /\
        dunder n = false /\ getattr s n = Method m
  end.

(** The stamps of an envelope this queue may read: a queue without a spider, or
    one that opted in, reads every envelope; another reads one without stamps or
    with the names of its own spider and project. *)
Definition addressed (c : config) (d : list (string * value)) : Prop :=
  match spider_name c with
  | None => True
  | Some n =>
      allow_cross_spider c = true
      \/ (forall f, f ∈ [ENVELOPE_SPIDER_FIELD; ENVELOPE_PROJECT_FIELD] ->
            vget f d = None \/ vget f d = Some VNone)
      \/ (vget ENVELOPE_SPIDER_FIELD d = Some (VStr n) /\
          vget ENVELOPE_PROJECT_FIELD d = Some (VStr (project_name c)))
  end.

Lemma foreign_addressed c d : foreign c d = false -> addressed c d.
Proof.
  unfold foreign, addressed. destruct (spider_name c) as [n|]; [|done].
  destruct (allow_cross_spider c); [by left|]. intros H. right.
  destruct (vget ENVELOPE_SPIDER_FIELD d) as [[]|] eqn:E1, (vget ENVELOPE_PROJECT_FIELD d) as [[]|] eqn:E2;
    try discriminate H;
    try (left; intros f Hf; repeat (apply elem_of_cons in Hf as [-> | Hf]; [rewrite ?E1, ?E2; by auto|]);
         by apply elem_of_nil in Hf).
  right. apply negb_false_iff, bool_decide_eq_true in H as [-> ->]. done.
Qed.

(** The class an envelope names is one of the allowlist. *)
Lemma class_of_named d cls : class_of d = Ok cls ->
  (cls = Request /\ (vget "_class" d = None \/ vget "_class" d = Some VNone))
  \/ vget "_class" d = Some (VStr (class_path cls)).
Proof.
  unfold class_of. destruct (vget "_class" d) as [[]|]; try done; try (intros [= <-]; left; auto).
  unfold REQUEST_CLASSES. destruct (List.find _ _) as [c0|] eqn:E; [|done]. intros [= <-]. right.
  apply find_some in E as [_ E%bool_decide_eq_true]. by rewrite E.
Qed.

Lemma vget_nodup k (v : value) d : NoDup (map fst d) -> (k, v) ∈ d -> vget k d = Some v.
Proof.
  unfold vget. induction d as [|[k0 v0] d IH]; [by intros _ ?%elem_of_nil|].
  cbn. intros [Hk Hn]%NoDup_cons [[= -> ->]|Hin]%elem_of_cons; [by rewrite bool_decide_true|].
  rewrite bool_decide_false; [by apply IH|]. intros ->. apply Hk. by apply (list_elem_of_fmap_2 fst) in Hin.
Qed.

Lemma native_members l d : native (VDict l) -> members l = Some d ->
  NoDup (map fst d) /\ Forall (fun kv => native (snd kv)) d.
Proof.
  intros [Hn Hf]%native_dict Hm. pose proof (members_ok l d Hm) as Hd. injection Hd as ->. split.
  - rewrite map_map in Hn. cbn in Hn. rewrite <- (map_map fst KStr) in Hn. by apply NoDup_fmap_1 in Hn.
  - rewrite Forall_map in Hf. eapply Forall_impl; [exact Hf|]. by intros kv [_ H].
Qed.

Lemma vdel_sub k (d : list (string * value)) x : x ∈ vdel k d -> x ∈ d.
Proof. unfold vdel. intros Hx. apply list_elem_of_In, filter_In in Hx as [Hx _]. by apply list_elem_of_In. Qed.

Lemma vdel_nodup k (d : list (string * value)) : NoDup (map fst d) -> NoDup (map fst (vdel k d)).
Proof.
  unfold vdel. induction d as [|[k0 v0] d IH]; [done|]. cbn. intros [Hx Hn]%NoDup_cons.
  destruct (negb _); cbn; [|by apply IH]. apply NoDup_cons. split; [|by apply IH].
  intros (y & -> & Hy)%list_elem_of_fmap. apply Hx, list_elem_of_fmap_2.
  apply list_elem_of_In, filter_In in Hy as [Hy _]. by apply list_elem_of_In.
Qed.

Definition well_formed (d : list (string * value)) : Prop :=
  NoDup (map fst d) /\ Forall (fun kv => native (snd kv)) d.

Lemma well_vset k v d : native v -> well_formed d -> well_formed (vset k v d).
Proof. intros Hv [H1 H2]. split; [by apply vset_nodup|by apply (vset_forall (fun x => native (snd x)))]. Qed.

Lemma well_priority d d' : well_formed d -> validate_serialized_priority d = Ok d' -> well_formed d'.
Proof.
  intros Hw. unfold validate_serialized_priority. destruct (vget _ d) as [[]|]; try done; try (by intros [= <-]).
  - destruct (isfinite _); [|done]. intros [= <-]. by apply well_vset.
  - destruct (_ && _); [|done]. intros [= <-]. by apply well_vset.
Qed.

Lemma decode_body_inv d d' : decode_body d = Ok d' ->
  d' = vdel BODY_CODEC_FIELD d \/ exists b, d' = vset "body" (VBytes b) (vdel BODY_CODEC_FIELD d).
Proof.
  unfold decode_body. set (D := vdel _ d) in *. intros E.
  assert (Hbody : exists v1 : bool, match vget "body" D with
    | None | Some VNone => Ok D
    | Some (VStr s) => match b64decode (list_ascii_of_string s) with
        | Some b => Ok (vset "body" (VBytes b) D)
        | None => if v1 then Raise EValue else Ok (vset "body" (VBytes (encode s)) D) end
    | Some (VBytes b) => match b64decode (list_ascii_of_string (string_of_list_byte b)) with
        | Some b => Ok (vset "body" (VBytes b) D) | None => Raise EValue end
    | Some _ => Raise EType end = Ok d').
  { destruct (vget BODY_CODEC_FIELD d) as [[]|]; try discriminate E;
      (destruct (negb _ && _); [discriminate E|]); first [exists false; exact E|eexists; exact E]. }
  clear E. destruct Hbody as [v1 Hbody]. destruct (vget "body" D) as [[]|]; try done; try (injection Hbody as <-; by left).
  - destruct (b64decode _); [|destruct v1; [done|]]; injection Hbody as <-; right; eauto.
  - destruct (b64decode _); [|done]. injection Hbody as <-. right; eauto.
Qed.

Lemma well_body d d' : well_formed d -> decode_body d = Ok d' -> well_formed d'.
Proof.
  intros Hw. assert (Hd : well_formed (vdel BODY_CODEC_FIELD d)).
  { destruct Hw as [H1 H2]. split; [by apply vdel_nodup|]. rewrite Forall_forall in *. intros x Hx.
    by apply H2, (vdel_sub BODY_CODEC_FIELD). }
  intros [->|[b ->]]%decode_body_inv; [done|by apply well_vset].
Qed.

Lemma vget_vdel_same k (d : list (string * value)) : vget k (vdel k d) = None.
Proof.
  unfold vget, vdel. induction d as [|[k1 v1] d IH]; [done|]. cbn.
  destruct (decide (k1 = k)) as [->|H0]; [by rewrite bool_decide_true|].
  rewrite bool_decide_false by done. cbn. by rewrite bool_decide_false.
Qed.

(** Body and priority apart, a validated field is the envelope's own. *)
Lemma validated_source d d1 d2 d3 k :
  validate_serialized_priority d = Ok d1 -> decode_body d1 = Ok d2 -> validate_request_dict d2 = Ok d3 ->
  k <> "body"%string -> k <> "priority"%string ->
  vget k d3 = if bool_decide (k = BODY_CODEC_FIELD) then None else vget k d.
Proof.
  intros H1 H2 H3 Hb Hp. destruct (priority_ok _ _ H1) as [E1 _]. rewrite <- E1 by done.
  unfold validate_request_dict in H3. destruct (_ && _); [|done].
  destruct (priority_ok _ _ H3) as [E3 _]. rewrite E3 by done.
  assert (E : vget k d2 = vget k (vdel BODY_CODEC_FIELD d1)).
  { apply decode_body_inv in H2 as [->|[b ->] ]; [done|]. rewrite vget_vset, bool_decide_false; [done|congruence]. }
  rewrite E. case_bool_decide as Hk; [by subst; apply vget_vdel_same|by apply vget_vdel].
Qed.

Lemma validated_types d d' : well_formed d -> validate_request_dict d = Ok d' ->
  well_formed d' /\ forall k v p, (k, v) ∈ d' -> (k, p) ∈ field_types -> p v = true.
Proof.
  intros Hw. unfold validate_request_dict. destruct (_ && _) eqn:E; [|done]. intros Hp.
  pose proof (well_priority _ _ Hw Hp) as Hw'. split; [done|]. intros k v p Hin Hft.
  apply andb_true_iff in E as [[Hr _]%andb_true_iff _]. rewrite forallb_forall in Hr.
  pose proof (Hr (k, p) ltac:(by apply list_elem_of_In)) as Hreq. unfold require_type in Hreq. cbn [fst snd] in Hreq.
  destruct (priority_ok _ _ Hp) as [Hsame _].
  assert (Hk : k <> "priority"%string).
  { clear -Hft. intros ->. unfold field_types in Hft.
    repeat (apply elem_of_cons in Hft as [Hft|Hft]; [discriminate Hft|]). by apply elem_of_nil in Hft. }
  pose proof (vget_nodup k v d' (proj1 Hw') Hin) as Hg. rewrite Hsame in Hg by done. by rewrite Hg in Hreq.
Qed.

(** C35. Whatever the bytes in the queue are, an accepted request is built by the
    allowlisted class its envelope names (the plain one when it names none), from
    keyword arguments that are listed attributes of that class: native values of
    the documented types, each the envelope's own but for the decoded body and
    the normalised priority.  Besides them it gets at most a callback and an
    errback, which are bound methods of the queue's own spider under the
    non-dunder name in the envelope.  The stamps of the envelope are those of
    this queue's spider and project, or absent, unless the queue opted in. *)
Theorem accepted_is_safe c data r (Ha : decode_request c data = Accepted r) :
  Z.of_nat (length data) <= max_item_bytes c /\
  exists l d cls kw, deserialize data = Ok (VDict l) /\ members l = Some d /\ addressed c d /\
    (cls = Request /\ (vget "_class" d = None \/ vget "_class" d = Some VNone)
     \/ vget "_class" d = Some (VStr (class_path cls))) /\
    construct cls kw = Ok r /\ Forall (safe_argument c cls d) kw.
Proof.
  unfold decode_request in Ha. destruct (max_item_bytes c <? _) eqn:El; [done|]. split; [lia|].
  assert (Hnm : forall e, malformed (R := R) e <> Accepted r) by (intros e; unfold malformed; by destruct (is_ordinary e)).
  destruct (deserialize data) as [v|e] eqn:Ed; [|by destruct (Hnm e)].
  destruct v; try done. destruct (members l) as [d|] eqn:Em; [|done].
  assert (Hw : well_formed d).
  { apply obind_ok in Ed as (j & _ & Ej). by apply native_members with l; [eapply decode_native|]. }
  destruct (validate_serialized_priority d) as [d1|e] eqn:Ep; [|by destruct (Hnm e)].
  destruct (foreign c d1) eqn:Ef; [done|].
  destruct (obind _ _) as [r'|e] eqn:Eo; [|by destruct (Hnm e)]. injection Ha as ->.
  apply obind_ok in Eo as (d2 & (d3 & Eb & Ev)%obind_ok & (cls & Ec & (kw & Ek & (kw' & Ek' & Er)%obind_ok)%obind_ok)%obind_ok).
  destruct (validated_types _ _ (well_body _ _ (well_priority _ _ Hw Ep) Eb) Ev) as [Hw2 Ht].
  pose proof (fun k => validated_source _ _ _ _ k Ep Eb Ev) as Hsrc.
  exists l, d, cls, kw'. split; [done|]. split; [done|]. split.
  { apply foreign_addressed. rewrite <- Ef. destruct (priority_ok _ _ Ep) as [Hs _]. unfold foreign. by rewrite !Hs. }
  split.
  { assert (vget "_class" d = vget "_class" d2) as -> by (by rewrite Hsrc). by apply class_of_named. }
  split; [done|].
  assert (Hk0 : Forall (safe_argument c cls d) (keyword_arguments cls d2)).
  { unfold keyword_arguments. rewrite Forall_map, Forall_forall. intros [k v] Hin. cbn.
    apply list_elem_of_In, filter_In in Hin as [Hin Hattr%bool_decide_eq_true]. apply list_elem_of_In in Hin.
    pose proof (vget_nodup k v d2 (proj1 Hw2) Hin) as Hg.
    destruct Hw2 as [_ Hn]. rewrite Forall_forall in Hn. split; [done|]. split; [by apply (Hn (k, v))|].
    split; [intros p Hp; by apply (Ht k v p)|]. intros Hb Hp. rewrite Hsrc in Hg by done.
    by case_bool_decide. }
  assert (Hstep : forall field kw kw', field ∈ ["callback"; "errback"]%string -> resolve_callback c d2 field kw = Ok kw' ->
    Forall (safe_argument c cls d) kw -> Forall (safe_argument c cls d) kw').
  { intros field k1 k2 Hf Hr H1. destruct (resolve_kwargs _ _ _ _ _ Hr) as [->|(s & n & m & Hs & Hv & Hd & Hg & ->)]; [done|].
    apply vset_forall; [|done]. split; [done|]. exists s, n. split; [done|]. split; [|done]. cbn.
    rewrite Hsrc in Hv by (intros ->; set_solver). by case_bool_decide. }
  eapply Hstep; [|exact Ek'|]; [set_solver|]. eapply Hstep; [|exact Ek|]; [set_solver|done].
Qed.
End Facts.
(** ** Examples *)
Module Examples.
Import Codec.Examples.

(** Requests that are their own dictionary. *)
#[export] Instance toy : Requests (list (string * value)) := {|
  to_dict := Ok;
  body r := match vget "body" r with Some (VBytes b) => b | _ => [] end;
  headers r := [([x41], [[x62]; [xff]])];
  meta r := match vget "meta" r with Some (VDict m) => m | _ => [] end;
  class_path c := match c with
    | Request => "scrapy.http.request.Request" | FormRequest => "scrapy.http.request.form.FormRequest"
    | JsonRequest => "scrapy.http.request.json_request.JsonRequest"
    | XmlRpcRequest => "scrapy.http.request.rpc.XmlRpcRequest" end;
  attributes _ := ["url"; "callback"; "body"; "meta"; "headers"; "priority"]%string;
  construct _ kw := Ok (flat_map (fun kv => match snd kv with Value v => [(fst kv, v)] | Bound _ => [] end) kw)
|}.

Definition crawler : spider :=
  Spider (Some "s"%string) (fun n => if bool_decide (n = "parse"%string) then Method 1 else Missing).
Definition queue : config := Config (Some crawler) "p" false 1048576.
Definition request : list (string * value) :=
  [("url"%string, VStr "http://x"); ("callback"%string, VStr "parse"); ("priority"%string, VInt 2);
   ("body"%string, VBytes [xff; x00]);
   ("meta"%string, VDict [(KStr "delay", VInt 3); (KStr "depth", VInt 1)])].
Definition header_values : list (string * value) := [("A"%string, VList [VBytes [x62]; VBytes [xff]])].
Definition payload : bytes := match serialize_request queue request with Ok b => b | Raise _ => [] end.
Definition read_back : list (string * value) :=
  [("url"%string, VStr "http://x"); ("priority"%string, VInt 2); ("body"%string, VBytes [xff; x00]);
   ("meta"%string, VDict [(KStr "depth", VInt 1)]); ("headers"%string, vdict header_values)].

Lemma request_documented : documented request request.
Proof.
  assert (Hm : distinct_keys (VDict (meta request))).
  { apply distinct_dict. split; [|by repeat constructor].
    apply (NoDup_fmap_2 (Inj0 := KStr_inj) KStr ["delay"; "depth"]%string).
    apply (bool_decide_eq_true_1 (NoDup ["delay"; "depth"]%string)). by vm_compute. }
  split; try done; try (repeat constructor; done).
  - apply distinct_dict. split.
    + apply (NoDup_fmap_2 (Inj0 := KStr_inj) KStr (map fst request)).
      apply (bool_decide_eq_true_1 (NoDup (map fst request))). by vm_compute.
    + do 4 (constructor; [exact Logic.I|]). constructor; [exact Hm|constructor].
  - cbn. apply NoDup_singleton.
Qed.

Lemma envelope_roundtrip_witness : decode_request queue payload = Accepted read_back.
Proof.
  assert (Hb : serialize_request queue request = Ok payload) by (vm_compute; reflexivity).
  etrans; [apply (envelope_roundtrip queue queue request request header_values payload request_documented
    eq_refl Hb); [apply Z.leb_le; vm_compute; reflexivity|reflexivity|reflexivity]|].
  vm_compute. reflexivity.
Defined.

Lemma accepted_is_safe_witness : exists l d cls kw, deserialize payload = Ok (VDict l) /\ members l = Some d /\
    addressed queue d /\
    (cls = Request /\ (vget "_class" d = None \/ vget "_class" d = Some VNone)
     \/ vget "_class" d = Some (VStr (class_path cls))) /\
    construct cls kw = Ok read_back /\ Forall (safe_argument queue cls d) kw.
Proof.
  assert (Ha : decode_request queue payload = Accepted read_back) by (vm_compute; reflexivity).
  exact (proj2 (accepted_is_safe queue payload read_back Ha)).
Defined.
End Examples.
End Envelope.
