(* ===== verification/Queue.v ===== *)
(** * The backend queue

    queue/queue.py: [BackendQueue] between the scheduler and a queue strategy.
    A push validates its routing controls, serializes the request and commits
    it, and settles the broker delivery the request replaces; a pop turns one
    delivery into a request, into a delivery given back, or into a terminated
    one; depth and pop rate are sampled.  The strategy with its backend and the
    tokens it issued is an interface ([QueueStrategy]); requests are those of
    [Envelope].  Monitor hooks other than the sampled depth have no influence
    here and are left out; statistics are the list of increments. *)

From S2P Require Export StrategyBase Envelope.

Module Queue.
Import Codec Envelope.

Definition DEFAULT_QUEUE_MAX_ITEM_BYTES : Z := 1048576.
Definition DEFAULT_DEPTH_SAMPLE_EVERY : Z := 100.

(** Acknowledgement tokens: bound to their issuing backend, another token
    object of the package (a member of a settlement group, whose settlement
    does not block), or a raw broker token. *)
Inductive queue_token := BoundToken (i : nat) | GroupToken (i : nat) | RawToken (t : token).
#[export] Instance queue_token_eq_dec : EqDecision queue_token.
Proof. solve_decision. Defined.

(** ** The strategy interface *)
Class QueueStrategy (S : Type) := {
  (* derived from the abstract base class, or a duck-typed legacy object *)
  qs_is_strategy : bool;
  qs_prepare_push : string -> pyarg -> float -> string -> M S (prepared_push S);
  qs_push : string -> bytes -> pyarg -> float -> string -> M S unit;
  qs_pop_with_ack : string -> float -> M S (option bytes * option queue_token);
  qs_queue_len : string -> M S Z;
  qs_clear : string -> M S unit;
  (* [token.ack] and [token.nack] of a token object *)
  token_ack : nat -> M S unit;
  token_nack : nat -> M S unit;
  (* [get_queue_backend().ack] and [nack] *)
  backend_ack : string -> option token -> M S unit;
  backend_nack : string -> option token -> M S unit;
  (* [requires_ack] of the backend behind the proxy *)
  backend_requires_ack : M S bool
}.

(** ** State *)

(** The routing controls and the token in the metadata of a live request. *)
Inductive source_arg := SMissing | SFalsy | SText (o : outcome string).
Record live := Live { l_token : option queue_token; l_delay : option pyarg; l_source : source_arg }.
#[export] Instance eta_live : Settable live := fun r => Live (l_token r) (l_delay r) (l_source r).

(** The gate of lifecycle-bound operations. *)
Record gate := Gate {
  accepting_operations : bool; active_operations : Z; active_operation_threads : gmap nat Z
}.
#[export] Instance eta_gate : Settable gate := fun r =>
  Gate (accepting_operations r) (active_operations r) (active_operation_threads r).

Record self := Self {
  queue_name : string;
  routing : config;
  the_gate : gate;
  depth_sample_every : Z;
  cached_depth : option Z; depth_probe_counter : Z;
  pop_rate_window_s : float; pop_timestamps : list float; pop_rate_counter : Z;
  pending_replacement_settlements : list (nat * queue_token);   (* operations in worker threads *)
  next_operation : nat;
  push_commits : list bool; post_commit_push : bool;              (* of the calling thread *)
  stats : list string
}.
#[export] Instance eta_self : Settable self := fun r =>
  Self (queue_name r) (routing r) (the_gate r) (depth_sample_every r) (cached_depth r) (depth_probe_counter r)
    (pop_rate_window_s r) (pop_timestamps r) (pop_rate_counter r) (pending_replacement_settlements r)
    (next_operation r) (push_commits r) (post_commit_push r) (stats r).

Section Queue.
Context {I : IsoDates} {J : JsonText} {R : Type} `{!Requests R} {S : Type} `{!QueueStrategy S}.

Definition world : Type := self * S.
Definition on_self {A} (m : M self A) : M world A := on_fst m.
Definition on_strategy {A} (m : string -> M S A) : M world A := fun w =>
  let '(s, st) := w in let '(o, st') := m (queue_name s) st in (o, (s, st')).

Definition inc_stat (name : string) : M world unit := on_self (modify (fun s => s <| stats ::= fun l => l ++ [name] |>)).

(** ** The operation gate *)
Definition begin_operation (t : nat) (operation : string) (g : gate) : outcome unit * gate :=
  if negb (accepting_operations g) then (Raise (EQueue operation), g)
  else (Ok tt, g <| active_operations ::= Z.succ |>
                 <| active_operation_threads ::= fun m => <[t := default 0 (m !! t) + 1]> m |>).

Definition end_operation (t : nat) (g : gate) : gate :=
  let owned := default 0 (active_operation_threads g !! t) in
  g <| active_operations ::= Z.pred |>
    <| active_operation_threads ::= fun m => if owned <=? 1 then delete t m else <[t := owned - 1]> m |>.

Definition with_operation {A} (t : nat) (operation : string) (body : M world A) : M world A :=
  let! _ := on_self (fun s => let '(o, g) := begin_operation t operation (the_gate s) in (o, s <| the_gate := g |>)) in
  finally body (on_self (modify (fun s => s <| the_gate ::= end_operation t |>))).

(** ** Settlement *)

(** [_ack] and [_nack]. *)
Definition ack_delivery (token : option queue_token) : M world unit :=
  match token with
  | Some (BoundToken i) | Some (GroupToken i) => on_strategy (fun _ => token_ack i)
  | Some (RawToken t) => on_strategy (fun q => backend_ack q (Some t))
  | None => on_strategy (fun q => backend_ack q None)
  end.
Definition nack_delivery (token : option queue_token) : M world unit :=
  match token with
  | Some (BoundToken i) | Some (GroupToken i) => on_strategy (fun _ => token_nack i)
  | Some (RawToken t) => on_strategy (fun q => backend_nack q (Some t))
  | None => on_strategy (fun q => backend_nack q None)
  end.

Definition ack (t : nat) (token : option queue_token) : M world unit := with_operation t "ack" (ack_delivery token).
Definition nack (t : nat) (token : option queue_token) : M world unit := with_operation t "nack" (nack_delivery token).

(** ** Pushing *)
Definition pushing : Type := live * world.
Definition on_live {A} (m : M live A) : M pushing A := on_fst m.
Definition on_world {A} (m : M world A) : M pushing A := on_snd m.

(** Swallowing ordinary exceptions; whether the computation succeeded. *)
Definition guarded {W} (m : M W unit) : M W bool := fun w =>
  match m w with
  | (Ok _, w') => (Ok true, w')
  | (Raise e, w') => if is_ordinary e then (Ok false, w') else (Raise e, w')
  end.

Definition drop_token : M pushing unit := on_live (modify (fun l => l <| l_token := None |>)).

(** [_terminate_invalid_replacement]. *)
Definition terminate_invalid_replacement (token : option queue_token) : M pushing unit :=
  match token with
  | None => ret tt
  | Some tk =>
      let! ok := guarded (on_world (ack_delivery (Some tk))) in
      if ok : bool then
        let! _ := drop_token in
        on_world (inc_stat "scheduler/queue/replacement_poison_dropped")
      else ret tt
  end.

(** The delay, priority and source of a push. *)
Definition delay_of (raw : option pyarg) : outcome float :=
  match raw with
  | None => Ok fzero
  | Some (ABool _) | Some AOther => Raise (EQueue "push")
  | Some (AInt z) => let f := float_of_Z z in
      if isfinite f && negb (fltb f fzero) then Ok f else Raise (EQueue "push")
  | Some (AFloat f) => let f := if feqb f fzero then fzero else f in
      if isfinite f && negb (fltb f fzero) then Ok f else Raise (EQueue "push")
  end.
Definition priority_of (p : pyarg) : outcome pyarg :=
  match p with
  | AInt z => if isfinite (float_of_Z z) then Ok p else Raise (EQueue "push")
  | AFloat f => if isfinite f then Ok p else Raise (EQueue "push")
  | _ => Raise (EQueue "push")
  end.
Definition source_of (s : source_arg) : outcome string :=
  match s with
  | SMissing | SFalsy => Ok "default"%string
  | SText (Ok s) => Ok s
  | SText (Raise e) => Raise (if is_ordinary e then EQueue "push" else e)
  end.
Definition routing_controls (l : live) (priority : pyarg) : outcome (float * pyarg * string) :=
  obind (delay_of (l_delay l)) (fun d => obind (priority_of priority) (fun p =>
  omap (fun s => (d, p, s)) (source_of (l_source l)))).

(** The prepared route: a duck-typed strategy has no durable one. *)
Definition prepare (p : pyarg) (d : float) (src : string) : M world (prepared_push S) :=
  if qs_is_strategy then on_strategy (fun q => qs_prepare_push q p d src)
  else fun w => let '(s, _) := w in
    (Ok (local_prepared (fun item => qs_push (queue_name s) item p d src)), w).

Definition commit_route (pp : prepared_push S) (data : bytes) (require_durable : bool) : M world bool :=
  on_strategy (fun _ => commit pp data require_durable).

Definition mark_commit : M world unit := on_self (modify (fun s =>
  s <| push_commits ::= fun l => match l with [] => [] | _ :: l' => true :: l' end |>)).

(** [_schedule_replacement_ack]: the settlement runs in a worker thread. *)
Definition schedule_replacement_ack (tk : queue_token) : M world unit := on_self (modify (fun s =>
  s <| pending_replacement_settlements ::= fun l => l ++ [(next_operation s, tk)] |> <| next_operation ::= Datatypes.S |>)).

(** Its completion: the outcome of the acknowledgement decides the metadata of
    the request, and the operation leaves the pending set either way. *)
Definition run_replacement_settlement (op : nat) (tk : queue_token) : M pushing bool :=
  let! ok := attempt (on_world (ack_delivery (Some tk))) in
  let! _ := on_world (on_self (modify (fun s =>
    s <| pending_replacement_settlements ::= List.filter (fun x => negb (fst x =? op)%nat) |>))) in
  match ok with
  | Ok _ => let! l := on_live get in
            let! _ := if bool_decide (l_token l = Some tk) then drop_token else ret tt in ret true
  | Raise _ => let! _ := on_world (inc_stat "scheduler/ack_error") in ret false
  end.

Definition reactor_safe (tk : queue_token) : bool := match tk with GroupToken _ => true | _ => false end.

(** The source delivery of a committed replacement. *)
Definition settle_replacement (reactor : bool) (tk : queue_token) : M pushing unit :=
  if reactor && negb (reactor_safe tk) then on_world (schedule_replacement_ack tk)
  else
    let! ok := guarded (on_world (ack_delivery (Some tk))) in
    if ok : bool then
      let! l := on_live get in
      if bool_decide (l_token l = Some tk) then drop_token else ret tt
    else on_world (inc_stat "scheduler/ack_error").

Definition reject {A} (token : option queue_token) (e : exn) : M pushing A :=
  let! _ := terminate_invalid_replacement token in raise e.

(** The payload, or why it cannot be stored. *)
Inductive payload := Payload (data : bytes) | Unserializable | Oversize | Interrupted (e : exn).
Definition payload_of (c : config) (r : R) : payload :=
  match serialize_request c r with
  | Ok data => if max_item_bytes c <? Z.of_nat (length data) then Oversize else Payload data
  | Raise e => if is_ordinary e then Unserializable else Interrupted e
  end.

(** [_push]. *)
Definition push_admitted (reactor : bool) (r : R) (priority : pyarg) : M pushing bool :=
  let! l := on_live get in
  let token := l_token l in
  match routing_controls l priority with
  | Raise e => if is_ordinary e then reject token e else raise e
  | Ok (d, p, src) =>
      let! pp := on_world (prepare p d src) in
      if bool_decide (is_Some token) && negb (pp_backend_route pp) then
        let! _ := on_world (inc_stat "scheduler/queue/volatile_replacement_rejected") in
        raise (EQueue "push")
      else
        let! s := on_world (on_self get) in
        match payload_of (routing s) r with
        | Interrupted e => raise e
        | Unserializable => reject token ESerialization
        | Oversize =>
            let! _ := on_world (inc_stat "scheduler/queue/oversize_dropped") in
            reject token ESerialization
        | Payload data =>
            let! durable := on_world (commit_route pp data (bool_decide (is_Some token))) in
            let! _ := on_world mark_commit in
            if bool_decide (is_Some token) && negb durable then
              let! _ := on_world (inc_stat "scheduler/queue/volatile_replacement_rejected") in
              raise (EQueue "push")
            else
              let! _ := on_live (modify (fun l => l <| l_delay := None |> <| l_source := SMissing |>)) in
              let! _ := match token with Some tk => settle_replacement reactor tk | None => ret tt end in
              ret durable
        end
  end.

(** [_push_with_durability]: the commit marker of the calling thread survives
    an interruption for the scheduler ([preserve]); [observe] is the monitor
    hook, whose ordinary failures are swallowed. *)
Definition push_with_durability (t : nat) (reactor preserve : bool) (observe : outcome unit)
    (r : R) (priority : pyarg) : M pushing bool := fun x =>
  let enter (s : self) :=
    (match push_commits s with [] => s <| post_commit_push := false |> | _ => s end)
      <| push_commits ::= cons false |> in
  let '(l, (s, st)) := x in
  let body : M pushing bool :=
    let! _ := on_world (on_self (fun s =>
      let '(o, g) := begin_operation t "push" (the_gate s) in (o, s <| the_gate := g |>))) in
    let! result := finally (push_admitted reactor r priority)
                           (on_world (on_self (modify (fun s => s <| the_gate ::= end_operation t |>)))) in
    let! _ := match observe with
              | Raise e => if is_ordinary e then ret tt else raise e
              | Ok _ => ret tt
              end in
    ret result in
  let '(o, (l', (s', st'))) := body (l, (enter s, st)) in
  let committed := match push_commits s' with b :: _ => b | [] => false end in
  let interrupted := negb (is_ok o) && committed in
  let s1 := if interrupted && preserve then s' <| post_commit_push := true |> else s' in
  let s2 := s1 <| push_commits ::= fun l => tl l |> in
  let s3 := match push_commits s2 with
            | [] => if preserve && interrupted then s2 else s2 <| post_commit_push := false |>
            | _ => s2
            end in
  (o, (l', (s3, st'))).

(** [push]. *)
Definition push (t : nat) (reactor : bool) (observe : outcome unit) (r : R) (priority : pyarg) : M pushing unit :=
  let! _ := push_with_durability t reactor false observe r priority in ret tt.

Definition consume_post_commit_push : M self bool := fun s =>
  (Ok (post_commit_push s), s <| post_commit_push := false |>).

(** ** Depth and rate sampling *)

(** [_probe_depth]: only a cached nonzero depth may answer inside the period. *)
Definition must_probe (s : self) : bool :=
  let window_open := match cached_depth s with Some d => negb (d =? 0) | None => false end in
  negb window_open || (depth_sample_every s <=? depth_probe_counter s + 1).

Definition probe_depth : M world Z := fun w =>
  let '(s, st) := w in
  match must_probe s, cached_depth s with
  | false, Some d => (Ok d, (s <| depth_probe_counter ::= Z.succ |>, st))
  | _, _ =>
      let s := s <| depth_probe_counter := 0 |> in
      match qs_queue_len (queue_name s) st with
      | (Ok d, st') => (Ok d, (s <| cached_depth := Some d |>, st'))
      | (Raise e, st') => (Raise e, (s, st'))
      end
  end.

Definition len (t : nat) : M world Z := with_operation t "len" probe_depth.

Definition clear (t : nat) : M world unit := with_operation t "clear" (
  let! _ := on_strategy qs_clear in
  on_self (modify (fun s => s <| cached_depth := None |> <| depth_probe_counter := 0 |>))).

Fixpoint evict (cutoff : float) (l : list float) : list float :=
  match l with
  | x :: l' => if fltb x cutoff then evict cutoff l' else l
  | [] => []
  end.

(** [_record_pop_timestamp]. *)
Definition record_pop_timestamp (now : float) (s : self) : self :=
  s <| pop_timestamps ::= fun l => evict (fsub now (pop_rate_window_s s)) (l ++ [now]) |>.

Definition pop_rate (s : self) : float :=
  match pop_timestamps s with
  | [] => fzero
  | l => fdiv (float_of_Z (Z.of_nat (length l))) (pop_rate_window_s s)
  end.

(** [_emit_pop_monitor]: the gauges, with the rate when it is emitted. *)
Definition emit_pop_monitor (now : float) : M world (option float) :=
  let! rate := on_self (fun s =>
    let s := record_pop_timestamp now s <| pop_rate_counter ::= Z.succ |> in
    if depth_sample_every s <=? pop_rate_counter s
    then (Ok (Some (pop_rate s)), s <| pop_rate_counter := 0 |>) else (Ok None, s)) in
  let! _ := guarded (let! _ := probe_depth in ret tt) in
  ret rate.

(** ** Popping *)
Definition read_pop (timeout : float) : M world (option bytes * option queue_token) :=
  let! x := on_strategy (fun q => qs_pop_with_ack q timeout) in
  match snd x with
  | None | Some (BoundToken _) => ret x
  | Some _ =>
      let! deferred := on_strategy (fun _ => backend_requires_ack) in
      if deferred : bool then raise (EQueue "pop") else ret x
  end.

(** A foreign envelope goes back: to the broker, or into the queue. *)
Definition give_back (data : bytes) (token : option queue_token) (priority : option value) : M world unit :=
  match token with
  | Some tk => nack_delivery (Some tk)
  | None =>
      let p := match priority with
               | None => AFloat fzero
               | Some (VInt z) => AInt z
               | Some _ => AOther
               end in
      on_strategy (fun q => qs_push q data p fzero "default")
  end.

Definition popped : Type := R * option queue_token.

(** A payload that cannot be decoded is terminated; the error is raised either way. *)
Definition terminate_malformed (token : option queue_token) : M world (option popped) :=
  let! ok := match token with
             | None => ret true
             | Some tk => guarded (ack_delivery (Some tk))
             end in
  let! _ := if ok : bool then inc_stat "scheduler/queue/poison_dropped" else ret tt in
  raise ESerialization.

(** An empty delivery is terminated, or given back when that fails. *)
Definition terminate_empty (tk : queue_token) : M world (option popped) :=
  let! ok := attempt (ack_delivery (Some tk)) in
  match ok with
  | Raise e =>
      if is_ordinary e then let! _ := guarded (nack_delivery (Some tk)) in raise e else raise e
  | Ok _ => let! _ := inc_stat "scheduler/queue/empty_payload_dropped" in ret None
  end.

(** [_process_pop]. *)
Definition process_pop (data : option bytes) (token : option queue_token) : M world (option popped) :=
  match data with
  | None => match token with None => ret None | Some tk => terminate_empty tk end
  | Some data =>
      let! s := on_self get in
      match decode_request (routing s) data with
      | Accepted r => ret (Some (r, token))
      | Foreign priority =>
          let! returned := guarded (give_back data token priority) in
          if returned : bool then let! _ := inc_stat "scheduler/queue/foreign_envelope" in ret None
          else raise (EQueue "push")
      | Malformed oversize =>
          let! _ := if oversize : bool then inc_stat "scheduler/queue/oversize_dropped" else ret tt in
          terminate_malformed token
      | Escapes e => raise e
      end
  end.

(** [_finish_pop_result]. *)
Definition finish_pop_result (now : float) (o : outcome (option popped)) : M world (option popped) :=
  let! _ := match o with
            | Ok (Some _) => on_self (modify (fun s =>
                s <| cached_depth ::= fun c => match c with
                                               | Some d => if 0 <? d then Some (d - 1) else c
                                               | None => c end |>))
            | _ => ret tt
            end in
  let! emitted := attempt (emit_pop_monitor now) in
  match o, emitted with
  | Raise e, _ => raise e
  | Ok _, Raise e => raise e
  | Ok r, Ok _ => ret r
  end.

(** [pop]. *)
Definition pop (t : nat) (now : float) (timeout : pyarg) : M world (option popped) :=
  let! o := with_operation t "pop" (
    match normalize_queue_timeout timeout with
    | Raise _ => raise (EQueue "pop")
    | Ok timeout => attempt (let! x := read_pop timeout in process_pop (fst x) (snd x))
    end) in
  finish_pop_result now o.
End Queue.
End Queue.
