(* ===== verification/QueueFacts.v ===== *)
(** * The backend queue: what a push and a pop do to a delivery

    Against the laws of a strategy over a durable queue ([QueueStrategyLaws]):
    a broker delivery is acknowledged only when its replacement is stored or can
    never be stored; a popped delivery is terminated only when it is unusable;
    nothing stored is lost.  Sampling of the depth: never a stale zero, fresh
    within the sampling period. *)

From S2P Require Export Queue.

Module QueueFacts.
Import Codec Envelope Queue.

(** ** Laws of a strategy over a durable queue *)
Class QueueStrategyLaws (S : Type) `{!QueueStrategy S} := {
  stored : S -> list bytes;
  settled : S -> queue_token -> token_state;
  prepare_ok : forall q p d src st o st', qs_prepare_push q p d src st = (o, st') ->
    stored st' = stored st /\ settled st' = settled st;
  commit_ok : forall q p d src st0 pp st1 data rd st o st',
    qs_prepare_push q p d src st0 = (Ok pp, st1) -> pp_commit pp data rd st = (o, st') ->
    stored st ⊆+ stored st' /\ settled st' = settled st /\
    (o = Ok true -> stored st' ≡ₚ data :: stored st);
  push_ok : forall q data p d src st o st', qs_push q data p d src st = (o, st') ->
    settled st' = settled st /\ stored st ⊆+ stored st' /\
    (o = Ok tt -> stored st' ≡ₚ data :: stored st);
  ack_ok : forall i st o st', token_ack i st = (o, st') ->
    stored st' = stored st /\ forall tk, settled st' tk =
      if bool_decide (tk = BoundToken i \/ tk = GroupToken i) && is_ok o && bool_decide (settled st tk = pending)
      then acked else settled st tk;
  nack_ok : forall i st o st', token_nack i st = (o, st') ->
    stored st ⊆+ stored st' /\ forall tk, settled st' tk = settled st tk \/ settled st' tk = nacked;
  backend_ack_ok : forall q t st o st', backend_ack q t st = (o, st') ->
    stored st' = stored st /\ forall tk, settled st' tk =
      if bool_decide (Some tk = fmap RawToken t) && is_ok o && bool_decide (settled st tk = pending)
      then acked else settled st tk;
  backend_nack_ok : forall q t st o st', backend_nack q t st = (o, st') ->
    stored st ⊆+ stored st' /\ forall tk, settled st' tk = settled st tk \/ settled st' tk = nacked;
  requires_ack_ok : forall st o st', backend_requires_ack st = (o, st') -> st' = st
}.

Section Facts.
Context {I : IsoDates} {J : JsonText} {R : Type} `{!Requests R} {S : Type} `{!QueueStrategy S}.
Context {L : QueueStrategyLaws S}.
Implicit Types (l : live) (s : self) (st : S) (tk : queue_token).

(** Running the monad. *)
Ltac exec E :=
  cbv beta iota zeta delta [bind ret raise get modify lift on_fst on_snd on_self on_strategy on_live on_world
    attempt inc_stat drop_token] in E.

(** An acknowledgement touches the token's own delivery and nothing else; a
    bound token and a group token of one number are one object. *)
Definition same_object (tk tk' : queue_token) : bool :=
  match tk, tk' with
  | (BoundToken i | GroupToken i), (BoundToken j | GroupToken j) => (i =? j)%nat
  | RawToken t, RawToken t' => (t =? t')%nat
  | _, _ => false
  end.

Lemma same_object_refl tk : same_object tk tk = true.
Proof. destruct tk; cbn; apply Nat.eqb_refl. Qed.

Lemma ack_delivery_ok tk s st o s' st' : ack_delivery (Some tk) (s, st) = (o, (s', st')) ->
  s' = s /\ stored st' = stored st /\
  forall tk', settled st' tk' =
    if same_object tk tk' && is_ok o && bool_decide (settled st tk' = pending) then acked else settled st tk'.
Proof.
  intros E. destruct tk as [i|i|t]; cbn in E.
  1,2: destruct (token_ack i st) as [o1 st1] eqn:Ea; injection E as <- <- <-;
    destruct (ack_ok _ _ _ _ Ea) as [H1 H2]; split; [done|]; split; [done|]; intros tk'; rewrite H2;
    (replace (bool_decide (tk' = BoundToken i \/ tk' = GroupToken i)) with (same_object (BoundToken i) tk');
      [done|]); destruct tk' as [j|j|t]; cbn; case_bool_decide as Hb;
    (try (apply Nat.eqb_eq; destruct Hb; congruence)); try (apply Nat.eqb_neq; intros ->; apply Hb; auto).
  - by destruct Hb.
  - done.
  - by destruct Hb.
  - done.
  - destruct (backend_ack (queue_name s) (Some t) st) as [o1 st1] eqn:Ea. injection E as <- <- <-.
    destruct (backend_ack_ok _ _ _ _ _ Ea) as [H1 H2]. split; [done|]. split; [done|]. intros tk'. rewrite H2. cbn.
    replace (bool_decide (Some tk' = Some (RawToken t))) with (same_object (RawToken t) tk'); [done|].
    destruct tk' as [j|j|t']; cbn; case_bool_decide as Hb; try done.
    + apply Nat.eqb_eq. congruence.
    + apply Nat.eqb_neq. intros ->. by apply Hb.
Qed.
Lemma guarded_inv {W} (m : M W unit) w o w' : guarded m w = (o, w') ->
  exists o1, m w = (o1, w') /\ match o1 with
    | Ok _ => o = Ok true
    | Raise e => if is_ordinary e then o = Ok false else o = Raise e
    end.
Proof.
  unfold guarded. destruct (m w) as [[[]|e] w1]; [intros [= <- <-]; by eexists|].
  destruct (is_ordinary e) eqn:Ee; intros [= <- <-]; eexists; (split; [done|]); cbn; by rewrite Ee.
Qed.

(** Rejecting a replacement acknowledges its source and stores nothing. *)
Lemma reject_ok {A} tk e l s st (o : outcome A) l' s' st' :
  reject (Some tk) e (l, (s, st)) = (o, (l', (s', st'))) ->
  is_ok o = false /\ stored st' = stored st.
Proof.
  unfold reject, terminate_invalid_replacement. intros E. unfold bind in E at 1 2.
  destruct (guarded _ _) as [og [l1 [s1 st1]]] eqn:Eg. apply guarded_inv in Eg as (o1 & Eg & Ho).
  unfold on_world, on_snd in Eg. destruct (ack_delivery (Some tk) (s, st)) as [o2 [s2 st2]] eqn:Ea.
  injection Eg as <- <- <- <-. destruct (ack_delivery_ok _ _ _ _ _ _ Ea) as (-> & H1 & _).
  destruct o2 as [[]|x]; [subst og; by exec E; injection E as <- <- <- <-|].
  destruct (is_ordinary x); subst og; exec E; by injection E as <- <- <- <-.
Qed.

(** Why a replacement can never be stored. *)
Definition unusable (c : config) (l : live) (r : R) (p : pyarg) : Prop :=
  is_ok (routing_controls l p) = false \/ payload_of c r = Unserializable \/ payload_of c r = Oversize.

Lemma settle_replacement_ok reactor tk l s st o l' s' st' : settled st tk = pending ->
  settle_replacement reactor tk (l, (s, st)) = (o, (l', (s', st'))) ->
  stored st' = stored st /\
  (o = Ok tt -> l_delay l' = l_delay l /\ l_source l' = l_source l /\
     (settled st' tk = acked \/ (exists op, (op, tk) ∈ pending_replacement_settlements s') \/
      "scheduler/ack_error"%string ∈ stats s')).
Proof.
  intros Hp. unfold settle_replacement. destruct (reactor && negb (reactor_safe tk)).
  { intros E. unfold schedule_replacement_ack in E. exec E. injection E as <- <- <- <-. split; [done|]. intros _.
    split; [done|]. split; [done|]. right. left. exists (next_operation s). cbn. apply elem_of_app. right. by left. }
  intros E. unfold bind in E at 1. destruct (guarded _ _) as [og [l1 [s1 st1]]] eqn:Eg.
  apply guarded_inv in Eg as (o1 & Eg & Ho).
  unfold on_world, on_snd in Eg. destruct (ack_delivery (Some tk) (s, st)) as [o2 [s2 st2]] eqn:Ea.
  injection Eg as <- <- <- <-. destruct (ack_delivery_ok _ _ _ _ _ _ Ea) as (-> & H1 & H2).
  destruct o2 as [[]|x]; [subst og|destruct (is_ordinary x); subst og].
  - specialize (H2 tk). rewrite same_object_refl, Hp in H2. cbn in H2.
    exec E. destruct (bool_decide _); injection E as <- <- <- <-; (split; [done|]); intros _; (split; [done|]); (split; [done|]); by left.
  - exec E. injection E as <- <- <- <-. split; [done|]. intros _. split; [done|]. split; [done|].
    right. right. cbn. apply elem_of_app. right. by left.
  - injection E as <- <- <- <-. by split.
Qed.

Lemma prepare_inv p d src s st o s' st' : prepare p d src (s, st) = (o, (s', st')) ->
  s' = s /\ stored st' = stored st /\ settled st' = settled st /\
  forall pp, o = Ok pp -> pp_backend_route pp = true -> qs_prepare_push (queue_name s) p d src st = (Ok pp, st').
Proof.
  unfold prepare. destruct qs_is_strategy; cbn.
  - destruct (qs_prepare_push (queue_name s) p d src st) as [o1 st1] eqn:Ep. intros [= <- <- <-].
    destruct (prepare_ok _ _ _ _ _ _ _ Ep) as [H1 H2]. split_and!; try done. by intros pp -> _.
  - intros [= <- <- <-]. split_and!; try done. by intros pp [= <-].
Qed.

(** C14. Handing a broker delivery over to its replacement.  A push that carries the
    token of a pending delivery never loses anything stored; it acknowledges
    the delivery only when the replacement is stored next to what was there, or
    can never be stored (invalid routing controls, unserializable, oversize);
    and when it returns, the replacement is stored with proven durability, its
    routing controls are consumed, and the acknowledgement is done, handed to
    a worker, or reported as failed. *)
Theorem replacement_handoff reactor r p l s st tk o l' s' st'
    (Htk : l_token l = Some tk) (Hpend : settled st tk = pending)
    (Hrun : push_admitted reactor r p (l, (s, st)) = (o, (l', (s', st')))) :
  stored st ⊆+ stored st' /\
  (settled st' tk = acked ->
     unusable (routing s) l r p \/
     exists data, payload_of (routing s) r = Payload data /\ stored st' ≡ₚ data :: stored st) /\
  (forall b, o = Ok b ->
     b = true /\ (exists data, payload_of (routing s) r = Payload data /\ stored st' ≡ₚ data :: stored st) /\
     l_delay l' = None /\ l_source l' = SMissing /\
     (settled st' tk = acked \/ (exists op, (op, tk) ∈ pending_replacement_settlements s') \/
      "scheduler/ack_error"%string ∈ stats s')).
Proof.
  unfold push_admitted in Hrun. unfold bind in Hrun at 1. change (on_live get (l, (s, st))) with (Ok l, (l, (s, st))) in Hrun.
  cbv beta iota in Hrun. rewrite Htk in Hrun.
  destruct (routing_controls l p) as [[[d pr] src]|e] eqn:Er.
  2:{ assert (Hu : unusable (routing s) l r p) by (left; by rewrite Er).
      destruct (is_ordinary e).
      - destruct (reject_ok _ _ _ _ _ _ _ _ _ Hrun) as [H1 H2]. rewrite H2. split; [done|]. split; [auto|].
        by intros b ->.
      - injection Hrun as <- <- <- <-. split; [done|]. split; [auto|done]. }
  unfold bind in Hrun at 1. unfold on_world in Hrun at 1. unfold on_snd in Hrun at 1.
  destruct (prepare pr d src (s, st)) as [op [s1 st1]] eqn:Epr.
  destruct (prepare_inv _ _ _ _ _ _ _ _ Epr) as (-> & P1 & P2 & P3). rewrite <- P1.
  assert (Hp1 : settled st1 tk = pending) by by rewrite P2.
  destruct op as [pp|e]; [|injection Hrun as <- <- <- <-; split; [done|]; split; [congruence|done]].
  rewrite (bool_decide_true (is_Some (Some tk))) in Hrun by done. cbn [andb] in Hrun.
  destruct (pp_backend_route pp) eqn:Hroute; cbn [negb] in Hrun.
  2:{ exec Hrun. injection Hrun as <- <- <- <-. split; [done|]. split; [congruence|done]. }
  specialize (P3 pp eq_refl Hroute).
  unfold bind in Hrun at 1. change (on_world (on_self get) (l, (s, st1))) with (Ok s, (l, (s, st1))) in Hrun.
  cbv beta iota in Hrun.
  destruct (payload_of (routing s) r) as [data| | |e] eqn:Epay.
  2:{ destruct (reject_ok _ _ _ _ _ _ _ _ _ Hrun) as [H1 H2]. rewrite H2. split; [done|]. split; [unfold unusable; auto|].
      by intros b ->. }
  2:{ unfold bind in Hrun at 1. exec Hrun. destruct (reject_ok _ _ _ _ _ _ _ _ _ Hrun) as [H1 H2]. rewrite H2.
      split; [done|]. split; [unfold unusable; auto|]. by intros b ->. }
  2:{ injection Hrun as <- <- <- <-. split; [done|]. split; [congruence|done]. }
  unfold bind in Hrun at 1. unfold on_world in Hrun at 1. unfold on_snd in Hrun at 1.
  change (commit_route pp data true (s, st1)) with (let '(o, st') := commit pp data true st1 in (o, (s, st'))) in Hrun.
  unfold commit, bind, ret in Hrun. destruct (pp_commit pp data true st1) as [oc st2] eqn:Ec.
  destruct (commit_ok _ _ _ _ _ _ _ _ _ _ _ _ P3 Ec) as (C1 & C2 & C3).
  assert (Hp2 : settled st2 tk = pending) by by rewrite C2.
  destruct oc as [durable|e]; [|injection Hrun as <- <- <- <-; split; [done|]; split; [congruence|done]].
  unfold mark_commit in Hrun. exec Hrun. set (s2 := s <| push_commits ::= _ |>) in *.
  destruct durable; cbn [negb] in Hrun; [|injection Hrun as <- <- <- <-; split; [done|]; split; [congruence|done]].
  destruct (settle_replacement reactor tk _) as [os [l3 [s3 st3]]] eqn:Es.
  destruct (settle_replacement_ok _ _ _ _ _ _ _ _ _ Hp2 Es) as [S1 S2]. specialize (C3 eq_refl).
  assert (H3 : o = omap (fun _ => true) os /\ l' = l3 /\ s' = s3 /\ st' = st3) by (destruct os; by injection Hrun as <- <- <- <-).
  destruct H3 as (-> & -> & -> & ->). rewrite S1. split; [done|]. split; [intros _; right; by exists data|].
  destruct os as [[]|e]; [|done]. intros b [= <-]. destruct (S2 eq_refl) as (Q1 & Q2 & Q3).
  split; [done|]. split; [by exists data|]. split; [exact Q1|]. split; [exact Q2|exact Q3].
Qed.
(** ** Popped deliveries *)

(** Nothing new is acknowledged. *)
Definition no_new_ack (st st' : S) : Prop := forall tk, settled st' tk = acked -> settled st tk = acked.

Lemma nack_delivery_ok token s st o s' st' : nack_delivery token (s, st) = (o, (s', st')) ->
  s' = s /\ stored st ⊆+ stored st' /\ no_new_ack st st'.
Proof.
  assert (Hn : forall st', (forall tk, settled st' tk = settled st tk \/ settled st' tk = nacked) -> no_new_ack st st').
  { intros st0 H tk Ha. destruct (H tk); congruence. }
  destruct token as [[i|i|t]|]; cbn.
  1,2: destruct (token_nack i st) as [o1 st1] eqn:E; intros [= <- <- <-];
    destruct (nack_ok _ _ _ _ E) as [H1 H2]; auto.
  - destruct (backend_nack (queue_name s) (Some t) st) as [o1 st1] eqn:E. intros [= <- <- <-].
    destruct (backend_nack_ok _ _ _ _ _ E) as [H1 H2]. auto.
  - destruct (backend_nack (queue_name s) None st) as [o1 st1] eqn:E. intros [= <- <- <-].
    destruct (backend_nack_ok _ _ _ _ _ E) as [H1 H2]. auto.
Qed.

Lemma give_back_ok data token pr s st o s' st' : give_back data token pr (s, st) = (o, (s', st')) ->
  s' = s /\ stored st ⊆+ stored st' /\ no_new_ack st st' /\
  (o = Ok tt -> token = None -> stored st' ≡ₚ data :: stored st).
Proof.
  destruct token as [tk|]; unfold give_back.
  { intros E. destruct (nack_delivery_ok _ _ _ _ _ _ E) as (H1 & H2 & H3). by split_and!. }
  cbn. destruct (qs_push _ _ _ _ _ st) as [o1 st1] eqn:E. intros [= <- <- <-].
  destruct (push_ok _ _ _ _ _ _ _ _ E) as (H1 & H2 & H3). split_and!; try done.
  - intros tk. by rewrite H1.
  - intros Ho _. by apply H3.
Qed.

(** An operation on the broker whose ordinary failure a pop reports as [failure]
    and whose interruption it passes on. *)
Definition reported {A} (done : outcome unit) (success failure o : outcome A) : Prop :=
  o = match done with Ok _ => success | Raise e => if is_ordinary e then failure else Raise e end.

Lemma malformed_ok token s st o s' st' : terminate_malformed (R := R) token (s, st) = (o, (s', st')) ->
  match token with
  | None => o = Raise ESerialization /\ st' = st
  | Some tk => exists oa, ack_delivery (Some tk) (s, st) = (oa, (s, st')) /\
      reported oa (Raise ESerialization) (Raise ESerialization) o
  end.
Proof.
  unfold terminate_malformed. intros E. unfold bind in E at 1.
  destruct token as [tk|]; [|exec E; by injection E as <- <- <-].
  destruct (guarded _ _) as [og [s2 st2]] eqn:Eg.
  apply guarded_inv in Eg as (o1 & Eg & Ho). pose proof (ack_delivery_ok _ _ _ _ _ _ Eg) as (-> & _ & _).
  exists o1. unfold reported. destruct o1 as [[]|x]; [subst og; exec E; by injection E as <- <- <-|].
  destruct (is_ordinary x); subst og; exec E; by injection E as <- <- <-.
Qed.

(** An empty delivery: acknowledged, or given back when that fails. *)
Definition emptied tk (s : self) (st st' : S) (o : outcome (option (popped (R := R)))) : Prop :=
  exists oa st1, ack_delivery (Some tk) (s, st) = (oa, (s, st1)) /\
  match oa with
  | Ok _ => o = Ok None /\ st' = st1
  | Raise e =>
      if is_ordinary e then exists on, nack_delivery (Some tk) (s, st1) = (on, (s, st')) /\
        reported on (Raise e) (Raise e) o
      else o = Raise e /\ st' = st1
  end.

Lemma empty_ok tk s st o s' st' : terminate_empty (R := R) tk (s, st) = (o, (s', st')) -> emptied tk s st st' o.
Proof.
  unfold terminate_empty, emptied. intros E. unfold bind in E at 1. unfold attempt in E.
  destruct (ack_delivery (Some tk) (s, st)) as [o1 [s1 st1]] eqn:Ea.
  pose proof (ack_delivery_ok _ _ _ _ _ _ Ea) as (-> & _ & _). exists o1, st1. split; [done|].
  destruct o1 as [[]|e]; [exec E; by injection E as <- <- <-|].
  destruct (is_ordinary e); [|by injection E as <- <- <-].
  unfold bind in E at 1. destruct (guarded _ _) as [og [s2 st2]] eqn:Eg.
  apply guarded_inv in Eg as (o2 & Eg & Ho). pose proof (nack_delivery_ok _ _ _ _ _ _ Eg) as (-> & _ & _).
  exists o2. unfold reported. destruct o2 as [[]|x]; [subst og; exec E; by injection E as <- <- <-|].
  destruct (is_ordinary x); subst og; exec E; by injection E as <- <- <-.
Qed.

Lemma emptied_stored tk s st st' o : emptied tk s st st' o -> stored st ⊆+ stored st'.
Proof.
  intros (oa & st1 & Ea & H). pose proof (ack_delivery_ok _ _ _ _ _ _ Ea) as (_ & <- & _).
  destruct oa as [u|e]; [by destruct H as [_ ->]|]. destruct (is_ordinary e); [|by destruct H as [_ ->]].
  destruct H as (on & En & _). by pose proof (nack_delivery_ok _ _ _ _ _ _ En) as (_ & ? & _).
Qed.


(** ** Depth sampling *)

Lemma probe_fresh s st : must_probe s = true ->
  probe_depth (s, st) =
  let '(o, st') := qs_queue_len (queue_name s) st in
  (o, (match o with Ok d => s <| depth_probe_counter := 0 |> <| cached_depth := Some d |>
                  | Raise _ => s <| depth_probe_counter := 0 |> end, st')).
Proof.
  intros Hm. unfold probe_depth. rewrite Hm.
  change (queue_name (s <| depth_probe_counter := 0 |>)) with (queue_name s).
  by destruct (qs_queue_len _ st) as [[d|e] st1].
Qed.

Lemma probe_cached s st : must_probe s = false ->
  exists d, cached_depth s = Some d /\ d <> 0 /\ depth_probe_counter s + 1 < depth_sample_every s /\
    probe_depth (s, st) = (Ok d, (s <| depth_probe_counter ::= Z.succ |>, st)).
Proof.
  intros Hm. unfold probe_depth. rewrite Hm. unfold must_probe in Hm. apply orb_false_iff in Hm as [H1 H2].
  destruct (cached_depth s) as [d|]; [|done]. exists d.
  apply negb_false_iff, negb_true_iff, Z.eqb_neq in H1. split_and!; try done. lia.
Qed.

(** Whether one of the next [n] probes asks the strategy. *)
Fixpoint asked_within (n : nat) (w : self * S) : bool :=
  match n with
  | O => false
  | Datatypes.S n => must_probe (fst w) || asked_within n (snd (probe_depth w))
  end.

Lemma asked_in_time n s st : 0 < Z.of_nat n -> depth_sample_every s - depth_probe_counter s <= Z.of_nat n ->
  asked_within n (s, st) = true.
Proof.
  revert s st. induction n as [|n IH]; intros s st Hn Hd; [lia|]. cbn [asked_within fst].
  destruct (must_probe s) eqn:Em; [done|]. destruct (probe_cached s st Em) as (d & _ & _ & Hlt & ->).
  cbn [orb snd]. apply IH; cbn; lia.
Qed.

(** C36. Depth sampling.  A probe either asks the strategy and caches its answer, or
    returns the cached depth, which is then not zero, and leaves the strategy
    alone.  (Between probes [_finish_pop_result] lowers the cached depth by one
    for each successful pop, so the answer need not be one given before.)  So an
    answer of zero is always the strategy's own, and the probe after it asks
    again; and with a nonnegative counter one of any [depth_sample_every]
    consecutive probes asks. *)
Theorem depth_sampling s st o s' st' (Hc : 0 <= depth_probe_counter s)
    (Hrun : probe_depth (s, st) = (o, (s', st'))) :
  (if must_probe s then qs_queue_len (queue_name s) st = (o, st') /\ (forall d, o = Ok d -> cached_depth s' = Some d)
   else exists d, o = Ok d /\ d <> 0 /\ cached_depth s = Some d /\ st' = st) /\
  (o = Ok 0 -> must_probe s = true /\ must_probe s' = true) /\
  0 <= depth_probe_counter s' /\
  (forall n, 0 < Z.of_nat n -> depth_sample_every s <= Z.of_nat n -> asked_within n (s, st) = true).
Proof.
  assert (Hin : forall n, 0 < Z.of_nat n -> depth_sample_every s <= Z.of_nat n -> asked_within n (s, st) = true).
  { intros n H1 H2. apply asked_in_time; lia. }
  destruct (must_probe s) eqn:Em.
  - rewrite (probe_fresh s st Em) in Hrun. destruct (qs_queue_len (queue_name s) st) as [o1 st1].
    injection Hrun as <- <- <-. split; [|split; [|split; [by destruct o1|done]]].
    + split; [done|]. by intros d ->.
    + intros ->. split; [done|]. unfold must_probe. cbn. done.
  - destruct (probe_cached s st Em) as (d & H1 & H2 & H3 & H4). rewrite H4 in Hrun. injection Hrun as <- <- <-.
    split; [by exists d|]. split; [by intros [= ->]|]. split; [cbn; lia|done].
Qed.

(** With a sampling period of one call the sampled length is the strategy's
    own length, admission included. *)
Theorem unsampled_len t s st (Hp : depth_sample_every s <= 1) (Hc : 0 <= depth_probe_counter s) :
  let reference := with_operation t "len" (on_strategy qs_queue_len) in
  fst (len t (s, st)) = fst (reference (s, st)) /\ snd (snd (len t (s, st))) = snd (snd (reference (s, st))).
Proof.
  cbv zeta. unfold len, with_operation, bind. cbn -[begin_operation probe_depth].
  destruct (begin_operation t "len" (the_gate s)) as [[[]|e] g]; [|done]. set (s1 := s <| the_gate := g |>).
  assert (Hm : must_probe s1 = true).
  { unfold must_probe. apply orb_true_iff. right. apply Z.leb_le. cbn. lia. }
  unfold finally. rewrite (probe_fresh s1 st Hm). cbn.
  by destruct (qs_queue_len (queue_name s) st) as [[d|e] st1].
Qed.
End Facts.

Module Examples.
Import Codec.Examples Envelope.Examples.

(** An in-memory broker: the waiting payloads, the payloads in flight with the
    state of their tokens, bound and raw. *)
Record broker := Broker {
  waiting : list bytes; next : nat; in_flight : gmap nat bytes;
  bound : gmap nat token_state; raw : gmap nat token_state
}.
#[export] Instance eta_broker : Settable broker := fun b =>
  Broker (waiting b) (next b) (in_flight b) (bound b) (raw b).

Definition state_of (b : broker) (tk : queue_token) : token_state :=
  match tk with BoundToken i | GroupToken i => default pending (bound b !! i) | RawToken t => default pending (raw b !! t) end.
Definition publish (data : bytes) (b : broker) : broker := b <| waiting ::= fun l => l ++ [data] |>.
Definition redeliver (i : nat) (b : broker) : broker :=
  match in_flight b !! i with Some d => publish d (b <| in_flight ::= delete i |>) | None => b end.

#[export] Instance broker_strategy : QueueStrategy broker := {|
  qs_is_strategy := true;
  qs_prepare_push q p d src := ret (PreparedPush true (fun data rd b => (Ok true, publish data b)));
  qs_push q data p d src b := (Ok tt, publish data b);
  qs_pop_with_ack q t b := match waiting b with
    | [] => (Ok (None, None), b)
    | d :: l => (Ok (Some d, Some (BoundToken (next b))),
                 Broker l (Datatypes.S (next b)) (<[next b := d]> (in_flight b)) (bound b) (raw b))
    end;
  qs_queue_len q b := (Ok (Z.of_nat (length (waiting b))), b);
  qs_clear q b := (Ok tt, b <| waiting := [] |>);
  token_ack i b := (Ok tt, if bool_decide (state_of b (BoundToken i) = pending)
                           then b <| bound ::= <[i := acked]> |> <| in_flight ::= delete i |> else b);
  token_nack i b := (Ok tt, if bool_decide (state_of b (BoundToken i) = pending)
                            then redeliver i (b <| bound ::= <[i := nacked]> |>) else b);
  backend_ack q t b := match t with
    | Some t => (Ok tt, if bool_decide (state_of b (RawToken t) = pending) then b <| raw ::= <[t := acked]> |> else b)
    | None => (Raise EBackend, b) end;
  backend_nack q t b := match t with
    | Some t => (Ok tt, if bool_decide (state_of b (RawToken t) = pending) then b <| raw ::= <[t := nacked]> |> else b)
    | None => (Raise EBackend, b) end;
  backend_requires_ack b := (Ok true, b)
|}.

Lemma publish_grows d b : waiting b ⊆+ waiting (publish d b) /\ waiting (publish d b) ≡ₚ d :: waiting b.
Proof. cbn. split; [by apply submseteq_inserts_r|]. by rewrite Permutation_app_comm. Qed.
Lemma redeliver_ok i b : waiting b ⊆+ waiting (redeliver i b) /\ forall tk, state_of (redeliver i b) tk = state_of b tk.
Proof.
  unfold redeliver. destruct (in_flight b !! i) as [d|]; [|done]. split; [by apply submseteq_inserts_r|].
  by intros [j|j|t].
Qed.

#[export] Instance broker_laws : QueueStrategyLaws broker.
Proof.
  refine {| stored := waiting; settled := state_of |}.
  - by intros q p d src st o st' [= <- <-].
  - intros q p d src st0 pp st1 data rd st o st' [= <- <-] [= <- <-]. destruct (publish_grows data st) as [H1 H2].
    split; [done|]. split; [done|]. by intros _.
  - intros q data p d src st o st' [= <- <-]. destruct (publish_grows data st). by split.
  - intros i st o st' [= <- <-]. split; [by case_bool_decide|]. intros tk. rewrite andb_true_r.
    destruct (decide (tk = BoundToken i \/ tk = GroupToken i)) as [Hi|Hi].
    + rewrite (bool_decide_true (_ \/ _)) by done.
      assert (Hb : forall b, state_of b tk = state_of b (BoundToken i)) by (intros; destruct Hi; subst; reflexivity).
      rewrite !Hb. case_bool_decide as Hp; cbn.
      * by rewrite bool_decide_true, lookup_insert_eq.
      * by rewrite bool_decide_false.
    + rewrite (bool_decide_false (_ \/ _)) by done. case_bool_decide; [|done].
      destruct tk as [j|j|t]; cbn; [| |done]; (rewrite lookup_insert_ne; [done|]; intros ->; apply Hi; auto).
  - intros i st o st' [= <- <-]. case_bool_decide; [|split; [done|auto]].
    destruct (redeliver_ok i (st <| bound ::= <[i := nacked]> |>)) as [H1 H2]. split; [exact H1|].
    intros tk. rewrite H2. destruct tk as [j|j|t]; cbn; [| |auto];
      (destruct (decide (i = j)) as [->|]; [rewrite lookup_insert_eq|rewrite lookup_insert_ne by done]; auto).
  - intros q [t|] st o st'; cbn; [|intros [= <- <-]; split; [done|]; intros tk; by rewrite andb_false_r].
    intros [= <- <-]. split; [by case_bool_decide|]. intros tk. rewrite andb_true_r.
    destruct (decide (tk = RawToken t)) as [->|Hi].
    + rewrite (bool_decide_true (Some (RawToken t) = _)) by done. case_bool_decide as Hp; cbn.
      * by rewrite bool_decide_true, lookup_insert_eq.
      * by rewrite bool_decide_false.
    + rewrite (bool_decide_false (Some tk = _)) by congruence. case_bool_decide; [|done].
      destruct tk as [j|j|t']; cbn; [done..|]. rewrite lookup_insert_ne; [done|congruence].
  - intros q [t|] st o st'; cbn; [|intros [= <- <-]; split; [done|auto]]. intros [= <- <-].
    case_bool_decide; [|split; [done|auto]]. split; [done|]. intros [j|j|t']; cbn; [auto..|].
    destruct (decide (t = t')) as [->|]; [rewrite lookup_insert_eq|rewrite lookup_insert_ne by done]; auto.
  - by intros st o st' [= <- <-].
Defined.

Definition idle_self : self :=
  Self "q" queue (Gate true 0 ∅) 3 None 0 (float_of_Z 10) [] 0 [] 0 [] false [].
(** Delivery 0 is in flight. *)
Definition delivered : broker := Broker [[x61]] 1 {[ 0%nat := payload ]} ∅ ∅.
Definition replacing : live := Live (Some (BoundToken 0)) (Some (AInt 0)) SMissing.

Lemma replacement_handoff_witness :
  let '(o, (l', (s', st'))) := push_admitted false request (AInt 0) (replacing, (idle_self, delivered)) in
  stored delivered ⊆+ stored st' /\ settled st' (BoundToken 0) = acked.
Proof.
  destruct (push_admitted false request (AInt 0) (replacing, (idle_self, delivered))) as [o [l' [s' st']]] eqn:E.
  destruct (replacement_handoff (L := broker_laws) false request (AInt 0) replacing idle_self delivered (BoundToken 0) o l' s' st'
    eq_refl eq_refl E) as [H1 _].
  split; [exact H1|].
  transitivity (state_of (snd (snd (snd (push_admitted false request (AInt 0) (replacing, (idle_self, delivered))))))
    (BoundToken 0)); [by rewrite E|by vm_compute].
Defined.

(** The payload belongs to another spider. *)
Definition other_queue : config := Config (Some (Spider (Some "other"%string) (fun _ => Missing))) "p" false 1048576.


(** The priority null is not malformed: a foreign envelope with it goes back to
    the strategy with the priority None, which no queue accepts as a number. *)
Definition null_priority : bytes :=
  match serialize (vdict [("url"%string, VStr "http://x"); ("priority"%string, VNone);
    (ENVELOPE_SPIDER_FIELD, VStr "s"); (ENVELOPE_PROJECT_FIELD, VStr "p")]) with Ok b => b | Raise _ => [] end.
Example null_priority_republished :
  match decode_request (R := list (string * value)) other_queue null_priority with
  | Foreign (Some VNone) => true | _ => false end = true.
Proof. by vm_compute. Qed.

Lemma depth_sampling_witness :
  let s := idle_self <| cached_depth := Some 5 |> in
  fst (probe_depth (s, delivered)) = Ok 5 /\ asked_within 3 (s, delivered) = true.
Proof.
  cbv zeta. split; [done|].
  destruct (probe_depth (idle_self <| cached_depth := Some 5 |>, delivered)) as [o [s' st']] eqn:E.
  apply (depth_sampling (S := broker) (idle_self <| cached_depth := Some 5 |>) delivered o s' st'); [done|exact E|lia|done].
Defined.

Lemma unsampled_len_witness :
  fst (len 7 (idle_self <| depth_sample_every := 1 |>, delivered)) = Ok 1.
Proof.
  etrans; [apply (unsampled_len 7 (idle_self <| depth_sample_every := 1 |>) delivered); done|]. by vm_compute.
Defined.
End Examples.
End QueueFacts.
