(* ===== verification/QueueClose.v ===== *)
(** * Closing the backend queue

    queue/queue.py: the operation gate of [BackendQueue] and its close protocol
    under concurrency.  Any number of threads run operations, replacement
    settlements, closes and snapshot resets; the sections between them are
    atomic.  What a close calls out to (the strategy's [begin_close] and
    [close], the checkpoint) is an interface over an arbitrary state; the
    history records these calls, newest first. *)

From S2P Require Export Queue Drain.

Module QueueClose.
Import Queue.

(** [_strategy_cleanup_state]. *)
Inductive cleanup := NotStarted | Started | Succeeded | Failed | Indeterminate.
#[export] Instance cleanup_eq_dec : EqDecision cleanup.
Proof. solve_decision. Defined.

(** Calls on the strategy and its checkpoint. *)
Inductive event := Operated | BeganClose | Persisted | DiscardedState | Cleaned.
#[export] Instance event_eq_dec : EqDecision event.
Proof. solve_decision. Defined.

(** What close calls out to. *)
Class Lifecycle (S : Type) := {
  begin_close : M S unit;
  persist_snapshot : M S unit;
  strategy_close : M S unit;
  (* [self._snapshot_persistence_fenced = False] *)
  unfence : S -> S
}.

(** The lifecycle part of a queue.  A close-owner token is a number; it is
    [active] while the frame of its invocation is alive. *)
Record closer := Closer {
  c_gate : gate; pending : gset nat; next_settlement : nat;
  close_complete : bool; close_in_progress : bool; close_attempt : nat;
  close_owner_token : option (nat * nat);            (* token, thread *)
  close_attempt_outcomes : gmap nat bool; close_attempt_terminal : gmap nat bool;
  close_attempt_waiters : gmap nat (gset nat);
  begin_close_complete : bool; checkpoint_complete : bool; strategy_cleanup_state : cleanup;
  live_frames : gset nat; next_token : nat;
  history : list event
}.
#[export] Instance eta_closer : Settable closer := fun r =>
  Closer (c_gate r) (pending r) (next_settlement r) (close_complete r) (close_in_progress r) (close_attempt r)
    (close_owner_token r) (close_attempt_outcomes r) (close_attempt_terminal r) (close_attempt_waiters r)
    (begin_close_complete r) (checkpoint_complete r) (strategy_cleanup_state r) (live_frames r) (next_token r)
    (history r).

Definition init : closer :=
  Closer (Gate true 0 ∅) ∅ 0 false false 0 None ∅ ∅ ∅ false false NotStarted ∅ 0 [].

(** Where a call is: in an operation, in the frame of a close that owns nothing,
    in one that owns the attempt, up to the calls it has made, or in one that
    has seen the queue closed. *)
Inductive stage := Outside | Leased | Framed | Owning | Stopped | Drained | Checkpointed | Destroying | Destroyed | Closed.
#[export] Instance stage_eq_dec : EqDecision stage.
Proof. solve_decision. Defined.

Record call := Call { thread : nat; owner_token : nat; attempt : nat; at_stage : stage; result : option (outcome unit) }.
#[export] Instance eta_call : Settable call := fun r =>
  Call (thread r) (owner_token r) (attempt r) (at_stage r) (result r).

Section QueueClose.
Context {S : Type} `{!Lifecycle S}.
Definition shared : Type := closer * S.
Definition CM (A : Type) : Type := M (call * shared) A.
Definition CP (A : Type) : Type := prog call shared A.

(** ** Operations and settlements *)
Definition enter (operation : string) : CM unit := fun '(l, (c, st)) =>
  match begin_operation (thread l) operation (c_gate c) with
  | (Ok _, g) => (Ok tt, (l <| at_stage := Leased |>, (c <| c_gate := g |>, st)))
  | (Raise e, g) => (Raise e, (l, (c <| c_gate := g |>, st)))
  end.
Definition leave : CM unit := fun '(l, (c, st)) =>
  (Ok tt, (l <| at_stage := Outside |>, (c <| c_gate ::= end_operation (thread l) |>, st))).

(** What the operation does on the strategy. *)
Definition perform (body : M S unit) : CM unit := fun '(l, (c, st)) =>
  let '(o, st') := body st in (o, (l, (c <| history ::= cons Operated |>, st'))).

(** [_track_replacement_settlement] and its [complete]. *)
Definition track : CM unit := fun '(l, (c, st)) =>
  (Ok tt, (l, (c <| pending ::= fun p => p ∪ {[ next_settlement c ]} |> <| next_settlement ::= Datatypes.S |>, st))).
Definition complete (operation : nat) : CM unit := fun '(l, (c, st)) =>
  (Ok tt, (l, (c <| pending ::= fun p => p ∖ {[ operation ]} |>, st))).

Definition operate (name : string) (body : M S unit) (schedules : bool) : CP unit :=
  let? _ := atomically (enter name) in
  pfinally (let? _ := atomically (perform body) in if schedules then atomically track else pret tt)
           (atomically leave).

(** A settlement running in a worker thread. *)
Definition settlement (operation : nat) (body : M S unit) : CP unit :=
  ptry (section_when (fun _ '(c, _) => bool_decide (operation ∈ pending c)) (perform body))
       (fun _ => atomically (complete operation)).

(** ** Waiting for another close *)
Definition active (token : nat) (c : closer) : bool := bool_decide (token ∈ live_frames c).
Definition started (c : closer) : bool := negb (bool_decide (strategy_cleanup_state c = NotStarted)).

Definition register_waiter (a w : nat) (c : closer) : closer :=
  c <| close_attempt_waiters ::= fun m => <[a := default ∅ (m !! a) ∪ {[ w ]}]> m |>.

(** [_cleanup_close_waiter_locked]. *)
Definition cleanup_close_waiter (a w : nat) (c : closer) : closer :=
  let c := match close_attempt_waiters c !! a with
           | Some ws => c <| close_attempt_waiters ::= <[a := ws ∖ {[ w ]}]> |>
           | None => c
           end in
  if bool_decide (default ∅ (close_attempt_waiters c !! a) = ∅)
  then c <| close_attempt_waiters ::= delete a |> <| close_attempt_outcomes ::= delete a |>
         <| close_attempt_terminal ::= delete a |>
  else c.

(** One turn of the wait: what was observed, [None] to sleep. *)
Definition observe (a : nat) (c : closer) : option (bool * bool) :=
  match close_attempt_outcomes c !! a with
  | Some b => Some (b, default false (close_attempt_terminal c !! a))
  | None =>
      match close_owner_token c with
      | Some (tok, _) => if active tok c then None else Some (false, started c)
      | None => Some (false, started c)
      end
  end.

Definition observed (x : bool * bool) : outcome unit :=
  if fst x then Ok tt else Raise (EQueue "").

Definition saw (o : outcome unit) (l : call) : call :=
  match o with Ok _ => l <| at_stage := Closed |> | Raise _ => l end.

Definition stop_waiting (a : nat) (o : outcome unit) : CM unit := fun '(l, (c, st)) =>
  (o, (saw o l, (cleanup_close_waiter a (owner_token l) c, st))).

(** [_wait_for_close_attempt_locked] after its first turn; a turn is the signal
    that ended the sleep before it, if one did. *)
Fixpoint await (a : nat) (turns : list (option exn)) : CP unit :=
  match turns with
  | [] =>
      section_when (fun _ '(c, _) => match observe a c with Some _ => true | None => false end)
        (fun '(l, (c, st)) => match observe a c with
                              | Some x => stop_waiting a (observed x) (l, (c, st))
                              | None => (Ok tt, (l, (c, st)))
                              end)
  | Some e :: _ => atomically (stop_waiting a (Raise e))
  | None :: turns =>
      Sect (fun _ _ => true)
        (fun l '(c, st) => match observe a c with
                           | Some x => snd (stop_waiting a (observed x) (l, (c, st)))
                           | None => (l, (c, st))
                           end)
        (fun l '(c, st) => match observe a c with
                           | Some x => Done (observed x)
                           | None => await a turns
                           end)
  end.

(** ** Closing *)

(** [_close_called_from_active_operation], then a new owner token. *)
Definition open_frame : CM unit := fun '(l, (c, st)) =>
  if bool_decide (0 < default 0 (active_operation_threads (c_gate c) !! thread l))
  then (Raise (EQueue "close"), (l, (c, st)))
  else (Ok tt, (l <| owner_token := next_token c |> <| at_stage := Framed |>,
                (c <| live_frames ::= fun f => f ∪ {[ next_token c ]} |> <| next_token ::= Datatypes.S |>, st))).

(** The frame unwinds. *)
Definition close_frame (o : outcome unit) : CM unit := fun '(l, (c, st)) =>
  (o, (l <| at_stage := Outside |> <| result := Some o |>, (c <| live_frames ::= fun f => f ∖ {[ owner_token l ]} |>, st))).

(** The first critical section: an early exit, a wait, or the ownership. *)
Inductive admission := Leaves (o : outcome unit) | Waits (a : nat) | Owns.

Definition take_ownership (l : call) (c : closer) : call * closer :=
  (l <| attempt := Datatypes.S (close_attempt c) |> <| at_stage := Owning |>,
   c <| close_attempt ::= Datatypes.S |> <| close_owner_token := Some (owner_token l, thread l) |>
     <| close_in_progress := true |> <| c_gate ::= fun g => g <| accepting_operations := false |> |>).

Definition request_close : CM admission := fun '(l, (c, st)) =>
  let leaves (o : outcome unit) (c : closer) := (Ok (Leaves o), (saw o l, (c, st))) in
  if close_complete c then leaves (Ok tt) c
  else
    let own (c : closer) := let '(l', c') := take_ownership l c in (Ok Owns, (l', (c', st))) in
    if close_in_progress c then
      let reclaim := c <| close_in_progress := false |> <| close_owner_token := None |> in
      let reclaimed :=
        match strategy_cleanup_state c with
        | NotStarted => own reclaim
        | Succeeded => leaves (Ok tt) (reclaim <| close_complete := true |>)
        | _ => leaves (Raise (EQueue "")) (reclaim <| close_complete := true |>)
        end in
      match close_owner_token c with
      | Some (tok, t) =>
          if active tok c then
            if (t =? thread l)%nat then leaves (Raise (EQueue "")) c
            else
              let a := close_attempt c in
              let c := register_waiter a (owner_token l) c in
              match observe a c with
              | Some x => leaves (observed x) (cleanup_close_waiter a (owner_token l) c)
              | None => (Ok (Waits a), (l, (c, st)))
              end
          else reclaimed
      | None => reclaimed
      end
    else own c.

(** The strategy stops accepting: at most one successful [begin_close]. *)
Definition stop_strategy : CM unit := fun '(l, (c, st)) =>
  if begin_close_complete c then (Ok tt, (l <| at_stage := Stopped |>, (c, st)))
  else match begin_close st with
       | (Ok _, st') => (Ok tt, (l <| at_stage := Stopped |>, (c <| begin_close_complete := true |> <| history ::= cons BeganClose |>, st')))
       | (Raise e, st') => (Raise e, (l, (c, st')))
       end.

Definition busy (g : shared) : bool :=
  (0 <? active_operations (c_gate (fst g))) || negb (bool_decide (pending (fst g) = ∅)).
Definition drained (o : outcome unit) : CM unit := fun '(l, g) =>
  match o with
  | Ok _ => (Ok tt, (l <| at_stage := Drained |>, g))
  | Raise e => (Raise e, (l, g))
  end.

Definition checkpoint (lossy : bool) : CM unit := fun '(l, (c, st)) =>
  if checkpoint_complete c then (Ok tt, (l <| at_stage := Checkpointed |>, (c, st)))
  else if lossy then
    (Ok tt, (l <| at_stage := Checkpointed |>, (c <| checkpoint_complete := true |> <| history ::= cons DiscardedState |>, st)))
  else match persist_snapshot st with
       | (Ok _, st') =>
           (Ok tt, (l <| at_stage := Checkpointed |>, (c <| checkpoint_complete := true |> <| history ::= cons Persisted |>, st')))
       | (Raise e, st') => (Raise e, (l, (c, st')))
       end.

Definition mark_cleanup : CM unit := fun '(l, (c, st)) =>
  (Ok tt, (l <| at_stage := Destroying |>, (c <| strategy_cleanup_state := Started |>, st))).

Definition destroy : CM (outcome unit) := fun '(l, (c, st)) =>
  let '(o, st') := strategy_close st in
  (Ok o, (l <| at_stage := Destroyed |>, (c <| history ::= cons Cleaned |>, st'))).

(** [_publish_strategy_cleanup_outcome]. *)
Definition publish_cleanup (outcome : cleanup) (c : closer) : closer :=
  if bool_decide (strategy_cleanup_state c = Started) then c <| strategy_cleanup_state := outcome |> else c.
Definition cleanup_outcome (o : outcome unit) : cleanup :=
  match o with
  | Ok _ => Succeeded
  | Raise e => if is_ordinary e then Failed else Indeterminate
  end.
Definition record_cleanup (o : outcome unit) : CM unit := fun '(l, (c, st)) =>
  (o, (l, (publish_cleanup (cleanup_outcome o) c, st))).

(** [_publish_close_attempt] of the owner. *)
Definition publish_close_attempt (a : nat) (succeeded : bool) (c : closer) : closer :=
  let c := if succeeded || started c then c <| close_complete := true |> else c in
  let c := if bool_decide (default ∅ (close_attempt_waiters c !! a) = ∅)
           then c <| close_attempt_waiters ::= delete a |> <| close_attempt_outcomes ::= delete a |>
                  <| close_attempt_terminal ::= delete a |>
           else c <| close_attempt_outcomes ::= <[a := succeeded]> |> <| close_attempt_terminal ::= <[a := started c]> |> in
  c <| close_in_progress := false |> <| close_owner_token := None |>.

(** [_repair_close_finalization]: every close passes it; a signal may keep the
    owner from the gate. *)
Definition repair_cleanup : CM unit := fun '(l, (c, st)) => (Ok tt, (l, (publish_cleanup Indeterminate c, st))).
Definition owns (l : call) (c : closer) : bool :=
  match close_owner_token c with Some (tok, _) => (tok =? owner_token l)%nat | None => false end.
Definition publish_attempt (succeeded : bool) (interruption : option exn) : CM unit := fun '(l, (c, st)) =>
  if owns l c then
    match interruption with
    | Some e => (Raise e, (l, (c, st)))
    | None => (Ok tt, (l <| at_stage := if succeeded then Closed else Framed |>, (publish_close_attempt (attempt l) succeeded c, st)))
    end
  else (Ok tt, (l, (c, st))).

(** Which exception leaves the close. *)
Definition select_failure (failure finalization : outcome unit) : outcome unit :=
  match failure, finalization with
  | Raise e, Raise f => if negb (is_ordinary e) then Raise e else Raise f
  | Raise e, Ok _ => Raise e
  | Ok _, _ => finalization
  end.

(** What does not come from the program: the drain's clock and wake-ups, the
    wake-ups of a wait, a signal at the last gate. *)
Record weather := Weather {
  reactor_io_timeout : float; drain_started : float; drain_wakes : list wake;
  wait_turns : list (option exn); last_gate : option exn
}.

Definition tear_down (lossy : bool) (w : weather) : CP unit :=
  let? _ := atomically stop_strategy in
  let? _ := bounded_drain_wait busy (reactor_io_timeout w) "backend-queue-close-drain" (drain_started w) (drain_wakes w) drained in
  let? _ := atomically (checkpoint lossy) in
  let? _ := atomically mark_cleanup in
  let? o := atomically destroy in
  atomically (record_cleanup o).

Definition finalize (succeeded : bool) (w : weather) : CP unit :=
  let? _ := atomically repair_cleanup in atomically (publish_attempt succeeded (last_gate w)).

(** [close].  An early return ignores what its finalization raised. *)
Definition close_body (lossy : bool) (w : weather) : CP unit :=
  let? a := atomically request_close in
  match a with
  | Leaves (Ok _) => ptry (finalize false w) (fun _ => pret tt)
  | Leaves (Raise e) => ptry (finalize false w) (fun f => Done (select_failure (Raise e) f))
  | Waits a =>
      ptry (await a (wait_turns w)) (fun o =>
      ptry (finalize false w) (fun f => match o with Ok _ => pret tt | Raise _ => Done (select_failure o f) end))
  | Owns =>
      ptry (tear_down lossy w) (fun o => ptry (finalize (is_ok o) w) (fun f => Done (select_failure o f)))
  end.

Definition close (lossy : bool) (w : weather) : CP unit :=
  let? _ := atomically open_frame in
  ptry (close_body lossy w) (fun o => atomically (close_frame o)).

(** [reset_snapshot]. *)
Definition reset_snapshot : CM unit := fun '(l, (c, st)) =>
  if close_complete c then (Raise (EQueue "snapshot-reset"), (l, (c, st)))
  else if close_in_progress c then (Raise (EQueue "snapshot-reset"), (l, (c, st)))
  else (Ok tt, (l, (c, unfence st))).

(** ** The calls a program makes *)
Definition fresh (t : nat) : call := Call t 0 0 Outside None.
Inductive start : call -> prog call shared unit -> Prop :=
  | start_operation t name body schedules : start (fresh t) (operate name body schedules)
  | start_settlement t op body : start (fresh t) (settlement op body)
  | start_close t lossy w : start (fresh t) (close lossy w)
  | start_reset t : start (fresh t) (atomically reset_snapshot).
End QueueClose.
End QueueClose.
