(* ===== verification/QueueCloseFacts.v ===== *)
(** * Closing the backend queue: what holds in every interleaving

    The invariant of the close protocol of [QueueClose] and its consequences:
    the strategy is destroyed at most once, drained, and after its state was
    checkpointed or explicitly discarded; a close that returns means it was;
    what one undisturbed close computes; and no close waits for a dead one. *)

From S2P Require Export QueueClose.

Module QueueCloseFacts.
Import Queue QueueClose.

Section Facts.
Context {S : Type} `{!Lifecycle S}.
Implicit Types (l : call) (c : closer) (st : S) (h : list event).

(** ** The history *)

(** Each call on the strategy against those before it. *)
Definition in_order (e : event) h : Prop :=
  match e with
  | Operated => Persisted ∉ h /\ DiscardedState ∉ h /\ Cleaned ∉ h
  | BeganClose => BeganClose ∉ h /\ Persisted ∉ h /\ DiscardedState ∉ h /\ Cleaned ∉ h
  | Persisted | DiscardedState => BeganClose ∈ h /\ Persisted ∉ h /\ DiscardedState ∉ h /\ Cleaned ∉ h
  | Cleaned => BeganClose ∈ h /\ (Persisted ∈ h \/ DiscardedState ∈ h) /\ Cleaned ∉ h
  end.
Fixpoint orderly h : Prop :=
  match h with [] => True | e :: h' => in_order e h' /\ orderly h' end.

(** ** The invariant *)
Definition quiet c : Prop :=
  accepting_operations (c_gate c) = false /\ active_operations (c_gate c) = 0 /\ pending c = ∅.

Record base c : Prop := {
  b_progress : close_in_progress c = true <-> is_Some (close_owner_token c);
  b_owner : forall tok t, close_owner_token c = Some (tok, t) ->
    accepting_operations (c_gate c) = false /\ (tok < next_token c)%nat;
  b_fresh : forall tok, tok ∈ live_frames c -> (tok < next_token c)%nat;
  b_complete : close_complete c = true -> started c = true /\ close_owner_token c = None;
  b_started : started c = true -> checkpoint_complete c = true /\
    (close_complete c = true \/ is_Some (close_owner_token c));
  b_checkpoint : checkpoint_complete c = true -> quiet c /\ begin_close_complete c = true;
  b_began : begin_close_complete c = true -> accepting_operations (c_gate c) = false;
  b_began_h : begin_close_complete c = true <-> BeganClose ∈ history c;
  b_checkpoint_h : checkpoint_complete c = true <-> Persisted ∈ history c \/ DiscardedState ∈ history c;
  b_cleaned_h : Cleaned ∈ history c -> started c = true;
  b_orderly : orderly (history c);
  b_outcomes : forall a, close_attempt_outcomes c !! a = Some true -> close_complete c = true
}.

Definition is_owner l c : Prop := close_owner_token c = Some (owner_token l, thread l).
Definition has_frame l : bool := match at_stage l with Outside | Leased => false | _ => true end.
Definition owns_attempt l : bool :=
  match at_stage l with Owning | Stopped | Drained | Checkpointed | Destroying | Destroyed => true | _ => false end.

(** What a call knows at its stage. *)
Definition knows l c : Prop :=
  match at_stage l with
  | Outside | Leased | Framed => True
  | Closed => close_complete c = true
  | Owning => started c = false
  | Stopped => started c = false /\ begin_close_complete c = true
  | Drained => started c = false /\ begin_close_complete c = true /\ quiet c
  | Checkpointed => started c = false /\ checkpoint_complete c = true
  | Destroying => started c = true /\ Cleaned ∉ history c
  | Destroyed => started c = true
  end.
Definition mine l c : Prop :=
  knows l c /\ (owns_attempt l = true -> is_owner l c) /\ (has_frame l = true -> owner_token l ∈ live_frames c) /\
  (result l = Some (Ok tt) -> close_complete c = true).

Definition frame_of l : list nat := if has_frame l then [owner_token l] else [].
Definition frames (ls : list call) : list nat := flat_map frame_of ls.
Definition leased l : nat := if bool_decide (at_stage l = Leased) then 1 else 0.
Definition destroying l : nat := if bool_decide (at_stage l = Destroying) then 1 else 0.
Definition cleaned h : nat := if bool_decide (Cleaned ∈ h) then 1 else 0.
Definition begun c : nat := if started c then 1 else 0.

Record inv (ls : list call) (g : closer * S) : Prop := {
  i_base : base (fst g);
  i_mine : Forall (fun l => mine l (fst g)) ls;
  i_leases : active_operations (c_gate (fst g)) = Z.of_nat (sum_list_with leased ls);
  i_frames : NoDup (frames ls);
  i_destroying : (cleaned (history (fst g)) + sum_list_with destroying ls = begun (fst g))%nat
}.

Lemma inv_perm ls ls' g : Permutation ls ls' -> inv ls g -> inv ls' g.
Proof.
  intros Hp [H1 H2 H3 H4 H5]. split; [done| | | |].
  - by rewrite <- Hp.
  - by rewrite H3, (sum_list_with_perm _ _ _ Hp).
  - unfold frames. by rewrite <- (Permutation_flat_map frame_of Hp).
  - by rewrite <- H5, (sum_list_with_perm _ _ _ Hp).
Qed.

Lemma elem_of_frames l ls : l ∈ ls -> has_frame l = true -> owner_token l ∈ frames ls.
Proof.
  intros Hl Hf. apply list_elem_of_In, in_flat_map. exists l. split; [by apply list_elem_of_In|].
  unfold frame_of. rewrite Hf. by left.
Qed.

Lemma owner_has_frame l : owns_attempt l = true -> has_frame l = true.
Proof. unfold owns_attempt, has_frame. by destruct (at_stage l). Qed.

(** One section: the other calls keep what they know. *)
Lemma inv_step l fr c st l' c' st' : inv (l :: fr) (c, st) ->
  base c' -> mine l' c' ->
  (forall x, x ∈ fr -> mine x c -> (has_frame x = true -> has_frame l = true -> owner_token x <> owner_token l) -> mine x c') ->
  active_operations (c_gate c') + Z.of_nat (leased l) = active_operations (c_gate c) + Z.of_nat (leased l') ->
  NoDup (frame_of l' ++ frames fr) ->
  (cleaned (history c') + destroying l' + begun c = cleaned (history c) + destroying l + begun c')%nat ->
  inv (l' :: fr) (c', st').
Proof.
  intros [H1 H2 H3 H4 H5] Hb Hm Hfr Ha Hn Hd. cbn in *. apply Forall_cons in H2 as [_ H2].
  split; cbn; [done| |lia|done|lia].
  constructor; [done|]. apply Forall_forall. intros x Hx. rewrite Forall_forall in H2.
  apply Hfr; [done|by apply H2|]. intros F1 F2 E. change (frame_of l ++ frames fr) with (frames (l :: fr)) in H4.
  cbn in H4. unfold frame_of in H4. rewrite F2 in H4. cbn in H4. apply NoDup_cons in H4 as [H4 _]. apply H4.
  rewrite <- E. by apply elem_of_frames.
Qed.

(** What a bystander's section may change. *)
Definition bystander c c' : Prop :=
  close_owner_token c' = close_owner_token c /\ (started c' = started c) /\
  begin_close_complete c' = begin_close_complete c /\ checkpoint_complete c' = checkpoint_complete c /\
  (close_complete c = true -> close_complete c' = true) /\ (quiet c -> quiet c') /\
  (Cleaned ∉ history c -> Cleaned ∉ history c').

Lemma mine_bystander l x c c' : bystander c c' -> mine x c ->
  (has_frame x = true -> owner_token x ∈ live_frames c -> owner_token x ∈ live_frames c') -> mine x c'.
Proof.
  intros (E1 & E2 & E3 & E4 & E5 & E6 & E7) (H1 & H2 & H3 & H4) Hl. unfold mine, is_owner, knows in *.
  rewrite E1, E2, E3, E4. split_and!; auto. destruct (at_stage x); try done; try tauto.
Qed.

(** A call that owns nothing keeps what it knows. *)
Lemma mine_other x c c' : mine x c -> owns_attempt x = false -> (close_complete c = true -> close_complete c' = true) ->
  (has_frame x = true -> owner_token x ∈ live_frames c -> owner_token x ∈ live_frames c') -> mine x c'.
Proof.
  intros (H1 & H2 & H3 & H4) Ho Hc Hl. unfold mine, knows, owns_attempt in *. split_and!; [|congruence|auto|auto].
  destruct (at_stage x); auto; done.
Qed.

(** Two calls in a frame do not own the same attempt. *)
Lemma owner_alone l x c : owns_attempt l = true -> mine l c -> mine x c ->
  (has_frame x = true -> has_frame l = true -> owner_token x <> owner_token l) -> owns_attempt x = false.
Proof.
  intros Ho (_ & H2 & _) (_ & H2' & _) Hne. destruct (owns_attempt x) eqn:Hx; [|done].
  specialize (H2 Ho). specialize (H2' eq_refl). unfold is_owner in *.
  destruct Hne; [by apply owner_has_frame|by apply owner_has_frame|congruence].
Qed.

(** Nobody owns when the owner's frame is gone. *)
Lemma orphan_alone x c : (forall tok t, close_owner_token c = Some (tok, t) -> tok ∉ live_frames c) ->
  mine x c -> owns_attempt x = false.
Proof.
  intros Hd (_ & H2 & H3 & _). destruct (owns_attempt x) eqn:Hx; [|done].
  exfalso. eapply Hd; [by apply H2|]. by apply H3, owner_has_frame.
Qed.

Lemma quiet_no_lease l fr c st : inv (l :: fr) (c, st) -> at_stage l = Leased -> ~ quiet c.
Proof.
  intros [_ _ H3 _ _] Hl (_ & Hq & _). cbn in *. unfold leased at 1 in H3. rewrite Hl, bool_decide_true in H3 by done. lia.
Qed.

(** ** One section at a time *)

(** The frames and sums of a section that keeps the stage class of its call. *)
Lemma frames_head l fr g : inv (l :: fr) g -> NoDup (frame_of l ++ frames fr).
Proof. by intros [_ _ _ H _]. Qed.
Lemma frames_tail l fr g : inv (l :: fr) g -> NoDup (frames fr).
Proof. intros H%frames_head. by apply NoDup_app in H as (_ & _ & H). Qed.

Lemma mine_head l fr c st : inv (l :: fr) (c, st) -> mine l c.
Proof. intros [_ H _ _ _]. by apply Forall_cons in H as [H _]. Qed.
Lemma inv_base ls c st : inv ls (c, st) -> base c.
Proof. by intros [H _ _ _ _]. Qed.

(** Changes of the gate and of the pending settlements. *)
Definition regate (g : gate) (p : gset nat) (n : nat) h c : closer :=
  c <| c_gate := g |> <| pending := p |> <| next_settlement := n |> <| history := h |>.

Lemma base_regate c g p n h : base c -> accepting_operations g = accepting_operations (c_gate c) ->
  (quiet c -> quiet (regate g p n h c)) ->
  (forall e, e <> Operated -> e ∈ h <-> e ∈ history c) -> orderly h -> base (regate g p n h c).
Proof.
  intros [] Ha Hq Hh Ho. split; try done.
  - intros tok t E. destruct (b_owner0 tok t E). cbn. by rewrite Ha.
  - intros Hc. destruct (b_checkpoint0 Hc). auto.
  - cbn. rewrite Ha. auto.
  - cbn. rewrite Hh by done. done.
  - cbn. rewrite !Hh by done. done.
  - cbn. rewrite Hh by done. done.
Qed.

Lemma inv_regate l fr c st l' g p n h st' : inv (l :: fr) (c, st) ->
  has_frame l = false -> has_frame l' = false -> result l' = result l ->
  accepting_operations g = accepting_operations (c_gate c) ->
  (quiet c -> quiet (regate g p n h c)) ->
  (forall e, e <> Operated -> e ∈ h <-> e ∈ history c) -> orderly h ->
  active_operations g + Z.of_nat (leased l) = active_operations (c_gate c) + Z.of_nat (leased l') ->
  inv (l' :: fr) (regate g p n h c, st').
Proof.
  intros Hi F F' Hr Ha Hq Hh Ho Hl. pose proof (mine_head _ _ _ _ Hi) as (_ & _ & _ & Hm).
  apply (inv_step l fr c st); [done|by apply base_regate; [eapply inv_base|..]| | |done| |].
  - unfold mine, knows, owns_attempt. rewrite F', Hr. unfold has_frame in F'.
    destruct (at_stage l'); try discriminate F'; by split_and!.
  - intros x _ Hx _. apply (mine_bystander l' x c); [|done|done]. split_and!; try done.
    by rewrite Hh.
  - unfold frame_of at 1. rewrite F'. cbn. by eapply frames_tail.
  - assert (Hd : forall y, has_frame y = false -> destroying y = 0%nat).
    { intros y. unfold has_frame, destroying. by destruct (at_stage y). }
    rewrite !Hd by done. cbn. unfold begun, cleaned, started. cbn.
    rewrite (bool_decide_ext (Cleaned ∈ h) (Cleaned ∈ history c)); [lia|by apply Hh].
Qed.

Lemma orderly_operated c : base c -> ~ quiet c -> orderly (Operated :: history c).
Proof.
  intros Hb Hq. split; [|by apply b_orderly].
  assert (Hc : checkpoint_complete c = true -> False) by (intros H; by apply (b_checkpoint _ Hb) in H as [? _]).
  split_and!; intros H; apply Hc.
  - by apply b_checkpoint_h; [|left].
  - by apply b_checkpoint_h; [|right].
  - apply (b_cleaned_h _ Hb) in H. by apply (b_started _ Hb) in H as [H _].
Qed.

Lemma operated_only e h : e <> Operated -> e ∈ Operated :: h <-> e ∈ h.
Proof. intros He. rewrite elem_of_cons. split; [by intros [->|]|auto]. Qed.

(** *** Operations *)
Definition lease t : call := fresh t <| at_stage := Leased |>.

Lemma wp_enter t name (Q : outcome unit -> call -> Prop) :
  Q (Ok tt) (lease t) -> (forall e, Q (Raise e) (fresh t)) -> wp inv (atomically (enter (S := S) name)) Q (fresh t).
Proof.
  intros H1 H2. apply wp_atomically. intros fr [c st] o l' [c' st'] Hi. unfold enter, begin_operation.
  pose proof (inv_base _ _ _ Hi) as Hb.
  destruct (accepting_operations (c_gate c)) eqn:Ha; cbn; intros [= <- <- <- <-]; (split; [|done]).
  - apply (inv_regate (fresh t) fr c st (lease t) _ (pending c) (next_settlement c) (history c)); try done.
    + intros [Hq _]. congruence.
    + by apply b_orderly.
    + change (leased (fresh t)) with 0%nat; change (leased (lease t)) with 1%nat. cbn. lia.
  - by apply (inv_regate (fresh t) fr c st (fresh t) (c_gate c) (pending c) (next_settlement c) (history c));
      try done; apply b_orderly.
Qed.

Lemma wp_leave t (Q : outcome unit -> call -> Prop) :
  Q (Ok tt) (fresh t) -> wp inv (atomically (leave (S := S))) Q (lease t).
Proof.
  intros H1. apply wp_atomically. intros fr [c st] o l' [c' st'] Hi [= <- <- <- <-]. split; [|done].
  pose proof (inv_base _ _ _ Hi) as Hb.
  apply (inv_regate (lease t) fr c st (fresh t) _ (pending c) (next_settlement c) (history c)); try done.
  - intros Hq. by destruct (quiet_no_lease _ _ _ _ Hi).
  - by apply b_orderly.
  - change (leased (fresh t)) with 0%nat; change (leased (lease t)) with 1%nat. cbn. lia.
Qed.

Lemma wp_perform t body (Q : outcome unit -> call -> Prop) :
  (forall o, Q o (lease t)) -> wp inv (atomically (perform (S := S) body)) Q (lease t).
Proof.
  intros H1. apply wp_atomically. intros fr [c st] o l' [c' st'] Hi. unfold perform.
  destruct (body st) as [o1 st1]. intros [= <- <- <- <-]. split; [|done].
  pose proof (inv_base _ _ _ Hi) as Hb.
  apply (inv_regate (lease t) fr c st (lease t) (c_gate c) (pending c) (next_settlement c)); try done.
  - by intros e He; apply operated_only.
  - apply orderly_operated; [done|]. by apply (quiet_no_lease _ _ _ _ Hi).
Qed.

Lemma wp_track t (Q : outcome unit -> call -> Prop) :
  Q (Ok tt) (lease t) -> wp inv (atomically (track (S := S))) Q (lease t).
Proof.
  intros H1. apply wp_atomically. intros fr [c st] o l' [c' st'] Hi [= <- <- <- <-]. split; [|done].
  pose proof (inv_base _ _ _ Hi) as Hb.
  apply (inv_regate (lease t) fr c st (lease t) (c_gate c) (pending c ∪ {[ next_settlement c ]}) (Datatypes.S (next_settlement c)) (history c)); try done.
  - intros Hq. by destruct (quiet_no_lease _ _ _ _ Hi).
  - by apply b_orderly.
Qed.

Lemma wp_operate t name body schedules :
  wp inv (operate (S := S) name body schedules) (fun _ _ => True) (fresh t).
Proof.
  apply wp_bind, wp_enter; [|done]. apply wp_finally, wp_bind, wp_perform. intros [[]|e]; [|by apply wp_leave].
  destruct schedules; [apply wp_track|]; by apply wp_leave.
Qed.

Lemma wp_settlement t op body : wp inv (settlement (S := S) op body) (fun _ _ => True) (fresh t).
Proof.
  apply wp_try, wp_section. intros fr [c st] o l' [c' st'] Hi Hp%bool_decide_eq_true_1. unfold perform.
  destruct (body st) as [o1 st1]. intros [= <- <- <- <-]. pose proof (inv_base _ _ _ Hi) as Hb.
  assert (Hq : ~ quiet c) by (intros (_ & _ & Hq); rewrite Hq in Hp; set_solver). split.
  { apply (inv_regate (fresh t) fr c st (fresh t) (c_gate c) (pending c) (next_settlement c)); try done.
    - by intros e He; apply operated_only.
    - by apply orderly_operated. }
  clear. apply wp_atomically. intros fr [c st] o l' [c' st'] Hi [= <- <- <- <-]. split; [|done].
  pose proof (inv_base _ _ _ Hi) as Hb.
  apply (inv_regate (fresh t) fr c st (fresh t) (c_gate c) (pending c ∖ {[ op ]}) (next_settlement c) (history c)); try done.
  - intros (H1 & H2 & H3). split_and!; try done. cbn. rewrite H3. apply empty_difference_L.
  - by apply b_orderly.
Qed.

Lemma wp_reset t : wp inv (atomically (reset_snapshot (S := S))) (fun _ _ => True) (fresh t).
Proof.
  apply wp_atomically. intros fr [c st] o l' [c' st'] [] . unfold reset_snapshot.
  destruct (close_complete c); [|destruct (close_in_progress c)]; by intros [= <- <- <- <-].
Qed.

(** *** Frames *)

(** Between two calls out of a close. *)
Definition framed l : Prop := has_frame l = true /\ at_stage l <> Destroying /\ result l = None.
Definition finished (o : outcome unit) l : Prop := framed l /\ (o = Ok tt -> at_stage l = Closed).

Lemma leased_framed l : has_frame l = true -> leased l = 0%nat.
Proof. unfold has_frame, leased. by destruct (at_stage l). Qed.
Lemma not_destroying l : at_stage l <> Destroying -> destroying l = 0%nat.
Proof. intros H. unfold destroying. by rewrite bool_decide_false. Qed.

Lemma frame_live x fr g : inv fr g -> x ∈ frames fr -> x ∈ live_frames (fst g).
Proof.
  intros [_ H _ _ _] Hx. apply list_elem_of_In, in_flat_map in Hx as (l & Hl%list_elem_of_In & Hx%list_elem_of_In).
  rewrite Forall_forall in H. destruct (H l Hl) as (_ & _ & Hlive & _). unfold frame_of in Hx.
  destruct (has_frame l) eqn:Hf; [|by apply elem_of_nil in Hx]. apply list_elem_of_singleton in Hx as ->. by apply Hlive.
Qed.

Lemma wp_open_frame t (Q : outcome unit -> call -> Prop) :
  (forall l, at_stage l = Framed -> result l = None -> Q (Ok tt) l) -> (forall e, Q (Raise e) (fresh t)) ->
  wp inv (atomically (open_frame (S := S))) Q (fresh t).
Proof.
  intros H1 H2. apply wp_atomically. intros fr [c st] o l' [c' st'] Hi. unfold open_frame.
  case_bool_decide; intros [= <- <- <- <-]; (split; [|auto]); [done|].
  pose proof (inv_base _ _ _ Hi) as []. apply (inv_step (fresh t) fr c st); [done|split; try done| | |done| |done].
  - intros tok u E. destruct (b_owner0 tok u E). cbn. split; [done|lia].
  - intros tok. cbn. rewrite elem_of_union, elem_of_singleton. intros [H0%b_fresh0| ->]; lia.
  - split_and!; try done. cbn. set_solver.
  - intros x _ Hx _. apply (mine_bystander (fresh t) x c); [done|done|]. cbn. set_solver.
  - cbn. apply NoDup_cons. split; [|by eapply frames_tail]. intros Hin.
    apply (frame_live _ (fresh t :: fr) _ Hi), b_fresh0 in Hin. lia.
Qed.

Lemma wp_close_frame l o (Q : outcome unit -> call -> Prop) : finished o l ->
  (forall o' l', Q o' l') -> wp inv (atomically (close_frame (S := S) o)) Q l.
Proof.
  intros ((Hf & Hd & Hr) & Ho) HQ. apply wp_atomically. intros fr [c st] o' l' [c' st'] Hi [= <- <- <- <-].
  split; [|done]. pose proof (inv_base _ _ _ Hi) as []. apply (inv_step l fr c st); [done|split; try done| | | | |].
  - intros tok. cbn. rewrite elem_of_difference. intros [H0 _]. by apply b_fresh0.
  - split_and!; try done. cbn. intros [= ->]. pose proof (mine_head _ _ _ _ Hi) as (Hk & _). unfold knows in Hk.
    by rewrite (Ho eq_refl) in Hk.
  - intros x _ Hx Hne. apply (mine_bystander l x c); [done|done|]. cbn. intros Hx' Hl. apply elem_of_difference.
    split; [done|]. rewrite elem_of_singleton. by apply Hne.
  - cbn. by rewrite leased_framed.
  - cbn. by eapply frames_tail.
  - cbn. by rewrite (not_destroying l).
Qed.

(** *** Admission *)

(** The tables of the waiters. *)
Definition wait_tables w o t c : closer :=
  c <| close_attempt_waiters := w |> <| close_attempt_outcomes := o |> <| close_attempt_terminal := t |>.
Definition fewer (o o' : gmap nat bool) : Prop := forall a b, o' !! a = Some b -> o !! a = Some b.

Lemma fewer_refl o : fewer o o.
Proof. by intros a b. Qed.

Lemma cleanup_close_waiter_tables a w c : exists w' o' t',
  cleanup_close_waiter a w c = wait_tables w' o' t' c /\ fewer (close_attempt_outcomes c) o'.
Proof.
  assert (Hd : fewer (close_attempt_outcomes c) (delete a (close_attempt_outcomes c))).
  { intros a' b. by intros [_ ?]%lookup_delete_Some. }
  unfold cleanup_close_waiter. destruct (close_attempt_waiters c !! a) as [ws|] eqn:E; case_bool_decide.
  - exists (delete a (<[a:=ws ∖ {[w]}]> (close_attempt_waiters c))), (delete a (close_attempt_outcomes c)),
      (delete a (close_attempt_terminal c)). by split.
  - exists (<[a:=ws ∖ {[w]}]> (close_attempt_waiters c)), (close_attempt_outcomes c), (close_attempt_terminal c).
    split; [by destruct c|apply fewer_refl].
  - exists (delete a (close_attempt_waiters c)), (delete a (close_attempt_outcomes c)),
      (delete a (close_attempt_terminal c)). by split.
  - exists (close_attempt_waiters c), (close_attempt_outcomes c), (close_attempt_terminal c).
    split; [by destruct c|apply fewer_refl].
Qed.

Lemma base_tables w o t c : base c -> fewer (close_attempt_outcomes c) o -> base (wait_tables w o t c).
Proof. intros [] Hf. split; try done. intros a Ha. by apply (b_outcomes0 a), Hf. Qed.

(** Leaving without the ownership. *)
Lemma inv_depart l fr c st w o t x : inv (l :: fr) (c, st) -> at_stage l = Framed -> result l = None ->
  fewer (close_attempt_outcomes c) o -> (x = Ok tt -> close_complete c = true) ->
  inv (saw x l :: fr) (wait_tables w o t c, st).
Proof.
  intros Hi Hs Hr Hf Hx. pose proof (mine_head _ _ _ _ Hi) as (_ & _ & Hl & _).
  assert (Hf' : has_frame l = true) by (unfold has_frame; by rewrite Hs).
  apply (inv_step l fr c st); [done|by apply base_tables; [eapply inv_base|]| | | | |].
  - unfold mine, knows, owns_attempt, has_frame. destruct x as [[]|e]; cbn; rewrite ?Hs, Hr; split_and!; auto; done.
  - intros y _ Hy _. by apply (mine_bystander l y c).
  - rewrite leased_framed by done. rewrite leased_framed; [done|]. by destruct x as [[]|e].
  - pose proof (frames_head _ _ _ Hi) as Hn. unfold frame_of in *. rewrite Hf' in Hn.
    destruct x as [[]|e]; cbn; by rewrite ?Hf'.
  - rewrite !not_destroying; [done|by rewrite Hs|]. destruct x as [[]|e]; cbn; by rewrite ?Hs.
Qed.

Lemma observed_ok a c x : base c -> observe a c = Some x -> observed x = Ok tt -> close_complete c = true.
Proof.
  intros Hb E. unfold observed. destruct (fst x) eqn:Ex; [|done]. intros _. unfold observe in E.
  destruct (close_attempt_outcomes c !! a) as [b|] eqn:Ea.
  - injection E as <-. cbn in Ex. subst. by apply (b_outcomes _ Hb a).
  - destruct (close_owner_token c) as [[tok u]|]; [destruct (active tok c)|]; try done; by injection E as <-.
Qed.

Lemma saw_result o l : result (saw o l) = result l.
Proof. by destruct o. Qed.
Lemma saw_stage o l : at_stage l = Framed -> result l = None -> finished o (saw o l).
Proof. intros Hs Hr. destruct o as [[]|e]; split; try done; split_and!; cbn; rewrite ?Hs; try done. unfold has_frame. by rewrite Hs. Qed.

(** Taking the ownership: nobody else has it. *)
Definition orphaned c : Prop := forall tok t, close_owner_token c = Some (tok, t) -> tok ∉ live_frames c.

Lemma inv_own l fr c st b : inv (l :: fr) (c, st) -> at_stage l = Framed -> result l = None ->
  orphaned c -> close_complete c = false -> started c = false ->
  let '(l', c') := take_ownership l (c <| close_in_progress := false |> <| close_owner_token := b |>) in
  inv (l' :: fr) (c', st).
Proof.
  intros Hi Hs Hr Ho Hc Hst. cbn. pose proof (mine_head _ _ _ _ Hi) as (_ & _ & Hl & _).
  assert (Hf : has_frame l = true) by (unfold has_frame; by rewrite Hs). specialize (Hl Hf).
  pose proof (inv_base _ _ _ Hi) as Hb. pose proof Hb as []. apply (inv_step l fr c st); [done| | | | | |].
  - split; cbn; try done.
    + intros tok t [= <- <-]. split; [done|]. by apply b_fresh0.
    + by rewrite Hc.
    + intros [Hk Hq]%b_started0. split; [done|]. right. done.
    + intros ((_ & H1 & H2) & H3)%b_checkpoint0. split; [|done]. by split_and!.
  - split_and!; cbn; try done. by rewrite Hr.
  - intros x _ Hx _. apply (mine_other x c); [done|by eapply orphan_alone|done|done].
  - cbn. by rewrite leased_framed.
  - pose proof (frames_head _ _ _ Hi) as Hn. unfold frame_of in *. rewrite Hf in Hn. exact Hn.
  - by rewrite (not_destroying l) by (by rewrite Hs).
Qed.

(** Publishing that an orphaned attempt was terminal. *)
Lemma inv_reclaim l fr c st x : inv (l :: fr) (c, st) -> at_stage l = Framed -> result l = None ->
  orphaned c -> started c = true ->
  inv (saw x l :: fr) (c <| close_in_progress := false |> <| close_owner_token := None |> <| close_complete := true |>, st).
Proof.
  intros Hi Hs Hr Ho Hst. pose proof (mine_head _ _ _ _ Hi) as (_ & _ & Hl & _).
  assert (Hf : has_frame l = true) by (unfold has_frame; by rewrite Hs).
  assert (Hi' : inv (l :: fr) (c <| close_in_progress := false |> <| close_owner_token := None |> <| close_complete := true |>, st)).
  { pose proof (inv_base _ _ _ Hi) as []. apply (inv_step l fr c st); [done| | | |done| |done].
    - split; cbn; try done.
      + intros [Hk _]%b_started0. split; [done|by left].
    - unfold mine, knows, owns_attempt. rewrite Hs, Hr. by split_and!.
    - intros y _ Hy _. apply (mine_other y c); [done|by eapply orphan_alone|done|done].
    - by eapply frames_head. }
  replace (c <| close_in_progress := false |> <| close_owner_token := None |> <| close_complete := true |>)
    with (wait_tables (close_attempt_waiters c) (close_attempt_outcomes c) (close_attempt_terminal c)
      (c <| close_in_progress := false |> <| close_owner_token := None |> <| close_complete := true |>)) by by destruct c.
  apply inv_depart; try done. apply fewer_refl.
Qed.

(** What the first critical section decides. *)
Definition admitted (a : outcome admission) l : Prop :=
  result l = None /\
  match a with
  | Ok (Leaves o) => finished o l
  | Ok (Waits _) => at_stage l = Framed
  | Ok Owns => at_stage l = Owning
  | Raise _ => False
  end.

Lemma wp_request_close l : at_stage l = Framed -> result l = None ->
  wp inv (atomically (request_close (S := S))) admitted l.
Proof.
  intros Hs Hr. apply wp_atomically. intros fr [c st] o l' [c' st'] Hi. unfold request_close.
  pose proof (inv_base _ _ _ Hi) as Hb.
  assert (Hleave : forall x, (x = Ok tt -> close_complete c = true) ->
    inv (saw x l :: fr) (c, st) /\ admitted (Ok (Leaves x)) (saw x l)).
  { intros x Hx. split; [|split; [by rewrite saw_result|by apply saw_stage]].
    replace c with (wait_tables (close_attempt_waiters c) (close_attempt_outcomes c) (close_attempt_terminal c) c) by by destruct c.
    apply inv_depart; try done. apply fewer_refl. }
  assert (Hown : forall b, orphaned c -> close_complete c = false -> started c = false ->
    let '(l', c') := take_ownership l (c <| close_in_progress := false |> <| close_owner_token := b |>) in
    inv (l' :: fr) (c', st) /\ admitted (Ok Owns) l').
  { intros b H1 H2 H3. pose proof (inv_own l fr c st b Hi Hs Hr H1 H2 H3) as H. cbn in H |- *. split; [exact H|by split]. }
  destruct (close_complete c) eqn:Ec; [intros [= <- <- <- <-]; by apply (Hleave (Ok tt))|].
  destruct (close_in_progress c) eqn:Ep.
  2:{ assert (Hn : close_owner_token c = None).
      { destruct (close_owner_token c) eqn:E; [|done]. enough (false = true) by done. rewrite <- Ep.
        apply (b_progress _ Hb). by rewrite E. }
      assert (Hst : started c = false).
      { destruct (started c) eqn:E; [|done]. apply (b_started _ Hb) in E as [_ [E|[? E]]]; congruence. }
      intros [= <- <- <- <-]. specialize (Hown None). cbn in Hown.
      assert (Ho : orphaned c) by (intros tok t; by rewrite Hn). specialize (Hown Ho eq_refl Hst).
      revert Hown. rewrite <- Ep, <- Hn. by destruct c. }
  assert (Hrec : orphaned c -> match strategy_cleanup_state c with
      | NotStarted => let '(l', c') := take_ownership l (c <| close_in_progress := false |> <| close_owner_token := None |>) in
          (Ok Owns, (l', (c', st)))
      | Succeeded => (Ok (Leaves (Ok tt)), (saw (Ok tt) l, (c <| close_in_progress := false |> <| close_owner_token := None |> <| close_complete := true |>, st)))
      | _ => (Ok (Leaves (Raise (EQueue ""))), (saw (Raise (EQueue "")) l, (c <| close_in_progress := false |> <| close_owner_token := None |> <| close_complete := true |>, st)))
      end = (o, (l', (c', st'))) -> inv (l' :: fr) (c', st') /\ admitted o l').
  { intros Ho. assert (Hs' : forall x, started c = true -> inv (saw x l :: fr)
        (c <| close_in_progress := false |> <| close_owner_token := None |> <| close_complete := true |>, st) /\
        admitted (Ok (Leaves x)) (saw x l)).
    { intros x Hx. split; [by apply inv_reclaim|]. split; [by rewrite saw_result|by apply saw_stage]. }
    unfold started in Hs', Hown. destruct (strategy_cleanup_state c) eqn:Ecl; cbn in Hs'.
    - specialize (Hown None Ho eq_refl eq_refl). cbn in Hown |- *. by intros [= <- <- <- <-].
    - intros [= <- <- <- <-]. by apply (Hs' (Raise (EQueue ""))).
    - intros [= <- <- <- <-]. by apply (Hs' (Ok tt)).
    - intros [= <- <- <- <-]. by apply (Hs' (Raise (EQueue ""))).
    - intros [= <- <- <- <-]. by apply (Hs' (Raise (EQueue ""))). }
  destruct (close_owner_token c) as [[tok t]|] eqn:Eo; [|by apply Hrec; intros tok t; rewrite Eo].
  unfold active. case_bool_decide as Ha; [|apply Hrec; intros tok' t'; rewrite Eo; by intros [= <- <-]].
  destruct (t =? thread l)%nat; [intros [= <- <- <- <-]; by apply (Hleave (Raise (EQueue "")))|].
  assert (Hreg : base (register_waiter (close_attempt c) (owner_token l) c)).
  { replace (register_waiter _ _ _) with (wait_tables (close_attempt_waiters (register_waiter (close_attempt c) (owner_token l) c))
      (close_attempt_outcomes c) (close_attempt_terminal c) c) by by destruct c.
    apply base_tables; [done|apply fewer_refl]. }
  destruct (observe _ _) as [x|] eqn:Ex; intros [= <- <- <- <-].
  - split; [|split; [by rewrite saw_result|by apply saw_stage]].
    destruct (cleanup_close_waiter_tables (close_attempt c) (owner_token l) (register_waiter (close_attempt c) (owner_token l) c))
      as (w' & o' & t' & -> & Hf).
    change (wait_tables w' o' t' _) with (wait_tables w' o' t' c). apply inv_depart; try done.
    intros Hx. by eapply (observed_ok _ (register_waiter (close_attempt c) (owner_token l) c)).
  - split; [|by split]. change l with (saw (Raise EValue) l).
    replace (register_waiter _ _ _) with (wait_tables (close_attempt_waiters (register_waiter (close_attempt c) (owner_token l) c))
      (close_attempt_outcomes c) (close_attempt_terminal c) c) by by destruct c.
    apply inv_depart; try done. apply fewer_refl.
Qed.

(** *** Waiting *)
Lemma inv_stop_waiting l fr c st a x : inv (l :: fr) (c, st) -> at_stage l = Framed -> result l = None ->
  (x = Ok tt -> close_complete c = true) ->
  inv (saw x l :: fr) (cleanup_close_waiter a (owner_token l) c, st).
Proof.
  intros Hi Hs Hr Hx. destruct (cleanup_close_waiter_tables a (owner_token l) c) as (w & o & t & -> & Hf).
  by apply inv_depart.
Qed.

Lemma wp_await a turns l : at_stage l = Framed -> result l = None ->
  wp inv (await (S := S) a turns) finished l.
Proof.
  intros Hs Hr. induction turns as [|[e|] turns IH].
  - apply wp_section. intros fr [c st] o l' [c' st'] Hi He. pose proof (inv_base _ _ _ Hi) as Hb.
    destruct (observe a c) as [x|] eqn:Ex; [|done]. intros [= <- <- <- <-].
    split; [apply inv_stop_waiting; try done; by eapply observed_ok|by apply saw_stage].
  - apply wp_atomically. intros fr [c st] o l' [c' st'] Hi [= <- <- <- <-].
    split; [by apply (inv_stop_waiting _ _ _ _ _ (Raise e))|by apply (saw_stage (Raise e))].
  - intros fr [c st] Hi _. pose proof (inv_base _ _ _ Hi) as Hb. destruct (observe a c) as [x|] eqn:Ex; cbn.
    + split; [apply inv_stop_waiting; try done; by eapply observed_ok|by apply saw_stage].
    + by split.
Qed.

(** *** Tearing down *)

(** The sections of the owner: the others own nothing. *)
Lemma inv_owner l fr c st c' st' s : inv (l :: fr) (c, st) -> owns_attempt l = true -> result l = None ->
  base c' -> close_owner_token c' = close_owner_token c -> live_frames c' = live_frames c ->
  (close_complete c = true -> close_complete c' = true) ->
  active_operations (c_gate c') = active_operations (c_gate c) ->
  (let l' := l <| at_stage := s |> in owns_attempt l' = true /\ knows l' c' /\
   (cleaned (history c') + destroying l' + begun c = cleaned (history c) + destroying l + begun c')%nat) ->
  inv (l <| at_stage := s |> :: fr) (c', st').
Proof.
  intros Hi Ho Hr Hb He Hl Hc Ha (Ho' & Hk & Hd). pose proof (owner_has_frame _ Ho) as Hf.
  pose proof (owner_has_frame _ Ho') as Hf'. pose proof (mine_head _ _ _ _ Hi) as Hm.
  apply (inv_step l fr c st); [done|done| | | | |done].
  - pose proof Hm as (_ & H2 & H3 & _). split_and!; [done| | |by cbn; rewrite Hr].
    + intros _. unfold is_owner. cbn. rewrite He. by apply H2.
    + intros _. cbn. rewrite Hl. by apply H3.
  - intros x _ Hx Hne. apply (mine_other x c); [done|by eapply (owner_alone l)|done|by rewrite Hl].
  - rewrite !leased_framed by done. lia.
  - pose proof (frames_head _ _ _ Hi) as Hn. unfold frame_of in *. by rewrite Hf in Hn; rewrite Hf'.
Qed.

Definition owning (s : stage) (o : outcome unit) l : Prop :=
  owns_attempt l = true /\ at_stage l <> Destroying /\ result l = None /\ (o = Ok tt -> at_stage l = s).

Lemma destroying_at l s : at_stage l = s -> destroying l = if bool_decide (s = Destroying) then 1%nat else 0%nat.
Proof. by intros <-. Qed.

Lemma owner_same l s (o : outcome unit) : at_stage l = s -> owns_attempt l = true -> s <> Destroying -> result l = None ->
  forall s', o <> Ok tt -> owning s' o l.
Proof. intros Hs Ho Hd Hr s' Hn. split_and!; try done. congruence. Qed.

Lemma not_checkpointed c : base c -> checkpoint_complete c = false ->
  started c = false /\ Persisted ∉ history c /\ DiscardedState ∉ history c /\ Cleaned ∉ history c.
Proof.
  intros [] Hc. assert (Hs : started c = false).
  { apply not_true_is_false. intros [? _]%b_started0. congruence. }
  split_and!; [done| | |]; intros Hin.
  - enough (checkpoint_complete c = true) by congruence. apply b_checkpoint_h0. by left.
  - enough (checkpoint_complete c = true) by congruence. apply b_checkpoint_h0. by right.
  - apply b_cleaned_h0 in Hin. congruence.
Qed.

Lemma cons_in (e e' : event) h : e <> e' -> e ∈ e' :: h <-> e ∈ h.
Proof. intros He. rewrite elem_of_cons. split; [by intros [->|]|auto]. Qed.

Lemma wp_stop_strategy l : at_stage l = Owning -> result l = None ->
  wp inv (atomically (stop_strategy (S := S))) (owning Stopped) l.
Proof.
  intros Hs Hr. apply wp_atomically. intros fr [c st] o l' [c' st'] Hi. unfold stop_strategy.
  assert (Ho : owns_attempt l = true) by (unfold owns_attempt; by rewrite Hs).
  pose proof (inv_base _ _ _ Hi) as Hb. pose proof (mine_head _ _ _ _ Hi) as (Hk & Hm & _).
  specialize (Hm Ho). unfold knows in Hk. rewrite Hs in Hk.
  destruct (begin_close_complete c) eqn:Eb.
  - intros [= <- <- <- <-]. split; [|by split_and!]. eapply inv_owner; try done. split_and!; try done.
    by rewrite (destroying_at l _ Hs).
  - destruct (begin_close st) as [[[]|e] st1]; intros [= <- <- <- <-].
    + split; [|by split_and!]. assert (Hc : checkpoint_complete c = false).
      { destruct (checkpoint_complete c) eqn:E; [|done]. apply (b_checkpoint _ Hb) in E as [_ ?]. congruence. }
      destruct (not_checkpointed _ Hb Hc) as (N1 & N2 & N3 & N4). pose proof Hb as [].
      eapply inv_owner; try done.
      * split; cbn; try done.
        -- by intros [? _]%b_checkpoint0.
        -- intros _. by destruct (b_owner0 _ _ Hm).
        -- split; [|done]. intros _. by left.
        -- rewrite !cons_in by done. done.
        -- rewrite cons_in by done. done.
        -- split_and!; try done. rewrite <- b_began_h0. congruence.
      * split_and!; try done. rewrite (destroying_at l _ Hs). cbn. unfold cleaned, begun, started. cbn.
        rewrite (bool_decide_ext (Cleaned ∈ BeganClose :: history c) (Cleaned ∈ history c)) by by apply cons_in. done.
    + split; [|by eapply owner_same]. by destruct Hi.
Qed.

Lemma wp_drained w l : at_stage l = Stopped -> result l = None ->
  wp inv (bounded_drain_wait (busy (S := S)) (reactor_io_timeout w) "backend-queue-close-drain" (drain_started w)
    (drain_wakes w) drained) (owning Drained) l.
Proof.
  intros Hs Hr. assert (Ho : owns_attempt l = true) by (unfold owns_attempt; by rewrite Hs).
  apply wp_drain. intros x fr [c st] o l' [c' st'] Hi Hb. pose proof (inv_base _ _ _ Hi) as Hbase.
  pose proof (mine_head _ _ _ _ Hi) as (Hk & Hm & _). specialize (Hm Ho). unfold knows in Hk. rewrite Hs in Hk.
  destruct x as [[]|e]; intros [= <- <- <- <-]; [|split; [done|by eapply owner_same]].
  destruct Hb as [Hb|?]; [|done]. split; [|by split_and!]. apply orb_false_iff in Hb as [H1%Z.ltb_ge H2%negb_false_iff].
  apply bool_decide_eq_true_1 in H2. cbn in H1, H2. eapply inv_owner; try done. split_and!; try done.
  - destruct Hk. split_and!; [done|done|]. pose proof (i_leases _ _ Hi) as Hl. cbn in Hl.
    split_and!; [by destruct (b_owner _ Hbase _ _ Hm)|lia|done].
  - by rewrite (destroying_at l _ Hs).
Qed.

Lemma wp_checkpoint lossy l : at_stage l = Drained -> result l = None ->
  wp inv (atomically (checkpoint (S := S) lossy)) (owning Checkpointed) l.
Proof.
  intros Hs Hr. assert (Ho : owns_attempt l = true) by (unfold owns_attempt; by rewrite Hs).
  apply wp_atomically. intros fr [c st] o l' [c' st'] Hi. pose proof (inv_base _ _ _ Hi) as Hb.
  pose proof (mine_head _ _ _ _ Hi) as (Hk & Hm & _). specialize (Hm Ho). unfold knows in Hk. rewrite Hs in Hk.
  destruct Hk as (K1 & K2 & K3). unfold checkpoint. destruct (checkpoint_complete c) eqn:Ec.
  { intros [= <- <- <- <-]. split; [|by split_and!]. eapply inv_owner; try done. split_and!; try done.
    by rewrite (destroying_at l _ Hs). }
  destruct (not_checkpointed _ Hb Ec) as (N1 & N2 & N3 & N4).
  assert (Hgo : forall e st1, e = Persisted \/ e = DiscardedState ->
    inv (l <| at_stage := Checkpointed |> :: fr) (c <| checkpoint_complete := true |> <| history ::= cons e |>, st1)).
  { intros e st1 He. assert (He' : BeganClose <> e /\ Cleaned <> e) by (destruct He; by subst). destruct He' as [E1 E2].
    pose proof Hb as []. eapply inv_owner; try done.
    - split; cbn; try done.
      + intros [? _]%b_started0. congruence.
      + rewrite cons_in by done. exact b_began_h0.
      + split; [|done]. intros _. destruct He as [-> | ->]; [left|right]; by left.
      + rewrite cons_in by done. exact b_cleaned_h0.
      + split; [|done]. rewrite b_began_h0 in K2. destruct He as [-> | ->]; by split_and!.
    - split_and!; try done. rewrite (destroying_at l _ Hs). cbn. unfold cleaned, begun, started. cbn.
      rewrite (bool_decide_ext (Cleaned ∈ e :: history c) (Cleaned ∈ history c)) by by apply cons_in. done. }
  destruct lossy; [intros [= <- <- <- <-]; split; [apply Hgo; by right|by split_and!]|].
  destruct (persist_snapshot st) as [[[]|e] st1]; intros [= <- <- <- <-].
  - split; [apply Hgo; by left|by split_and!].
  - split; [by destruct Hi|by eapply owner_same].
Qed.

Lemma wp_mark_cleanup l (Q : outcome unit -> call -> Prop) : at_stage l = Checkpointed -> result l = None ->
  (forall l', at_stage l' = Destroying -> result l' = None -> Q (Ok tt) l') ->
  wp inv (atomically (mark_cleanup (S := S))) Q l.
Proof.
  intros Hs Hr HQ. assert (Ho : owns_attempt l = true) by (unfold owns_attempt; by rewrite Hs).
  apply wp_atomically. intros fr [c st] o l' [c' st'] Hi [= <- <- <- <-]. pose proof (inv_base _ _ _ Hi) as Hb.
  pose proof (mine_head _ _ _ _ Hi) as (Hk & Hm & _). specialize (Hm Ho). unfold knows in Hk. rewrite Hs in Hk.
  destruct Hk as [K1 K2]. split; [|by apply HQ]. pose proof Hb as [].
  assert (Hn : Cleaned ∉ history c) by (intros Hin%b_cleaned_h0; congruence). eapply inv_owner; try done.
  - split; cbn; try done.
    + intros [? _]%b_complete0. congruence.
    + intros _. split; [done|]. right. by rewrite Hm.
  - split_and!; try done. rewrite (not_destroying l) by by rewrite Hs. unfold begun at 1. rewrite K1.
    change (begun (c <| strategy_cleanup_state := Started |>)) with 1%nat.
    change (destroying (l <| at_stage := Destroying |>)) with 1%nat. cbn.
    lia.
Qed.

Lemma wp_destroy l (Q : outcome (outcome unit) -> call -> Prop) : at_stage l = Destroying -> result l = None ->
  (forall o l', at_stage l' = Destroyed -> result l' = None -> Q (Ok o) l') ->
  wp inv (atomically (destroy (S := S))) Q l.
Proof.
  intros Hs Hr HQ. assert (Ho : owns_attempt l = true) by (unfold owns_attempt; by rewrite Hs).
  apply wp_atomically. intros fr [c st] o l' [c' st'] Hi. pose proof (inv_base _ _ _ Hi) as Hb.
  pose proof (mine_head _ _ _ _ Hi) as (Hk & Hm & _). specialize (Hm Ho). unfold knows in Hk. rewrite Hs in Hk.
  destruct Hk as [K1 K2]. unfold destroy. destruct (strategy_close st) as [o1 st1]. intros [= <- <- <- <-].
  split; [|by apply HQ]. pose proof Hb as []. pose proof (b_started0 K1) as [S1 _].
  eapply inv_owner; try done.
  - split; cbn; try done.
    + by rewrite cons_in.
    + rewrite !cons_in by done. done.
    + split; [|done]. apply b_checkpoint0 in S1 as HS. destruct HS as [_ HS]. split_and!; [by apply b_began_h0|by apply b_checkpoint_h0|done].
  - split_and!; try done. rewrite (destroying_at l _ Hs). cbn. unfold cleaned.
    rewrite (bool_decide_true (Cleaned ∈ Cleaned :: _)) by by left. rewrite (bool_decide_false (Cleaned ∈ history c)) by done.
    cbn. unfold begun, started. cbn. done.
Qed.

(** Outcomes of the cleanup leave [started] as it is. *)
Lemma publish_cleanup_started x c : x <> NotStarted -> started (publish_cleanup x c) = started c.
Proof.
  intros Hx. unfold publish_cleanup. case_bool_decide as E; [|done]. unfold started. rewrite E. by destruct x.
Qed.

Lemma inv_publish_cleanup l fr c st x : x <> NotStarted -> inv (l :: fr) (c, st) -> inv (l :: fr) (publish_cleanup x c, st).
Proof.
  intros Hx Hi. pose proof (publish_cleanup_started x c Hx) as Hst.
  assert (Hc : exists s, publish_cleanup x c = c <| strategy_cleanup_state := s |>).
  { unfold publish_cleanup. case_bool_decide; [by eexists|]. exists (strategy_cleanup_state c). by destruct c. }
  destruct Hc as [s Hc]. rewrite Hc in *. pose proof (inv_base _ _ _ Hi) as [].
  assert (Hby : forall y, mine y c -> mine y (c <| strategy_cleanup_state := s |>)).
  { intros y Hy. apply (mine_bystander l y c); [by split_and!|done|done]. }
  apply (inv_step l fr c st); [done| | |by auto|done|by eapply frames_head|].
  - split; try done; rewrite ?Hst; done.
  - apply Hby. by eapply mine_head.
  - unfold begun. by rewrite Hst.
Qed.

Lemma wp_record_cleanup l o : at_stage l = Destroyed -> result l = None ->
  wp inv (atomically (record_cleanup (S := S) o)) (fun o' l' => o' = o /\ owning Destroyed o l') l.
Proof.
  intros Hs Hr. apply wp_atomically. intros fr [c st] o' l' [c' st'] Hi [= <- <- <- <-].
  split; [apply inv_publish_cleanup; [|done]; destruct o as [|e]; cbn; [done|by destruct (is_ordinary e)]|].
  split; [done|]. split_and!; try done; [unfold owns_attempt|]; by rewrite Hs.
Qed.

Lemma wp_tear_down lossy w l : at_stage l = Owning -> result l = None ->
  wp inv (tear_down (S := S) lossy w) (owning Destroyed) l.
Proof.
  intros Hs Hr. assert (Hraise : forall s (o : outcome unit) l', owning s o l' -> forall e, o = Raise e -> owning Destroyed (Raise e) l').
  { intros s o l' (H1 & H2 & H3 & _) e ->. by split_and!. }
  apply wp_bind. eapply wp_mono; [|by apply wp_stop_strategy].
  intros o l1 Hl1. destruct o as [[]|e]; [|by eapply Hraise]. destruct Hl1 as (_ & _ & R1 & S1). specialize (S1 eq_refl).
  apply wp_bind. eapply wp_mono; [|by apply wp_drained].
  intros o l2 Hl2. destruct o as [[]|e]; [|by eapply Hraise]. destruct Hl2 as (_ & _ & R2 & S2). specialize (S2 eq_refl).
  apply wp_bind. eapply wp_mono; [|by apply wp_checkpoint].
  intros o l3 Hl3. destruct o as [[]|e]; [|by eapply Hraise]. destruct Hl3 as (_ & _ & R3 & S3). specialize (S3 eq_refl).
  apply wp_bind, wp_mark_cleanup; [done|done|]. intros l4 S4 R4.
  apply wp_bind, wp_destroy; [done|done|]. intros o l5 S5 R5.
  eapply wp_mono; [|by apply wp_record_cleanup]. by intros o' l' [-> H].
Qed.

(** *** Finalization *)

(** Before it: an owner that succeeded has destroyed the strategy. *)
Definition ending (b : bool) l : Prop := framed l /\ (b = true -> at_stage l = Destroyed).

Lemma publish_close_attempt_tables a b c : exists w o t,
  publish_close_attempt a b c = wait_tables w o t (c <| close_complete := close_complete c || b || started c |>
    <| close_in_progress := false |> <| close_owner_token := None |>) /\
  forall a', o !! a' = Some true -> close_attempt_outcomes c !! a' = Some true \/ b = true.
Proof.
  unfold publish_close_attempt.
  replace (if b || started c then c <| close_complete := true |> else c)
    with (c <| close_complete := close_complete c || b || started c |>).
  2:{ rewrite <- orb_assoc. destruct (b || started c); [by rewrite orb_true_r|]. rewrite orb_false_r. by destruct c. }
  cbn. case_bool_decide.
  - exists (delete a (close_attempt_waiters c)), (delete a (close_attempt_outcomes c)), (delete a (close_attempt_terminal c)).
    split; [done|]. intros a' [_ H1]%lookup_delete_Some. auto.
  - exists (close_attempt_waiters c), (<[a:=b]> (close_attempt_outcomes c)),
      (<[a := started c]> (close_attempt_terminal c)). split; [by destruct c|].
    intros a' [[_ H1]|[_ H1]]%lookup_insert_Some; auto.
Qed.

Lemma wp_publish_attempt b w l : ending b l ->
  wp inv (atomically (publish_attempt (S := S) b w))
    (fun o l' => framed l' /\ (o = Ok tt -> b = true -> at_stage l' = Closed)) l.
Proof.
  intros ((Hf & Hd & Hr) & Hb). apply wp_atomically. intros fr [c st] o l' [c' st'] Hi. unfold publish_attempt.
  pose proof (mine_head _ _ _ _ Hi) as (Hk & Hm & Hl & _). specialize (Hl Hf).
  destruct (owns l c) eqn:Eo.
  2:{ intros [= <- <- <- <-]. split; [done|]. split; [done|]. intros _ Hbt. specialize (Hb Hbt).
      unfold owns_attempt in Hm. rewrite Hb in Hm. unfold owns in Eo. rewrite (Hm eq_refl) in Eo.
      by rewrite Nat.eqb_refl in Eo. }
  destruct w as [e|]; intros [= <- <- <- <-]; [by split|]. split; [|split_and!; try done; by destruct b].
  assert (Howner : exists t, close_owner_token c = Some (owner_token l, t)).
  { unfold owns in Eo. destruct (close_owner_token c) as [[tok t]|]; [|done]. apply Nat.eqb_eq in Eo as ->. by eexists. }
  destruct Howner as [t Howner]. pose proof (inv_base _ _ _ Hi) as Hbase.
  assert (Hbs : b = true -> started c = true).
  { intros Hbt. unfold knows in Hk. by rewrite (Hb Hbt) in Hk. }
  destruct (publish_close_attempt_tables (attempt l) b c) as (w & o & tt' & -> & Hout).
  assert (Hdone : b = true -> close_complete c || b || started c = true).
  { intros ->. by rewrite orb_true_r. }
  assert (Hold : close_complete c = true -> close_complete c || b || started c = true) by by intros ->.
  pose proof Hbase as []. apply (inv_step l fr c st); [done| | | | | |].
  - split; cbn; try done.
    + intros [[Hc|Hc]%orb_true_iff|Hc]%orb_true_iff; (split; [|done]); [by destruct (b_complete0 Hc)|by apply Hbs|done].
    + intros Hs. split; [by destruct (b_started0 Hs)|]. left. unfold started in Hs at 1. cbn in Hs.
      apply orb_true_iff. by right.
    + intros a Ha. destruct (Hout a Ha) as [Ho| ->]; [by apply Hold, (b_outcomes0 a)|by apply Hdone].
  - split_and!; cbn; try done; [|by destruct b|by rewrite Hr]. destruct b; cbn; [by rewrite orb_true_r|done].
  - intros x _ Hx Hne. apply (mine_other x c); [done| |done|done].
    destruct (owns_attempt x) eqn:Hox; [|done]. destruct Hx as (_ & Hx & _). specialize (Hx Hox).
    unfold is_owner in Hx. destruct Hne; [by apply owner_has_frame|done|congruence].
  - cbn. rewrite leased_framed by done. by rewrite leased_framed by by destruct b.
  - pose proof (frames_head _ _ _ Hi) as Hn. unfold frame_of in *. rewrite Hf in Hn. by destruct b.
  - rewrite (not_destroying l) by done. rewrite not_destroying by (cbn; by destruct b).
    unfold begun, started. cbn. done.
Qed.

Lemma wp_finalize b w l : ending b l ->
  wp inv (finalize (S := S) b w) (fun o l' => framed l' /\ (o = Ok tt -> b = true -> at_stage l' = Closed)) l.
Proof.
  intros He. apply wp_bind, wp_atomically. intros fr [c st] o l' [c' st'] Hi [= <- <- <- <-].
  split; [by apply inv_publish_cleanup|]. by apply wp_publish_attempt.
Qed.

(** A call that is not the owner finalizes without losing what it saw. *)
Lemma wp_finalize_closed w l : finished (Ok tt) l ->
  wp inv (finalize (S := S) false w) (fun _ => finished (Ok tt)) l.
Proof.
  intros ((Hf & Hd & Hr) & Hc). specialize (Hc eq_refl). apply wp_bind, wp_atomically.
  intros fr [c st] o l' [c' st'] Hi [= <- <- <- <-]. split; [by apply inv_publish_cleanup|].
  clear fr c st Hi. apply wp_atomically. intros fr [c st] o l' [c' st'] Hi. unfold publish_attempt.
  pose proof (mine_head _ _ _ _ Hi) as (Hk & _). unfold knows in Hk. rewrite Hc in Hk.
  apply (b_complete _ (inv_base _ _ _ Hi)) in Hk as [_ Hk]. unfold owns. rewrite Hk. by intros [= <- <- <- <-].
Qed.

Lemma finished_raise e l : framed l -> finished (Raise e) l.
Proof. by split. Qed.

Lemma select_failure_raise e f : exists e', select_failure (Raise e) f = Raise e'.
Proof. destruct f as [|f]; cbn; [by eexists|]. destruct (is_ordinary e); by eexists. Qed.

Lemma wp_close_body lossy w l : at_stage l = Framed -> result l = None ->
  wp inv (close_body (S := S) lossy w) finished l.
Proof.
  intros Hs Hr.
  assert (Hfail : forall e l1, framed l1 -> wp inv (ptry (finalize (S := S) false w)
    (fun f => Done (select_failure (Raise e) f))) finished l1).
  { intros e l1 Hl1. apply wp_try. eapply wp_mono; [|by apply wp_finalize]. intros f l2 [Hl2 _].
    destruct (select_failure_raise e f) as [e' He]. rewrite He. by apply finished_raise. }
  assert (Hdone : forall l1, finished (Ok tt) l1 -> wp inv (ptry (finalize (S := S) false w) (fun _ => pret tt)) finished l1).
  { intros l1 Hl1. apply wp_try. eapply wp_mono; [|by apply wp_finalize_closed]. done. }
  apply wp_bind. eapply wp_mono; [|by apply wp_request_close].
  intros o l1 [R1 Hl1]. destruct o as [[[[]|e]|a|]|e]; [by apply Hdone|by apply Hfail; destruct Hl1| | |done].
  - apply wp_try. eapply wp_mono; [|by apply wp_await]. intros [[]|e] l2 Hl2; [by apply Hdone|].
    apply Hfail. by destruct Hl2.
  - apply wp_try. eapply wp_mono; [|by apply wp_tear_down]. intros o l2 (O2 & D2 & R2 & S2).
    apply wp_try. eapply wp_mono; [|apply wp_finalize].
    + intros f l3 [F3 C3]. destruct o as [[]|e].
      * cbn in C3. split; [done|]. cbn. intros ->. by apply C3.
      * destruct (select_failure_raise e f) as [e' He]. rewrite He. by apply finished_raise.
    + split; [split_and!; try done; by apply owner_has_frame|]. destruct o as [[]|e]; [|done]. by intros _; apply S2.
Qed.

Lemma wp_close lossy w t : wp inv (close (S := S) lossy w) (fun _ _ => True) (fresh t).
Proof.
  apply wp_bind, wp_open_frame; [|done]. intros l Hs Hr. apply wp_try.
  eapply wp_mono; [|by apply wp_close_body]. intros o l' Hl. by apply wp_close_frame.
Qed.

(** *** Every interleaving *)
Lemma start_safe l p : start (S := S) l p -> wp inv p (fun _ _ => True) l.
Proof.
  intros []; [apply wp_operate|apply wp_settlement|apply wp_close|apply wp_reset].
Qed.

Lemma start_fresh l p : start (S := S) l p -> exists t, l = fresh t.
Proof. intros []; by eexists. Qed.

Lemma inv_spawn l p ls g : start l p -> inv ls g -> inv (l :: ls) g.
Proof.
  intros [t ->]%start_fresh [H1 H2 H3 H4 H5]. by split; [done|constructor|..].
Qed.

Lemma inv_initial st : inv [] (init, st).
Proof.
  split; cbn; [|constructor|done|constructor|done].
  assert (Hn : forall e : event, ~ e ∈ @nil event) by (intros e H; by apply elem_of_nil in H).
  split; cbn; try done.
  - split; [done|]. by intros []%Hn.
  - split; [done|]. by intros [[]%Hn|[]%Hn].
  - by intros []%Hn.
Qed.

Definition reachable (st : S) (x : pool call (closer * S)) : Prop := rtc (pstep start) ([], (init, st)) x.

Lemma reachable_inv st ts g : reachable st (ts, g) -> inv (map fst ts) g.
Proof.
  intros Hr. assert (Hs : safe_pool inv (ts, g)).
  { apply (safe_pool_steps (L := call) (G := closer * S) start inv inv_perm start_safe inv_spawn ([], (init, st))); [|done].
    split; [apply inv_initial|constructor]. }
  apply Hs.
Qed.

(** ** Consequences *)

Lemma only_operated h : BeganClose ∉ h -> Persisted ∉ h -> DiscardedState ∉ h -> Cleaned ∉ h ->
  exists n, h = replicate n Operated.
Proof.
  induction h as [|e h IH]; intros H1 H2 H3 H4; [by exists 0%nat|].
  rewrite elem_of_cons in H1, H2, H3, H4. destruct IH as [n ->]; [tauto..|].
  exists (Datatypes.S n). destruct e; [done|tauto..].
Qed.

(** The shapes a history can have, newest call first. *)
Definition lifecycle_shape h : Prop :=
  (exists n, h = replicate n Operated) \/
  exists n m, let closing := replicate n Operated ++ BeganClose :: replicate m Operated in
    h = closing \/
    exists e, (e = Persisted \/ e = DiscardedState) /\ (h = e :: closing \/ h = Cleaned :: e :: closing).

Lemma orderly_shape h : orderly h -> lifecycle_shape h.
Proof.
  induction h as [|e h IH]; [by left; exists 0%nat|]. intros [He Hh%IH]. unfold lifecycle_shape. destruct e; cbn in He.
  - destruct He as (N1 & N2 & N3). destruct Hh as [[n ->]|(n & m & [->|(e & He & [->| ->])])].
    + left. by exists (Datatypes.S n).
    + right. exists (Datatypes.S n), m. by left.
    + destruct He as [-> | ->]; [destruct N1|destruct N2]; by left.
    + destruct N3. by left.
  - destruct He as (N1 & N2 & N3 & N4). destruct (only_operated h N1 N2 N3 N4) as [m ->].
    right. exists 0%nat, m. by left.
  - destruct He as (Y & N2 & N3 & N4). destruct Hh as [[n ->]|(n & m & [->|(e & He & [->| ->])])].
    + by apply elem_of_replicate in Y as [? _].
    + right. exists n, m. right. exists Persisted. auto.
    + destruct He as [-> | ->]; [destruct N2|destruct N3]; by left.
    + destruct N4. by left.
  - destruct He as (Y & N2 & N3 & N4). destruct Hh as [[n ->]|(n & m & [->|(e & He & [->| ->])])].
    + by apply elem_of_replicate in Y as [? _].
    + right. exists n, m. right. exists DiscardedState. auto.
    + destruct He as [-> | ->]; [destruct N2|destruct N3]; by left.
    + destruct N4. by left.
  - destruct He as (Y & Z & N). destruct Hh as [[n ->]|(n & m & [->|(e & He & [->| ->])])].
    + by apply elem_of_replicate in Y as [? _].
    + exfalso. rewrite !elem_of_app, !elem_of_cons, !elem_of_replicate in Z. naive_solver.
    + right. exists n, m. right. exists e. auto.
    + destruct N. by left.
Qed.

(** C30. The strategy's life, in every interleaving of operations, settlements,
    closes and resets, whatever they raise: operations, at most one accepted
    [begin_close], the operations admitted before, at most one checkpoint or
    explicit discard, at most one [close], and nothing after it.  From the
    checkpoint on the queue is drained: nothing is admitted, in flight or
    waiting for settlement. *)
Theorem lifecycle_order st ts c st' (Hr : reachable st (ts, (c, st'))) :
  lifecycle_shape (history c) /\
  (Persisted ∈ history c \/ DiscardedState ∈ history c ->
     accepting_operations (c_gate c) = false /\ active_operations (c_gate c) = 0 /\ pending c = ∅).
Proof.
  apply reachable_inv in Hr as [Hb _ _ _ _]. cbn in Hb. split; [by apply orderly_shape, b_orderly|].
  intros Hh. apply (b_checkpoint_h _ Hb) in Hh. by apply (b_checkpoint _ Hb) in Hh as [Hq _].
Qed.

(** A close that returns means it: the queue is terminally closed and the
    strategy was destroyed, whoever did it.  A waiter is never told a success
    that did not happen. *)
Theorem close_returns_closed st ts c st' l p (Hr : reachable st (ts, (c, st'))) (Hl : (l, p) ∈ ts)
    (Hok : result l = Some (Ok tt)) :
  close_complete c = true /\ Cleaned ∈ history c.
Proof.
  apply reachable_inv in Hr as [Hb Hm _ _ Hd]. cbn in Hb, Hm, Hd. rewrite Forall_forall in Hm.
  assert (Hin : l ∈ map fst ts) by (apply list_elem_of_fmap; by exists (l, p)).
  assert (Hc : close_complete c = true) by by apply (Hm l Hin). split; [done|].
  apply (b_complete _ Hb) in Hc as [Hs Ho]. unfold begun in Hd. rewrite Hs in Hd.
  assert (Hz : sum_list_with destroying (map fst ts) = 0%nat).
  { revert Hm. clear -Ho. induction (map fst ts) as [|x xs IH]; intros Hm; [done|]. cbn. rewrite IH.
    - destruct (decide (at_stage x = Destroying)) as [Ex|Ex]; [|by rewrite not_destroying].
      destruct (Hm x ltac:(by left)) as (_ & Hx & _). unfold owns_attempt, is_owner in Hx. rewrite Ex, Ho in Hx. by specialize (Hx eq_refl).
    - intros y Hy. apply Hm. by right. }
  rewrite Hz in Hd. unfold cleaned in Hd. by case_bool_decide.
Qed.

(** ** One close, undisturbed *)

(** How far the queue is, as the next close sees it. *)
Record progress := Progress { p_began : bool; p_saved : bool; p_cleanup : cleanup }.
Definition progress_of c : progress :=
  Progress (begin_close_complete c) (checkpoint_complete c) (strategy_cleanup_state c).

(** The specification: every step at most once, kept over retries, and the
    destruction only behind the other two. *)
Definition close_spec (lossy : bool) : M (progress * S) unit := fun '(p, st) =>
  match (if p_began p then (Ok tt, st) else begin_close st) with
  | (Raise e, st1) => (Raise e, (p, st1))
  | (Ok _, st1) =>
      let p := Progress true (p_saved p) (p_cleanup p) in
      match (if p_saved p || lossy then (Ok tt, st1) else persist_snapshot st1) with
      | (Raise e, st2) => (Raise e, (p, st2))
      | (Ok _, st2) =>
          let '(o, st3) := strategy_close st2 in (o, (Progress true true (cleanup_outcome o), st3))
      end
  end.

(** Nothing is in flight; nobody else is closing either. *)
Definition resting c : Prop := active_operations (c_gate c) <= 0 /\ pending c = ∅.
Definition idle (t : nat) c : Prop :=
  live_frames c = ∅ /\ resting c /\ default 0 (active_operation_threads (c_gate c) !! t) <= 0.

Lemma run_drained w l c st : resting c ->
  run (bounded_drain_wait (busy (S := S)) (reactor_io_timeout w) "backend-queue-close-drain" (drain_started w)
    (drain_wakes w) drained) l (c, st) = Some (Ok tt, (l <| at_stage := Drained |>, (c, st))).
Proof.
  intros [H1 H2]. assert (Hb : busy (c, st) = false).
  { unfold busy. cbn. rewrite H2, bool_decide_true by done. apply orb_false_iff. split; [|done].
    by apply Z.ltb_ge. }
  unfold bounded_drain_wait. destruct (drain_wakes w); cbn [drain_loop]; [rewrite run_section; [done|]|]; cbn -[busy]; by rewrite Hb.
Qed.

Lemma progress_eta p : Progress (p_began p) (p_saved p) (p_cleanup p) = p.
Proof. by destruct p. Qed.

(** The fields an attempt writes. *)
Definition advance (p : progress) h c : closer :=
  c <| begin_close_complete := p_began p |> <| checkpoint_complete := p_saved p |>
    <| strategy_cleanup_state := p_cleanup p |> <| history := h |>.
Definition stage_only l l' : Prop := owner_token l' = owner_token l /\ attempt l' = attempt l.


Definition destroying_steps : CP (S := S) unit :=
  let? _ := atomically mark_cleanup in let? o := atomically destroy in atomically (record_cleanup o).
Definition saving_steps (lossy : bool) (w : weather) : CP (S := S) unit :=
  let? _ := bounded_drain_wait (busy (S := S)) (reactor_io_timeout w) "backend-queue-close-drain" (drain_started w)
    (drain_wakes w) drained in
  let? _ := atomically (checkpoint lossy) in destroying_steps.

Definition destroy_spec (st : S) : outcome unit * (progress * S) :=
  let '(o, st') := strategy_close st in (o, (Progress true true (cleanup_outcome o), st')).
Definition save_spec (lossy saved : bool) (st : S) : outcome unit * (progress * S) :=
  match (if saved || lossy then (Ok tt, st) else persist_snapshot st) with
  | (Raise e, st') => (Raise e, (Progress true saved NotStarted, st'))
  | (Ok _, st') => destroy_spec st'
  end.

(** What a run of some steps on [c] computed, up to the history. *)
Definition computes (steps : CP (S := S) unit) l c0 c st (spec : outcome unit * (progress * S)) : Prop :=
  let '(o, (p, st')) := spec in
  exists l' h, run steps l (c, st) = Some (o, (l', (advance p h c0, st'))) /\ stage_only l l' /\
    (is_ok o = true -> p_cleanup p <> NotStarted) /\ p_cleanup p <> Started.

Lemma destroy_alone l h c st :
  computes destroying_steps l c (advance (Progress true true NotStarted) h c) st (destroy_spec st).
Proof.
  unfold computes, destroy_spec, destroying_steps. destruct (strategy_close st) as [o st'] eqn:Ec.
  rewrite run_bind, run_atomically. unfold mark_cleanup. rewrite run_bind, run_atomically. unfold destroy.
  rewrite Ec, run_atomically. unfold record_cleanup. eexists _, _. split; [reflexivity|]. split; [by split|].
  destruct o as [[]|e]; [done|]. cbn. by destruct (is_ordinary e).
Qed.

Lemma save_alone lossy saved w l h c st : resting c ->
  computes (saving_steps lossy w) l c (advance (Progress true saved NotStarted) h c) st (save_spec lossy saved st).
Proof.
  intros Hidle. assert (Hidle' : resting (advance (Progress true saved NotStarted) h c)) by exact Hidle.
  assert (Hrun : forall x, run (let? _ := atomically (checkpoint lossy) in destroying_steps) (l <| at_stage := Drained |>)
      (advance (Progress true saved NotStarted) h c, st) = x -> run (saving_steps lossy w) l
      (advance (Progress true saved NotStarted) h c, st) = x).
  { intros x <-. unfold saving_steps. by rewrite run_bind, (run_drained _ _ _ _ Hidle'). }
  assert (Hend : forall h' st', run (let? _ := atomically (checkpoint lossy) in destroying_steps) (l <| at_stage := Drained |>)
      (advance (Progress true saved NotStarted) h c, st) = run destroying_steps (l <| at_stage := Drained |> <| at_stage := Checkpointed |>)
      (advance (Progress true true NotStarted) h' c, st') ->
      computes (saving_steps lossy w) l c (advance (Progress true saved NotStarted) h c) st (destroy_spec st')).
  { intros h' st' E. pose proof (destroy_alone (l <| at_stage := Drained |> <| at_stage := Checkpointed |>) h' c st') as Hd.
    unfold computes in *. destruct (destroy_spec st') as [o [p st2]]. destruct Hd as (l' & h2 & H1 & H2 & H3).
    exists l', h2. split; [|by split]. apply Hrun. by rewrite E. }
  unfold save_spec. destruct saved; cbn [orb]; [|destruct lossy; cbn [orb]; [|destruct (persist_snapshot st) as [[[]|e] st'] eqn:Ep]].
  - apply (Hend h). by rewrite run_bind, run_atomically.
  - apply (Hend (DiscardedState :: h)). by rewrite run_bind, run_atomically.
  - apply (Hend (Persisted :: h)). rewrite run_bind, run_atomically. unfold checkpoint. cbn [checkpoint_complete advance]. by rewrite Ep.
  - exists (l <| at_stage := Drained |>), h. split; [|by split]. apply Hrun. rewrite run_bind, run_atomically.
    unfold checkpoint. cbn. by rewrite Ep.
Qed.

Lemma tear_down_alone lossy w l c st : resting c -> started c = false ->
  computes (tear_down lossy w) l c c st (close_spec lossy (progress_of c, st)).
Proof.
  intros Hidle Hst. unfold started in Hst. apply negb_false_iff, bool_decide_eq_true_1 in Hst.
  assert (Hc : c = advance (Progress (begin_close_complete c) (checkpoint_complete c) NotStarted) (history c) c).
  { unfold advance. cbn. rewrite <- Hst. by destruct c. }
  assert (Hend : forall h' st', run (tear_down lossy w) l (c, st) = run (saving_steps lossy w) (l <| at_stage := Stopped |>)
      (advance (Progress true (checkpoint_complete c) NotStarted) h' c, st') ->
      computes (tear_down lossy w) l c c st (save_spec lossy (checkpoint_complete c) st')).
  { intros h' st' E. pose proof (save_alone lossy (checkpoint_complete c) w (l <| at_stage := Stopped |>) h' c st' Hidle) as Hd.
    unfold computes in *. destruct (save_spec _ _ st') as [o [p st2]]. destruct Hd as (l' & h2 & H1 & H2 & H3).
    exists l', h2. split; [|by split]. by rewrite E. }
  unfold close_spec, progress_of. cbn [p_began p_saved p_cleanup]. rewrite Hst.
  destruct (begin_close_complete c) eqn:Eb; [|destruct (begin_close st) as [[[]|e] st1] eqn:Ebc].
  - apply (Hend (history c)). rewrite <- Hc. unfold tear_down. rewrite run_bind, run_atomically. unfold stop_strategy. by rewrite Eb.
  - apply (Hend (BeganClose :: history c)). unfold tear_down. rewrite run_bind, run_atomically. unfold stop_strategy. rewrite Eb, Ebc.
    f_equal. f_equal. rewrite Hc at 1. done.
  - exists l, (history c). rewrite <- Hc. split; [|by split]. unfold tear_down. rewrite run_bind, run_atomically.
    unfold stop_strategy. by rewrite Eb, Ebc.
Qed.

(** The frame of an undisturbed close on a retryable queue becomes the owner,
    of a free attempt or of one whose owner is gone. *)
Definition opened c : closer :=
  c <| live_frames ::= fun f => f ∪ {[ next_token c ]} |> <| next_token ::= Datatypes.S |>.
Definition framed_call t c : call := fresh t <| owner_token := next_token c |> <| at_stage := Framed |>.
Definition owned t c : closer := snd (take_ownership (framed_call t c) (opened c)).

Lemma own_alone t c st : base c -> live_frames c = ∅ -> close_complete c = false -> started c = false ->
  request_close (framed_call t c, (opened c, st)) =
    (Ok Owns, (fst (take_ownership (framed_call t c) (opened c)), (owned t c, st))).
Proof.
  intros Hb Hl Hc Hs. unfold request_close. cbn [close_complete]. change (close_complete (opened c)) with (close_complete c).
  change (close_in_progress (opened c)) with (close_in_progress c). rewrite Hc.
  destruct (close_in_progress c) eqn:Ep; [|done].
  change (strategy_cleanup_state (opened c)) with (strategy_cleanup_state c).
  unfold started in Hs. apply negb_false_iff, bool_decide_eq_true_1 in Hs. rewrite Hs.
  change (close_owner_token (opened c)) with (close_owner_token c).
  destruct (close_owner_token c) as [[tok u]|] eqn:Eo; [|done]. unfold active.
  rewrite bool_decide_false; [done|]. cbn. rewrite Hl, elem_of_union, elem_of_singleton. intros [?|E]; [set_solver|].
  destruct (b_owner _ Hb _ _ Eo). lia.
Qed.

(** C31. One undisturbed close of a queue that is not terminally closed, in any
    reachable state and whatever earlier closes left behind, computes its
    specification: each step that an earlier attempt completed is skipped, a
    failure keeps the steps before it, the destruction is last and final.  It
    ends, and leaves the queue retryable or closed. *)
Theorem close_alone st0 ts c st t lossy w (Hr : reachable st0 (ts, (c, st))) (Hidle : idle t c)
    (Hc : close_complete c = false) (Hs : started c = false) (Hw : last_gate w = None) :
  exists o l' c' st', run (close lossy w) (fresh t) (c, st) = Some (o, (l', (c', st'))) /\
    close_spec lossy (progress_of c, st) = (o, (progress_of c', st')) /\
    close_complete c' = started c' /\ close_in_progress c' = false /\ idle t c'.
Proof.
  apply reachable_inv in Hr as [Hb _ _ _ _]. cbn in Hb. pose proof Hidle as (I1 & I2 & I3).
  unfold close. rewrite run_bind, run_atomically. unfold open_frame.
  rewrite bool_decide_false by (cbn; lia). rewrite run_try.
  unfold close_body. rewrite run_bind, run_atomically.
  change (fresh t <| owner_token := next_token c |> <| at_stage := Framed |>) with (framed_call t c).
  change (c <| live_frames ::= fun f => f ∪ {[ next_token c ]} |> <| next_token ::= Datatypes.S |>) with (opened c).
  rewrite own_alone by done. rewrite run_try.
  pose proof (tear_down_alone lossy w (fst (take_ownership (framed_call t c) (opened c))) (owned t c) st) as Ht.
  unfold computes in Ht. change (progress_of (owned t c)) with (progress_of c) in Ht.
  destruct (close_spec lossy (progress_of c, st)) as [o [p st1]] eqn:Espec. destruct Ht as (l1 & h & Hrun & [T1 T2] & Hok & Hne).
  { exact I2. } { exact Hs. }
  rewrite Hrun, run_try. unfold finalize. rewrite run_bind, run_atomically. unfold repair_cleanup, publish_cleanup at 1.
  rewrite (bool_decide_false (strategy_cleanup_state _ = Started)) by exact Hne.
  rewrite run_atomically. unfold publish_attempt, owns. cbn [close_owner_token advance owned].
  change (close_owner_token (advance p h (owned t c))) with (Some (next_token c, t)).
  assert (Htok : owner_token l1 = next_token c) by done. rewrite Htok, Nat.eqb_refl, Hw.
  destruct (publish_close_attempt_tables (attempt l1) (is_ok o) (advance p h (owned t c))) as (w1 & o1 & t1 & -> & _).
  set (c2 := wait_tables _ _ _ _).
  assert (Hsel : forall x, select_failure x (Ok tt) = x) by by intros [[]|].
  rewrite Hsel. cbn [run]. rewrite run_atomically. unfold close_frame.
  exists o. eexists _, _, st1. split; [reflexivity|]. split.
  { do 2 f_equal. symmetry. apply progress_eta. }
  split_and!; try done.
  - cbn. rewrite Hc. cbn. destruct o as [[]|e]; cbn; [|done]. unfold started. cbn. specialize (Hok eq_refl).
    by rewrite bool_decide_false.
  - unfold idle, resting. cbn. rewrite Htok. split_and!; [set_solver|apply I2..|done].
Qed.
End Facts.

Module Examples.

(** A strategy whose checkpoint fails a number of times. *)
Record strategy := Strategy { failures : nat; saved : bool; closed : nat }.
#[export] Instance toy : Lifecycle strategy := {|
  begin_close s := (Ok tt, s);
  persist_snapshot s := match failures s with
    | O => (Ok tt, Strategy 0 true (closed s))
    | Datatypes.S n => (Raise (EQueue ""), Strategy n (saved s) (closed s))
    end;
  strategy_close s := (Ok tt, Strategy (failures s) (saved s) (Datatypes.S (closed s)));
  unfence s := s
|}.
Definition calm : weather := Weather (float_of_Z 1) fzero [] [] None.
Definition strategy0 : strategy := Strategy 0 false 0.
Definition start0 : pool call (closer * strategy) := ([], (init, strategy0)).

Definition go (i n : nat) : list (Conc.choice call (closer * strategy)) := replicate n (Go i).
(** A push is admitted, a close begins, the push ends, the close goes on. *)
Definition orderly_schedule : list (Conc.choice call (closer * strategy)) :=
  Spawn (fresh 1) (operate "push" (ret tt) false) :: go 0 1 ++ Spawn (fresh 2) (close false calm) :: go 1 3 ++ go 0 2 ++ go 1 8.

Lemma orderly_schedule_reachable : reachable strategy0 (after orderly_schedule start0).
Proof.
  apply runs_steps; [|by vm_compute]. repeat (constructor; [first [exact Logic.I | apply (start_operation 1) | apply (start_close 2)]|]).
  constructor.
Qed.

Lemma lifecycle_order_witness :
  history (fst (snd (after orderly_schedule start0))) = [Cleaned; Persisted; Operated; BeganClose] /\
  pending (fst (snd (after orderly_schedule start0))) = ∅.
Proof.
  split; [by vm_compute|]. pose proof orderly_schedule_reachable as Hr.
  destruct (after orderly_schedule start0) as [ts [c st']] eqn:E. destruct (lifecycle_order strategy0 ts c st' Hr) as [_ H].
  assert (Hh : history c = [Cleaned; Persisted; Operated; BeganClose]).
  { transitivity (history (fst (snd (after orderly_schedule start0)))); [by rewrite E|by vm_compute]. }
  apply H. rewrite Hh. left. right. left.
Defined.

Lemma close_returns_closed_witness :
  close_complete (fst (snd (after orderly_schedule start0))) = true.
Proof.
  pose proof orderly_schedule_reachable as Hr.
  destruct (after orderly_schedule start0) as [ts [c st']] eqn:E.
  assert (Hl : exists l p, (l, p) ∈ ts /\ result l = Some (Ok tt)).
  { assert (Hb : match fst (after orderly_schedule start0) !! 1%nat with
               | Some (l, _) => bool_decide (result l = Some (Ok tt)) | None => false end = true) by by vm_compute.
    rewrite E in Hb. cbn in Hb. destruct (ts !! 1%nat) as [[l p]|] eqn:Et; [|done].
    exists l, p. split; [by eapply list_elem_of_lookup_2|by apply bool_decide_eq_true_1 in Hb]. }
  destruct Hl as (l & p & Hl & Hok). exact (proj1 (close_returns_closed strategy0 ts c st' l p Hr Hl Hok)).
Defined.

(** A failed checkpoint keeps what the close did before it. *)
Lemma close_alone_witness :
  exists o c', close_spec false (progress_of init, Strategy 1 false 0) = (o, (progress_of c', Strategy 0 false 0)) /\
    o = Raise (EQueue "") /\ close_complete c' = false.
Proof.
  destruct (close_alone (Strategy 1 false 0) [] init (Strategy 1 false 0) 7 false calm) as (o & l' & c' & st' & _ & H & Hc & _).
  - apply rtc_refl.
  - by split_and!.
  - done.
  - done.
  - done.
  - exists o, c'. cbn in H. injection H as Ho Hp1 Hp2 Hp3 Hst. split; [|split; [done|]].
    + cbn. rewrite <- Ho. unfold progress_of. by rewrite <- Hp1, <- Hp2, <- Hp3.
    + rewrite Hc. unfold started. by rewrite <- Hp3.
Defined.

(** A close that re-enters from the strategy's own [close] is refused, but its
    finalization overwrites the state of the cleanup in progress: the owner
    succeeds and the cleanup stays indeterminate. *)
Definition reentrant_schedule : list (Conc.choice call (closer * strategy)) :=
  Spawn (fresh 1) (close false calm) :: go 0 6 ++ Spawn (fresh 1) (close false calm) :: go 1 5 ++ go 0 5.
Example overwritten_cleanup :
  match after reentrant_schedule start0 with
  | ([(l1, _); (l2, _)], (c, st)) =>
      bool_decide (result l1 = Some (Ok tt) /\ result l2 = Some (Raise (EQueue "")) /\ closed st = 1%nat /\
                   strategy_cleanup_state c = Indeterminate)
  | _ => false
  end = true.
Proof. by vm_compute. Qed.
End Examples.
End QueueCloseFacts.
