(* ===== verification/Generation.v ===== *)
(** * Generation leases

    backends/_generation.py: publishing, leasing, retiring and draining the
    generations of a backend client.  The gate's condition makes each method's
    critical section atomic; operations run, and finalizers (which close the
    retired handles) run, outside it.  [step] interleaves the critical sections
    of any number of threads. *)

From S2P Require Export Prelude.

Module Generation.
(** [GenerationRecord]; the record's identity is its generation number, its
    value is opaque. *)
Record record := Rec {
  accepting : bool;
  active_leases : Z;
  active_threads : gmap nat Z;
  deferred_finalizers : list nat;
  finalizer_registered : bool;
  finalization_errors : list exn
}.

Definition fresh_record : record := Rec true 0 ∅ [] false [].

(** The gate and the records reachable from it or from its users. *)
Record gate := Gate {
  next_generation : Z; current : option Z; heap : gmap Z record
}.

Definition init : gate := Gate 0 None ∅.

Definition rec_at (g : gate) (n : Z) : record := default fresh_record (heap g !! n).
Definition update (g : gate) (n : Z) (r : record) : gate :=
  Gate (next_generation g) (current g) (<[n := r]> (heap g)).

Definition publish (g : gate) : Z * gate :=
  let fresh :=
    let n := next_generation g + 1 in
    (n, Gate n (Some n) (<[n := fresh_record]> (heap g))) in
  match current g with
  | Some n => if accepting (rec_at g n) then (n, g) else fresh
  | None => fresh
  end.

Definition retire (g : gate) : option Z * gate :=
  match current g with
  | None => (None, g)
  | Some n =>
      let r := rec_at g n in
      let g := update g n (Rec false (active_leases r) (active_threads r) (deferred_finalizers r)
                             (finalizer_registered r) (finalization_errors r)) in
      (Some n, Gate (next_generation g) None (heap g))
  end.

(** ** [lease] *)
Definition thread_leases (r : record) (t : nat) : Z := default 0 (active_threads r !! t).

Definition lease_enter (t : nat) : M gate Z := fun g =>
  match current g with
  | Some n =>
      let r := rec_at g n in
      if accepting r then
        (Ok n, update g n (Rec (accepting r) (active_leases r + 1)
                             (<[t := thread_leases r t + 1]> (active_threads r))
                             (deferred_finalizers r) (finalizer_registered r)
                             (finalization_errors r)))
      else (Raise EGenerationUnavailable, g)
  | None => (Raise EGenerationUnavailable, g)
  end.

(** The [finally] block: the finalizers to run once the lock is released. *)
Definition lease_exit (t : nat) (n : Z) (g : gate) : list nat * gate :=
  let r := rec_at g n in
  let leases := if 0 <? active_leases r then active_leases r - 1 else active_leases r in
  let owned := thread_leases r t in
  let threads := if owned <=? 1 then delete t (active_threads r)
                 else <[t := owned - 1]> (active_threads r) in
  if leases =? 0 then
    (deferred_finalizers r,
     update g n (Rec (accepting r) leases threads [] (finalizer_registered r) (finalization_errors r)))
  else
    ([], update g n (Rec (accepting r) leases threads (deferred_finalizers r)
                       (finalizer_registered r) (finalization_errors r))).

(** ** [drain] *)

(** The waiting loop is left when only the caller's own leases remain. *)
Definition drained_for (t : nat) (n : Z) (g : gate) : bool :=
  active_leases (rec_at g n) <=? thread_leases (rec_at g n) t.

(** The registration after the wait: whether to run the finalizer now. *)
Definition register (n : Z) (finalizer : nat) (g : gate) : bool * gate :=
  let r := rec_at g n in
  if finalizer_registered r then (false, g)
  else if active_leases r =? 0 then
    (true, update g n (Rec (accepting r) (active_leases r) (active_threads r)
                         (deferred_finalizers r) true (finalization_errors r)))
  else
    (false, update g n (Rec (accepting r) (active_leases r) (active_threads r)
                          (deferred_finalizers r ++ [finalizer]) true (finalization_errors r))).

(** [_run_finalizer]: an error is recorded on the generation, never raised. *)
Definition run_finalizer (n : Z) (o : outcome unit) (g : gate) : gate :=
  match o with
  | Ok _ => g
  | Raise e =>
      let r := rec_at g n in
      update g n (Rec (accepting r) (active_leases r) (active_threads r) (deferred_finalizers r)
                    (finalizer_registered r) (finalization_errors r ++ [e]))
  end.

(** ** Interleavings

    [held]: the leases in progress, by thread and generation; [due]: finalizers
    a thread has left the lock with; [ran]: finalizers already run. *)
Record sys := Sys {
  the : gate; held : list (nat * Z); due : list (Z * nat); ran : list (Z * nat)
}.

Inductive step : sys -> sys -> Prop :=
  | step_publish g h d r : step (Sys g h d r) (Sys (snd (publish g)) h d r)
  | step_retire g h d r : step (Sys g h d r) (Sys (snd (retire g)) h d r)
  | step_enter g h d r t n g' : lease_enter t g = (Ok n, g') ->
      step (Sys g h d r) (Sys g' ((t, n) :: h) d r)
  | step_exit g h1 t n h2 d r :
      step (Sys g (h1 ++ (t, n) :: h2) d r)
        (Sys (snd (lease_exit t n g)) (h1 ++ h2) (d ++ map (pair n) (fst (lease_exit t n g))) r)
  | step_drain g h d r t n f :
      is_Some (heap g !! n) -> accepting (rec_at g n) = false -> drained_for t n g = true ->
      step (Sys g h d r)
        (Sys (snd (register n f g)) h (d ++ if fst (register n f g) then [(n, f)] else []) r)
  | step_finalize g h d1 n f d2 r o :
      step (Sys g h (d1 ++ (n, f) :: d2) r) (Sys (run_finalizer n o g) h (d1 ++ d2) (r ++ [(n, f)])).

(** Counting. *)
Definition leases_of (h : list (nat * Z)) (n : Z) : Z :=
  Z.of_nat (length (List.filter (fun x => snd x =? n) h)).
Definition threads_of (h : list (nat * Z)) (t : nat) (n : Z) : Z :=
  Z.of_nat (length (List.filter (fun x => bool_decide (fst x = t) && (snd x =? n)) h)).
Definition finalizers_of (l : list (Z * nat)) (n : Z) : nat :=
  length (List.filter (fun x => fst x =? n) l).

Record inv (y : sys) : Prop := {
  (* every record in the heap was published, only the current one may accept *)
  inv_fresh : forall n, next_generation (the y) < n -> heap (the y) !! n = None;
  inv_current : forall n, current (the y) = Some n -> is_Some (heap (the y) !! n);
  inv_accepting : forall n r, heap (the y) !! n = Some r -> accepting r = true ->
    current (the y) = Some n;
  (* the counters are exact *)
  inv_leases : forall n, active_leases (rec_at (the y) n) = leases_of (held y) n;
  inv_threads : forall t n, thread_leases (rec_at (the y) n) t = threads_of (held y) t n;
  inv_held : forall t n, (t, n) ∈ held y -> is_Some (heap (the y) !! n);
  (* one finalizer per generation, waiting for the last lease *)
  inv_once : forall n,
    (length (deferred_finalizers (rec_at (the y) n)) + finalizers_of (due y) n
     + finalizers_of (ran y) n
     = if finalizer_registered (rec_at (the y) n) then 1 else 0)%nat;
  inv_registered : forall n, finalizer_registered (rec_at (the y) n) = true ->
    is_Some (heap (the y) !! n) /\ accepting (rec_at (the y) n) = false;
  inv_deferred : forall n, deferred_finalizers (rec_at (the y) n) <> [] -> 0 < leases_of (held y) n;
  inv_closed : forall n, (0 < finalizers_of (due y) n + finalizers_of (ran y) n)%nat ->
    leases_of (held y) n = 0
}.

Lemma rec_at_update g n r m : rec_at (update g n r) m = if decide (m = n) then r else rec_at g m.
Proof.
  unfold rec_at, update. cbn. destruct (decide (m = n)) as [-> | Hne].
  - by rewrite lookup_insert_eq.
  - by rewrite lookup_insert_ne.
Qed.

Lemma leases_of_cons t n h m : leases_of ((t, n) :: h) m = leases_of h m + if n =? m then 1 else 0.
Proof. unfold leases_of. cbn. destruct (n =? m); cbn; lia. Qed.

Lemma leases_of_remove h1 t n h2 m :
  leases_of (h1 ++ (t, n) :: h2) m = leases_of (h1 ++ h2) m + if n =? m then 1 else 0.
Proof. unfold leases_of. rewrite !List.filter_app, !length_app. cbn. destruct (n =? m); cbn; lia. Qed.

Lemma finalizers_of_app l1 l2 n : finalizers_of (l1 ++ l2) n = (finalizers_of l1 n + finalizers_of l2 n)%nat.
Proof. unfold finalizers_of. by rewrite List.filter_app, length_app. Qed.

Lemma finalizers_of_map n fs m :
  finalizers_of (map (pair n) fs) m = if n =? m then length fs else 0%nat.
Proof.
  unfold finalizers_of. induction fs as [|f fs IH]; cbn; [by destruct (n =? m)|].
  destruct (n =? m); cbn; by rewrite IH.
Qed.

Lemma finalizers_of_one n f m : finalizers_of [(n, f)] m = if n =? m then 1%nat else 0%nat.
Proof. unfold finalizers_of. cbn. by destruct (n =? m). Qed.

Lemma leases_nonneg h n : 0 <= leases_of h n.
Proof. unfold leases_of. lia. Qed.

Lemma threads_of_cons t n h u m :
  threads_of ((t, n) :: h) u m = threads_of h u m + if bool_decide (t = u) && (n =? m) then 1 else 0.
Proof. unfold threads_of. cbn. destruct (bool_decide (t = u) && (n =? m)); cbn; lia. Qed.

Lemma threads_of_remove h1 t n h2 u m :
  threads_of (h1 ++ (t, n) :: h2) u m =
    threads_of (h1 ++ h2) u m + if bool_decide (t = u) && (n =? m) then 1 else 0.
Proof.
  unfold threads_of. rewrite !List.filter_app, !length_app. cbn.
  destruct (bool_decide (t = u) && (n =? m)); cbn; lia.
Qed.

Lemma threads_le_leases h t n : 0 <= threads_of h t n <= leases_of h n.
Proof.
  unfold threads_of, leases_of. induction h as [|[u m] h IH]; cbn; [lia|].
  destruct (bool_decide (u = t)), (m =? n); cbn; lia.
Qed.

(** A step that rewrites one published record. *)
Lemma inv_update y n r h d l :
  inv y -> is_Some (heap (the y) !! n) ->
  (accepting r = true -> accepting (rec_at (the y) n) = true) ->
  (forall m, m <> n -> leases_of h m = leases_of (held y) m) ->
  (forall t m, m <> n -> threads_of h t m = threads_of (held y) t m) ->
  (forall m, m <> n -> finalizers_of d m = finalizers_of (due y) m) ->
  (forall m, m <> n -> finalizers_of l m = finalizers_of (ran y) m) ->
  active_leases r = leases_of h n ->
  (forall t, thread_leases r t = threads_of h t n) ->
  (forall t m, (t, m) ∈ h -> m = n \/ (t, m) ∈ held y) ->
  (length (deferred_finalizers r) + finalizers_of d n + finalizers_of l n
     = if finalizer_registered r then 1 else 0)%nat ->
  (finalizer_registered r = true -> accepting r = false) ->
  (deferred_finalizers r <> [] -> 0 < leases_of h n) ->
  ((0 < finalizers_of d n + finalizers_of l n)%nat -> leases_of h n = 0) ->
  inv (Sys (update (the y) n r) h d l).
Proof.
  intros [F C A L T H O R D X] Hn Ha H1 H2 H3 H4 H5 H6 H7 H8 H9 H10 H11.
  split; cbn [the held due ran update next_generation current heap].
  - intros m Hm. rewrite lookup_insert_ne; [by apply F|]. intros ->.
    rewrite F in Hn by done. by destruct Hn.
  - intros m Hm. destruct (decide (n = m)) as [-> | Hne]; [rewrite lookup_insert_eq; eauto|].
    rewrite lookup_insert_ne by done. by apply C.
  - intros m r' Hl Hacc. destruct (decide (n = m)) as [-> | Hne].
    + rewrite lookup_insert_eq in Hl. injection Hl as <-. destruct Hn as [r0 Hr0].
      apply (A m r0 Hr0). specialize (Ha Hacc). unfold rec_at in Ha. by rewrite Hr0 in Ha.
    + rewrite lookup_insert_ne in Hl by done. by apply (A m r').
  - intros m. rewrite rec_at_update. destruct (decide (m = n)) as [-> | Hne]; [done|]. by rewrite H1.
  - intros t m. rewrite rec_at_update. destruct (decide (m = n)) as [-> | Hne]; [done|]. by rewrite H2.
  - intros t m Hin. destruct (decide (n = m)) as [-> | Hne]; [rewrite lookup_insert_eq; eauto|].
    rewrite lookup_insert_ne by done. destruct (H7 _ _ Hin) as [?|Hin']; [congruence|by apply (H t)].
  - intros m. rewrite rec_at_update. destruct (decide (m = n)) as [-> | Hne]; [done|].
    by rewrite H3, H4.
  - intros m. rewrite rec_at_update. destruct (decide (m = n)) as [-> | Hne].
    + intros Hr. split; [rewrite lookup_insert_eq; eauto|auto].
    + intros Hr. rewrite lookup_insert_ne by done. by apply R.
  - intros m. rewrite rec_at_update. destruct (decide (m = n)) as [-> | Hne]; [done|]. rewrite H1 by done. apply D.
  - intros m. destruct (decide (m = n)) as [-> | Hne]; [done|]. rewrite H1, H3, H4 by done. apply X.
Qed.

Lemma rec_at_fresh g n c : heap g !! n = None ->
  forall m, rec_at (Gate (next_generation g + 1) c (<[n := fresh_record]> (heap g))) m = rec_at g m.
Proof.
  intros Hn m. unfold rec_at. cbn. destruct (decide (n = m)) as [-> | Hne].
  - by rewrite lookup_insert_eq, Hn.
  - by rewrite lookup_insert_ne.
Qed.

Lemma inv_publish g h d r : inv (Sys g h d r) -> inv (Sys (snd (publish g)) h d r).
Proof.
  intros Hi. pose proof Hi as [F C A L T H O R D X]. cbn [the held due ran] in *.
  assert (Hfree : heap g !! (next_generation g + 1) = None) by (apply F; lia).
  assert (Hpub : (forall m r0, heap g !! m = Some r0 -> accepting r0 = false) ->
    inv (Sys (Gate (next_generation g + 1) (Some (next_generation g + 1))
      (<[next_generation g + 1 := fresh_record]> (heap g))) h d r)).
  { intros Hnone. pose proof (rec_at_fresh g _ (Some (next_generation g + 1)) Hfree) as Er.
    assert (Hin : forall m, is_Some (heap g !! m) ->
      is_Some (<[next_generation g + 1 := fresh_record]> (heap g) !! m)).
    { intros m Hm. rewrite lookup_insert_is_Some. destruct (decide (next_generation g + 1 = m)); auto. }
    split; cbn [the held due ran next_generation current heap].
    - intros m Hm. rewrite lookup_insert_ne by lia. apply F. lia.
    - intros m [= <-]. rewrite lookup_insert_eq. eauto.
    - intros m r0 Hl Ha. destruct (decide (next_generation g + 1 = m)) as [-> | Hne]; [done|].
      rewrite lookup_insert_ne in Hl by done. by rewrite (Hnone _ _ Hl) in Ha.
    - intros m. rewrite Er. apply L.
    - intros t m. rewrite Er. apply T.
    - intros t m Hm. by apply Hin, (H t).
    - intros m. rewrite Er. apply O.
    - intros m. rewrite Er. intros Hm. destruct (R m Hm). auto.
    - intros m. rewrite Er. apply D.
    - done. }
  unfold publish. destruct (current g) as [n|] eqn:Ec.
  - destruct (accepting (rec_at g n)) eqn:Ea; [exact Hi|]. apply Hpub.
    intros m r0 Hm. destruct (accepting r0) eqn:E0; [|done].
    specialize (A m r0 Hm E0). injection A as <-.
    unfold rec_at in Ea. rewrite Hm in Ea. cbn in Ea. congruence.
  - apply Hpub. intros m r0 Hm. destruct (accepting r0) eqn:E0; [|done].
    by specialize (A m r0 Hm E0).
Qed.

Lemma gen_inv_step y y' : inv y -> step y y' -> inv y'.
Proof.
  intros Hi Hst. destruct Hst as [g h d r|g h d r|g h d r t n g' E|g h1 t n h2 d r
    |g h d r t n f Hn Ha Hd|g h d1 n f d2 r o].
  - by apply inv_publish.
  - pose proof Hi as [F C A L T H O R D X]. cbn [the held due ran] in *. unfold retire.
    destruct (current g) as [n|] eqn:Ec; [|done]. cbn [snd].
    specialize (C n eq_refl). set (r' := Rec false _ _ _ _ _).
    assert (Hu : inv (Sys (update g n r') h d r)).
    { apply (inv_update _ n r' _ _ _ Hi); cbn; try done; auto;
        first [intros u; apply T | apply D | apply O | apply L]. }
    destruct Hu as [F' C' A' L' T' H' O' R' D' X']. cbn [the held due ran update heap current] in *.
    split; try done. intros m r0 Hm H0. cbn [the heap update] in Hm. specialize (A' m r0 Hm H0). rewrite Ec in A'. injection A' as <-.
    rewrite lookup_insert_eq in Hm. by injection Hm as <-.
  - pose proof Hi as [F C A L T H O R D X]. cbn [the held due ran] in *. unfold lease_enter in E.
    destruct (current g) as [k|] eqn:Ec; [|done]. destruct (accepting (rec_at g k)) eqn:Ea; [|done].
    injection E as <- <-. specialize (C k eq_refl).
    assert (Hnr : finalizer_registered (rec_at g k) = false).
    { destruct (finalizer_registered (rec_at g k)) eqn:Er; [|done].
      destruct (R k Er) as [_ ?]. congruence. }
    pose proof (O k) as Ok'. rewrite Hnr in Ok'.
    apply (inv_update _ k _ _ _ _ Hi); cbn [the held due ran accepting active_leases
      deferred_finalizers finalizer_registered]; try done.
    + intros m Hm. rewrite leases_of_cons. destruct (Z.eqb_spec k m); [congruence|lia].
    + intros u m Hm. rewrite threads_of_cons. destruct (Z.eqb_spec k m); [congruence|].
      rewrite andb_false_r. lia.
    + rewrite leases_of_cons, Z.eqb_refl, L. done.
    + intros u. unfold thread_leases at 1. cbn [active_threads]. rewrite threads_of_cons, Z.eqb_refl, andb_true_r.
      case_bool_decide as Hu.
      * subst u. rewrite lookup_insert_eq. cbn. by rewrite T.
      * rewrite lookup_insert_ne by done. rewrite <- T. unfold thread_leases. lia.
    + intros u m [[= -> ->]|Hin]%elem_of_cons; auto.
    + by rewrite Hnr.
    + intros _. rewrite leases_of_cons, Z.eqb_refl. pose proof (leases_nonneg h k). lia.
    + intros Hpos. lia.
  - pose proof Hi as [F C A L T H O R D X]. cbn [the held due ran] in *.
    assert (Hn : is_Some (heap g !! n)) by (apply (H t); apply elem_of_app; right; left).
    pose proof (L n) as Ln. rewrite leases_of_remove, Z.eqb_refl in Ln.
    pose proof (leases_nonneg (h1 ++ h2) n) as Hnn. pose proof (O n) as On. pose proof (X n) as Xn.
    rewrite leases_of_remove, Z.eqb_refl in Xn.
    assert (Hz : (finalizers_of d n + finalizers_of r n = 0)%nat).
    { destruct (finalizers_of d n + finalizers_of r n)%nat eqn:Ez; [done|]. specialize (Xn ltac:(lia)). lia. }
    assert (Hth : forall u (r' : record),
      active_threads r' = (if thread_leases (rec_at g n) t <=? 1
                           then delete t (active_threads (rec_at g n))
                           else <[t := thread_leases (rec_at g n) t - 1]> (active_threads (rec_at g n))) ->
      thread_leases r' u = threads_of (h1 ++ h2) u n).
    { intros u r' Er. unfold thread_leases at 1. rewrite Er. pose proof (T u n) as Tu.
      pose proof (T t n) as Tt. rewrite threads_of_remove, Z.eqb_refl, andb_true_r in Tu, Tt.
      rewrite bool_decide_true in Tt by done.
      pose proof (threads_le_leases (h1 ++ h2) t n). rewrite Tt.
      destruct (Z.leb_spec (threads_of (h1 ++ h2) t n + 1) 1).
      - destruct (decide (t = u)) as [-> | Hne].
        + rewrite lookup_delete_eq. cbn. lia.
        + rewrite lookup_delete_ne by done. rewrite bool_decide_false in Tu by done.
          unfold thread_leases in Tu. lia.
      - destruct (decide (t = u)) as [-> | Hne].
        + rewrite lookup_insert_eq. cbn. lia.
        + rewrite lookup_insert_ne by done. rewrite bool_decide_false in Tu by done.
          unfold thread_leases in Tu. lia. }
    unfold lease_exit. destruct (Z.ltb_spec 0 (active_leases (rec_at g n))); [|lia].
    destruct (Z.eqb_spec (active_leases (rec_at g n) - 1) 0) as [He|He]; cbn [fst snd];
      apply (inv_update _ n _ _ _ _ Hi); cbn [the held due ran accepting active_leases
      deferred_finalizers finalizer_registered]; try done.
    + intros m Hm. rewrite leases_of_remove. destruct (Z.eqb_spec n m); [congruence|lia].
    + intros u m Hm. rewrite threads_of_remove. destruct (Z.eqb_spec n m); [congruence|].
      rewrite andb_false_r. lia.
    + intros m Hm. rewrite finalizers_of_app, finalizers_of_map.
      destruct (Z.eqb_spec n m); [congruence|lia].
    + lia.
    + intros u. by apply Hth.
    + intros u m [Hin|Hin]%elem_of_app; right; apply elem_of_app; [by left|right; by right].
    + rewrite finalizers_of_app, finalizers_of_map, Z.eqb_refl. cbn. lia.
    + intros Hr. by apply R.
    + lia.
    + intros m Hm. rewrite leases_of_remove. destruct (Z.eqb_spec n m); [congruence|lia].
    + intros u m Hm. rewrite threads_of_remove. destruct (Z.eqb_spec n m); [congruence|].
      rewrite andb_false_r. lia.
    + intros m Hm. by rewrite app_nil_r.
    + lia.
    + intros u. by apply Hth.
    + intros u m [Hin|Hin]%elem_of_app; right; apply elem_of_app; [by left|right; by right].
    + by rewrite app_nil_r.
    + intros Hr. by apply R.
    + intros _. lia.
    + rewrite app_nil_r. lia.
  - pose proof Hi as [F C A L T H O R D X]. cbn [the held due ran] in *. unfold register.
    pose proof (O n) as On. pose proof (L n) as Ln. pose proof (leases_nonneg h n).
    destruct (finalizer_registered (rec_at g n)) eqn:Er; cbn [fst snd]; [by rewrite app_nil_r|].
    destruct (Z.eqb_spec (active_leases (rec_at g n)) 0) as [Hz|Hz]; cbn [fst snd];
      apply (inv_update _ n _ _ _ _ Hi); cbn [the held due ran accepting active_leases
      deferred_finalizers finalizer_registered]; try done.
    + intros m Hm. rewrite finalizers_of_app, finalizers_of_one. destruct (Z.eqb_spec n m); [congruence|lia].
    + intros u. apply T.
    + intros u m Hin. by right.
    + rewrite finalizers_of_app, finalizers_of_one, Z.eqb_refl. lia.
    + apply D.
    + intros _. lia.
    + intros m Hm. by rewrite app_nil_r.
    + intros u. apply T.
    + intros u m Hin. by right.
    + rewrite app_nil_r, length_app. cbn. lia.
    + intros _. lia.
    + rewrite app_nil_r. lia.
  - pose proof Hi as [F C A L T H O R D X]. cbn [the held due ran] in *.
    assert (Hc : forall m, finalizers_of (d1 ++ d2) m = (finalizers_of (d1 ++ (n, f) :: d2) m - finalizers_of [(n, f)] m)%nat
      /\ (finalizers_of [(n, f)] m <= finalizers_of (d1 ++ (n, f) :: d2) m)%nat).
    { intros m. change ((n, f) :: d2) with ([(n, f)] ++ d2). rewrite !finalizers_of_app. lia. }
    assert (Hsum : forall m, (finalizers_of (d1 ++ d2) m + finalizers_of (r ++ [(n, f)]) m
      = finalizers_of (d1 ++ (n, f) :: d2) m + finalizers_of r m)%nat).
    { intros m. destruct (Hc m). rewrite (finalizers_of_app r). lia. }
    assert (Hbase : inv (Sys g h (d1 ++ d2) (r ++ [(n, f)]))).
    { split; cbn [the held due ran]; try done.
      - intros m. specialize (O m). specialize (Hsum m). lia.
      - intros m. rewrite Hsum. apply X. }
    destruct o as [[]|e]; [done|]. cbn [run_finalizer].
    pose proof Hbase as [F' C' A' L' T' H' O' R' D' X']. cbn [the held due ran] in *.
    assert (Hreg : finalizer_registered (rec_at g n) = true).
    { pose proof (O n) as On. change ((n, f) :: d2) with ([(n, f)] ++ d2) in On.
      rewrite !finalizers_of_app, finalizers_of_one, Z.eqb_refl in On.
      destruct (finalizer_registered (rec_at g n)); [done|lia]. }
    destruct (R n Hreg) as [Hn Hacc].
    apply (inv_update _ n _ _ _ _ Hbase); cbn [the held due ran accepting active_leases
      deferred_finalizers finalizer_registered]; try done.
    + intros u. apply T'.
    + intros u m Hin. by right.
    + apply D'.
    + apply X'.
Qed.

Lemma inv_init : inv (Sys init [] [] []).
Proof.
  split; cbn [the held due ran init current heap]; try done.
  intros t n Hin. by apply elem_of_nil in Hin.
Qed.

Lemma gen_inv_steps y y' : inv y -> rtc step y y' -> inv y'.
Proof. intros Hi Hr. induction Hr; eauto using gen_inv_step. Qed.

Lemma finalizers_of_elem l n f : (n, f) ∈ l -> (0 < finalizers_of l n)%nat.
Proof.
  intros [l1 [l2 ->]]%list_elem_of_split. rewrite finalizers_of_app.
  change ((n, f) :: l2) with ([(n, f)] ++ l2).
  rewrite finalizers_of_app, finalizers_of_one, Z.eqb_refl. lia.
Qed.

(** C8. A retired handle is closed safely: its finalizer leaves the lock, and runs,
    only when no operation holds a lease of its generation; it runs at most
    once per generation, however many callers drain it; and no later operation
    is admitted to a generation whose finalizer is due or has run. *)
Theorem retired_handle_safe y (Hreach : rtc step (Sys init [] [] []) y) :
  (forall n f, (n, f) ∈ due y \/ (n, f) ∈ ran y -> leases_of (held y) n = 0) /\
  (forall n, (finalizers_of (due y) n + finalizers_of (ran y) n <= 1)%nat) /\
  (forall t n g', lease_enter t (the y) = (Ok n, g') ->
     (finalizers_of (due y) n + finalizers_of (ran y) n = 0)%nat).
Proof.
  pose proof (gen_inv_steps _ _ inv_init Hreach) as [F C A L T H O R D X]. split; [|split].
  - intros n f Hin. apply X. destruct Hin as [Hin|Hin]; apply finalizers_of_elem in Hin; lia.
  - intros n. specialize (O n). destruct (finalizer_registered _); lia.
  - intros t n g' E. unfold lease_enter in E. destruct (current (the y)) as [k|]; [|done].
    destruct (accepting (rec_at (the y) k)) eqn:Ea; [|done]. injection E as <- <-.
    specialize (O k). destruct (finalizer_registered (rec_at (the y) k)) eqn:Er; [|lia].
    destruct (R k Er). congruence.
Qed.

(** No finalizer is lost and no drain deadlocks on itself: a registered
    finalizer is waiting for a lease that is still held, or due, or run, and
    exactly one of these; and a draining thread waits exactly until the leases
    left on the generation are its own. *)
Theorem drain_complete y t n (Hreach : rtc step (Sys init [] [] []) y) :
  (finalizer_registered (rec_at (the y) n) = true ->
     (length (deferred_finalizers (rec_at (the y) n)) = 1%nat /\ 0 < leases_of (held y) n \/
      (finalizers_of (due y) n + finalizers_of (ran y) n = 1)%nat /\ leases_of (held y) n = 0)) /\
  (drained_for t n (the y) = true <-> leases_of (held y) n = threads_of (held y) t n).
Proof.
  pose proof (gen_inv_steps _ _ inv_init Hreach) as [F C A L T H O R D X]. split.
  - intros Hr. specialize (O n). rewrite Hr in O.
    destruct (deferred_finalizers (rec_at (the y) n)) as [|f fs] eqn:Ed.
    + right. cbn in O. split; [lia|]. apply X. lia.
    + left. split; [cbn in *; lia|]. apply D. by rewrite Ed.
  - unfold drained_for. rewrite Z.leb_le, L, T. pose proof (threads_le_leases (held y) t n). lia.
Qed.

Module Examples.
(** A reentrant disconnect: the thread that drains holds the only lease, so the
    finalizer is deferred to the exit of that lease. *)
Definition reentrant : sys :=
  Sys (Gate 1 None {[1 := Rec false 0 ∅ [] true []]}) [] [(1, 9%nat)] [].

Lemma reach_reentrant : rtc step (Sys init [] [] []) reentrant.
Proof.
  eapply rtc_l; [apply step_publish|].
  eapply rtc_l; [eapply (step_enter _ [] [] [] 5%nat 1); by vm_compute|].
  eapply rtc_l; [apply step_retire|].
  eapply rtc_l; [apply (step_drain _ _ _ _ 5%nat 1 9%nat); [by vm_compute; eauto|by vm_compute..]|].
  eapply rtc_l; [apply (step_exit _ [] 5%nat 1 [])|].
  match goal with |- rtc _ ?a ?b => assert (a = b) as -> by by vm_compute end. apply rtc_refl.
Qed.

Lemma retired_handle_safe_witness : leases_of (held reentrant) 1 = 0.
Proof.
  apply (proj1 (retired_handle_safe reentrant reach_reentrant) 1 9%nat). left. left.
Defined.

Lemma drain_complete_witness :
  (finalizers_of (due reentrant) 1 + finalizers_of (ran reentrant) 1 = 1)%nat.
Proof.
  assert (Hr : finalizer_registered (rec_at (the reentrant) 1) = true) by by vm_compute.
  destruct (proj1 (drain_complete reentrant 5%nat 1 reach_reentrant) Hr) as [[_ H]|[H _]];
    [exfalso; by vm_compute in H|exact H].
Defined.
End Examples.
End Generation.
