(* ===== verification/Snapshot.v ===== *)
(** * The snapshot repository

    queue/snapshot.py: recovery snapshots stored as the chunks of a fresh
    generation and published by a manifest written last.  The storage backend,
    SHA-256, the random generation and the parser of [json] are parameters; the
    text of a manifest is concrete.  What [retrieve] may return is any object:
    a buffer that may be mutable, non-contiguous or fail to convert, or no
    buffer at all. *)

From S2P Require Export Json PyText Names.

Module Snapshot.
Definition DEFAULT_SNAPSHOT_MAX_BYTES : Z := 128 * 1024 * 1024.
Definition MAX_SNAPSHOT_CHUNK_BYTES : Z := 256 * 1024.
Definition MAX_SNAPSHOT_CHUNKS : Z := 4096.
Definition DEFAULT_SNAPSHOT_CHUNK_BYTES : Z := MAX_SNAPSHOT_CHUNK_BYTES.
Definition MAX_SNAPSHOT_GC_GENERATIONS : Z := 16.
Definition MAX_SNAPSHOT_GC_DELETIONS : Z := MAX_SNAPSHOT_CHUNKS * 2.
Definition MAX_SNAPSHOT_GC_LISTING : Z := MAX_SNAPSHOT_GC_DELETIONS.

Definition MANIFEST_SCHEMA : string := "scrapy-extension.queue-strategy-snapshot".
Definition MANIFEST_VERSION : Z := 7.
Definition READABLE_MANIFEST_VERSIONS : list Z := [4; 5; 6; MANIFEST_VERSION].
Definition STATE_NONE : string := "none".
Definition STATE_BYTES : string := "bytes".
Definition MAX_MANIFEST_BYTES : Z := 64 * 1024.
Definition LEGACY_CHUNK_KEY_PREFIX : string := "queue:snapshot-chunk:v1:".
Definition CURRENT_CHUNK_KEY_PREFIX : string := "queue:snapshot-chunk:v2:".
Definition BACKEND_LOGICAL_KEY_LIMITS : list (string * Z) :=
  [("memcached", 250); ("elasticsearch", 512); ("dynamodb", 2048)]%string.

(** ** Buffers *)

(** What the buffer protocol shows of an object of type bytes, bytearray or
    memoryview. *)
Record buffer := Buffer {
  content : bytes;
  view_fails : bool;      (* memoryview(value) raises *)
  c_contiguous : bool;
  immutable : bool;       (* read-only, and its root exporter is bytes *)
  copy_fails : bool       (* tobytes() raises *)
}.
Inductive pyobj := ONone | OOther | OBuffer (b : buffer).
Definition obj_bytes (b : bytes) : pyobj := OBuffer (Buffer b false true true false).

Inductive buffer_error := invalid | noncontiguous | mutable | conversion_failed | oversized.

(** [_copy_buffer]. *)
Definition copy_buffer (value : pyobj) (maximum : Z) : bytes + buffer_error :=
  match value with
  | OBuffer b =>
      if view_fails b then inr conversion_failed
      else if maximum <? Z.of_nat (length (content b)) then inr oversized
      else if negb (c_contiguous b) then inr noncontiguous
      else if negb (immutable b) then inr mutable
      else if copy_fails b then inr conversion_failed
      else inl (content b)
  | _ => inr invalid
  end.

(** ** Manifests *)
Record manifest := Manifest {
  m_version : Z; m_generation : string; m_length : Z; m_chunk_bytes : Z;
  m_chunks : Z; m_checksum : string; m_state_present : bool
}.

(** [_encode_manifest]: [json.dumps] with compact separators of an object whose
    strings are printable ASCII without quotes or backslashes. *)
Definition quotation_mark : string := String (ascii_of_N 34) EmptyString.
Definition quoted (s : string) : string := (quotation_mark ++ s ++ quotation_mark)%string.
Definition encode_manifest (m : manifest) : bytes :=
  encode ("{" ++ quoted "schema" ++ ":" ++ quoted MANIFEST_SCHEMA
    ++ "," ++ quoted "version" ++ ":" ++ decimal MANIFEST_VERSION
    ++ "," ++ quoted "generation" ++ ":" ++ quoted (m_generation m)
    ++ "," ++ quoted "length" ++ ":" ++ decimal (m_length m)
    ++ "," ++ quoted "chunk_bytes" ++ ":" ++ decimal (m_chunk_bytes m)
    ++ "," ++ quoted "chunks" ++ ":" ++ decimal (m_chunks m)
    ++ "," ++ quoted "sha256" ++ ":" ++ quoted (m_checksum m)
    ++ "," ++ quoted "state" ++ ":" ++ quoted (if m_state_present m then STATE_BYTES else STATE_NONE)
    ++ "}")%string.

(** The object that text denotes. *)
Definition manifest_object (m : manifest) : list (string * json) :=
  [("schema", JStr MANIFEST_SCHEMA); ("version", JInt MANIFEST_VERSION);
   ("generation", JStr (m_generation m)); ("length", JInt (m_length m));
   ("chunk_bytes", JInt (m_chunk_bytes m)); ("chunks", JInt (m_chunks m));
   ("sha256", JStr (m_checksum m));
   ("state", JStr (if m_state_present m then STATE_BYTES else STATE_NONE))]%string.

(** [bytes.lstrip()] and the JSON white space. *)
Definition ascii_space (b : Byte.byte) : bool :=
  bool_decide (b ∈ [x20; x09; x0a; x0d; x0b; x0c]).
Definition json_space (b : Byte.byte) : bool := bool_decide (b ∈ [x20; x09; x0d; x0a]).
Fixpoint drop_space (f : Byte.byte -> bool) (l : bytes) : bytes :=
  match l with x :: l' => if f x then drop_space f l' else l | [] => [] end.

Definition is_prefix (p l : bytes) : bool :=
  match cut_prefix p l with Some _ => true | None => false end.

Definition quote : Byte.byte := x22.
Definition backslash : Byte.byte := x5c.

(** The inner loops over a JSON string: the bytes up to its closing quote (or
    the end of the text) and what follows the quote. *)
Fixpoint scan_string (escaped : bool) (l : bytes) : bytes * bytes :=
  match l with
  | [] => ([], [])
  | b :: l' =>
      if escaped then let '(t, r) := scan_string false l' in (b :: t, r)
      else if bool_decide (b = backslash) then
        let '(t, r) := scan_string true l' in (b :: t, r)
      else if bool_decide (b = quote) then ([], l')
      else let '(t, r) := scan_string false l' in (b :: t, r)
  end.

(** [candidate] up to its first quotation mark. *)
Fixpoint upto_quote (l : bytes) : bytes :=
  match l with
  | [] => []
  | b :: l' => if bool_decide (b = quote) then [] else b :: upto_quote l'
  end.

(** The value position behind a top-level schema key: whether the marker is
    recognised, and where the scan goes on. *)
Definition schema_value (rest : bytes) : bool * bytes :=
  match drop_space json_space rest with
  | x3a :: rest1 =>
      let rest2 := drop_space json_space rest1 in
      match rest2 with
      | [] => (true, [])
      | b :: cand =>
          if bool_decide (b = quote)
          then (is_prefix (upto_quote cand) (encode MANIFEST_SCHEMA), rest2)
          else (is_prefix (encode MANIFEST_SCHEMA) rest2, rest2)
      end
  | rest' => (false, rest')
  end.

(** The main loop, on the bytes not yet read; every turn consumes one. *)
Fixpoint marker_loop (fuel : nat) (depth : Z) (l : bytes) : bool :=
  match fuel with
  | O => false
  | S fuel' =>
      match l with
      | [] => false
      | b :: l' =>
          if depth =? 0 then false
          else if bool_decide (b = quote) then
            let '(token, rest) := scan_string false l' in
            if (depth =? 1) && bool_decide (token = encode "schema") then
              let '(found, rest') := schema_value rest in
              found || marker_loop fuel' depth rest'
            else marker_loop fuel' depth rest
          else
            let depth' := if bool_decide (b = x7b) then depth + 1
                          else if bool_decide (b = x7d) then depth - 1 else depth in
            marker_loop fuel' depth' l'
      end
  end.

(** [_has_current_manifest_marker]. *)
Definition has_current_manifest_marker (value : bytes) : bool :=
  match drop_space ascii_space value with
  | x7b :: l =>
      let first_key := drop_space ascii_space l in
      let key := encode (quoted "chunk_bytes") in
      is_prefix first_key key || is_prefix key first_key || marker_loop (length l) 1 l
  | _ => false
  end.

Definition same_keys (o : list (string * json)) (ks : list string) : bool :=
  forallb (fun kv => string_in (fst kv) ks) o && forallb (fun k => string_in k (map fst o)) ks.

Definition legacy_required : list string :=
  ["schema"; "version"; "generation"; "length"; "chunk_bytes"; "chunks"; "sha256"]%string.
Definition ceil_div (a b : Z) : Z := (a + b - 1) / b.
Definition with_state (version : Z) : bool := (version =? 6) || (version =? MANIFEST_VERSION).

Definition str_field (k : string) (o : list (string * json)) : option string :=
  match assoc_get k o with Some (JStr s) => Some s | _ => None end.
Definition int_field (k : string) (o : list (string * json)) : option Z :=
  match assoc_get k o with Some (JInt z) => Some z | _ => None end.

Definition bad_schema : string := "Snapshot manifest schema is invalid.".

(** The validation of a parsed object whose schema is the current one. *)
Definition check_manifest (o : list (string * json)) : option manifest :=
  match int_field "version" o with
  | None => None
  | Some version =>
      let required := if with_state version then legacy_required ++ ["state"%string]
                      else legacy_required in
      if negb (bool_decide (version ∈ READABLE_MANIFEST_VERSIONS)) || negb (same_keys o required)
      then None
      else
        match str_field "generation" o, int_field "length" o, int_field "chunk_bytes" o,
              int_field "chunks" o, str_field "sha256" o with
        | Some generation, Some length, Some chunk_bytes, Some chunks, Some checksum =>
            let state_kind := if with_state version then str_field "state" o else None in
            if negb (hex_run 32 generation) || (length <? 0) || (chunk_bytes <? 1)
               || (chunks <? 0) || negb (hex_run 64 checksum)
               || negb (chunks =? ceil_div length chunk_bytes)
               || (with_state version
                   && negb (bool_decide (state_kind = Some STATE_NONE)
                            || bool_decide (state_kind = Some STATE_BYTES)))
               || (bool_decide (state_kind = Some STATE_NONE) && negb (length =? 0))
            then None
            else Some (Manifest version generation length chunk_bytes chunks checksum
                   (if with_state version then bool_decide (state_kind = Some STATE_BYTES)
                    else 0 <? length))
        | _, _, _, _, _ => None
        end
  end.

Record snapshot_read := SnapshotRead {
  found : bool; sr_state : option bytes; sr_manifest : bool; sr_generation : option string
}.

(** ** Storage, random generations *)

(** What pulling the n-th element of a listing does. *)
Inductive pull := Next (key : option string) | Stop | PullFails (e : exn).
Inductive listing := BadListing | Iterable (next : nat -> pull).

Class Storage (W : Type) := {
  st_backend_type : option string;
  st_store : string -> bytes -> M W unit;
  st_retrieve : string -> M W pyobj;
  st_delete : string -> M W (option bool);
  (** [list_storage_keys(prefix, limit=...)]; None when the attribute is absent
      or not callable. *)
  st_list_keys : option (string -> Z -> M W listing);
  (** [uuid.uuid4().hex]. *)
  uuid4_hex : M W string
}.

(** A non-failing storage that only answers [retrieve]: the reference reading
    of what is stored. *)
Definition store_view := string -> pyobj.

(** ** The lease condition *)
Record lease := Lease {
  active_readers : Z; active_commits : Z;
  reader_threads : gmap nat Z; commit_threads : gmap nat Z;
  maintenance_active : bool; maintenance_owner : option nat
}.
Definition no_lease : lease := Lease 0 0 ∅ ∅ false None.

(** What one pass through the critical section that opens a lease does. *)
Inductive entry := Entered (l : lease) | Blocked | Refused.

Definition count_of (m : gmap nat Z) (t : nat) : Z := default 0 (m !! t).
(** The registration after a release: the count defaults to one. *)
Definition uncount (m : gmap nat Z) (t : nat) : gmap nat Z :=
  let target := Z.max 0 (default 1 (m !! t) - 1) in
  if target =? 0 then delete t m else <[t := target]> m.

Definition reader_enter (t : nat) (l : lease) : entry :=
  if maintenance_active l then
    (if bool_decide (maintenance_owner l = Some t) then Refused else Blocked)
  else Entered (Lease (active_readers l + 1) (active_commits l)
                  (<[t := count_of (reader_threads l) t + 1]> (reader_threads l))
                  (commit_threads l) false (maintenance_owner l)).
Definition reader_exit (t : nat) (l : lease) : lease :=
  Lease (Z.max 0 (active_readers l - 1)) (active_commits l) (uncount (reader_threads l) t)
    (commit_threads l) (maintenance_active l) (maintenance_owner l).

Definition commit_enter (t : nat) (l : lease) : entry :=
  if maintenance_active l then
    (if bool_decide (maintenance_owner l = Some t) then Refused else Blocked)
  else Entered (Lease (active_readers l) (active_commits l + 1) (reader_threads l)
                  (<[t := count_of (commit_threads l) t + 1]> (commit_threads l))
                  false (maintenance_owner l)).
Definition commit_exit (t : nat) (l : lease) : lease :=
  Lease (active_readers l) (Z.max 0 (active_commits l - 1)) (reader_threads l)
    (uncount (commit_threads l) t) (maintenance_active l) (maintenance_owner l).

(** Publishing the maintenance fence, the condition its owner then waits for,
    and lifting it. *)
Definition maintenance_publish (t : nat) (l : lease) : entry :=
  if maintenance_active l && bool_decide (maintenance_owner l = Some t) then Refused
  else if negb (count_of (reader_threads l) t =? 0) || negb (count_of (commit_threads l) t =? 0)
  then Refused
  else if maintenance_active l then Blocked
  else Entered (Lease (active_readers l) (active_commits l) (reader_threads l) (commit_threads l)
                  true (Some t)).
Definition maintenance_clear (l : lease) : bool :=
  (active_readers l =? 0) && (active_commits l =? 0).
Definition maintenance_exit (l : lease) : lease :=
  Lease (active_readers l) (active_commits l) (reader_threads l) (commit_threads l) false None.

Definition lease_reentry : exn :=
  ESnapshot "Snapshot repository lease reentry is not allowed.".

(** ** The repository *)
Record repository := Repo { max_bytes : Z; chunk_bytes : Z }.

Definition int_arg (a : pyarg) : option Z := match a with AInt z => Some z | _ => None end.

(** [__init__]: bools are not integers here. *)
Definition init (max_bytes chunk_bytes : pyarg) : outcome repository :=
  match int_arg max_bytes, int_arg chunk_bytes with
  | Some mb, Some cb =>
      let minimum := ceil_div mb MAX_SNAPSHOT_CHUNKS in
      if (mb <? 1) || (cb <? minimum) || (mb <? cb) || (MAX_SNAPSHOT_CHUNK_BYTES <? cb)
      then Raise EValue else Ok (Repo mb cb)
  | _, _ => Raise EValue
  end.

Section Repository.
Context {J : JsonText} {W : Type} {St : Storage W}.
(** [hashlib.sha256(_).hexdigest()]. *)
Variable sha256_hex : bytes -> string.

Definition logical_key_limit : option Z :=
  match st_backend_type with
  | None => None
  | Some b => match List.find (fun kv => bool_decide (fst kv = b)) BACKEND_LOGICAL_KEY_LIMITS with
              | Some kv => Some (snd kv)
              | None => None
              end
  end.

Definition reserved (key : string) : bool :=
  starts_with LEGACY_CHUNK_KEY_PREFIX key || starts_with CURRENT_CHUNK_KEY_PREFIX key.

(** [_validate_logical_key]. *)
Definition validate_logical_key (key : string) : outcome unit :=
  match validate_key_name key None with
  | Raise _ => Raise (ESnapshot "Snapshot logical key is invalid.")
  | Ok _ =>
      if reserved key
      then Raise (ESnapshot "Snapshot logical key uses the reserved chunk namespace.")
      else match logical_key_limit with
           | Some limit =>
               if limit <? Z.of_nat (length (encode key))
               then Raise (ESnapshot "Snapshot logical key exceeds the storage backend limit.")
               else Ok tt
           | None => Ok tt
           end
  end.

(** ** Chunk keys *)

(** [json.dumps([key, generation, index], ensure_ascii=False, ...)] of a valid
    key and generation, which need no escapes. *)
Definition legacy_identity (key generation : string) (index : Z) : bytes :=
  encode ("[" ++ quoted key ++ "," ++ quoted generation ++ "," ++ decimal index ++ "]")%string.
Definition legacy_chunk_key (key generation : string) (index : Z) : string :=
  (LEGACY_CHUNK_KEY_PREFIX ++ sha256_hex (legacy_identity key generation index))%string.
Definition logical_key_digest (key : string) : string := sha256_hex (encode key).
Definition chunk_prefix (key : string) : string :=
  (CURRENT_CHUNK_KEY_PREFIX ++ logical_key_digest key ++ ":")%string.
Definition chunk_key (key generation : string) (index : Z) : string :=
  (CURRENT_CHUNK_KEY_PREFIX ++ logical_key_digest key ++ ":" ++ generation ++ ":"
   ++ decimal index)%string.
Definition v4_chunk_key (key generation : string) (index : Z) : string :=
  (key ++ ":generation:" ++ generation ++ ":chunk:" ++ decimal index)%string.

Definition physical_chunk_key (version : Z) : string -> string -> Z -> string :=
  if version =? 4 then v4_chunk_key
  else if (version =? 5) || (version =? 6) then legacy_chunk_key
  else chunk_key.

(** ** Decoding *)

(** [_decode_manifest]: a manifest, or raw bytes (None), or a failure. *)
Definition decode_manifest (value : bytes) : option manifest + string :=
  if MAX_MANIFEST_BYTES <? Z.of_nat (length value) then inl None
  else match json_loads value with
       | Raise EDecode => if has_current_manifest_marker value then inr bad_schema else inl None
       | Raise _ => inr "Snapshot manifest parsing failed."%string
       | Ok (JObj o) =>
           match assoc_get "schema" o with
           | Some (JStr s) =>
               if bool_decide (s = MANIFEST_SCHEMA) then
                 match check_manifest o with Some m => inl (Some m) | None => inr bad_schema end
               else inl None
           | _ => inl None
           end
       | Ok _ => inl None
       end.
End Repository.

Section Reading.
Context {J : JsonText} {W : Type} (st_retrieve : string -> M W pyobj).
Variable sha256_hex : bytes -> string.

(** [_retrieve]: the data and whether the call failed. *)
Definition retrieve (key : string) : M W (option pyobj) := fun w =>
  match st_retrieve key w with
  | (Ok v, w') => (Ok (Some v), w')
  | (Raise e, w') => if is_ordinary e then (Ok None, w') else (Raise e, w')
  end.

(** The chunk loop of [_read_terminal] from [index] on, [n] chunks to go. *)
Fixpoint read_chunks (n : nat) (key : string) (m : manifest) (index : Z) (assembled : bytes)
    : M W (bytes + string) :=
  match n with
  | O => ret (inl assembled)
  | S n' =>
      let! chunk := retrieve (physical_chunk_key sha256_hex (m_version m) key (m_generation m) index) in
      match chunk with
      | None => ret (inr "Snapshot chunk retrieval failed."%string)
      | Some chunk =>
          let expected := Z.min (m_chunk_bytes m) (m_length m - index * m_chunk_bytes m) in
          match copy_buffer chunk expected with
          | inr invalid => ret (inr "Snapshot chunk is missing or invalid."%string)
          | inr noncontiguous => ret (inr "Snapshot chunk is not contiguous."%string)
          | inr mutable => ret (inr "Snapshot chunk is mutable."%string)
          | inr oversized => ret (inr "Snapshot chunk length validation failed."%string)
          | inr conversion_failed => ret (inr "Snapshot chunk conversion failed."%string)
          | inl copied =>
              if negb (Z.of_nat (length copied) =? expected)
              then ret (inr "Snapshot chunk length validation failed."%string)
              else read_chunks n' key m (index + 1) (assembled ++ copied)
          end
      end
  end.

Definition too_large : string := "Snapshot exceeds the configured size limit.".
Definition bad_checksum : string := "Snapshot checksum validation failed.".

(** [_read_terminal] once the manifest is known. *)
Definition read_generation (r : repository) (key : string) (m : manifest)
    : M W (snapshot_read + string) :=
  if (max_bytes r <? m_length m) || (chunk_bytes r <? m_chunk_bytes m)
     || (m_chunk_bytes m <? ceil_div (max_bytes r) MAX_SNAPSHOT_CHUNKS)
     || (MAX_SNAPSHOT_CHUNKS <? m_chunks m)
  then ret (inr too_large)
  else if m_length m =? 0 then
    if negb (bool_decide (m_checksum m = sha256_hex [])) then ret (inr bad_checksum)
    else ret (inl (SnapshotRead true (if m_state_present m then Some [] else None) true
                     (Some (m_generation m))))
  else
    let! assembled := read_chunks (Z.to_nat (m_chunks m)) key m 0 [] in
    match assembled with
    | inr failure => ret (inr failure)
    | inl state =>
        if negb (Z.of_nat (length state) =? m_length m)
        then ret (inr "Snapshot length validation failed."%string)
        else if negb (bool_decide (sha256_hex state = m_checksum m)) then ret (inr bad_checksum)
        else ret (inl (SnapshotRead true (Some state) true (Some (m_generation m))))
    end.

(** [_read_terminal]: a result or a static failure message. *)
Definition read_terminal (r : repository) (key : string) : M W (snapshot_read + string) :=
  let! value := retrieve key in
  match value with
  | None => ret (inr "Snapshot manifest retrieval failed."%string)
  | Some ONone => ret (inl (SnapshotRead false None false None))
  | Some value =>
      match copy_buffer value (Z.max (max_bytes r) MAX_MANIFEST_BYTES) with
      | inr invalid => ret (inr "Snapshot manifest has an invalid type."%string)
      | inr noncontiguous => ret (inr "Snapshot manifest is not contiguous."%string)
      | inr mutable => ret (inr "Snapshot manifest is mutable."%string)
      | inr oversized => ret (inr too_large)
      | inr conversion_failed => ret (inr "Snapshot manifest conversion failed."%string)
      | inl raw =>
          match decode_manifest raw with
          | inr failure => ret (inr failure)
          | inl None =>
              if max_bytes r <? Z.of_nat (length raw) then ret (inr too_large)
              else ret (inl (SnapshotRead true (Some raw) false None))
          | inl (Some m) => read_generation r key m
          end
      end
  end.
End Reading.

(** What a storage that never fails would let a reader see at [key]: the
    reference reading of the stored objects. *)
Definition view_retrieve (k : string) : M store_view pyobj := fun v => (Ok (v k), v).
Definition snapshot_at {J : JsonText} (sha256_hex : bytes -> string) (r : repository)
    (v : store_view) (key : string) : outcome (snapshot_read + string) :=
  fst (read_terminal view_retrieve sha256_hex r key v).

Section Operations.
Context {J : JsonText} {W : Type} {St : Storage W}.
Variable sha256_hex : bytes -> string.

(** [_store]: a write that raised is verified by one read back. *)
Definition store (key : string) (value : bytes) : M W bool := fun w =>
  match st_store key value w with
  | (Ok _, w1) => (Ok true, w1)
  | (Raise e, w1) =>
      if is_ordinary e then
        (let! observed := retrieve st_retrieve key in
         match observed with
         | None => ret false
         | Some observed =>
             match copy_buffer observed (Z.of_nat (length value)) with
             | inl copied => ret (bool_decide (copied = value))
             | inr _ => ret false
             end
         end) w1
      else (Raise e, w1)
  end.

(** The chunk loop of [_commit_terminal]; false when a write was not confirmed. *)
Fixpoint write_chunks (n : nat) (r : repository) (key generation : string) (payload : bytes)
    (index : Z) : M W bool :=
  match n with
  | O => ret true
  | S n' =>
      let start := index * chunk_bytes r in
      let chunk := take (Z.to_nat (chunk_bytes r)) (drop (Z.to_nat start) payload) in
      let! stored := store (chunk_key sha256_hex key generation index) chunk in
      if stored : bool then write_chunks n' r key generation payload (index + 1) else ret false
  end.

Definition manifest_for (r : repository) (generation : string) (payload : bytes)
    (state_present : bool) : manifest :=
  let length := Z.of_nat (length payload) in
  Manifest MANIFEST_VERSION generation length (chunk_bytes r) (ceil_div length (chunk_bytes r))
    (sha256_hex payload) state_present.

(** [_commit_terminal]: None, or a static failure message.  The state is a
    bytes object, so its copy can only fail by its size. *)
Definition commit_terminal (r : repository) (key : string) (state : option bytes)
    : M W (option string) := fun w =>
  let payload := match state with Some s => s | None => [] end in
  let len := Z.of_nat (length payload) in
  if max_bytes r <? len then (Ok (Some too_large), w)
  else
    match (let! generation := uuid4_hex in
           let! written := write_chunks (Z.to_nat (ceil_div len (chunk_bytes r))) r key generation
                             payload 0 in
           if written : bool then
             let! published := store key (encode_manifest
                 (manifest_for r generation payload (bool_decide (is_Some state)))) in
             ret (if published : bool then None else Some "Snapshot manifest write failed."%string)
           else ret (Some "Snapshot chunk write failed."%string)) w with
    | (Raise e, w') =>
        if is_ordinary e then (Ok (Some "Snapshot construction failed."%string), w')
        else (Raise e, w')
    | r => r
    end.

(** ** The public operations

    [t] is the calling thread.  A result [None] says that the thread is blocked
    at the opening of its lease, or, for [gc], behind its own fence. *)
Definition read (t : nat) (r : repository) (key : string)
    : M (lease * W) (option snapshot_read) := fun '(l, w) =>
  match validate_logical_key key with
  | Raise e => (Raise e, (l, w))
  | Ok _ =>
      match reader_enter t l with
      | Refused => (Raise lease_reentry, (l, w))
      | Blocked => (Ok None, (l, w))
      | Entered l1 =>
          let '(o, w') := read_terminal st_retrieve sha256_hex r key w in
          let l2 := reader_exit t l1 in
          match o with
          | Ok (inl result) => (Ok (Some result), (l2, w'))
          | Ok (inr failure) => (Raise (ESnapshot failure), (l2, w'))
          | Raise e => (Raise e, (l2, w'))
          end
      end
  end.

Definition commit (t : nat) (r : repository) (key : string) (state : option bytes)
    : M (lease * W) (option unit) := fun '(l, w) =>
  match validate_logical_key key with
  | Raise e => (Raise e, (l, w))
  | Ok _ =>
      match commit_enter t l with
      | Refused => (Raise lease_reentry, (l, w))
      | Blocked => (Ok None, (l, w))
      | Entered l1 =>
          let '(o, w') := commit_terminal r key state w in
          let l2 := commit_exit t l1 in
          match o with
          | Ok None => (Ok (Some tt), (l2, w'))
          | Ok (Some failure) => (Raise (ESnapshot failure), (l2, w'))
          | Raise e => (Raise e, (l2, w'))
          end
      end
  end.

(** ** Maintenance *)

(** [_parse_current_chunk_key]; [int] is not reached by texts its digit limit
    refuses other than as a rejected key. *)
Definition parse_current_chunk_key (key prefix : string) : option (string * Z) :=
  match cut_prefix (list_ascii_of_string prefix) (list_ascii_of_string key) with
  | None => None
  | Some suffix =>
      match split_on ":"%char suffix with
      | [generation; raw_index] =>
          let generation := string_of_list_ascii generation in
          if negb (hex_run 32 generation) then None
          else if bool_decide (raw_index = []) || negb (forallb is_digit raw_index) then None
          else if max_str_digits <? Z.of_nat (length raw_index) then None
          else
            let index := dec_value raw_index in
            if (MAX_SNAPSHOT_CHUNKS <=? index)
               || negb (bool_decide (raw_index = list_ascii_of_string (decimal index)))
            then None else Some (generation, index)
      | _ => None
      end
  end.

Definition listing_failed : exn := ESnapshot "Snapshot maintenance key listing failed.".
Definition bad_listing : exn := ESnapshot "Snapshot maintenance returned an invalid key listing.".
Definition no_listing : exn :=
  ESnapshot "Snapshot maintenance is unavailable for this storage backend.".

(** The bounded consumption of the iterator. *)
Fixpoint pull_listing (fuel position : nat) (next : nat -> pull) (candidates : list (option string))
    : outcome (list (option string)) :=
  match fuel with
  | O => Ok candidates
  | S fuel' =>
      match next position with
      | Stop => Ok candidates
      | PullFails e => Raise (if is_ordinary e then listing_failed else e)
      | Next c =>
          if MAX_SNAPSHOT_GC_LISTING <=? Z.of_nat position
          then Raise (ESnapshot "Snapshot maintenance key listing exceeds its hard limit.")
          else pull_listing fuel' (S position) next (candidates ++ [c])
      end
  end.

Definition bounded_storage_listing (list_keys : string -> Z -> M W listing) (prefix : string)
    : M W (list (option string)) := fun w =>
  match list_keys prefix MAX_SNAPSHOT_GC_LISTING w with
  | (Raise ENotImplemented, w') => (Raise no_listing, w')
  | (Raise e, w') => (Raise (if is_ordinary e then listing_failed else e), w')
  | (Ok BadListing, w') => (Raise bad_listing, w')
  | (Ok (Iterable next), w') =>
      (pull_listing (S (Z.to_nat MAX_SNAPSHOT_GC_LISTING)) 0 next [], w')
  end.

Definition indeterminate : string := "Snapshot maintenance deletion outcome is indeterminate.".
Definition unconfirmed : string := "Snapshot maintenance deletion was not confirmed.".

(** [_delete_and_confirm]. *)
Definition delete_and_confirm (key : string) : M W (bool + string) := fun w =>
  let after (delete_failed : bool) (delete_result : option bool) : M W (bool + string) :=
    let! observed := retrieve st_retrieve key in
    ret (match observed with
         | None => inr indeterminate
         | Some ONone =>
             inl (delete_failed || negb (bool_decide (delete_result = Some false)))
         | Some _ => inr unconfirmed
         end) in
  match st_delete key w with
  | (Ok result, w1) => after false result w1
  | (Raise e, w1) => if is_ordinary e then after true None w1 else (Raise e, w1)
  end.

(** The distinct removable candidates, in listing order. *)
Fixpoint parse_candidates (key current : string) (observed : list (option string))
    (parsed : list (string * string)) : list (string * string) :=
  match observed with
  | [] => parsed
  | None :: observed' => parse_candidates key current observed' parsed
  | Some candidate :: observed' =>
      let parsed' :=
        match parse_current_chunk_key candidate (chunk_prefix sha256_hex key) with
        | None => parsed
        | Some (generation, index) =>
            if negb (bool_decide (candidate = chunk_key sha256_hex key generation index))
               || bool_decide (generation = current)
               || bool_decide (candidate ∈ map fst parsed)
            then parsed else parsed ++ [(candidate, generation)]
        end in
      parse_candidates key current observed' parsed'
  end.

(** The keys to delete, in order: the first generations, each with its keys. *)
Definition doomed (max_generations : Z) (parsed : list (string * string)) : list string :=
  let generations := sort_by String.leb (remove_dups (map snd parsed)) in
  flat_map (fun g => map fst (filter (fun cg => snd cg = g) parsed))
    (take (Z.to_nat max_generations) generations).

Definition partial_failure (deleted : Z) (message : string) : exn :=
  ESnapshot ("Snapshot maintenance was partial; confirmed deletions=" ++ decimal deleted ++ ". "
             ++ message).

(** The deletion loop, with the count of confirmed deletions so far. *)
Fixpoint gc_loop (max_deletions : Z) (keys : list string) (deleted : Z) : M W Z :=
  match keys with
  | [] => ret deleted
  | k :: keys' =>
      if max_deletions <=? deleted then ret deleted
      else
        let! confirmed := delete_and_confirm k in
        match confirmed with
        | inr message => raise (partial_failure deleted message)
        | inl c => gc_loop max_deletions keys' (if c : bool then deleted + 1 else deleted)
        end
  end.

(** What [gc] does inside its maintenance lease. *)
Definition gc_body (r : repository) (key : string) (max_generations max_deletions : Z) : M W Z :=
  let! current := read_terminal st_retrieve sha256_hex r key in
  match current with
  | inr failure => raise (ESnapshot failure)
  | inl current =>
      match found current, sr_generation current with
      | true, Some generation =>
          match st_list_keys with
          | None => raise no_listing
          | Some list_keys =>
              let! observed := bounded_storage_listing list_keys (chunk_prefix sha256_hex key) in
              gc_loop max_deletions
                (doomed max_generations (parse_candidates key generation observed [])) 0
          end
      | _, _ => ret 0
      end
  end.

(** The argument checks of [gc]. *)
Definition gc_arguments (key : string) (quiescent : bool) (max_generations max_deletions : pyarg)
    : outcome (Z * Z) :=
  obind (validate_logical_key key) (fun _ =>
  if negb quiescent then Raise EValue
  else match int_arg max_generations, int_arg max_deletions with
       | Some g, Some d =>
           if (g <? 1) || (d <? 1) then Raise EValue
           else if (MAX_SNAPSHOT_GC_GENERATIONS <? g) || (MAX_SNAPSHOT_GC_DELETIONS <? d)
           then Raise (ESnapshot "Snapshot maintenance limit exceeds its hard cap.")
           else Ok (g, d)
       | _, _ => Raise EValue
       end).

Definition gc (t : nat) (r : repository) (key : string) (quiescent : bool)
    (max_generations max_deletions : pyarg) : M (lease * W) (option Z) := fun '(l, w) =>
  match gc_arguments key quiescent max_generations max_deletions with
  | Raise e => (Raise e, (l, w))
  | Ok (g, d) =>
      match maintenance_publish t l with
      | Refused => (Raise lease_reentry, (l, w))
      | Blocked => (Ok None, (l, w))
      | Entered l1 =>
          if maintenance_clear l1 then
            let '(o, w') := gc_body r key g d w in
            (omap Some o, (maintenance_exit l1, w'))
          else (Ok None, (l1, w))
      end
  end.

(** [maintenance]: the compatibility alias. *)
Definition maintenance := gc.
End Operations.

(** ** Leases under concurrency *)

(** Where each thread stands: one entry per lease it holds, and whether it waits
    behind its fence or runs. *)
Inductive activity := Idle | Waiting | Maintaining.
Record threads := Threads {
  lease_state : lease; readers : list nat; commits : list nat; doing : nat -> activity
}.
Definition set_doing (d : nat -> activity) (t : nat) (x : activity) : nat -> activity :=
  fun u => if (u =? t)%nat then x else d u.

Inductive step : threads -> threads -> Prop :=
  | step_reader_enter t l l' r c d :
      reader_enter t l = Entered l' -> step (Threads l r c d) (Threads l' (t :: r) c d)
  | step_reader_exit t l r1 r2 c d :
      step (Threads l (r1 ++ t :: r2) c d) (Threads (reader_exit t l) (r1 ++ r2) c d)
  | step_commit_enter t l l' r c d :
      commit_enter t l = Entered l' -> step (Threads l r c d) (Threads l' r (t :: c) d)
  | step_commit_exit t l r c1 c2 d :
      step (Threads l r (c1 ++ t :: c2) d) (Threads (commit_exit t l) r (c1 ++ c2) d)
  | step_publish t l l' r c d :
      maintenance_publish t l = Entered l' ->
      step (Threads l r c d) (Threads l' r c (set_doing d t Waiting))
  | step_clear t l r c d :
      d t = Waiting -> maintenance_clear l = true ->
      step (Threads l r c d) (Threads l r c (set_doing d t Maintaining))
  | step_maintenance_exit t l r c d :
      d t <> Idle ->
      step (Threads l r c d) (Threads (maintenance_exit l) r c (set_doing d t Idle)).

Definition start : threads := Threads no_lease [] [] (fun _ => Idle).

End Snapshot.
