(* ===== verification/SnapshotFacts.v ===== *)
(** * The snapshot repository: atomic commits, safe maintenance

    Theorems about Snapshot.v: what a reader can see before, during and after a
    commit or a collection pass, under the documented behaviour of a storage
    backend; mutual exclusion of maintenance with readers and writers; and the
    recognition of truncated manifests. *)

From S2P Require Export Snapshot.

Module SnapshotFacts.
Import Snapshot.

(** ** Assumptions on the parameters *)

(** A backend write takes effect entirely or not at all, whatever it reports,
    and touches its own key only; reads and listings change nothing; a deletion
    removes its own key or nothing. *)
Class StorageLaws (W : Type) `{Storage W} := {
  view : W -> store_view;
  st_store_law : forall k b w o w', st_store k b w = (o, w') ->
    (view w' k = obj_bytes b \/ (view w' k = view w k /\ o <> Ok tt))
    /\ forall k', k' <> k -> view w' k' = view w k';
  st_retrieve_law : forall k w o w', st_retrieve k w = (o, w') ->
    (forall k', view w' k' = view w k') /\ forall x, o = Ok x -> x = view w k;
  st_delete_law : forall k w o w', st_delete k w = (o, w') ->
    (view w' k = ONone \/ view w' k = view w k)
    /\ forall k', k' <> k -> view w' k' = view w k';
  st_list_law : forall f p n w o w', st_list_keys = Some f -> f p n w = (o, w') ->
    forall k, view w' k = view w k;
  uuid4_law : forall w o w', uuid4_hex w = (o, w') ->
    (forall k, view w' k = view w k) /\ forall g, o = Ok g -> hex_run 32 g = true
}.

(** [delete] answers False when the key did not exist (backends/base.py), so such
    an answer comes with nothing removed. *)
Class DeleteLaws (W : Type) `{SL : StorageLaws W} := {
  st_delete_false : forall k w w', st_delete k w = (Ok (Some false), w') -> view w' k = view w k
}.

(** [json.loads] reads the text of a manifest as the object it denotes. *)
Class ManifestText `{JsonText} := {
  json_loads_manifest : forall m,
    hex_run 32 (m_generation m) = true -> hex_run 64 (m_checksum m) = true ->
    0 <= m_length m < 10 ^ 12 -> 0 <= m_chunk_bytes m < 10 ^ 12 -> 0 <= m_chunks m < 10 ^ 12 ->
    json_loads (encode_manifest m) = Ok (JObj (manifest_object m))
}.

(** SHA-256 digests are 64 hexadecimal digits. *)
Class Sha256 (sha256_hex : bytes -> string) := {
  sha256_hex_run : forall b, hex_run 64 (sha256_hex b) = true
}.

(** ** Keys *)
Lemma hex_run_spec n s : hex_run n s = true ->
  length (list_ascii_of_string s) = n
  /\ Forall (fun c => is_lower_hex c = true) (list_ascii_of_string s).
Proof.
  unfold hex_run. rewrite andb_true_iff, Nat.eqb_eq, forallb_forall. intros [Hl Hf].
  rewrite length_list_ascii. split; [done|]. rewrite Forall_forall. intros c Hc.
  apply Hf. by apply list_elem_of_In.
Qed.

(** Keys as lists of characters. *)
Ltac chars := rewrite ?list_ascii_app.

Section Keys.
Context (sha256_hex : bytes -> string) `{!Sha256 sha256_hex}.

Lemma digest_chars b :
  length (list_ascii_of_string (sha256_hex b)) = 64%nat
  /\ Forall (fun c => is_lower_hex c = true) (list_ascii_of_string (sha256_hex b)).
Proof. apply hex_run_spec, sha256_hex_run. Qed.

(** Equal chunk keys agree on the generation and the index. *)
Lemma chunk_key_fields k1 k2 g1 g2 i1 i2 :
  hex_run 32 g1 = true -> hex_run 32 g2 = true ->
  chunk_key sha256_hex k1 g1 i1 = chunk_key sha256_hex k2 g2 i2 ->
  g1 = g2 /\ decimal i1 = decimal i2.
Proof.
  intros [L1 _]%hex_run_spec [L2 _]%hex_run_spec E%(f_equal list_ascii_of_string).
  unfold chunk_key in E. revert E. chars. intros E%(inj _).
  apply app_inj_1 in E as [_ E].
  2: { unfold logical_key_digest. pose proof (digest_chars (encode k1)).
       pose proof (digest_chars (encode k2)). intuition congruence. }
  apply (inj _) in E. apply app_inj_1 in E as [Eg E]; [|congruence].
  apply (inj _) in E. split; by apply (inj list_ascii_of_string).
Qed.

Lemma chunk_key_inj k1 k2 g1 g2 i1 i2 :
  hex_run 32 g1 = true -> hex_run 32 g2 = true -> 0 <= i1 -> 0 <= i2 ->
  chunk_key sha256_hex k1 g1 i1 = chunk_key sha256_hex k2 g2 i2 -> g1 = g2 /\ i1 = i2.
Proof.
  intros H1 H2 Hi1 Hi2 [-> E]%chunk_key_fields; [|done..]. split; [done|]. by apply decimal_inj.
Qed.

Lemma chunk_key_reserved k g i : reserved (chunk_key sha256_hex k g i) = true.
Proof. unfold reserved, chunk_key. by rewrite starts_with_app, orb_true_r. Qed.

Lemma legacy_key_reserved k g i : reserved (legacy_chunk_key sha256_hex k g i) = true.
Proof. unfold reserved, legacy_chunk_key. by rewrite starts_with_app. Qed.

Lemma legacy_not_current k1 g1 i1 k2 g2 i2 :
  legacy_chunk_key sha256_hex k1 g1 i1 <> chunk_key sha256_hex k2 g2 i2.
Proof.
  intros E%(f_equal list_ascii_of_string). unfold legacy_chunk_key, chunk_key in E.
  revert E. chars. cbn. congruence.
Qed.

(** A v4 chunk key of an unreserved logical key is no current chunk key. *)
Lemma v4_not_current k1 g1 i1 k2 g2 i2 :
  reserved k1 = false -> v4_chunk_key k1 g1 i1 <> chunk_key sha256_hex k2 g2 i2.
Proof.
  intros Hr E%(f_equal list_ascii_of_string). apply orb_false_iff in Hr as [_ Hr].
  unfold starts_with in Hr.
  destruct (cut_prefix (list_ascii_of_string CURRENT_CHUNK_KEY_PREFIX) (list_ascii_of_string k1))
    eqn:Hc; [done|]. clear Hr.
  unfold v4_chunk_key, chunk_key in E. revert E. chars.
  generalize dependent (list_ascii_of_string k1). intros cs Hc E.
  destruct (digest_chars (encode k2)) as [Hl Hd]. fold (logical_key_digest sha256_hex k2) in Hl, Hd.
  destruct (list_ascii_of_string (logical_key_digest sha256_hex k2)) as [|d ds]; [done|].
  apply Forall_cons in Hd as [Hd _].
  cbn in Hc, E.
  do 24 (destruct cs as [|? cs]; cbn in Hc, E;
    [simplify_eq; try done; try discriminate Hd | injection E as -> E]).
  by cbn in Hc.
Qed.
End Keys.

(** ** Buffers *)

(** The object at [k] is readable as exactly [b]. *)
Definition holds (v : store_view) (k : string) (b : bytes) : Prop :=
  forall n, Z.of_nat (length b) <= n -> copy_buffer (v k) n = inl b.

Lemma copy_buffer_inl x n b : copy_buffer x n = inl b ->
  Z.of_nat (length b) <= n /\ forall n', Z.of_nat (length b) <= n' -> copy_buffer x n' = inl b.
Proof.
  destruct x as [| |[c vf cc im cf]]; cbn; [done..|]. destruct vf; [done|].
  destruct (n <? _) eqn:E; [done|]. destruct cc, im, cf; try done. cbn. intros [= ->].
  split; [lia|]. intros n' Hn'. by replace (n' <? Z.of_nat (length b)) with false by lia.
Qed.

Lemma holds_obj v k b : v k = obj_bytes b -> holds v k b.
Proof.
  intros E n Hn. rewrite E. cbn. by replace (n <? Z.of_nat (length b)) with false by lia.
Qed.

Lemma holds_copy v k b n : copy_buffer (v k) n = inl b -> holds v k b.
Proof. intros [_ H]%copy_buffer_inl. exact H. Qed.

Lemma holds_not_none v k b : holds v k b -> v k <> ONone.
Proof. intros H E. specialize (H (Z.of_nat (length b)) ltac:(lia)). by rewrite E in H. Qed.

(** ** Reading on the view *)
Section Reading.
Context {J : JsonText} (sha256_hex : bytes -> string).

Lemma view_read_chunks n key m : forall i a v,
  snd (read_chunks view_retrieve sha256_hex n key m i a v) = v.
Proof.
  induction n as [|n IH]; intros i a v; [done|]. cbn. case_match; [|by case_match].
  case_match; [done|]. apply IH.
Qed.

(** A reading depends on the chunks of its generation only. *)
Lemma read_chunks_ext n key m v1 v2 : forall i a,
  (forall j, v1 (physical_chunk_key sha256_hex (m_version m) key (m_generation m) j)
           = v2 (physical_chunk_key sha256_hex (m_version m) key (m_generation m) j)) ->
  fst (read_chunks view_retrieve sha256_hex n key m i a v1)
  = fst (read_chunks view_retrieve sha256_hex n key m i a v2).
Proof.
  induction n as [|n IH]; intros i a Hv; [done|]. cbn. rewrite <- (Hv i).
  case_match; [|by case_match]. case_match; [done|]. by apply IH.
Qed.

(** Chunks that hold the slices of a payload are read as the payload. *)
Lemma read_chunks_payload key m payload v n : forall i a,
  0 < m_chunk_bytes m -> 0 <= i -> m_length m = Z.of_nat (length payload) ->
  a = take (Z.to_nat (i * m_chunk_bytes m)) payload ->
  Z.of_nat (length payload) <= (i + Z.of_nat n) * m_chunk_bytes m ->
  (i + Z.of_nat n - 1) * m_chunk_bytes m < Z.of_nat (length payload) \/ n = O ->
  (forall j, i <= j < i + Z.of_nat n ->
     holds v (physical_chunk_key sha256_hex (m_version m) key (m_generation m) j)
       (take (Z.to_nat (m_chunk_bytes m)) (drop (Z.to_nat (j * m_chunk_bytes m)) payload))) ->
  fst (read_chunks view_retrieve sha256_hex n key m i a v) = Ok (inl payload).
Proof.
  induction n as [|n IH]; intros i a Hc Hi Hl Ha Hlo Hhi Hv; cbn.
  - do 2 f_equal. rewrite Ha. apply take_ge. lia.
  - destruct Hhi as [Hhi|]; [|done].
    set (s := take (Z.to_nat (m_chunk_bytes m)) (drop (Z.to_nat (i * m_chunk_bytes m)) payload)).
    assert (Hs : Z.of_nat (length s) = Z.min (m_chunk_bytes m) (m_length m - i * m_chunk_bytes m)).
    { unfold s. rewrite length_take, length_drop.
      assert (i * m_chunk_bytes m <= (i + Z.of_nat (S n) - 1) * m_chunk_bytes m) by nia. lia. }
    pose proof (Hv i ltac:(lia)) as Hvi. fold s in Hvi.
    rewrite <- Hs, (Hvi _ ltac:(done)), Z.eqb_refl. cbn [negb].
    apply IH; try done; try lia.
    + rewrite Ha. unfold s.
      rewrite Z.mul_add_distr_r, Z.mul_1_l, Z2Nat.inj_add by (try apply Z.mul_nonneg_nonneg; lia).
      by rewrite take_take_drop.
    + intros j Hj. apply Hv. lia.
Qed.

(** The manifest a reader finds at [key]. *)
Definition manifest_at (r : repository) (v : store_view) (key : string) : option manifest :=
  match copy_buffer (v key) (Z.max (max_bytes r) MAX_MANIFEST_BYTES) with
  | inl raw => match decode_manifest raw with inl m => m | inr _ => None end
  | inr _ => None
  end.

(** The objects a reading of [key] depends on are unchanged. *)
Lemma snapshot_at_ext r v1 v2 key :
  v1 key = v2 key ->
  (forall m, manifest_at r v1 key = Some m ->
   forall j, v1 (physical_chunk_key sha256_hex (m_version m) key (m_generation m) j)
           = v2 (physical_chunk_key sha256_hex (m_version m) key (m_generation m) j)) ->
  snapshot_at sha256_hex r v1 key = snapshot_at sha256_hex r v2 key.
Proof.
  intros Hk Hm. unfold snapshot_at, read_terminal, bind, retrieve. cbn. rewrite <- Hk.
  unfold manifest_at in Hm. destruct (v1 key) as [| |b] eqn:E; [done|done|].
  destruct (copy_buffer _ _) as [raw|]; [|by case_match].
  destruct (decode_manifest raw) as [[m|]|]; [|by case_match|done].
  specialize (Hm m eq_refl). unfold read_generation. destruct (_ || _); [done|].
  destruct (_ =? 0); [by destruct (negb _)|].
  unfold bind.
  pose proof (read_chunks_ext (Z.to_nat (m_chunks m)) key m v1 v2 0 [] Hm) as Hx.
  do 2 destruct (read_chunks _ _ _ _ _ _ _ _) as [[[?|?]|?] ?]; cbn in Hx; simplify_eq; try done.
  repeat case_match; done.
Qed.

(** Reading through a lawful backend: the stored objects stay as they are, and
    the reading is the reference one unless a retrieval failed. *)
Definition retrieval_failure (s : string) : Prop :=
  s = "Snapshot manifest retrieval failed."%string \/ s = "Snapshot chunk retrieval failed."%string.

Context {W : Type} {St : Storage W} {SL : StorageLaws W}.

Lemma retrieve_view k w o w' : retrieve st_retrieve k w = (o, w') ->
  (forall k', view w' k' = view w k') /\ forall x, o = Ok (Some x) -> x = view w k.
Proof.
  unfold retrieve. destruct (st_retrieve k w) as [o1 w1] eqn:E.
  apply st_retrieve_law in E as [Hv Hx]. destruct o1 as [x|e].
  - intros [= <- <-]. split; [done|]. intros ? [= <-]. by apply Hx.
  - destruct (is_ordinary e); intros [= <- <-]; by split.
Qed.

Definition agrees {A} (o : outcome (A + string)) (ref : outcome (A + string)) : Prop :=
  match o with
  | Ok (inl a) => ref = Ok (inl a)
  | Ok (inr s) => retrieval_failure s \/ ref = Ok (inr s)
  | Raise _ => True
  end.

Lemma read_chunks_view n key m : forall i a w o w',
  read_chunks st_retrieve sha256_hex n key m i a w = (o, w') ->
  (forall k, view w' k = view w k)
  /\ agrees o (fst (read_chunks view_retrieve sha256_hex n key m i a (view w))).
Proof.
  induction n as [|n IH]; intros i a w o w'; [by intros [= <- <-]|].
  cbn [read_chunks]. intros [(x & w1 & Hr & Hk)|(e & Hr & ->)]%bind_inv.
  2: { apply retrieve_view in Hr as [Hv _]. done. }
  apply retrieve_view in Hr as [Hv Hx]. destruct x as [x|].
  2: { injection Hk as <- <-. split; [done|]. left. by right. }
  specialize (Hx x eq_refl) as ->. cbn.
  destruct (copy_buffer _ _) as [c|err].
  2: { destruct err; injection Hk as <- <-; (split; [done|]); by right. }
  destruct (negb _).
  - injection Hk as <- <-. split; [done|]. by right.
  - destruct (IH _ _ _ _ _ Hk) as [Hv' Ha]. split; [congruence|].
    rewrite (read_chunks_ext n key m (view w) (view w1)) by (intros; congruence). done.
Qed.

Lemma read_terminal_view r key w o w' :
  read_terminal st_retrieve sha256_hex r key w = (o, w') ->
  (forall k, view w' k = view w k) /\ agrees o (snapshot_at sha256_hex r (view w) key).
Proof.
  unfold snapshot_at, read_terminal.
  intros [(x & w1 & Hr & Hk)|(e & Hr & ->)]%bind_inv.
  2: { apply retrieve_view in Hr as [Hv _]. done. }
  apply retrieve_view in Hr as [Hv Hx]. destruct x as [x|].
  2: { injection Hk as <- <-. split; [done|]. left. by left. }
  specialize (Hx x eq_refl) as ->. cbn. destruct (view w key) as [| |b] eqn:E.
  1,2: injection Hk as <- <-; (split; [done|]); done || by right.
  destruct (copy_buffer _ _) as [raw|err].
  2: { destruct err; injection Hk as <- <-; (split; [done|]); by right. }
  destruct (decode_manifest raw) as [[m|]|f].
  2, 3: repeat case_match; injection Hk as <- <-; (split; [done|]); done || by right.
  unfold read_generation in *. destruct (_ || _).
  { injection Hk as <- <-. split; [done|]. by right. }
  destruct (_ =? 0).
  { destruct (negb _); injection Hk as <- <-; (split; [done|]); done || by right. }
  apply bind_inv in Hk as [(y & w2 & Hr & Hk)|(e & Hr & ->)].
  2: { apply read_chunks_view in Hr as [Hv' _]. split; [congruence|done]. }
  apply read_chunks_view in Hr as [Hv' Ha].
  unfold bind.
  rewrite (read_chunks_ext _ key m (view w1) (view w)) in Ha by done.
  destruct (read_chunks view_retrieve _ _ _ _ _ _ _) as [o' v'].
  destruct y as [y|f]; cbn in Ha.
  - subst o'. repeat case_match; injection Hk as <- <-; (split; [congruence|]); done || by right.
  - injection Hk as <- <-. split; [congruence|]. destruct Ha as [Ha|Ha]; [by left|].
    rewrite Ha. by right.
Qed.
End Reading.

(** ** Manifests *)
Lemma encode_manifest_length m :
  hex_run 32 (m_generation m) = true -> hex_run 64 (m_checksum m) = true ->
  0 <= m_length m < 10 ^ 12 -> 0 <= m_chunk_bytes m < 10 ^ 12 -> 0 <= m_chunks m < 10 ^ 12 ->
  Z.of_nat (length (encode_manifest m)) <= MAX_MANIFEST_BYTES.
Proof.
  intros [G _]%hex_run_spec [C _]%hex_run_spec Hl Hc Hn.
  rewrite length_list_ascii in G, C. unfold encode_manifest. rewrite length_encode.
  unfold quoted. repeat rewrite string_length_app. rewrite G, C.
  pose proof (decimal_length (m_length m) 12 ltac:(lia) Hl).
  pose proof (decimal_length (m_chunk_bytes m) 12 ltac:(lia) Hc).
  pose proof (decimal_length (m_chunks m) 12 ltac:(lia) Hn).
  assert (String.length (if m_state_present m then STATE_BYTES else STATE_NONE) <= 5)%nat
    by (destruct (m_state_present m); cbn; lia).
  unfold MAX_MANIFEST_BYTES. cbn [String.length quotation_mark MANIFEST_SCHEMA].
  change (String.length (decimal MANIFEST_VERSION)) with 1%nat. lia.
Qed.

Lemma check_manifest_object m :
  m_version m = MANIFEST_VERSION ->
  hex_run 32 (m_generation m) = true -> hex_run 64 (m_checksum m) = true ->
  0 <= m_length m -> 1 <= m_chunk_bytes m -> m_chunks m = ceil_div (m_length m) (m_chunk_bytes m) ->
  (m_state_present m = false -> m_length m = 0) ->
  check_manifest (manifest_object m) = Some m.
Proof.
  destruct m as [v g l cb n c p]. cbn [m_version m_generation m_length m_chunk_bytes m_chunks
    m_checksum m_state_present]. intros -> Hg Hc Hl Hcb -> Hp.
  unfold check_manifest, manifest_object.
  change (int_field "version" _) with (Some MANIFEST_VERSION). cbn [with_state].
  change (same_keys _ _) with true. change (negb (bool_decide (MANIFEST_VERSION ∈ _))) with false.
  change (str_field "generation" _) with (Some g). change (int_field "length" _) with (Some l).
  change (int_field "chunk_bytes" _) with (Some cb). change (str_field "sha256" _) with (Some c).
  change (int_field "chunks" _) with (Some (ceil_div l cb)).
  change (str_field "state" _) with (Some (if p then STATE_BYTES else STATE_NONE)).
  change (with_state MANIFEST_VERSION) with true. cbn [negb orb andb]. rewrite Hg, Hc. cbn [negb orb andb].
  replace (l <? 0) with false by lia. replace (cb <? 1) with false by lia.
  assert (Hn : 0 <= ceil_div l cb).
  { unfold ceil_div. apply Z.div_pos; lia. }
  replace (ceil_div l cb <? 0) with false by lia. rewrite Z.eqb_refl. cbn [negb orb andb].
  destruct p; [done|]. by rewrite (Hp eq_refl).
Qed.

Lemma decode_encode_manifest `{ManifestText} m :
  m_version m = MANIFEST_VERSION ->
  hex_run 32 (m_generation m) = true -> hex_run 64 (m_checksum m) = true ->
  0 <= m_length m < 10 ^ 12 -> 1 <= m_chunk_bytes m < 10 ^ 12 -> m_chunks m < 10 ^ 12 ->
  m_chunks m = ceil_div (m_length m) (m_chunk_bytes m) ->
  (m_state_present m = false -> m_length m = 0) ->
  decode_manifest (encode_manifest m) = inl (Some m).
Proof.
  intros Hv Hg Hc Hl Hcb Hn Hnc Hp.
  assert (0 <= m_chunks m) by (rewrite Hnc; apply Z.div_pos; lia).
  pose proof (encode_manifest_length m Hg Hc Hl ltac:(lia) ltac:(lia)).
  unfold decode_manifest. replace (_ <? _) with false by lia.
  rewrite json_loads_manifest by (done || lia).
  cbv beta iota. change (assoc_get "schema" (manifest_object m)) with (Some (JStr MANIFEST_SCHEMA)).
  cbv beta iota. rewrite bool_decide_true by done. rewrite check_manifest_object; done || lia.
Qed.

(** ** Writing *)
Definition valid_repository (r : repository) : Prop :=
  exists a b, init a b = Ok r.

Lemma valid_limits r : valid_repository r ->
  1 <= chunk_bytes r <= MAX_SNAPSHOT_CHUNK_BYTES /\ chunk_bytes r <= max_bytes r
  /\ ceil_div (max_bytes r) MAX_SNAPSHOT_CHUNKS <= chunk_bytes r.
Proof.
  intros (a & b & H). unfold init in H. destruct (int_arg a) as [mb|], (int_arg b) as [cb|]; try done.
  destruct (_ || _) eqn:E; [done|]. injection H as <-. cbn.
  assert (0 < ceil_div mb MAX_SNAPSHOT_CHUNKS \/ mb < 1).
  { unfold ceil_div, MAX_SNAPSHOT_CHUNKS. destruct (decide (mb < 1)); [by right|left].
    apply Z.div_str_pos. lia. }
  lia.
Qed.

Lemma ceil_div_bounds a b : 0 <= a -> 0 < b ->
  0 <= ceil_div a b /\ a <= ceil_div a b * b /\ (0 < a -> (ceil_div a b - 1) * b < a).
Proof.
  intros Ha Hb. unfold ceil_div. pose proof (Z.div_mod (a + b - 1) b ltac:(lia)).
  pose proof (Z.mod_pos_bound (a + b - 1) b Hb). pose proof (Z.div_pos (a + b - 1) b).
  repeat split; nia.
Qed.

Lemma ceil_div_mono a a' b : 0 < b -> a <= a' -> ceil_div a b <= ceil_div a' b.
Proof. intros. unfold ceil_div. apply Z.div_le_mono; lia. Qed.

(** The configured limits leave room for every chunk of a payload that fits. *)
Lemma chunk_count r n : valid_repository r -> 0 <= n <= max_bytes r ->
  ceil_div n (chunk_bytes r) <= MAX_SNAPSHOT_CHUNKS.
Proof.
  intros (H1 & H2 & H3)%valid_limits Hn.
  pose proof (ceil_div_bounds (max_bytes r) MAX_SNAPSHOT_CHUNKS ltac:(lia) ltac:(done)) as (_ & H4 & _).
  unfold ceil_div at 1. apply Z.lt_succ_r, Z.div_lt_upper_bound; [lia|].
  unfold MAX_SNAPSHOT_CHUNKS in *. nia.
Qed.

Section Writing.
Context {J : JsonText} (sha256_hex : bytes -> string) `{!Sha256 sha256_hex}.
Context {W : Type} {St : Storage W} {SL : StorageLaws W}.

Lemma store_spec key value w o w' : store key value w = (o, w') ->
  (forall k, k <> key -> view w' k = view w k)
  /\ (view w' key = obj_bytes value \/ view w' key = view w key)
  /\ (o = Ok true -> holds (view w') key value).
Proof.
  unfold store. destruct (st_store key value w) as [[[]|e] w1] eqn:E;
    apply st_store_law in E as [Hk Ho].
  - intros [= <- <-]. destruct Hk as [Hk|[_ Hk]]; [|done]. repeat split; auto. intros _.
    by apply holds_obj.
  - destruct (is_ordinary e).
    + intros [(x & w2 & Hr & H)|(e' & Hr & ->)]%bind_inv; apply retrieve_view in Hr as [Hv Hx].
      * assert (w' = w2 /\ (o = Ok true -> copy_buffer (view w1 key) (Z.of_nat (length value)) = inl value))
          as [-> Hc].
        { destruct x as [x|]; [|by injection H as <- <-]. rewrite <- (Hx x eq_refl).
          destruct (copy_buffer x _); injection H as <- <-; (split; [done|]); [|done].
          intros [= ->%bool_decide_eq_true]. done. }
        split; [intros; rewrite Hv; auto|]. rewrite Hv. split; [tauto|].
        intros Heq. apply (holds_copy _ _ _ (Z.of_nat (length value))). rewrite Hv. auto.
      * split; [intros; rewrite Hv; auto|]. rewrite Hv. split; [tauto|done].
    + intros [= <- <-]. split; [done|]. split; [tauto|done].
Qed.

Definition slice (r : repository) (payload : bytes) (j : Z) : bytes :=
  take (Z.to_nat (chunk_bytes r)) (drop (Z.to_nat (j * chunk_bytes r)) payload).

Lemma write_chunks_spec n r key g payload : hex_run 32 g = true ->
  forall i w o w', 0 <= i -> write_chunks sha256_hex n r key g payload i w = (o, w') ->
  (forall k, (forall j, i <= j -> k <> chunk_key sha256_hex key g j) -> view w' k = view w k)
  /\ (o = Ok true -> forall j, i <= j < i + Z.of_nat n ->
        holds (view w') (chunk_key sha256_hex key g j) (slice r payload j)).
Proof.
  intros Hg. induction n as [|n IH]; intros i w o w' Hi; cbn [write_chunks].
  { intros [= <- <-]. split; [done|]. lia. }
  intros [(b & w1 & Hs & Hk)|(e & Hs & ->)]%bind_inv; apply store_spec in Hs as (Hf & _ & Hh).
  2: { split; [|done]. intros k Hk. apply Hf, Hk. lia. }
  destruct b.
  - apply IH in Hk as [Hf' Hh']; [|lia]. split.
    + intros k Hk. rewrite Hf' by (intros; apply Hk; lia). apply Hf, Hk. lia.
    + intros Ho j Hj. destruct (decide (j = i)) as [->|Hne]; [|apply Hh'; done || lia].
      intros m Hm. rewrite Hf'; [by apply Hh|].
      intros j Hji E. apply (chunk_key_inj sha256_hex) in E as [_ ->]; lia || done.
  - injection Hk as <- <-. split; [|done]. intros k Hk. apply Hf, Hk. lia.
Qed.

Context {MT : ManifestText}.

(** What a reader finds once the manifest and the chunks are in place. *)
Lemma published_read r key g payload p v :
  valid_repository r -> hex_run 32 g = true ->
  Z.of_nat (length payload) <= max_bytes r -> (p = false -> payload = []) ->
  holds v key (encode_manifest (manifest_for sha256_hex r g payload p)) ->
  (forall j, 0 <= j < ceil_div (Z.of_nat (length payload)) (chunk_bytes r) ->
     holds v (chunk_key sha256_hex key g j) (slice r payload j)) ->
  snapshot_at sha256_hex r v key
  = Ok (inl (SnapshotRead true (if p then Some payload else None) true (Some g))).
Proof.
  intros Hr Hg Hl Hp Hm Hc. pose proof (valid_limits r Hr) as (L1 & L2 & L3).
  pose proof (chunk_count r (Z.of_nat (length payload)) Hr ltac:(lia)) as L4.
  pose proof (ceil_div_bounds (Z.of_nat (length payload)) (chunk_bytes r) ltac:(lia) ltac:(lia))
    as (B1 & B2 & B3).
  pose proof (ceil_div_bounds (max_bytes r) MAX_SNAPSHOT_CHUNKS ltac:(lia) ltac:(done)) as (_ & B4 & _).
  set (m := manifest_for sha256_hex r g payload p) in *.
  assert (Hmax : max_bytes r < 10 ^ 12).
  { unfold MAX_SNAPSHOT_CHUNK_BYTES, MAX_SNAPSHOT_CHUNKS in *. lia. }
  assert (Hd : decode_manifest (encode_manifest m) = inl (Some m)).
  { apply decode_encode_manifest; cbn; try done; try lia.
    - apply sha256_hex_run.
    - unfold MAX_SNAPSHOT_CHUNKS in L4. lia.
    - intros ->. by rewrite (Hp eq_refl). }
  assert (He : Z.of_nat (length (encode_manifest m)) <= MAX_MANIFEST_BYTES).
  { apply encode_manifest_length; cbn; try done; try lia.
    - apply sha256_hex_run.
    - unfold MAX_SNAPSHOT_CHUNKS in L4. lia. }
  pose proof (Hm (Z.max (max_bytes r) MAX_MANIFEST_BYTES) ltac:(lia)) as Hraw.
  unfold snapshot_at, read_terminal, bind, retrieve, view_retrieve. cbn [is_ordinary].
  pose proof (holds_not_none _ _ _ Hm).
  destruct (v key) as [| |b]; [done|done|]. rewrite Hraw, Hd.
  unfold read_generation. cbn [m m_length m_chunk_bytes m_chunks m_checksum m_generation
    m_state_present manifest_for].
  replace (_ || _) with false by lia.
  destruct (Z.eqb_spec (Z.of_nat (length payload)) 0) as [E|E].
  - destruct payload; [|done]. rewrite bool_decide_true by done. by destruct p.
  - unfold bind.
    pose proof (read_chunks_payload sha256_hex key m payload v
      (Z.to_nat (ceil_div (Z.of_nat (length payload)) (chunk_bytes r))) 0 []) as Hx.
    destruct p; [|by rewrite (Hp eq_refl) in E].
    specialize (Hx ltac:(cbn; lia) ltac:(lia) ltac:(done) ltac:(done)).
    rewrite Z2Nat.id in Hx by done. specialize (Hx ltac:(cbn; lia) ltac:(left; cbn; lia) Hc).
    change (fun k v => (Ok (v k), v)) with view_retrieve.
    destruct (read_chunks _ _ _ _ _ _ _ _) as [o v']. cbn in Hx. subst o.
    rewrite Z.eqb_refl, bool_decide_true by done. done.
Qed.
End Writing.

(** ** Commits *)
Lemma check_manifest_wf o m : check_manifest o = Some m ->
  m_version m ∈ READABLE_MANIFEST_VERSIONS /\ hex_run 32 (m_generation m) = true
  /\ hex_run 64 (m_checksum m) = true.
Proof.
  unfold check_manifest. destruct (int_field "version" o) as [v|]; [|done].
  destruct (negb (bool_decide _) || _) eqn:E1; [done|].
  repeat (destruct (str_field _ o) as [?|] || destruct (int_field _ o) as [?|]); try done.
  all: destruct (negb (hex_run 32 _) || _ || _ || _ || _ || _ || _ || _) eqn:E2; [done|].
  all: intros [= <-]; cbn [m_version m_generation m_checksum].
  all: repeat match goal with H : (_ || _) = false |- _ => apply orb_false_iff in H as [??] end.
  all: repeat match goal with H : negb _ = false |- _ => apply negb_false_iff in H end.
  all: by split; [by eapply bool_decide_eq_true|].
Qed.

Lemma manifest_at_wf {J : JsonText} r v key m : manifest_at r v key = Some m ->
  m_version m ∈ READABLE_MANIFEST_VERSIONS /\ hex_run 32 (m_generation m) = true.
Proof.
  unfold manifest_at. destruct (copy_buffer _ _) as [raw|]; [|done].
  unfold decode_manifest. destruct (_ <? _); [done|].
  destruct (json_loads raw) as [[]|[]]; try done; try by destruct (has_current_manifest_marker _).
  destruct (assoc_get _ _) as [[]|]; try done. destruct (bool_decide _); [|done].
  destruct (check_manifest l) eqn:E; [|done]. intros [= <-].
  apply check_manifest_wf in E. tauto.
Qed.

Lemma validated_unreserved {W} `{Storage W} key :
  validate_logical_key key = Ok tt -> reserved key = false.
Proof.
  unfold validate_logical_key. destruct (validate_key_name _ _); [|done].
  by destruct (reserved key).
Qed.

Section Commit.
Context {J : JsonText} (sha256_hex : bytes -> string) `{!Sha256 sha256_hex}.
Context {W : Type} {St : Storage W} {SL : StorageLaws W}.

(** The chunks of another generation are not the ones a commit or a collection
    pass touches. *)
Lemma other_generation r v k m key g i j :
  manifest_at r v k = Some m -> reserved k = false -> hex_run 32 g = true ->
  m_generation m <> g ->
  physical_chunk_key sha256_hex (m_version m) k (m_generation m) j
  <> chunk_key sha256_hex key g i.
Proof.
  intros [Hv Hg]%manifest_at_wf Hr Hg' Hne. unfold physical_chunk_key.
  destruct (m_version m =? 4); [by apply v4_not_current|].
  destruct (_ || _); [apply legacy_not_current|].
  intros [? _]%chunk_key_fields; done.
Qed.

(** A chunk is not stored under a logical key, v4 chunks of other keys aside. *)
Lemma physical_not_logical v k g j key :
  reserved key = false -> v <> 4 \/ k = key -> physical_chunk_key sha256_hex v k g j <> key.
Proof.
  intros Hkey Hv. unfold physical_chunk_key. destruct (Z.eqb_spec v 4) as [E|_].
  - destruct Hv as [?| ->]; [done|]. intros E'%(f_equal String.length). unfold v4_chunk_key in E'.
    rewrite !string_length_app in E'. cbn in E'. lia.
  - destruct (_ || _); intros E1; rewrite <- E1 in Hkey;
      by rewrite ?legacy_key_reserved, ?chunk_key_reserved in Hkey.
Qed.

Context {MT : ManifestText}.

(** The fresh generation is not the one a stored manifest names. *)
Definition fresh_generation (r : repository) (w : W) : Prop :=
  forall g w1, uuid4_hex w = (Ok g, w1) ->
  forall k m, manifest_at r (view w) k = Some m -> m_generation m <> g.

Lemma commit_terminal_spec r key state w o w' :
  valid_repository r -> validate_logical_key key = Ok tt -> fresh_generation r w ->
  commit_terminal sha256_hex r key state w = (o, w') ->
  (snapshot_at sha256_hex r (view w') key = snapshot_at sha256_hex r (view w) key /\ o <> Ok None
   \/ exists g, snapshot_at sha256_hex r (view w') key
              = Ok (inl (SnapshotRead true state true (Some g))))
  /\ forall k, k <> key -> reserved k = false ->
     (forall m, manifest_at r (view w) k = Some m -> m_version m <> 4) ->
     snapshot_at sha256_hex r (view w') k = snapshot_at sha256_hex r (view w) k.
Proof.
  intros Hr Hkey%validated_unreserved Hfresh. unfold commit_terminal.
  set (payload := match state with Some s => s | None => [] end).
  destruct (Z.ltb_spec (max_bytes r) (Z.of_nat (length payload))) as [Hl|Hl].
  { intros [= <- <-]. split; [by left|done]. }
  destruct (bind _ _ w) as [o1 w1] eqn:E. intros Ho.
  assert (w' = w1 /\ (o = Ok None -> o1 = Ok None)) as [-> Ho1].
  { destruct o1 as [x|e]; [by injection Ho as <- <-|].
    destruct (is_ordinary e); injection Ho as <- <-; by split. }
  apply bind_inv in E as [(g & w2 & Hu & E)|(e & Hu & ->)].
  2: { apply uuid4_law in Hu as [Hv _]. split.
       - left. split; [|by intros ?%Ho1]. by apply snapshot_at_ext.
       - intros. by apply snapshot_at_ext. }
  pose proof (Hfresh _ _ Hu) as Hg. apply uuid4_law in Hu as [Hv Hx].
  specialize (Hx g eq_refl).
  assert (Hnc : forall k j, reserved k = false -> k <> chunk_key sha256_hex key g j).
  { intros k j Hk ->. by rewrite chunk_key_reserved in Hk. }
  assert (Hmid : forall w3, (forall k, (forall j, 0 <= j -> k <> chunk_key sha256_hex key g j) ->
      view w3 k = view w2 k) ->
      (forall k, reserved k = false ->
       snapshot_at sha256_hex r (view w3) k = snapshot_at sha256_hex r (view w) k)).
  { intros w3 Hw3 k Hk. symmetry. apply snapshot_at_ext.
    - rewrite Hw3 by auto. by rewrite Hv.
    - intros m Hm j. rewrite Hw3; [by rewrite Hv|]. intros i _.
      by eapply other_generation, (Hg k m). }
  apply bind_inv in E as [(b & w3 & Hw & E)|(e & Hw & ->)];
    apply (write_chunks_spec sha256_hex) in Hw as [Hf Hh]; try done.
  2: { split; [left; split; [by apply Hmid|by intros ?%Ho1]|]. intros; by apply Hmid. }
  destruct b.
  2: { injection E as <- <-. split; [left; split; [by apply Hmid|by intros ?%Ho1]|].
       intros; by apply Hmid. }
  specialize (Hh eq_refl).
  assert (exists b', store key (encode_manifest
     (manifest_for sha256_hex r g payload (bool_decide (is_Some state)))) w3 = (b', w1)
     /\ (o1 = Ok None -> b' = Ok true)) as (b' & Hs & Hb').
  { apply bind_inv in E as [(b' & w4 & Hs & E)|(e & Hs & ->)]; [|by exists (Raise e)].
    injection E as <- <-. exists (Ok b'). split; [done|]. by destruct b'. }
  apply store_spec in Hs as (Hsf & Hsk & Hsh).
  split.
  - assert (Hpub : holds (view w1) key (encode_manifest
      (manifest_for sha256_hex r g payload (bool_decide (is_Some state)))) ->
      snapshot_at sha256_hex r (view w1) key = Ok (inl (SnapshotRead true state true (Some g)))).
    { intros Hm. rewrite (published_read sha256_hex r key g payload (bool_decide (is_Some state)));
        try done.
      - by destruct state.
      - by destruct state.
      - intros j Hj n Hn. rewrite Hsf by (by apply not_eq_sym, Hnc).
        apply Hh; [|done]. rewrite Z2Nat.id; [done|]. lia. }
    destruct Hsk as [Hsk|Hsk].
    + right. exists g. by apply Hpub, holds_obj.
    + destruct (decide (o = Ok None)) as [Hoo|Hoo].
      * right. exists g. auto.
      * left. split; [|done]. rewrite <- (Hmid w3 Hf key Hkey). symmetry. apply snapshot_at_ext; [done|].
        intros m Hm j. symmetry. apply Hsf. intros E'.
        assert (Hm' : manifest_at r (view w) key = Some m).
        { unfold manifest_at in *. rewrite <- Hm. f_equal. rewrite Hf, Hv; auto. }
        revert E'. apply physical_not_logical; [done|by right].
  - intros k Hk Hkr Hv4. rewrite <- (Hmid w3 Hf k Hkr). symmetry. apply snapshot_at_ext.
    + symmetry. by apply Hsf.
    + intros m Hm j. symmetry. apply Hsf.
      assert (Hm' : manifest_at r (view w) k = Some m).
      { unfold manifest_at in *. rewrite <- Hm. f_equal. rewrite Hf, Hv; auto. }
      apply physical_not_logical; [done|left]. by apply Hv4.
Qed.
End Commit.

(** ** Maintenance *)
Section Maintenance.
Context {J : JsonText} (sha256_hex : bytes -> string) `{!Sha256 sha256_hex}.
Context {W : Type} {St : Storage W} {SL : StorageLaws W}.

(** Some keys became absent; everything else is as before. *)
Definition only_removed (P : string -> Prop) (v v' : store_view) : Prop :=
  forall k, v' k = v k \/ v' k = ONone /\ P k.

Lemma only_removed_refl P v v' : (forall k, v' k = v k) -> only_removed P v v'.
Proof. intros H k. by left. Qed.

Lemma only_removed_trans P v1 v2 v3 :
  only_removed P v1 v2 -> only_removed P v2 v3 -> only_removed P v1 v3.
Proof. intros H1 H2 k. destruct (H1 k) as [E|[E ?]], (H2 k) as [E'|[E' ?]]; rewrite E'; auto. Qed.

Lemma delete_and_confirm_spec k w o w' : delete_and_confirm k w = (o, w') ->
  only_removed (eq k) (view w) (view w').
Proof.
  unfold delete_and_confirm. destruct (st_delete k w) as [d w1] eqn:E.
  apply st_delete_law in E as [Hk Hf].
  assert (H1 : only_removed (eq k) (view w) (view w1)).
  { intros k'. destruct (decide (k' = k)) as [->|Hne]; [destruct Hk as [Hk|Hk]; auto|left; auto]. }
  assert (Hret : forall f b, bind (retrieve st_retrieve k)
            (fun ob => ret (f ob) : M W (bool + string)) w1 = b ->
          only_removed (eq k) (view w) (view (snd b))).
  { intros f b <-. unfold bind. destruct (retrieve st_retrieve k w1) as [x w2] eqn:Er.
    apply retrieve_view in Er as [Hv _]. eapply only_removed_trans; [exact H1|].
    apply only_removed_refl. by destruct x. }
  destruct d as [d|e].
  - intros H. by apply (Hret _ (o, w')) in H.
  - destruct (is_ordinary e); [|by intros [= _ <-]]. intros H. by apply (Hret _ (o, w')) in H.
Qed.

(** An uncounted deletion has removed nothing. *)
Lemma delete_uncounted `{!DeleteLaws W} k w w' : delete_and_confirm k w = (Ok (inl false), w') ->
  forall k', view w' k' = view w k'.
Proof.
  unfold delete_and_confirm. destruct (st_delete k w) as [d w1] eqn:E.
  pose proof (st_delete_law _ _ _ _ E) as [_ Hf].
  assert (Hret : forall f, (let! observed := retrieve st_retrieve k in
      ret (match observed with
           | None => inr indeterminate | Some ONone => inl f | Some _ => inr unconfirmed
           end)) w1 = (Ok (inl false) : outcome (bool + string), w') ->
    f = false /\ forall k', view w' k' = view w1 k').
  { intros f. unfold bind. destruct (retrieve st_retrieve k w1) as [x w2] eqn:Er.
    apply retrieve_view in Er as [Hv _]. destruct x as [ [ []|]|]; try done. by intros [= -> <-]. }
  destruct d as [d|e]; [|destruct (is_ordinary e); [|done] ]; intros [Hd Hv]%Hret; [|done].
  cbn in Hd. apply negb_false_iff, bool_decide_eq_true in Hd as ->.
  intros k'. rewrite Hv. destruct (decide (k' = k)) as [->|?]; [by eapply st_delete_false|auto].
Qed.

Lemma gc_loop_spec max keys : forall deleted w o w', 0 <= deleted <= max ->
  gc_loop max keys deleted w = (o, w') ->
  only_removed (fun k => k ∈ keys) (view w) (view w')
  /\ forall n, o = Ok n -> deleted <= n <= max.
Proof.
  induction keys as [|k keys IH]; intros deleted w o w' Hd; cbn [gc_loop].
  { intros [= <- <-]. split; [by apply only_removed_refl|]. intros n [= <-]. lia. }
  destruct (Z.leb_spec max deleted).
  { intros [= <- <-]. split; [by apply only_removed_refl|]. intros n [= <-]. lia. }
  intros [(c & w1 & Hc & E)|(e & Hc & ->)]%bind_inv; apply delete_and_confirm_spec in Hc.
  2: { split; [|done]. intros k'. destruct (Hc k') as [?|[? <-]]; [by left|right].
       split; [done|left]. }
  destruct c as [c|msg].
  - apply IH in E as [Hr Hn]; [|destruct c; lia]. split.
    + intros k'. destruct (Hr k') as [E'|[E' ?]]; rewrite E'.
      * destruct (Hc k') as [?|[? <-]]; [by left|right]. split; [done|left].
      * right. split; [done|by right].
    + intros n Hn'. apply Hn in Hn'. destruct c; lia.
  - injection E as <- <-. split; [|done]. intros k'.
    destruct (Hc k') as [?|[? <-]]; [by left|right]. split; [done|left].
Qed.

(** Every key that is gone was counted, but the one in hand when a pass is cut
    short. *)
Lemma gc_loop_bound `{!DeleteLaws W} max keys : forall deleted w o w', 0 <= deleted <= max ->
  gc_loop max keys deleted w = (o, w') -> exists gone,
  (forall k, view w' k <> view w k -> k ∈ gone)
  /\ deleted + Z.of_nat (length gone) <= max
  /\ forall n, o = Ok n -> deleted + Z.of_nat (length gone) <= n.
Proof.
  induction keys as [|k keys IH]; intros deleted w o w' Hd; cbn [gc_loop].
  { intros [= <- <-]. exists []. cbn. split; [done|]. split; [lia|]. intros n [= <-]. lia. }
  destruct (Z.leb_spec max deleted).
  { intros [= <- <-]. exists []. cbn. split; [done|]. split; [lia|]. intros n [= <-]. lia. }
  assert (Hone : forall x w1, delete_and_confirm k w = (x, w1) ->
    forall k', k' <> k -> view w1 k' = view w k').
  { intros x w1 Hc k' Hk'. apply delete_and_confirm_spec in Hc.
    by destruct (Hc k') as [?|[_ <-] ]. }
  assert (Hlast : forall w1, (forall k', k' <> k -> view w1 k' = view w k') ->
    forall k', view w1 k' <> view w k' -> k' ∈ [k]).
  { intros w1 Hw k' Hk'. destruct (decide (k' = k)) as [->|?]; [left|by destruct Hk'; auto]. }
  intros [(c & w1 & Hc & E)|(e & Hc & ->)]%bind_inv; pose proof (Hone _ _ Hc) as H1.
  2: { exists [k]. split; [by apply Hlast|]. by split; [cbn; lia|]. }
  destruct c as [ [] |msg].
  - destruct (IH (deleted + 1) _ _ _ ltac:(lia) E) as (gone & Hg & Hb & Hn). exists (k :: gone).
    split; [|split; [cbn; lia|intros n Hn'%Hn; cbn; lia] ].
    intros k' Hk'. destruct (decide (k' = k)) as [->|Hne]; [left|right].
    apply Hg. by rewrite H1.
  - pose proof (delete_uncounted _ _ _ Hc) as Hv.
    destruct (IH deleted _ _ _ Hd E) as (gone & Hg & Hb & Hn). exists gone.
    split; [|done]. intros k' Hk'. apply Hg. by rewrite Hv.
  - injection E as <- <-. exists [k]. split; [by apply Hlast|]. by split; [cbn; lia|].
Qed.

Lemma listing_view lk p w o w' : st_list_keys = Some lk ->
  bounded_storage_listing lk p w = (o, w') -> forall k, view w' k = view w k.
Proof.
  intros Hlk. unfold bounded_storage_listing. destruct (lk _ _ w) as [x w1] eqn:E.
  pose proof (st_list_law lk _ _ _ _ _ Hlk E) as Hv.
  assert (Hw : forall e : outcome (list (option string)), (e, w1) = (o, w') -> w' = w1)
    by (intros e H; by apply (f_equal snd) in H).
  destruct x as [[|next]|[]]; intros H; apply Hw in H as ->; exact Hv.
Qed.

(** The candidates are chunks of generations other than the current one. *)
Definition removable (key current k : string) : Prop :=
  exists g i, g <> current /\ hex_run 32 g = true /\ 0 <= i < MAX_SNAPSHOT_CHUNKS
    /\ k = chunk_key sha256_hex key g i.

Lemma dec_value_nonneg cs : Forall (fun c => is_digit c = true) cs -> 0 <= dec_value cs.
Proof.
  induction cs as [|c cs IH] using rev_ind; [done|]. intros [H1 H2]%Forall_app.
  apply Forall_cons in H2 as [H2 _]. rewrite dec_value_snoc.
  specialize (IH H1). unfold is_digit, digit_value in *. lia.
Qed.

Lemma parse_current_chunk_key_spec k p g i :
  parse_current_chunk_key k p = Some (g, i) ->
  hex_run 32 g = true /\ 0 <= i < MAX_SNAPSHOT_CHUNKS.
Proof.
  unfold parse_current_chunk_key. destruct (cut_prefix _ _) as [suffix|]; [|done].
  destruct (split_on _ suffix) as [|a [|b [|]]]; try done.
  destruct (hex_run 32 _) eqn:Hg; [|done]. cbn [negb].
  destruct (bool_decide (b = []) || negb (forallb is_digit b)) eqn:Hb; [done|].
  apply orb_false_iff in Hb as [_ Hb]. apply negb_false_iff in Hb.
  rewrite forallb_forall in Hb.
  assert (0 <= dec_value b).
  { apply dec_value_nonneg, Forall_forall. intros c Hc. by apply Hb, list_elem_of_In. }
  destruct (_ <? _); [done|]. destruct (_ || _) eqn:E; [done|]. intros [= <- <-].
  split; [done|]. lia.
Qed.

Lemma parse_candidates_spec key current observed : forall parsed,
  Forall (fun cg => removable key current (fst cg)) parsed ->
  Forall (fun cg => removable key current (fst cg)) (parse_candidates sha256_hex key current observed parsed).
Proof.
  induction observed as [|[c|] observed IH]; intros parsed Hp; cbn; [done| |by apply IH].
  apply IH. destruct (parse_current_chunk_key _ _) as [[g i]|] eqn:E; [|done].
  apply parse_current_chunk_key_spec in E as [Hg Hi].
  destruct (_ || _ || _) eqn:Ec; [done|]. apply Forall_app. split; [done|].
  constructor; [|done]. cbn. apply orb_false_iff in Ec as [[Ec1 Ec2]%orb_false_iff _].
  apply negb_false_iff, bool_decide_eq_true in Ec1. apply bool_decide_eq_false in Ec2.
  by exists g, i.
Qed.

Lemma doomed_elem n parsed k : k ∈ doomed n parsed -> k ∈ map fst parsed.
Proof.
  unfold doomed. rewrite list_elem_of_In, in_flat_map. intros (g & _ & Hk).
  apply list_elem_of_In, list_elem_of_fmap in Hk as (cg & -> & [_ Hc]%list_elem_of_filter).
  by apply list_elem_of_fmap_2.
Qed.

Lemma snapshot_generation r v key s g :
  snapshot_at sha256_hex r v key = Ok (inl s) -> sr_generation s = Some g ->
  exists m, manifest_at r v key = Some m /\ m_generation m = g.
Proof.
  unfold snapshot_at, read_terminal, bind, retrieve, view_retrieve, manifest_at. cbn.
  destruct (v key) as [| |b]; [by intros [= <-]|done|].
  destruct (copy_buffer _ _) as [raw|[]]; try done.
  destruct (decode_manifest raw) as [[m|]|]; [|by destruct (_ <? _); intros [= <-]|done].
  intros Hs Hg. exists m. split; [done|]. revert Hs. unfold read_generation.
  destruct (_ || _); [done|]. destruct (_ =? 0).
  { destruct (negb _); [done|]. intros [= <-]. by injection Hg. }
  unfold bind. destruct (read_chunks _ _ _ _ _ _ _ _) as [[[a|]|] ?]; try done.
  do 2 (destruct (negb _); [done|]). intros [= <-]. by injection Hg.
Qed.

Lemma gc_body_spec r key mg md w o w' : 0 < md -> reserved key = false ->
  gc_body sha256_hex r key mg md w = (o, w') ->
  snapshot_at sha256_hex r (view w') key = snapshot_at sha256_hex r (view w) key
  /\ (exists current, only_removed (removable key current) (view w) (view w')
      /\ ((forall k, view w' k = view w k)
          \/ exists m, manifest_at r (view w) key = Some m /\ m_generation m = current))
  /\ forall n, o = Ok n -> 0 <= n <= md.
Proof.
  intros Hmd Hkey. unfold gc_body.
  assert (Hsame : forall w1, (forall k, view w1 k = view w k) ->
    snapshot_at sha256_hex r (view w1) key = snapshot_at sha256_hex r (view w) key
    /\ exists current, only_removed (removable key current) (view w) (view w1)
      /\ ((forall k, view w1 k = view w k)
          \/ exists m, manifest_at r (view w) key = Some m /\ m_generation m = current)).
  { intros w1 Hw. split; [by apply snapshot_at_ext|]. exists EmptyString.
    split; [by apply only_removed_refl|by left]. }
  intros [(c & w1 & Hr & E)|(e & Hr & ->)]%bind_inv; apply (read_terminal_view sha256_hex) in Hr as [Hv Ha].
  2: { destruct (Hsame w' Hv) as [? ?]. by split; [|split]. }
  destruct c as [c|f].
  2: { injection E as <- <-. destruct (Hsame w1 Hv) as [? ?]. by split; [|split]. }
  assert (Hzero : ret 0 w1 = (o, w') ->
    (forall k, view w' k = view w k) /\ forall n, o = Ok n -> 0 <= n <= md).
  { intros [= <- <-]. split; [done|]. intros n [= <-]. lia. }
  destruct (found c); [|destruct (Hzero E) as [H1 H2]; destruct (Hsame w' H1); by split; [|split]].
  destruct (sr_generation c) as [current|] eqn:Eg;
    [|destruct (Hzero E) as [H1 H2]; destruct (Hsame w' H1); by split; [|split]].
  destruct st_list_keys as [lk|] eqn:El.
  2: { injection E as <- <-. destruct (Hsame w1 Hv) as [? ?]. by split; [|split]. }
  cbn in Ha. destruct (snapshot_generation _ _ _ _ _ Ha Eg) as (m & Hm & Hmg).
  apply bind_inv in E as [(obs & w3 & Hl & E)|(e & Hl & ->)];
    pose proof (listing_view _ _ _ _ _ El Hl) as Hv3.
  2: { destruct (Hsame w') as [? ?]; [congruence|]. by split; [|split]. }
  apply gc_loop_spec in E as [Hrem Hn]; [|lia].
  assert (Hrm : only_removed (removable key current) (view w) (view w')).
  { intros k. destruct (Hrem k) as [E|[E Hk]]; [left; congruence|right]. split; [done|].
    apply doomed_elem, list_elem_of_fmap in Hk as (cg & -> & Hk).
    assert (Hp : Forall (fun cg => removable key current (fst cg))
                   (parse_candidates sha256_hex key current obs [])) by by apply parse_candidates_spec.
    rewrite Forall_forall in Hp. by apply Hp. }
  split; [|split].
  - symmetry. apply snapshot_at_ext.
    + destruct (Hrm key) as [E|[_ (g & i & _ & _ & _ & E1)]]; [done|].
      by rewrite E1, chunk_key_reserved in Hkey.
    + intros m' Hm' j. assert (m' = m) as -> by congruence.
      destruct (Hrm (physical_chunk_key sha256_hex (m_version m) key (m_generation m) j))
        as [E|[_ (g & i & Hne & Hg & _ & E)]]; [done|].
      exfalso. eapply other_generation; [exact _|exact Hm|done|exact Hg| |exact E]. congruence.
  - exists current. split; [done|]. right. by exists m.
  - intros n Hn'. by apply Hn.
Qed.
Lemma gc_body_bound `{!DeleteLaws W} r key mg md w o w' : 0 < md ->
  gc_body sha256_hex r key mg md w = (o, w') -> exists gone,
  (forall k, view w' k <> view w k -> k ∈ gone) /\ Z.of_nat (length gone) <= md
  /\ forall n, o = Ok n -> Z.of_nat (length gone) <= n.
Proof.
  intros Hmd. unfold gc_body.
  assert (Hsame : forall w1, (forall k, view w1 k = view w k) -> (forall n, o = Ok n -> 0 <= n) ->
    exists gone, (forall k, view w1 k <> view w k -> k ∈ gone) /\ Z.of_nat (length gone) <= md
      /\ forall n, o = Ok n -> Z.of_nat (length gone) <= n).
  { intros w1 Hw Hn. exists []. split; [intros k Hk; by destruct (Hk (Hw k))|]. split; [cbn; lia|auto]. }
  intros [(c & w1 & Hr & E)|(e & Hr & ->)]%bind_inv; apply (read_terminal_view sha256_hex) in Hr as [Hv _].
  2: { by apply Hsame. }
  destruct c as [c|f]; [|injection E as <- <-; by apply Hsame].
  assert (Hzero : ret 0 w1 = (o, w') -> w' = w1 /\ forall n, o = Ok n -> 0 <= n).
  { intros [= <- <-]. split; [done|]. intros n [= <-]. lia. }
  destruct (found c); [|destruct (Hzero E) as [-> ?]; by apply Hsame].
  destruct (sr_generation c) as [current|]; [|destruct (Hzero E) as [-> ?]; by apply Hsame].
  destruct st_list_keys as [lk|] eqn:El; [|injection E as <- <-; by apply Hsame].
  apply bind_inv in E as [(obs & w3 & Hl & E)|(e & Hl & ->)];
    pose proof (listing_view _ _ _ _ _ El Hl) as Hv3.
  2: { apply Hsame; [congruence|done]. }
  apply gc_loop_bound in E as (gone & Hg & Hb & Hn); [|lia]. exists gone.
  split; [|done]. intros k Hk. apply Hg. congruence.
Qed.
End Maintenance.

(** ** Leases *)
Record lease_inv (s : threads) : Prop := LeaseInv {
  li_readers : active_readers (lease_state s) = Z.of_nat (length (readers s));
  li_commits : active_commits (lease_state s) = Z.of_nat (length (commits s));
  li_reader_threads : forall t, count_of (reader_threads (lease_state s)) t
                              = Z.of_nat (count_occ Nat.eq_dec (readers s) t);
  li_commit_threads : forall t, count_of (commit_threads (lease_state s)) t
                              = Z.of_nat (count_occ Nat.eq_dec (commits s) t);
  li_owner : forall t, doing s t <> Idle <->
    maintenance_active (lease_state s) = true /\ maintenance_owner (lease_state s) = Some t;
  li_active : maintenance_active (lease_state s) = true ->
    exists t, maintenance_owner (lease_state s) = Some t;
  li_run : forall t, doing s t = Maintaining -> readers s = [] /\ commits s = []
}.

Lemma count_of_insert m t u x :
  count_of (<[t := x]> m) u = if decide (t = u) then x else count_of m u.
Proof. unfold count_of. rewrite lookup_insert. by case_decide. Qed.

Lemma count_of_uncount m t u : 0 < count_of m t ->
  count_of (uncount m t) u = count_of m u - (if decide (t = u) then 1 else 0).
Proof.
  intros Ht. unfold uncount. assert (exists x, m !! t = Some x /\ 0 < x) as (x & Hx & Hp).
  { unfold count_of in Ht. destruct (m !! t) as [x|]; [by exists x|cbn in Ht; lia]. }
  rewrite Hx. change (default 1 (Some x)) with x. destruct (Z.eqb_spec (Z.max 0 (x - 1)) 0) as [E|E].
  - unfold count_of. rewrite lookup_delete. case_decide as Hd; [|lia]. subst u. rewrite Hx. cbn. lia.
  - rewrite count_of_insert. case_decide as Hd; [|lia]. subst u. unfold count_of. rewrite Hx. cbn. lia.
Qed.

Lemma count_occ_middle l1 t l2 u :
  count_occ Nat.eq_dec (l1 ++ t :: l2) u
  = (count_occ Nat.eq_dec (l1 ++ l2) u + if decide (t = u) then 1 else 0)%nat.
Proof. rewrite !count_occ_app. cbn. destruct (Nat.eq_dec t u), (decide (t = u)); lia || done. Qed.

Lemma count_cons l t u :
  Z.of_nat (count_occ Nat.eq_dec (t :: l) u)
  = Z.of_nat (count_occ Nat.eq_dec l u) + if decide (t = u) then 1 else 0.
Proof. cbn. destruct (Nat.eq_dec t u), (decide (t = u)); lia || done. Qed.

(** The bookkeeping of one opened or closed lease. *)
Lemma count_enter m l t : (forall u, count_of m u = Z.of_nat (count_occ Nat.eq_dec l u)) ->
  forall u, count_of (<[t := count_of m t + 1]> m) u = Z.of_nat (count_occ Nat.eq_dec (t :: l) u).
Proof.
  intros H u. rewrite count_of_insert, count_cons. case_decide as E; [subst; by rewrite H|].
  rewrite H. lia.
Qed.

Lemma count_exit m l1 t l2 :
  (forall u, count_of m u = Z.of_nat (count_occ Nat.eq_dec (l1 ++ t :: l2) u)) ->
  forall u, count_of (uncount m t) u = Z.of_nat (count_occ Nat.eq_dec (l1 ++ l2) u).
Proof.
  intros H u. rewrite count_of_uncount.
  - rewrite H, count_occ_middle. case_decide; lia.
  - rewrite H, count_occ_middle, decide_True by done. lia.
Qed.

Lemma idle_when_inactive s : lease_inv s -> maintenance_active (lease_state s) = false ->
  forall t, doing s t = Idle.
Proof.
  intros [_ _ _ _ Ho _ _] Hf t. destruct (doing s t) eqn:E; [done| |];
    assert (H : doing s t <> Idle) by congruence; apply Ho in H as [H _]; congruence.
Qed.

Lemma lease_inv_step s s' : lease_inv s -> step s s' -> lease_inv s'.
Proof.
  intros Hi Hs. pose proof (idle_when_inactive s Hi) as Hidle.
  destruct Hi as [R C RT CT O A Run]; destruct Hs as
    [t l l' r c d He|t l r1 r2 c d|t l l' r c d He|t l r c1 c2 d|t l l' r c d He|t l r c d Hw Hc|t l r c d Hn];
    cbn [lease_state readers commits doing] in *.
  - unfold reader_enter in He. destruct (maintenance_active l) eqn:Em; [by case_bool_decide|].
    injection He as <-. constructor; cbn [lease_state readers commits doing active_readers
      active_commits reader_threads commit_threads maintenance_active maintenance_owner]; try done.
    + cbn. lia.
    + by apply count_enter.
    + intros u Hu. by rewrite Hidle in Hu.
  - constructor; cbn; try done.
    + rewrite R, !length_app. cbn. lia.
    + by apply count_exit.
    + intros u [Hu _]%Run. by destruct r1.
  - unfold commit_enter in He. destruct (maintenance_active l) eqn:Em; [by case_bool_decide|].
    injection He as <-. constructor; cbn [lease_state readers commits doing active_readers
      active_commits reader_threads commit_threads maintenance_active maintenance_owner]; try done.
    + cbn. lia.
    + by apply count_enter.
    + intros u Hu. by rewrite Hidle in Hu.
  - constructor; cbn; try done.
    + rewrite C, !length_app. cbn. lia.
    + by apply count_exit.
    + intros u [_ Hu]%Run. by destruct c1.
  - unfold maintenance_publish in He. destruct (maintenance_active l) eqn:Em.
    { by destruct (bool_decide _), (_ || _). }
    cbn in He. destruct (_ || _); [done|]. injection He as <-. constructor; cbn; try done.
    + intros u. unfold set_doing. destruct (Nat.eqb_spec u t) as [->|Hne]; [done|].
      rewrite Hidle by done. split; [done|]. intros [_ [= ->]]. done.
    + intros _. by exists t.
    + intros u. unfold set_doing. destruct (u =? t)%nat; [done|]. by rewrite Hidle.
  - constructor; cbn; try done.
    + intros u. unfold set_doing. destruct (Nat.eqb_spec u t) as [->|Hne]; [|apply O].
      rewrite <- O, Hw. done.
    + intros u _. unfold maintenance_clear in Hc. destruct r, c; cbn in *; lia || done.
  - apply O in Hn as [Hm Ht]. constructor; cbn; try done.
    + intros u. unfold set_doing. destruct (Nat.eqb_spec u t) as [->|Hne]; [by split; [|intros []]|].
      split; [|by intros []]. intros [_ Hu]%O. congruence.
    + intros u. unfold set_doing. destruct (u =? t)%nat; [done|]. apply Run.
Qed.

Lemma lease_inv_reachable s : rtc step start s -> lease_inv s.
Proof.
  intros Hr. assert (Hi : lease_inv start) by (by constructor; cbn; try done; intros; split; [|intros []]).
  induction Hr; eauto using lease_inv_step.
Qed.

(** Maintenance runs alone: no reader, no writer, no second maintainer; a
    thread that holds a lease is refused maintenance instead of waiting for
    itself; and a raised fence always has an owner that will lower it. *)
Theorem maintenance_exclusive s (Hreach : rtc step start s) t :
  (doing s t = Maintaining ->
     readers s = [] /\ commits s = [] /\ forall u, doing s u <> Idle -> u = t)
  /\ (t ∈ readers s \/ t ∈ commits s -> maintenance_publish t (lease_state s) = Refused)
  /\ (maintenance_active (lease_state s) = true -> exists u, doing s u <> Idle).
Proof.
  apply lease_inv_reachable in Hreach as [R C RT CT O A Run]. split; [|split].
  - intros Hd. destruct (Run t Hd) as [H1 H2]. repeat split; auto.
    intros u Hu. assert (Ht : doing s t <> Idle) by congruence.
    apply O in Hu as [_ Hu], Ht as [_ Ht]. congruence.
  - intros Hin. unfold maintenance_publish. destruct (_ && _); [done|].
    replace (_ || _) with true; [done|]. symmetry. apply orb_true_iff.
    rewrite !negb_true_iff, !Z.eqb_neq, RT, CT.
    assert (Hpos : forall l : list nat, t ∈ l -> Z.of_nat (count_occ Nat.eq_dec l t) <> 0).
    { intros l Hl%list_elem_of_In. apply (count_occ_In Nat.eq_dec) in Hl. lia. }
    destruct Hin as [Hin|Hin]; [left|right]; by apply Hpos.
  - intros Hm. destruct (A Hm) as [u Hu]. exists u. by apply O.
Qed.

(** ** Truncated manifests *)

(** The text of a manifest up to the end of its schema value. *)
Definition manifest_head : bytes :=
  encode ("{" ++ quoted "schema" ++ ":" ++ quoted MANIFEST_SCHEMA)%string.

Lemma encode_manifest_head m : exists rest, encode_manifest m = manifest_head ++ rest.
Proof. eexists (encode ("," ++ _)%string). reflexivity. Qed.

Lemma marker_after_head rest : has_current_manifest_marker (manifest_head ++ rest) = true.
Proof. reflexivity. Qed.

Definition in_first_key (n : nat) : bool := (3 <=? n)%nat && (n <=? 9)%nat.

Lemma marker_in_head n : (0 < n <= length manifest_head)%nat ->
  has_current_manifest_marker (take n manifest_head) = negb (in_first_key n).
Proof.
  intros Hn. assert (Hc : forallb (fun n => Bool.eqb (has_current_manifest_marker (take n manifest_head))
                   (negb (in_first_key n))) (seq 1 (length manifest_head)) = true) by by vm_compute.
  rewrite forallb_forall in Hc. apply Bool.eqb_prop, Hc, in_seq. lia.
Qed.

(** A manifest whose text was cut off is reported as invalid and never taken for
    a raw payload of the legacy format, unless the cut falls inside its first
    key (bytes 3 to 9), where the recognition of the marker has a gap. *)
Theorem truncated_manifest {J : JsonText} m n
    (Hg : hex_run 32 (m_generation m) = true) (Hc : hex_run 64 (m_checksum m) = true)
    (Hl : 0 <= m_length m < 10 ^ 12) (Hcb : 0 <= m_chunk_bytes m < 10 ^ 12)
    (Hn : 0 <= m_chunks m < 10 ^ 12) (Hpos : (0 < n)%nat)
    (Hcut : json_loads (take n (encode_manifest m)) = Raise EDecode) :
  decode_manifest (take n (encode_manifest m))
  = if in_first_key n then inl None else inr bad_schema.
Proof.
  pose proof (encode_manifest_length m Hg Hc Hl Hcb Hn) as Hlen.
  unfold decode_manifest. rewrite Hcut.
  assert (Htake : Z.of_nat (length (take n (encode_manifest m))) <= MAX_MANIFEST_BYTES)
    by (rewrite length_take; lia).
  replace (_ <? _) with false by lia.
  enough (has_current_manifest_marker (take n (encode_manifest m)) = negb (in_first_key n)) as ->
    by by destruct (in_first_key n).
  destruct (encode_manifest_head m) as [rest ->].
  destruct (decide (n <= length manifest_head)%nat) as [Hh|Hh].
  - rewrite take_app_le by done. apply marker_in_head. lia.
  - rewrite take_app_ge by lia. rewrite marker_after_head. unfold in_first_key.
    symmetry. apply negb_true_iff, andb_false_iff. right. apply Nat.leb_gt.
    assert (9 < length manifest_head)%nat by (vm_compute; lia). lia.
Qed.

(** ** The public operations *)
Section Public.
Context {J : JsonText} (sha256_hex : bytes -> string) `{!Sha256 sha256_hex}.
Context {W : Type} {St : Storage W} {SL : StorageLaws W} {MT : ManifestText}.

(** C2. A commit is atomic.  Whatever the backend writes report, and wherever an
    error or a signal stops it, a reader of the key afterwards finds the
    snapshot that was there before or the complete new one; a commit that
    reports success leaves the new one.  The snapshots of other keys are not
    disturbed (v4 snapshots aside, whose chunk keys are ordinary names). *)
Theorem commit_atomic t r key state l w o l' w'
    (Hr : valid_repository r) (Hfresh : fresh_generation r w)
    (Hrun : commit sha256_hex t r key state (l, w) = (o, (l', w'))) :
  (snapshot_at sha256_hex r (view w') key = snapshot_at sha256_hex r (view w) key
     /\ o <> Ok (Some tt)
   \/ exists g, snapshot_at sha256_hex r (view w') key
              = Ok (inl (SnapshotRead true state true (Some g))))
  /\ forall k, k <> key -> reserved k = false ->
     (forall m, manifest_at r (view w) k = Some m -> m_version m <> 4) ->
     snapshot_at sha256_hex r (view w') k = snapshot_at sha256_hex r (view w) k.
Proof.
  unfold commit in Hrun. destruct (validate_logical_key key) as [[]|e] eqn:Ek.
  2: { injection Hrun as <- <- <-. split; [by left|done]. }
  destruct (commit_enter t l); [|injection Hrun as <- <- <-; split; [by left|done]..].
  destruct (commit_terminal _ _ _ _ w) as [o1 w1] eqn:Ec.
  assert (w' = w1 /\ (o = Ok (Some tt) -> o1 = Ok None)) as [-> Ho].
  { destruct o1 as [[?|]|?]; injection Hrun as <- _ <-; by split. }
  destruct (commit_terminal_spec sha256_hex r key state w o1 w1) as [[[H1 H2]|H1] H3]; try done.
  - split; [left|done]. split; [done|]. by intros ?%Ho.
  - split; [by right|done].
Qed.

(** What [read] returns is what is stored: the reading leaves the storage
    alone, answers the reference reading of the stored objects, and hands out
    the state of a manifest only when its length and digest are the committed
    ones. *)
Theorem read_checked t r key l w o l' w'
    (Hrun : read sha256_hex t r key (l, w) = (o, (l', w'))) :
  (forall k, view w' k = view w k)
  /\ forall s, o = Ok (Some s) ->
     snapshot_at sha256_hex r (view w) key = Ok (inl s)
     /\ (sr_manifest s = true ->
         exists m, manifest_at r (view w) key = Some m
           /\ sr_generation s = Some (m_generation m)
           /\ (forall b, sr_state s = Some b ->
                 sha256_hex b = m_checksum m /\ Z.of_nat (length b) = m_length m)
           /\ m_length m <= max_bytes r).
Proof.
  unfold read in Hrun. destruct (validate_logical_key key).
  2: { by injection Hrun as <- _ <-. }
  destruct (reader_enter t l); [|by injection Hrun as <- _ <-..].
  destruct (read_terminal _ _ _ _ w) as [o1 w1] eqn:Er.
  apply (read_terminal_view sha256_hex) in Er as [Hv Ha].
  destruct o1 as [[s|]|]; injection Hrun as <- <- <-; (split; [exact Hv|]); [|done..].
  intros s' [= <-]. cbn in Ha. split; [done|]. intros Hm.
  revert Ha. unfold snapshot_at, read_terminal, bind, retrieve, view_retrieve, manifest_at. cbn.
  destruct (view w key) as [| |b]; [by intros [= <-]|done|].
  destruct (copy_buffer _ _) as [raw|[]]; try done.
  destruct (decode_manifest raw) as [[m|]|]; [|by destruct (_ <? _); intros [= <-]|done].
  unfold read_generation. destruct (_ || _) eqn:Elim; [done|].
  intros Hs. exists m. split; [done|]. destruct (Z.eqb_spec (m_length m) 0) as [E0|E0].
  - destruct (bool_decide _) eqn:Eb; [|done]. apply bool_decide_eq_true in Eb.
    injection Hs as <-. split; [done|]. split; [|lia]. cbn.
    intros b' Hb. destruct (m_state_present m); [|done]. injection Hb as <-. by rewrite E0.
  - unfold bind in Hs. destruct (read_chunks _ _ _ _ _ _ _ _) as [[[st|]|] ?]; try done.
    destruct (Z.eqb_spec (Z.of_nat (length st)) (m_length m)); [|done].
    destruct (bool_decide _) eqn:Eb; [|done]. apply bool_decide_eq_true in Eb.
    injection Hs as <-. split; [done|]. split; [|lia]. by intros b' [= <-].
Qed.

(** C10. A collection pass never disturbs the committed snapshot: whatever happens,
    the only effect on the storage is that chunks of generations other than the
    one the stored manifest names are gone, and no more keys than the requested
    number of deletions; a pass that returns has counted at least the keys that
    are gone and at most the requested number. *)
Theorem gc_safe `{!DeleteLaws W} t r key quiescent mg md l w o l' w'
    (Hrun : gc sha256_hex t r key quiescent mg md (l, w) = (o, (l', w'))) :
  snapshot_at sha256_hex r (view w') key = snapshot_at sha256_hex r (view w) key
  /\ (forall k, view w' k <> view w k ->
      view w' k = ONone /\ exists m, manifest_at r (view w) key = Some m
        /\ removable sha256_hex key (m_generation m) k)
  /\ (exists gone, (forall k, view w' k <> view w k -> k ∈ gone)
      /\ Z.of_nat (length gone) <= Z.max 0 (default 0 (int_arg md))
      /\ forall n, o = Ok (Some n) -> Z.of_nat (length gone) <= n)
  /\ forall n, o = Ok (Some n) ->
     0 <= n <= MAX_SNAPSHOT_GC_DELETIONS /\ int_arg md = Some (Z.max n (default 0 (int_arg md))).
Proof.
  assert (Hid : forall e, e = o /\ w = w' -> (forall n, e <> Ok (Some n)) ->
    (exists gone, (forall k, view w' k <> view w k -> k ∈ gone)
      /\ Z.of_nat (length gone) <= Z.max 0 (default 0 (int_arg md))
      /\ forall n, o = Ok (Some n) -> Z.of_nat (length gone) <= n)).
  { intros e [<- <-] Hn. exists []. split; [by intros k ?|]. split; [cbn; lia|by intros n ?%Hn]. }
  unfold gc in Hrun. destruct (gc_arguments _ _ _ _) as [[g d]|e] eqn:Ea.
  2: { injection Hrun as Ho _ Hw. pose proof (Hid _ (conj Ho Hw)) as H. subst. by split_and!; auto. }
  unfold gc_arguments in Ea. destruct (validate_logical_key key) as [[]|] eqn:Ek; [|done].
  apply validated_unreserved in Ek. cbn [obind] in Ea. destruct quiescent; [|done]. cbn [negb] in Ea.
  destruct (int_arg mg) as [g'|]; [|done]. destruct (int_arg md) as [d'|] eqn:Ed; [|done].
  destruct (_ || _) eqn:E1; [done|]. destruct (_ || _) eqn:E2 in Ea; [done|]. injection Ea as <- <-.
  destruct (maintenance_publish t l) as [l1| |];
    [|injection Hrun as Ho _ Hw; pose proof (Hid _ (conj Ho Hw)) as H; subst; by split_and!; auto..].
  destruct (maintenance_clear _).
  2: { injection Hrun as Ho _ Hw; pose proof (Hid _ (conj Ho Hw)) as H; subst; by split_and!; auto. }
  destruct (gc_body _ _ _ _ _ w) as [o1 w1] eqn:Eg. clear Hid. injection Hrun as <- _ <-.
  pose proof Eg as Hgone.
  apply (gc_body_bound sha256_hex) in Hgone as (gone & Hg1 & Hg2 & Hg3); [|lia].
  apply (gc_body_spec sha256_hex) in Eg as (H1 & (cur & H2 & H3) & H4); [|lia|done].
  split; [done|]. split.
  - intros k Hk. destruct (H2 k) as [?|[Hn Hrm]]; [done|]. split; [done|].
    destruct H3 as [H3|(m & Hm & <-)]; [by destruct Hk|]. by exists m.
  - split; [exists gone; split; [done|]; split; [cbn; lia|] |].
    { intros n Hn. apply Hg3. destruct o1; [|done]. by injection Hn as ->. }
    intros n Hn. destruct o1 as [n'|]; [|done]. injection Hn as ->. specialize (H4 n eq_refl).
    cbn. split; [|f_equal; lia]. lia.
Qed.
End Public.

(** ** A concrete setting: an in-memory storage with scripted faults *)
Module Examples.

(** A write works, is lost, takes effect and then raises, or is interrupted. *)
Inductive fault := Fine | Lost | Late | Signal.
Record mem := Mem { objs : list (string * bytes); script : list fault; ids : list string }.

Fixpoint obj_at (k : string) (l : list (string * bytes)) : option bytes :=
  match l with
  | [] => None
  | (k', b) :: l' => if bool_decide (k = k') then Some b else obj_at k l'
  end.
Definition remove_obj (k : string) (l : list (string * bytes)) : list (string * bytes) :=
  List.filter (fun kb => negb (bool_decide (k = fst kb))) l.
Definition put_obj (k : string) (b : bytes) (w : mem) (s : list fault) : mem :=
  Mem ((k, b) :: remove_obj k (objs w)) s (ids w).

#[export] Instance mem_storage : Storage mem := {|
  st_backend_type := Some "redis"%string;
  st_store k b := fun w =>
    match script w with
    | [] => (Ok tt, put_obj k b w [])
    | Fine :: s => (Ok tt, put_obj k b w s)
    | Lost :: s => (Raise EBackend, Mem (objs w) s (ids w))
    | Late :: s => (Raise EBackend, put_obj k b w s)
    | Signal :: s => (Raise (ECtl 0), Mem (objs w) s (ids w))
    end;
  st_retrieve k := fun w =>
    (Ok (match obj_at k (objs w) with Some b => obj_bytes b | None => ONone end), w);
  st_delete k := fun w =>
    (Ok (Some (bool_decide (is_Some (obj_at k (objs w))))),
     Mem (remove_obj k (objs w)) (script w) (ids w));
  st_list_keys := Some (fun prefix limit w =>
    let keys := List.filter (starts_with prefix) (map fst (objs w)) in
    (Ok (Iterable (fun n => match keys !! n with Some k => Next (Some k) | None => Stop end)), w));
  uuid4_hex := fun w =>
    match ids w with
    | g :: ids' => if hex_run 32 g then (Ok g, Mem (objs w) (script w) ids') else (Raise EBackend, w)
    | [] => (Raise EBackend, w)
    end
|}.

Definition mem_view (w : mem) : store_view := fun k =>
  match obj_at k (objs w) with Some b => obj_bytes b | None => ONone end.

Lemma obj_at_remove k l k' :
  obj_at k' (remove_obj k l) = if decide (k = k') then None else obj_at k' l.
Proof.
  induction l as [|[k1 b] l IH]; cbn [remove_obj List.filter fst obj_at]; [by case_decide|].
  unfold remove_obj in IH. case_bool_decide as E1; cbn [negb obj_at]; rewrite ?IH;
    repeat (case_decide || case_bool_decide); congruence.
Qed.

Lemma mem_view_put k b w s k' :
  mem_view (put_obj k b w s) k' = if decide (k = k') then obj_bytes b else mem_view w k'.
Proof.
  unfold mem_view, put_obj. cbn [objs obj_at]. rewrite obj_at_remove.
  case_decide; case_bool_decide; congruence.
Qed.

#[export] Instance mem_laws : StorageLaws mem.
Proof.
  refine {| view := mem_view |}.
  - intros k b w o w'. cbn. destruct (script w) as [|[] s]; intros [= <- <-]; split;
      try (intros k' Hk'; rewrite ?mem_view_put, ?decide_False by congruence; done);
      rewrite ?mem_view_put, ?decide_True by done; auto.
  - intros k w o w'. cbn. intros [= <- <-]. split; [done|]. by intros x [= <-].
  - intros k w o w'. cbn. intros [= <- <-]. unfold mem_view. cbn [objs]. split.
    + left. by rewrite obj_at_remove, decide_True.
    + intros k' Hk'. by rewrite obj_at_remove, decide_False by congruence.
  - intros f p n w o w'. cbn. intros [= <-]. by intros [= _ <-].
  - intros w o w'. cbn. destruct (ids w) as [|g l]; [by intros [= <- <-]|].
    destruct (hex_run 32 g) eqn:E; intros [= <- <-]; (split; [done|]); [by intros ? [= <-]|done].
Defined.

#[export] Instance mem_delete_laws : DeleteLaws mem.
Proof.
  constructor. intros k w w'. cbn. intros [= E <-]. cbn. unfold mem_view. cbn [objs].
  apply bool_decide_eq_false in E. rewrite obj_at_remove, decide_True by done.
  destruct (obj_at k (objs w)); [|done]. by destruct E.
Qed.

(** A digest of the right shape: a check digit, 64 times. *)
Definition hex_digit (i : Z) : ascii :=
  match String.get (Z.to_nat i) "0123456789abcdef" with Some c => c | None => "0"%char end.
Definition digest (b : bytes) : string :=
  string_of_list_ascii (replicate 64
    (hex_digit (fold_left (fun a x => (7 * a + Z_of_byte x + 1) mod 16) b 0))).

Lemma hex_digit_hex i : is_lower_hex (hex_digit i) = true.
Proof.
  unfold hex_digit. remember (Z.to_nat i) as n eqn:E. clear E.
  do 16 (destruct n as [|n]; [done|]). by destruct n.
Qed.

#[export] Instance digest_sha : Sha256 digest.
Proof.
  constructor. intros b. unfold hex_run, digest.
  rewrite <- length_list_ascii, list_ascii_of_string_of_list_ascii, length_replicate.
  apply andb_true_iff. split; [done|]. apply forallb_forall.
  intros c Hc%list_elem_of_In%elem_of_replicate. destruct Hc as [-> _]. apply hex_digit_hex.
Qed.

(** A reader of manifest texts. *)
Definition lits (s : string) : list ascii := list_ascii_of_string s.
Definition field_open (k : string) : string := ("," ++ quoted k ++ ":")%string.

Definition manifest_opening : string :=
  ("{" ++ quoted "schema" ++ ":" ++ quoted MANIFEST_SCHEMA ++ "," ++ quoted "version" ++ ":7,"
   ++ quoted "generation" ++ ":" ++ quotation_mark)%string.

Definition ostrip (s : string) (o : list ascii) : option (list ascii) := cut_prefix (lits s) o.

Definition parse_text (l : list ascii) : option manifest :=
  l ← ostrip manifest_opening l;
  let '(g, l) := span is_lower_hex l in
  l ← ostrip (quotation_mark ++ field_open "length") l;
  let '(n, l) := span is_digit l in
  l ← ostrip (field_open "chunk_bytes") l;
  let '(cb, l) := span is_digit l in
  l ← ostrip (field_open "chunks") l;
  let '(c, l) := span is_digit l in
  l ← ostrip (field_open "sha256" ++ quotation_mark) l;
  let '(sha, l) := span is_lower_hex l in
  l ← ostrip (quotation_mark ++ field_open "state") l;
  let present := if decide (l = lits (quoted STATE_BYTES ++ "}")) then Some true
                 else if decide (l = lits (quoted STATE_NONE ++ "}")) then Some false else None in
  p ← present;
  Some (Manifest MANIFEST_VERSION (string_of_list_ascii g) (dec_value n) (dec_value cb)
          (dec_value c) (string_of_list_ascii sha) p).

#[export] Instance text : JsonText := {|
  json_dumps _ := [];
  json_loads b := match parse_text (map ascii_of_byte b) with
                  | Some m => Ok (JObj (manifest_object m))
                  | None => Raise EDecode
                  end;
  float_of_string _ := None
|}.

Lemma map_ascii_encode s : map ascii_of_byte (encode s) = list_ascii_of_string s.
Proof.
  unfold encode, list_byte_of_string. induction s as [|c s IH]; [done|]. cbn.
  by rewrite ascii_of_byte_of_ascii, IH.
Qed.

Lemma encode_manifest_chars m :
  map ascii_of_byte (encode_manifest m) =
  lits manifest_opening ++ lits (m_generation m)
  ++ lits (quotation_mark ++ field_open "length") ++ lits (decimal (m_length m))
  ++ lits (field_open "chunk_bytes") ++ lits (decimal (m_chunk_bytes m))
  ++ lits (field_open "chunks") ++ lits (decimal (m_chunks m))
  ++ lits (field_open "sha256" ++ quotation_mark) ++ lits (m_checksum m)
  ++ lits (quotation_mark ++ field_open "state")
  ++ lits (quoted (if m_state_present m then STATE_BYTES else STATE_NONE) ++ "}").
Proof.
  unfold encode_manifest. rewrite map_ascii_encode. unfold lits, manifest_opening, quoted, field_open.
  unfold quoted. repeat rewrite list_ascii_app. change (decimal MANIFEST_VERSION) with "7"%string.
  cbn [list_ascii_of_string quotation_mark]. repeat (rewrite <- app_assoc || cbn [app]). reflexivity.
Qed.

#[export] Instance text_laws : ManifestText.
Proof.
  constructor. intros m Hg Hc Hl Hcb Hn. cbn [json_loads text]. rewrite encode_manifest_chars.
  apply hex_run_spec in Hg as [_ Hg], Hc as [_ Hc].
  unfold parse_text, ostrip.
  rewrite cut_prefix_app. cbn [mbind option_bind].
  rewrite span_app by (done || apply Hg). rewrite cut_prefix_app. cbn [mbind option_bind].
  rewrite span_app by (done || (apply decimal_digits; lia)). rewrite cut_prefix_app. cbn [mbind option_bind].
  rewrite span_app by (done || (apply decimal_digits; lia)). rewrite cut_prefix_app. cbn [mbind option_bind].
  rewrite span_app by (done || (apply decimal_digits; lia)). rewrite cut_prefix_app. cbn [mbind option_bind].
  rewrite span_app by (done || apply Hc). rewrite cut_prefix_app. cbn [mbind option_bind].
  unfold lits. rewrite !decimal_value, !string_of_list_ascii_of_string by lia.
  unfold manifest_object. destruct (m_state_present m).
  - by rewrite decide_True.
  - by rewrite decide_False, decide_True by (done || (vm_compute; congruence)).
Qed.

Definition repo : repository := Repo 100 4.
Definition gen (c : string) : string := (c ++ "0123456789abcdef0123456789abcde")%string.
Definition payload1 : bytes := encode "hello".
Definition payload2 : bytes := encode "the second".

(** A store with one committed snapshot, and faults waiting for the next. *)
Definition committed : mem := Mem [] [] [gen "1"; gen "2"].
Definition after1 : mem := snd (snd (commit digest 0 repo "q" (Some payload1) (no_lease, committed))).
Definition faulty (s : list fault) : mem := Mem (objs after1) s [gen "2"].

Lemma repo_valid : valid_repository repo.
Proof. exists (AInt 100), (AInt 4). by vm_compute. Qed.

Definition fresh_check (w : mem) (g : string) : bool :=
  forallb (fun kb => match manifest_at repo (mem_view w) (fst kb) with
                     | Some m => negb (bool_decide (m_generation m = g))
                     | None => true
                     end) (objs w).

Lemma fresh_check_ok w g l : ids w = g :: l -> fresh_check w g = true -> fresh_generation repo w.
Proof.
  intros Hi Hc g' w1 Hu k m Hm. cbn in Hu. rewrite Hi in Hu.
  assert (g' = g) as -> by (by destruct (hex_run 32 g); injection Hu).
  unfold fresh_check in Hc. rewrite forallb_forall in Hc.
  destruct (obj_at k (objs w)) as [b|] eqn:E.
  - assert (Hin : In (k, b) (objs w)).
    { clear -E. induction (objs w) as [|[k' b'] l IH]; cbn in *; [done|].
      case_bool_decide; [left; congruence|right; auto]. }
    apply Hc in Hin. cbn [fst] in Hin. change (view w) with (mem_view w) in Hm.
    rewrite Hm in Hin. intros Heq. by rewrite bool_decide_true in Hin.
  - exfalso. unfold manifest_at in Hm. cbn in Hm. unfold mem_view in Hm. by rewrite E in Hm.
Qed.

(** The second commit loses its third chunk: the first snapshot stays. *)
Definition interrupted_run : outcome (option unit) * (lease * mem) :=
  commit digest 0 repo "q" (Some payload2) (no_lease, faulty [Fine; Late; Lost]).
Definition interrupted : mem := snd (snd interrupted_run).

Lemma commit_atomic_witness :
  fst interrupted_run = Raise (ESnapshot "Snapshot chunk write failed.")
  /\ snapshot_at digest repo (mem_view interrupted) "q"
     = Ok (inl (SnapshotRead true (Some payload1) true (Some (gen "1"))))
  /\ (snapshot_at digest repo (mem_view interrupted) "q"
      = snapshot_at digest repo (mem_view (faulty [Fine; Late; Lost])) "q"
      /\ fst interrupted_run <> Ok (Some tt)
     \/ exists g, snapshot_at digest repo (mem_view interrupted) "q"
                = Ok (inl (SnapshotRead true (Some payload2) true (Some g)))).
Proof.
  split; [vm_compute; reflexivity|]. split; [vm_compute; reflexivity|].
  assert (E : commit digest 0 repo "q" (Some payload2) (no_lease, faulty [Fine; Late; Lost])
              = (fst interrupted_run, (no_lease, interrupted))) by (vm_compute; reflexivity).
  assert (Hf : fresh_generation repo (faulty [Fine; Late; Lost]))
    by (apply (fresh_check_ok _ (gen "2") []); vm_compute; reflexivity).
  exact (proj1 (commit_atomic digest 0 repo "q" (Some payload2) no_lease (faulty [Fine; Late; Lost])
    _ no_lease interrupted repo_valid Hf E)).
Defined.

(** A commit whose manifest write raised after taking effect is a success. *)
Example late_manifest :
  let run := commit digest 0 repo "q" (Some payload2)
               (no_lease, faulty [Fine; Fine; Fine; Late]) in
  fst run = Ok (Some tt)
  /\ fst (read digest 0 repo "q" (snd run))
     = Ok (Some (SnapshotRead true (Some payload2) true (Some (gen "2")))).
Proof. vm_compute. split; reflexivity. Qed.

Lemma read_checked_witness :
  exists m, manifest_at repo (mem_view after1) "q" = Some m
    /\ digest payload1 = m_checksum m /\ Z.of_nat (length payload1) = m_length m.
Proof.
  assert (E : read digest 0 repo "q" (no_lease, after1)
    = (Ok (Some (SnapshotRead true (Some payload1) true (Some (gen "1")))), (no_lease, after1)))
    by (vm_compute; reflexivity).
  pose proof (read_checked digest 0 repo "q" no_lease after1 _ no_lease after1 E) as [_ H].
  destruct (H _ eq_refl) as (_ & H2). destruct (H2 eq_refl) as (m & Hm & _ & H3 & _).
  exists m. split; [exact Hm|]. by apply H3.
Defined.

(** After a failed second commit its orphaned chunks are collected. *)
Definition orphaned : mem :=
  snd (snd (commit digest 0 repo "q" (Some payload2) (no_lease, faulty [Fine; Fine; Lost]))).

Definition collected_run : outcome (option Z) * (lease * mem) :=
  gc digest 0 repo "q" true (AInt 16) (AInt 8) (no_lease, orphaned).
Definition collected : mem := snd (snd collected_run).

Lemma gc_safe_witness :
  fst collected_run = Ok (Some 2)
  /\ snapshot_at digest repo (mem_view collected) "q"
     = snapshot_at digest repo (mem_view orphaned) "q".
Proof.
  split; [vm_compute; reflexivity|].
  assert (E : gc digest 0 repo "q" true (AInt 16) (AInt 8) (no_lease, orphaned)
              = (fst collected_run, (no_lease, collected))) by (vm_compute; reflexivity).
  pose proof (gc_safe digest 0 repo "q" true (AInt 16) (AInt 8) no_lease orphaned
    _ no_lease collected E) as [H _]. exact H.
Defined.

Lemma maintenance_exclusive_witness :
  exists s, rtc step start s /\ doing s 7%nat = Maintaining /\ readers s = [] /\ commits s = [].
Proof.
  set (l1 := Lease 1 0 {[3%nat := 1]} ∅ false None).
  set (l2 := Lease 1 0 {[3%nat := 1]} ∅ true (Some 7%nat)).
  set (l3 := reader_exit 3 l2).
  set (d := set_doing (fun _ => Idle) 7 Waiting).
  set (s := Threads l3 [] [] (set_doing d 7 Maintaining)).
  assert (Hr : rtc step start s).
  { apply rtc_l with (Threads l1 [3%nat] [] (fun _ => Idle)); [by apply step_reader_enter|].
    apply rtc_l with (Threads l2 [3%nat] [] d); [by apply step_publish|].
    apply rtc_l with (Threads l3 [] [] d); [exact (step_reader_exit 3 l2 [] [] [] d)|].
    apply rtc_once. by apply step_clear. }
  exists s. split; [exact Hr|]. split; [done|].
  destruct (maintenance_exclusive s Hr 7) as [H _]. by destruct (H eq_refl) as (? & ? & _).
Defined.

(** A manifest cut inside its first key passes as a raw payload; cut elsewhere it
    is refused. *)
Definition cut_manifest : manifest := manifest_for digest repo (gen "1") payload1 true.

Lemma truncated_manifest_witness :
  decode_manifest (take 5 (encode_manifest cut_manifest)) = inl None
  /\ decode_manifest (take 60 (encode_manifest cut_manifest)) = inr bad_schema.
Proof.
  assert (H : hex_run 32 (m_generation cut_manifest) = true
    /\ hex_run 64 (m_checksum cut_manifest) = true /\ 0 <= m_length cut_manifest < 10 ^ 12
    /\ 0 <= m_chunk_bytes cut_manifest < 10 ^ 12 /\ 0 <= m_chunks cut_manifest < 10 ^ 12)
    by (vm_compute; intuition congruence).
  destruct H as (H1 & H2 & H3 & H4 & H5). split.
  - rewrite (truncated_manifest cut_manifest 5 H1 H2 H3 H4 H5); [done|lia|by vm_compute].
  - rewrite (truncated_manifest cut_manifest 60 H1 H2 H3 H4 H5); [done|lia|by vm_compute].
Defined.
End Examples.
End SnapshotFacts.
