(* ===== verification/QueueSnapshot.v ===== *)
(** * Checkpoints of the backend queue

    queue/queue.py: the storage keys of a queue's strategy snapshot, what a
    close persists ([_persist_snapshot]) and what a start restores
    ([_restore_snapshot]), over the repository of [Snapshot] and an arbitrary
    strategy.  Names are ASCII text.  Theorems: distinct queues never share a
    key; a current checkpoint that could not be read or applied is never overwritten;
    what a close reports as persisted is what the next start restores; and a
    legacy value that was emptied does not come back. *)

From S2P Require Export SnapshotFacts.

Module QueueSnapshot.
Import Snapshot SnapshotFacts.

(** What a checkpoint needs of a strategy. *)
Class Snapshotting (St : Type) := {
  strategy_snapshot : M St (option bytes);
  strategy_restore : bytes -> M St unit
}.

(** ** Keys *)
Definition SNAPSHOT_KEY_PREFIX : string := "queue:snapshot:".
Definition SNAPSHOT_TOMBSTONE_KEY_PREFIX : string := "queue:snapshot-tombstone:".
Definition EMPTY_SNAPSHOT_TOMBSTONE_MARKER : bytes := [x31].

(** The owner of a snapshot: the spider component is empty without a spider
    name. *)
Record identity := Identity { snapshot_owner : option string; spider_component : string; queue_name : string }.

Definition len (s : string) : string := decimal (Z.of_nat (String.length s)).
Definition snapshot_identity (q : identity) : string :=
  match snapshot_owner q with
  | Some owner => "v2:" ++ len owner ++ ":" ++ owner ++ ":" ++ len (spider_component q) ++ ":" ++ spider_component q
                    ++ ":" ++ queue_name q
  | None => "v3:" ++ len (spider_component q) ++ ":" ++ spider_component q ++ ":" ++ len (queue_name q) ++ ":" ++ queue_name q
  end.
Definition snapshot_key (q : identity) : string := SNAPSHOT_KEY_PREFIX ++ snapshot_identity q.

(** [_legacy_snapshot_key]: only an unscoped name without a colon. *)
Definition has_colon (s : string) : bool := bool_decide (":"%char ∈ list_ascii_of_string s).
Definition legacy_snapshot_key (q : identity) : option string :=
  match snapshot_owner q with
  | Some _ => None
  | None => if negb (bool_decide (spider_component q = ""%string)) || has_colon (queue_name q) then None
            else Some (SNAPSHOT_KEY_PREFIX ++ queue_name q)%string
  end.
Definition empty_snapshot_tombstone_key (q : identity) : string := SNAPSHOT_TOMBSTONE_KEY_PREFIX ++ snapshot_identity q.

(** ** State *)
Record flags := Flags {
  persistence_fenced : bool; defer_legacy_retirement : bool; legacy_retirement_pending : bool
}.
#[export] Instance eta_flags : Settable flags := fun r =>
  Flags (persistence_fenced r) (defer_legacy_retirement r) (legacy_retirement_pending r).
Definition no_flags : flags := Flags false false false.

Section Checkpoints.
Context {J : JsonText} {W : Type} {Sto : Storage W} {St : Type} {SN : Snapshotting St}.
Variable sha256_hex : bytes -> string.
(** [get_storage_backend], when the manager has it. *)
Variable get_storage : option (M W unit).
Variable repo : repository.
Variable q : identity.

Definition world : Type := flags * (St * W).
Definition on_flags (f : flags -> flags) : M world unit := on_fst (modify f).
Definition on_store {A} (m : M W A) : M world A := on_snd (on_snd m).
Definition on_strategy {A} (m : M St A) : M world A := on_snd (on_fst m).

(** [except Exception]: whether the computation failed. *)
Definition failing {A} (m : M world A) : M world (option A) := fun w =>
  match m w with
  | (Ok x, w') => (Ok (Some x), w')
  | (Raise e, w') => if is_ordinary e then (Ok None, w') else (Raise e, w')
  end.
(** [except SnapshotRepositoryError]. *)
Definition catching {A} (m : M W A) : M world (A + string) := fun w =>
  match on_store m w with
  | (Ok x, w') => (Ok (inl x), w')
  | (Raise (ESnapshot s), w') => (Ok (inr s), w')
  | (Raise e, w') => (Raise e, w')
  end.

Definition queue_error {A} : M world A := raise (EQueue "").

(** [_snapshot_storage]: whether there is a storage. *)
Definition snapshot_storage : M world bool :=
  match get_storage with
  | None => ret false
  | Some resolve => fun w =>
      match on_store resolve w with
      | (Ok _, w') => (Ok true, w')
      | (Raise ENotImplemented, w') => (Ok false, w')
      | (Raise e, w') => (Raise (if is_ordinary e then EQueue "" else e), w')
      end
  end.

(** A repository of one's own: its lease is free. *)
Definition repository_read (key : string) : M W snapshot_read := fun w =>
  match read sha256_hex 0 repo key (no_lease, w) with
  | (Ok (Some x), (_, w')) => (Ok x, w')
  | (Ok None, (_, w')) => (Raise lease_reentry, w')
  | (Raise e, (_, w')) => (Raise e, w')
  end.
Definition repository_commit (key : string) (state : option bytes) : M W unit := fun w =>
  match commit sha256_hex 0 repo key state (no_lease, w) with
  | (Ok (Some x), (_, w')) => (Ok x, w')
  | (Ok None, (_, w')) => (Raise lease_reentry, w')
  | (Raise e, (_, w')) => (Raise e, w')
  end.

(** [_persist_snapshot]. *)
Definition retire_legacy (key : string) : M world unit :=
  let! _ := failing (let! _ := on_store (st_delete key) in
                     let! _ := on_store (st_delete (empty_snapshot_tombstone_key q)) in ret tt) in ret tt.

Definition commit_checkpoint (state : option bytes) : M world unit :=
  let! committed := catching (repository_commit (snapshot_key q) state) in
  match committed with
  | inr _ => queue_error
  | inl _ =>
      let! _ := on_flags (fun f => f <| defer_legacy_retirement := false |>) in
      match legacy_snapshot_key q with
      | None => ret tt
      | Some key => retire_legacy key
      end
  end.

(** A legacy checkpoint that could not be read stays reachable. *)
Definition preserve_legacy : M world unit :=
  let! deleted := failing (on_store (st_delete (empty_snapshot_tombstone_key q))) in
  match deleted with
  | None => queue_error
  | Some _ => on_flags (fun f => f <| defer_legacy_retirement := false |>)
  end.

(** The fence before an intentionally empty replacement. *)
Definition publish_tombstone : M world unit :=
  let! stored := on_store (store (empty_snapshot_tombstone_key q) EMPTY_SNAPSHOT_TOMBSTONE_MARKER) in
  if stored : bool then ret tt else queue_error.

Definition persist_snapshot : M world unit :=
  let! f := on_fst get in
  if persistence_fenced f then queue_error
  else
    let! created := failing (on_strategy strategy_snapshot) in
    match created with
    | None => queue_error
    | Some state =>
        let! storage := snapshot_storage in
        if negb storage then
          if bool_decide (state = None) && negb (defer_legacy_retirement f) then ret tt else queue_error
        else if defer_legacy_retirement f && bool_decide (state = None) then preserve_legacy
        else
          let! _ := if bool_decide (state = None) && legacy_retirement_pending f then publish_tombstone else ret tt in
          commit_checkpoint state
    end.

(** [_restore_snapshot]. *)
Definition invalid_type : string := "Snapshot manifest has an invalid type.".

(** Applying what was read. *)
Definition apply_state (result : snapshot_read) : M world unit :=
  match sr_state result with
  | None => ret tt
  | Some state =>
      if negb (found result) || (negb (sr_manifest result) && bool_decide (state = [])) then ret tt
      else
        let! restored := failing (on_strategy (strategy_restore state)) in
        match restored with
        | None => on_flags (fun f => f <| persistence_fenced := true |>)
        | Some _ => ret tt
        end
  end.

(** Nothing current: a tombstone, or the legacy value. *)
Definition restore_legacy (key : string) : M world unit :=
  let! tombstone := failing (on_store (st_retrieve (empty_snapshot_tombstone_key q))) in
  match tombstone with
  | Some (OOther | OBuffer _) => ret tt
  | Some ONone | None =>
      let! legacy := catching (repository_read key) in
      match legacy with
      | inr _ => on_flags (fun f => f <| defer_legacy_retirement := true |>)
      | inl result =>
          let! _ := if found result then on_flags (fun f => f <| legacy_retirement_pending := true |>) else ret tt in
          apply_state result
      end
  end.

Definition restore_snapshot : M world unit := fun w =>
  match snapshot_storage w with
  | (Raise (EQueue _), w') => on_flags (fun f => f <| persistence_fenced := true |>) w'
  | (Raise e, w') => (Raise e, w')
  | (Ok false, w') => (Ok tt, w')
  | (Ok true, w') =>
      (let! current := catching (repository_read (snapshot_key q)) in
       match current with
       | inr message =>
           if bool_decide (message = invalid_type) then ret tt
           else on_flags (fun f => f <| persistence_fenced := true |>)
       | inl result =>
           if found result then apply_state result
           else match legacy_snapshot_key q with
                | None => ret tt
                | Some key => restore_legacy key
                end
       end) w'
  end.
End Checkpoints.

(** ** Keys *)

(** A length-prefixed field is read back, whatever follows it. *)
Definition sized (s : string) (rest : list ascii) : list ascii :=
  list_ascii_of_string (len s) ++ ":"%char :: list_ascii_of_string s ++ rest.

Lemma sized_inj s1 s2 r1 r2 : sized s1 r1 = sized s2 r2 -> s1 = s2 /\ r1 = r2.
Proof.
  unfold sized, len. intros E. apply (f_equal (span is_digit)) in E.
  rewrite !span_app in E by (apply decimal_digits; lia) || done. injection E as E1 E2.
  apply list_ascii_of_string_inj, decimal_inj in E1; [|lia..].
  apply app_inj_1 in E2 as [E2 E3]; [|rewrite !length_list_ascii; lia].
  by apply list_ascii_of_string_inj in E2.
Qed.

Lemma identity_v2 owner sp q : list_ascii_of_string (snapshot_identity (Identity (Some owner) sp q)) =
  list_ascii_of_string "v2:" ++ sized owner (":"%char :: sized sp (":"%char :: list_ascii_of_string q)).
Proof. unfold snapshot_identity, sized. cbn [snapshot_owner spider_component queue_name]. by rewrite !list_ascii_app. Qed.
Lemma identity_v3 sp q : list_ascii_of_string (snapshot_identity (Identity None sp q)) =
  list_ascii_of_string "v3:" ++ sized sp (":"%char :: sized q []).
Proof.
  unfold snapshot_identity, sized. cbn [snapshot_owner spider_component queue_name]. rewrite !list_ascii_app.
  by rewrite app_nil_r.
Qed.

Lemma snapshot_identity_inj q1 q2 : snapshot_identity q1 = snapshot_identity q2 -> q1 = q2.
Proof.
  intros E. apply (f_equal list_ascii_of_string) in E. destruct q1 as [[o1|] s1 n1], q2 as [[o2|] s2 n2];
    rewrite ?identity_v2, ?identity_v3 in E; try discriminate E; apply app_inv_head, sized_inj in E as [<- E];
    injection E as E; [apply sized_inj in E as [<- E]; injection E as E|apply sized_inj in E as [<- _]]; [|done].
  by apply list_ascii_of_string_inj in E as <-.
Qed.

Lemma app_string_inj (p a b : string) : (p ++ a = p ++ b)%string -> a = b.
Proof.
  intros E. apply (f_equal list_ascii_of_string) in E. rewrite !list_ascii_app in E.
  by apply app_inv_head, list_ascii_of_string_inj in E.
Qed.

(** Every key a queue writes or deletes. *)
Definition keys_of (q : identity) : list string :=
  snapshot_key q :: empty_snapshot_tombstone_key q :: match legacy_snapshot_key q with Some k => [k] | None => [] end.

Lemma identity_has_colon q : ":"%char ∈ list_ascii_of_string (snapshot_identity q).
Proof.
  destruct q as [[o|] s n]; rewrite ?identity_v2, ?identity_v3, elem_of_app; left; cbn; rewrite !elem_of_cons; auto.
Qed.

Lemma legacy_key_shape q k : legacy_snapshot_key q = Some k ->
  k = (SNAPSHOT_KEY_PREFIX ++ queue_name q)%string /\ ":"%char ∉ list_ascii_of_string (queue_name q) /\
  q = Identity None "" (queue_name q).
Proof.
  unfold legacy_snapshot_key, has_colon. destruct q as [[o|] s n]; [done|]. cbn. case_bool_decide as Hs; cbn [negb orb]; [|done].
  case_bool_decide as Hn; [done|]. intros [= <-]. by rewrite Hs.
Qed.

(** Distinct queues never share a storage key: not their snapshots, not their
    tombstones, not the legacy values they may adopt, across these kinds
    either. *)
Theorem snapshot_keys_distinct q1 q2 k (H1 : k ∈ keys_of q1) (H2 : k ∈ keys_of q2) : q1 = q2.
Proof.
  assert (Hst : forall x y, snapshot_key x <> empty_snapshot_tombstone_key y).
  { intros x y E. apply (f_equal list_ascii_of_string) in E. unfold snapshot_key, empty_snapshot_tombstone_key in E.
    rewrite !list_ascii_app in E. discriminate E. }
  assert (Hsl : forall x y l, legacy_snapshot_key y = Some l -> snapshot_key x <> l).
  { intros x y l (-> & Hn & _)%legacy_key_shape E. apply app_string_inj in E. apply Hn. rewrite <- E. apply identity_has_colon. }
  assert (Htl : forall x y l, legacy_snapshot_key y = Some l -> empty_snapshot_tombstone_key x <> l).
  { intros x y l (-> & _)%legacy_key_shape E. apply (f_equal list_ascii_of_string) in E.
    unfold empty_snapshot_tombstone_key in E. rewrite !list_ascii_app in E. discriminate E. }
  unfold keys_of in H1, H2. rewrite !elem_of_cons in H1, H2.
  assert (Hl : forall y, k ∈ match legacy_snapshot_key y with Some k => [k] | None => [] end -> legacy_snapshot_key y = Some k).
  { intros y. destruct (legacy_snapshot_key y); [by intros ->%list_elem_of_singleton|by intros ?%elem_of_nil]. }
  destruct H1 as [H1|[H1|H1%Hl]], H2 as [H2|[H2|H2%Hl]]; subst.
  - by apply app_string_inj, snapshot_identity_inj in H2.
  - by apply Hst in H2.
  - by apply Hsl with (x := q1) in H2.
  - by apply (eq_sym (x := _)), Hst in H2.
  - by apply app_string_inj, snapshot_identity_inj in H2.
  - by apply Htl with (x := q1) in H2.
  - by apply Hsl with (x := q2) in H1.
  - by apply Htl with (x := q2) in H1.
  - apply legacy_key_shape in H1 as (E1 & _ & ->), H2 as (E2 & _ & ->). rewrite E2 in E1. apply app_string_inj in E1. cbn in E1. by rewrite E1.
Qed.

(** ** Restoring and persisting *)
Section Facts.
Context {J : JsonText} (sha256_hex : bytes -> string) `{!Sha256 sha256_hex}.
Context {W : Type} {Sto : Storage W} {SL : StorageLaws W} {MT : ManifestText}.
Context {St : Type} {SN : Snapshotting St}.
Context (get_storage : option (M W unit)) (repo : repository) (q : identity).
(** Resolving the storage writes nothing. *)
Context (Hget : forall f, get_storage = Some f -> forall w o w', f w = (o, w') -> forall k, view w' k = view w k).
Implicit Types (f : flags) (st : St) (w : W).

Notation restore := (restore_snapshot sha256_hex get_storage repo q).
Notation persist := (persist_snapshot sha256_hex get_storage repo q).
Notation stored v := (snapshot_at sha256_hex repo v (snapshot_key q)).

Lemma snapshot_storage_inv f st w o x : snapshot_storage (St := St) get_storage (f, (st, w)) = (o, x) ->
  exists w', x = (f, (st, w')) /\ (forall k, view w' k = view w k) /\
  match get_storage with
  | None => o = Ok false
  | Some resolve => match resolve w with
                    | (Ok _, _) => o = Ok true
                    | (Raise ENotImplemented, _) => o = Ok false
                    | (Raise e, _) => o = Raise (if is_ordinary e then EQueue "" else e)
                    end
  end.
Proof.
  unfold snapshot_storage. destruct get_storage as [resolve|] eqn:Eg; [|intros [= <- <-]; by exists w].
  unfold on_store, on_snd. destruct (resolve w) as [o1 w1] eqn:Er. pose proof (Hget _ eq_refl _ _ _ Er) as Hv.
  destruct o1 as [[]|e]; [|destruct e]; intros [= <- <-]; by exists w1.
Qed.

(** Only signals escape a reading. *)
Lemma retrieve_raises k w e w' : retrieve st_retrieve k w = (Raise e, w') -> is_ordinary e = false.
Proof.
  unfold retrieve. destruct (st_retrieve k w) as [[x|e1] w1]; [done|]. destruct (is_ordinary e1) eqn:E; [done|].
  by intros [= <- <-].
Qed.
Lemma read_chunks_raises n key m : forall i a w e w',
  read_chunks st_retrieve sha256_hex n key m i a w = (Raise e, w') -> is_ordinary e = false.
Proof.
  induction n as [|n IH]; intros i a w e w'; [done|]. cbn [read_chunks].
  intros [(x & w1 & Hr & Hk)|(e1 & Hr & [= ->])]%bind_inv; [|by eapply retrieve_raises].
  destruct x as [x|]; [|done]. destruct (copy_buffer _ _) as [c|[]]; try done. destruct (negb _); [done|]. by eapply IH.
Qed.
Lemma read_terminal_raises key w e w' :
  read_terminal st_retrieve sha256_hex repo key w = (Raise e, w') -> is_ordinary e = false.
Proof.
  unfold read_terminal. intros [(x & w1 & Hr & Hk)|(e1 & Hr & [= ->])]%bind_inv; [|by eapply retrieve_raises].
  destruct x as [[| |b]|]; try done. destruct (copy_buffer _ _) as [raw|[]]; try done.
  destruct (decode_manifest raw) as [[m|]|]; [|by destruct (_ <? _)|done]. unfold read_generation in Hk.
  destruct (_ || _); [done|]. destruct (_ =? 0); [by destruct (negb _)|].
  apply bind_inv in Hk as [(y & w2 & Hr2 & Hk)|(e1 & Hr2 & [= ->])]; [|by eapply read_chunks_raises].
  destruct y as [y|]; [|done]. destruct (negb _); [done|]. by destruct (negb _).
Qed.

(** Reading a key of the repository. *)
Lemma repository_read_inv key f st w o x : catching (W := W) (St := St) (repository_read sha256_hex repo key) (f, (st, w)) = (o, x) ->
  exists w', x = (f, (st, w')) /\ (forall k, view w' k = view w k) /\
  (forall s, o = Ok (inl s) -> snapshot_at sha256_hex repo (view w) key = Ok (inl s)) /\
  (forall m, o = Ok (inr m) -> m = invalid_type -> snapshot_at sha256_hex repo (view w) key = Ok (inr m)).
Proof.
  unfold catching, on_store, on_snd, repository_read, read. destruct (validate_logical_key key) as [[]|e] eqn:Ev.
  2:{ intros E. exists w. destruct e; injection E as <- <-; split_and!; try done.
      intros m [= <-] ->. unfold validate_logical_key in Ev. repeat case_match; simplify_eq. }
  unfold reader_enter. cbn [maintenance_active no_lease].
  destruct (read_terminal st_retrieve sha256_hex repo key w) as [o1 w1] eqn:Er.
  assert (He : forall e, o1 = Raise e -> is_ordinary e = false) by (intros e ->; by eapply read_terminal_raises).
  apply (read_terminal_view sha256_hex) in Er as [Hv Ha].
  destruct o1 as [[s|m]|e]; cbn in Ha.
  - intros [= <- <-]. exists w1. split_and!; try done. by intros s' [= <-].
  - intros [= <- <-]. exists w1. split_and!; try done.
    intros m' [= <-] ->. destruct Ha as [[Ha|Ha]|Ha]; [discriminate Ha..|done].
  - specialize (He e eq_refl). intros E. exists w1. destruct e; try discriminate He. injection E as <- <-. by split_and!.
Qed.

(** The state a reading hands to the strategy. *)
Definition to_apply (s : snapshot_read) : option bytes :=
  match sr_state s with
  | Some b => if negb (found s) || (negb (sr_manifest s) && bool_decide (b = [])) then None else Some b
  | None => None
  end.

Lemma apply_state_eq s f st w : apply_state (W := W) s (f, (st, w)) =
  match to_apply s with
  | None => (Ok tt, (f, (st, w)))
  | Some b => match strategy_restore b st with
              | (Ok _, st') => (Ok tt, (f, (st', w)))
              | (Raise e, st') => if is_ordinary e then (Ok tt, (f <| persistence_fenced := true |>, (st', w)))
                                  else (Raise e, (f, (st', w)))
              end
  end.
Proof.
  unfold apply_state, to_apply. destruct (sr_state s) as [b|]; [|done]. destruct (_ || _); [done|].
  unfold bind, failing, on_strategy, on_snd, on_fst, on_flags. destruct (strategy_restore b st) as [[[]|e] st']; [done|].
  by destruct (is_ordinary e).
Qed.

Lemma restore_legacy_view key f st w o f' st' w' :
  restore_legacy sha256_hex repo q key (f, (st, w)) = (o, (f', (st', w'))) ->
  (forall k, view w' k = view w k) /\ (persistence_fenced f = true -> persistence_fenced f' = true).
Proof.
  unfold restore_legacy. unfold bind at 1. unfold failing, on_store, on_snd at 1 2.
  destruct (st_retrieve _ w) as [o1 w1] eqn:Er. apply st_retrieve_law in Er as [Hv _].
  assert (Hread : (let! legacy := catching (repository_read sha256_hex repo key) in
     match legacy with
     | inr _ => on_flags (fun f => f <| defer_legacy_retirement := true |>)
     | inl result =>
         let! _ := if found result then on_flags (fun f => f <| legacy_retirement_pending := true |>) else ret tt in
         apply_state result
     end) (f, (st, w1)) = (o, (f', (st', w'))) ->
     (forall k, view w' k = view w k) /\ (persistence_fenced f = true -> persistence_fenced f' = true)).
  { unfold bind at 1. destruct (catching _ _) as [o2 x] eqn:Ec. apply repository_read_inv in Ec as (w2 & -> & Hv2 & _).
    assert (Hv' : forall k, view w2 k = view w k) by (intros k; by rewrite Hv2).
    destruct o2 as [[s|m]|e]; [|by intros [= <- <- <- <-]..].
    unfold bind. set (f2 := if found s then f <| legacy_retirement_pending := true |> else f).
    assert (Hf2 : (if found s then on_flags (fun f => f <| legacy_retirement_pending := true |>) else ret tt) (f, (st, w2))
      = (Ok tt, (f2, (st, w2)))) by (unfold f2; by destruct (found s)).
    rewrite Hf2, apply_state_eq. assert (Hp : persistence_fenced f2 = persistence_fenced f) by (unfold f2; by destruct (found s)).
    destruct (to_apply s) as [b|]; [|by intros [= <- <- <- <-]; rewrite Hp].
    destruct (strategy_restore b st) as [[[]|e] st2]; [by intros [= <- <- <- <-]; rewrite Hp|].
    destruct (is_ordinary e); intros [= <- <- <- <-]; by rewrite ?Hp. }
  destruct o1 as [x|e].
  - destruct x; [exact Hread|by intros [= <- <- <- <-]..].
  - destruct (is_ordinary e); [exact Hread|by intros [= <- <- <- <-]].
Qed.

(** Persisting has become impossible: whatever the strategy and the storage
    turn into, it raises and touches nothing, the flags included, so every later
    attempt does the same. *)
Definition refuses_to_persist (f : flags) : Prop :=
  forall st w, persist (f, (st, w)) = (Raise (EQueue ""), (f, (st, w))).

Lemma fenced_refuses f : persistence_fenced f = true -> refuses_to_persist f.
Proof. intros Hf st w. by unfold persist_snapshot, bind, on_fst, get; rewrite Hf. Qed.

(** What a start makes of the current checkpoint in [v] without fencing it: the
    state that was read is applied, there is none, or the object under the key is
    no bytes at all. *)
Definition applied (v : store_view) st st1 : Prop :=
  match stored v with
  | Ok (inl s) => found s = true ->
      match to_apply s with Some b => strategy_restore b st = (Ok tt, st1) | None => st1 = st end
  | Ok (inr m) => m = invalid_type /\ st1 = st
  | Raise _ => False
  end.

Lemma restore_applies st w f1 st1 w1 : restore (no_flags, (st, w)) = (Ok tt, (f1, (st1, w1))) ->
  (forall k, view w1 k = view w k) /\
  (persistence_fenced f1 = false -> (exists resolve w', get_storage = Some resolve /\ resolve w = (Ok tt, w')) ->
     applied (view w) st st1).
Proof.
  intros Hrun. unfold applied. split.
  all: revert Hrun; unfold restore_snapshot; destruct (snapshot_storage _ _) as [o0 x] eqn:Es;
    apply snapshot_storage_inv in Es as (w0 & -> & Hv0 & Hs); destruct o0 as [[]|e0].
  1,4: unfold bind at 1; destruct (catching _ _) as [o1 x1] eqn:Ec; apply repository_read_inv in Ec as (w2 & -> & Hv2 & Hl & Hr);
    destruct o1 as [[s|m]|e]; try done.
  - destruct (found s) eqn:Ef.
    + rewrite apply_state_eq. destruct (to_apply s) as [b|]; [|intros [= <- <- <-] k; by rewrite Hv2].
      destruct (strategy_restore b st) as [[[]|e] st2]; [|destruct (is_ordinary e); [|done]];
        intros [= <- <- <-] k; by rewrite Hv2.
    + destruct (legacy_snapshot_key q) as [key|]; [|intros [= <- <- <-] k; by rewrite Hv2].
      intros [Hv3 _]%restore_legacy_view k. by rewrite Hv3, Hv2.
  - case_bool_decide; intros [= <- <- <-] k; by rewrite Hv2.
  - intros Hrun Hf _. specialize (Hl s eq_refl).
    assert (Heq : stored (view w) = stored (view w0)).
    { apply snapshot_at_ext; [by rewrite Hv0|]. intros m _ j. by rewrite Hv0. }
    rewrite Heq, Hl. intros Hfound. rewrite Hfound, apply_state_eq in Hrun.
    destruct (to_apply s) as [b|]; [|by injection Hrun as <- <- <-].
    destruct (strategy_restore b st) as [[[]|e] st2]; [by injection Hrun as <- <- <-|].
    destruct (is_ordinary e); [|done]. by injection Hrun as <- <- <-.
  - intros Hrun Hf _. case_bool_decide as Hm; [|by injection Hrun as <- <- <-]. injection Hrun as <- <- <-.
    assert (Heq : stored (view w) = stored (view w0)).
    { apply snapshot_at_ext; [by rewrite Hv0|]. intros m' _ j. by rewrite Hv0. }
    rewrite Heq, (Hr m eq_refl Hm). done.
  - by intros [= <- <- <-].
  - destruct e0; intros [= <- <- <-]; done.
  - intros _ _ (resolve & w' & Hg & Hres). rewrite Hg, Hres in Hs. done.
  - intros _ _ (resolve & w' & Hg & Hres). rewrite Hg, Hres in Hs. done.
Qed.


Lemma restore_unresolved st w f1 st1 w1 resolve e w' : restore (no_flags, (st, w)) = (Ok tt, (f1, (st1, w1))) ->
  get_storage = Some resolve -> resolve w = (Raise e, w') -> e <> ENotImplemented -> persistence_fenced f1 = true.
Proof.
  intros Hrun Hg Hr He. revert Hrun. unfold restore_snapshot.
  destruct (snapshot_storage _ _) as [o0 x] eqn:Es. apply snapshot_storage_inv in Es as (w0 & -> & _ & Hs).
  rewrite Hg, Hr in Hs. assert (o0 = Raise (if is_ordinary e then EQueue "" else e)) as -> by by destruct e.
  destruct (is_ordinary e) eqn:Eo; [by intros [= <- _ _]|]. by destruct e.
Qed.

(** A legacy value that could not be read outlives a close with nothing to
    persist: such a persist deletes at most the tombstone that hides it. *)
Lemma deferred_keeps_legacy f key st w o f' st' w' st2 : persistence_fenced f = false ->
  defer_legacy_retirement f = true -> legacy_snapshot_key q = Some key ->
  strategy_snapshot st = (Ok None, st2) -> persist (f, (st, w)) = (o, (f', (st', w'))) -> view w' key = view w key.
Proof.
  intros Hf Hd Hk Hs. unfold persist_snapshot. unfold bind at 1, on_fst at 1, get. rewrite Hf.
  unfold bind at 1, failing at 1, on_strategy, on_snd at 1, on_fst at 1. rewrite Hs. cbv beta iota.
  unfold bind at 1. destruct (snapshot_storage _ _) as [o0 x] eqn:Es.
  apply snapshot_storage_inv in Es as (w0 & -> & Hv & _).
  destruct o0 as [ [] |e]; cbn [negb]; [|case_bool_decide; rewrite ?Hd; cbn; by intros [= <- <- <- <-]|by intros [= <- <- <- <-] ].
  rewrite Hd, bool_decide_true by done. cbn [andb]. unfold preserve_legacy, bind, failing, on_store, on_snd.
  destruct (st_delete _ w0) as [od w3] eqn:Ed. apply st_delete_law in Ed as [_ Hfr].
  assert (Hne : key <> empty_snapshot_tombstone_key q).
  { intros ->. apply legacy_key_shape in Hk as (E & _). apply (f_equal list_ascii_of_string) in E.
    unfold empty_snapshot_tombstone_key in E. rewrite !list_ascii_app in E. discriminate E. }
  assert (Hkey : view w3 key = view w key) by (by rewrite Hfr, Hv).
  destruct od as [d|e]; [|destruct (is_ordinary e)]; by intros [= <- <- <- <-].
Qed.

(** C33. A start writes nothing, and either it applied the queue's current
    checkpoint exactly as it is stored (or there was none), or the checkpoint is
    safe from this run: every later persist, whatever the strategy and the
    storage turned into, raises and touches nothing.  The latter also when the
    storage could not be reached at start.  A legacy value that could not be read
    is only put off: it outlives every persist that has nothing to write, while
    one with a state commits that under the current key and retires the legacy
    value. *)
Theorem checkpoint_fence st w f1 st1 w1 (Hrun : restore (no_flags, (st, w)) = (Ok tt, (f1, (st1, w1)))) :
  (forall k, view w1 k = view w k) /\
  (forall resolve o w', get_storage = Some resolve -> resolve w = (o, w') ->
     match o with
     | Ok _ => applied (view w) st st1 \/ refuses_to_persist f1
     | Raise e => e <> ENotImplemented -> refuses_to_persist f1
     end) /\
  (defer_legacy_retirement f1 = true -> forall key st2 st3 w2 o f4 st4 w4,
     legacy_snapshot_key q = Some key -> strategy_snapshot st2 = (Ok None, st3) ->
     persist (f1, (st2, w2)) = (o, (f4, (st4, w4))) -> view w4 key = view w2 key).
Proof.
  destruct (restore_applies _ _ _ _ _ Hrun) as [Hv Ha]. split; [done|]. split.
  - intros resolve [[]|e] w' Hg Hr; [|intros He; by eapply fenced_refuses, restore_unresolved].
    destruct (persistence_fenced f1) eqn:Ef; [right; by apply fenced_refuses|left; eauto].
  - intros Hd key st2 st3 w2 o f4 st4 w4 Hk Hs Hp. destruct (persistence_fenced f1) eqn:Ef.
    + rewrite (fenced_refuses _ Ef) in Hp. by injection Hp as _ _ _ <-.
    + by eapply deferred_keeps_legacy.
Qed.

(** A commit writes under its own key and chunk keys only. *)
Lemma commit_terminal_frame key state w o w' k : commit_terminal sha256_hex repo key state w = (o, w') ->
  reserved k = false -> k <> key -> view w' k = view w k.
Proof.
  intros E Hk Hne. unfold commit_terminal in E. destruct (_ <? _); [by injection E as <- <-|].
  destruct (bind _ _ w) as [o1 w1] eqn:Eb. assert (w' = w1) as ->.
  { destruct o1 as [x|e]; [by injection E|]. destruct (is_ordinary e); by injection E. }
  clear E. apply bind_inv in Eb as [(g & w2 & Hu & E)|(e & Hu & ->)];
    pose proof (uuid4_law _ _ _ Hu) as [Hv Hx]; [|done]. specialize (Hx g eq_refl).
  assert (Hnc : forall j, k <> chunk_key sha256_hex key g j) by (intros j ->; by rewrite chunk_key_reserved in Hk).
  apply bind_inv in E as [(b & w3 & Hw & E)|(e & Hw & ->)];
    apply (write_chunks_spec sha256_hex) in Hw as [Hf _]; try done; [|by rewrite Hf].
  destruct b; [|injection E as <- <-; by rewrite Hf].
  apply bind_inv in E as [(b & w4 & Hs & E)|(e & Hs & ->)]; apply store_spec in Hs as (Hsf & _).
  - injection E as <- <-. by rewrite Hsf, Hf.
  - by rewrite Hsf, Hf.
Qed.

Lemma repository_commit_spec state w o w' (Hr : valid_repository repo) (Hfresh : fresh_generation repo w) :
  repository_commit sha256_hex repo (snapshot_key q) state w = (o, w') ->
  (forall k, reserved k = false -> k <> snapshot_key q -> view w' k = view w k) /\
  ((stored (view w') = stored (view w) /\ o <> Ok tt) \/
   exists g, stored (view w') = Ok (inl (SnapshotRead true state true (Some g)))).
Proof.
  unfold repository_commit, commit. destruct (validate_logical_key _) as [[]|e] eqn:Ev.
  2:{ intros [= <- <-]. split; [done|]. by left. }
  unfold commit_enter. cbn [maintenance_active no_lease]. destruct (commit_terminal _ _ _ _ w) as [o2 w2] eqn:Et. intros E.
  assert (w' = w2 /\ (o = Ok tt -> o2 = Ok None)) as [-> Ho] by (destruct o2 as [[m|]|e]; by injection E as <- <-).
  split; [by intros k Hk Hne; eapply commit_terminal_frame|].
  destruct (commit_terminal_spec sha256_hex repo _ _ _ _ _ Hr Ev Hfresh Et) as [[[H1 H2]|H1] _]; [left|by right].
  split; [done|]. by intros ?%Ho.
Qed.

(** The keys a retirement deletes are none a reading of the snapshot uses. *)
Lemma retired_key_reserved k : k ∈ keys_of q -> reserved k = false.
Proof.
  assert (Hr : forall p s, cut_prefix (list_ascii_of_string LEGACY_CHUNK_KEY_PREFIX) (list_ascii_of_string p ++ list_ascii_of_string s) = None ->
    cut_prefix (list_ascii_of_string CURRENT_CHUNK_KEY_PREFIX) (list_ascii_of_string p ++ list_ascii_of_string s) = None ->
    reserved (p ++ s)%string = false).
  { intros p s E1 E2. unfold reserved, starts_with. by rewrite list_ascii_app, E1, E2. }
  unfold keys_of. rewrite !elem_of_cons. intros [->|[->|Hk]]; [by apply Hr..|].
  destruct (legacy_snapshot_key q) eqn:El; [|by apply elem_of_nil in Hk]. apply list_elem_of_singleton in Hk as ->.
  apply legacy_key_shape in El as (-> & _). by apply Hr.
Qed.

Definition retired (k : string) : Prop := k = empty_snapshot_tombstone_key q \/ legacy_snapshot_key q = Some k.

Lemma retired_unreserved k : retired k -> reserved k = false.
Proof.
  intros Hk. apply retired_key_reserved. unfold keys_of. rewrite !elem_of_cons. destruct Hk as [->| ->]; [auto|].
  right. right. by left.
Qed.

Lemma retired_not_current k rest : retired k -> k <> (snapshot_key q ++ rest)%string.
Proof.
  intros [->|(-> & Hn & _)%legacy_key_shape] E; apply (f_equal list_ascii_of_string) in E;
    unfold empty_snapshot_tombstone_key, snapshot_key in E; rewrite !list_ascii_app in E; [discriminate E|].
  rewrite <- app_assoc in E. apply app_inv_head in E. apply Hn. rewrite E. apply elem_of_app. left. apply identity_has_colon.
Qed.

Lemma stored_ext v1 v2 : (forall k, ~ retired k -> v1 k = v2 k) -> stored v1 = stored v2.
Proof.
  intros Hv. apply snapshot_at_ext.
  - apply Hv. intros Hk. apply (retired_not_current _ "" Hk). apply list_ascii_of_string_inj. by rewrite list_ascii_app, app_nil_r.
  - intros m _ j. apply Hv. intros Hk. pose proof (retired_unreserved _ Hk) as Hu. unfold physical_chunk_key in *.
    destruct (m_version m =? 4).
    + unfold v4_chunk_key in Hk. eapply retired_not_current; [exact Hk|reflexivity].
    + destruct (_ || _); by rewrite ?legacy_key_reserved, ?chunk_key_reserved in Hu.
Qed.

Lemma retire_legacy_spec key f st w o f' st' w' : legacy_snapshot_key q = Some key ->
  retire_legacy q key (f, (st, w)) = (o, (f', (st', w'))) ->
  f' = f /\ st' = st /\ stored (view w') = stored (view w).
Proof.
  intros Hl E. unfold retire_legacy in E. unfold bind, failing, on_store, on_snd, ret in E.
  destruct (st_delete key w) as [o1 w1] eqn:E1. apply st_delete_law in E1 as [_ H1].
  assert (S1 : stored (view w1) = stored (view w)).
  { apply stored_ext. intros k Hk. apply H1. intros ->. apply Hk. by right. }
  destruct o1 as [b|e].
  - destruct (st_delete _ w1) as [o2 w2] eqn:E2. apply st_delete_law in E2 as [_ H2].
    assert (S2 : stored (view w2) = stored (view w1)).
    { apply stored_ext. intros k Hk. apply H2. intros ->. apply Hk. by left. }
    destruct o2 as [b2|e]; [|destruct (is_ordinary e)]; injection E as <- <- <- <-; split_and!; congruence.
  - destruct (is_ordinary e); injection E as <- <- <- <-; split_and!; congruence.
Qed.

(** Where the commit of a checkpoint begins, when the storage resolves. *)
Definition commit_point f (state : option bytes) w : W :=
  if bool_decide (state = None) && legacy_retirement_pending f
  then snd (store (empty_snapshot_tombstone_key q) EMPTY_SNAPSHOT_TOMBSTONE_MARKER w) else w.

(** What restoring a state does. *)
Definition restored (state : option bytes) st w : outcome unit * (flags * (St * W)) :=
  match state with
  | None => (Ok tt, (no_flags, (st, w)))
  | Some b => match strategy_restore b st with
              | (Ok _, st') => (Ok tt, (no_flags, (st', w)))
              | (Raise e, st') => if is_ordinary e then (Ok tt, (no_flags <| persistence_fenced := true |>, (st', w)))
                                  else (Raise e, (no_flags, (st', w)))
              end
  end.

Lemma commit_checkpoint_ok f state st w o f' st' w' (Hr : valid_repository repo) (Hfresh : fresh_generation repo w) :
  commit_checkpoint sha256_hex repo q state (f, (st, w)) = (o, (f', (st', w'))) ->
  st' = st /\ (o = Ok tt -> exists g, stored (view w') = Ok (inl (SnapshotRead true state true (Some g)))).
Proof.
  unfold commit_checkpoint. unfold bind at 1. unfold catching, on_store, on_snd.
  destruct (repository_commit _ _ _ _ w) as [o1 w1] eqn:Ec. apply repository_commit_spec in Ec as [_ Hst]; [|done..].
  destruct o1 as [[]|e]; [|destruct e; intros [= <- <- <- <-]; by split].
  destruct Hst as [[_ ?]|[g Hg]]; [done|]. unfold bind, on_flags, on_fst, modify.
  destruct (legacy_snapshot_key q) as [key|] eqn:El; [|intros [= <- <- <- <-]; by eauto].
  intros (_ & -> & Hs)%retire_legacy_spec; [|done]. split; [done|]. intros _. exists g. congruence.
Qed.

(** C32. What a close reports as persisted is what the next start restores.  When
    persisting returned (and did not merely preserve an unread legacy value),
    a later start of the same queue whose reading of the current key succeeds
    hands the strategy exactly the state the closed one gave, the empty bytes
    included, and nothing when it gave none. *)
Theorem checkpoint_roundtrip f st w state st' f' w' (Hstorage : get_storage = Some (ret tt))
    (Hr : valid_repository repo) (Hsnap : strategy_snapshot st = (Ok state, st'))
    (Hfresh : fresh_generation repo (commit_point f state w))
    (Hnd : defer_legacy_retirement f && bool_decide (state = None) = false)
    (Hrun : persist (f, (st, w)) = (Ok tt, (f', (st', w')))) stB s w''
    (Hread : repository_read sha256_hex repo (snapshot_key q) w' = (Ok s, w'')) :
  restore (no_flags, (stB, w')) = restored state stB w''.
Proof.
  assert (Hst : exists g, stored (view w') = Ok (inl (SnapshotRead true state true (Some g)))).
  { unfold persist_snapshot, bind at 1, on_fst at 1, get in Hrun. destruct (persistence_fenced f); [done|].
    unfold bind at 1 in Hrun. unfold failing, on_strategy, on_snd, on_fst in Hrun. rewrite Hsnap in Hrun.
    unfold bind at 1 in Hrun. unfold snapshot_storage in Hrun. rewrite Hstorage in Hrun. cbn [on_store on_snd ret negb] in Hrun.
    rewrite Hnd in Hrun. unfold bind in Hrun. unfold commit_point in Hfresh.
    destruct (bool_decide (state = None) && legacy_retirement_pending f).
    - unfold publish_tombstone, bind, on_store, on_snd in Hrun. destruct (store _ _ w) as [[[]|e] w1]; [|done..].
      apply commit_checkpoint_ok in Hrun as [_ Hg]; [by apply Hg|done..].
    - apply commit_checkpoint_ok in Hrun as [_ Hg]; [by apply Hg|done..]. }
  destruct Hst as [g Hg]. unfold restore_snapshot, snapshot_storage. rewrite Hstorage. cbn [on_store on_snd ret].
  unfold bind. assert (Hc : catching (W := W) (St := St) (repository_read sha256_hex repo (snapshot_key q)) (no_flags, (stB, w')) =
    (Ok (inl s), (no_flags, (stB, w'')))) by (unfold catching, on_store, on_snd; by rewrite Hread).
  rewrite Hc. apply repository_read_inv in Hc as (? & _ & _ & Hs & _). specialize (Hs s eq_refl).
  rewrite Hg in Hs. injection Hs as <-. cbn [found]. rewrite apply_state_eq. unfold to_apply. cbn [sr_state found sr_manifest negb orb andb].
  by destruct state.
Qed.

Lemma stored_absent v : v (snapshot_key q) = ONone -> stored v = Ok (inl (SnapshotRead false None false None)).
Proof. intros E. unfold snapshot_at, read_terminal, bind, retrieve. cbn. by rewrite E. Qed.

(** Persisting the empty state over a restored legacy value. *)
Lemma persist_retired f st w st' o f' w' (Hstorage : get_storage = Some (ret tt))
    (Hr : valid_repository repo) (Hsnap : strategy_snapshot st = (Ok None, st'))
    (Hcur : view w (snapshot_key q) = ONone)
    (Hpend : legacy_retirement_pending f = true) (Hnd : defer_legacy_retirement f = false)
    (Hfresh : fresh_generation repo (commit_point f None w)) :
  persist (f, (st, w)) = (o, (f', (st', w'))) ->
  (exists g, stored (view w') = Ok (inl (SnapshotRead true None true (Some g)))) \/
  (o <> Ok tt /\ stored (view w') = Ok (inl (SnapshotRead false None false None))).
Proof.
  intros Hrun. unfold persist_snapshot, bind at 1, on_fst at 1, get in Hrun.
  destruct (persistence_fenced f); [injection Hrun as <- _ _ <-; right; split; [done|by apply stored_absent]|].
  unfold bind at 1 in Hrun. unfold failing, on_strategy, on_snd, on_fst in Hrun. rewrite Hsnap in Hrun.
  unfold bind at 1 in Hrun. unfold snapshot_storage in Hrun. rewrite Hstorage in Hrun. cbn [on_store on_snd ret negb] in Hrun.
  rewrite Hnd in Hrun. cbn [andb] in Hrun. rewrite bool_decide_true in Hrun by done. unfold commit_point in Hfresh.
  rewrite bool_decide_true in Hfresh by done. rewrite Hpend in Hrun, Hfresh. cbn [andb] in Hrun, Hfresh. unfold bind at 1 in Hrun.
  unfold publish_tombstone, bind at 1, on_store, on_snd in Hrun.
  destruct (store _ _ w) as [ot w1] eqn:Et. apply store_spec in Et as (Hf & _).
  assert (Hcur1 : view w1 (snapshot_key q) = ONone).
  { rewrite Hf; [done|]. intros E. apply (retired_not_current _ "" (or_introl eq_refl)). rewrite <- E.
    apply list_ascii_of_string_inj. by rewrite list_ascii_app, app_nil_r. }
  destruct ot as [[]|e]; [|injection Hrun as <- _ <-; right; split; [done|by apply stored_absent]..].
  unfold ret, commit_checkpoint, bind at 1, catching, on_store, on_snd in Hrun.
  destruct (repository_commit _ _ _ _ w1) as [oc w2] eqn:Ec. apply repository_commit_spec in Ec as [_ Hst]; [|done..].
  destruct oc as [[]|e].
  - destruct Hst as [[_ ?]|[g Hg]]; [done|]. left. exists g. unfold bind, on_flags, on_fst, modify in Hrun.
    destruct (legacy_snapshot_key q) as [k|] eqn:El; [|by injection Hrun as <- <- <-].
    apply retire_legacy_spec in Hrun as (_ & _ & Hs); [|done]. congruence.
  - assert (Hend : w' = w2 /\ o <> Ok tt) by (destruct e; by injection Hrun as <- _ <-).
    destruct Hend as [-> Ho]. destruct Hst as [[Hs _]|Hg]; [right|by left]. split; [done|]. rewrite Hs. by apply stored_absent.
Qed.

(** An emptied legacy value does not come back.  A queue that restored a legacy
    value and closes empty first leaves a tombstone; from the moment it is
    visible, however the rest of the close ends, no later start that can read
    the current key and the tombstone restores anything. *)
Theorem legacy_stays_retired f st w st' o f' w' key (Hstorage : get_storage = Some (ret tt))
    (Hr : valid_repository repo) (Hsnap : strategy_snapshot st = (Ok None, st'))
    (Hkey : legacy_snapshot_key q = Some key) (Hcur : view w (snapshot_key q) = ONone)
    (Hpend : legacy_retirement_pending f = true) (Hnd : defer_legacy_retirement f = false)
    (Hfresh : fresh_generation repo (commit_point f None w))
    (Hrun : persist (f, (st, w)) = (o, (f', (st', w'))))
    (Hvis : o = Ok tt \/ view w' (empty_snapshot_tombstone_key q) <> ONone) stB s w'' x w3
    (Hread : repository_read sha256_hex repo (snapshot_key q) w' = (Ok s, w''))
    (Htomb : st_retrieve (empty_snapshot_tombstone_key q) w'' = (Ok x, w3)) :
  exists w4, restore (no_flags, (stB, w')) = (Ok tt, (no_flags, (stB, w4))).
Proof.
  pose proof (persist_retired f st w st' o f' w' Hstorage Hr Hsnap Hcur Hpend Hnd Hfresh Hrun) as Hend.
  unfold restore_snapshot, snapshot_storage. rewrite Hstorage. cbn [on_store on_snd ret].
  unfold bind at 1. assert (Hc : catching (W := W) (St := St) (repository_read sha256_hex repo (snapshot_key q)) (no_flags, (stB, w')) =
    (Ok (inl s), (no_flags, (stB, w'')))) by (unfold catching, on_store, on_snd; by rewrite Hread).
  rewrite Hc. apply repository_read_inv in Hc as (w0 & Hw0 & Hv & Hs & _). injection Hw0 as <-. specialize (Hs s eq_refl).
  destruct Hend as [[g Hg]|[Ho Hg]]; rewrite Hg in Hs; injection Hs as <-; cbn [found].
  - exists w''. by rewrite apply_state_eq.
  - destruct Hvis as [?|Hvis]; [done|]. rewrite Hkey. unfold restore_legacy, bind at 1, failing, on_store, on_snd. rewrite Htomb.
    apply st_retrieve_law in Htomb as [_ Hx]. specialize (Hx x eq_refl). rewrite Hv in Hx.
    exists w3. destruct x; [by destruct Hvis|done..].
Qed.
End Facts.

Module Examples.
Import SnapshotFacts.Examples.

(** A strategy that is its state. *)
#[export] Instance cell : Snapshotting (option bytes) := {|
  strategy_snapshot s := (Ok s, s);
  strategy_restore b _ := (Ok tt, Some b)
|}.
Definition storage : option (M mem unit) := Some (ret tt).
Lemma storage_resolves f : storage = Some f -> forall w o w', f w = (o, w') -> forall k, view w' k = view w k.
Proof. by intros [= <-] w o w' [= <- <-]. Qed.

Definition alone : identity := Identity None "" "crawl".
Definition empty_store : mem := Mem [] [] [gen "1"; gen "2"].
Definition closed : outcome unit * (flags * (option bytes * mem)) :=
  persist_snapshot digest storage repo alone (no_flags, (Some payload1, empty_store)).
Definition kept : mem := snd (snd (snd closed)).

Lemma closed_eq : persist_snapshot digest storage repo alone (no_flags, (Some payload1, empty_store)) =
  (Ok tt, (no_flags, (Some payload1, kept))).
Proof. vm_compute. reflexivity. Qed.

Lemma snapshot_keys_distinct_witness :
  snapshot_key (Identity None "a:b" "c") <> snapshot_key (Identity None "a" "b:c") /\
  Identity None "a" "b:c" = Identity None "a" "b:c".
Proof.
  split; [by vm_compute|].
  by apply (snapshot_keys_distinct _ _ (snapshot_key (Identity None "a" "b:c"))); left.
Defined.

(** The next start restores what the close kept. *)
Lemma checkpoint_roundtrip_witness :
  restore_snapshot digest storage repo alone (no_flags, (None, kept)) = (Ok tt, (no_flags, (Some payload1, kept))).
Proof.
  assert (Hf : fresh_generation repo (commit_point alone no_flags (Some payload1) empty_store))
    by (apply (fresh_check_ok _ (gen "1") [gen "2"]); vm_compute; reflexivity).
  assert (Hr : repository_read digest repo (snapshot_key alone) kept =
    (Ok (SnapshotRead true (Some payload1) true (Some (gen "1"))), kept)) by (vm_compute; reflexivity).
  etrans; [apply (checkpoint_roundtrip (SN := cell) digest storage repo alone no_flags (Some payload1) empty_store
    (Some payload1) (Some payload1) no_flags kept eq_refl repo_valid eq_refl Hf eq_refl closed_eq None _ _ Hr)|].
  reflexivity.
Defined.

(** A damaged chunk: the start is fenced and the close keeps its hands off. *)
Definition damaged : mem :=
  Mem (map (fun kb => if bool_decide (fst kb = snapshot_key alone) then kb else (fst kb, [x00])) (objs kept)) [] [gen "2"].
Lemma checkpoint_fence_witness :
  let f := no_flags <| persistence_fenced := true |> in
  restore_snapshot digest storage repo alone (no_flags, (None, damaged)) = (Ok tt, (f, (None, damaged))) /\
  (applied digest repo alone (view damaged) None None \/ refuses_to_persist digest storage repo alone f).
Proof.
  cbv zeta. assert (E : restore_snapshot digest storage repo alone (no_flags, (None, damaged)) =
    (Ok tt, (no_flags <| persistence_fenced := true |>, (None, damaged)))) by (vm_compute; reflexivity).
  split; [exact E|].
  exact (proj1 (proj2 (checkpoint_fence digest storage repo alone storage_resolves None damaged _ _ _ E))
           (ret tt) (Ok tt) damaged eq_refl eq_refl).
Defined.

(** A legacy value is restored, emptied, and the commit of the empty manifest is
    lost: the tombstone keeps the old value away. *)
Definition legacy_store : mem := Mem [("queue:snapshot:crawl"%string, payload1)] [Fine; Lost] [gen "1"].
Definition migrated : flags := no_flags <| legacy_retirement_pending := true |>.
Definition half_closed : mem := snd (snd (snd (persist_snapshot digest storage repo alone (migrated, (None, legacy_store))))).

Lemma legacy_stays_retired_witness :
  fst (restore_snapshot digest storage repo alone (no_flags, (None, legacy_store))) = Ok tt /\
  exists w, restore_snapshot digest storage repo alone (no_flags, (None, half_closed)) = (Ok tt, (no_flags, (None, w))).
Proof.
  split; [by vm_compute|].
  assert (Hf : fresh_generation repo (commit_point alone migrated None legacy_store))
    by (apply (fresh_check_ok _ (gen "1") []); vm_compute; reflexivity).
  assert (E : persist_snapshot digest storage repo alone (migrated, (None, legacy_store)) =
    (Raise (EQueue ""), (migrated, (None, half_closed)))) by (vm_compute; reflexivity).
  assert (Hr : repository_read digest repo (snapshot_key alone) half_closed = (Ok (SnapshotRead false None false None), half_closed))
    by (vm_compute; reflexivity).
  assert (Ht : st_retrieve (empty_snapshot_tombstone_key alone) half_closed = (Ok (obj_bytes [x31]), half_closed))
    by (vm_compute; reflexivity).
  assert (Hv : Raise (EQueue "") = Ok tt \/ view half_closed (empty_snapshot_tombstone_key alone) <> ONone)
    by (right; by vm_compute).
  exact (legacy_stays_retired (SN := cell) (SL := mem_laws) digest storage repo alone migrated None legacy_store None _ _
    half_closed "queue:snapshot:crawl" eq_refl repo_valid eq_refl eq_refl eq_refl eq_refl eq_refl Hf E Hv None _ _ _ _ Hr Ht).
Defined.
End Examples.
End QueueSnapshot.
