(* ===== verification/FilterProtocol.v ===== *)
(** * Resolving the protocol of a duplicate filter

    schedule/_dupefilter_compat.py: which methods of a duplicate filter the
    scheduler may use.  Components are Python objects whose class is known by
    its method resolution order; the rank of a name is the distance of the
    first class that declares it, computed through a bounded cache.  Attribute
    lookup is the one of ordinary objects, without [__getattribute__] hooks. *)

From S2P Require Export Prelude.

Module FilterProtocol.

(** ** Objects *)

(** The value of an attribute: its identity, whether it can be called, whether
    it is a data descriptor. *)
Record attr := Attr { a_id : nat; a_callable : bool; a_data : bool }.
#[export] Instance attr_eq_dec : EqDecision attr.
Proof. solve_decision. Defined.

Abbreviation namespace := (gmap string attr).

(** A class: its identity and the namespaces of its [__mro__], itself first. *)
Record class := Class { c_id : nat; c_mro : list namespace }.

(** An instance: its [__dict__], if it has one, and its type. *)
Record object := Object { o_dict : option namespace; o_type : class }.

Definition in_dict (o : object) (name : string) : option attr := o_dict o ≫= lookup name.

(** The first declaration along the resolution order. *)
Fixpoint class_attr (mro : list namespace) (name : string) : option attr :=
  match mro with
  | [] => None
  | ns :: mro' => match ns !! name with Some a => Some a | None => class_attr mro' name end
  end.

(** [getattr_static]: an instance attribute shadows the class unless the class
    attribute is a data descriptor. *)
Definition getattr_static (o : object) (name : string) : option attr :=
  match in_dict o name, class_attr (c_mro (o_type o)) name with
  | Some i, Some k => Some (if a_data k then k else i)
  | Some i, None => Some i
  | None, k => k
  end.

(** ** Ranks *)
Fixpoint first_declaring (mro : list namespace) (name : string) (index : nat) : option nat :=
  match mro with
  | [] => None
  | ns :: mro' => if bool_decide (is_Some (ns !! name)) then Some index else first_declaring mro' name (S index)
  end.
Definition class_rank (c : class) (name : string) : option nat := first_declaring (c_mro c) name 0.

(** [_static_declaration_rank]. *)
Definition static_declaration_rank (o : object) (name : string) : option nat :=
  match getattr_static o name with None => None | Some _ => class_rank (o_type o) name end.

(** [_class_declaration_rank] with [_CLASS_DECLARATION_RANK_CACHE], keyed by the
    class object and the name. *)
Abbreviation rank_cache := (gmap (nat * string) (option nat)).
Definition CLASS_DECLARATION_RANK_CACHE_MAX_ENTRIES : nat := 512.

Definition class_declaration_rank (c : class) (name : string) : M rank_cache (option nat) := fun cache =>
  match cache !! (c_id c, name) with
  | Some rank => (Ok rank, cache)
  | None =>
      let rank := class_rank c name in
      (Ok rank, if bool_decide (size cache < CLASS_DECLARATION_RANK_CACHE_MAX_ENTRIES)%nat
                then <[(c_id c, name) := rank]> cache else cache)
  end.

(** ** The transactional protocol *)
Definition protocol_names : list string :=
  ["request_seen_with_reservation"; "commit_reservation"; "commit_volatile_reservation";
   "rollback_reservation"; "rollback_reservation_intent"; "_atomic_protocol_request_seen";
   "request_seen"]%string.

Record atomic_methods := AtomicMethods {
  am_atomic : attr; am_commit : attr; am_volatile_commit : option attr;
  am_rollback : attr; am_rollback_intent : attr
}.

Definition shadowed (o : object) : bool :=
  existsb (fun name => bool_decide (is_Some (in_dict o name))) protocol_names.

Definition closer (r s : option nat) : bool :=
  match r, s with Some i, Some j => (i <? j)%nat | _, _ => false end.

(** The last part of [_atomic_dupefilter_methods]: reading the methods. *)
Definition read_methods (o : object) (volatile_declared : bool) : option atomic_methods :=
  let read := class_attr (c_mro (o_type o)) in
  let callable a := if a_callable a then Some a else None in
  atomic ← read "request_seen_with_reservation"%string;
  commit ← read "commit_reservation"%string;
  let volatile := if volatile_declared then read "commit_volatile_reservation"%string ≫= callable else None in
  rollback ← read "rollback_reservation"%string;
  intent ← read "rollback_reservation_intent"%string;
  if a_callable atomic && a_callable commit && a_callable rollback && a_callable intent
  then Some (AtomicMethods atomic commit volatile rollback intent) else None.

(** Its decision from the ranks; [rank] answers for the class of [o]. *)
Definition atomic_dupefilter_methods_by {S} (rank : string -> M S (option nat)) (o : object)
    : M S (option atomic_methods) :=
  if shadowed o then ret None else
  let! atomic_rank := rank "request_seen_with_reservation"%string in
  let! commit_rank := rank "commit_reservation"%string in
  let! rollback_rank := rank "rollback_reservation"%string in
  let! intent_rank := rank "rollback_reservation_intent"%string in
  if bool_decide (atomic_rank = None \/ commit_rank = None \/ rollback_rank = None \/ intent_rank = None)
  then ret None else
  let! standard_rank := rank "request_seen"%string in
  if closer standard_rank atomic_rank then ret None else
  let! canonical_rank := rank "_atomic_protocol_request_seen"%string in
  if bool_decide (is_Some canonical_rank) && bool_decide (canonical_rank = standard_rank) &&
     negb (bool_decide (getattr_static o "request_seen" = getattr_static o "_atomic_protocol_request_seen"))
  then ret None else
  let! volatile_rank := rank "commit_volatile_reservation"%string in
  ret (read_methods o (bool_decide (is_Some volatile_rank))).

(** [_atomic_dupefilter_methods]. *)
Definition atomic_dupefilter_methods (o : object) : M rank_cache (option atomic_methods) :=
  atomic_dupefilter_methods_by (class_declaration_rank (o_type o)) o.

(** ** Lifecycle hooks *)

(** [_backend_dupefilter_lifecycle]: [base] is the bundled filter class and
    [bundled] whether the object is an instance of it; the result is
    [uses_release_hook]. *)
Definition backend_dupefilter_lifecycle (base : class) (bundled : bool) (o : object) : option bool :=
  if bundled then
    Some (bool_decide (getattr_static o "close" = class_attr (c_mro base) "close"))
  else None.

(** The parameters of an open hook, as [inspect.signature] reports them. *)
Inductive kind := PositionalOnly | PositionalOrKeyword | VarPositional | KeywordOnly | VarKeyword.
Record parameter := Param { p_kind : kind; p_has_default : bool }.

(** [_call_dupefilter_open]: whether the hook receives the spider.  The
    signature of some objects cannot be determined ([None]). *)
Definition passes_spider (lifecycle : option bool) (signature : option (list parameter)) : bool :=
  match lifecycle, signature with
  | Some _, _ | None, None => true
  | None, Some ps =>
      existsb (fun p => match p_kind p with VarPositional | VarKeyword => true | _ => false end) ps ||
      existsb (fun p => match p_kind p with
                        | PositionalOnly | PositionalOrKeyword => negb (p_has_default p)
                        | _ => false end) ps
  end.

(** ** The cache is transparent *)

(** The class objects behind the identities. *)
Section Cached.
Context (classes : nat -> class) (classes_id : forall i, c_id (classes i) = i).

Definition coherent (cache : rank_cache) : Prop :=
  (forall i name rank, cache !! (i, name) = Some rank -> rank = class_rank (classes i) name) /\
  (size cache <= CLASS_DECLARATION_RANK_CACHE_MAX_ENTRIES)%nat.

Lemma class_declaration_rank_coherent i name cache : coherent cache ->
  exists cache', class_declaration_rank (classes i) name cache = (Ok (class_rank (classes i) name), cache') /\
  coherent cache'.
Proof.
  intros [Hc Hs]. unfold class_declaration_rank. rewrite classes_id.
  destruct (cache !! (i, name)) as [rank|] eqn:E.
  - exists cache. by rewrite (Hc _ _ _ E).
  - case_bool_decide as Hroom; eexists; (split; [done|]); [|done]. split.
    + intros j n rank Hr. apply lookup_insert_Some in Hr as [[[= <- <-] <-]|[_ Hr]]; [done|by apply Hc].
    + rewrite map_size_insert_None by done. lia.
Qed.

(** The resolution without a cache. *)
Definition resolve (o : object) : option atomic_methods :=
  match fst (atomic_dupefilter_methods_by (fun name => ret (class_rank (o_type o) name)) o tt) with
  | Ok r => r
  | Raise _ => None
  end.

Ltac ask H := match goal with
  |- context [match ?rank ?name ?s with _ => _ end] =>
    let E := fresh in destruct (H name s ltac:(assumption)) as (? & E & ?); rewrite E; clear E
  end.

Lemma resolve_agree {S} (P : S -> Prop) (rank : string -> M S (option nat)) o s :
  (forall name s, P s -> exists s', rank name s = (Ok (class_rank (o_type o) name), s') /\ P s') -> P s ->
  exists s', atomic_dupefilter_methods_by rank o s = (Ok (resolve o), s') /\ P s'.
Proof.
  intros Hr Hs. unfold resolve, atomic_dupefilter_methods_by.
  destruct (shadowed o); [by exists s|]. unfold bind, ret. do 4 ask Hr.
  case_bool_decide; [by eexists|]. ask Hr. destruct (closer _ _); [by eexists|]. ask Hr.
  destruct (_ && _ && _); [by eexists|]. ask Hr. by eexists.
Qed.

(** C20. The cached resolution of the protocol: whatever classes were resolved
    before, it gives the answer computed from the resolution order alone, and
    the cache stays correct and within its bound.  An instance attribute with
    the name of a protocol method, and a [request_seen] declared closer than
    the transactional check, always disable the extension. *)
Theorem protocol_resolution i o cache (Ht : o_type o = classes i) (Hc : coherent cache) :
  (exists cache', atomic_dupefilter_methods o cache = (Ok (resolve o), cache') /\ coherent cache') /\
  (shadowed o = true -> resolve o = None) /\
  (closer (class_rank (o_type o) "request_seen") (class_rank (o_type o) "request_seen_with_reservation") = true ->
   resolve o = None).
Proof.
  split_and!.
  - apply resolve_agree; [|done]. intros name c Hcc. rewrite Ht. by apply class_declaration_rank_coherent.
  - unfold resolve, atomic_dupefilter_methods_by. by intros ->.
  - intros Hcl. unfold resolve, atomic_dupefilter_methods_by. destruct (shadowed o); [done|].
    unfold bind, ret. case_bool_decide; [done|]. by rewrite Hcl.
Qed.
End Cached.

(** ** Examples *)
Module Examples.
Definition meth (i : nat) : attr := Attr i true false.
Definition bundled_ns : namespace := list_to_map (zip protocol_names (map meth [1; 2; 3; 4; 5; 7; 7]))%nat.
Definition class_of (i : nat) : class :=
  match i with
  | 1%nat => Class 1 [bundled_ns]
  | 2%nat => Class 2 [ {["request_seen"%string := meth 9]}; bundled_ns]     (* a subclass with its own policy *)
  | _ => Class i []
  end.
Lemma class_of_id i : c_id (class_of i) = i.
Proof. by destruct i as [|[|[|]]]. Defined.
Lemma empty_coherent : coherent class_of ∅.
Proof. split; [intros ??? H; by rewrite lookup_empty in H|rewrite map_size_empty; unfold CLASS_DECLARATION_RANK_CACHE_MAX_ENTRIES; lia]. Defined.

Lemma protocol_resolution_witness :
  is_Some (resolve (Object (Some ∅) (class_of 1))) /\ resolve (Object None (class_of 2)) = None /\
  exists cache', atomic_dupefilter_methods (Object None (class_of 2)) ∅ = (Ok None, cache') /\ coherent class_of cache'.
Proof.
  destruct (protocol_resolution class_of class_of_id 2 (Object None (class_of 2)) ∅ eq_refl empty_coherent)
    as (H1 & _ & H3). specialize (H3 eq_refl). rewrite H3 in H1.
  split; [exact (@mk_is_Some _ _ _ eq_refl)|]. split; [exact H3|exact H1].
Defined.
End Examples.
End FilterProtocol.
