(* ===== verification/Scheduler.v ===== *)
(** * The scheduler: its request path

    schedule/scheduler.py: [BackendScheduler.enqueue_request],
    [next_request], [has_pending_requests] and [__len__], which Scrapy calls
    synchronously.  The queue and the duplicate filter the scheduler holds are
    the interface [Collaborators]; [backend_queue] is its instance for the
    bundled queue.  The local variables of a call are a record, the statements
    of its [try] block and of each handler one definition.  Log records have no
    influence and are left out; statistics are the list of increments, as a
    failing collector is ignored. *)

From S2P Require Export Queue FilterProtocol.

Module Scheduler.
Import Codec Envelope Queue.

(** ** Requests

    A request object: its identity, its content, the mutable routing metadata
    with the broker token, and the errback, which may be the scheduler's
    wrapper around the user's. *)
Inductive errback := Plain (f : option nat) | Wrapped (original : option nat).
#[export] Instance errback_eq_dec : EqDecision errback.
Proof. solve_decision. Defined.

Record request {R : Type} := Request {
  rq_id : nat; rq_content : R; rq_live : live; rq_priority : pyarg; rq_dont_filter : bool; rq_errback : errback
}.
Arguments request : clear implicits.
Arguments Request {R}.
#[export] Instance eta_request R : Settable (request R) := fun r =>
  Request (rq_id r) (rq_content r) (rq_live r) (rq_priority r) (rq_dont_filter r) (rq_errback r).

Definition rq_token {R} (r : request R) : option queue_token := l_token (rq_live r).

(** ** The collaborators *)

(** The answer of the transactional protocol; receipts and intents are objects. *)
Record decision := Decision { d_seen : bool; d_reservation : option nat; d_observational : bool }.

(** The methods [_atomic_dupefilter_methods] resolved. *)
Record atomic_protocol (W : Type) := Atomic {
  request_seen_with_reservation : nat -> nat -> M W decision;
  commit_reservation : nat -> M W unit;
  commit_volatile_reservation : option (nat -> M W unit);
  rollback_reservation : nat -> M W unit;
  rollback_reservation_intent : nat -> M W unit
}.
Arguments request_seen_with_reservation {W}.
Arguments commit_reservation {W}.
Arguments commit_volatile_reservation {W}.
Arguments rollback_reservation {W}.
Arguments rollback_reservation_intent {W}.

(** The queue and the duplicate filter of a scheduler. A filter is given the
    identity of the request; optional methods are those the object has. *)
Class Collaborators (R W : Type) := {
  (* the bundled queue whose [push] is not overridden *)
  queue_is_canonical : bool;
  queue_push_with_durability : pyarg -> M (request R * W) bool;
  queue_push : pyarg -> M (request R * W) unit;
  queue_consume_post_commit_push : option (M W bool);
  queue_len : M W Z;
  queue_pop : M W (option (request R));
  (* the duplicate filter *)
  filter_atomic : option (atomic_protocol W);
  filter_request_seen : nat -> M W bool;
  filter_consume_reservation : option (nat -> M W bool);
  filter_settle_reservation : option (nat -> M W unit);
  filter_forget : option (nat -> M W unit);
  filter_log : nat -> M W unit
}.

(** ** The scheduler object *)
Record self := Self {
  has_queue : bool;                        (* [_queue] is not None *)
  has_dupefilter : bool; has_spider : bool;
  pause_at : option Z; resume_at : option Z;
  backpressure_paused : bool; backpressure_probe_due : bool;
  next_object : nat;
  stats : list string
}.
#[export] Instance eta_self : Settable self := fun r =>
  Self (has_queue r) (has_dupefilter r) (has_spider r) (pause_at r) (resume_at r)
    (backpressure_paused r) (backpressure_probe_due r) (next_object r) (stats r).

(** The part of [__init__] that concerns this state. *)
Definition init (has_filter : bool) (backpressure_pause_at backpressure_resume_at : option Z) : self :=
  Self false has_filter false backpressure_pause_at
    (match backpressure_resume_at with Some n => Some n | None => backpressure_pause_at end) false false 0 [].

Definition record_stat (key : string) (s : self) : self := s <| stats ::= fun l => l ++ [key] |>.

(** The [except] clause of [enqueue_request] that handles an error. *)
Inductive clause := ExceptSerialization | ExceptBackend | ExceptBase.
Definition clause_of (e : exn) : clause :=
  if bool_decide (e = ESerialization) then ExceptSerialization
  else if backend_error e then ExceptBackend else ExceptBase.

Section Scheduler.
Context {R W : Type} `{C : !Collaborators R W}.

(** ** Enqueueing *)

(** The local variables of [enqueue_request]. [atomic_bound]: the methods of
    the transactional protocol have been bound. *)
Inductive phase := Dedup | Push.
#[global] Instance phase_eq_dec : EqDecision phase.
Proof. solve_decision. Defined.

Record frame := Frame {
  the_phase : phase;
  dedup_reserved : bool; reservation : option nat; reservation_intent : option nat;
  atomic_bound : option (atomic_protocol W);
  settle_legacy_reservation : option (nat -> M W unit);
  deferred_diagnostics : list string
}.
#[global] Instance eta_frame : Settable frame := fun r =>
  Frame (the_phase r) (dedup_reserved r) (reservation r) (reservation_intent r) (atomic_bound r)
    (settle_legacy_reservation r) (deferred_diagnostics r).

Definition frame_start : frame := Frame Dedup false None None None None [].

Record env := Env { fr : frame; rq : request R; me : self; world : W }.
#[global] Instance eta_env : Settable env := fun r => Env (fr r) (rq r) (me r) (world r).

Definition on_world {A} (m : M W A) : M env A := fun e =>
  let '(o, w) := m (world e) in (o, e <| world := w |>).
Definition on_request {A} (m : M (request R * W) A) : M env A := fun e =>
  let '(o, (r, w)) := m (rq e, world e) in (o, e <| rq := r |> <| world := w |>).
Definition set_frame (f : frame -> frame) : M env unit := modify (fun e => e <| fr ::= f |>).
Definition stat (key : string) : M env unit := modify (fun e => e <| me ::= record_stat key |>).

(** [_record_or_defer_enqueue_diagnostic]. *)
Definition diagnose (defer : bool) (key : string) : M env unit :=
  if defer then set_frame (fun f => f <| deferred_diagnostics ::= fun l => l ++ [key] |>) else stat key.

(** [_flush_enqueue_diagnostics]. *)
Definition flush_enqueue_diagnostics : M env unit := modify (fun e =>
  e <| me ::= fun s => foldl (fun s key => record_stat key s) s (deferred_diagnostics (fr e)) |>).

(** [_rollback_atomic_reservation] on the bound method. *)
Definition rollback_atomic_reservation (rollback : M W unit) (preserve_primary defer : bool) : M env unit :=
  let! o := attempt (on_world rollback) in
  match o with
  | Ok _ => ret tt
  | Raise e => if is_ordinary e || preserve_primary then diagnose defer "scheduler/dupefilter_rollback_error" else raise e
  end.

(** [_commit_atomic_reservation]. *)
Definition commit_atomic_reservation (commit : M W unit) : M env unit :=
  let! o := attempt (on_world commit) in
  match o with
  | Ok _ => ret tt
  | Raise e => if is_ordinary e then stat "scheduler/dupefilter_commit_error" else raise e
  end.

(** [_rollback_dupefilter_reservation]. *)
Definition rollback_dupefilter_reservation (preserve_primary : bool) : M env unit :=
  let! e := get in
  match filter_forget with
  | None => diagnose true "scheduler/dupefilter_rollback_error"
  | Some forget => rollback_atomic_reservation (forget (rq_id (rq e))) preserve_primary true
  end.

(** [_push_queue_with_durability]: a custom queue has unknown durability. *)
Definition push_queue_with_durability (priority : pyarg) : M env (option bool) :=
  if queue_is_canonical then
    let! durable := on_request (queue_push_with_durability priority) in ret (Some durable)
  else
    let! _ := on_request (queue_push priority) in ret None.

(** [_restore_original_errback]. *)
Definition restore_original_errback (r : request R) : request R :=
  match rq_errback r with Wrapped f => r <| rq_errback := Plain f |> | Plain _ => r end.

(** The answer of the filter: whether the request was seen, and whether the
    answer is observational. *)
Definition consult : M env (bool * bool) :=
  let! e := get in
  match filter_atomic with
  | Some protocol =>
      let i := next_object (me e) in
      let! _ := modify (fun e => e <| me ::= fun s => s <| next_object := Datatypes.S i |> |>
        <| fr ::= fun f => f <| atomic_bound := Some protocol |> <| reservation_intent := Some i |> |>) in
      let! d := on_world (request_seen_with_reservation protocol (rq_id (rq e)) i) in
      let! _ := set_frame (fun f => f <| reservation := d_reservation d |>) in
      ret (d_seen d, d_observational d)
  | None =>
      let! seen := on_world (filter_request_seen (rq_id (rq e))) in
      if seen : bool then ret (true, false)
      else
        let! _ := set_frame (fun f => f <| dedup_reserved := true |>) in
        let! reserved := match filter_consume_reservation with
                         | Some consume => on_world (consume (rq_id (rq e)))
                         | None => ret true
                         end in
        let! _ := set_frame (fun f => f <| dedup_reserved := reserved |>
                                        <| settle_legacy_reservation := filter_settle_reservation |>) in
        ret (false, false)
  end.

(** The duplicate check; [Some b] is the return value of a suppressed request. *)
Definition check_duplicate : M env (option bool) :=
  let! e := get in
  if has_dupefilter (me e) && negb (rq_dont_filter (rq e)) then
    let! x := consult in
    let '(seen, observational) := x in
    if seen : bool then
      if observational : bool then ret (Some false)
      else
        let! e := get in
        if bool_decide (rq_token (rq e) = None) then
          let! _ := if has_spider (me e) then on_world (filter_log (rq_id (rq e))) else ret tt in
          ret (Some false)
        else ret None
    else ret None
  else ret None.

(** The bookkeeping of a legacy receipt after the push. *)
Definition settle_legacy : M env unit :=
  let! e := get in
  match settle_legacy_reservation (fr e) with
  | Some settle =>
      if dedup_reserved (fr e) then
        let! _ := set_frame (fun f => f <| dedup_reserved := false |>) in
        let! o := attempt (on_world (settle (rq_id (rq e)))) in
        match o with
        | Ok _ => ret tt
        | Raise x => if is_ordinary x then stat "scheduler/dupefilter_settle_error" else raise x
        end
      else ret tt
  | None => ret tt
  end.

(** Finalizing the receipt of the transactional protocol: a marker is
    published only for a durable push. *)
Definition finalize_reservation (push_is_durable : option bool) : M env unit :=
  let! e := get in
  match reservation (fr e), atomic_bound (fr e) with
  | Some receipt, Some protocol =>
      let! _ := set_frame (fun f => f <| reservation := None |>) in
      let! _ :=
        if bool_decide (push_is_durable = Some true)
        then commit_atomic_reservation (commit_reservation protocol receipt)
        else match commit_volatile_reservation protocol with
             | Some commit_volatile =>
                 let! _ := commit_atomic_reservation (commit_volatile receipt) in
                 stat "scheduler/dupefilter_volatile_marker"
             | None =>
                 let! _ := rollback_atomic_reservation (rollback_reservation protocol receipt) false false in
                 stat "scheduler/dupefilter_volatile_unmarked"
             end in
      set_frame (fun f => f <| reservation_intent := None |>)
  | _, _ => ret tt
  end.

Definition push_phase (priority : pyarg) : M env unit :=
  let! _ := set_frame (fun f => f <| the_phase := Push |>) in
  let! push_is_durable := push_queue_with_durability priority in
  let! _ := settle_legacy in
  let! _ := finalize_reservation push_is_durable in
  stat "scheduler/enqueued".

(** The compensation of the two operational handlers. *)
Definition compensate : M env unit :=
  let! e := get in
  match reservation (fr e), reservation_intent (fr e), atomic_bound (fr e) with
  | Some receipt, _, Some protocol =>
      rollback_atomic_reservation (rollback_reservation protocol receipt) false true
  | _, Some i, Some protocol =>
      rollback_atomic_reservation (rollback_reservation_intent protocol i) false true
  | _, _, _ => if dedup_reserved (fr e) then rollback_dupefilter_reservation false else ret tt
  end.

(** The [try] block of the [except BaseException] handler. *)
Definition interruption_cleanup (post_commit_push : bool) : M env unit :=
  let! e := get in
  if post_commit_push then
    let! _ := match settle_legacy_reservation (fr e) with
              | Some settle =>
                  if dedup_reserved (fr e) then
                    let! _ := set_frame (fun f => f <| dedup_reserved := false |>) in
                    let! o := attempt (on_world (settle (rq_id (rq e)))) in
                    match o with
                    | Raise x => if is_ordinary x then diagnose true "scheduler/dupefilter_settle_error" else ret tt
                    | Ok _ => ret tt
                    end
                  else ret tt
              | None => ret tt
              end in
    let! _ := match reservation_intent (fr e), atomic_bound (fr e) with
              | Some i, Some protocol => on_world (rollback_reservation_intent protocol i)
              | _, _ => ret tt
              end in
    set_frame (fun f => f <| reservation := None |> <| reservation_intent := None |>)
  else
    match reservation_intent (fr e), reservation (fr e), atomic_bound (fr e) with
    | Some i, _, Some protocol => on_world (rollback_reservation_intent protocol i)
    | _, Some receipt, Some protocol =>
        rollback_atomic_reservation (rollback_reservation protocol receipt) true true
    | _, _, _ => if dedup_reserved (fr e) then rollback_dupefilter_reservation true else ret tt
    end.

(** The [except BaseException] handler, which raises the error again. *)
Definition interrupted {A} (x : exn) : M env A :=
  let! e := get in
  let! post_commit_push :=
    if bool_decide (the_phase (fr e) = Push)
    then match queue_consume_post_commit_push with Some consume => on_world consume | None => ret false end
    else ret false in
  let! o := attempt (interruption_cleanup post_commit_push) in
  let! e := get in
  let! _ := match o, reservation_intent (fr e), atomic_bound (fr e) with
            | Raise _, Some i, Some protocol =>
                let! _ := attempt (on_world (rollback_reservation_intent protocol i)) in ret tt
            | _, _, _ => ret tt
            end in
  raise x.

(** The push that follows an outage of the filter. *)
Definition fallback_push (priority : pyarg) : M env bool :=
  let! _ := flush_enqueue_diagnostics in
  let! o := attempt (on_request (queue_push priority)) in
  match o with
  | Ok _ => let! _ := stat "scheduler/enqueued" in ret true
  | Raise x =>
      match clause_of x with
      | ExceptSerialization => let! _ := stat "scheduler/serialization_errors" in ret false
      | ExceptBackend => let! _ := stat "scheduler/queue_error" in raise (EQueue "push")
      | ExceptBase => raise x
      end
  end.

(** [enqueue_request]. *)
Definition enqueue_request : M env bool :=
  let! e := get in
  if negb (has_queue (me e)) then raise ERuntime else
  let! _ := modify (fun e => e <| rq ::= restore_original_errback |>) in
  let priority := rq_priority (rq e) in
  let! o := attempt (
    let! early := check_duplicate in
    match early with
    | Some b => ret (Some b)
    | None => let! _ := push_phase priority in ret None
    end) in
  match o with
  | Ok (Some b) => ret b
  | Ok None => let! _ := flush_enqueue_diagnostics in ret true
  | Raise x =>
      match clause_of x with
      | ExceptSerialization =>
          let! _ := compensate in
          let! _ := diagnose true "scheduler/serialization_errors" in
          let! _ := flush_enqueue_diagnostics in
          ret false
      | ExceptBackend =>
          let! e := get in
          if bool_decide (the_phase (fr e) = Dedup) then
            let! _ := match reservation_intent (fr e), atomic_bound (fr e) with
                      | Some i, Some protocol =>
                          rollback_atomic_reservation (rollback_reservation_intent protocol i) false true
                      | _, _ => ret tt
                      end in
            let! _ := diagnose true "scheduler/dupefilter_error" in
            fallback_push priority
          else
            let! _ := compensate in
            let! _ := diagnose true "scheduler/queue_error" in
            let! _ := flush_enqueue_diagnostics in
            raise (EQueue "push")
      | ExceptBase => interrupted x
      end
  end.

(** A call on a request object. *)
Definition enqueue : M (request R * (self * W)) bool := fun x =>
  let '(r, (s, w)) := x in
  let '(o, e) := enqueue_request (Env frame_start r s w) in (o, (rq e, (me e, world e))).

(** ** Dequeueing *)
Definition on_queue {A} (m : M W A) : M (self * W) A := on_snd m.
Definition count_stat (key : string) : M (self * W) unit := on_fst (modify (record_stat key)).

(** The decision of the depth gate on a depth; [true]: this poll is paused. *)
Definition gate_step (pause resume depth : Z) (s : self) : bool * self :=
  if negb (backpressure_paused s) && (pause <=? depth) then
    (true, record_stat "scheduler/backpressure_pause"
             (s <| backpressure_paused := true |> <| backpressure_probe_due := true |>))
  else if backpressure_paused s then
    if depth <=? resume then
      (false, record_stat "scheduler/backpressure_resume"
                (s <| backpressure_paused := false |> <| backpressure_probe_due := false |>))
    else if backpressure_probe_due s then (false, s <| backpressure_probe_due := false |>)
    else (true, s <| backpressure_probe_due := true |>)
  else (false, s).

(** The backpressure gate. *)
Definition backpressure_gate : M (self * W) bool :=
  let! x := get in
  match pause_at (fst x) with
  | None => ret false
  | Some pause =>
      let! o := attempt (on_queue queue_len) in
      match o with
      | Ok depth =>
          match resume_at (fst x) with
          | Some resume => on_fst (fun s => let '(b, s') := gate_step pause resume depth s in (Ok b, s'))
          | None => raise EAssertion
          end
      | Raise (EQueue _) | Raise ERestore | Raise ENotImplemented => ret false
      | Raise e => raise e
      end
  end.

(** [_wrap_download_failure]. *)
Definition wrap_download_failure (r : request R) : request R :=
  match rq_token r, rq_errback r with
  | Some _, Plain f => r <| rq_errback := Wrapped f |>
  | _, _ => r
  end.

Definition pop_request : M (self * W) (option (request R)) :=
  let! r := on_queue queue_pop in
  match r with
  | Some r => let! _ := count_stat "scheduler/dequeued" in ret (Some (wrap_download_failure r))
  | None => ret None
  end.

(** The errors of the queue that a poll reports as an empty answer. *)
Definition poll_error (e : exn) : bool :=
  match e with EQueue _ | ERestore | EConnection | EBreakerOpen => true | _ => false end.

(** [next_request]. *)
Definition next_request : M (self * W) (option (request R)) :=
  let! o := attempt (
    let! x := get in
    if negb (has_queue (fst x)) then raise ERuntime else
    let! paused := backpressure_gate in
    if paused : bool then ret None else pop_request) in
  match o with
  | Ok r => ret r
  | Raise ESerialization => let! _ := count_stat "scheduler/deserialization_errors" in ret None
  | Raise e => if poll_error e then ret None else raise e
  end.

(** [__len__] and [has_pending_requests]. *)
Definition len : M (self * W) Z :=
  let! x := get in if has_queue (fst x) then on_queue queue_len else ret 0.

Definition has_pending_requests : M (self * W) bool :=
  let! o := attempt len in
  match o with
  | Ok n => ret (0 <? n)
  | Raise ENotImplemented => ret true
  | Raise e => if poll_error e then ret true else raise e
  end.
End Scheduler.
Arguments frame W : clear implicits.
Arguments env R W : clear implicits.

(** ** The bundled queue as a collaborator

    The push and pop of [BackendQueue] on the request object; a popped request
    is a new object of the given priority.  [observe] is the outcome of the
    queue's monitor hook, [now] the clock. *)
Section Bundled.
Context {I : IsoDates} {J : JsonText} {R : Type} `{!Requests R} {S : Type} `{!QueueStrategy S}.
Context (thread : nat) (reactor : bool) (observe : outcome unit) (now : float).
Context (priority_of_request : R -> pyarg) (dont_filter_of_request : R -> bool).

Definition on_object {A} (m : R -> M (pushing (S := S)) A) : M (request R * (nat * Queue.world (S := S))) A := fun x =>
  let '(r, (n, w)) := x in
  let '(o, (l, w')) := m (rq_content r) (rq_live r, w) in (o, (r <| rq_live := l |>, (n, w'))).

(** A popped request object; the counter gives its identity. *)
Definition new_object (p : popped (R := R)) : M (nat * Queue.world (S := S)) (request R) := fun x =>
  let '(n, w) := x in
  (Ok (Request n (fst p) (Live (snd p) None SMissing) (priority_of_request (fst p))
         (dont_filter_of_request (fst p)) (Plain None)), (Datatypes.S n, w)).

Definition backend_queue (filter : Collaborators R (nat * Queue.world (S := S))) : Collaborators R (nat * Queue.world (S := S)) := {|
  queue_is_canonical := true;
  queue_push_with_durability p := on_object (fun r => push_with_durability thread reactor true observe r p);
  queue_push p := on_object (fun r => push thread reactor observe r p);
  queue_consume_post_commit_push := Some (on_snd (on_self consume_post_commit_push));
  queue_len := on_snd (Queue.len thread);
  queue_pop := let! p := on_snd (Queue.pop thread now (AInt 0)) in
               match p with
               | Some p => let! r := new_object p in ret (Some r)
               | None => ret None
               end;
  filter_atomic := filter_atomic; filter_request_seen := filter_request_seen;
  filter_consume_reservation := filter_consume_reservation;
  filter_settle_reservation := filter_settle_reservation;
  filter_forget := filter_forget; filter_log := filter_log
|}.
End Bundled.
End Scheduler.
