(* ===== verification/SchedulerFacts.v ===== *)
(** * The scheduler: properties of its request path

    The calls a scheduler makes on its collaborators are observed in a journal;
    the properties of [enqueue_request] are about the journal of one call, for
    every queue, every filter and every pattern of errors.  Any collaborators
    can be observed ([traced]). *)

From S2P Require Export Scheduler.

Module SchedulerFacts.
Import Codec Envelope Queue Scheduler.

(** ** The journal *)
Inductive event :=
  | Decided (i : nat) (o : outcome decision)       (* the answer to an intent *)
  | Seen (o : outcome bool) | Consumed (o : outcome bool)
  | Settled (o : outcome unit) | Forgot (o : outcome unit) | Logged (o : outcome unit)
  | Committed (receipt : nat) (o : outcome unit)
  | Shadowed (receipt : nat) (o : outcome unit)    (* the volatile commit *)
  | RolledBack (receipt : nat) (o : outcome unit)
  | Dropped (i : nat) (o : outcome unit)           (* the intent was rolled back *)
  | Pushed (o : outcome (option bool))
  | Asked (o : outcome bool).                      (* whether an interrupted push committed *)

(** An operation appends what [ev] says of its outcome. *)
Definition logs {W A} (j : W -> list event) (m : M W A) (ev : outcome A -> event) : Prop :=
  forall w, j (snd (m w)) = j w ++ [ev (fst (m w))].
Definition logs_push {R W A} (j : W -> list event) (m : M (request R * W) A) (ev : outcome A -> event) : Prop :=
  forall x, j (snd (snd (m x))) = j (snd x) ++ [ev (fst (m x))] /\ rq_id (fst (snd (m x))) = rq_id (fst x).

Class Journal (R W : Type) `{C : Collaborators R W} := {
  journal : W -> list event;
  journal_decided q i p : filter_atomic = Some p -> logs journal (request_seen_with_reservation p q i) (Decided i);
  journal_committed i p : filter_atomic = Some p -> logs journal (commit_reservation p i) (Committed i);
  journal_shadowed i p m : filter_atomic = Some p -> commit_volatile_reservation p = Some m ->
    logs journal (m i) (Shadowed i);
  journal_rolled_back i p : filter_atomic = Some p -> logs journal (rollback_reservation p i) (RolledBack i);
  journal_dropped i p : filter_atomic = Some p -> logs journal (rollback_reservation_intent p i) (Dropped i);
  journal_seen q : logs journal (filter_request_seen q) Seen;
  journal_consumed q m : filter_consume_reservation = Some m -> logs journal (m q) Consumed;
  journal_settled q m : filter_settle_reservation = Some m -> logs journal (m q) Settled;
  journal_forgot q m : filter_forget = Some m -> logs journal (m q) Forgot;
  journal_logged q : logs journal (filter_log q) Logged;
  journal_pushed_durably p : logs_push journal (queue_push_with_durability p) (fun o => Pushed (omap Some o));
  journal_pushed p : logs_push journal (queue_push p) (fun o => Pushed (omap (fun _ => None) o));
  journal_asked m : queue_consume_post_commit_push = Some m -> logs journal m Asked
}.

(** Any collaborators, observed. *)
Section Traced.
Context {R W : Type} (C : Collaborators R W).

Definition observe {A} (ev : outcome A -> event) (m : M W A) : M (W * list event) A := fun x =>
  let '(o, w) := m (fst x) in (o, (w, snd x ++ [ev o])).
Definition observe_push {A} (ev : outcome A -> event) (m : M (request R * W) A) : M (request R * (W * list event)) A :=
  fun x => let '(o, (r, w)) := m (fst x, fst (snd x)) in
           (o, (r <| rq_id := rq_id (fst x) |>, (w, snd (snd x) ++ [ev o]))).

Definition traced_protocol (p : atomic_protocol W) : atomic_protocol (W * list event) := {|
  request_seen_with_reservation q i := observe (Decided i) (request_seen_with_reservation p q i);
  commit_reservation i := observe (Committed i) (commit_reservation p i);
  commit_volatile_reservation := (fun m i => observe (Shadowed i) (m i)) <$> commit_volatile_reservation p;
  rollback_reservation i := observe (RolledBack i) (rollback_reservation p i);
  rollback_reservation_intent i := observe (Dropped i) (rollback_reservation_intent p i)
|}.

#[export] Instance traced : Collaborators R (W * list event) := {|
  queue_is_canonical := queue_is_canonical;
  queue_push_with_durability p := observe_push (fun o => Pushed (omap Some o)) (queue_push_with_durability p);
  queue_push p := observe_push (fun o => Pushed (omap (fun _ => None) o)) (queue_push p);
  queue_consume_post_commit_push := observe Asked <$> queue_consume_post_commit_push;
  queue_len := on_fst queue_len;
  queue_pop := on_fst queue_pop;
  filter_atomic := traced_protocol <$> filter_atomic;
  filter_request_seen q := observe Seen (filter_request_seen q);
  filter_consume_reservation := (fun m q => observe Consumed (m q)) <$> filter_consume_reservation;
  filter_settle_reservation := (fun m q => observe Settled (m q)) <$> filter_settle_reservation;
  filter_forget := (fun m q => observe Forgot (m q)) <$> filter_forget;
  filter_log q := observe Logged (filter_log q)
|}.

Lemma observe_logs {A} (ev : outcome A -> event) (m : M W A) : logs snd (observe ev m) ev.
Proof. intros [w l]. unfold observe. cbn. by destruct (m w). Qed.
Lemma observe_push_logs {A} (ev : outcome A -> event) (m : M (request R * W) A) : logs_push snd (observe_push ev m) ev.
Proof. intros [q [w l]]. unfold observe_push. cbn. by destruct (m (q, w)) as [o [q' w']]. Qed.

#[export] Instance traced_journal : Journal R (W * list event).
Proof.
  refine {| journal := snd |}; intros; cbn in *;
    repeat match goal with H : _ <$> _ = Some _ |- _ => apply fmap_Some in H as (? & ? & ->) end; cbn in *;
    repeat match goal with H : _ <$> _ = Some _ |- _ => apply fmap_Some in H as (? & ? & ->) end;
    try apply observe_logs; apply observe_push_logs.
Defined.
End Traced.

(** ** Footprints

    [emits m e Q]: started with the locals [e], [m] extends the journal by
    events [es] such that [Q] holds of its outcome, of [es] and of the locals
    after.  The rules execute a computation symbolically. *)
Section Facts.
Context {R W : Type} `{C : !Collaborators R W} `{J : !Journal R W}.
Implicit Types (e : env R W) (p : atomic_protocol W).

Definition emits {A} (m : M (env R W) A) e (Q : outcome A -> list event -> env R W -> Prop) : Prop :=
  exists es, journal (world (snd (m e))) = journal (world e) ++ es /\ Q (fst (m e)) es (snd (m e)).

Lemma emits_mono {A} (m : M (env R W) A) e (P Q : outcome A -> list event -> env R W -> Prop) :
  emits m e P -> (forall o es e', P o es e' -> Q o es e') -> emits m e Q.
Proof. intros (es & Hj & HP) H. exists es. eauto. Qed.

Lemma emits_bind {A B} (m : M (env R W) A) (k : A -> M (env R W) B) e P Q :
  emits m e P ->
  (forall o es e', P o es e' -> match o with
     | Ok a => emits (k a) e' (fun o2 es2 e2 => Q o2 (es ++ es2) e2)
     | Raise x => Q (Raise x) es e'
     end) -> emits (bind m k) e Q.
Proof.
  intros (es & Hj & HP) Hk. specialize (Hk _ _ _ HP). unfold emits, bind.
  destruct (m e) as [[a|x] e1]; cbn in *; [|by exists es].
  destruct Hk as (es2 & Hj2 & HQ). exists (es ++ es2). by rewrite Hj2, Hj, app_assoc.
Qed.

Lemma emits_ret {A} (a : A) e Q : Q (Ok a) [] e -> emits (ret a) e Q.
Proof. intros H. exists []. by rewrite app_nil_r. Qed.
Lemma emits_raise {A} x e (Q : outcome A -> _) : Q (Raise x) [] e -> emits (raise x) e Q.
Proof. intros H. exists []. by rewrite app_nil_r. Qed.
Lemma emits_get e Q : Q (Ok e) [] e -> emits get e Q.
Proof. intros H. exists []. by rewrite app_nil_r. Qed.
Lemma emits_modify f e Q : world (f e) = world e -> Q (Ok tt) [] (f e) -> emits (modify f) e Q.
Proof. intros Hw H. exists []. cbn. by rewrite Hw, app_nil_r. Qed.

Lemma emits_try {A B} (m : M (env R W) A) (k : outcome A -> M (env R W) B) e P Q :
  emits m e P ->
  (forall o es e', P o es e' -> emits (k o) e' (fun o2 es2 e2 => Q o2 (es ++ es2) e2)) ->
  emits (bind (attempt m) k) e Q.
Proof.
  intros (es & Hj & HP) Hk. specialize (Hk _ _ _ HP). unfold emits, bind, attempt.
  destruct (m e) as [o e1]; cbn in *. destruct Hk as (es2 & Hj2 & HQ). exists (es ++ es2).
  by rewrite Hj2, Hj, app_assoc.
Qed.

Lemma emits_world {A} (m : M W A) (ev : outcome A -> event) e Q : logs journal m ev ->
  (forall o w, Q o [ev o] (e <| world := w |>)) -> emits (on_world m) e Q.
Proof.
  intros Hl H. pose proof (Hl (world e)) as Hw. unfold emits, on_world.
  destruct (m (world e)) as [o w]. cbn in *. exists [ev o]. by rewrite Hw.
Qed.

Lemma emits_request {A} (m : M (request R * W) A) (ev : outcome A -> event) e Q : logs_push journal m ev ->
  (forall o q w, rq_id q = rq_id (rq e) -> Q o [ev o] (e <| rq := q |> <| world := w |>)) -> emits (on_request m) e Q.
Proof.
  intros Hl H. pose proof (Hl (rq e, world e)) as [Hw Hid]. unfold emits, on_request.
  destruct (m (rq e, world e)) as [o [q w]]. cbn in *. exists [ev o]. rewrite Hw. eauto.
Qed.

(** The same followed by more code. *)
Lemma emits_bind_world {A B} (m : M W A) (k : A -> M (env R W) B) (ev : outcome A -> event) e Q : logs journal m ev ->
  (forall a w, emits (k a) (e <| world := w |>) (fun o es e' => Q o (ev (Ok a) :: es) e')) ->
  (forall x w, Q (Raise x) [ev (Raise x)] (e <| world := w |>)) -> emits (bind (on_world m) k) e Q.
Proof.
  intros Hl Ha Hx. eapply emits_bind.
  - apply (emits_world _ ev _ (fun o es e' => es = [ev o] /\ exists w, e' = e <| world := w |>)); eauto.
  - intros [a|x] es e' (-> & w & ->); [apply Ha|apply Hx].
Qed.

Lemma emits_try_world {A B} (m : M W A) (k : outcome A -> M (env R W) B) (ev : outcome A -> event) e Q : logs journal m ev ->
  (forall o w, emits (k o) (e <| world := w |>) (fun o2 es e' => Q o2 (ev o :: es) e')) ->
  emits (bind (attempt (on_world m)) k) e Q.
Proof.
  intros Hl Ho. eapply emits_try.
  - apply (emits_world _ ev _ (fun o es e' => es = [ev o] /\ exists w, e' = e <| world := w |>)); eauto.
  - intros o es e' (-> & w & ->). apply Ho.
Qed.

(** The locals of a call that later code reads. *)
Definition locals e :=
  (the_phase (fr e), dedup_reserved (fr e), reservation (fr e), reservation_intent (fr e),
   atomic_bound (fr e), settle_legacy_reservation (fr e), rq e).
Arguments locals : simpl never.

Definition process_control (x : exn) : Prop := is_ordinary x = false.

(** A compensation or a commit never fails with an ordinary error. *)
Definition firm (o : outcome unit) : Prop := match o with Ok _ => True | Raise x => process_control x end.

Lemma firm_ok : firm (Ok tt).
Proof. exact Logic.I. Qed.
Lemma firm_raise x : is_ordinary x = false -> firm (Raise x).
Proof. done. Qed.
#[local] Hint Resolve firm_ok firm_raise : core.

Ltac finish := cbn; rewrite ?app_nil_r; split_and?; first [by eauto 10|done|congruence].

Ltac step := cbn beta iota;
  lazymatch goal with
  | |- emits (bind get _) ?e _ => apply (emits_bind _ _ _ (fun o es e' => o = Ok e /\ es = [] /\ e' = e));
      [by apply emits_get|intros ? ? ? (-> & -> & ->); cbn [app]]
  | |- emits (bind (modify ?f) _) ?e _ => apply (emits_bind _ _ _ (fun o es e' => o = Ok tt /\ es = [] /\ e' = f e));
      [by apply emits_modify|intros ? ? ? (-> & -> & ->); cbn [app]]
  | |- emits (bind (ret ?a) ?k) ?e ?Q => change (emits (k a) e Q); cbn beta iota
  | |- emits (ret _) _ _ => apply emits_ret
  | |- emits (raise _) _ _ => apply emits_raise
  | |- emits (modify _) _ _ => apply emits_modify; [done|]
  end.

Lemma diagnose_emits defer key e : emits (diagnose defer key) e (fun o es e' => o = Ok tt /\ es = [] /\ locals e' = locals e).
Proof. destruct defer, e as [[] ???]; unfold diagnose, set_frame, stat; by step. Qed.

Lemma flush_emits e : emits flush_enqueue_diagnostics e (fun o es e' => o = Ok tt /\ es = [] /\ locals e' = locals e).
Proof. destruct e as [[] ???]. unfold flush_enqueue_diagnostics. by step. Qed.

(** The result of an operation on the world, as a rule for [emits]. *)
Definition answered {A} (ev : outcome A -> event) e (o : outcome A) (es : list event) (e' : env R W) : Prop :=
  es = [ev o] /\ locals e' = locals e.

Lemma emits_answered {A} (m : M W A) (ev : outcome A -> event) e : logs journal m ev ->
  emits (on_world m) e (answered ev e).
Proof. intros Hl. apply (emits_world _ ev); [done|]. intros. split; [done|]. by destruct e. Qed.

Lemma rollback_emits m ev preserve defer e : logs journal m ev ->
  emits (rollback_atomic_reservation m preserve defer) e (fun o es e' =>
    (exists o1, es = [ev o1]) /\ firm o /\ locals e' = locals e /\ (preserve = true -> o = Ok tt)).
Proof.
  intros Hl. eapply emits_try; [by eapply emits_answered|]. intros [[]|x] es e1 [-> H1]; [step; by eauto 10|].
  destruct (is_ordinary x || preserve) eqn:Ex.
  - eapply emits_mono; [apply diagnose_emits|]. intros o es e2 (-> & -> & H2). rewrite H2. by eauto 10.
  - apply orb_false_iff in Ex as [Ex ->]. step. finish.
Qed.

Lemma commit_emits m ev e : logs journal m ev ->
  emits (commit_atomic_reservation m) e (fun o es e' => (exists o1, es = [ev o1]) /\ firm o /\ locals e' = locals e).
Proof.
  intros Hl. eapply emits_try; [by eapply emits_answered|]. intros [[]|x] es e1 [-> H1]; [step; by eauto 10|].
  cbn beta iota. unfold stat. destruct (is_ordinary x) eqn:Ex; step; [|finish]. split_and!; [by eauto..|]. rewrite <- H1. by destruct e1.
Qed.

(** ** The modes of a call

    What the locals record: nothing or a legacy reservation, or an intent of
    the transactional protocol with its receipt. *)
Inductive mode :=
  | LegacyMode (reserved : bool) (settle : option (nat -> M W unit))
  | AtomicMode (p : atomic_protocol W) (i : nat) (receipt : option nat).

Definition in_mode ph e (md : mode) : Prop :=
  let l := (the_phase (fr e), dedup_reserved (fr e), reservation (fr e), reservation_intent (fr e), atomic_bound (fr e),
            settle_legacy_reservation (fr e)) in
  match md with
  | LegacyMode b st => l = (ph, b, None, None, None, st) /\ (forall m, st = Some m -> filter_settle_reservation = Some m)
  | AtomicMode p i r => l = (ph, false, r, Some i, Some p, None) /\ filter_atomic = Some p
  end.

Lemma in_mode_ext ph e e' md : locals e' = locals e -> in_mode ph e md -> in_mode ph e' md.
Proof. unfold locals. intros H. injection H as H1 H2 H3 H4 H5 H6 H7. unfold in_mode. by rewrite H1, H2, H3, H4, H5, H6. Qed.

(** A request that was seen: dropped, or handed over for its broker token. *)
Inductive suppressed : outcome (option bool) -> list event -> Prop :=
  | suppressed_silently : suppressed (Ok (Some false)) []
  | suppressed_logged : suppressed (Ok (Some false)) [Logged (Ok tt)]
  | suppressed_log_error x : suppressed (Raise x) [Logged (Raise x)]
  | suppressed_handoff : suppressed (Ok None) [].

(** The check: its journal, its result, and the mode it leaves. *)
Inductive checked : bool -> outcome (option bool) -> list event -> mode -> Prop :=
  | checked_skip : checked false (Ok None) [] (LegacyMode false None)
  | checked_atomic_error p i x : checked true (Raise x) [Decided i (Raise x)] (AtomicMode p i None)
  | checked_new p i d : d_seen d = false -> checked true (Ok None) [Decided i (Ok d)] (AtomicMode p i (d_reservation d))
  | checked_seen p i d es o : d_seen d = true -> suppressed o es ->
      checked true o (Decided i (Ok d) :: es) (AtomicMode p i (d_reservation d))
  | checked_legacy_error x : checked true (Raise x) [Seen (Raise x)] (LegacyMode false None)
  | checked_legacy_seen es o : suppressed o es -> checked true o (Seen (Ok true) :: es) (LegacyMode false None)
  | checked_legacy_new : checked true (Ok None) [Seen (Ok false)] (LegacyMode true filter_settle_reservation)
  | checked_consumed b : checked true (Ok None) [Seen (Ok false); Consumed (Ok b)] (LegacyMode b filter_settle_reservation)
  | checked_consume_error x : checked true (Raise x) [Seen (Ok false); Consumed (Raise x)] (LegacyMode true None).

(** The push and its bookkeeping. *)
Inductive pushed : mode -> outcome unit -> list event -> mode -> Prop :=
  | pushed_error md x : pushed md (Raise x) [Pushed (Raise x)] md
  | pushed_plain md d : (match md with LegacyMode b st => b = false \/ st = None | AtomicMode _ _ r => r = None end) ->
      pushed md (Ok tt) [Pushed (Ok d)] md
  | pushed_settled st d o o' : firm o' -> pushed (LegacyMode true st) o' [Pushed (Ok d); Settled o] (LegacyMode false st)
  | pushed_committed p i r o o' : firm o' ->
      pushed (AtomicMode p i (Some r)) o' [Pushed (Ok (Some true)); Committed r o] (AtomicMode p i None)
  | pushed_shadowed p i r d o o' : d <> Some true -> commit_volatile_reservation p <> None -> firm o' ->
      pushed (AtomicMode p i (Some r)) o' [Pushed (Ok d); Shadowed r o] (AtomicMode p i None)
  | pushed_unmarked p i r d o o' : d <> Some true -> commit_volatile_reservation p = None -> firm o' ->
      pushed (AtomicMode p i (Some r)) o' [Pushed (Ok d); RolledBack r o] (AtomicMode p i None).

(** The compensation of a failed push. *)
Inductive undone : mode -> list event -> Prop :=
  | undone_receipt p i r o : undone (AtomicMode p i (Some r)) [RolledBack r o]
  | undone_intent p i o : undone (AtomicMode p i None) [Dropped i o]
  | undone_forget st o : undone (LegacyMode true st) [Forgot o]
  | undone_unsupported st : filter_forget (R := R) (W := W) = None -> undone (LegacyMode true st) []
  | undone_nothing st : undone (LegacyMode false st) [].

(** Reading the fields of a mode. *)
Ltac unmode H := let Hl := fresh "Hl" in destruct H as [Hl ?]; injection Hl as ? ? ? ? ? ?; cbn in *; subst.

Lemma consult_emits ph e : in_mode ph e (LegacyMode false None) ->
  emits consult e (fun o es e' => rq e' = rq e /\ exists md, in_mode ph e' md /\
    match o with
    | Ok (seen, _) => if seen : bool then forall o2 es2, suppressed o2 es2 -> checked true o2 (es ++ es2) md
                      else checked true (Ok None) es md
    | Raise x => checked true (Raise x) es md
    end).
Proof.
  destruct e as [[ph' dr rs ri ab st dd] q s w]. intros Hm. unmode Hm. unfold consult. step. cbn.
  destruct filter_atomic as [p|] eqn:Ep.
  - step. eapply (emits_bind_world _ _ (Decided (next_object s))); [by apply journal_decided|intros d w'|intros x w'].
    + unfold set_frame. step. step. cbn. split_and!; [done..|]. exists (AtomicMode p (next_object s) (d_reservation d)).
      split; [done|]. destruct (d_seen d) eqn:Ed; [|by constructor]. intros. by constructor.
    + split_and!; [done..|]. exists (AtomicMode p (next_object s) None). split; [done|constructor].
  - eapply (emits_bind_world _ _ Seen); [apply journal_seen|intros [] w'|intros x w'].
    + step. split_and!; [done..|]. exists (LegacyMode false None). split; [done|]. intros. by constructor.
    + unfold set_frame. step. destruct filter_consume_reservation as [m|] eqn:Em.
      * eapply (emits_bind_world _ _ Consumed); [by apply journal_consumed|intros b w2|intros x w2].
        -- step. step. split_and!; [done..|]. exists (LegacyMode b filter_settle_reservation). split; [done|constructor].
        -- split_and!; [done..|]. exists (LegacyMode true None). split; [done|constructor].
      * step. step. step. split_and!; [done..|]. exists (LegacyMode true filter_settle_reservation).
        split; [done|constructor].
    + split_and!; [done..|]. exists (LegacyMode false None). split; [done|constructor].
Qed.

(** Whether the filter is consulted. *)
Definition filtered e : bool := has_dupefilter (me e) && negb (rq_dont_filter (rq e)).

Lemma check_emits ph e : in_mode ph e (LegacyMode false None) ->
  emits check_duplicate e (fun o es e' => rq e' = rq e /\
    exists md, in_mode ph e' md /\ checked (filtered e) o es md).
Proof.
  intros Hm. unfold check_duplicate, filtered. step. destruct (_ && _).
  - eapply emits_bind; [by apply consult_emits|]. intros [[seen obs]|x] es e1 (Hq & md & Hmd & Hc); [|by eauto].
    destruct seen; [|step; rewrite app_nil_r; by eauto].
    destruct obs; [step; split_and!; eauto using suppressed|]. step.
    destruct (bool_decide (rq_token _ = None)).
    + destruct (has_spider _).
      * eapply (emits_bind_world _ _ Logged); [apply journal_logged|intros [] w|intros x w].
        -- step. split_and!; [done..|]. exists md. split; [done|]. apply Hc. constructor.
        -- split_and!; [done..|]. exists md. split; [done|]. apply Hc. constructor.
      * step. step. split_and!; eauto using suppressed.
    + step. split_and!; eauto using suppressed.
  - step. split_and!; [done..|]. exists (LegacyMode false None). split; [done|constructor].
Qed.

Lemma push_queue_emits priority e :
  emits (push_queue_with_durability priority) e (fun o es e' =>
    es = [Pushed o] /\ fr e' = fr e /\ me e' = me e /\ rq_id (rq e') = rq_id (rq e)).
Proof.
  unfold push_queue_with_durability. destruct queue_is_canonical.
  - eapply emits_bind; [eapply (emits_request _ _ _ (fun o es e' => es = [Pushed (omap Some o)] /\ fr e' = fr e /\
      me e' = me e /\ rq_id (rq e') = rq_id (rq e)) (journal_pushed_durably priority)); by intros|].
    intros [d|x] es e1 (-> & Hf & Hs & Hq); [step|]; finish.
  - eapply emits_bind; [eapply (emits_request _ _ _ (fun o es e' => es = [Pushed (omap (fun _ => None) o)] /\ fr e' = fr e /\
      me e' = me e /\ rq_id (rq e') = rq_id (rq e)) (journal_pushed priority)); by intros|].
    intros [d|x] es e1 (-> & Hf & Hs & Hq); [step|]; finish.
Qed.

Lemma in_mode_fr ph e e' md : fr e' = fr e -> in_mode ph e md -> in_mode ph e' md.
Proof. unfold in_mode. by intros ->. Qed.

Lemma settle_emits ph e md : in_mode ph e md -> emits settle_legacy e (fun o es e' =>
  (exists o1 st, md = LegacyMode true st /\ es = [Settled o1] /\ firm o /\ in_mode ph e' (LegacyMode false st)) \/
  ((match md with LegacyMode b st => b = false \/ st = None | _ => True end) /\ es = [] /\ o = Ok tt /\ in_mode ph e' md)).
Proof.
  destruct e as [[ph' dr rs ri ab st dd] q s w]. intros Hm. pose proof Hm as Hm'. unfold settle_legacy. step. cbn.
  destruct md as [b st'|p i r]; unmode Hm'; [|step; right; by split_and!].
  destruct st' as [m|]; [|step; right; split_and!; try done; by right].
  destruct b; [|step; right; split_and!; try done; by left].
  unfold set_frame. step. eapply (emits_try_world _ _ Settled); [by apply journal_settled, H|].
  intros [[]|x] w1; [step; left; exists (Ok tt), (Some m); by split_and!|]. cbn beta iota. unfold stat.
  destruct (is_ordinary x) eqn:Ex; step; left; exists (Raise x), (Some m); by split_and!.
Qed.

(** The event that finalizes a receipt. *)
Definition finalized p r (d : option bool) (es : list event) : Prop := exists o,
  (d = Some true /\ es = [Committed r o]) \/
  (d <> Some true /\ commit_volatile_reservation p <> None /\ es = [Shadowed r o]) \/
  (d <> Some true /\ commit_volatile_reservation p = None /\ es = [RolledBack r o]).

Lemma finalize_emits ph e md d : in_mode ph e md -> emits (finalize_reservation d) e (fun o es e' =>
  match md with
  | AtomicMode p i (Some r) => finalized p r d es /\ firm o /\ (is_ok o = false -> in_mode ph e' (AtomicMode p i None))
  | _ => o = Ok tt /\ es = [] /\ in_mode ph e' md
  end).
Proof.
  destruct e as [[ph' dr rs ri ab st dd] q s w]. intros Hm. pose proof Hm as Hm'. unfold finalize_reservation. step. cbn.
  destruct md as [b st'|p i [r|]]; unmode Hm'; [by step| |by step]. unfold set_frame. step.
  eapply (emits_bind _ _ _ (fun o es e' => finalized p r d es /\ firm o /\ in_mode ph e' (AtomicMode p i None))).
  - assert (Hmode : in_mode ph (Env (Frame ph false None (Some i) (Some p) None dd) q s w) (AtomicMode p i None)) by done.
    case_bool_decide as Hd.
    + eapply emits_mono; [by apply (commit_emits _ (Committed r)), journal_committed|].
      intros o es e' ([o1 ->] & Hf & Hl). refine (conj _ (conj _ _)); [exists o1; by left|done|exact (in_mode_ext _ _ e' _ Hl Hmode)].
    + destruct (commit_volatile_reservation p) as [m|] eqn:Em.
      * eapply emits_bind; [by eapply (commit_emits _ (Shadowed r)), journal_shadowed|].
        intros [[]|x] es e' ([o1 ->] & Hf & Hl); [unfold stat; step|];
          (refine (conj _ (conj _ _)); [exists o1; right; left; by rewrite Em|done|]); (apply (in_mode_fr _ e'); [by destruct e'|exact (in_mode_ext _ _ e' _ Hl Hmode)]).
      * eapply emits_bind; [by apply (rollback_emits _ (RolledBack r)), journal_rolled_back|].
        intros [[]|x] es e' ([o1 ->] & Hf & Hl & _); [unfold stat; step|];
          (refine (conj _ (conj _ _)); [exists o1; right; right; by rewrite Em|done|]); (apply (in_mode_fr _ e'); [by destruct e'|exact (in_mode_ext _ _ e' _ Hl Hmode)]).
  - intros [[]|x] es e' (Hfin & Hf & Hmd); [|by split_and!]. step. rewrite app_nil_r. by split_and!.
Qed.

Lemma push_emits priority ph e md : in_mode ph e md -> emits (push_phase priority) e (fun o es e' =>
  exists md', pushed md o es md' /\ (is_ok o = false -> in_mode Push e' md')).
Proof.
  intros Hm. unfold push_phase, set_frame. step.
  set (e0 := e <| fr ::= _ |>). assert (H0 : in_mode Push e0 md) by (destruct e as [[] ???], md as [b st|p i r]; unmode Hm; done).
  eapply emits_bind; [by apply push_queue_emits|]. intros [d|x] es e1 (-> & Hf & Hs & Hid);
    [|exists md; split; [constructor|by eauto using in_mode_fr]].
  pose proof (in_mode_fr _ e0 e1 md Hf H0) as H1. eapply emits_bind; [by eapply settle_emits|].
  intros o es e2 [(o1 & st & -> & -> & Ho & H2)|(Hmd & -> & -> & H2)].
  - destruct o as [[]|x]; [|eexists; split; [by apply pushed_settled|done]].
    eapply emits_bind; [by eapply finalize_emits|]. intros o es e3 (-> & -> & H3). unfold stat. step.
    eexists. split; [by apply pushed_settled|done].
  - eapply emits_bind; [by eapply finalize_emits|]. destruct md as [b st|p i [r|]]; cbn [app].
    + intros o es e3 (-> & -> & H3). unfold stat. step. eexists. split; [by apply pushed_plain|done].
    + intros o es e3 ([o1 Hfin] & Ho & H3).
      assert (Hp : pushed (AtomicMode p i (Some r)) o (Pushed (Ok d) :: es) (AtomicMode p i None)).
      { destruct Hfin as [[-> ->]|[(Hd & Hv & ->)|(Hd & Hv & ->)]]; by constructor. }
      destruct o as [[]|x]; [|by eauto]. unfold stat. step. eexists. rewrite app_nil_r. split; [exact Hp|done].
    + intros o es e3 (-> & -> & H3). unfold stat. step. eexists. split; [by apply pushed_plain|done].
Qed.

Lemma compensate_emits ph e md : in_mode ph e md -> emits compensate e (fun o es e' => undone md es /\ firm o).
Proof.
  destruct e as [[ph' dr rs ri ab st dd] q s w]. intros Hm. unfold compensate. step. cbn.
  destruct md as [[] st'|p i [r|]]; unmode Hm.
  - unfold rollback_dupefilter_reservation. step. destruct filter_forget as [m|] eqn:Em.
    + eapply emits_mono; [by apply (rollback_emits _ Forgot), journal_forgot|].
      intros o es e' ([o1 ->] & Hf & _). split; [constructor|done].
    + eapply emits_mono; [apply diagnose_emits|]. intros o es e' (-> & -> & _). by split; [constructor|].
  - step. by split; [constructor|].
  - eapply emits_mono; [by apply (rollback_emits _ (RolledBack r)), journal_rolled_back|].
    intros o es e' ([o1 ->] & Hf & _). split; [constructor|done].
  - eapply emits_mono; [by apply (rollback_emits _ (Dropped i)), journal_dropped|].
    intros o es e' ([o1 ->] & Hf & _). split; [constructor|done].
Qed.

(** ** The journal of a call *)

(** The error a call fails with, before its handler. *)
Inductive failed (f : bool) (x : exn) : phase -> list event -> mode -> Prop :=
  | failed_check es md : checked f (Raise x) es md -> failed f x Dedup es md
  | failed_push es md es2 md' : checked f (Ok None) es md -> pushed md (Raise x) es2 md' -> failed f x Push (es ++ es2) md'.

(** The release of the intent after an outage of the filter. *)
Inductive released : mode -> list event -> Prop :=
  | released_intent p i r o : released (AtomicMode p i r) [Dropped i o]
  | released_nothing b st : released (LegacyMode b st) [].

(** The push after an outage. *)
Inductive fallen_back : outcome bool -> list event -> Prop :=
  | fallback_pushed d : fallen_back (Ok true) [Pushed (Ok d)]
  | fallback_rejected x : clause_of x = ExceptSerialization -> fallen_back (Ok false) [Pushed (Raise x)]
  | fallback_failed x : clause_of x = ExceptBackend -> fallen_back (Raise (EQueue "push")) [Pushed (Raise x)]
  | fallback_interrupted x : clause_of x = ExceptBase -> fallen_back (Raise x) [Pushed (Raise x)].

(** Whether an interrupted push had committed. *)
Inductive marked : phase -> bool -> list event -> Prop :=
  | marked_check : marked Dedup false []
  | marked_unknown : marked Push false []
  | marked_asked b : marked Push b [Asked (Ok b)].

(** The cleanup after an interruption. *)
Inductive cleaned : bool -> mode -> list event -> Prop :=
  | cleaned_intent c p i r : cleaned c (AtomicMode p i r) [Dropped i (Ok tt)]
  | cleaned_intent_again c p i r x o : cleaned c (AtomicMode p i r) [Dropped i (Raise x); Dropped i o]
  | cleaned_settled st o : st <> None -> cleaned true (LegacyMode true st) [Settled o]
  | cleaned_forgot st o : cleaned false (LegacyMode true st) [Forgot o]
  | cleaned_unsupported st : filter_forget (R := R) (W := W) = None -> cleaned false (LegacyMode true st) []
  | cleaned_nothing c b st : b = false \/ c = true /\ st = None -> cleaned c (LegacyMode b st) [].

Inductive call (f : bool) : outcome bool -> list event -> Prop :=
  | call_suppressed es md : checked f (Ok (Some false)) es md -> call f (Ok false) es
  | call_pushed es md es2 md' : checked f (Ok None) es md -> pushed md (Ok tt) es2 md' -> call f (Ok true) (es ++ es2)
  | call_rejected x ph es md es2 : failed f x ph es md -> clause_of x = ExceptSerialization -> undone md es2 ->
      call f (Ok false) (es ++ es2)
  | call_push_failed x es md es2 : failed f x Push es md -> clause_of x = ExceptBackend -> undone md es2 ->
      call f (Raise (EQueue "push")) (es ++ es2)
  | call_undo_interrupted x ph es md es2 y : failed f x ph es md -> undone md es2 -> process_control y ->
      call f (Raise y) (es ++ es2)
  | call_outage x es md es2 o es3 : failed f x Dedup es md -> clause_of x = ExceptBackend -> released md es2 ->
      fallen_back o es3 -> call f o (es ++ es2 ++ es3)
  | call_outage_interrupted x es md es2 y : failed f x Dedup es md -> released md es2 -> process_control y ->
      call f (Raise y) (es ++ es2)
  | call_interrupted x ph es md c es2 es3 : failed f x ph es md -> clause_of x = ExceptBase -> marked ph c es2 ->
      cleaned c md es3 -> call f (Raise x) (es ++ es2 ++ es3).

(** The query after an interruption is an attribute lookup. *)
Hypothesis asking_answers : forall m w, queue_consume_post_commit_push = Some m -> is_ok (fst (m w)) = true.

Lemma fallback_emits priority e : emits (fallback_push priority) e (fun o es e' => fallen_back o es).
Proof.
  unfold fallback_push. eapply emits_bind; [apply flush_emits|]. intros o es e1 (-> & -> & _). cbn [app].
  eapply emits_try; [apply (emits_request _ _ _ (fun o es e' => es = [Pushed (omap (fun _ => None) o)])
    (journal_pushed priority)); by intros|].
  intros [[]|x] es e2 ->; cbn; unfold stat; [step; step; constructor|].
  destruct (clause_of x) eqn:Ex; [step; step|step; step|step]; by constructor.
Qed.

Lemma cleanup_intent_emits ph p i r c e : in_mode ph e (AtomicMode p i r) ->
  emits (interruption_cleanup c) e (fun o es e' => match o with
    | Ok _ => es = [Dropped i (Ok tt)]
    | Raise x => es = [Dropped i (Raise x)] /\ in_mode ph e' (AtomicMode p i r)
    end).
Proof.
  destruct e as [[ph' dr rs ri ab st dd] q s w]. intros Hm. unfold interruption_cleanup. step. cbn.
  pose proof Hm as Hm'. unmode Hm'. destruct c.
  - step. eapply (emits_bind_world _ _ (Dropped i)); [by apply journal_dropped|intros [] w1; unfold set_frame; by step|].
    intros x w1. by split.
  - assert (Hd : emits (on_world (rollback_reservation_intent p i)) (Env (Frame ph false r (Some i) (Some p) None dd) q s w)
      (fun o es e' => match o with
       | Ok _ => es = [Dropped i (Ok tt)]
       | Raise x => es = [Dropped i (Raise x)] /\ in_mode ph e' (AtomicMode p i r)
       end)); [|by destruct r].
    eapply (emits_world _ (Dropped i)); [by apply journal_dropped|]. intros [[]|x] w1; [done|by split].
Qed.

Lemma cleanup_legacy_emits ph b st c e : in_mode ph e (LegacyMode b st) ->
  emits (interruption_cleanup c) e (fun o es e' =>
    o = Ok tt /\ cleaned c (LegacyMode b st) es).
Proof.
  destruct e as [[ph' dr rs ri ab st' dd] q s w]. intros Hm. unfold interruption_cleanup. step. cbn. unmode Hm.
  unfold set_frame. destruct c.
  - destruct st as [m|]; [destruct b|].
    + eapply emits_bind.
      * step. eapply (emits_try_world _ _ Settled); [by apply journal_settled, H|]. intros o w1.
        instantiate (1 := fun o es e' => o = Ok tt /\ reservation_intent (fr e') = None /\ exists o1, es = [Settled o1]).
        destruct o as [[]|x]; [step; by eauto|]. cbn. destruct (is_ordinary x); [|step; by eauto].
        unfold diagnose, set_frame. step. by eauto.
      * intros o es e' (-> & Hi & [o1 ->]). cbn. step. step. split; [done|by constructor].
    + step. step. step. split; [done|constructor; by left].
    + step. step. step. split; [done|constructor; by right].
  - destruct b; [|step; split; [done|constructor; by left]].
    unfold rollback_dupefilter_reservation. step. destruct filter_forget as [m|] eqn:Em.
    + eapply emits_mono; [by apply (rollback_emits _ Forgot), journal_forgot|].
      intros o es e' ([o1 ->] & _ & _ & Hp). split; [by apply Hp|constructor].
    + eapply emits_mono; [apply diagnose_emits|]. intros o es e' (-> & -> & _). by split; [|constructor].
Qed.

Lemma interrupted_emits {A} x e ph md : in_mode ph e md ->
  emits (interrupted (A := A) x) e (fun o es e' => o = Raise x /\ exists c es2 es3, es = es2 ++ es3 /\ marked ph c es2 /\ cleaned c md es3).
Proof.
  intros Hm. assert (Hph : the_phase (fr e) = ph) by (destruct md; by unmode Hm).
  unfold interrupted. step.
  eapply (emits_bind _ _ _ (fun o es e' => exists c, o = Ok c /\ marked ph c es /\ in_mode ph e' md)).
  - rewrite Hph. case_bool_decide as Hp; cycle 1.
    { step. exists false. split_and!; [done| |done]. destruct ph; [constructor|done]. }
    destruct queue_consume_post_commit_push as [m|] eqn:Em.
    + pose proof (asking_answers m (world e) eq_refl) as Ha. pose proof (journal_asked m Em (world e)) as Hj.
      unfold emits, on_world. destruct (m (world e)) as [[c|y] w1]; [|done]. cbn in *. exists [Asked (Ok c)].
      split; [done|]. exists c. split_and!; [done|rewrite Hp; constructor|by destruct e].
    + step. exists false. split_and!; [done|rewrite Hp; constructor|done].
  - intros o es e1 (c & -> & Hmk & H1). destruct md as [b st|p i r].
    + eapply emits_try; [by eapply cleanup_legacy_emits|]. intros o es2 e2 (-> & Hc). do 3 step.
      split; [done|]. exists c, es, es2. split_and!; [by rewrite ?app_nil_r|done..].
    + eapply emits_try; [by eapply cleanup_intent_emits|]. intros [u|y] es2 e2; cbn beta iota.
      * intros ->. do 3 step. split; [done|]. exists c, es, [Dropped i (Ok tt)].
        split_and!; [by rewrite ?app_nil_r|done|constructor].
      * intros [-> H2]. step. destruct e2 as [[ph2 dr2 rs2 ri2 ab2 st2 dd2] q2 s2 w2]. unmode H2. cbn.
        apply (emits_bind _ _ _ (fun o es e' => o = Ok tt /\ exists o1, es = [Dropped i o1])).
        { eapply (emits_try_world _ _ (Dropped i)); [by apply journal_dropped|]. intros o w3. step. by eauto. }
        intros o es2 e3 (-> & o1 & ->). step. split; [done|].
        exists c, es, [Dropped i (Raise y); Dropped i o1]. split_and!; [by rewrite ?app_nil_r|done|constructor].
Qed.

Lemma released_emits ph e md : in_mode ph e md ->
  emits (match reservation_intent (fr e), atomic_bound (fr e) with
         | Some i, Some p => rollback_atomic_reservation (rollback_reservation_intent p i) false true
         | _, _ => ret tt
         end) e (fun o es e' => released md es /\ firm o).
Proof.
  destruct e as [[ph' dr rs ri ab st dd] q s w]. intros Hm. destruct md as [b st'|p i r]; unmode Hm.
  - step. by split; [constructor|].
  - eapply emits_mono; [by apply (rollback_emits _ (Dropped i)), journal_dropped|].
    intros o es e' ([o1 ->] & Hf & _). by split; [constructor|].
Qed.

Lemma in_mode_phase ph e md : in_mode ph e md -> the_phase (fr e) = ph.
Proof. intros Hm. destruct md; by unmode Hm. Qed.

(** The [try] block. *)
Lemma body_emits priority e : in_mode Dedup e (LegacyMode false None) ->
  emits (let! early := check_duplicate in
         match early with Some b => ret (Some b) | None => let! _ := push_phase priority in ret None end) e
    (fun o es e' => match o with
     | Ok (Some b) => b = false /\ exists md, checked (filtered e) (Ok (Some false)) es md
     | Ok None => exists es1 es2 md md', es = es1 ++ es2 /\ checked (filtered e) (Ok None) es1 md /\ pushed md (Ok tt) es2 md'
     | Raise x => exists md, failed (filtered e) x (the_phase (fr e')) es md /\ in_mode (the_phase (fr e')) e' md
     end).
Proof.
  intros Hm. eapply emits_bind; [by eapply check_emits|]. intros [[b|]|x] es e1 (_ & md & H1 & Hc).
  - step. rewrite app_nil_r. assert (b = false) as -> by (inversion Hc; subst; by match goal with H : suppressed _ _ |- _ => inversion H end).
    by eauto.
  - eapply emits_bind; [by eapply push_emits|]. intros [[]|x] es2 e2 (md' & Hp & H2).
    + step. rewrite app_nil_r. by eauto 10.
    + specialize (H2 eq_refl). rewrite (in_mode_phase _ _ _ H2). exists md'. split; [by econstructor|done].
  - rewrite (in_mode_phase _ _ _ H1). exists md. split; [by constructor|done].
Qed.

(** Every call on an open scheduler follows the grammar [call]. *)
Lemma enqueue_journal e : fr e = frame_start -> has_queue (me e) = true ->
  emits enqueue_request e (fun o es e' => call (filtered e) o es).
Proof.
  intros Hfr Hq. unfold enqueue_request. step. rewrite Hq. cbn [negb]. step.
  set (e0 := e <| rq ::= restore_original_errback |>).
  assert (Hf : filtered e0 = filtered e).
  { destruct e as [f q s w]. unfold filtered, e0, restore_original_errback. cbn. by destruct (rq_errback q). }
  assert (H0 : in_mode Dedup e0 (LegacyMode false None)) by (destruct e; cbn in Hfr; subst; by split).
  eapply emits_try; [by apply body_emits|]. rewrite Hf. intros [[b|]|x] es e1; cbn beta iota.
  - intros [-> [md Hc]]. step. rewrite app_nil_r. by eapply call_suppressed.
  - intros (es1 & es2 & md & md' & -> & Hc & Hp).
    eapply emits_bind; [apply flush_emits|]. intros o es3 e2 (-> & -> & _). step. rewrite !app_nil_r. by eapply call_pushed.
  - intros (md & Hx & Hm). destruct (clause_of x) eqn:Ex.
    + eapply emits_bind; [by eapply compensate_emits|]. intros [[]|y] es2 e2 [Hu Ho];
        [|by eapply call_undo_interrupted].
      eapply emits_bind; [apply diagnose_emits|]. intros o es3 e3 (-> & -> & _).
      eapply emits_bind; [apply flush_emits|]. intros o es4 e4 (-> & -> & _). step. rewrite !app_nil_r.
      by eapply call_rejected.
    + step. case_bool_decide as Hp.
      * rewrite Hp in Hx. eapply emits_bind; [by eapply released_emits|]. intros [[]|y] es2 e2 [Hu Ho];
          [|by eapply call_outage_interrupted].
        eapply emits_bind; [apply diagnose_emits|]. intros o es3 e3 (-> & -> & _).
        eapply emits_mono; [apply fallback_emits|]. intros o es4 e4 Hb. cbn. by eapply call_outage.
      * assert (Hpush : the_phase (fr e1) = Push) by (by destruct (the_phase (fr e1))). rewrite Hpush in Hx.
        eapply emits_bind; [by eapply compensate_emits|]. intros [[]|y] es2 e2 [Hu Ho];
          [|by eapply call_undo_interrupted].
        eapply emits_bind; [apply diagnose_emits|]. intros o es3 e3 (-> & -> & _).
        eapply emits_bind; [apply flush_emits|]. intros o es4 e4 (-> & -> & _). step. rewrite !app_nil_r.
        by eapply call_push_failed.
    + eapply emits_mono; [by eapply interrupted_emits|]. intros o es2 e2 (-> & c & es3 & es4 & -> & Hk & Hc).
      by eapply call_interrupted.
Qed.

(** A call on a request, with the events it added. *)
Lemma enqueue_call (r r' : request R) (s s' : self) (w w' : W) o es :
  has_queue s = true -> enqueue (r, (s, w)) = (o, (r', (s', w'))) -> journal w' = journal w ++ es ->
  call (has_dupefilter s && negb (rq_dont_filter r)) o es.
Proof.
  intros Hq He Hj. destruct (enqueue_journal (Env frame_start r s w) eq_refl Hq) as (es' & Hj' & Hc).
  unfold enqueue in He. destruct (enqueue_request _) as [o1 e1]. injection He as <- <- <- <-. cbn in *.
  rewrite Hj' in Hj. by apply app_inv_head in Hj as ->.
Qed.

(** ** What a result means *)
Definition is_commit (ev : event) : bool := match ev with Pushed (Ok _) => true | _ => false end.
Definition says_seen (ev : event) : bool :=
  match ev with Seen (Ok b) => b | Decided _ (Ok d) => d_seen d | _ => false end.
Definition fails_with (x : exn) (ev : event) : bool :=
  match ev with
  | Decided _ (Raise y) | Seen (Raise y) | Consumed (Raise y) | Logged (Raise y) | Pushed (Raise y) => bool_decide (x = y)
  | _ => false
  end.

(** The number of pushes the queue accepted. *)
Definition commits (es : list event) : nat := length (List.filter is_commit es).

Lemma commits_app es es' : commits (es ++ es') = (commits es + commits es')%nat.
Proof. unfold commits. by rewrite List.filter_app, length_app. Qed.

Lemma checked_commits f o es md : checked f o es md -> commits es = 0%nat.
Proof. intros Hc. inversion Hc; subst; try done; match goal with H : suppressed _ _ |- _ => by inversion H end. Qed.
Lemma undone_commits md es : undone md es -> commits es = 0%nat.
Proof. by inversion 1. Qed.
Lemma released_commits md es : released md es -> commits es = 0%nat.
Proof. by inversion 1. Qed.
Lemma cleaned_commits c md es : cleaned c md es -> commits es = 0%nat.
Proof. by inversion 1. Qed.
Lemma marked_commits ph c es : marked ph c es -> commits es = 0%nat.
Proof. by inversion 1. Qed.

Lemma pushed_commits md o es md' : pushed md o es md' ->
  match o with Ok _ => commits es = 1%nat | Raise x => (commits es <= 1)%nat /\ (clause_of x <> ExceptBase -> commits es = 0%nat) end.
Proof.
  assert (Hctl : forall x, process_control x -> clause_of x = ExceptBase) by (by intros [] Hx).
  intros [| | | | | ]; try done; [cbn; split; [lia|done]|..];
    (match goal with H : firm ?o |- _ => destruct o as [[]|x]; [done|] end; split; [cbn; lia|]);
    intros Hn; by destruct Hn; apply Hctl.
Qed.

(** What of the error is in the journal. *)
Lemma failed_commits f x ph es md : failed f x ph es md -> (commits es <= 1)%nat /\ (clause_of x <> ExceptBase -> commits es = 0%nat).
Proof.
  intros [es1 md1 Hc|es1 md1 es2 md' Hc Hp].
  - rewrite (checked_commits _ _ _ _ Hc). split; [lia|done].
  - rewrite commits_app, (checked_commits _ _ _ _ Hc). by apply (pushed_commits _ (Raise x)) in Hp.
Qed.

Lemma clause_serialization x : clause_of x = ExceptSerialization -> x = ESerialization.
Proof. unfold clause_of. case_bool_decide; [done|]. by destruct (backend_error x). Qed.

Lemma checked_cause f o es md : checked f o es md -> match o with
  | Ok (Some _) => existsb says_seen es = true
  | Ok None => True
  | Raise x => existsb (fails_with x) es = true
  end.
Proof.
  intros Hc. inversion Hc; subst; cbn; rewrite ?bool_decide_true, ?orb_true_r by done; try done;
    match goal with H : suppressed _ _ |- _ => inversion H; subst; cbn end;
    rewrite ?bool_decide_true by done; by rewrite ?H.
Qed.

Lemma clause_control x : process_control x -> clause_of x = ExceptBase.
Proof. by destruct x. Qed.

Lemma failed_cause f x ph es md : failed f x ph es md -> clause_of x <> ExceptBase -> existsb (fails_with x) es = true.
Proof.
  intros [es1 md1 Hc|es1 md1 es2 md' Hc Hp] Hx; [exact (checked_cause _ _ _ _ Hc)|].
  rewrite existsb_app. apply orb_true_intro. right.
  inversion Hp; subst; cbn; rewrite ?bool_decide_true by done; try done;
    match goal with H : firm (Raise ?y) |- _ => by destruct Hx; apply clause_control end.
Qed.

Lemma fallen_back_outcome o es : fallen_back o es ->
  match o with
  | Ok true => commits es = 1%nat
  | Ok false => commits es = 0%nat /\ existsb (fails_with ESerialization) es = true
  | Raise x => commits es = 0%nat /\ (backend_error x = true -> x = EQueue "push")
  end.
Proof.
  intros [d|x Hx|x Hx|x Hx]; cbn; try done.
  - apply clause_serialization in Hx as ->. by rewrite bool_decide_true.
  - split; [done|]. unfold clause_of in Hx. intros Hb. rewrite Hb in Hx. by case_bool_decide.
Qed.

Lemma base_not_backend x : clause_of x = ExceptBase -> backend_error x = false.
Proof. unfold clause_of. case_bool_decide; [done|]. by destruct (backend_error x). Qed.

(** C17. The result of [enqueue_request], for every queue and every filter: at most
    one push of a call is accepted; True means that exactly one was; False means
    that none was and the request was a duplicate or cannot be serialized; and
    every operational error is the retryable error of the push, with none
    accepted. *)
Theorem enqueue_outcome (r r' : request R) (s s' : self) (w w' : W) o es
    (Hq : has_queue s = true) (He : enqueue (r, (s, w)) = (o, (r', (s', w')))) (Hj : journal w' = journal w ++ es) :
  (commits es <= 1)%nat /\
  match o with
  | Ok true => commits es = 1%nat
  | Ok false => commits es = 0%nat /\ (existsb says_seen es = true \/ existsb (fails_with ESerialization) es = true)
  | Raise x => backend_error x = true -> x = EQueue "push" /\ commits es = 0%nat
  end.
Proof.
  pose proof (enqueue_call _ _ _ _ _ _ _ _ Hq He Hj) as Hc. revert Hc. generalize (has_dupefilter s && negb (rq_dont_filter r)).
  clear. intros f. assert (Hzero : forall (a b : nat), a = 0%nat -> b = 0%nat -> (a + b <= 1)%nat) by lia.
  intros [es1 md Hc|es1 md es2 md' Hc Hp|x ph es1 md es2 Hf Hx Hu|x es1 md es2 Hf Hx Hu|x ph es1 md es2 y Hf Hu Hy
    |x es1 md es2 o' es3 Hf Hx Hr Hb|x es1 md es2 y Hf Hr Hy|x ph es1 md c es2 es3 Hf Hx Hm Hc]; rewrite ?commits_app.
  - rewrite (checked_commits _ _ _ _ Hc). pose proof (checked_cause _ _ _ _ Hc). by split_and!; [lia| |left].
  - rewrite (checked_commits _ _ _ _ Hc). apply pushed_commits in Hp. cbn in Hp. rewrite Hp. by split.
  - destruct (failed_commits _ _ _ _ _ Hf) as [_ H0]. rewrite (undone_commits _ _ Hu), H0 by congruence.
    split_and!; [lia|done|]. right. rewrite existsb_app. pose proof (clause_serialization _ Hx). subst x.
    by rewrite (failed_cause _ _ _ _ _ Hf) by congruence.
  - destruct (failed_commits _ _ _ _ _ Hf) as [_ H0]. rewrite (undone_commits _ _ Hu), H0 by congruence.
    split; [lia|done].
  - destruct (failed_commits _ _ _ _ _ Hf) as [H1 _]. rewrite (undone_commits _ _ Hu).
    split; [lia|]. intros Hb. by apply clause_control, base_not_backend in Hy; congruence.
  - destruct (failed_commits _ _ _ _ _ Hf) as [_ H0]. rewrite (released_commits _ _ Hr), H0 by congruence.
    apply fallen_back_outcome in Hb. rewrite !existsb_app. destruct o' as [[]|y]; cbn in *.
    + rewrite Hb. by split.
    + destruct Hb as [-> ->]. split_and!; [lia|done|]. right. by rewrite !orb_true_r.
    + destruct Hb as [-> Hb]. split; [lia|]. intros Hy. split; [by apply Hb|done].
  - destruct (failed_commits _ _ _ _ _ Hf) as [H1 _]. rewrite (released_commits _ _ Hr).
    split; [lia|]. intros Hb. by apply clause_control, base_not_backend in Hy; congruence.
  - destruct (failed_commits _ _ _ _ _ Hf) as [H1 _]. rewrite (marked_commits _ _ _ Hm), (cleaned_commits _ _ _ Hc).
    split; [lia|]. intros Hb. apply base_not_backend in Hx. congruence.
Qed.

(** ** Receipts of the transactional protocol *)
Definition grants (q : nat) (ev : event) : bool :=
  match ev with Decided _ (Ok d) => negb (d_seen d) && bool_decide (d_reservation d = Some q) | _ => false end.
Definition is_durable (ev : event) : bool := match ev with Pushed (Ok (Some true)) => true | _ => false end.
Definition is_committed (ev : event) : bool := match ev with Committed _ _ => true | _ => false end.
Definition is_rolled_back (ev : event) : bool := match ev with RolledBack _ _ => true | _ => false end.
Definition is_final (ev : event) : bool :=
  match ev with Committed _ _ | Shadowed _ _ | RolledBack _ _ | Dropped _ _ => true | _ => false end.
(** An event on a receipt is on [q]. *)
Definition concerns (q : nat) (ev : event) : bool :=
  match ev with Committed x _ | Shadowed x _ | RolledBack x _ => bool_decide (x = q) | _ => true end.
Definition finals (es : list event) : nat := length (List.filter is_final es).

(** The part of a journal after a grant. *)
Definition grant_ok (q : nat) (settled : Prop) (es : list event) : Prop :=
  forallb (concerns q) es = true /\
  (existsb is_committed es = true -> existsb is_durable es = true) /\
  (existsb is_rolled_back es = true -> existsb is_durable es = false) /\
  (1 <= finals es)%nat /\ (settled -> finals es = 1%nat).

Lemma checked_grant f o es md q : checked f o es md -> existsb (grants q) es = true ->
  exists p i d, o = Ok None /\ md = AtomicMode p i (Some q) /\ es = [Decided i (Ok d)].
Proof.
  intros Hc Hg. inversion Hc; subst; try done; cbn in Hg.
  - rewrite orb_false_r in Hg. apply andb_prop in Hg as [_ Hg%bool_decide_eq_true]. rewrite Hg. by eauto 10.
  - rewrite H in Hg. by inversion H0; subst.
  - by inversion H; subst.
Qed.

(** The end of a call that was granted [q]. *)
Inductive granted p i q : outcome bool -> list event -> Prop :=
  | granted_pushed es md : pushed (AtomicMode p i (Some q)) (Ok tt) es md -> granted p i q (Ok true) es
  | granted_failed x es md es2 o : pushed (AtomicMode p i (Some q)) (Raise x) es md -> clause_of x <> ExceptBase ->
      undone md es2 -> granted p i q o (es ++ es2)
  | granted_undo_interrupted x es md es2 y : pushed (AtomicMode p i (Some q)) (Raise x) es md -> undone md es2 ->
      process_control y -> granted p i q (Raise y) (es ++ es2)
  | granted_interrupted x es md c es2 es3 : pushed (AtomicMode p i (Some q)) (Raise x) es md -> clause_of x = ExceptBase ->
      marked Push c es2 -> cleaned c md es3 -> granted p i q (Raise x) (es ++ es2 ++ es3).

Lemma failed_granted f x ph es md q : failed f x ph es md -> existsb (grants q) es = true ->
  exists p i d es2, ph = Push /\ es = Decided i (Ok d) :: es2 /\ pushed (AtomicMode p i (Some q)) (Raise x) es2 md.
Proof.
  intros [es1 md1 Hc|es1 md1 es2 md' Hc Hp] Hg.
  - by destruct (checked_grant _ _ _ _ _ Hc Hg) as (p & i & d & ? & _).
  - rewrite existsb_app in Hg. apply orb_prop in Hg as [Hg|Hg]; [|exfalso; by inversion Hp; subst; cbn in Hg].
    destruct (checked_grant _ _ _ _ _ Hc Hg) as (p & i & d & _ & -> & ->). by exists p, i, d, es2.
Qed.

Lemma call_granted f o es q : call f o es -> existsb (grants q) es = true ->
  exists p i d es2, es = Decided i (Ok d) :: es2 /\ granted p i q o es2.
Proof.
  intros [es1 md Hc|es1 md es2 md' Hc Hp|x ph es1 md es2 Hf Hx Hu|x es1 md es2 Hf Hx Hu|x ph es1 md es2 y Hf Hu Hy
    |x es1 md es2 o' es3 Hf Hx Hr Hb|x es1 md es2 y Hf Hr Hy|x ph es1 md c es2 es3 Hf Hx Hm Hc] Hg;
    rewrite ?existsb_app in Hg.
  - by destruct (checked_grant _ _ _ _ _ Hc Hg) as (p & i & d & ? & _).
  - apply orb_prop in Hg as [Hg|Hg]; [|exfalso; by inversion Hp; subst; cbn in Hg].
    destruct (checked_grant _ _ _ _ _ Hc Hg) as (p & i & d & _ & -> & ->). exists p, i, d, es2. split; [done|by econstructor].
  - apply orb_prop in Hg as [Hg|Hg]; [|exfalso; by inversion Hu; subst; cbn in Hg].
    destruct (failed_granted _ _ _ _ _ _ Hf Hg) as (p & i & d & es3 & -> & -> & Hp). exists p, i, d, (es3 ++ es2).
    split; [done|]. eapply granted_failed; [done|congruence|done].
  - apply orb_prop in Hg as [Hg|Hg]; [|exfalso; by inversion Hu; subst; cbn in Hg].
    destruct (failed_granted _ _ _ _ _ _ Hf Hg) as (p & i & d & es3 & _ & -> & Hp). exists p, i, d, (es3 ++ es2).
    split; [done|]. eapply granted_failed; [done|congruence|done].
  - apply orb_prop in Hg as [Hg|Hg]; [|exfalso; by inversion Hu; subst; cbn in Hg].
    destruct (failed_granted _ _ _ _ _ _ Hf Hg) as (p & i & d & es3 & _ & -> & Hp). exists p, i, d, (es3 ++ es2).
    split; [done|by eapply granted_undo_interrupted].
  - apply orb_prop in Hg as [Hg|[Hg|Hg]%orb_prop]; [|exfalso; by inversion Hr; subst; cbn in Hg|exfalso; by inversion Hb; subst; cbn in Hg].
    by destruct (failed_granted _ _ _ _ _ _ Hf Hg) as (p & i & d & es4 & ? & _).
  - apply orb_prop in Hg as [Hg|Hg]; [|exfalso; by inversion Hr; subst; cbn in Hg].
    by destruct (failed_granted _ _ _ _ _ _ Hf Hg) as (p & i & d & es4 & ? & _).
  - apply orb_prop in Hg as [Hg|[Hg|Hg]%orb_prop]; [|exfalso; by inversion Hm; subst; cbn in Hg|exfalso; by inversion Hc; subst; cbn in Hg].
    destruct (failed_granted _ _ _ _ _ _ Hf Hg) as (p & i & d & es4 & -> & -> & Hp). exists p, i, d, (es4 ++ es2 ++ es3).
    split; [done|by eapply granted_interrupted].
Qed.

Lemma pushed_receipt p i q o es md : pushed (AtomicMode p i (Some q)) o es md ->
  (exists x, o = Raise x /\ es = [Pushed (Raise x)] /\ md = AtomicMode p i (Some q)) \/
  (md = AtomicMode p i None /\ firm o /\ exists d ev, es = [Pushed (Ok d); ev] /\ concerns q ev = true /\
    is_final ev = true /\ (is_committed ev = true -> d = Some true) /\ (is_rolled_back ev = true -> d <> Some true)).
Proof.
  intros Hp. inversion Hp; subst; [by left; eauto|done|..]; right; (split; [done|split; [done|]]);
    eexists _, _; (split; [done|]); cbn; by rewrite bool_decide_true.
Qed.

Lemma durable_pushed d l : existsb is_durable l = false ->
  existsb is_durable (Pushed (Ok d) :: l) = bool_decide (d = Some true).
Proof. intros Hl. cbn. rewrite Hl, orb_false_r. by destruct d as [[]|]. Qed.

(** The events after the push and its final event. *)
Lemma grant_ok_settled q (settled : Prop) d ev l : concerns q ev = true -> is_final ev = true ->
  (is_committed ev = true -> d = Some true) -> (is_rolled_back ev = true -> d <> Some true) ->
  forallb (concerns q) l = true -> existsb is_durable (ev :: l) = false -> existsb is_committed l = false ->
  existsb is_rolled_back l = false -> (settled -> finals l = 0%nat) -> grant_ok q settled (Pushed (Ok d) :: ev :: l).
Proof.
  intros Hq Hf Hc Hr Hql Hdl Hcl Hrl Hfl. unfold grant_ok. rewrite durable_pushed by done.
  cbn [forallb existsb concerns is_committed is_rolled_back orb andb]. rewrite Hq, Hql, Hcl, Hrl, !orb_false_r.
  unfold finals in *. cbn. rewrite Hf. cbn. split_and!; [done|..|lia|by intros ->%Hfl].
  - intros ->%Hc. by apply bool_decide_eq_true.
  - intros Hd%Hr. by apply bool_decide_eq_false.
Qed.

Lemma final_not_durable ev : is_final ev = true -> is_durable ev = false.
Proof. by destruct ev as [| | | | | | | | | |[[[]|]|]|]. Qed.

Lemma granted_final p i q o es : granted p i q o es ->
  grant_ok q (match o with Ok _ => True | Raise x => backend_error x = true end) es.
Proof.
  intros [es1 md Hp|x es1 md es2 o' Hp Hx Hu|x es1 md es2 y Hp Hu Hy|x es1 md c es2 es3 Hp Hx Hm Hc];
    apply pushed_receipt in Hp as [(y0 & Hy0 & -> & ->)|(-> & Ho & d & ev & -> & Hq & Hf & Hcm & Hr)]; simplify_eq;
    cbn [app]; pose proof final_not_durable as Hnd.
  - apply grant_ok_settled; try done. cbn. by rewrite (Hnd _ Hf).
  - inversion Hu; subst. unfold grant_ok. cbn. by rewrite bool_decide_true.
  - by destruct Hx; apply clause_control.
  - inversion Hu; subst. unfold grant_ok. cbn. by rewrite bool_decide_true.
  - inversion Hu; subst. apply grant_ok_settled; try done; [cbn; by rewrite (Hnd _ Hf)|].
    intros Hb. by apply clause_control, base_not_backend in Hy; congruence.
  - apply base_not_backend in Hx. inversion Hm; subst; inversion Hc; subst; unfold grant_ok; cbn; split_and!; first [done|lia|by rewrite Hx].
  - apply base_not_backend in Hx. inversion Hm; subst; inversion Hc; subst; cbn [app];
      (apply grant_ok_settled; try done; [cbn; by rewrite (Hnd _ Hf)|]); by rewrite Hx.
Qed.

(** C16. The receipts of the transactional protocol: a new request that was granted
    a receipt has it finalized, exactly once unless the call is interrupted; a
    persistent marker is published only after a durable push, and the marker of
    a durable push is never rolled back. *)
Theorem receipt_settled (r r' : request R) (s s' : self) (w w' : W) o es q
    (Hq : has_queue s = true) (He : enqueue (r, (s, w)) = (o, (r', (s', w')))) (Hj : journal w' = journal w ++ es)
    (Hg : existsb (grants q) es = true) :
  forallb (concerns q) es = true /\
  (existsb is_committed es = true -> existsb is_durable es = true) /\
  (existsb is_rolled_back es = true -> existsb is_durable es = false) /\
  (1 <= finals es)%nat /\
  (match o with Ok _ => True | Raise x => backend_error x = true end -> finals es = 1%nat).
Proof.
  pose proof (enqueue_call _ _ _ _ _ _ _ _ Hq He Hj) as Hc.
  destruct (call_granted _ _ _ _ Hc Hg) as (p & i & d & es2 & -> & Hd). by apply granted_final in Hd.
Qed.

(** ** Reservations of the standard protocol *)
Definition is_new (ev : event) : bool := match ev with Seen (Ok b) => negb b | _ => false end.
Definition is_unreserved (ev : event) : bool :=
  match ev with Consumed (Ok b) => negb b | Consumed (Raise _) => true | _ => false end.
Definition is_forgot (ev : event) : bool := match ev with Forgot _ => true | _ => false end.
Definition is_settled (ev : event) : bool := match ev with Settled _ => true | _ => false end.

(** The check recorded the request. *)
Definition recorded (es : list event) : bool := existsb is_new es && negb (existsb is_unreserved es).

Lemma recorded_app es es' : existsb is_new es' = false -> existsb is_unreserved es' = false ->
  recorded (es ++ es') = recorded es.
Proof. intros Hn Hu. unfold recorded. by rewrite !existsb_app, Hn, Hu, !orb_false_r. Qed.

Lemma checked_recorded f o es md : checked f o es md -> existsb is_forgot es = false /\ existsb is_settled es = false /\
  (recorded es = true -> o = Ok None /\ md = LegacyMode true filter_settle_reservation).
Proof.
  unfold recorded. intros Hc. inversion Hc; subst; cbn; try done;
    [..|by destruct b]; match goal with H : suppressed _ _ |- _ => by inversion H; subst end.
Qed.

Lemma pushed_recorded md o es md' : pushed md o es md' -> existsb is_forgot es = false /\
  existsb is_new es = false /\ existsb is_unreserved es = false.
Proof. by inversion 1; subst. Qed.
Lemma undone_recorded md es : undone md es -> existsb is_new es = false /\ existsb is_unreserved es = false.
Proof. by inversion 1; subst. Qed.
Lemma released_recorded md es : released md es -> existsb is_forgot es = false /\ existsb is_new es = false /\ existsb is_unreserved es = false.
Proof. by inversion 1; subst. Qed.
Lemma fallen_recorded o es : fallen_back o es -> existsb is_forgot es = false /\ existsb is_new es = false /\ existsb is_unreserved es = false.
Proof. by inversion 1; subst. Qed.

(** A push that fails after the queue accepted leaves nothing to forget; one
    of a recorded request leaves the request to forget. *)
Lemma failed_forgets f x ph es md : failed f x ph es md ->
  existsb is_forgot es = false /\ (forall st, md = LegacyMode true st -> commits es = 0%nat) /\
  (recorded es = true -> ph = Push /\ (clause_of x <> ExceptBase -> exists st, md = LegacyMode true st)).
Proof.
  intros [es1 md1 Hc|es1 md1 es3 md' Hc Hp]; destruct (checked_recorded _ _ _ _ Hc) as (Hf & _ & Hr);
    pose proof (checked_commits _ _ _ _ Hc) as Hz.
  - split_and!; [done..|]. intros [? _]%Hr. done.
  - destruct (pushed_recorded _ _ _ _ Hp) as (Hf2 & Hn & Hu). rewrite existsb_app, Hf, Hf2, commits_app, Hz, recorded_app by done.
    split_and!; [done| |].
    + intros st ->. by inversion Hp; subst.
    + intros [_ ->]%Hr. split; [done|]. intros Hx. inversion Hp; subst; [by eauto|].
      by destruct Hx; apply clause_control.
Qed.

Lemma undone_forgets md es : undone md es -> (existsb is_forgot es = true -> exists st, md = LegacyMode true st) /\
  (filter_forget (R := R) (W := W) <> None -> forall st, md = LegacyMode true st -> existsb is_forgot es = true).
Proof. by inversion 1; subst; split; eauto. Qed.

Lemma cleaned_forgets c md es : cleaned c md es -> existsb is_forgot es = true -> exists st, md = LegacyMode true st.
Proof. by inversion 1; subst; eauto. Qed.

(** The standard protocol, with the optional methods a filter may have: an
    accepted push is never compensated; a request the filter recorded is
    settled when it was pushed, and forgotten, once, when it was not. *)
Theorem legacy_compensation (r r' : request R) (s s' : self) (w w' : W) o es
    (Hq : has_queue s = true) (He : enqueue (r, (s, w)) = (o, (r', (s', w')))) (Hj : journal w' = journal w ++ es) :
  (existsb is_forgot es = true -> commits es = 0%nat) /\
  (recorded es = true ->
   match o with
   | Ok true => existsb is_forgot es = false /\ (filter_settle_reservation (R := R) (W := W) <> None -> existsb is_settled es = true)
   | Ok false => filter_forget (R := R) (W := W) <> None -> existsb is_forgot es = true
   | Raise x => backend_error x = true -> filter_forget (R := R) (W := W) <> None -> existsb is_forgot es = true
   end).
Proof.
  pose proof (enqueue_call _ _ _ _ _ _ _ _ Hq He Hj) as Hc. revert Hc. generalize (has_dupefilter s && negb (rq_dont_filter r)).
  clear. intros f.
  intros [es1 md Hc|es1 md es2 md' Hc Hp|x ph es1 md es2 Hf Hx Hu|x es1 md es2 Hf Hx Hu|x ph es1 md es2 y Hf Hu Hy
    |x es1 md es2 o' es3 Hf Hx Hr Hb|x es1 md es2 y Hf Hr Hy|x ph es1 md c es2 es3 Hf Hx Hm Hc];
    rewrite ?existsb_app, ?commits_app.
  - destruct (checked_recorded _ _ _ _ Hc) as (Hn & _ & Hr). rewrite Hn. split; [done|]. intros [? _]%Hr. done.
  - destruct (checked_recorded _ _ _ _ Hc) as (Hn & _ & Hr). destruct (pushed_recorded _ _ _ _ Hp) as (Hn2 & H1 & H2).
    rewrite Hn, Hn2, recorded_app by done. split; [done|]. intros [_ ->]%Hr. split; [done|]. intros Hs.
    inversion Hp; subst; cbn;
      [by match goal with H : true = false \/ _ |- _ => destruct H end|by rewrite orb_true_r].
  - destruct (failed_forgets _ _ _ _ _ Hf) as (Hn & Hz & Hr). destruct (undone_forgets _ _ Hu) as [Hu1 Hu2].
    destruct (undone_recorded _ _ Hu) as [H1 H2]. rewrite Hn, recorded_app, (undone_commits _ _ Hu) by done. split.
    + intros [st ->]%Hu1. by rewrite (Hz st).
    + intros [_ Hst]%Hr Hfg. destruct Hst as [st ->]; [congruence|]. by rewrite (Hu2 Hfg st).
  - destruct (failed_forgets _ _ _ _ _ Hf) as (Hn & Hz & Hr). destruct (undone_forgets _ _ Hu) as [Hu1 Hu2].
    destruct (undone_recorded _ _ Hu) as [H1 H2]. rewrite Hn, recorded_app, (undone_commits _ _ Hu) by done. split.
    + intros [st ->]%Hu1. by rewrite (Hz st).
    + intros [_ Hst]%Hr _ Hfg. destruct Hst as [st ->]; [congruence|]. by rewrite (Hu2 Hfg st).
  - destruct (failed_forgets _ _ _ _ _ Hf) as (Hn & Hz & Hr). destruct (undone_forgets _ _ Hu) as [Hu1 _].
    rewrite Hn, (undone_commits _ _ Hu). split; [intros [st ->]%Hu1; by rewrite (Hz st)|].
    intros _ Hb. by apply clause_control, base_not_backend in Hy; congruence.
  - destruct (failed_forgets _ _ _ _ _ Hf) as (Hn & _ & Hrec). destruct (released_recorded _ _ Hr) as (Hn2 & H1 & H2).
    destruct (fallen_recorded _ _ Hb) as (Hn3 & H3 & H4). rewrite Hn, Hn2, Hn3. split; [done|].
    rewrite recorded_app by (rewrite existsb_app; by apply orb_false_intro). intros [? _]%Hrec. done.
  - destruct (failed_forgets _ _ _ _ _ Hf) as (Hn & _ & _). destruct (released_recorded _ _ Hr) as (Hn2 & _).
    rewrite Hn, Hn2. split; [done|]. intros _ Hb. by apply clause_control, base_not_backend in Hy; congruence.
  - destruct (failed_forgets _ _ _ _ _ Hf) as (Hn & Hz & _). rewrite Hn, (marked_commits _ _ _ Hm), (cleaned_commits _ _ _ Hc).
    assert (Hm2 : existsb is_forgot es2 = false) by (by inversion Hm). rewrite Hm2. split.
    + cbn. intros [st ->]%(cleaned_forgets _ _ _ Hc). by rewrite (Hz st).
    + intros _ Hb. apply base_not_backend in Hx. congruence.
Qed.
End Facts.
End SchedulerFacts.
