(* ===== verification/SchedulerPolls.v ===== *)
(** * The scheduler: polling under backpressure

    The depth gate of [next_request]: whatever the queue does between polls, the
    polls of a paused consumer that are held back outnumber those that reach the
    queue by at most one, not counting the polls whose depth lookup raises; and
    pausing follows a two-threshold trigger.  Polls report the errors of the queue as an empty
    answer, and the length as pending work. *)

From S2P Require Export Scheduler.

Module SchedulerPolls.
Import Codec Envelope Queue Scheduler.

Section Polls.
Context {R W : Type} `{C : !Collaborators R W}.

(** ** Progress *)

(** What becomes of a poll: the gate answers it, it reaches the queue's pop, or
    it ends before the gate has decided, because there is no queue or because the
    depth lookup raised an error other than the two kinds the gate absorbs. *)
Inductive poll := Paused | Reached | Failed.
#[local] Instance poll_eq : EqDecision poll.
Proof. solve_decision. Defined.

Definition poll_kind (x : self * W) : poll :=
  if has_queue (fst x) then
    match fst (backpressure_gate (R := R) x) with
    | Ok true => Paused | Ok false => Reached | Raise _ => Failed
    end
  else Failed.

(** Consecutive polls; other parties change the queue between them. *)
Fixpoint polls (changes : list (W -> W)) (x : self * W) : list poll :=
  match changes with
  | [] => []
  | c :: changes' => let x' := (fst x, c (snd x)) in poll_kind x' :: polls changes' (snd (next_request (R := R) x'))
  end.

Definition count (k : poll) (l : list poll) : nat := length (filter (eq k) l).

Lemma gate_step_paused pause resume depth s s' :
  gate_step pause resume depth s = (true, s') -> backpressure_paused s' = true /\ backpressure_probe_due s' = true.
Proof.
  unfold gate_step. destruct s as [? ? ? ? ? bp due ? ?]. cbn. destruct bp, (pause <=? depth); cbn; try done;
    destruct (depth <=? resume); try done; destruct due; by intros [= <-].
Qed.

Lemma gate_step_due pause resume depth s : backpressure_paused s = true -> backpressure_probe_due s = true ->
  fst (gate_step pause resume depth s) = false.
Proof. unfold gate_step. intros -> ->. cbn. by destruct (depth <=? resume). Qed.

(** The gate, by the kind of poll. *)
Lemma gate_spec s w : has_queue s = true ->
  match poll_kind (s, w) with
  | Paused => exists s' w', backpressure_gate (R := R) (s, w) = (Ok true, (s', w')) /\
      w' = snd (queue_len w) /\ backpressure_paused s' = true /\ backpressure_probe_due s' = true /\
      (backpressure_paused s = true -> backpressure_probe_due s = false)
  | Reached => exists s' w', backpressure_gate (R := R) (s, w) = (Ok false, (s', w'))
  | Failed => exists e w', backpressure_gate (R := R) (s, w) = (Raise e, (s, w'))
  end.
Proof.
  intros Hq. unfold poll_kind. cbn [fst]. rewrite Hq.
  unfold backpressure_gate, attempt, bind, get, on_queue, on_fst, on_snd, ret, raise. cbn.
  destruct (pause_at s) as [pause|]; [|cbn; by eauto]. destruct (queue_len w) as [[depth|e] w']; cbn.
  - destruct (resume_at s) as [resume|]; cbn; [|by eauto].
    destruct (gate_step pause resume depth s) as [b s'] eqn:Es. destruct b; [|cbn; by eauto]. cbn.
    exists s', w'. pose proof (gate_step_paused _ _ _ _ _ Es) as [H1 H2]. split_and!; try done.
    intros Hp. destruct (backpressure_probe_due s) eqn:Hd; [|done].
    pose proof (gate_step_due pause resume depth s Hp Hd) as Hs. by rewrite Es in Hs.
  - destruct e; cbn; by eauto.
Qed.

(** A poll, by its kind: what it calls on the queue and what it leaves. *)
Lemma poll_spec s w :
  match poll_kind (s, w) with
  | Paused => exists s', next_request (R := R) (s, w) = (Ok None, (s', snd (queue_len w))) /\
      backpressure_paused s' = true /\ backpressure_probe_due s' = true /\
      (backpressure_paused s = true -> backpressure_probe_due s = false)
  | Reached => exists s1 w1, backpressure_gate (R := R) (s, w) = (Ok false, (s1, w1)) /\
      snd (snd (next_request (R := R) (s, w))) = snd (queue_pop w1)
  | Failed => backpressure_paused (fst (snd (next_request (R := R) (s, w)))) = backpressure_paused s /\
      backpressure_probe_due (fst (snd (next_request (R := R) (s, w)))) = backpressure_probe_due s
  end.
Proof.
  destruct (has_queue s) eqn:Hq.
  2: { unfold poll_kind. cbn [fst]. rewrite Hq. unfold next_request, attempt, bind, get. cbn. by rewrite Hq. }
  pose proof (gate_spec s w Hq) as H. unfold next_request, attempt, bind, get.
  cbn -[backpressure_gate pop_request count_stat poll_kind]. rewrite Hq. cbn -[backpressure_gate pop_request count_stat poll_kind].
  destruct (poll_kind (s, w)).
  - destruct H as (s' & w' & -> & -> & ?). cbn. eauto.
  - destruct H as (s' & w' & E). exists s', w'. split; [done|]. rewrite E.
    unfold pop_request, bind, on_queue, on_snd. destruct (queue_pop w') as [[[r|]|e] w1]; [done..|].
    by destruct e.
  - destruct H as (e & w' & ->). by destruct e.
Qed.

(** C19. However the depth changes between polls, and whatever the depth lookups
    raise, between two polls that the gate answers there is one that reaches the
    queue: of the polls on which the gate decides, at least half, rounded down,
    reach the queue.  A poll is counted as reaching the queue only if the gate
    let it pass, and then the queue's own pop is what it runs; a paused poll only
    asks for the length. *)
Theorem paused_consumer_progresses changes x :
  (length (polls changes x)
   <= 2 * count Reached (polls changes x) + count Failed (polls changes x) + 1)%nat /\
  forall s w, match poll_kind (s, w) with
    | Reached => exists s1 w1, backpressure_gate (R := R) (s, w) = (Ok false, (s1, w1)) /\
        snd (snd (next_request (R := R) (s, w))) = snd (queue_pop w1)
    | Paused => exists s1, next_request (R := R) (s, w) = (Ok None, (s1, snd (queue_len w)))
    | Failed => True
    end.
Proof.
  split; [|intros s w; pose proof (poll_spec s w) as H; destruct (poll_kind (s, w)); [by destruct H; naive_solver|done..] ].
  assert (H : forall s w, let l := polls changes (s, w) in
    (length l <= 2 * count Reached l + count Failed l
     + if backpressure_paused s && backpressure_probe_due s then 0 else 1)%nat).
  2: { destruct x as [s w]. specialize (H s w). cbn in H. destruct (_ && _); lia. }
  clear x. induction changes as [|c changes IH]; intros s w; [cbn; lia|]. cbn [polls fst snd].
  pose proof (poll_spec s (c w)) as Hp. destruct (next_request (s, c w)) as [o [s' w']] eqn:E. cbn [fst snd] in *.
  specialize (IH s' w'). cbn in IH. unfold count in *. rewrite !filter_cons.
  destruct (poll_kind (s, c w)); repeat case_decide; try congruence; cbn in *.
  - destruct Hp as (s1 & [= -> -> ->] & H1 & H2 & H3). rewrite H1, H2 in IH.
    destruct (backpressure_paused s); [rewrite H3 by done|]; cbn in *; lia.
  - destruct (_ && _) in IH; lia.
  - destruct Hp as [-> ->] in IH. lia.
Qed.

(** ** Two thresholds *)
Fixpoint gate_run (pause resume : Z) (depths : list Z) (s : self) : list bool * self :=
  match depths with
  | [] => ([], s)
  | d :: depths' => let '(b, s1) := gate_step pause resume d s in
                    let '(l, s2) := gate_run pause resume depths' s1 in (b :: l, s2)
  end.

(** The reference: the last depth outside the band decides. *)
Definition trigger (pause resume : Z) (on : bool) (depth : Z) : bool :=
  if pause <=? depth then true else if depth <=? resume then false else on.

Definition count_key (key : string) (s : self) : nat := length (List.filter (String.eqb key) (stats s)).

(** The edges of the trigger, in one direction. *)
Fixpoint edges (pause resume : Z) (to on : bool) (depths : list Z) : nat :=
  match depths with
  | [] => 0
  | d :: depths' => let on' := trigger pause resume on d in
                    (if eqb on' to && negb (eqb on to) then 1 else 0) + edges pause resume to on' depths'
  end%nat.

Lemma count_record key k s : count_key key (record_stat k s) = (count_key key s + if String.eqb key k then 1 else 0)%nat.
Proof.
  unfold count_key, record_stat. cbn. rewrite List.filter_app, length_app. cbn. by destruct (String.eqb key k).
Qed.

Lemma gate_step_trigger pause resume depth s : resume < pause ->
  let s' := snd (gate_step pause resume depth s) in
  let on' := trigger pause resume (backpressure_paused s) depth in
  backpressure_paused s' = on' /\
  count_key "scheduler/backpressure_pause" s' =
    (count_key "scheduler/backpressure_pause" s + if on' && negb (backpressure_paused s) then 1 else 0)%nat /\
  count_key "scheduler/backpressure_resume" s' =
    (count_key "scheduler/backpressure_resume" s + if negb on' && backpressure_paused s then 1 else 0)%nat.
Proof.
  intros Hr. unfold gate_step, trigger. destruct (backpressure_paused s) eqn:Ep; cbn [negb andb].
  - destruct (Z.leb_spec depth resume).
    + rewrite (proj2 (Z.leb_gt pause depth)) by lia. cbn [snd]. rewrite !count_record. by split_and!; cbn; rewrite ?Nat.add_0_r.
    + destruct (backpressure_probe_due s); cbn; destruct (pause <=? depth); cbn; rewrite ?Ep; by split_and!; rewrite ?Nat.add_0_r.
  - destruct (Z.leb_spec pause depth); cbn [snd].
    + rewrite !count_record. by split_and!; cbn; rewrite ?Nat.add_0_r.
    + destruct (depth <=? resume); rewrite ?Ep; by split_and!; cbn; rewrite ?Nat.add_0_r.
Qed.

(** With a resume threshold below the pause threshold the gate is a
    two-threshold trigger: it is paused exactly when the last depth outside the
    band between the thresholds was at the upper one, and the two statistics
    count the edges of the trigger. *)
Theorem backpressure_hysteresis pause resume depths s (Hr : resume < pause) :
  let s' := snd (gate_run pause resume depths s) in
  let on := backpressure_paused s in
  backpressure_paused s' = fold_left (trigger pause resume) depths on /\
  count_key "scheduler/backpressure_pause" s' =
    (count_key "scheduler/backpressure_pause" s + edges pause resume true on depths)%nat /\
  count_key "scheduler/backpressure_resume" s' =
    (count_key "scheduler/backpressure_resume" s + edges pause resume false on depths)%nat.
Proof.
  revert s. induction depths as [|d depths IH]; intros s; cbn; [by rewrite !Nat.add_0_r|].
  destruct (gate_step_trigger pause resume d s Hr) as (H1 & H2 & H3).
  destruct (gate_step pause resume d s) as [b s1]. cbn in H1, H2, H3. specialize (IH s1).
  destruct (gate_run pause resume depths s1) as [l s2]. cbn in *. rewrite <- H1 in *. destruct IH as (-> & -> & ->).
  rewrite H2, H3. destruct (backpressure_paused s1), (backpressure_paused s); cbn; split_and!; try done; lia.
Qed.

(** ** Errors *)

(** A poll on an open scheduler answers every error of the queue layer with
    an empty result, and the question for pending work with yes; other errors
    pass. *)
Theorem polls_absorb_errors (s : self) (w w1 : W) e
    (Hq : has_queue s = true) (Hoff : pause_at s = None) (He : poll_error e = true) :
  (queue_pop w = (Raise e, w1) -> next_request (R := R) (s, w) = (Ok None, (s, w1))) /\
  (queue_pop w = (Raise ESerialization, w1) ->
     next_request (R := R) (s, w) = (Ok None, (record_stat "scheduler/deserialization_errors" s, w1))) /\
  (queue_len w = (Raise e, w1) \/ queue_len w = (Raise ENotImplemented, w1) ->
     has_pending_requests (R := R) (s, w) = (Ok true, (s, w1))).
Proof.
  cbv [next_request has_pending_requests len attempt bind get backpressure_gate pop_request on_queue on_snd count_stat
    on_fst ret raise]. cbn [fst snd]. rewrite Hq. cbn [negb fst snd]. rewrite Hoff. split_and!.
  - intros ->. by destruct e.
  - by intros ->.
  - intros [-> | ->]; [by destruct e|done].
Qed.
End Polls.

Module Examples.
Definition gated : self := init false (Some 10) (Some 4) <| has_queue := true |>.

Lemma backpressure_hysteresis_witness :
  let s' := snd (gate_run 10 4 [3; 12; 9; 5; 4; 7; 10] gated) in
  backpressure_paused s' = true /\ count_key "scheduler/backpressure_pause" s' = 2%nat /\
  count_key "scheduler/backpressure_resume" s' = 1%nat.
Proof. exact (backpressure_hysteresis 10 4 [3; 12; 9; 5; 4; 7; 10] gated eq_refl). Defined.

(** With one threshold the gate is not a trigger: a queue at exactly that depth
    is paused and released at alternate polls. *)
Example single_threshold_flaps : fst (gate_run 10 10 [10; 10; 10; 10] gated) = [true; false; true; false] /\
  backpressure_paused (snd (gate_run 10 10 [10; 10; 10; 10] gated)) = false.
Proof. by vm_compute. Qed.
End Examples.
End SchedulerPolls.
