(* ===== verification/SchedulerStack.v ===== *)
(** * The scheduler over the bundled duplicate filter

    The transactional protocol of [DupeFilter] as a collaborator of
    [Scheduler], and what a request goes through end to end: a durable push
    makes the fingerprint known, a volatile one for the life of the filter, a
    failed push leaves no trace.  The calls of the filter run alone here, as
    they do when the reactor thread is the only client. *)

From S2P Require Export DupeFilterContract SchedulerFacts.

Module SchedulerStack.
Import DupeFilter DupeFilterAlone Scheduler.

(** ** Calls under the transactional protocol, by the answers of its parts *)
Section Calls.
Context {R W : Type} `{C : !Collaborators R W}.
Context (p : atomic_protocol W) (Hp : filter_atomic = Some p) (Hcanonical : queue_is_canonical = true).

(** Symbolic execution of a call. *)
Ltac exec H := cbv -[filter_atomic request_seen_with_reservation filter_log clause_of queue_push_with_durability
  queue_is_canonical commit_reservation commit_volatile_reservation rollback_reservation is_ordinary] in H.
Ltac exec_goal := cbv -[filter_atomic request_seen_with_reservation filter_log clause_of queue_push_with_durability
  queue_is_canonical commit_reservation commit_volatile_reservation rollback_reservation is_ordinary].

Lemma enqueue_seen (r : request R) (s : self) (w w1 : W) n :
  has_queue s = true -> has_dupefilter s = true -> rq_dont_filter r = false -> rq_token r = None ->
  request_seen_with_reservation p (rq_id r) (next_object s) w = (Ok (Decision true n false), w1) ->
  (forall w, filter_log (R := R) (rq_id r) w = (Ok tt, w)) ->
  exists s1, enqueue (r, (s, w)) = (Ok false, (restore_original_errback r, (s1, w1))).
Proof.
  intros Hq Hf Hr Ht Hs Hl. destruct r as [ri rc [tk dl src] rp rd [re|re]], s as [hq hf hs pa ra bp bd no st]; cbn in *; subst;
    exec Hs; exec_goal; rewrite Hp, Hs; destruct hs; rewrite ?Hl; by eexists.
Qed.

(** A new request whose push has the outcome [o]. *)
Lemma enqueue_new (r r1 : request R) (s : self) (w w1 w2 w3 : W) n o :
  has_queue s = true -> has_dupefilter s = true -> rq_dont_filter r = false ->
  request_seen_with_reservation p (rq_id r) (next_object s) w = (Ok (Decision false (Some n) false), w1) ->
  queue_push_with_durability (rq_priority r) (restore_original_errback r, w1) = (o, (r1, w2)) ->
  match o with
  | Ok true => commit_reservation p n w2 = (Ok tt, w3)
  | Ok false => exists m, commit_volatile_reservation p = Some m /\ m n w2 = (Ok tt, w3)
  | Raise x => clause_of x = ExceptBackend /\ rollback_reservation p n w2 = (Ok tt, w3)
  end ->
  exists s1, enqueue (r, (s, w)) = (match o with Ok _ => Ok true | Raise _ => Raise (EQueue "push") end, (r1, (s1, w3))).
Proof.
  intros Hq Hf Hr Hs Hpush Ho.
  destruct r as [ri rc [tk dl src] rp rd [re|re]], s as [hq hf hs pa ra bp bd no st]; cbn in Hq, Hf, Hr; subst;
    exec Hs; exec Hpush; exec_goal; rewrite Hp, Hs, Hcanonical, Hpush;
    (destruct o as [[]|x];
     [rewrite Ho|destruct Ho as (m & -> & Ho); rewrite Ho|destruct Ho as [-> Ho]; rewrite Ho]); by eexists.
Qed.
End Calls.

Section Stack.
Context {F : Type} `{MembershipFilter F} (fingerprint : nat -> outcome bytes) (thread : nat).
Context {R Q : Type} (queue : Collaborators R Q).

Abbreviation filter_state := (DupeFilter.shared (F := F)).
Definition stack : Type := filter_state * Q.

(** A call that finds the filter to itself; one that would wait for another
    thread has no result of its own and is reported as a timeout. *)
Definition solo {A} (p : prog DupeFilter.local filter_state A) : M stack A := on_fst (fun g =>
  match DupeFilterContract.answer p g with Some x => x | None => (Raise (ETimeout "blocked"), g) end).

(** Receipts are named by their identity; one that is no longer active settles
    nothing. *)
Definition on_receipt (m : DupeFilter.reservation -> prog DupeFilter.local filter_state unit) (i : nat) : M stack unit :=
  let! x := get in
  match DupeFilter.active_reservations (DupeFilter.the_tables (fst (fst x))) !! i with
  | Some res => solo (m res)
  | None => ret tt
  end.

Definition the_protocol : atomic_protocol stack := {|
  request_seen_with_reservation q i :=
    let! d := solo (DupeFilter.request_seen_with_reservation fingerprint thread q (Some i)) in
    ret (Decision (DupeFilter.seen d) (DupeFilter.res_id <$> DupeFilter.intent_of d) (DupeFilter.observational d));
  commit_reservation := on_receipt (DupeFilter.commit_reservation thread);
  commit_volatile_reservation := Some (on_receipt (DupeFilter.commit_volatile_reservation thread));
  rollback_reservation := on_receipt (DupeFilter.rollback_reservation thread);
  rollback_reservation_intent i := solo (DupeFilter.rollback_reservation_intent i)
|}.

Definition on_queue_side {A} (m : M (request R * Q) A) : M (request R * stack) A := fun x =>
  let '(r, (g, q)) := x in let '(o, (r', q')) := m (r, q) in (o, (r', (g, q'))).

#[export] Instance bundled : Collaborators R stack := {|
  queue_is_canonical := queue_is_canonical (W := Q);
  queue_push_with_durability p := on_queue_side (queue_push_with_durability p);
  queue_push p := on_queue_side (queue_push p);
  queue_consume_post_commit_push := on_snd <$> queue_consume_post_commit_push (W := Q);
  queue_len := on_snd (queue_len (R := R));
  queue_pop := on_snd queue_pop;
  filter_atomic := Some the_protocol;
  filter_request_seen q := solo (DupeFilter.request_seen fingerprint thread q);
  filter_consume_reservation := Some (fun q => on_fst (on_fst (DupeFilter.consume_reservation thread q)));
  filter_settle_reservation := Some (fun q =>
    let! _ := on_fst (on_fst (DupeFilter.settle_reservation thread q)) in ret tt);
  filter_forget := Some (fun q => solo (DupeFilter.forget thread q));
  filter_log _ := ret tt
|}.

(** ** One request, end to end *)

(** A filter nobody is using. *)
Definition idle (d : DupeFilter.self) : Prop :=
  DupeFilterAlone.quiescent d /\ DupeFilter.active_reservations (DupeFilter.the_tables d) = ∅ /\
  DupeFilter.reservations_by_owner (DupeFilter.the_tables d) = ∅.

Implicit Types (d : DupeFilter.self) (f : F) (k : Q).

Definition stepped d : DupeFilter.self := d <| DupeFilter.next_object ::= S |>.
Definition receipt d i q fp : DupeFilter.reservation :=
  DupeFilter.Reservation (DupeFilter.next_object d) fp (DupeFilter.epoch d) i q.
Definition reserved d i q fp : DupeFilter.self :=
  stepped d <| DupeFilter.the_tables ::= DupeFilterAlone.reserve (receipt d i q fp) |>.

Lemma idle_stepped d : idle d -> idle (stepped d).
Proof. intros (Hq & Ha & Ho). split; [destruct Hq; by constructor|by split]. Qed.

Lemma check_alone d f k i q fp o f1 : idle d -> fingerprint q = Ok fp ->
  DupeFilterAlone.probe fp d f = (Ok o, f1) ->
  request_seen_with_reservation the_protocol q i ((d, f), k) =
    if o then (Ok (Decision true None false), ((stepped d, f1), k))
    else (Ok (Decision false (Some (DupeFilter.next_object d)) false), ((reserved d i q fp, f1), k)).
Proof.
  intros (Hq & Ha & Ho) Hfp Hp. cbn [request_seen_with_reservation the_protocol]. unfold bind, solo, on_fst, DupeFilterContract.answer.
  pose proof (DupeFilterAlone.run_reserve fingerprint thread q fp i d f Hq Hfp
    ltac:(rewrite Ho; apply lookup_empty) ltac:(rewrite Ha; apply lookup_empty)) as Hrun.
  rewrite Hp in Hrun. destruct Hrun as [l Hl]. by destruct o; rewrite Hl.
Qed.

Section Receipt.
Context (d : DupeFilter.self) (i q : nat) (fp : bytes) (Hd : idle d).

Lemma reserved_quiescent : DupeFilterAlone.quiescent (reserved d i q fp).
Proof. destruct Hd as (Hq & _). destruct Hq; by constructor. Qed.

Lemma reserved_current : DupeFilter.reservation_is_current (DupeFilter.Transactional (receipt d i q fp)) (reserved d i q fp) = true.
Proof.
  unfold DupeFilter.reservation_is_current. cbn -[insert lookup]. rewrite Z.eqb_refl. cbn [andb].
  by rewrite bool_decide_true by apply lookup_insert_eq.
Qed.

Lemma reserved_found : DupeFilter.active_reservations (DupeFilter.the_tables (reserved d i q fp)) !! DupeFilter.next_object d =
  Some (receipt d i q fp).
Proof. apply lookup_insert_eq. Qed.

Lemma reserved_settled :
  reserved d i q fp <| DupeFilter.the_tables := DupeFilter.discard_reservation (receipt d i q fp)
    (DupeFilter.the_tables (reserved d i q fp)) |> = stepped d.
Proof.
  destruct Hd as (_ & Ha & Ho). unfold reserved. cbn [DupeFilter.the_tables update eta DupeFilter.eta_self].
  rewrite DupeFilterAlone.discard_reserve; [by destruct d|..].
  - change (DupeFilter.active_reservations (DupeFilter.the_tables d) !! DupeFilter.next_object d = None).
    rewrite Ha. apply lookup_empty.
  - change (DupeFilter.reservations_by_owner (DupeFilter.the_tables d) !! i = None). rewrite Ho. apply lookup_empty.
Qed.

Lemma settle_alone (m : DupeFilter.reservation -> prog local filter_state unit) f k (g : filter_state) : (exists l, run (m (receipt d i q fp)) DupeFilter.thread_start (reserved d i q fp, f) = Some (Ok tt, (l, g))) ->
  on_receipt m (DupeFilter.next_object d) ((reserved d i q fp, f), k) = (Ok tt, (g, k)).
Proof.
  intros [l Hr]. unfold on_receipt, bind, get. cbn [fst]. rewrite reserved_found.
  unfold solo, on_fst, DupeFilterContract.answer. by rewrite Hr.
Qed.
End Receipt.

(** What a tokenless request of the same fingerprint meets from now on. *)
Definition known_from (g : filter_state) (fp : bytes) : Prop :=
  forall (r : request R) (s : self) k, has_queue s = true -> has_dupefilter s = true -> rq_dont_filter r = false ->
    rq_token r = None -> fingerprint (rq_id r) = Ok fp ->
    exists s' g', enqueue (r, (s, (g, k))) = (Ok false, (restore_original_errback r, (s', (g', k)))).

Lemma known_when d f fp f1 : idle d -> probe fp d f = (Ok true, f1) -> known_from (d, f) fp.
Proof.
  intros Hd Hp r s k Hq Hf Hr Ht Hfp.
  destruct (enqueue_seen (C := bundled) the_protocol eq_refl r s ((d, f), k) ((stepped d, f1), k) None Hq Hf Hr Ht) as [s' He].
  - by rewrite (check_alone d f k _ _ fp true f1).
  - done.
  - by exists s', (stepped d, f1).
Qed.

(** C18. A new request through an idle duplicate filter, by the fate of its push: a
    durable push makes the fingerprint permanent and every later request with
    it is suppressed without touching the queue; a volatile push does the same
    for the life of the filter, leaving the membership filter alone; a failed
    push raises the retryable error and leaves the filter as a lookup does. *)
Theorem dedup_end_to_end `{!NoFalseNegatives F} (r r1 : request R) (s : self) d f f1 k k1 fp o
    (Hs : has_queue s = true /\ has_dupefilter s = true /\ rq_dont_filter r = false)
    (Hcanonical : queue_is_canonical (W := Q) = true)
    (Hd : idle d) (Hfp : fingerprint (rq_id r) = Ok fp) (Hsh : in_shadow fp d = false)
    (Hf : mf_inv f) (Hmiss : mf_contains fp f = (Ok false, f1))
    (Hpush : queue_push_with_durability (rq_priority r) (restore_original_errback r, k) = (o, (r1, k1))) :
  match o with
  | Ok true => forall b f2, mf_add fp f1 = (Ok b, f2) ->
      (exists s1, enqueue (r, (s, ((d, f), k))) = (Ok true, (r1, (s1, ((stepped d, f2), k1))))) /\
      known_from (stepped d, f2) fp
  | Ok false =>
      let d1 := stepped d <| the_shadow ::= shadow_insert fp |> in
      (exists s1, enqueue (r, (s, ((d, f), k))) = (Ok true, (r1, (s1, ((d1, f1), k1))))) /\
      (in_shadow fp d1 = true -> known_from (d1, f1) fp)
  | Raise x => clause_of x = ExceptBackend ->
      exists s1, enqueue (r, (s, ((d, f), k))) = (Raise (EQueue "push"), (r1, (s1, ((stepped d, f1), k1))))
  end.
Proof.
  destruct Hs as (Hq & Hdf & Hr). pose proof (idle_stepped d Hd) as Hd1.
  assert (Hprobe : probe fp d f = (Ok false, f1)) by (unfold probe; by rewrite Hsh, Hmiss).
  pose proof (check_alone d f k (next_object s) (rq_id r) fp false f1 Hd Hfp Hprobe) as Hcheck.
  set (i := next_object s) in *. set (q := rq_id r) in *.
  assert (Hpush' : queue_push_with_durability (Collaborators := bundled) (rq_priority r)
      (restore_original_errback r, ((reserved d i q fp, f1), k)) = (o, (r1, ((reserved d i q fp, f1), k1)))).
  { cbn. by rewrite Hpush. }
  pose proof (reserved_quiescent d i q fp Hd) as Hrq. pose proof (reserved_current d i q fp) as Hrc.
  pose proof (enqueue_new (C := bundled) the_protocol eq_refl Hcanonical r r1 s ((d, f), k)
    ((reserved d i q fp, f1), k) ((reserved d i q fp, f1), k1)) as Hnew.
  destruct (mf_contains_inv _ _ _ _ Hf Hmiss) as [Hf1 _]. destruct o as [[]|x].
  - intros b f2 Hadd. split.
    + eapply (Hnew _ _ (Ok true)); [done..|exact Hcheck|exact Hpush'|]. apply settle_alone.
      pose proof (run_commit thread (receipt d i q fp) (reserved d i q fp) f1 Hrq Hrc) as Hrun.
      change (res_fingerprint (receipt d i q fp)) with fp in Hrun. rewrite Hadd in Hrun. destruct Hrun as [l Hl].
      exists l. by rewrite Hl, reserved_settled.
    + destruct (mf_add_inv _ _ _ _ Hf1 Hadd) as (Hf2 & Hhas & _). specialize (Hhas eq_refl).
      pose proof (mf_has_contains _ _ Hf2 Hhas) as Hc. destruct (mf_contains fp f2) as [o2 f3] eqn:E2. cbn in Hc. subst o2.
      eapply (known_when _ _ _ f3); [done|]. unfold probe. change (in_shadow fp (stepped d)) with (in_shadow fp d).
      by rewrite Hsh, E2.
  - split.
    + eapply (Hnew _ _ (Ok false)); [done..|exact Hcheck|exact Hpush'|]. eexists. split; [done|]. apply settle_alone.
      destruct (run_commit_volatile thread (receipt d i q fp) (reserved d i q fp) f1 Hrq Hrc) as [l Hl].
      exists l. by rewrite Hl, reserved_settled.
    + intros Hin. eapply (known_when _ _ _ f1); [|unfold probe; by rewrite Hin].
      destruct Hd1 as (Hq1 & Ha & Ho). split; [destruct Hq1; by constructor|by split].
  - intros Hx. eapply (Hnew _ _ (Raise x)); [done..|exact Hcheck|exact Hpush'|]. split; [done|]. apply settle_alone.
    destruct (run_rollback thread (receipt d i q fp) (reserved d i q fp) f1 Hrq Hrc) as [l Hl].
    exists l. by rewrite Hl, reserved_settled.
Qed.
End Stack.

(** ** Concrete runs *)
Module Examples.
#[local] Existing Instance MemoryFilter.memory_filter.
#[local] Existing Instance MemoryFilter.unbounded_no_false_negatives.
Import DupeFilterContract.Examples.

(** A queue with scripted push outcomes and the contents it accepted. *)
Definition script : Type := list (outcome bool) * list nat.
Definition push_script : M (request nat * script) bool := fun x =>
  let '(r, (os, st)) := x in
  match os with
  | [] => (Raise (EQueue "push"), (r, ([], st)))
  | o :: os' => (o, (r, (os', if is_ok o then st ++ [rq_content r] else st)))
  end.

(** A filter of the standard protocol over the fingerprints it recorded; the
    reservation of a request may fail to be consumed. *)
Definition listed : Type := script * list nat.
Definition scripted : Collaborators nat script := {|
  queue_is_canonical := true;
  queue_push_with_durability _ := push_script;
  queue_push _ := let! _ := push_script in ret tt;
  queue_consume_post_commit_push := None;
  queue_len := fun w => (Ok (Z.of_nat (length (snd w))), w);
  queue_pop := ret None;
  filter_atomic := None; filter_request_seen _ := ret false; filter_consume_reservation := None;
  filter_settle_reservation := None; filter_forget := None; filter_log _ := ret tt
|}.
Definition on_script {A} (m : M (request nat * script) A) : M (request nat * listed) A := fun x =>
  let '(r, (w, l)) := x in let '(o, (r', w')) := m (r, w) in (o, (r', (w', l))).
Definition listing (consume : outcome bool) : Collaborators nat listed := {|
  queue_is_canonical := true;
  queue_push_with_durability _ := on_script push_script;
  queue_push _ := on_script (let! _ := push_script in ret tt);
  queue_consume_post_commit_push := None;
  queue_len := on_fst (queue_len (Collaborators := scripted));
  queue_pop := ret None;
  filter_atomic := None;
  filter_request_seen q := fun x => let '(w, l) := x in
    if bool_decide (q ∈ l) then (Ok true, (w, l)) else (Ok false, (w, q :: l));
  filter_consume_reservation := Some (fun _ => lift consume);
  filter_settle_reservation := Some (fun _ => ret tt);
  filter_forget := Some (fun q => fun x => let '(w, l) := x in (Ok tt, (w, filter (fun y => y <> q) l)));
  filter_log _ := ret tt
|}.

Definition req (q content : nat) : request nat :=
  Request q content (Queue.Live None None Queue.SMissing) (AInt 0) false (Wrapped (Some 3%nat)).
Definition opened : self := init true None None <| has_queue := true |>.
Lemma no_question {R W} (C : Collaborators R W) : queue_consume_post_commit_push = None ->
  forall m w, queue_consume_post_commit_push = Some m -> is_ok (fst (m w)) = true.
Proof. by intros ->. Qed.

(** *** The transactional protocol, observed *)
Definition observed : Collaborators nat (stack (F := MemoryFilter.self) (Q := script) * list SchedulerFacts.event) :=
  SchedulerFacts.traced (bundled fp_of 1 scripted).
Definition observed_journal := SchedulerFacts.traced_journal (bundled fp_of 1 scripted).
Definition start (os : list (outcome bool)) : stack (F := MemoryFilter.self) (Q := script) :=
  ((DupeFilter.init, memory), (os, [])).
Definition enqueue_observed os := enqueue (C := observed) (req 7 5, (opened, (start os, []))).
Definition events_of os : list SchedulerFacts.event := snd (snd (snd (snd (enqueue_observed os)))).

(** The call as the theorems state it. *)
Definition result_of os := fst (enqueue_observed os).
Lemma observed_call os : enqueue (C := observed) (req 7 5, (opened, (start os, []))) =
  (result_of os, (fst (snd (enqueue_observed os)), (fst (snd (snd (enqueue_observed os))), snd (snd (snd (enqueue_observed os)))))).
Proof. unfold result_of, enqueue_observed. by destruct (enqueue _) as [o [r [s w]]]. Defined.
Lemma observed_events os :
  SchedulerFacts.journal (Journal := observed_journal) (snd (snd (snd (enqueue_observed os)))) =
  SchedulerFacts.journal (Journal := observed_journal) (start os, []) ++ events_of os.
Proof. reflexivity. Defined.

Lemma enqueue_outcome_witness :
  SchedulerFacts.commits (events_of [Ok true]) = 1%nat /\
  SchedulerFacts.commits (events_of [Raise (EQueue "push")]) = 0%nat.
Proof.
  pose proof (SchedulerFacts.enqueue_outcome (C := observed) (J := observed_journal) (no_question observed eq_refl)
    (req 7 5) _ opened _ _ _ _ _ eq_refl (observed_call [Ok true]) (observed_events [Ok true])) as [_ H1].
  pose proof (SchedulerFacts.enqueue_outcome (C := observed) (J := observed_journal) (no_question observed eq_refl)
    (req 7 5) _ opened _ _ _ _ _ eq_refl (observed_call [Raise (EQueue "push")]) (observed_events [Raise (EQueue "push")])) as [_ H2].
  replace (result_of [Ok true]) with (@Ok bool true) in H1 by (by vm_compute).
  replace (result_of [Raise (EQueue "push")]) with (@Raise bool (EQueue "push")) in H2 by (by vm_compute).
  split; [exact H1|exact (proj2 (H2 eq_refl))].
Defined.

Lemma receipt_settled_witness :
  SchedulerFacts.finals (events_of [Ok true]) = 1%nat /\ existsb SchedulerFacts.is_committed (events_of [Ok true]) = true /\
  SchedulerFacts.finals (events_of [Raise EConnection]) = 1%nat /\
  existsb SchedulerFacts.is_rolled_back (events_of [Raise EConnection]) = true.
Proof.
  pose proof (SchedulerFacts.receipt_settled (C := observed) (J := observed_journal) (no_question observed eq_refl)
    (req 7 5) _ opened _ _ _ _ _ 1 eq_refl (observed_call [Ok true]) (observed_events [Ok true])
    ltac:(by vm_compute)) as (_ & _ & _ & _ & H1).
  pose proof (SchedulerFacts.receipt_settled (C := observed) (J := observed_journal) (no_question observed eq_refl)
    (req 7 5) _ opened _ _ _ _ _ 1 eq_refl (observed_call [Raise EConnection]) (observed_events [Raise EConnection])
    ltac:(by vm_compute)) as (_ & _ & _ & _ & H2).
  replace (result_of [Ok true]) with (@Ok bool true) in H1 by (by vm_compute).
  replace (result_of [Raise EConnection]) with (@Raise bool (EQueue "push")) in H2 by (by vm_compute).
  split_and!; [exact (H1 Logic.I)|by vm_compute|exact (H2 eq_refl)|by vm_compute].
Defined.

(** *** The standard protocol *)
Definition listed_observed (consume : outcome bool) : Collaborators nat (listed * list SchedulerFacts.event) :=
  SchedulerFacts.traced (listing consume).
Definition listed_journal consume := SchedulerFacts.traced_journal (listing consume).
Definition listed_call consume os := enqueue (C := listed_observed consume) (req 7 5, (opened, (((os, []), []), []))).
Definition listed_events consume os : list SchedulerFacts.event := snd (snd (snd (snd (listed_call consume os)))).

Lemma listed_pairs consume os : enqueue (C := listed_observed consume) (req 7 5, (opened, (((os, []), []), []))) =
  (fst (listed_call consume os), (fst (snd (listed_call consume os)),
     (fst (snd (snd (listed_call consume os))), snd (snd (snd (listed_call consume os)))))).
Proof. unfold listed_call. by destruct (enqueue _) as [o [r [s w]]]. Defined.
Lemma listed_adds consume os :
  SchedulerFacts.journal (Journal := listed_journal consume) (snd (snd (snd (listed_call consume os)))) =
  SchedulerFacts.journal (Journal := listed_journal consume) (((os, []), []), []) ++ listed_events consume os.
Proof. reflexivity. Defined.

(** A push that fails is compensated. *)
Lemma legacy_compensation_witness :
  fst (listed_call (Ok true) [Raise EConnection]) = Raise (EQueue "push") /\
  existsb SchedulerFacts.is_forgot (listed_events (Ok true) [Raise EConnection]) = true.
Proof.
  pose proof (SchedulerFacts.legacy_compensation (C := listed_observed (Ok true)) (J := listed_journal (Ok true))
    (no_question (listed_observed (Ok true)) eq_refl) (req 7 5) _ opened _ _ _ _ _ eq_refl
    (listed_pairs (Ok true) [Raise EConnection]) (listed_adds (Ok true) [Raise EConnection])) as [_ H1].
  assert (E : fst (listed_call (Ok true) [Raise EConnection]) = Raise (EQueue "push")) by by vm_compute.
  rewrite E in H1. split; [exact E|]. apply H1; [by vm_compute|done|done].
Defined.

(** An operational error while the reservation of a recorded request is consumed
    counts as an outage of the filter: when the push that follows fails too,
    the error promises a retry, but the recorded request is not forgotten and
    the retry is dropped as a duplicate. *)
Example unconsumed_reservation_is_lost :
  let x := enqueue (C := listing (Raise EConnection)) (req 7 5, (opened, (([Raise EConnection; Ok true], []), []))) in
  let y := enqueue (C := listing (Raise EConnection)) (req 7 5, snd (snd x)) in
  fst x = Raise (EQueue "push") /\ fst y = Ok false /\ snd (fst (snd (snd (snd y)))) = [].
Proof. by vm_compute. Qed.

(** *** End to end *)
Lemma init_idle : idle DupeFilter.init.
Proof. split_and!; [exact init_quiescent|reflexivity|reflexivity]. Defined.

Lemma dedup_end_to_end_witness :
  (exists s1 f2 k1, enqueue (C := bundled fp_of 1 scripted) (req 7 5, (opened, start [Ok true])) =
     (Ok true, (req 7 5 <| rq_errback := Plain (Some 3%nat) |>, (s1, ((stepped DupeFilter.init, f2), k1)))) /\
     known_from fp_of 1 scripted (stepped DupeFilter.init, f2) [x61]) /\
  (exists s1, enqueue (C := bundled fp_of 1 scripted) (req 7 5, (opened, start [Raise EConnection])) =
     (Raise (EQueue "push"), (req 7 5 <| rq_errback := Plain (Some 3%nat) |>,
        (s1, ((stepped DupeFilter.init, memory), ([], [])))))).
Proof.
  assert (Hf : mf_inv memory) by (split; [split; [constructor|done]|reflexivity]).
  assert (E : mf_add [x61] memory = (Ok true, snd (mf_add [x61] memory))) by by vm_compute. split.
  - destruct (dedup_end_to_end fp_of 1 scripted (req 7 5) (restore_original_errback (req 7 5)) opened DupeFilter.init
      memory memory ([Ok true], []) ([], [5%nat]) [x61] (Ok true) (conj eq_refl (conj eq_refl eq_refl)) eq_refl init_idle
      eq_refl eq_refl Hf eq_refl eq_refl true _ E) as [[s1 H1] H2].
    exists s1, (snd (mf_add [x61] memory)), ([], [5%nat]). split; [exact H1|exact H2].
  - exact (dedup_end_to_end fp_of 1 scripted (req 7 5) (restore_original_errback (req 7 5)) opened DupeFilter.init
      memory memory ([Raise EConnection], []) ([], []) [x61] (Raise EConnection) (conj eq_refl (conj eq_refl eq_refl))
      eq_refl init_idle eq_refl eq_refl Hf eq_refl eq_refl eq_refl).
Defined.
End Examples.
End SchedulerStack.
