(* ===== verification/Settlement.v ===== *)
(** * Settling broker deliveries

    schedule/scheduler.py: the acknowledgement side of the scheduler.  A
    delivery is settled when its response arrives or its spider fails
    ([_ack_request_token], [_nack_request_token]), or when the output of its
    errback is committed ([_BackendDownloadFailureErrback],
    [_DeferredReplacementAckGroup]).  Broker calls of a running reactor are made
    by worker threads through [defer_to_thread_ordered] (utils/reactor.py).
    Any number of signals, errbacks, pushes, workers and timers interleave; what
    a method does under a lock, or between two calls that leave it, is one
    section.  A method that has started a worker goes on with the callbacks it
    attaches, in the same program. *)

From S2P Require Export Conc.

Module Settlement.

(** ** The group of one errback output *)
Record group := Group {
  source_token : nat; pending : gset nat; next_child : nat;
  sealed : bool; terminal : bool; settlement_in_progress : bool; settlement_operation : option nat
}.
#[export] Instance eta_group : Settable group := fun r =>
  Group (source_token r) (pending r) (next_child r) (sealed r) (terminal r) (settlement_in_progress r) (settlement_operation r).

Definition group_init (t : nat) : group := Group t ∅ 0 false false false None.

Definition new_child_locked (g : group) : option nat * group :=
  if terminal g then (None, g)
  else (Some (next_child g), g <| next_child ::= S |> <| pending ::= fun p => p ∪ {[ next_child g ]} |>).

(** The critical sections of [seal], [accept] and [abort]; [true]: settle. *)
Definition seal_locked (g : group) : bool * group :=
  if terminal g then (false, g) else
  let g := g <| sealed := true |> in
  if bool_decide (pending g = ∅) && negb (settlement_in_progress g)
  then (true, g <| settlement_in_progress := true |>) else (false, g).

Definition accept_locked (child_id : nat) (g : group) : bool * group :=
  if terminal g || negb (bool_decide (child_id ∈ pending g)) then (false, g)
  else if negb (sealed g) || (1 <? size (pending g))%nat then (false, g <| pending ::= fun p => p ∖ {[ child_id ]} |>)
  else if settlement_in_progress g then (false, g) else (true, g <| settlement_in_progress := true |>).

Definition abort_locked (g : group) : bool * group :=
  if terminal g then (false, g)
  else let g' := g <| pending := ∅ |> <| terminal := true |> in
       if settlement_in_progress g then (false, g') else (true, g' <| settlement_in_progress := true |>).

(** The end of a settlement: the lock is taken again. *)
Definition settled (negative ok : bool) (g : group) : group :=
  let g := g <| settlement_in_progress := false |> in
  if ok && negb negative then g <| pending := ∅ |> <| terminal := true |> else g.
Definition settled_by (operation : nat) (negative ok : bool) (g : group) : group :=
  if bool_decide (settlement_operation g = Some operation)
  then settled negative ok (g <| settlement_operation := None |>) else g.

(** ** Worker calls

    The two views [defer_to_thread_ordered] returns: [op_result] settles with
    the broker call, [bounded] also with the time limit; [op_observed]: the
    scheduler's callbacks are attached to [bounded]. *)
Record operation := Operation {
  op_token : nat; op_negative : bool;
  op_result : option (outcome unit); bounded : option (outcome unit); op_observed : bool
}.
#[export] Instance eta_operation : Settable operation := fun r =>
  Operation (op_token r) (op_negative r) (op_result r) (bounded r) (op_observed r).

Definition public_failed (o : operation) : bool :=
  op_observed o && match bounded o with Some (Raise _) => true | _ => false end.
Definition op_timed_out (o : operation) : bool :=
  op_observed o && match bounded o with Some (Raise (ETimeout _)) => true | _ => false end.

(** ** The shared state

    [meta]: the tokens the popped requests carry. The history records the
    children of a group, and each broker call when it is made ([Began]) and when
    the scheduler has its outcome ([Ended]); newest first. *)
Inductive owner := ByGroup (g : nat) | BySignal (request : nat).
#[export] Instance owner_eq_dec : EqDecision owner.
Proof. solve_decision. Defined.
Inductive event :=
  | Registered (g child : nat) | Committed (g child : nat) | Exhausted (g : nat)
  | Began (o : owner) (token : nat) (negative : bool) | Ended (o : owner) (token : nat) (negative ok : bool).
#[export] Instance event_eq_dec : EqDecision event.
Proof. solve_decision. Defined.

Record sched := Sched {
  queue_open : bool;                    (* [_queue] is not None *)
  meta : gmap nat nat;
  settlement_claims : gset nat;
  operations : list operation;
  pending_settlements : gset nat;
  groups : list group;
  stats : list string;
  history : list event
}.
#[export] Instance eta_sched : Settable sched := fun r =>
  Sched (queue_open r) (meta r) (settlement_claims r) (operations r) (pending_settlements r) (groups r) (stats r) (history r).

Definition init (tokens : gmap nat nat) : sched := Sched true tokens ∅ [] ∅ [] [] [].

(** The queue's [ack] and [nack] of a token, and the two calls of Twisted that
    may refuse: handing a call to the thread pool and starting a timer. *)
Class Broker (W : Type) := {
  queue_settle : bool -> nat -> M W unit;
  submit_thread : M W unit;
  start_timer : M W unit
}.

(** Where a call is: outside, or settling a token: it holds the right to do so,
    it waits for the broker, it has the outcome. [op]: the operation of its
    worker; [tracked]: it is in the registry. *)
Inductive phase := Holding | Waiting | Answered (ok : bool).
#[export] Instance phase_eq_dec : EqDecision phase.
Proof. solve_decision. Defined.
Inductive stage :=
  | Idle
  | Settling (ph : phase) (o : owner) (token : nat) (negative : bool) (op : option nat) (tracked : bool).

(** The locals of a call; [my_group]: the unsealed group of an errback stream. *)
Record local := Local { at_stage : stage; my_group : option nat }.
#[export] Instance eta_local : Settable local := fun r => Local (at_stage r) (my_group r).

Definition record_stat (key : string) (s : sched) : sched := s <| stats ::= fun l => l ++ [key] |>.
Definition error_stat (negative : bool) : string :=
  if negative then "scheduler/nack_error" else "scheduler/ack_error".

Section Settlement.
Context {W : Type} `{!Broker W} (reactor_is_running : bool).

Definition shared : Type := sched * W.
Definition CM (A : Type) : Type := M (local * shared) A.
Definition CP (A : Type) : Type := prog local shared A.

Definition read {A} (f : sched -> A) : CP A := atomically (fun x => (Ok (f (fst (snd x))), x)).
Definition update (fl : local -> local) (fs : sched -> sched) : CM unit := fun '(l, (s, w)) => (Ok tt, (fl l, (fs s, w))).
Definition at_ (st : stage) (l : local) : local := l <| at_stage := st |>.
Definition on_group (g : nat) (f : group -> group) (s : sched) : sched := s <| groups ::= alter f g |>.
Definition on_operation (op : nat) (f : operation -> operation) (s : sched) : sched := s <| operations ::= alter f op |>.
Definition note (e : event) (s : sched) : sched := s <| history ::= cons e |>.
Definition result_of (op : nat) (s : sched) : option (outcome unit) := o ← operations s !! op; op_result o.

(** ** Broker calls of a worker *)

(** [defer_to_thread_ordered]. *)
Definition defer_to_thread_ordered (o : owner) (t : nat) (negative : bool) : CM nat := fun '(l, (s, w)) =>
  let op := length (operations s) in
  let create x := s <| operations ::= fun ops => ops ++ [x] |> in
  match submit_thread w with
  | (Raise e, w1) => (Ok op, (at_ (Settling Holding o t negative (Some op) false) l, (create (Operation t negative (Some (Raise e)) (Some (Raise e)) false), w1)))
  | (Ok _, w1) =>
      let '(timer, w2) := start_timer w1 in
      let b := match timer with Ok _ => None | Raise e => Some (Raise e) end in
      (Ok op, (at_ (Settling Waiting o t negative (Some op) false) l,
               (note (Began o t negative) (create (Operation t negative None b false)), w2)))
  end.

(** [_track_authoritative_settlement]. *)
Definition track (op : nat) : CM unit :=
  update (fun l => match at_stage l with Settling ph o t n op _ => at_ (Settling ph o t n op true) l | Idle => l end)
         (fun s => s <| pending_settlements ::= fun p => p ∪ {[ op ]} |>).

(** The failure callback of the public view, attached or fired. *)
Definition report_failure (op : nat) (s : sched) : sched :=
  match operations s !! op with
  | Some o => if public_failed o then record_stat (error_stat (op_negative o)) s else s
  | None => s
  end.
Definition attach (op : nat) : CM unit :=
  update id (fun s => report_failure op (on_operation op (fun o => o <| op_observed := true |>) s)).
Definition fire_bounded (op : nat) (r : outcome unit) (s : sched) : sched :=
  match operations s !! op ≫= bounded with
  | Some _ => s
  | None => report_failure op (on_operation op (fun o => o <| bounded := Some r |>) s)
  end.

(** The worker: the call, [finish_success] and [finish_failure]. *)
Definition worker (op : nat) : CP unit :=
  section_when (fun _ '(s, _) => match operations s !! op with Some o => bool_decide (op_result o = None) | None => false end)
    (fun '(l, (s, w)) =>
       match operations s !! op with
       | Some o => let '(r, w') := queue_settle (op_negative o) (op_token o) w in
                   (Ok tt, (l, (fire_bounded op r (on_operation op (fun o => o <| op_result := Some r |>) s), w')))
       | None => (Ok tt, (l, (s, w)))
       end).

(** [expire]. *)
Definition timer (op : nat) : CP unit := atomically (update id (fun s =>
  if bool_decide (result_of op s = None) then fire_bounded op (Raise (ETimeout "scheduler settlement")) s else s)).

(** [_settle_token_async_ordered]. *)
Definition settle_token_async_ordered (o : owner) (t : nat) (negative : bool) : CP (option nat) :=
  let? open := read queue_open in
  if negb open then pret None else
  let? op := atomically (defer_to_thread_ordered o t negative) in
  let? _ := atomically (track op) in
  let? _ := atomically (attach op) in
  pret (Some op).

(** The callbacks on the operation begin with the [complete] of the registry. *)
Definition succeeded (r : outcome unit) : bool := match r with Ok _ => true | Raise _ => false end.
Definition has_result (op : nat) (s : sched) : bool := match result_of op s with Some _ => true | None => false end.
Definition complete (op : nat) : CP (outcome unit) :=
  section_when (fun _ '(s, _) => has_result op s)
    (fun '(l, (s, w)) =>
       let r := default (Ok tt) (result_of op s) in
       let s := s <| pending_settlements ::= fun p => p ∖ {[ op ]} |> in
       (Ok r, match at_stage l with
              | Settling Waiting o t n op tr =>
                  (at_ (Settling (Answered (succeeded r)) o t n op tr) l, (note (Ended o t n (succeeded r)) s, w))
              | _ => (l, (s, w))
              end)).

(** ** Synchronous broker calls: [_ack_token] and [_nack_token] *)
Definition begin_call (o : owner) (t : nat) (negative : bool) : CM unit :=
  update (at_ (Settling Waiting o t negative None false)) (note (Began o t negative)).
Definition end_call (o : owner) (t : nat) (negative : bool) : CM bool := fun '(l, (s, w)) =>
  let '(r, w') := queue_settle negative t w in
  let s' := note (Ended o t negative (succeeded r)) s in
  let l' := at_ (Settling (Answered (succeeded r)) o t negative None false) l in
  match r with
  | Ok _ => (Ok true, (l', (s', w')))
  | Raise e => if backend_error e then (Ok false, (l', (record_stat (error_stat negative) s', w')))
               else (Raise e, (l', (s', w')))
  end.
Definition settle_token (o : owner) (t : nat) (negative : bool) : CP bool :=
  let? open := read queue_open in
  if negb open then pret false else
  let? _ := atomically (begin_call o t negative) in
  atomically (end_call o t negative).

(** ** Settling the source of a group *)
Definition source_of (g : nat) (s : sched) : nat := match groups s !! g with Some gr => source_token gr | None => 0 end.

(** [_settle_source]. *)
Definition settle_source (g : nat) (negative : bool) : CP unit :=
  let? t := read (source_of g) in
  if reactor_is_running then
    ptry (settle_token_async_ordered (ByGroup g) t negative) (fun o =>
      match o with
      | Raise e => let? _ := atomically (update (at_ Idle) (on_group g (fun gr => gr <| settlement_in_progress := false |>))) in praise e
      | Ok None => atomically (update (at_ Idle) (on_group g (fun gr => gr <| settlement_in_progress := false |>)))
      | Ok (Some op) =>
          let? _ := atomically (update id (on_group g (fun gr => gr <| settlement_operation := Some op |>))) in
          let? r := complete op in
          atomically (update (at_ Idle) (on_group g (settled_by op negative (succeeded r))))
      end)
  else
    ptry (settle_token (ByGroup g) t negative) (fun o =>
      match o with
      | Raise e => let? _ := atomically (update (at_ Idle) (on_group g (fun gr => gr <| settlement_in_progress := false |>))) in praise e
      | Ok ok => atomically (update (at_ Idle) (on_group g (settled negative ok)))
      end).

(** A critical section that may decide to settle. *)
Definition decide_settlement (g : nat) (negative : bool) (f : group -> bool * group) (e : list event) : CM bool := fun '(l, (s, w)) =>
  match groups s !! g with
  | Some gr =>
      let '(settle, gr') := f gr in
      let s' := s <| groups ::= <[g := gr']> |> <| history ::= app e |> in
      (Ok settle, (if settle then at_ (Settling Holding (ByGroup g) (source_token gr) negative None false) l else l, (s', w)))
  | None => (Ok false, (l, (s, w)))
  end.

(** [seal], [accept], [abort]; sealing ends the stream that fills the group. *)
Definition seal (g : nat) : CP unit :=
  let? settle := atomically (fun x => let '(o, (l, y)) := decide_settlement g false seal_locked [Exhausted g] x in
                                      (o, (l <| my_group := None |>, y))) in
  if settle : bool then settle_source g false else pret tt.
Definition accept (g child_id : nat) : CP unit :=
  let? settle := atomically (decide_settlement g false (accept_locked child_id) [Committed g child_id]) in
  if settle : bool then settle_source g false else pret tt.
Definition abort (g : nat) : CP unit :=
  let? settle := atomically (decide_settlement g true abort_locked []) in
  if settle : bool then settle_source g true else pret tt.

(** The token of a child: [_DeferredReplacementAckToken.ack] and [nack]. *)
Definition child_ack (g child_id : nat) : CP unit := accept g child_id.
Definition child_nack (g : nat) : CP unit := abort g.

(** [new_child]. *)
Definition new_child (g : nat) : CM (option nat) := fun '(l, (s, w)) =>
  match groups s !! g with
  | Some gr =>
      let '(child, gr') := new_child_locked gr in
      let s' := s <| groups ::= <[g := gr']> |> in
      (Ok child, (l, (match child with Some i => note (Registered g i) s' | None => s' end, w)))
  | None => (Ok None, (l, (s, w)))
  end.

(** ** Settling the token of a request *)

(** [_claim_request_settlement], after the first read of the token. *)
Definition claim (q t : nat) (negative : bool) : CM bool := fun '(l, (s, w)) =>
  if bool_decide (meta s !! q = Some t) && negb (bool_decide (t ∈ settlement_claims s))
  then (Ok true, (at_ (Settling Holding (BySignal q) t negative None false) l, (s <| settlement_claims ::= fun c => c ∪ {[ t ]} |>, w)))
  else (Ok false, (l, (s, w))).

Definition remove_request_token_if_same (q t : nat) (s : sched) : sched :=
  if bool_decide (meta s !! q = Some t) then s <| meta ::= delete q |> else s.
(** [_release_settlement_claim] and [_complete_claimed_request_token]. *)
Definition release_settlement_claim (t : nat) : CM unit :=
  update (at_ Idle) (fun s => s <| settlement_claims ::= fun c => c ∖ {[ t ]} |>).
Definition complete_claimed_request_token (q t : nat) : CM unit :=
  update (at_ Idle) (fun s => remove_request_token_if_same q t s <| settlement_claims ::= fun c => c ∖ {[ t ]} |>).

(** [_ack_request_token] and [_nack_request_token], with [_settle_token_async]. *)
Definition provable (op : nat) (s : sched) : bool :=
  match operations s !! op with Some o => negb (public_failed o) || op_timed_out o | None => false end.
Definition settle_request_token (q : nat) (negative : bool) : CP unit :=
  let? token := read (fun s => meta s !! q) in
  match token with
  | None => pret tt
  | Some t =>
      if reactor_is_running then
        let? claimed := atomically (claim q t negative) in
        if negb claimed then pret tt else
        ptry (settle_token_async_ordered (BySignal q) t negative) (fun o =>
          match o with
          | Raise e => let? _ := atomically (release_settlement_claim t) in praise e
          | Ok None => atomically (release_settlement_claim t)
          | Ok (Some op) =>
              let? r := complete op in
              match r with
              | Ok _ => let? known := read (provable op) in
                        if known : bool then atomically (complete_claimed_request_token q t) else pret tt
              | Raise _ => atomically (release_settlement_claim t)
              end
          end)
      else
        let? ok := settle_token (BySignal q) t negative in
        if ok : bool then atomically (update id (remove_request_token_if_same q t)) else pret tt
  end.

Definition ack_request_token (q : nat) : CP unit := settle_request_token q false.
Definition nack_request_token (q : nat) : CP unit := settle_request_token q true.

(** [_on_response_received] and [_on_spider_error]; the failed request may be
    unknown. *)
Definition on_response_received (q : nat) : CP unit := ack_request_token q.
Definition on_spider_error (q : option nat) : CP unit :=
  match q with Some q => nack_request_token q | None => pret tt end.

(** [_pending_settlement_barrier]. *)
Definition pending_settlement_barrier : CP unit :=
  let? pending := read pending_settlements in
  section_when (fun _ '(s, _) => forallb (fun op => has_result op s) (elements pending)) (fun x => (Ok tt, x)).

(** [_finish_failure]; the failed request may be unknown. *)
Definition finish_failure (q : option nat) : CP unit :=
  match q with Some q => nack_request_token q | None => pret tt end.

(** ** The output of an errback

    A replacement request is given by the broker token it already carries. *)
Inductive item := Item | Replacement (existing : option nat).
Inductive ending := Exhausts | Fails (e : exn).

(** [_new_group]. *)
Definition new_group (q : nat) : CP (option (nat * nat)) :=
  let? token := read (fun s => meta s !! q) in
  match token with
  | None => pret None
  | Some t => atomically (fun '(l, (s, w)) =>
      let g := length (groups s) in
      (Ok (Some (g, t)), (l <| my_group := Some g |>,
        (s <| groups ::= fun gs => gs ++ [group_init t] |> <| meta ::= delete q |>, w))))
  end.

(** [_attach_replacement]. *)
Definition attach_replacement (g t : nat) (existing : option nat) : CP unit :=
  if bool_decide (existing = None \/ existing = Some t)
  then let? _ := atomically (new_child g) in pret tt
  else let? _ := abort g in atomically (update id (record_stat "scheduler/ack_transfer_conflict")).

(** [_transfer_iterable] and [_transfer_async_iterable]; a consumer that closes
    the generator makes it fail, one that drops it never resumes it. *)
Definition stream_failed {A} (q : nat) (group : option (nat * nat)) (e : exn) : CP A :=
  let? _ := match group with Some (g, _) => abort g | None => finish_failure (Some q) end in praise e.
Fixpoint transfer (q : nat) (group : option (nat * nat)) (result : list item) (fin : ending) : CP unit :=
  match result with
  | [] =>
      match fin with
      | Fails e => stream_failed q group e
      | Exhausts => match group with Some (g, _) => seal g | None => ack_request_token q end
      end
  | Item :: rest => transfer q group rest fin
  | Replacement existing :: rest =>
      let? group := match group with Some _ => pret group | None => new_group q end in
      match group with
      | Some (g, t) => ptry (attach_replacement g t existing) (fun o =>
          match o with Raise e => stream_failed q group e | Ok _ => transfer q group rest fin end)
      | None => transfer q None rest fin
      end
  end.

(** [_transfer_request]. *)
Definition transfer_request (q : nat) (existing : option nat) : CP unit :=
  let? group := new_group q in
  match group with
  | None => pret tt
  | Some (g, t) => let? _ := attach_replacement g t existing in seal g
  end.

(** What the errback returns, [_finish_success] and [__call__]; [Later]: an
    awaitable or a Deferred with its outcome. *)
Inductive result := AFailure | AValue | ARequest (existing : option nat) | AStream (items : list item) (fin : ending).
Inductive answer := Now (r : result) | Later (o : outcome result).

Definition finish_success (q : option nat) (r : result) : CP unit :=
  match r, q with
  | AFailure, _ => finish_failure q
  | _, None => pret tt
  | ARequest existing, Some q => transfer_request q existing
  | AStream items fin, Some q => transfer q None items fin
  | AValue, Some q => ack_request_token q
  end.

Definition errback_call (q : option nat) (original : option (outcome answer)) : CP unit :=
  match original with
  | None => finish_failure q
  | Some (Raise e) | Some (Ok (Later (Raise e))) => let? _ := finish_failure q in praise e
  | Some (Ok (Now r)) | Some (Ok (Later (Ok r))) => finish_success q r
  end.

(** ** The calls that may be in progress *)
Definition idle : local := Local Idle None.

Inductive start : local -> prog local shared unit -> Prop :=
  | start_errback q original : start idle (call (errback_call q original))
  | start_response q : start idle (call (on_response_received q))
  | start_spider_error q : start idle (call (on_spider_error q))
  | start_commit g child_id : start idle (call (child_ack g child_id))
  | start_drop g : start idle (call (child_nack g))
  | start_worker op : start idle (call (worker op))
  | start_timer_call op : start idle (call (timer op))
  | start_barrier : start idle pending_settlement_barrier
  | start_close : start idle (call (atomically (update id (fun s => s <| queue_open := false |>)))).
End Settlement.
End Settlement.
