(* ===== verification/SettlementFacts.v ===== *)
(** * Settling broker deliveries: what holds in every interleaving

    The invariant of [Settlement] and its consequences: a group acknowledges its
    source only after the output stream has ended and every replacement of it is
    committed, never after a negative acknowledgement, and with one broker call
    at a time; two signals never settle one delivery at the same time; the
    registry that the close waits for misses no call of a running reactor. *)

From S2P Require Export Settlement.

Module SettlementFacts.
Import Settlement.

Section Facts.
Context {W : Type} `{!Broker W} (reactor : bool) (tokens : gmap nat nat).
Implicit Types (l : local) (s : sched) (h : list event) (g t q i : nat) (n : bool) (o : owner).

(** ** The history *)
Definition acked g h : Prop := exists t, Ended (ByGroup g) t false true ∈ h.
Definition nacked g h : Prop := exists t, Began (ByGroup g) t true ∈ h.
Definition signalled q h : Prop := exists t n, Ended (BySignal q) t n true ∈ h.
Definition exhausted g h : Prop := Exhausted g ∈ h.
Definition all_committed g h : Prop := forall i, Registered g i ∈ h -> Committed g i ∈ h.

(** Who settles: a group its source, or any signal a token. *)
Definition claimant o t : sum nat nat := match o with ByGroup g => inl g | BySignal _ => inr t end.
Definition same_claimant o t o' t' : bool := bool_decide (claimant o t = claimant o' t').
Fixpoint in_flight o t h : nat :=
  match h with
  | [] => 0
  | Began o' t' _ :: h' => if same_claimant o t o' t' then S (in_flight o t h') else in_flight o t h'
  | Ended o' t' _ _ :: h' => if same_claimant o t o' t' then pred (in_flight o t h') else in_flight o t h'
  | _ :: h' => in_flight o t h'
  end.

Definition may_begin g n h : Prop :=
  ~ acked g h /\ ~ nacked g h /\ (n = false -> exhausted g h /\ all_committed g h).

(** Each event against those before it. *)
Definition in_order (e : event) h : Prop :=
  match e with
  | Registered g i => ~ exhausted g h /\ e ∉ h
  | Committed _ _ | Exhausted _ => True
  | Began (ByGroup g) t n => in_flight (ByGroup g) t h = 0%nat /\ may_begin g n h
  | Began (BySignal q) t _ => reactor = true -> in_flight (BySignal q) t h = 0%nat /\ ~ signalled q h
  | Ended o t _ _ => (0 < in_flight o t h)%nat
  end.
Fixpoint orderly h : Prop :=
  match h with [] => True | e :: h' => in_order e h' /\ orderly h' end.

(** ** The invariant *)
Inductive key := KGroup (g : nat) | KToken (t : nat) | KStream (g : nat) | KOp (op : nat).

(** The operation [op] is the broker's call for the token. *)
Definition works s (op : nat) t n : Prop := exists x, operations s !! op = Some x /\ op_token x = t /\ op_negative x = n.
Definition ops_grow s s' : Prop := forall op t n, works s op t n -> works s' op t n.

Lemma works_lt s op t n : works s op t n -> (op < length (operations s))%nat.
Proof. intros (x & Hx & _). by eapply lookup_lt_Some. Qed.
Lemma ops_grow_length s s' : ops_grow s s' -> (length (operations s) <= length (operations s'))%nat.
Proof.
  intros H. destruct (decide (length (operations s) <= length (operations s'))%nat) as [|Hn]; [done|].
  destruct (lookup_lt_is_Some_2 (operations s) (length (operations s'))) as [x Hx]; [lia|].
  pose proof (works_lt _ _ _ _ (H _ _ _ (ex_intro _ x (conj Hx (conj eq_refl eq_refl))))). lia.
Qed.
Lemma ops_grow_alter s s' (f : operation -> operation) op : operations s' = alter f op (operations s) ->
  (forall x, op_token (f x) = op_token x /\ op_negative (f x) = op_negative x) -> ops_grow s s'.
Proof.
  intros E Hf i t n (x & Hx & Ht & Hn). unfold works. rewrite E. destruct (decide (i = op)) as [->|Hne].
  - exists (f x). rewrite list_lookup_alter_eq, Hx. destruct (Hf x) as [-> ->]. done.
  - exists x. by rewrite list_lookup_alter_ne.
Qed.
Lemma ops_grow_app s s' x : operations s' = operations s ++ [x] -> ops_grow s s'.
Proof. intros E i t n (y & Hy & ?). exists y. rewrite E. split; [by apply lookup_app_l_Some|done]. Qed.
Lemma ops_grow_same s s' : operations s' = operations s -> ops_grow s s'.
Proof. intros E i t n. unfold works. by rewrite E. Qed.
#[local] Hint Resolve ops_grow_same : core.

(** What a call holds. *)
Definition claim_keys o t : list key :=
  match o with ByGroup g => [KGroup g] | BySignal _ => if reactor then [KToken t] else [] end.
Definition keys l : list key :=
  match at_stage l with
  | Settling _ o t _ op _ => claim_keys o t ++ match op with Some op => [KOp op] | None => [] end
  | Idle => []
  end ++ match my_group l with Some g => [KStream g] | None => [] end.

Definition in_progress s g : Prop := exists gr, groups s !! g = Some gr /\ settlement_in_progress gr = true.
Definition terminated s g : Prop := exists gr, groups s !! g = Some gr /\ terminal gr = true.

Definition group_knows ph g n s : Prop :=
  match ph with
  | Holding => may_begin g n (history s)
  | Waiting => ~ acked g (history s)
  | Answered ok => acked g (history s) -> n = false /\ ok = true
  end.
Definition signal_knows ph q s : Prop := match ph with Holding => ~ signalled q (history s) | _ => True end.

Definition mine l s : Prop :=
  match at_stage l with
  | Idle => True
  | Settling ph o t n op tracked =>
      match o with
      | ByGroup g => in_progress s g /\ group_knows ph g n s /\ (n = true -> terminated s g) /\ source_of g s = t
      | BySignal q => reactor = true -> t ∈ settlement_claims s /\ tokens !! q = Some t /\ signal_knows ph q s
      end /\
      match op with
      | Some op => works s op t n /\
                   (ph = Waiting -> tracked = true -> op ∈ pending_settlements s)
      | None => ph = Waiting -> reactor = false
      end
  end /\
  match my_group l with Some g => (g < length (groups s))%nat /\ ~ exhausted g (history s) | None => True end.

Definition event_group (e : event) : option nat :=
  match e with
  | Registered g _ | Committed g _ | Exhausted g => Some g
  | Began o _ _ | Ended o _ _ _ => match o with ByGroup g => Some g | BySignal _ => None end
  end.

Record group_ok g (gr : group) h : Prop := {
  g_acked : acked g h -> terminal gr = true \/ settlement_in_progress gr = true;
  g_nacked : nacked g h -> terminal gr = true;
  g_pending : forall i, terminal gr = false -> Registered g i ∈ h -> i ∈ pending gr \/ Committed g i ∈ h;
  g_sealed : sealed gr = true -> exhausted g h;
  g_fresh : forall i, Registered g i ∈ h -> (i < next_child gr)%nat
}.

Record base s : Prop := {
  b_groups : forall g gr, groups s !! g = Some gr -> group_ok g gr (history s);
  b_events : forall e g, e ∈ history s -> event_group e = Some g -> (g < length (groups s))%nat;
  b_meta : meta s ⊆ tokens;
  b_orderly : orderly (history s)
}.

Definition waiting o t l : nat :=
  match at_stage l with
  | Settling Waiting o' t' _ _ _ => if same_claimant o t o' t' then 1 else 0
  | _ => 0
  end.
(** A successful settlement of [q]'s token that has not yet removed it. *)
Definition removing q l : Prop :=
  exists t n op tr, at_stage l = Settling (Answered true) (BySignal q) t n op tr.

Record inv (ls : list local) (x : sched * W) : Prop := {
  i_base : base (fst x);
  i_mine : Forall (fun l => mine l (fst x)) ls;
  i_keys : NoDup (flat_map keys ls);
  i_flight : forall o t, in_flight o t (history (fst x)) = sum_list_with (waiting o t) ls;
  i_signalled : reactor = true -> forall q, signalled q (history (fst x)) ->
    meta (fst x) !! q = None \/ Exists (removing q) ls
}.

Lemma settling_inv_perm ls ls' x : Permutation ls ls' -> inv ls x -> inv ls' x.
Proof.
  intros Hp [H1 H2 H3 H4 H5]. split; [done| | | |].
  - by rewrite <- Hp.
  - by rewrite <- (Permutation_flat_map keys Hp).
  - intros o t. by rewrite H4, (sum_list_with_perm _ _ _ Hp).
  - intros Hr q Hq. destruct (H5 Hr q Hq) as [?|Hx]; [by left|right]. by rewrite <- Hp.
Qed.

(** ** Steps

    What a section changes, seen by the calls that hold none of its keys. *)
Definition allowed (ks : list key) (e : event) h : Prop :=
  match e with
  | Registered g _ => ~ exhausted g h
  | Committed _ _ => True
  | Exhausted g => KStream g ∈ ks
  | Began (ByGroup g) _ _ | Ended (ByGroup g) _ _ _ => KGroup g ∈ ks
  | Began (BySignal _) _ _ => True
  | Ended (BySignal q) t _ _ => reactor = true -> KToken t ∈ ks /\ tokens !! q = Some t
  end.

Record change (ks : list key) s s' : Prop := {
  c_groups : forall g gr, groups s !! g = Some gr -> exists gr', groups s' !! g = Some gr' /\ source_token gr' = source_token gr /\
    (terminal gr = true -> terminal gr' = true) /\
    (KGroup g ∉ ks -> settlement_in_progress gr = true -> settlement_in_progress gr' = true);
  c_ops : ops_grow s s';
  c_pending : forall op, op ∈ pending_settlements s -> KOp op ∉ ks -> op ∈ pending_settlements s';
  c_claims : forall t, t ∈ settlement_claims s -> KToken t ∉ ks -> t ∈ settlement_claims s';
  c_history : exists es, history s' = es ++ history s /\ (length es <= 1)%nat /\ Forall (fun e => allowed ks e (history s)) es
}.

Lemma change_length ks s s' : change ks s s' -> (length (groups s) <= length (groups s'))%nat.
Proof.
  intros [H _ _ _ _]. destruct (decide (length (groups s) <= length (groups s'))%nat) as [|Hn]; [done|].
  assert (is_Some (groups s !! length (groups s'))) as [gr Hg] by (apply lookup_lt_is_Some; lia).
  destruct (H _ _ Hg) as (gr' & Hg' & _). apply lookup_lt_Some in Hg'. lia.
Qed.

(** [solve_in]: membership of an event in a history that is one event longer. *)
Lemma mine_change l s s' ks : mine l s -> change ks s s' -> (forall k, k ∈ keys l -> k ∉ ks) -> mine l s'.
Proof.
  intros [Hs Hg] Hc Hk. pose proof (change_length _ _ _ Hc) as Hlen. destruct Hc as [Hgr Hops Hp Hcl (es & Hh & Hl1 & Hes)].
  unfold mine. unfold keys in Hk. split.
  - destruct (at_stage l) as [|ph o t n op tr]; [done|]. destruct Hs as [Ho Hop]. split.
    + destruct o as [g|q].
      * destruct Ho as ((gr & Hgg & Hip) & Hkn & Ht & Hsrc).
        assert (KGroup g ∉ ks) as Hnk by (apply Hk; cbn; by left).
        destruct (Hgr _ _ Hgg) as (gr' & Hg' & Hsrc' & Hterm & Hip'). split_and!.
        -- exists gr'. split; [done|]. by apply Hip'.
        -- destruct es as [|e [|]]; cbn in Hl1; [by cbn in Hh; unfold group_knows; rewrite Hh| |lia].
           apply Forall_cons in Hes as [He _]. cbn in Hh. unfold group_knows, may_begin, acked, nacked, exhausted, all_committed in *. rewrite Hh.
           destruct ph as [| |ok]; cbn.
           ++ destruct Hkn as (Ha & Hn & Hc). split_and!.
              ** intros [t' [E|?]%elem_of_cons]; [|naive_solver]. subst e. by cbn in He.
              ** intros [t' [E|?]%elem_of_cons]; [|naive_solver]. subst e. by cbn in He.
              ** intros Hf. destruct (Hc Hf) as [He' Hc']. split; [by right|]. intros i [E|Hi]%elem_of_cons; [|right; by apply Hc'].
                 subst e. by cbn in He.
           ++ intros [t' [E|?]%elem_of_cons]; [|naive_solver]. subst e. by cbn in He.
           ++ intros [t' [E|?]%elem_of_cons]; [|naive_solver]. subst e. by cbn in He.
        -- intros Hn. destruct (Ht Hn) as (gr2 & Hg2 & Hterm2). rewrite Hgg in Hg2. injection Hg2 as <-. exists gr'. by auto.
        -- unfold source_of in *. rewrite Hgg in Hsrc. by rewrite Hg', Hsrc'.
      * intros Hr. destruct (Ho Hr) as (Hclaim & Htok & Hkn).
        assert (KToken t ∉ ks) as Hnk by (apply Hk; cbn; rewrite Hr; by left). split_and!; [by apply Hcl|done|].
        destruct ph; cbn in *; try done. intros (t' & n' & Hin). rewrite Hh in Hin.
        apply elem_of_app in Hin as [Hin|?]; [|by apply Hkn; eexists _, _].
        rewrite Forall_forall in Hes. destruct (Hes _ Hin Hr) as [? ?]. by simplify_eq.
    + destruct op as [op|]; [|done]. destruct Hop as [Hop1 Hop2]. split; [by apply Hops|]. intros Hph Htr. apply Hp; [by apply Hop2|].
      apply Hk. apply elem_of_app; left. apply elem_of_app; right. by left.
  - destruct (my_group l) as [g|]; [|done]. destruct Hg as [Hg He]. split; [lia|]. unfold exhausted in *. rewrite Hh.
    intros [Hin|?]%elem_of_app; [|done]. rewrite Forall_forall in Hes. specialize (Hes _ Hin). cbn in Hes.
    apply (Hk (KStream g)); [|done]. apply elem_of_app; right. by left.
Qed.

Definition fresh_key (k : key) s : Prop :=
  match k with
  | KGroup g => exists gr, groups s !! g = Some gr /\ settlement_in_progress gr = false
  | KToken t => t ∉ settlement_claims s
  | KStream g => (length (groups s) <= g)%nat
  | KOp op => (length (operations s) <= op)%nat
  end.

Lemma fresh_not_held k l s : mine l s -> fresh_key k s -> k ∉ keys l.
Proof.
  intros [Hs Hg] Hk Hin. unfold keys in Hin. apply elem_of_app in Hin as [Hin|Hin].
  - destruct (at_stage l) as [|ph o t n op tr]; [by apply elem_of_nil in Hin|]. destruct Hs as [Ho Hop].
    apply elem_of_app in Hin as [Hin|Hin].
    + destruct o as [g|q]; cbn in Hin.
      * apply list_elem_of_singleton in Hin as ->. destruct Ho as ((gr & Hg1 & Hg2) & _), Hk as (gr' & Hg1' & Hg2'). rewrite Hg1 in Hg1'; injection Hg1' as <-; congruence.
      * destruct reactor; [|by apply elem_of_nil in Hin]. apply list_elem_of_singleton in Hin as ->. by destruct (Ho eq_refl).
    + destruct op as [op|]; [|by apply elem_of_nil in Hin]. apply list_elem_of_singleton in Hin as ->. cbn in Hk. destruct Hop as [Hop%works_lt _]. lia.
  - destruct (my_group l) as [g|]; [|by apply elem_of_nil in Hin]. apply list_elem_of_singleton in Hin as ->. cbn in Hk. lia.
Qed.

Lemma keys_nodup l : NoDup (keys l).
Proof.
  unfold keys, claim_keys. destruct (at_stage l) as [|ph [g|q] t n [op|] tr], (my_group l) as [g'|], reactor; cbn;
    repeat (constructor; rewrite ?elem_of_cons, ?elem_of_nil; try naive_solver).
Qed.

Lemma settling_inv_step l fr s w l' s' w' : inv (l :: fr) (s, w) -> base s' -> mine l' s' ->
  change (keys l ++ keys l') s s' -> (forall k, k ∈ keys l' -> k ∈ keys l \/ fresh_key k s) ->
  (forall o t, (in_flight o t (history s') + waiting o t l)%nat = (in_flight o t (history s) + waiting o t l')%nat) ->
  meta s' ⊆ meta s ->
  (reactor = true -> forall q, signalled q (history s') -> meta s' !! q = None \/ removing q l' \/
     (signalled q (history s) /\ (removing q l -> meta s' !! q = None \/ removing q l'))) ->
  inv (l' :: fr) (s', w').
Proof.
  intros [H1 H2 H3 H4 H5] Hb Hm Hc Hk Hf Hmeta Hs. pose proof (keys_nodup l') as Hn. cbn in *. apply Forall_cons in H2 as [Hml H2].
  apply NoDup_app in H3 as (Hn1 & Hn2 & Hn3).
  assert (forall x, x ∈ fr -> forall k, k ∈ keys x -> k ∉ keys l ++ keys l') as Hdis.
  { intros x Hx k Hkx Hin. rewrite Forall_forall in H2. apply elem_of_app in Hin as [Hin|Hin].
    - apply (Hn2 k Hin). apply list_elem_of_In, in_flat_map. exists x. by split; apply list_elem_of_In.
    - destruct (Hk _ Hin) as [Hin'|Hf']; [|exact (fresh_not_held k x s (H2 x Hx) Hf' Hkx)].
      apply (Hn2 k Hin'). apply list_elem_of_In, in_flat_map. exists x. by split; apply list_elem_of_In. }
  split; cbn; [done| | | |].
  - constructor; [done|]. apply Forall_forall. intros x Hx. rewrite Forall_forall in H2.
    apply (mine_change x s s' (keys l ++ keys l')); [by apply H2|done|by apply Hdis].
  - apply NoDup_app. split_and!; [done| |done]. intros k Hkl Hin. apply list_elem_of_In, in_flat_map in Hin as (x & Hx & Hkx).
    apply list_elem_of_In in Hx, Hkx. apply (Hdis x Hx k Hkx). apply elem_of_app. by right.
  - intros o t. specialize (Hf o t). specialize (H4 o t). lia.
  - intros Hr q Hq. destruct (Hs Hr q Hq) as [?|[?|[Hq' Hl]]]; [by left|right; by constructor|].
    destruct (H5 Hr q Hq') as [Hm0|[Hx|Hx]%Exists_cons].
    + left. destruct (meta s' !! q) as [t|] eqn:E; [|done]. apply (lookup_weaken _ _ _ _ E) in Hmeta. congruence.
    + destruct (Hl Hx) as [?|?]; [by left|right; by constructor].
    + right. by constructor.
Qed.

(** ** The invariant of a group *)
Lemma elem_of_new (e e' : event) h : e <> e' -> e ∈ e' :: h -> e ∈ h.
Proof. intros Hne [?|?]%elem_of_cons; [done|done]. Qed.

Lemma group_ok_other g gr e h : event_group e <> Some g -> group_ok g gr h -> group_ok g gr (e :: h).
Proof.
  intros He [H1 H2 H3 H4 H5]. split.
  - intros [t Hin]. apply H1. exists t. apply (elem_of_new _ _ _) in Hin; [done|]. intros <-. by cbn in He.
  - intros [t Hin]. apply H2. exists t. apply (elem_of_new _ _ _) in Hin; [done|]. intros <-. by cbn in He.
  - intros i Ht Hin. apply (elem_of_new _ _ _) in Hin; [|intros <-; by cbn in He].
    destruct (H3 i Ht Hin); [by left|right; by right].
  - intros Hs. right. by apply H4.
  - intros i Hin. apply H5. apply (elem_of_new _ _ _) in Hin; [done|]. intros <-. by cbn in He.
Qed.

(** One event and one group changed. *)
Lemma base_event s s' e : base s -> history s' = e :: history s -> in_order e (history s) ->
  (forall g, event_group e = Some g -> (g < length (groups s'))%nat) -> (length (groups s) <= length (groups s'))%nat ->
  meta s' ⊆ meta s ->
  (forall g gr, groups s' !! g = Some gr -> event_group e <> Some g -> group_ok g gr (history s)) ->
  (forall g gr, groups s' !! g = Some gr -> event_group e = Some g -> group_ok g gr (e :: history s)) ->
  base s'.
Proof.
  intros [H1 H2 H3 H4] Hh Ho Hlt Hlen Hm Hg1 Hg2. split.
  - intros g gr Hg. rewrite Hh. destruct (decide (event_group e = Some g)); [by apply Hg2|]. apply group_ok_other; [done|]. by apply Hg1.
  - intros e' g Hin Heg. rewrite Hh in Hin. apply elem_of_cons in Hin as [->|Hin]; [by apply Hlt|].
    specialize (H2 _ _ Hin Heg). lia.
  - by etrans.
  - rewrite Hh. by split.
Qed.

Lemma base_same s s' : base s -> history s' = history s -> (length (groups s) <= length (groups s'))%nat -> meta s' ⊆ meta s ->
  (forall g gr, groups s' !! g = Some gr -> group_ok g gr (history s)) -> base s'.
Proof.
  intros [H1 H2 H3 H4] Hh Hlen Hm Hg. split.
  - intros g gr E. rewrite Hh. by apply Hg.
  - intros e g Hin He. rewrite Hh in Hin. specialize (H2 _ _ Hin He). lia.
  - by etrans.
  - by rewrite Hh.
Qed.

(** ** Steps that leave the groups and the history alone *)
Definition same_but_ops s s' : Prop :=
  groups s' = groups s /\ history s' = history s /\ ops_grow s s'.

Lemma inv_head ls s w l : inv (l :: ls) (s, w) -> mine l s /\ NoDup (keys l).
Proof. intros [_ H2 H3 _ _]. apply Forall_cons in H2 as [? _]. cbn in H3. by apply NoDup_app in H3 as (? & _ & _). Qed.

Lemma inv_unchanged l fr s w s' w' : inv (l :: fr) (s, w) -> same_but_ops s s' -> meta s' ⊆ meta s ->
  (forall op, op ∈ pending_settlements s -> op ∈ pending_settlements s') ->
  (forall t, t ∈ settlement_claims s -> t ∈ settlement_claims s') ->
  inv (l :: fr) (s', w').
Proof.
  intros Hi (Hg & Hh & Ho) Hm Hp Hc. destruct (inv_head _ _ _ _ Hi) as [Hml Hnd]. destruct (i_base _ _ Hi).
  assert (Hch : forall ks, change ks s s').
  { intros ks. split; [|done|auto|auto|exists []; rewrite Hh; by split_and!; [|cbn; lia|]]. intros g gr Hgr. rewrite Hg. by exists gr. }
  apply (settling_inv_step l fr s w); try done.
  - apply (base_same s); [done|done|by rewrite Hg|done|]. intros g gr. rewrite Hg. auto.
  - apply (mine_change l s s' []); [done|apply Hch|]. intros k _ Hk. by apply elem_of_nil in Hk.
  - by left.
  - intros o t. by rewrite Hh.
  - intros Hr q. rewrite Hh. auto.
Qed.

(** ** One section at a time *)
Abbreviation WP p Q l := (wp inv p Q l).

Lemma wp_read {A} (f : sched -> A) Q l : (forall a, Q (Ok a) l) -> WP (read (W := W) f) Q l.
Proof. intros H. apply wp_atomically. intros fr [s w] o l' [s' w'] Hi [= <- <- <- <-]. by split. Qed.

Lemma wp_unchanged (f : sched -> sched) Q l :
  (forall s, same_but_ops s (f s) /\ meta (f s) ⊆ meta s /\ pending_settlements s ⊆ pending_settlements (f s) /\
             settlement_claims s ⊆ settlement_claims (f s)) ->
  Q (Ok tt) l -> WP (atomically (update (W := W) id f)) Q l.
Proof.
  intros Hf HQ. apply wp_atomically. intros fr [s w] o l' [s' w'] Hi [= <- <- <- <-]. split; [|done].
  destruct (Hf s) as (H1 & H2 & H3 & H4). by apply (inv_unchanged l fr s w).
Qed.

Lemma ops_alter (f : operation -> operation) op s : (forall x, op_token (f x) = op_token x /\ op_negative (f x) = op_negative x) ->
  same_but_ops s (on_operation op f s).
Proof. intros Hf. split_and!; [done..|]. by eapply ops_grow_alter. Qed.
Lemma ops_trans s1 s2 s3 : same_but_ops s1 s2 -> same_but_ops s2 s3 -> same_but_ops s1 s3.
Proof. intros (E1 & E2 & H1) (E3 & E4 & H2). split_and!; [congruence..|]. intros op t n Hw. by apply H2, H1. Qed.

#[local] Ltac same_ops := split_and!; try done; try (split_and!; [done..|by apply ops_grow_same]); try by apply ops_grow_same.

(** What the callbacks of the public view may change. *)
Definition quiet s s' : Prop :=
  same_but_ops s s' /\ meta s' = meta s /\ pending_settlements s' = pending_settlements s /\ settlement_claims s' = settlement_claims s.
Lemma quiet_trans s1 s2 s3 : quiet s1 s2 -> quiet s2 s3 -> quiet s1 s3.
Proof. intros (H1 & E1 & E2 & E3) (H2 & E4 & E5 & E6). split_and!; [by eapply ops_trans|congruence..]. Qed.
Lemma quiet_alter f op s : (forall x, op_token (f x) = op_token x /\ op_negative (f x) = op_negative x) -> quiet s (on_operation op f s).
Proof. intros Hf. split_and!; [by apply ops_alter|done..]. Qed.
Lemma quiet_report op s : quiet s (report_failure op s).
Proof. unfold report_failure. destruct (operations s !! op) as [o|]; [destruct (public_failed o)|]; same_ops. Qed.
Lemma quiet_fire op r s : quiet s (fire_bounded op r s).
Proof.
  unfold fire_bounded. destruct (operations s !! op ≫= bounded); [same_ops|].
  eapply quiet_trans; [|apply quiet_report]; by apply quiet_alter.
Qed.
Lemma quiet_unchanged s s' : quiet s s' -> same_but_ops s s' /\ meta s' ⊆ meta s /\ pending_settlements s ⊆ pending_settlements s' /\
  settlement_claims s ⊆ settlement_claims s'.
Proof. by intros (H1 & -> & -> & ->). Qed.

Lemma wp_worker op Q l : Q (Ok tt) l -> WP (worker (W := W) op) Q l.
Proof.
  intros HQ. apply wp_section. intros fr [s w] o l' [s' w'] Hi _. cbn. destruct (operations s !! op) as [x|].
  - destruct (queue_settle (op_negative x) (op_token x) w) as [r w1]. intros [= <- <- <- <-]. split; [|done].
    destruct (quiet_unchanged s (fire_bounded op r (on_operation op (fun x => x <| op_result := Some r |>) s))) as (H1 & H2 & H3 & H4);
      [eapply quiet_trans; [|apply quiet_fire]; by apply quiet_alter|]. by apply (inv_unchanged l fr s w).
  - by intros [= <- <- <- <-].
Qed.

Lemma wp_timer op Q l : Q (Ok tt) l -> WP (timer (W := W) op) Q l.
Proof.
  apply wp_unchanged. intros s. apply quiet_unchanged. destruct (bool_decide (result_of op s = None)); [apply quiet_fire|same_ops].
Qed.

Lemma wp_attach op Q l : Q (Ok tt) l -> WP (atomically (attach (W := W) op)) Q l.
Proof.
  apply wp_unchanged. intros s. apply quiet_unchanged. eapply quiet_trans; [|apply quiet_report]; by apply quiet_alter.
Qed.

(** *** Settling *)
Definition settling ph o t n op tr l : Prop := at_stage l = Settling ph o t n op tr.

Lemma keys_settling ph o t n op tr l : settling ph o t n op tr l ->
  keys l = (claim_keys o t ++ match op with Some op => [KOp op] | None => [] end) ++
           match my_group l with Some g => [KStream g] | None => [] end.
Proof. unfold settling, keys. by intros ->. Qed.

(** Between sections that keep the groups. *)
Lemma change_ops ks s s' : groups s' = groups s -> ops_grow s s' ->
  (forall op, op ∈ pending_settlements s -> KOp op ∉ ks -> op ∈ pending_settlements s') ->
  (forall t, t ∈ settlement_claims s -> KToken t ∉ ks -> t ∈ settlement_claims s') ->
  (exists es, history s' = es ++ history s /\ (length es <= 1)%nat /\ Forall (fun e => allowed ks e (history s)) es) ->
  change ks s s'.
Proof. intros Hg. split; try done. intros g gr E. rewrite Hg. by exists gr. Qed.

Lemma in_flight_began o t n h : in_order (Began o t n) h -> (reactor = true \/ claim_keys o t <> []) -> in_flight o t h = 0%nat.
Proof. destruct o as [g|q]; cbn; [by intros [? _]|]. intros H [Hr|Hr]; [by apply H|]. destruct reactor; [by apply H|done]. Qed.

(** What a holder knows is what its call needs. *)
Lemma none_waiting o t fr s w l : inv (l :: fr) (s, w) -> (forall k, k ∈ claim_keys o t -> k ∈ keys l) -> claim_keys o t <> [] ->
  waiting o t l = 0%nat -> in_flight o t (history s) = 0%nat.
Proof.
  intros [_ _ H3 H4 _] Hk Hne Hl. cbn in *. rewrite H4, Hl. cbn.
  assert (forall x, x ∈ fr -> waiting o t x = 0%nat) as Hall.
  { intros x Hx. unfold waiting. destruct (at_stage x) as [|[| |ok] o' t' n' op tr] eqn:E; try done.
    unfold same_claimant. destruct (bool_decide_reflect (claimant o t = claimant o' t')) as [Ec|]; [|done]. exfalso.
    assert (claim_keys o t = claim_keys o' t') as Ek by (clear -Ec; destruct o, o'; cbn in Ec |- *; by simplify_eq).
    destruct (claim_keys o t) as [|k ks] eqn:Eck; [done|].
    apply NoDup_app in H3 as (_ & Hd & _). apply (Hd k); [apply Hk; by left|].
    apply list_elem_of_In, in_flat_map. exists x. split; [by apply list_elem_of_In|]. apply list_elem_of_In.
    unfold keys. rewrite E, <- Ek. by left. }
  clear -Hall. induction fr as [|x fr IH]; cbn; [done|]. rewrite Hall by left. apply IH. intros y Hy. apply Hall. by right.
Qed.

Definition stream_ok l s : Prop :=
  match my_group l with Some g => (g < length (groups s))%nat /\ ~ exhausted g (history s) | None => True end.
Lemma stream_ok_mono l s l' s' : mine l s -> my_group l' = my_group l -> (length (groups s) <= length (groups s'))%nat ->
  (forall g, exhausted g (history s') -> exhausted g (history s)) -> stream_ok l' s'.
Proof.
  intros [_ H] Hg Hl He. unfold stream_ok. rewrite Hg. destruct (my_group l) as [g|]; [|done].
  destruct H as [H1 H2]. split; [lia|]. auto.
Qed.
Lemma exhausted_new g e h : event_group e = None \/ (forall g', e <> Exhausted g') -> exhausted g (e :: h) -> exhausted g h.
Proof. intros He. apply elem_of_new. intros <-. destruct He as [He|He]; [done|by eapply He]. Qed.


(** What a section of a settling call adds to the history. *)
Inductive advance o t n : phase -> phase -> list event -> Prop :=
  | advance_none ph : advance o t n ph ph []
  | advance_began : advance o t n Holding Waiting [Began o t n]
  | advance_ended ok : advance o t n Waiting (Answered ok) [Ended o t n ok].

Lemma claim_held ph o t n op tr l : settling ph o t n op tr l -> forall k, k ∈ claim_keys o t -> k ∈ keys l.
Proof. intros Hl k Hk. rewrite (keys_settling _ _ _ _ _ _ _ Hl). set_solver. Qed.

Lemma same_claimant_refl o t : same_claimant o t o t = true.
Proof. unfold same_claimant. by rewrite bool_decide_true. Qed.

Lemma waiting_in_flight o t n op tr l fr s w : settling Waiting o t n op tr l -> inv (l :: fr) (s, w) -> (0 < in_flight o t (history s))%nat.
Proof.
  intros Hl [_ _ _ H _]. cbn in H. rewrite H. unfold waiting at 1. rewrite Hl, same_claimant_refl. lia.
Qed.

Lemma advance_in_order o t n ph ph' op tr l fr s w e : settling ph o t n op tr l -> inv (l :: fr) (s, w) ->
  advance o t n ph ph' [e] -> in_order e (history s).
Proof.
  intros Hl Hi Ha. pose proof (inv_head _ _ _ _ Hi) as [[Hm _] _]. rewrite Hl in Hm. destruct Hm as [Hm _].
  inversion Ha; subst; [|by eapply waiting_in_flight].
  assert (Hnw : forall o', waiting o' t l = 0%nat) by (intros o'; unfold waiting; by rewrite Hl).
  destruct o as [g|q]; cbn.
  - split; [|by destruct Hm as (_ & ? & _)]. by eapply none_waiting; [done|by eapply claim_held|..].
  - intros Hr. destruct (Hm Hr) as (_ & _ & Hs). split; [|done].
    eapply none_waiting; [done|by eapply claim_held| |done]. cbn. by rewrite Hr.
Qed.

(** Membership in a history that is one event longer. *)
Ltac new_event := repeat match goal with
  | H : ?e ∈ ?e' :: ?h |- _ => apply elem_of_cons in H as [H|H]; [try discriminate H; simplify_eq|]
  end.

Lemma advance_group_ok o t n ph ph' l op tr s e g gr : settling ph o t n op tr l -> mine l s -> advance o t n ph ph' [e] ->
  groups s !! g = Some gr -> event_group e = Some g -> group_ok g gr (history s) -> group_ok g gr (e :: history s).
Proof.
  intros Hl [Hm _] Ha Hg He [H1 H2 H3 H4 H5]. rewrite Hl in Hm. destruct Hm as [Hm _].
  assert (o = ByGroup g) as -> by (inversion Ha; subst; cbn in He; by destruct o; simplify_eq).
  destruct Hm as ((gr0 & Hg0 & Hip) & Hk & Ht & _). rewrite Hg in Hg0. injection Hg0 as <-.
  split.
  - intros _. by right.
  - intros [t' Hin]. inversion Ha; subst; new_event; [|by apply H2; exists t'..].
    destruct (Ht eq_refl) as (gr1 & Hg1 & ?). congruence.
  - intros i Hterm Hin. inversion Ha; subst; new_event; destruct (H3 i Hterm Hin); auto; right; by right.
  - intros Hs. right. by apply H4.
  - intros i Hin. apply H5. inversion Ha; subst; by new_event.
Qed.
Lemma new_began_event o t n g : event_group (Began o t n) = None \/ (forall g', Began o t n <> Exhausted g').
Proof. by right. Qed.

Lemma advance_in_flight o t n ph ph' es l l' h op tr op' tr' o0 t0 : advance o t n ph ph' es ->
  settling ph o t n op tr l -> settling ph' o t n op' tr' l' ->
  (forall e, es = [e] -> in_order e h) ->
  (in_flight o0 t0 (es ++ h) + waiting o0 t0 l)%nat = (in_flight o0 t0 h + waiting o0 t0 l')%nat.
Proof.
  intros Ha Hl Hl' He. unfold waiting. rewrite Hl, Hl'. inversion Ha; subst; cbn; try lia;
    destruct (same_claimant o0 t0 o t) eqn:E; try lia.
  specialize (He _ eq_refl). cbn in He. unfold same_claimant in E. apply bool_decide_eq_true_1 in E.
  assert (in_flight o0 t0 h = in_flight o t h) as Heq.
  { clear -E. induction h as [|[| | |o' t' ?|o' t' ? ?] h IH]; cbn; try done; unfold same_claimant; rewrite E, IH; done. }
  rewrite Heq. lia.
Qed.

(** A section of a settling call. *)
Record restage l s s' ph op o t n ph' op' (tr' : bool) es : Prop := {
  r_advance : advance o t n ph ph' es;
  r_groups : groups s' = groups s;
  r_meta : meta s' = meta s;
  r_claims : settlement_claims s' = settlement_claims s;
  r_ops : ops_grow s s';
  r_history : history s' = es ++ history s;
  r_op : op' = op \/ (op = None /\ op' = Some (length (operations s)) /\ works s' (length (operations s)) t n);
  r_pending : forall i, i ∈ pending_settlements s -> op <> Some i -> i ∈ pending_settlements s';
  r_tracked : forall i, ph' = Waiting -> tr' = true -> op' = Some i -> i ∈ pending_settlements s';
  r_sync : op' = None -> ph' = Waiting -> reactor = false
}.

Lemma restage_base l fr s w s' ph op tr o t n ph' op' tr' es : settling ph o t n op tr l -> inv (l :: fr) (s, w) ->
  restage l s s' ph op o t n ph' op' tr' es -> base s'.
Proof.
  intros Hl Hi [Ha Hg Hmeta _ _ Hh _ _ _ _]. pose proof (inv_head _ _ _ _ Hi) as [Hm _]. pose proof (i_base _ _ Hi) as Hb. cbn in Hb.
  assert (forall e, es = [e] -> (forall g, event_group e = Some g -> o = ByGroup g) -> base s') as Hone.
  { intros e -> He. apply (base_event s s' e); rewrite ?Hg, ?Hmeta; try done.
    - by eapply advance_in_order.
    - intros g E. specialize (He g E). subst o. destruct Hm as [Hm _]. rewrite Hl in Hm.
      destruct Hm as (((gr & Hgr & _) & _) & _). by eapply lookup_lt_Some.
    - intros g gr E _. by apply Hb.
    - intros g gr E Heg. eapply advance_group_ok; try done. by apply Hb. }
  inversion Ha; subst; cbn in Hh.
  - apply (base_same s); rewrite ?Hg, ?Hmeta; try done. apply b_groups, Hb.
  - eapply Hone; [done|]. intros g E. cbn in E. by destruct o; simplify_eq.
  - eapply Hone; [done|]. intros g E. cbn in E. by destruct o; simplify_eq.
Qed.

Lemma restage_mine l s s' ph op tr o t n ph' op' tr' es : settling ph o t n op tr l -> mine l s ->
  restage l s s' ph op o t n ph' op' tr' es -> mine (at_ (Settling ph' o t n op' tr') l) s'.
Proof.
  intros Hl Hm0 [Ha Hg Hmeta Hcl Hops Hh Hop Hp Hp' Hsync]. pose proof Hm0 as [Hm _]. rewrite Hl in Hm. destruct Hm as [Hm Hm']. split.
  - cbn. split.
    + destruct o as [g|q].
      * destruct Hm as (Hip & Hk & Ht & Hsrc). unfold in_progress, terminated, source_of in *. rewrite Hg. split_and!; [done| |done|done].
        unfold group_knows in *. rewrite Hh. inversion Ha; subst; cbn [app]; [done|..].
        -- destruct Hk as (Hk & _). intros [t' Hin]. new_event. apply Hk. by exists t'.
        -- intros [t' Hin]. new_event; [done|]. destruct Hk. by exists t'.
      * intros Hr. destruct (Hm Hr) as (H1 & H2 & H3). rewrite Hcl. split_and!; [done..|].
        unfold signal_knows in *. rewrite Hh. by inversion Ha; subst.
    + destruct op' as [i|]; [|by apply Hsync]. split; [|by intros; apply Hp'].
      destruct Hop as [<-|(-> & [= ->] & ?)]; [|done]. destruct Hm' as [? _]. by apply Hops.
  - apply (stream_ok_mono l s); [done..|by rewrite Hg|]. intros g. rewrite Hh. inversion Ha; subst; cbn [app]; [done|..];
      apply exhausted_new; by right.
Qed.

Lemma restage_change l s s' ph op tr o t n ph' op' tr' es ks : settling ph o t n op tr l -> mine l s ->
  restage l s s' ph op o t n ph' op' tr' es -> (forall k, k ∈ keys l -> k ∈ ks) -> change ks s s'.
Proof.
  intros Hl Hm [Ha Hg Hmeta Hcl Hops Hh Hop Hp Hp' _] Hks.
  assert (forall k, k ∈ claim_keys o t -> k ∈ ks) as Hck by (intros k Hk; apply Hks; by eapply claim_held).
  apply change_ops; [done|done| |by rewrite Hcl|].
  - intros i Hin Hnk. apply Hp; [done|]. intros ->. apply Hnk, Hks. rewrite (keys_settling _ _ _ _ _ _ _ Hl). set_solver.
  - exists es. split; [done|]. inversion Ha; subst; (split; [cbn; lia|]); repeat constructor; destruct o as [g|q]; cbn; try done;
      [apply Hck; by left..|]. intros Hr. split; [apply Hck; cbn; rewrite Hr; by left|].
    destruct Hm as [Hm _]. rewrite Hl in Hm. by destruct Hm as [Hm _]; destruct (Hm Hr) as (_ & ? & _).
Qed.

Lemma restage_signalled s s' ph op tr o t n ph' op' tr' es l q : settling ph o t n op tr l -> advance o t n ph ph' es ->
  history s' = es ++ history s -> signalled q (history s') ->
  removing q (at_ (Settling ph' o t n op' tr') l) \/
  (signalled q (history s) /\ (removing q l -> removing q (at_ (Settling ph' o t n op' tr') l))).
Proof.
  intros Hl Ha ->. inversion Ha; subst; cbn [app].
  - intros Hq. right. split; [done|]. intros (t1 & n1 & op1 & tr1 & E). rewrite Hl in E. simplify_eq. by eexists _, _, _, _.
  - intros (t1 & n1 & Hin). new_event. right. split; [by eexists _, _|]. intros (t2 & n2 & op1 & tr1 & E). rewrite Hl in E. simplify_eq.
  - intros (t1 & n1 & Hin). new_event; [left; by eexists _, _, _, _|].
    right. split; [by eexists _, _|]. intros (t2 & n2 & op1 & tr1 & E). rewrite Hl in E. simplify_eq.
Qed.

Lemma inv_restage l fr s w ph op tr o t n ph' op' tr' s' w' es : settling ph o t n op tr l -> inv (l :: fr) (s, w) ->
  restage l s s' ph op o t n ph' op' tr' es -> inv (at_ (Settling ph' o t n op' tr') l :: fr) (s', w').
Proof.
  intros Hl Hi Hs. pose proof (inv_head _ _ _ _ Hi) as [Hm _]. pose proof Hs as [Ha Hg Hmeta Hcl Hops Hh Hop Hp Hp' Hsync].
  apply (settling_inv_step l fr s w); [done|by eapply restage_base|by eapply restage_mine|..].
  - eapply restage_change; try done. intros k Hk. apply elem_of_app. by left.
  - intros k. unfold keys at 1. cbn. destruct Hop as [->|(-> & -> & _)].
    + intros Hk. left. by rewrite (keys_settling _ _ _ _ _ _ _ Hl).
    + rewrite (keys_settling _ _ _ _ _ _ _ Hl), !elem_of_app. intros [[?|Hk]|?]; [tauto| |tauto].
      right. apply list_elem_of_singleton in Hk as ->. cbn. lia.
  - intros o0 t0. rewrite Hh. eapply advance_in_flight; [done|done|done|]. intros e ->. by eapply advance_in_order.
  - by rewrite Hmeta.
  - intros Hr q Hq. destruct (restage_signalled s s' ph op tr o t n ph' op' tr' es l q Hl Ha Hh Hq) as [?|[? ?]]; [by right; left|right; right; auto].
Qed.

(** *** The calls on the broker *)
Lemma settling_at ph o t n op tr l : settling ph o t n op tr (at_ (Settling ph o t n op tr) l).
Proof. done. Qed.
Lemma settling_eta ph o t n op tr l : settling ph o t n op tr l -> at_ (Settling ph o t n op tr) l = l.
Proof. unfold settling. destruct l as [st g]. cbn. by intros ->. Qed.

Lemma wp_defer o t n l Q : settling Holding o t n None false l ->
  (forall ph op, ph = Holding \/ ph = Waiting -> Q (Ok op) (at_ (Settling ph o t n (Some op) false) l)) ->
  WP (atomically (defer_to_thread_ordered (W := W) o t n)) Q l.
Proof.
  intros Hl HQ. apply wp_atomically. intros fr [s w] r l' [s' w'] Hi. unfold defer_to_thread_ordered.
  assert (Hnew : forall r b s0, operations s0 = operations s ++ [Operation t n r b false] -> works s0 (length (operations s)) t n).
  { intros r0 b s0 E. eexists. rewrite E, list_lookup_middle by done. done. }
  destruct (submit_thread w) as [[u|e] w1].
  - destruct (start_timer w1) as [timer w2]. intros [= <- <- <- <-]. split; [|auto].
    eapply (inv_restage l fr s w) with (es := [Began o t n]); try done; split; try done; try (by apply ops_grow_same); [apply advance_began|by eapply ops_grow_app|right; split_and!; [done..|by eapply Hnew]].
  - intros [= <- <- <- <-]. split; [|auto].
    eapply (inv_restage l fr s w) with (es := []); try done; split; try done; try (by apply ops_grow_same); [apply advance_none|by eapply ops_grow_app|right; split_and!; [done..|by eapply Hnew]].
Qed.

Lemma wp_track_operation ph o t n op l Q : settling ph o t n (Some op) false l ->
  Q (Ok tt) (at_ (Settling ph o t n (Some op) true) l) -> WP (atomically (track (W := W) op)) Q l.
Proof.
  intros Hl HQ. apply wp_atomically. intros fr [s w] r l' [s' w'] Hi. unfold track, update. rewrite Hl.
  intros [= <- <- <- <-]. split; [|done].
  eapply inv_restage with (es := []); try done; split; try done; try (by apply ops_grow_same); [apply advance_none|by left|set_solver|]. intros i _ _ [= ->]. cbn. set_solver.
Qed.

(** After a worker has been started. *)
Definition started o t n l0 (r : outcome (option nat)) l : Prop :=
  match r with
  | Ok (Some op) => exists ph, (ph = Holding \/ ph = Waiting) /\ l = at_ (Settling ph o t n (Some op) true) l0
  | Ok None => l = l0
  | Raise _ => False
  end.

Lemma wp_settle_async o t n l : settling Holding o t n None false l ->
  WP (settle_token_async_ordered (W := W) o t n) (started o t n l) l.
Proof.
  intros Hl. apply wp_bind, wp_read. intros [|]; [|done]. cbn [negb].
  apply wp_bind, wp_defer; [done|]. intros ph op Hph.
  apply wp_bind, (wp_track_operation ph o t n op); [apply settling_at|]. apply wp_bind, wp_attach. cbn. by exists ph.
Qed.

(** The outcome of a worker call; the right to settle is still held. *)
Definition answered o t n l0 (r : outcome (outcome unit)) l : Prop :=
  match r with
  | Ok ro => exists ph op tr, l = at_ (Settling ph o t n op tr) l0 /\
               (ph = Answered (succeeded ro) \/ ph = Holding)
  | Raise _ => False
  end.

Lemma wp_complete ph o t n op l : settling ph o t n (Some op) true l -> ph = Holding \/ ph = Waiting ->
  WP (complete (W := W) op) (answered o t n l) l.
Proof.
  intros Hl Hph. apply wp_section. intros fr [s w] r l' [s' w'] Hi _. rewrite Hl.
  destruct Hph as [-> | ->]; intros [= <- <- <- <-]; split.
  - rewrite <- (settling_eta _ _ _ _ _ _ _ Hl) at 1.
    eapply inv_restage with (es := []); try done; split; try done; try (by apply ops_grow_same); [apply advance_none|by left|set_solver].
  - exists Holding, (Some op), true. split; [by rewrite settling_eta|by right].
  - eapply inv_restage with (es := [Ended o t n _]); try done; split; try done; try (by apply ops_grow_same); [apply advance_ended|by left|set_solver].
  - eexists _, _, _. split; [done|by left].
Qed.

(** Synchronously. *)
Definition answered_now o t n l0 (r : outcome bool) l : Prop :=
  l = l0 /\ r = Ok false \/
  exists ok, l = at_ (Settling (Answered ok) o t n None false) l0 /\ (match r with Ok b => b = ok | Raise _ => ok = false end).

Lemma wp_settle_token o t n l : reactor = false -> settling Holding o t n None false l ->
  WP (settle_token (W := W) o t n) (answered_now o t n l) l.
Proof.
  intros Hr Hl. apply wp_bind, wp_read. intros [|]; [|by left]. cbn [negb]. apply wp_bind, wp_atomically.
  intros fr [s w] r l' [s' w'] Hi [= <- <- <- <-]. split; [eapply inv_restage with (es := [Began o t n]); try done; split; try done; try (by apply ops_grow_same); [apply advance_began|by left]|].
  clear. apply wp_atomically. intros fr [s w] r l' [s' w'] Hi. unfold end_call.
  destruct (queue_settle n t w) as [ro w1].
  destruct ro as [u|e]; [|destruct (backend_error e)]; intros [= <- <- <- <-];
    (split; [|right; by eexists]);
    (eapply (inv_restage (at_ (Settling Waiting o t n None false) l)) with (es := [Ended o t n _]); try done; split; try done; try (by apply ops_grow_same); [apply advance_ended|by left]).
Qed.

(** *** The sections of a group *)
Definition group_event (ks : list key) g (e : event) h : Prop :=
  match e with
  | Registered g' _ => g' = g /\ ~ exhausted g h /\ e ∉ h
  | Committed g' _ => g' = g
  | Exhausted g' => g' = g /\ KStream g ∈ ks
  | _ => False
  end.

Lemma inv_group l fr s w g gr l' s' w' gr' es : inv (l :: fr) (s, w) -> groups s !! g = Some gr ->
  groups s' = <[g := gr']> (groups s) -> history s' = es ++ history s ->
  meta s' = meta s -> settlement_claims s' = settlement_claims s -> operations s' = operations s ->
  pending_settlements s' = pending_settlements s ->
  (length es <= 1)%nat -> Forall (fun e => group_event (keys l) g e (history s)) es ->
  group_ok g gr' (es ++ history s) -> source_token gr' = source_token gr -> (terminal gr = true -> terminal gr' = true) ->
  (KGroup g ∉ keys l -> settlement_in_progress gr = true -> settlement_in_progress gr' = true) ->
  mine l' s' -> (forall k, k ∈ keys l' -> k ∈ keys l \/ fresh_key k s) ->
  (forall o t, waiting o t l' = waiting o t l) -> (forall q, ~ removing q l) ->
  inv (l' :: fr) (s', w').
Proof.
  intros Hi Hg Hgs Hh Hm Hc Ho Hp Hl1 Hes Hok Hsrc Hterm Hip Hmine Hk Hw Hr.
  pose proof (i_base _ _ Hi) as Hb. cbn in Hb.
  assert (length (groups s') = length (groups s)) as Hlen by (rewrite Hgs; apply length_insert).
  assert (forall g' gr1, groups s' !! g' = Some gr1 -> g' = g /\ gr1 = gr' \/ g' <> g /\ groups s !! g' = Some gr1) as Hlook.
  { intros g' gr1. rewrite Hgs. intros [(-> & -> & _)|[? ?]]%list_lookup_insert_Some; auto. }
  assert (forall o t, in_flight o t (es ++ history s) = in_flight o t (history s)) as Hfl.
  { intros o t. destruct es as [|e [|]]; [done| |cbn in Hl1; lia]. apply Forall_cons in Hes as [He _]. by destruct e. }
  apply (settling_inv_step l fr s w); [done|..].
  - destruct es as [|e [|]]; [| |cbn in Hl1; lia]; cbn in Hh.
    + apply (base_same s); [done|done|lia|by rewrite Hm|]. intros g' gr1 [[-> ->]|[_ ?]]%Hlook; [done|by apply Hb].
    + apply Forall_cons in Hes as [He _].
      assert (event_group e = Some g) as Heg by (destruct e; cbn in He |- *; naive_solver).
      apply (base_event s s' e); [done|done| | |lia|by rewrite Hm| |].
      * by destruct e as [g0 i0| | | |]; cbn in He |- *; [destruct He as (-> & ? & ?)|..].
      * intros g' Hg'. rewrite Heg in Hg'. injection Hg' as <-. rewrite Hlen. by eapply lookup_lt_Some.
      * intros g' gr1 [[-> ->]|[_ ?]]%Hlook Hne; [done|by apply Hb].
      * intros g' gr1 [[-> ->]|[Hne ?]]%Hlook He'; [done|]. rewrite Heg in He'. by injection He'.
  - done.
  - split.
    + intros g' gr1 Hg1. rewrite Hgs. destruct (decide (g' = g)) as [->|Hne].
      * rewrite Hg in Hg1. injection Hg1 as <-. exists gr'. rewrite list_lookup_insert_eq by (by eapply lookup_lt_Some).
        split_and!; [done|done|done|]. intros Hn. apply Hip. intros Hin. apply Hn. apply elem_of_app. by left.
      * exists gr1. by rewrite list_lookup_insert_ne.
    + by apply ops_grow_same.
    + by rewrite Hp.
    + by rewrite Hc.
    + exists es. split_and!; [done|done|]. eapply Forall_impl; [exact Hes|]. intros e He. destruct e; cbn in He |- *; try done.
      * by destruct He as (-> & ? & _).
      * destruct He as [-> ?]. apply elem_of_app. by left.
  - done.
  - intros o t. by rewrite Hh, Hfl, Hw.
  - by rewrite Hm.
  - intros _ q Hq. right. right. split; [|by intros ?%Hr].
    destruct Hq as (t & n & Hin). exists t, n. rewrite Hh in Hin. apply elem_of_app in Hin as [Hin|?]; [|done].
    rewrite Forall_forall in Hes. by specialize (Hes _ Hin).
Qed.

Lemma alter_insert {A} (f : A -> A) i (xs : list A) x : xs !! i = Some x -> alter f i xs = <[i := f x]> xs.
Proof. revert i. induction xs as [|y xs IH]; intros [|i]; cbn; intros H; simplify_eq; [done|]. f_equal. by apply IH. Qed.

(** The end of a settlement. *)
Definition releases (f : group -> group) ph n : Prop := forall gr,
  source_token (f gr) = source_token gr /\ (terminal gr = true -> terminal (f gr) = true) /\ sealed (f gr) = sealed gr /\ next_child (f gr) = next_child gr /\
  (pending (f gr) = pending gr \/ terminal (f gr) = true) /\
  (n = false -> ph = Answered true -> terminal (f gr) = true \/ settlement_in_progress (f gr) = settlement_in_progress gr).

Lemma settled_releases n ok ph : (ph = Answered ok \/ ph = Holding) -> releases (settled n ok) ph n.
Proof.
  intros Hph gr. unfold settled. destruct ok, n; cbn; split_and!; auto; intros Hn ->; first [done|by destruct Hph].
Qed.
Lemma settled_by_releases op n ok ph : (ph = Answered ok \/ ph = Holding) -> releases (settled_by op n ok) ph n.
Proof.
  intros Hph gr. unfold settled_by. case_bool_decide; [|by split_and!; auto].
  destruct (settled_releases n ok ph Hph (gr <| settlement_operation := None |>)) as (H0 & H1 & H2 & H3 & H4 & H5). by split_and!.
Qed.

Definition finished ph : Prop := ph = Holding \/ exists ok, ph = Answered ok.

Lemma wp_finish f g ph t n op tr l Q : settling ph (ByGroup g) t n op tr l -> finished ph -> releases f ph n ->
  Q (Ok tt) (at_ Idle l) -> WP (atomically (update (W := W) (at_ Idle) (on_group g f))) Q l.
Proof.
  intros Hl Hph Hf HQ. apply wp_atomically. intros fr [s w] o l' [s' w'] Hi [= <- <- <- <-]. split; [|done].
  pose proof (inv_head _ _ _ _ Hi) as [Hm _]. pose proof (proj1 Hm) as Hs. rewrite Hl in Hs.
  destruct Hs as [((gr & Hg & Hip) & Hk & _) _]. destruct (Hf gr) as (F0 & F1 & F2 & F3 & F4 & F5).
  pose proof (b_groups _ (i_base _ _ Hi) g gr Hg) as [H1 H2 H3 H4 H5]. cbn in H1, H2, H3, H4, H5.
  apply (inv_group l fr s w g gr (at_ Idle l) _ w (f gr) []); try done; [by apply alter_insert|cbn; lia|..].
  - cbn. split.
    + intros Ha. destruct Hph as [->|[ok ->]]; cbn in Hk; [by destruct Hk as [? _]|]. destruct (Hk Ha) as [-> ->].
      destruct (F5 eq_refl eq_refl) as [?|E]; [by left|right; by rewrite E].
    + auto.
    + intros i Hterm. destruct F4 as [->|F4]; [|congruence]. apply H3. destruct (terminal gr); [by rewrite F1 in Hterm|done].
    + by rewrite F2.
    + by rewrite F3.
  - intros Hn. destruct Hn. eapply claim_held; [done|]. by left.
  - split; [done|]. apply (stream_ok_mono l s); [done|done| |done]. cbn. by rewrite length_alter.
  - intros k Hk'. left. rewrite (keys_settling _ _ _ _ _ _ _ Hl). apply elem_of_app. by right.
  - intros o t'. unfold waiting. rewrite Hl. by destruct Hph as [->|[ok ->]].
  - intros q (t' & n' & op' & tr' & E). rewrite Hl in E. by simplify_eq.
Qed.

(** Publishing the operation of a group. *)
Lemma wp_register_operation g ph t n op tr op' l Q : settling ph (ByGroup g) t n op tr l -> Q (Ok tt) l ->
  WP (atomically (update (W := W) id (on_group g (fun gr => gr <| settlement_operation := Some op' |>)))) Q l.
Proof.
  intros Hl HQ. apply wp_atomically. intros fr [s w] o l' [s' w'] Hi [= <- <- <- <-]. split; [|done].
  pose proof (inv_head _ _ _ _ Hi) as [Hm _]. pose proof (proj1 Hm) as Hs. rewrite Hl in Hs.
  destruct Hs as [((gr & Hg & Hip) & Hk & _) _].
  pose proof (b_groups _ (i_base _ _ Hi) g gr Hg) as [H1 H2 H3 H4 H5].
  apply (inv_group l fr s w g gr l _ w (gr <| settlement_operation := Some op' |>) []); try done; [by apply alter_insert|cbn; lia| |by left|].
  - apply (mine_change l s _ []); [done| |intros k _ Hk'; by apply elem_of_nil in Hk'].
    split; try done; try (by apply ops_grow_same); [|exists []; split_and!; [done|cbn; lia|constructor]].
    intros g' gr1 Hg'. cbn. destruct (decide (g' = g)) as [->|Hne].
    + rewrite Hg in Hg'. injection Hg' as <-. exists (gr <| settlement_operation := Some op' |>). split; [|done].
      cbn. by rewrite list_lookup_alter_eq, Hg.
    + rewrite list_lookup_alter_ne by done. by exists gr1.
  - intros q (t' & n' & op1 & tr' & E). rewrite Hl in E. by simplify_eq.
Qed.

(** Settling the source, synchronously or not. *)
Lemma wp_source g (p : nat -> prog local (sched * W) unit) ph t n op tr l Q : settling ph (ByGroup g) t n op tr l -> WP (p t) Q l ->
  WP (pbind (read (source_of g)) p) Q l.
Proof.
  intros Hl HQ. apply wp_bind, wp_atomically. intros fr [s w] o l' [s' w'] Hi [= <- <- <- <-]. split; [done|].
  pose proof (inv_head _ _ _ _ Hi) as [[Hs _] _]. rewrite Hl in Hs. destruct Hs as [(_ & _ & _ & Hsrc) _]. cbn. by rewrite Hsrc.
Qed.

Lemma finish_failed ph n : ph = Holding \/ ph = Answered false ->
  releases (fun gr => gr <| settlement_in_progress := false |>) ph n.
Proof. intros Hph gr. split_and!; auto. intros _ ->. by destruct Hph. Qed.

Lemma wp_settle_source g n t l : settling Holding (ByGroup g) t n None false l ->
  WP (settle_source (W := W) reactor g n) (fun _ l' => l' = at_ Idle l) l.
Proof.
  intros Hl. unfold settle_source. eapply wp_source; [done|]. destruct reactor eqn:Hr.
  - apply wp_try. eapply wp_mono; [|by apply wp_settle_async]. intros [[op|]|e] l1 Hs; cbn in Hs; [|subst|done].
    + destruct Hs as (ph & Hph & ->). eapply wp_bind, wp_register_operation; [apply settling_at|].
      apply wp_bind. eapply wp_mono; [|eapply wp_complete; [apply settling_at|done]].
      intros [ro|e] l1 Ha; cbn in Ha; [|done]. destruct Ha as (ph1 & op1 & tr1 & -> & Hph1).
      eapply wp_finish; [apply settling_at| |by apply settled_by_releases|done].
      destruct Hph1 as [->| ->]; [right; by eexists|by left].
    + eapply wp_finish; [done|by left|by apply finish_failed; left|done].
  - apply wp_try. eapply wp_mono; [|by apply wp_settle_token].
    intros r l1 [[-> ->]|(ok & -> & Hro)].
    + eapply wp_finish; [done|by left|by apply settled_releases; right|done].
    + destruct r as [b|e]; subst.
      * eapply wp_finish; [apply settling_at|right; by eexists|by apply settled_releases; left|done].
      * eapply wp_bind, wp_finish; [apply settling_at|right; by eexists|by apply finish_failed; right|done].
Qed.

(** The critical sections that may decide to settle. *)
Definition decides f g n (e : list event) l : Prop := forall gr h, group_ok g gr h ->
  let '(settle, gr') := f gr in
  (length e <= 1)%nat /\ Forall (fun x => group_event (keys l) g x h) e /\
  group_ok g gr' (e ++ h) /\ source_token gr' = source_token gr /\ (terminal gr = true -> terminal gr' = true) /\
  (settlement_in_progress gr = true -> settle = false) /\ (settlement_in_progress gr = true -> settlement_in_progress gr' = true) /\
  (settle = true -> settlement_in_progress gr' = true /\ may_begin g n (e ++ h) /\ (n = true -> terminal gr' = true)).

(** The locals of a call between two sections; it is adding to the group [g]. *)
Definition calm (g : option nat) l : Prop := l = Local Idle g.
Definition decided g n (mine' : option nat) (r : outcome bool) l : Prop :=
  match r with
  | Ok true => exists t, l = Local (Settling Holding (ByGroup g) t n None false) mine'
  | Ok false => l = Local Idle mine'
  | Raise _ => False
  end.

Lemma inv_drop_stream l fr s w m : calm m l -> inv (l :: fr) (s, w) -> inv (Local Idle None :: fr) (s, w).
Proof.
  intros -> Hi. apply (settling_inv_step (Local Idle m) fr s w); try done.
  - apply (i_base _ _ Hi).
  - apply change_ops; try done; try (by apply ops_grow_same). exists []. split_and!; [done|cbn; lia|constructor].
  - intros k Hk. by apply elem_of_nil in Hk.
  - intros Hr q Hq. right. right. split; [done|]. by intros (? & ? & ? & ? & ?).
Qed.

Lemma exhausted_app e h g : exhausted g (e ++ h) -> Exhausted g ∉ e -> exhausted g h.
Proof. unfold exhausted. rewrite elem_of_app. tauto. Qed.

Lemma decide_step f g n e mine0 mine1 l fr x r l' y : calm mine0 l -> decides f g n e l ->
  (mine1 = mine0 /\ forall g', Exhausted g' ∉ e) \/ mine1 = None ->
  inv (l :: fr) x -> decide_settlement (W := W) g n f e (l, x) = (r, (l', y)) ->
  inv (l' <| my_group := mine1 |> :: fr) y /\ decided g n mine1 r (l' <| my_group := mine1 |>) /\ my_group l' = mine0.
Proof.
  intros -> Hd Hm1. destruct x as [s w]. intros Hi. cbn.
  pose proof (inv_head _ _ _ _ Hi) as [Hm _]. destruct (groups s !! g) as [gr|] eqn:Hg.
  2: { intros [= <- <- <-]. split; [|done]. destruct Hm1 as [[-> _]| ->]; [done|by eapply inv_drop_stream]. }
  pose proof (b_groups _ (i_base _ _ Hi) g gr Hg) as Hok. specialize (Hd gr (history s) Hok). cbn in Hd.
  destruct (f gr) as [settle gr'] eqn:Ef. destruct Hd as (D1 & D2 & D3 & D4 & D5 & D6 & D7 & D8).
  intros [= <- <- <-]. split; [|destruct settle; cbn; by eauto].
  assert (forall st, stream_ok (Local st mine1) (s <| groups ::= <[g := gr']> |> <| history ::= app e |>)) as Hst.
  { intros st. destruct Hm1 as [[-> He]| ->]; [|done]. apply (stream_ok_mono (Local Idle mine0) s); [done|done| |].
    - cbn. by rewrite length_insert.
    - intros g' Hx. by apply (exhausted_app e); [|apply He]. }
  apply (inv_group (Local Idle mine0) fr s w g gr _ _ w gr' e); try done.
  - split; [|by destruct settle; apply Hst]. destruct settle; [|done]. destruct (D8 eq_refl) as (P1 & P2 & P3). cbn. split; [|done].
    assert (<[g:=gr']> (groups s) !! g = Some gr') as Hg' by (apply list_lookup_insert_eq; by eapply lookup_lt_Some).
    split_and!; [by exists gr'|done|exists gr'; by auto|]. unfold source_of. cbn. by rewrite Hg'.
  - intros k Hk. destruct settle; cbn in Hk.
    + apply elem_of_cons in Hk as [->|Hk].
      * right. exists gr. split; [done|]. destruct (settlement_in_progress gr); [by specialize (D6 eq_refl)|done].
      * left. destruct Hm1 as [[-> _]| ->]; [done|by apply elem_of_nil in Hk].
    + left. destruct Hm1 as [[-> _]| ->]; [done|by apply elem_of_nil in Hk].
  - intros o t. by destruct settle.
  - by intros q (? & ? & ? & ? & ?).
Qed.

Lemma wp_decide f g n e m l : calm m l -> decides f g n e l -> (forall g', Exhausted g' ∉ e) ->
  WP (atomically (decide_settlement (W := W) g n f e)) (decided g n m) l.
Proof.
  intros Hl Hd He. apply wp_atomically. intros fr x r l' y Hi E.
  destruct (decide_step f g n e m m l fr x r l' y) as (H1 & H2 & H3); [done|done|by left|done|done|].
  replace (l' <| my_group := m |>) with l' in H1, H2; [done|]. destruct l'. cbn in *. by subst.
Qed.

(** A section that does not settle. *)
Ltac undecided Hok := split_and!; [cbn; lia|by repeat constructor|apply Hok; auto|try done; auto..].

Lemma accept_decides g i m : decides (accept_locked i) g false [Committed g i] (Local Idle m).
Proof.
  intros gr h [H1 H2 H3 H4 H5]. unfold accept_locked.
  assert (forall gr', terminal gr' = terminal gr -> settlement_in_progress gr' = settlement_in_progress gr \/ settlement_in_progress gr' = true ->
    sealed gr' = sealed gr -> next_child gr' = next_child gr -> (forall j, j ∈ pending gr -> j = i \/ j ∈ pending gr') ->
    group_ok g gr' ([Committed g i] ++ h)) as Hok.
  { intros gr' E1 E2 E3 E4 E5. cbn. split.
    - intros (t & Hin). new_event. rewrite E1. destruct (H1 (ex_intro _ t Hin)); [by left|right]. by destruct E2 as [-> | ->].
    - intros (t & Hin). new_event. rewrite E1. by apply H2; exists t.
    - intros j Ht Hin. new_event. rewrite E1 in Ht. destruct (H3 j Ht Hin) as [Hj|Hj]; [|by right; right].
      destruct (E5 j Hj) as [->|?]; [right; by left|by left].
    - intros Hs. right. apply H4. congruence.
    - intros j Hin. new_event. rewrite E4. by apply H5. }
  assert (group_event (keys (Local Idle m)) g (Committed g i) h) as He by done.
  destruct (terminal gr) eqn:Et; cbn [orb]; [undecided Hok|].
  destruct (bool_decide_reflect (i ∈ pending gr)) as [Hi|]; cbn [negb]; [|undecided Hok].
  destruct (negb (sealed gr) || (1 <? size (pending gr))%nat) eqn:Es.
  - split_and!; [cbn; lia|by repeat constructor| |try done; auto..]. apply Hok; auto. intros j Hj. destruct (decide (j = i)); [by left|right]. cbn. set_solver.
  - apply orb_false_elim in Es as [Es%negb_false_iff Ez%Nat.ltb_ge].
    destruct (settlement_in_progress gr) eqn:Ep; [undecided Hok|].
    split_and!; [cbn; lia|by repeat constructor|apply Hok; auto|done|done|done|done|]. intros _. split_and!; [done| |done].
    unfold may_begin. split_and!.
    + intros (t & Hin). cbn in Hin. new_event. destruct (H1 (ex_intro _ t Hin)); congruence.
    + intros (t & Hin). cbn in Hin. new_event. by specialize (H2 (ex_intro _ t Hin)).
    + intros _. split; [right; by apply H4|]. intros j Hin. cbn in Hin. new_event. destruct (H3 j eq_refl Hin) as [Hj|Hj]; [|by right].
      assert (size (pending gr) <> 0%nat) by (apply size_non_empty_iff; set_solver).
      assert (j = i) as -> by (by apply (size_singleton_inv (pending gr)); [lia|..]).
      by left.
Qed.

Lemma seal_decides g : decides seal_locked g false [Exhausted g] (Local Idle (Some g)).
Proof.
  intros gr h [H1 H2 H3 H4 H5]. unfold seal_locked.
  assert (forall gr', terminal gr' = terminal gr -> settlement_in_progress gr' = settlement_in_progress gr \/ settlement_in_progress gr' = true ->
    next_child gr' = next_child gr -> pending gr' = pending gr -> group_ok g gr' ([Exhausted g] ++ h)) as Hok.
  { intros gr' E1 E2 E4 E5. cbn. split.
    - intros (t & Hin). new_event. rewrite E1. destruct (H1 (ex_intro _ t Hin)); [by left|right]. by destruct E2 as [-> | ->].
    - intros (t & Hin). new_event. rewrite E1. by apply H2; exists t.
    - intros j Ht Hin. new_event. rewrite E1 in Ht. rewrite E5. destruct (H3 j Ht Hin); [by left|by right; right].
    - intros _. by left.
    - intros j Hin. new_event. rewrite E4. by apply H5. }
  assert (Forall (fun x => group_event (keys (Local Idle (Some g))) g x h) [Exhausted g]) as He
    by (repeat constructor; by left).
  destruct (terminal gr) eqn:Et; [split_and!; [cbn; lia|done|apply Hok; auto|try done; auto..]|].
  destruct (bool_decide_reflect (pending (gr <| sealed := true |>) = ∅)) as [Hp|]; cbn [andb].
  2: { split_and!; [cbn; lia|done|apply Hok; auto|try done; auto..]. }
  destruct (settlement_in_progress (gr <| sealed := true |>)) eqn:Ep; cbn [negb].
  { split_and!; [cbn; lia|done|apply Hok; auto|try done; auto..]. }
  cbn in Ep, Hp. split_and!; [cbn; lia|done|apply Hok; auto|try done; auto..]; [by rewrite Ep|].
  intros _. split_and!; [done| |done]. unfold may_begin. split_and!.
  - intros (t & Hin). cbn in Hin. new_event. destruct (H1 (ex_intro _ t Hin)); congruence.
  - intros (t & Hin). cbn in Hin. new_event. by specialize (H2 (ex_intro _ t Hin)).
  - intros _. split; [by left|]. intros j Hin. cbn in Hin. new_event. destruct (H3 j eq_refl Hin) as [Hj|Hj]; [set_solver|by right].
Qed.

Lemma abort_decides g m : decides abort_locked g true [] (Local Idle m).
Proof.
  intros gr h Hok. pose proof Hok as [H1 H2 H3 H4 H5]. unfold abort_locked.
  destruct (terminal gr) eqn:Et; [split_and!; [cbn; lia|done|done|try done; auto..]|].
  destruct (settlement_in_progress gr) eqn:Ep; split_and!; try done; try (cbn; lia); try (cbn; split; cbn; by auto).
  intros _. split_and!; [done| |done]. unfold may_begin. cbn. split_and!; [|naive_solver|done].
  intros Ha. destruct (H1 Ha); done.
Qed.

Lemma wp_settle_if g n m (b : outcome bool) l : decided g n m b l ->
  WP (match b with Ok true => settle_source (W := W) reactor g n | Ok false => pret tt | Raise e => praise e end) (fun _ => calm m) l.
Proof.
  destruct b as [[|]|e]; [|by intros ->|done]. intros (t & ->).
  eapply wp_mono; [|by eapply wp_settle_source]. intros o l' ->. done.
Qed.

Lemma wp_accept g i m l : calm m l -> WP (accept (W := W) reactor g i) (fun _ => calm m) l.
Proof.
  intros Hl. apply wp_bind. eapply wp_mono; [|apply wp_decide; [done| |]].
  - intros b l1 Hd. destruct b as [b|e]; [|done]. pose proof (wp_settle_if g false m (Ok b) l1 Hd). by destruct b.
  - rewrite Hl. apply accept_decides.
  - intros g' Hin. apply list_elem_of_singleton in Hin. done.
Qed.

Lemma wp_abort g m l : calm m l -> WP (abort (W := W) reactor g) (fun _ => calm m) l.
Proof.
  intros Hl. apply wp_bind. eapply wp_mono; [|apply wp_decide; [done| |]].
  - intros b l1 Hd. destruct b as [b|e]; [|done]. pose proof (wp_settle_if g true m (Ok b) l1 Hd). by destruct b.
  - rewrite Hl. apply abort_decides.
  - intros g' Hin. by apply elem_of_nil in Hin.
Qed.

Lemma wp_seal g l : calm (Some g) l -> WP (seal (W := W) reactor g) (fun _ => calm None) l.
Proof.
  intros Hl. apply wp_bind, wp_atomically. intros fr x r l' y Hi.
  destruct (decide_settlement g false seal_locked [Exhausted g] (l, x)) as [r1 [l1 y1]] eqn:E. intros [= <- <- <-].
  destruct (decide_step seal_locked g false [Exhausted g] (Some g) None l fr x r1 l1 y1) as (H1 & H2 & _); try done.
  - rewrite Hl. apply seal_decides.
  - by right.
  - split; [done|]. destruct r1 as [b|e]; [|done]. pose proof (wp_settle_if g false None (Ok b) _ H2). by destruct b.
Qed.

(** *** The stream of an errback *)
Lemma wp_new_child g l Q : calm (Some g) l -> (forall c, Q (Ok c) l) -> WP (atomically (new_child (W := W) g)) Q l.
Proof.
  intros Hl HQ. unfold calm in Hl. subst l. apply wp_atomically. intros fr [s w] r l' [s' w'] Hi. unfold new_child.
  pose proof (inv_head _ _ _ _ Hi) as [[_ [Hlt Hne]] _]. destruct (groups s !! g) as [gr|] eqn:Hg; [|intros [= <- <- <- <-]; split; [done|apply HQ]].
  pose proof (b_groups _ (i_base _ _ Hi) g gr Hg) as [H1 H2 H3 H4 H5]. cbn in H1, H2, H3, H4, H5.
  unfold new_child_locked. destruct (terminal gr) eqn:Et; intros [= <- <- <- <-]; (split; [|apply HQ]).
  - apply (inv_group (Local Idle (Some g)) fr s w g gr _ _ w gr []); try done; [cbn; lia|by split; rewrite ?Et| |by left|by intros q (? & ? & ? & ? & ?)].
    split; [done|]. cbn. by rewrite length_insert.
  - eapply (inv_group (Local Idle (Some g)) fr s w g gr _ _ w _ [Registered g (next_child gr)]); try done; [| | |by left|by intros q (? & ? & ? & ? & ?)].
    + repeat constructor; [done|]. intros Hin%H5. lia.
    + split; cbn.
      * intros (t & Hin). new_event. rewrite Et. by apply H1; exists t.
      * intros (t & Hin). new_event. rewrite Et. by apply H2; exists t.
      * intros j _ Hin. new_event; [left; set_solver|]. destruct (H3 j eq_refl Hin); [left; set_solver|right; by right].
      * intros Hs. right. by apply H4.
      * intros j Hin. new_event; [lia|]. specialize (H5 j Hin). lia.
    + split; [done|]. cbn. rewrite length_insert. split; [done|]. intros Hin. by apply elem_of_new in Hin.
Qed.

Lemma wp_new_group q l Q : calm None l -> (forall g t, Q (Ok (Some (g, t))) (Local Idle (Some g))) -> Q (Ok None) l ->
  WP (new_group (W := W) q) Q l.
Proof.
  intros Hl HQ HQ'. unfold calm in Hl. subst l. apply wp_bind, wp_read. intros [t|]; [|done]. apply wp_atomically.
  intros fr [s w] r l' [s' w'] Hi [= <- <- <- <-]. split; [|by apply HQ].
  pose proof (i_base _ _ Hi) as Hb. cbn in Hb.
  assert (group_ok (length (groups s)) (group_init t) (history s)) as Hnew.
  { assert (forall e, e ∈ history s -> event_group e <> Some (length (groups s))) as Hno.
    { intros e He Hg. pose proof (b_events _ Hb _ _ He Hg). lia. }
    split; cbn.
    - intros (t' & Hin). by destruct (Hno _ Hin).
    - intros (t' & Hin). by destruct (Hno _ Hin).
    - intros j _ Hin. by destruct (Hno _ Hin).
    - done.
    - intros j Hin. by destruct (Hno _ Hin). }
  apply (settling_inv_step (Local Idle None) fr s w); try done.
  - apply (base_same s); cbn; [done|done|rewrite length_app; lia|apply delete_subseteq|].
    intros g gr [Hg|[Hle Hg]]%lookup_app_Some; [by apply Hb|].
    apply list_lookup_singleton_Some in Hg as [E <-]. assert (g = length (groups s)) as -> by lia. done.
  - split; [done|]. cbn. rewrite length_app. cbn. split; [lia|]. intros Hin. pose proof (b_events _ Hb _ _ Hin eq_refl). lia.
  - split; try done; try (by apply ops_grow_same); [|exists []; split_and!; [done|cbn; lia|constructor]].
    intros g gr Hg. exists gr. cbn. split_and!; try done. rewrite lookup_app_l; [done|by eapply lookup_lt_Some].
  - intros k Hk. right. apply list_elem_of_singleton in Hk as ->. cbn. lia.
  - apply delete_subseteq.
  - intros _ q' Hq. right. right. split; [done|]. by intros (? & ? & ? & ? & ?).
Qed.

Lemma wp_attach_replacement g t existing l : calm (Some g) l ->
  WP (attach_replacement (W := W) reactor g t existing) (fun _ => calm (Some g)) l.
Proof.
  intros Hl. unfold attach_replacement. case_bool_decide.
  - by apply wp_bind, wp_new_child.
  - apply wp_bind. eapply wp_mono; [|by apply wp_abort]. intros [u|e] l1 Hl1; [|done].
    apply wp_unchanged; [|done]. intros s. same_ops.
Qed.

(** *** The token of a request *)
Lemma claimed_fresh q t l fr s w : reactor = true -> inv (l :: fr) (s, w) -> ~ removing q l ->
  meta s !! q = Some t -> t ∉ settlement_claims s -> tokens !! q = Some t /\ ~ signalled q (history s).
Proof.
  intros Hr Hi Hl Hm Hc. pose proof (lookup_weaken _ _ _ _ Hm (b_meta _ (i_base _ _ Hi))) as Ht. split; [done|]. intros Hs.
  destruct (i_signalled _ _ Hi Hr q Hs) as [E|[?|Hx]%Exists_cons]; [cbn in E; congruence|done|].
  apply Exists_exists in Hx as (x & Hx & t' & n & op & tr & E). pose proof (i_mine _ _ Hi) as Hall.
  apply Forall_cons in Hall as [_ Hall]. rewrite Forall_forall in Hall. destruct (Hall _ Hx) as [Hm' _]. rewrite E in Hm'.
  destruct Hm' as [Hm' _]. destruct (Hm' Hr) as (Hc' & Ht' & _). cbn in Ht', Hc'. by simplify_eq.
Qed.

Lemma wp_claim q t n m l Q : calm m l -> Q (Ok true) (Local (Settling Holding (BySignal q) t n None false) m) -> Q (Ok false) l ->
  WP (atomically (claim (W := W) q t n)) Q l.
Proof.
  intros Hl HQ HQ'. unfold calm in Hl. subst l. apply wp_atomically. intros fr [s w] r l' [s' w'] Hi. unfold claim.
  destruct (bool_decide_reflect (meta s !! q = Some t)) as [Hm|]; cbn [andb]; [|by intros [= <- <- <- <-]].
  destruct (bool_decide_reflect (t ∈ settlement_claims s)) as [|Hc]; cbn [negb]; [by intros [= <- <- <- <-]|].
  intros [= <- <- <- <-]. split; [|done]. pose proof (inv_head _ _ _ _ Hi) as [Hmine _].
  apply (settling_inv_step (Local Idle m) fr s w); try done.
  - by apply (base_same s); [apply (i_base _ _ Hi)|..|apply (i_base _ _ Hi)].
  - split; [|by apply (stream_ok_mono (Local Idle m) s)]. cbn. split; [|done]. intros Hr.
    destruct (claimed_fresh q t _ _ _ _ Hr Hi) as [? ?]; [by intros (? & ? & ? & ? & ?)|done|done|]. split_and!; [set_solver|done|done].
  - apply change_ops; try done; try (by apply ops_grow_same); [intros t' ? _; cbn; set_solver|]. exists []. split_and!; [done|cbn; lia|constructor].
  - intros k Hk. unfold keys in Hk. cbn in Hk. rewrite app_nil_r in Hk. apply elem_of_app in Hk as [Hk|Hk]; [right|by left].
    destruct reactor; [|by apply elem_of_nil in Hk]. apply list_elem_of_singleton in Hk as ->. done.
  - intros _ q' Hq. right. right. split; [done|]. by intros (? & ? & ? & ? & ?).
Qed.

(** The claim ends: the token stays on the request, or has been removed. *)
Lemma wp_unclaim f ph q t n op tr l Q : reactor = true -> settling ph (BySignal q) t n op tr l -> finished ph ->
  (forall s, f s = s \/ f s = remove_request_token_if_same q t s) ->
  (ph = Answered true -> forall s, f s = remove_request_token_if_same q t s) -> Q (Ok tt) (at_ Idle l) ->
  WP (atomically (update (W := W) (at_ Idle) (fun s => f s <| settlement_claims ::= fun c => c ∖ {[ t ]} |>))) Q l.
Proof.
  intros Hr Hl Hph Hf Hf' HQ. apply wp_atomically. intros fr [s w] r l' [s' w'] Hi [= <- <- <- <-]. split; [|done].
  pose proof (inv_head _ _ _ _ Hi) as [Hm _]. pose proof (proj1 Hm) as Hs. rewrite Hl in Hs. destruct Hs as [Hs _].
  destruct (Hs Hr) as (Hc & Ht & _). cbn in Ht.
  assert (same_but_ops s (f s) /\ meta (f s) ⊆ meta s /\ pending_settlements (f s) = pending_settlements s /\
          settlement_claims (f s) = settlement_claims s) as ((Hg & Hh & Ho) & Hmeta & Hp & Hcl).
  { destruct (Hf s) as [-> | ->]; [same_ops|]. unfold remove_request_token_if_same. case_bool_decide; [|same_ops].
    same_ops. apply delete_subseteq. }
  apply (settling_inv_step l fr s w); try done.
  - apply (base_same s); cbn; [apply (i_base _ _ Hi)|done|by rewrite Hg|done|]. intros g gr. rewrite Hg. apply (i_base _ _ Hi).
  - split; [done|]. apply (stream_ok_mono l s); cbn; [done|done|by rewrite Hg|by rewrite Hh].
  - apply change_ops; cbn; [done|done|by rewrite Hp| |].
    + intros t' Ht' Hn. rewrite Hcl. apply elem_of_difference. split; [done|]. intros ->%elem_of_singleton. apply Hn.
      apply elem_of_app. left. eapply claim_held; [done|]. cbn. rewrite Hr. by left.
    + exists []. rewrite Hh. split_and!; [done|cbn; lia|constructor].
  - intros k Hk. left. rewrite (keys_settling _ _ _ _ _ _ _ Hl). apply elem_of_app. by right.
  - intros o t'. cbn. rewrite Hh. unfold waiting. rewrite Hl. by destruct Hph as [->|[ok ->]].
  - intros _ q'. cbn. rewrite Hh. intros Hq. right. right. split; [done|]. intros (t' & n' & op' & tr' & E). rewrite Hl in E.
    simplify_eq. left. rewrite Hf' by done. unfold remove_request_token_if_same. case_bool_decide as Hd; cbn; [apply lookup_delete_eq|].
    destruct (meta s !! q') as [t0|] eqn:E0; [|done].
    pose proof (lookup_weaken _ _ _ _ E0 (b_meta _ (i_base _ _ Hi))). congruence.
Qed.

(** Without a reactor a signal claims nothing. *)
Lemma inv_hold q t n m fr x : reactor = false -> inv (Local Idle m :: fr) x ->
  inv (Local (Settling Holding (BySignal q) t n None false) m :: fr) x.
Proof.
  intros Hr. destruct x as [s w]. intros Hi. pose proof (inv_head _ _ _ _ Hi) as [Hm _].
  apply (settling_inv_step (Local Idle m) fr s w); try done.
  - apply (i_base _ _ Hi).
  - split; [|apply Hm]. cbn. split; [|done]. congruence.
  - apply change_ops; try done; try (by apply ops_grow_same). exists []. split_and!; [done|cbn; lia|constructor].
  - intros k Hk'. left. unfold keys in Hk'. cbn in Hk'. by rewrite Hr in Hk'.
  - congruence.
Qed.

Lemma wp_settle_sync q t n m : reactor = false ->
  WP (settle_token (W := W) (BySignal q) t n) (fun _ _ => True) (Local Idle m).
Proof.
  intros Hr. apply wp_bind, wp_read. intros [|]; [|done]. cbn [negb]. apply wp_bind, wp_atomically.
  intros fr [s w] r l' [s' w'] Hi [= <- <- <- <-].
  apply (inv_hold q t n) in Hi; [|done]. split.
  - by apply (inv_restage (Local (Settling Holding (BySignal q) t n None false) m) fr s w Holding None false (BySignal q) t n
      Waiting None false _ w [Began (BySignal q) t n]); [| |split; [apply advance_began|done|done|done|by apply ops_grow_same|done|left| | |]].
  - clear Hi. apply wp_atomically. intros fr' [s1 w1] r l' [s' w'] Hi. unfold end_call. destruct (queue_settle n t w1) as [ro w2].
    destruct ro as [u|e]; [|destruct (backend_error e)]; intros [= <- <- <- <-]; (split; [|done]);
      (eapply (inv_restage (Local (Settling Waiting (BySignal q) t n None false) m) fr' s1 w1 Waiting None false) with
         (es := [Ended (BySignal q) t n _]); try done; split; try done; try (by apply ops_grow_same); [apply advance_ended|by left]).
Qed.

Lemma release_unclaims t : release_settlement_claim (W := W) t =
  update (at_ Idle) (fun s => id s <| settlement_claims ::= fun c => c ∖ {[ t ]} |>).
Proof. done. Qed.

Lemma wp_release_claim ph q t n op tr l Q : reactor = true -> settling ph (BySignal q) t n op tr l -> ph = Holding \/ ph = Answered false ->
  Q (Ok tt) (at_ Idle l) -> WP (atomically (release_settlement_claim (W := W) t)) Q l.
Proof.
  intros Hr Hl Hph HQ. rewrite release_unclaims. eapply wp_unclaim; try done.
  - destruct Hph as [->| ->]; [by left|right; by eexists].
  - by left.
  - intros ->. by destruct Hph.
Qed.

Lemma wp_settle_request_token q n m l : calm m l -> WP (settle_request_token (W := W) reactor q n) (fun _ _ => True) l.
Proof.
  intros Hl. apply wp_bind, wp_read. intros [t|]; [|done]. destruct reactor eqn:Hr.
  - apply wp_bind. eapply wp_claim; [done| |done]. cbn [negb]. apply wp_try.
    eapply wp_mono; [|by apply wp_settle_async]. intros [[op|]|e] l1 Hs; cbn in Hs; [|subst|done].
    + destruct Hs as (ph & Hph & ->). apply wp_bind. eapply wp_mono; [|eapply wp_complete; [apply settling_at|done]].
      intros [ro|e] l1 Ha; cbn in Ha; [|done]. destruct Ha as (ph1 & op1 & tr1 & -> & Hph1). destruct ro as [u|e].
      * apply wp_bind, wp_read. intros [|]; [|done]. eapply wp_unclaim; [done|apply settling_at| | | |done].
        -- destruct Hph1 as [->| ->]; [right; by eexists|by left].
        -- by right.
        -- done.
      * eapply wp_release_claim; [done|apply settling_at| |done]. by destruct Hph1; [right|left].
    + eapply wp_release_claim; [done|done|by left|done].
  - apply wp_bind. unfold calm in Hl. subst l. eapply wp_mono; [|by apply wp_settle_sync].
    intros [[|]|e] l1 _; try done. apply wp_unchanged; [|done]. intros s. unfold remove_request_token_if_same.
    case_bool_decide; same_ops. apply delete_subseteq.
Qed.

Lemma wp_finish_failure (q : option nat) m l : calm m l -> WP (finish_failure (W := W) reactor q) (fun _ _ => True) l.
Proof. intros Hl. destruct q as [q|]; [by eapply wp_settle_request_token|done]. Qed.

(** The group a stream is adding to. *)
Definition adding (group : option (nat * nat)) l : Prop := calm (fst <$> group) l.

Lemma wp_stream_failed {A} q group e l : adding group l ->
  WP (stream_failed (W := W) reactor (A := A) q group e) (fun _ _ => True) l.
Proof.
  intros Hl. apply wp_bind. destruct group as [[g t]|].
  - eapply wp_mono; [|by apply wp_abort]. by intros [u|x].
  - eapply wp_mono; [|by eapply wp_finish_failure]. by intros [u|x].
Qed.

Lemma wp_transfer q result fin : forall group l, adding group l -> WP (transfer (W := W) reactor q group result fin) (fun _ _ => True) l.
Proof.
  induction result as [|[|existing] result IH]; intros group l Hl; cbn [transfer].
  - destruct fin as [|e]; [|by apply wp_stream_failed]. destruct group as [[g t]|].
    + eapply wp_mono; [|by apply wp_seal]. done.
    + by eapply wp_settle_request_token.
  - by apply IH.
  - apply wp_bind.
    assert (forall g t l1, adding (Some (g, t)) l1 -> WP (ptry (attach_replacement (W := W) reactor g t existing) (fun ro =>
      match ro with Raise e => stream_failed reactor q (Some (g, t)) e | Ok _ => transfer reactor q (Some (g, t)) result fin end))
      (fun _ _ => True) l1) as Hg.
    { intros g t l1 Hl1. apply wp_try. eapply wp_mono; [|by apply wp_attach_replacement].
      intros [u|e] l2 Hl2; [by apply IH|by apply wp_stream_failed]. }
    destruct group as [[g t]|]; [by apply Hg|]. apply wp_new_group; [done| |by apply IH]. intros g t. by apply Hg.
Qed.

Lemma wp_errback (q : option nat) original : WP (errback_call (W := W) reactor q original) (fun _ _ => True) idle.
Proof.
  assert (Hf : WP (finish_failure (W := W) reactor q) (fun _ _ => True) idle) by (by eapply (wp_finish_failure q None)).
  assert (Hfe : forall e, WP (pbind (finish_failure (W := W) reactor q) (fun _ => praise e)) (fun (_ : outcome unit) _ => True) idle).
  { intros e. apply wp_bind. eapply wp_mono; [|exact Hf]. by intros [u|x]. }
  assert (Hs : forall r, WP (finish_success (W := W) reactor q r) (fun _ _ => True) idle).
  { intros [| |existing|items fin]; [done|..]; destruct q as [q|]; try done.
    - by eapply wp_settle_request_token.
    - apply wp_bind, wp_new_group; [done| |done]. intros g t. apply wp_bind.
      eapply wp_mono; [|by apply wp_attach_replacement]. intros [u|e] l1 Hl1; [|done]. eapply wp_mono; [|by apply wp_seal]. done.
    - by apply wp_transfer. }
  destruct original as [[[r|[r|e]]|e]|]; try apply Hs; try apply Hfe. done.
Qed.

Lemma settling_start_safe l p : start (W := W) reactor l p -> wp inv p (fun _ _ => True) l.
Proof.
  intros [q original|q|q|g i|g|op|op| |]; try apply wp_call.
  - apply wp_errback.
  - by eapply wp_settle_request_token.
  - destruct q as [q|]; [by eapply wp_settle_request_token|done].
  - eapply wp_mono; [|by eapply (wp_accept g i None)]. done.
  - eapply wp_mono; [|by eapply (wp_abort g None)]. done.
  - by apply wp_worker.
  - by apply wp_timer.
  - apply wp_bind, wp_read. intros pending. apply wp_section. intros fr x o l' x' Hi _ [= <- <- <-]. done.
  - apply wp_unchanged; [|done]. intros s. same_ops.
Qed.

(** ** Every reachable state *)
Definition reachable (x : pool local (sched * W)) : Prop := exists w, rtc (pstep (start (W := W) reactor)) ([], (init tokens, w)) x.

Lemma settling_inv_init w : inv [] (init tokens, w).
Proof.
  split; cbn; try done; [|by constructor|].
  - split; cbn; try done. intros e g Hin. by apply elem_of_nil in Hin.
  - intros _ q (t & n & Hin). by apply elem_of_nil in Hin.
Qed.

Lemma settling_reachable_inv x : reachable x -> inv (map fst (fst x)) (snd x).
Proof.
  intros [w Hx].
  destruct (safe_pool_steps (start (W := W) reactor) inv settling_inv_perm settling_start_safe) with (x := ([] : list (task local (sched * W)), (init tokens, w))) (y := x) as [Hi _]; [| |done|done].
  - intros l p ls [s w'] Hs Hi. assert (l = idle) as -> by (by inversion Hs). destruct Hi as [H1 H2 H3 H4 H5].
    split; cbn; [done|by constructor|done|done|]. intros Hr q Hq. destruct (H5 Hr q Hq); [by left|right; by constructor].
  - split; [apply settling_inv_init|constructor].
Qed.

Lemma orderly_at later e earlier : orderly (later ++ e :: earlier) -> in_order e earlier.
Proof. induction later as [|e' later IH]; cbn; [by intros [? _]|]. intros [_ ?]. by apply IH. Qed.

Lemma orderly_registered g i later earlier : orderly (later ++ earlier) -> exhausted g earlier ->
  Registered g i ∈ later ++ earlier -> Registered g i ∈ earlier.
Proof.
  intros Ho Hx Hin. apply elem_of_app in Hin as [Hin|?]; [|done]. exfalso.
  apply list_elem_of_split in Hin as (l1 & l2 & ->). rewrite <- app_assoc in Ho. cbn in Ho. apply orderly_at in Ho as [Hn _].
  apply Hn. apply elem_of_app. by right.
Qed.

(** C21. What a group does with the source of an errback stream, in every
    interleaving of streams, pushes, workers, timers, signals and the close of
    the queue: the group starts a broker call only when no other call of the same
    group is in flight; it acknowledges only after its output ended without an
    error and every replacement that was ever given a token had been committed;
    and once the group has refused the source, or acknowledged it with success,
    it starts no further call. (A signal's call that claimed the token before the
    group took it may be in flight beside the group's: [group_ignores_claim].) *)
Theorem source_settled_last x g t n later earlier (Hx : reachable x)
    (Hh : history (fst (snd x)) = later ++ Began (ByGroup g) t n :: earlier) :
  in_flight (ByGroup g) t earlier = 0%nat /\ ~ acked g earlier /\ ~ nacked g earlier /\
  (n = false -> Exhausted g ∈ earlier /\
     forall i, Registered g i ∈ history (fst (snd x)) -> Committed g i ∈ earlier).
Proof.
  pose proof (b_orderly _ (i_base _ _ (settling_reachable_inv x Hx))) as Ho. rewrite Hh in *.
  pose proof (orderly_at _ _ _ Ho) as (H1 & H2 & H3 & H4). split_and!; [done..|]. intros Hn. destruct (H4 Hn) as [He Hc].
  split; [done|]. intros i Hin. apply Hc. apply (orderly_registered g i (later ++ [Began (ByGroup g) t n])); rewrite <- ?app_assoc; done.
Qed.

(** C22. With a running reactor the signals of one token exclude each other: a
    broker call starts only when no signal's call for the token is in flight,
    and never for a request that a signal has settled. *)
Theorem signals_exclusive x q t n later earlier (Hr : reactor = true) (Hx : reachable x)
    (Hh : history (fst (snd x)) = later ++ Began (BySignal q) t n :: earlier) :
  in_flight (BySignal q) t earlier = 0%nat /\ ~ signalled q earlier.
Proof.
  pose proof (b_orderly _ (i_base _ _ (settling_reachable_inv x Hx))) as Ho. rewrite Hh in Ho. by apply (orderly_at _ _ _ Ho).
Qed.

(** ** The barrier

    Where a call stands that has started a worker: its very next section, which
    waits for nothing, enters the operation in the registry. *)
Definition unregistered l : bool := match at_stage l with Settling _ _ _ _ (Some _) false => true | _ => false end.
Definition registers (op : nat) (enabled : local -> sched * W -> bool) (act : local -> sched * W -> local * (sched * W)) l : Prop :=
  forall x, enabled l x = true /\ op ∈ pending_settlements (fst (snd (act l x))).
Definition registers_next l (enabled : local -> sched * W -> bool) act : Prop :=
  match at_stage l with Settling _ _ _ _ (Some op) false => registers op enabled act l | _ => True end.

(** A program that leaves no operation of its own unregistered. *)
Definition rested {A} (r : outcome A) l : Prop := unregistered l = false.
Definition placed {A} (p : prog local (sched * W) A) : Prop := forall l, unregistered l = false -> heads registers_next p rested l.
Definition keeps {A} (m : CM (W := W) A) : Prop := forall l x, unregistered l = false -> unregistered (fst (snd (m (l, x)))) = false.

Lemma rested_next l enabled act : unregistered l = false -> registers_next l enabled act.
Proof. unfold unregistered, registers_next. by destruct (at_stage l) as [|ph o t n [op|] [|]]. Qed.

Lemma placed_done {A} (r : outcome A) : placed (Done r).
Proof. by intros l Hl. Qed.
Lemma placed_try {A B} (p : prog local (sched * W) A) (k : outcome A -> prog local (sched * W) B) :
  placed p -> (forall r, placed (k r)) -> placed (ptry p k).
Proof. intros Hp Hk l Hl. apply heads_try. eapply heads_mono; [|by apply Hp]. intros r l' Hl'. by apply Hk. Qed.
Lemma placed_bind {A B} (p : prog local (sched * W) A) (k : A -> prog local (sched * W) B) :
  placed p -> (forall a, placed (k a)) -> placed (pbind p k).
Proof. intros Hp Hk. apply placed_try; [done|]. intros [a|e]; [apply Hk|apply placed_done]. Qed.
Lemma placed_section {A} enabled (m : CM (W := W) A) : keeps m -> placed (section_when enabled m).
Proof. intros Hm l Hl. split; [by apply rested_next|]. intros x. by apply Hm. Qed.
Lemma placed_atomically {A} (m : CM (W := W) A) : keeps m -> placed (atomically m).
Proof. apply placed_section. Qed.
Lemma placed_pret {A} (a : A) : placed (pret a).
Proof. apply placed_done. Qed.
Lemma placed_praise {A} e : placed (praise (A := A) e).
Proof. apply placed_done. Qed.
Lemma placed_call {A} (p : prog local (sched * W) A) : placed p -> placed (call p).
Proof. intros Hp. apply placed_try; [done|]. intros r. apply placed_done. Qed.

Lemma keeps_update fl fs : (forall l, unregistered l = false -> unregistered (fl l) = false) -> keeps (update fl fs).
Proof. intros Hf l [s w] Hl. by apply Hf. Qed.
Lemma keeps_idle fs : keeps (update (at_ Idle) fs).
Proof. by apply keeps_update. Qed.
Lemma keeps_begin_call o t n : keeps (begin_call o t n).
Proof. by apply keeps_update. Qed.
Lemma keeps_release t : keeps (release_settlement_claim t).
Proof. apply keeps_idle. Qed.
Lemma keeps_complete_claimed q t : keeps (complete_claimed_request_token q t).
Proof. apply keeps_idle. Qed.
Lemma keeps_end_call o t n : keeps (end_call o t n).
Proof. intros l [s w] Hl. cbn. destruct (queue_settle n t w) as [[u|e] w']; [|destruct (backend_error e)]; done. Qed.
Lemma keeps_decide g n f e : keeps (decide_settlement g n f e).
Proof. intros l [s w] Hl. unfold decide_settlement. destruct (groups s !! g) as [gr|]; [|done]. by destruct (f gr) as [[|] gr']. Qed.
Lemma keeps_new_child g : keeps (new_child g).
Proof. intros l [s w] Hl. unfold new_child. destruct (groups s !! g) as [gr|]; [|done]. by destruct (new_child_locked gr). Qed.
Lemma keeps_claim q t n : keeps (claim q t n).
Proof. intros l [s w] Hl. unfold claim. by destruct (_ && _). Qed.

Create HintDb placed.
#[local] Hint Resolve placed_done placed_try placed_bind placed_atomically placed_pret placed_praise placed_call keeps_update keeps_idle keeps_begin_call keeps_end_call keeps_release keeps_complete_claimed
  keeps_decide keeps_new_child keeps_claim : placed.

Lemma placed_read {A} (f : sched -> A) : placed (read f).
Proof. apply placed_section. by intros l x Hl. Qed.
#[local] Hint Resolve placed_read : placed.

Lemma placed_settle_async o t n : placed (settle_token_async_ordered o t n).
Proof.
  apply placed_bind; [apply placed_read|]. intros [|]; cbn [negb]; [|apply placed_done]. intros l Hl. cbn.
  split; [by apply rested_next|]. intros [s w]. unfold defer_to_thread_ordered, track, attach, update.
  destruct (submit_thread w) as [[u|e] w1]; [destruct (start_timer w1) as [timer w2]|]; cbn;
    (split; [intros [s1 w3]; cbn; split; [done|set_solver]|intros [s1 w3]; cbn; split; [done|by intros [s2 w4]]]).
Qed.
Lemma placed_complete op : placed (complete op).
Proof.
  apply placed_section. intros l [s w] Hl. cbn. unfold unregistered in *.
  by destruct (at_stage l) as [|[| |ok] o t n [op'|] [|]] eqn:E; cbn; rewrite ?E.
Qed.
#[local] Hint Resolve placed_settle_async placed_complete : placed.

Lemma placed_settle_token o t n : placed (settle_token o t n).
Proof. apply placed_bind; [apply placed_read|]. intros [|]; cbn [negb]; auto 6 with placed. Qed.
#[local] Hint Resolve placed_settle_token : placed.

Lemma placed_settle_source g n : placed (settle_source reactor g n).
Proof.
  apply placed_bind; [apply placed_read|]. intros t. destruct reactor.
  - apply placed_try; [apply placed_settle_async|]. intros [[op|]|e]; auto 8 with placed.
  - apply placed_try; [apply placed_settle_token|]. intros [ok|e]; auto 6 with placed.
Qed.
#[local] Hint Resolve placed_settle_source : placed.

Lemma placed_decided g n f e : placed (let? settle := atomically (decide_settlement g n f e) in
  if settle : bool then settle_source reactor g n else pret tt).
Proof. apply placed_bind; [auto with placed|]. intros [|]; auto with placed. Qed.
Lemma placed_accept g i : placed (accept reactor g i).
Proof. apply placed_decided. Qed.
Lemma placed_abort g : placed (abort reactor g).
Proof. apply placed_decided. Qed.
Lemma placed_seal g : placed (seal reactor g).
Proof.
  apply placed_bind; [|intros [|]; auto with placed]. apply placed_section. intros l x Hl.
  pose proof (keeps_decide g false seal_locked [Exhausted g] l x Hl) as H. by destruct (decide_settlement _ _ _ _ _) as [o [l' y]].
Qed.
#[local] Hint Resolve placed_accept placed_abort placed_seal : placed.

Lemma placed_settle_request_token q n : placed (settle_request_token reactor q n).
Proof.
  apply placed_bind; [apply placed_read|]. intros [t|]; [|apply placed_done]. destruct reactor.
  - apply placed_bind; [auto with placed|]. intros [|]; cbn [negb]; [|apply placed_done].
    apply placed_try; [apply placed_settle_async|]. intros [[op|]|e]; [|auto 7 with placed..].
    apply placed_bind; [apply placed_complete|]. intros [u|e]; [|auto with placed].
    apply placed_bind; [apply placed_read|]. intros [|]; auto with placed.
  - apply placed_bind; [apply placed_settle_token|]. intros [|]; auto 6 with placed.
Qed.
#[local] Hint Resolve placed_settle_request_token : placed.

Lemma placed_finish_failure (q : option nat) : placed (finish_failure reactor q).
Proof. destruct q as [q|]; [apply placed_settle_request_token|apply placed_done]. Qed.
#[local] Hint Resolve placed_finish_failure : placed.

Lemma placed_new_group q : placed (new_group q).
Proof. apply placed_bind; [apply placed_read|]. intros [t|]; [|apply placed_done]. apply placed_section. by intros l [s w] Hl. Qed.
Lemma placed_attach_replacement g t existing : placed (attach_replacement reactor g t existing).
Proof. unfold attach_replacement. case_bool_decide; auto 8 with placed. Qed.
#[local] Hint Resolve placed_new_group placed_attach_replacement : placed.

Lemma placed_stream_failed {A} q group e : placed (stream_failed (A := A) reactor q group e).
Proof. apply placed_bind; [destruct group as [[g t]|]|]; auto with placed. Qed.
#[local] Hint Resolve placed_stream_failed : placed.

Lemma placed_transfer q result fin : forall group, placed (transfer reactor q group result fin).
Proof.
  induction result as [|[|existing] result IH]; intros group; cbn [transfer].
  - destruct fin, group as [[g t]|]; auto with placed; apply placed_settle_request_token.
  - apply IH.
  - apply placed_bind; [destruct group; auto with placed|]. intros [[g t]|]; [|apply IH].
    apply placed_try; [apply placed_attach_replacement|]. intros [u|e]; auto with placed.
Qed.

Lemma placed_finish_success (q : option nat) r : placed (finish_success reactor q r).
Proof.
  destruct r as [| |existing|items fin], q as [q|]; unfold finish_success; auto with placed; try apply placed_settle_request_token; [|apply placed_transfer].
  apply placed_bind; [apply placed_new_group|]. intros [[g t]|]; auto 6 with placed.
Qed.
#[local] Hint Resolve placed_finish_success : placed.

Lemma placed_errback (q : option nat) original : placed (errback_call reactor q original).
Proof. destruct original as [[[r|[r|e]]|e]|]; unfold errback_call; auto with placed. Qed.

Lemma start_placed l p : start (W := W) reactor l p -> heads registers_next p rested l.
Proof.
  intros Hs. assert (unregistered l = false) as Hl by (by inversion Hs). enough (placed p) as Hp by by apply Hp.
  clear Hl.
  destruct Hs as [q original|q|q|g i|g|op|op| |]; try apply placed_call.
  - apply placed_errback.
  - apply placed_settle_request_token.
  - destruct q as [q|]; [apply placed_settle_request_token|apply placed_done].
  - apply placed_accept.
  - apply placed_abort.
  - apply placed_section. intros l [s w] Hl. cbn. destruct (operations s !! op) as [x|]; [|done]. by destruct (queue_settle _ _ w).
  - apply placed_atomically, keeps_update. done.
  - apply placed_bind; [apply placed_read|]. intros pending. apply placed_section. by intros l x Hl.
  - apply placed_atomically, keeps_update. done.
Qed.

Lemma reachable_placed x : reachable x -> Forall (fun y => heads registers_next (snd y) rested (fst y)) (fst x).
Proof. intros [w Hx]. by apply (heads_steps _ _ _ _ _ start_placed Hx). Qed.

(** The operation a call waits for, if it settles the token of [o]. *)
Definition operation_of o t l : list nat :=
  match at_stage l with
  | Settling Waiting o' t' _ (Some op) _ => if same_claimant o t o' t' then [op] else []
  | _ => []
  end.

Lemma nodup_operations o t ls : NoDup (flat_map keys ls) -> NoDup (flat_map (operation_of o t) ls).
Proof.
  assert (Hk : forall l op, op ∈ operation_of o t l -> KOp op ∈ keys l).
  { intros l op. unfold operation_of, keys. destruct (at_stage l) as [|[| |ok] o' t' n [op'|] tr]; try by intros ?%elem_of_nil.
    destruct (same_claimant o t o' t'); [|by intros ?%elem_of_nil]. intros ->%list_elem_of_singleton. set_solver. }
  induction ls as [|l ls IH]; cbn; [constructor|]. intros (_ & Hd & H%IH)%NoDup_app. apply NoDup_app. split_and!; [|clear IH|done].
  - unfold operation_of. destruct (at_stage l) as [|[| |ok] o' t' n [op'|] tr]; try constructor.
    destruct (same_claimant o t o' t'); repeat constructor. by intros ?%elem_of_nil.
  - intros op Hop (l' & Hl' & Hin)%list_elem_of_In%in_flat_map. apply (Hd (KOp op)); [by apply Hk|].
    apply list_elem_of_In, in_flat_map. exists l'. split; [done|]. apply list_elem_of_In, Hk. by apply list_elem_of_In.
Qed.

(** The barrier, when it has read the registry, goes on only with a result. *)
Definition barrier_awaits (op : nat) (x : sched * W) : Prop := forall l,
  match pending_settlement_barrier (W := W) with
  | Sect _ _ n => match n l x with
                  | Sect enabled _ _ => forall l' x', enabled l' x' = true -> has_result op (fst x') = true
                  | Done _ => False
                  end
  | Done _ => False
  end.
Lemma pending_awaited op x : op ∈ pending_settlements (fst x) -> barrier_awaits op x.
Proof.
  intros Hop l. cbn. intros l' [s' w'] Hall. rewrite forallb_forall in Hall. by apply Hall, list_elem_of_In, elem_of_elements.
Qed.

(** C24. The barrier before the queue is closed, with a running reactor: in every
    reachable state each broker call in flight, of a group or of a signal, has an
    operation of its own; that operation is in the registry, so that a barrier
    that reads the registry now does not go on before it has its result, or the
    very next section of the call that started it, which waits for nothing,
    enters it there. *)
Theorem barrier_complete x o t (Hr : reactor = true) (Hx : reachable x) :
  exists ops, NoDup ops /\ length ops = in_flight o t (history (fst (snd x))) /\ forall op, op ∈ ops ->
    (exists o' t' n, claimant o' t' = claimant o t /\ works (fst (snd x)) op t' n) /\
    (op ∈ pending_settlements (fst (snd x)) /\ barrier_awaits op (snd x) \/
     exists l enabled act next, (l, Sect enabled act next) ∈ fst x /\ registers op enabled act l).
Proof.
  pose proof (settling_reachable_inv x Hx) as Hi. pose proof (reachable_placed x Hx) as Hp.
  exists (flat_map (operation_of o t) (map fst (fst x))). split_and!; [apply nodup_operations, Hi|..].
  - rewrite (i_flight _ _ Hi o t). pose proof (i_mine _ _ Hi) as Hm. revert Hm. clear -Hr.
    induction (map fst (fst x)) as [|l ls IH]; cbn; [done|]. intros [[Hs _] Hm]%Forall_cons. rewrite length_app, IH by done. f_equal.
    unfold operation_of, waiting. destruct (at_stage l) as [|[| |ok] o' t' n op tr]; try done. destruct Hs as [_ Hs].
    destruct op as [op|]; [|specialize (Hs eq_refl); congruence]. by destruct (same_claimant o t o' t').
  - intros op (l & ([l' p] & <- & Hl)%in_map_iff & Hin)%list_elem_of_In%in_flat_map. apply list_elem_of_In in Hl, Hin. cbn in Hin.
    pose proof (i_mine _ _ Hi) as Hm. rewrite Forall_forall in Hm. destruct (Hm l') as [Hs _]; [by apply (list_elem_of_fmap_2 fst) in Hl|].
    apply (proj1 (Forall_forall _ _) Hp) in Hl as Hq. cbn in Hq. unfold operation_of in Hin.
    destruct (at_stage l') as [|[| |ok] o' t' n [op'|] tr] eqn:E; try by apply elem_of_nil in Hin.
    destruct (same_claimant o t o' t') eqn:Ec; [|by apply elem_of_nil in Hin]. apply list_elem_of_singleton in Hin as ->.
    apply bool_decide_eq_true_1 in Ec. destruct Hs as (_ & Hw & Hs). split; [by exists o', t', n|]. destruct tr.
    + left. specialize (Hs eq_refl eq_refl). split; [done|]. by apply pending_awaited.
    + right. destruct p as [r|e a nx]; [by unfold heads, rested, unregistered in Hq; rewrite E in Hq|].
      destruct Hq as [Hq _]. unfold registers_next in Hq. rewrite E in Hq. by exists l', e, a, nx.
Qed.
End Facts.
End SettlementFacts.
