(* ===== verification/SettlementRuns.v ===== *)
(** * Settling broker deliveries: what undisturbed calls compute

    The output of an errback whose replacements are all committed, in whatever
    order its parts come, ends with one acknowledgement of the source: made at
    once without a reactor, by a worker that the callbacks wait for with one;
    executable schedules of the concurrent case. *)

From S2P Require Export SettlementFacts.

Module SettlementRuns.
Import Settlement SettlementFacts.

Section Runs.
Context {W : Type} `{!Broker W}.
Implicit Types (s : sched) (h : list event).

(** ** A committed output

    What happens to a group: the stream adds a child, a push commits one, the
    stream ends. *)
Inductive action := Add | Commit (child : nat) | Seal.

(** Every child is committed once, after it was added, and the stream ends. *)
Fixpoint completes (next : nat) (open : gset nat) (ended : bool) (acts : list action) : bool :=
  match acts with
  | [] => ended && bool_decide (open = ∅)
  | Add :: acts => negb ended && completes (S next) (open ∪ {[ next ]}) ended acts
  | Commit i :: acts => bool_decide (i ∈ open) && completes next (open ∖ {[ i ]}) ended acts
  | Seal :: acts => negb ended && completes next open true acts
  end.

Definition play1 (reactor : bool) (g : nat) (a : action) : prog local (sched * W) unit :=
  match a with
  | Add => let? _ := atomically (new_child g) in pret tt
  | Commit i => child_ack reactor g i
  | Seal => seal reactor g
  end.
Fixpoint play (reactor : bool) (g : nat) (acts : list action) : prog local (sched * W) unit :=
  match acts with
  | [] => pret tt
  | a :: acts => let? _ := play1 reactor g a in play reactor g acts
  end.

Definition broker_call (e : event) : bool := match e with Began _ _ _ | Ended _ _ _ _ => true | _ => false end.
Definition calls h : list event := List.filter broker_call h.

(** An undecided group between two actions. *)
Record live g next open ended t s : Prop := {
  l_group : exists op, groups s !! g = Some (Group t open next ended false false op);
  l_queue : queue_open s = true
}.

(** What the acknowledgement of the source does. *)
Definition acknowledged (g t : nat) s (w : W) (r : outcome unit) (s' : sched) (w' : W) : Prop :=
  exists ro, queue_settle false t w = (ro, w') /\
    calls (history s') = Ended (ByGroup g) t false (succeeded ro) :: Began (ByGroup g) t false :: calls (history s) /\
    (exists gr, groups s' !! g = Some gr /\ terminal gr = succeeded ro /\ settlement_in_progress gr = false) /\
    r = match ro with Raise e => if backend_error e then Ok tt else Raise e | Ok _ => Ok tt end.

Lemma settle_source_run g t s w m gr : groups s !! g = Some gr -> source_token gr = t -> terminal gr = false -> queue_open s = true ->
  exists r s' w', run (settle_source false g false) (Local (Settling Holding (ByGroup g) t false None false) m) (s, w) =
    Some (r, (Local Idle m, (s', w'))) /\ acknowledged g t s w r s' w'.
Proof.
  intros Hg Ht Hterm Hq. assert (source_of g s = t) as Hs by (unfold source_of; by rewrite Hg).
  assert (forall s1 ok, groups s1 = groups s -> exists gr', groups (on_group g (settled false ok) s1) !! g = Some gr' /\
    terminal gr' = ok /\ settlement_in_progress gr' = false) as Hend.
  { intros s1 ok Hs1. cbn. rewrite Hs1, (alter_insert _ _ _ gr) by done. eexists. split; [apply list_lookup_insert_eq; by eapply lookup_lt_Some|].
    unfold settled. by destruct ok. }
  cbn. rewrite Hs, Hq. cbn. destruct (queue_settle false t w) as [ro w'] eqn:Ero.
  destruct ro as [[]|e]; [|destruct (backend_error e) eqn:Eb]; cbn; eexists _, _, _; (split; [done|]);
    [exists (Ok tt)|exists (Raise e)..]; rewrite ?Eb; split_and!; try done;
    first [by apply (Hend _ true)|by apply (Hend _ false)].
Qed.

(** One action of a group that is not the last. *)
Lemma play1_live reactor g a acts next open ended t s w m : live g next open ended t s -> m = (if ended then None else Some g) ->
  completes next open ended (a :: acts) = true -> acts <> [] ->
  exists next' open' (ended' : bool) s', run (play1 reactor g a) (Local Idle m) (s, w) = Some (Ok tt, (Local Idle (if ended' then None else Some g), (s', w))) /\
    live g next' open' ended' t s' /\ completes next' open' ended' acts = true /\
    calls (history s') = calls (history s) /\ operations s' = operations s.
Proof.
  intros [[op Hg] Hq] -> Hc Hne. assert (Hlt : (g < length (groups s))%nat) by (by eapply lookup_lt_Some).
  assert (Hnot : forall n o acts', completes n o true acts' = true -> acts' <> [] -> o <> ∅).
  { intros n o [|[|i|] acts'] E Hn; cbn in E; try done. apply andb_prop in E as [E%bool_decide_eq_true_1 _]. set_solver. }
  destruct a as [|i|]; cbn in Hc; apply andb_prop in Hc as [H1 H2].
  - apply negb_true_iff in H1 as ->. exists (S next), (open ∪ {[ next ]}), false. eexists. cbn. rewrite Hg. cbn.
    split_and!; [done| |done..]. split; [|done]. exists op. cbn. by rewrite list_lookup_insert_eq.
  - apply bool_decide_eq_true_1 in H1. exists next, (open ∖ {[ i ]}), ended. cbn -[Nat.ltb negb orb]. rewrite Hg. unfold accept_locked. cbn -[Nat.ltb negb orb].
    rewrite bool_decide_true by done. cbn -[Nat.ltb negb orb].
    assert (negb ended || (1 <? size open)%nat = true) as ->.
    { destruct ended; [|done]. cbn [negb orb]. apply Nat.ltb_lt. pose proof (Hnot _ _ _ H2 Hne) as Ho.
      assert (size open = (1 + size (open ∖ {[ i ]}))%nat) as ->.
      { rewrite (union_difference_L {[ i ]} open) at 1 by set_solver. rewrite size_union by set_solver. by rewrite size_singleton. }
      assert (size (open ∖ {[ i ]}) <> 0%nat); [|lia]. rewrite size_non_empty_iff. intros E. apply Ho. by apply leibniz_equiv. }
    eexists. split_and!; [done| |done..]. split; [|done]. exists op. cbn. by rewrite list_lookup_insert_eq.
  - apply negb_true_iff in H1 as ->. exists next, open, true. cbn. rewrite Hg. unfold seal_locked. cbn.
    rewrite bool_decide_false by (by eapply Hnot). cbn.
    eexists. split_and!; [done| |done..]. split; [|done]. exists op. cbn. by rewrite list_lookup_insert_eq.
Qed.

(** The last action begins to settle the source. *)
Definition holder (g t : nat) : local := Local (Settling Holding (ByGroup g) t false None false) None.
Definition due (g t : nat) s s' : Prop :=
  (exists gr, groups s' !! g = Some gr /\ source_token gr = t /\ terminal gr = false) /\ queue_open s' = true /\
  calls (history s') = calls (history s) /\ operations s' = operations s.

Lemma play1_last reactor g a next open ended t s w m : live g next open ended t s -> m = (if ended then None else Some g) ->
  completes next open ended [a] = true ->
  exists s', run_on (play1 reactor g a) (Local Idle m) (s, w) = run_on (settle_source reactor g false) (holder g t) (s', w) /\ due g t s s'.
Proof.
  intros [[op Hg] Hq] -> Hc. assert (Hlt : (g < length (groups s))%nat) by (by eapply lookup_lt_Some).
  assert (Hend : forall e gr', calls e = [] -> source_token gr' = t -> terminal gr' = false ->
    due g t s (s <| groups ::= <[g := gr']> |> <| history ::= app e |>)).
  { intros e gr' He Ht Hterm. split_and!; [|done| |done].
    - exists gr'. cbn. by rewrite list_lookup_insert_eq.
    - cbn. unfold calls in *. by rewrite List.filter_app, He. }
  destruct a as [|i|]; cbn in Hc; apply andb_prop in Hc as [H1 H2].
  - apply negb_true_iff in H1 as ->. done.
  - apply bool_decide_eq_true_1 in H1. apply andb_prop in H2 as [-> H2%bool_decide_eq_true_1].
    unfold play1, child_ack, accept. cbn -[settle_source]. rewrite Hg. unfold accept_locked. cbn -[settle_source].
    rewrite bool_decide_true by done. cbn -[settle_source].
    assert (size open = 1%nat) as ->.
    { rewrite (union_difference_L {[ i ]} open) by set_solver. rewrite H2, union_empty_r_L. by rewrite size_singleton. }
    cbn -[settle_source run_on]. eexists. split; [done|]. by apply (Hend [Committed g i] (Group t open next true false true op)).
  - apply bool_decide_eq_true_1 in H2. apply negb_true_iff in H1 as ->.
    unfold play1, seal. cbn -[settle_source]. rewrite Hg. unfold seal_locked. cbn -[settle_source].
    rewrite bool_decide_true by done. cbn -[settle_source run_on]. eexists. split; [done|].
    by apply (Hend [Exhausted g] (Group t open next true false true op)).
Qed.

Lemma play_completes reactor g acts next open ended t s w m : live g next open ended t s -> m = (if ended then None else Some g) ->
  completes next open ended acts = true -> acts <> [] ->
  exists s', run_on (play reactor g acts) (Local Idle m) (s, w) =
    run_on (let? _ := settle_source reactor g false in pret tt) (holder g t) (s', w) /\ due g t s s'.
Proof.
  revert s next open ended m. induction acts as [|a acts IH]; intros s next open ended m Hl -> Hc Hne; [done|].
  cbn [play]. rewrite run_on_bind. destruct acts as [|a' acts].
  - destruct (play1_last reactor g a next open ended t s w _ Hl eq_refl Hc) as (s' & -> & Hd). exists s'.
    split; [by rewrite run_on_bind|done].
  - destruct (play1_live reactor g a (a' :: acts) next open ended t s w _ Hl eq_refl Hc) as (n1 & o1 & e1 & s1 & E & Hl1 & Hc1 & Hcalls & Hops); [done|].
    rewrite (run_done _ _ _ _ _ E). destruct (IH s1 n1 o1 e1 _ Hl1 eq_refl Hc1) as (s' & -> & D1 & D2 & D3 & D4); [done|].
    exists s'. split; [done|]. split_and!; [done|done|congruence|congruence].
Qed.

(** ** With a running reactor

    The scheduler's callbacks return at the first broker call: what is left of
    them is a section that waits for the worker. *)
Definition left_open (g : nat) s : Prop :=
  exists gr, groups s !! g = Some gr /\ terminal gr = false /\ settlement_in_progress gr = false.

(** What the waiting rest of a settlement does when the operation has its result. *)
Definition ends_with (g t op : nat) (rest : prog local (sched * W) unit) l : Prop := forall gr s2 w2 r,
  groups s2 !! g = Some gr -> terminal gr = false -> settlement_operation gr = Some op -> result_of op s2 = Some r ->
  exists s3, run rest l (s2, w2) = Some (Ok tt, (Local Idle None, (s3, w2))) /\
    calls (history s3) = Ended (ByGroup g) t false (succeeded r) :: calls (history s2) /\ op ∉ pending_settlements s3 /\
    exists gr', groups s3 !! g = Some gr' /\ terminal gr' = succeeded r /\ settlement_in_progress gr' = false.

(** The settlement waits: its acknowledgement is with a worker, which makes the
    queue's call, and it is in the registry. *)
Definition with_worker (g t : nat) s (rest : prog local (sched * W) unit) l s1 : Prop :=
  let op := length (operations s) in
  calls (history s1) = Began (ByGroup g) t false :: calls (history s) /\ op ∈ pending_settlements s1 /\
  (exists gr, groups s1 !! g = Some gr /\ terminal gr = false /\ settlement_operation gr = Some op) /\
  (forall w1, exists s2, run (worker op) idle (s1, w1) = Some (Ok tt, (idle, (s2, snd (queue_settle false t w1)))) /\
     groups s2 = groups s1 /\ result_of op s2 = Some (fst (queue_settle false t w1))) /\
  (forall x, result_of op (fst x) = None -> run rest l x = None) /\ ends_with g t op rest l.

Definition acknowledging (g t : nat) s (w : W) (out : prog local (sched * W) unit * (local * (sched * W))) : Prop :=
  match submit_thread w with
  | (Raise _, w1) => exists s1, out = (Done (Ok tt), (Local Idle None, (s1, w1))) /\
      calls (history s1) = calls (history s) /\ left_open g s1
  | (Ok _, w1) => exists rest l s1, out = (rest, (l, (s1, snd (start_timer w1)))) /\
      with_worker g t s rest l s1
  end.

Lemma alter_snoc {A} (f : A -> A) xs x : alter f (length xs) (xs ++ [x]) = xs ++ [f x].
Proof. induction xs as [|y xs IH]; cbn; [done|]. by f_equal. Qed.
Lemma lookup_snoc {A} (xs : list A) x : (xs ++ [x]) !! length xs = Some x.
Proof. by rewrite list_lookup_middle. Qed.

(** Attaching the callbacks changes nothing but the operation. *)
Lemma attach_last ops x s : operations s = ops ++ [x] ->
  let s' := report_failure (length ops) (on_operation (length ops) (fun o => o <| op_observed := true |>) s) in
  operations s' = ops ++ [x <| op_observed := true |>] /\ groups s' = groups s /\ history s' = history s /\
  pending_settlements s' = pending_settlements s.
Proof.
  intros E. cbn. unfold report_failure. destruct (operations _ !! length ops) as [y|]; [destruct (public_failed y)|];
    cbn; by rewrite E, alter_snoc.
Qed.

(** [_settle_token_async_ordered] alone. *)
Lemma settle_async_run o t m s w : queue_open s = true -> let op := length (operations s) in
  exists ph x s1 w1, run (settle_token_async_ordered o t false) (Local (Settling Holding o t false None false) m) (s, w) =
      Some (Ok (Some op), (Local (Settling ph o t false (Some op) true) m, (s1, w1))) /\
    groups s1 = groups s /\ op ∈ pending_settlements s1 /\ operations s1 = operations s ++ [x] /\
    op_token x = t /\ op_negative x = false /\
    match submit_thread w with
    | (Raise e, w') => ph = Holding /\ w1 = w' /\ history s1 = history s /\ op_result x = Some (Raise e)
    | (Ok _, w') => ph = Waiting /\ w1 = snd (start_timer w') /\ history s1 = Began o t false :: history s /\ op_result x = None
    end.
Proof.
  intros Hq op. unfold settle_token_async_ordered. rewrite run_bind. cbn. rewrite Hq. cbn.
  unfold defer_to_thread_ordered. destruct (submit_thread w) as [[u|e] w1]; [destruct (start_timer w1) as [timer w2]|]; cbn;
    match goal with |- context [report_failure _ (on_operation _ _ ?s')] =>
      destruct (attach_last (operations s) _ s' eq_refl) as (E1 & E2 & E3 & E4) end.
  all: eexists _, _, _, _; split; [done|]; rewrite E2, E3, E4; split_and!; [done|cbn; set_solver|exact E1|done..].
Qed.

(** The callbacks of [_settle_source] on the operation. *)
Definition source_callbacks (g op : nat) : prog local (sched * W) unit :=
  let? _ := (let? r := complete op in atomically (update (at_ Idle) (on_group g (settled_by op false (succeeded r))))) in pret tt.

Lemma callbacks_wait g op l x : result_of op (fst x) = None ->
  run_on (source_callbacks g op) l x = (source_callbacks g op, (l, x)).
Proof. intros Hr. unfold source_callbacks. cbn. destruct x as [s w]. unfold has_result. cbn in Hr. by rewrite Hr. Qed.

Lemma callbacks_end g t op ph m gr s w r : groups s !! g = Some gr -> terminal gr = false -> settlement_operation gr = Some op ->
  result_of op s = Some r ->
  exists s3, run (source_callbacks g op) (Local (Settling ph (ByGroup g) t false (Some op) true) m) (s, w) =
      Some (Ok tt, (Local Idle m, (s3, w))) /\
    calls (history s3) = match ph with Waiting => [Ended (ByGroup g) t false (succeeded r)] | _ => [] end ++ calls (history s) /\
    op ∉ pending_settlements s3 /\
    exists gr', groups s3 !! g = Some gr' /\ terminal gr' = succeeded r /\ settlement_in_progress gr' = false.
Proof.
  intros Hg Hterm Hop Hr. unfold source_callbacks. rewrite run_bind, run_bind. cbn. unfold has_result. rewrite Hr. cbn.
  assert (forall s', groups s' = groups s -> exists gr', groups (on_group g (settled_by op false (succeeded r)) s') !! g = Some gr' /\
    terminal gr' = succeeded r /\ settlement_in_progress gr' = false) as Hend.
  { intros s' Hs'. cbn. rewrite list_lookup_alter_eq, Hs', Hg. eexists. split; [done|]. unfold settled_by. rewrite bool_decide_true by done.
    unfold settled. by destruct r. }
  destruct ph; cbn; eexists; (split; [done|]); (split; [done|]); (split; [cbn; set_solver|]); by apply Hend.
Qed.

Lemma result_of_fire op r s : result_of op (fire_bounded op r s) = result_of op s /\ groups (fire_bounded op r s) = groups s.
Proof.
  unfold fire_bounded. destruct (operations s !! op ≫= bounded); [done|]. set (s' := on_operation _ _ s).
  assert (result_of op s' = result_of op s) as <- by (unfold result_of; cbn; rewrite list_lookup_alter_eq; by destruct (operations s !! op)).
  change (groups s) with (groups s'). unfold report_failure. destruct (operations s' !! op) as [y|]; [|done]. by destruct (public_failed y).
Qed.

Lemma worker_run op t x ops s w : operations s = ops ++ [x] -> op = length ops -> op_token x = t -> op_negative x = false -> op_result x = None ->
  exists s2, run (worker op) idle (s, w) = Some (Ok tt, (idle, (s2, snd (queue_settle false t w)))) /\
    groups s2 = groups s /\ result_of op s2 = Some (fst (queue_settle false t w)).
Proof.
  intros E -> Ht Hn Hr. cbn. rewrite E, lookup_snoc. rewrite bool_decide_true by done. cbn. rewrite Ht, Hn.
  destruct (queue_settle false t w) as [r w'] eqn:Eq. cbn. eexists. split; [done|].
  match goal with |- context [fire_bounded ?i ?r ?s'] => destruct (result_of_fire i r s') as [-> ->] end.
  split; [done|]. unfold result_of. cbn. by rewrite E, alter_snoc, lookup_snoc.
Qed.

Lemma settle_source_async g t s w gr : groups s !! g = Some gr -> source_token gr = t -> terminal gr = false -> queue_open s = true ->
  acknowledging g t s w (run_on (let? _ := settle_source true g false in pret tt) (holder g t) (s, w)).
Proof.
  intros Hg Ht Hterm Hq. set (op := length (operations s)).
  destruct (settle_async_run (ByGroup g) t None s w Hq) as (ph & x & s1 & w1 & Hrun & E1 & E2 & E3 & E4 & E5 & E6). fold op in Hrun, E2.
  unfold settle_source. rewrite run_on_bind, run_on_bind. cbn [run_on atomically section_when read fst snd].
  assert (source_of g s = t) as -> by (unfold source_of; by rewrite Hg).
  rewrite run_on_try. unfold holder. rewrite (run_done _ _ _ _ _ Hrun).
  set (s2 := on_group g (fun gr => gr <| settlement_operation := Some op |>) s1).
  assert (groups s2 !! g = Some (gr <| settlement_operation := Some op |>)) as Hg2 by (cbn; by rewrite list_lookup_alter_eq, E1, Hg).
  assert (result_of op s2 = op_result x) as Hres by (unfold result_of; cbn; rewrite E3; unfold op; by rewrite lookup_snoc).
  unfold acknowledging. destruct (submit_thread w) as [[u|e] w']; destruct E6 as (-> & -> & E6 & E7); rewrite E7 in Hres.
  - exists (source_callbacks g op), (Local (Settling Waiting (ByGroup g) t false (Some op) true) None), s2. split.
    + rewrite <- run_on_bind. by apply (callbacks_wait g op _ (s2, _)).
    + split_and!; [cbn; by rewrite E6|done|by eexists| | |].
      * intros w1. destruct (worker_run op t x (operations s) s2 w1) as (s3 & ? & ? & ?); [done..|]. by exists s3.
      * intros y Hy. by rewrite run_ends, callbacks_wait.
      * intros gr2 s3 w2 r H1 H2 H3 H4. by apply (callbacks_end g t op Waiting None gr2).
  - destruct (callbacks_end g t op Holding None _ s2 w' (Raise e) Hg2 Hterm eq_refl Hres) as (s3 & E & C1 & _ & gr' & C2 & C3 & C4).
    exists s3. split_and!; [rewrite <- run_on_bind; exact (run_done _ _ _ _ _ E)|by rewrite C1; cbn; rewrite E6|by exists gr'].
Qed.

(** C23. A group whose children are all committed, in whatever order the stream and
    the pushes act, one after the other, is acknowledged by the last of the
    actions, whichever it is, with the only broker call of them all; after a
    success it is terminal, after a failure it can still be acknowledged.
    Without a running reactor that action makes the call itself. With one it
    hands the call to a worker, enters it in the registry and waits, while
    anything may happen around it, until the worker has an answer; when the
    thread pool takes no call, none is made and the group stays open. *)
Theorem committed_output_acknowledged reactor g t op acts s (w : W)
    (Hg : groups s !! g = Some (Group t ∅ 0 false false false op)) (Hq : queue_open s = true)
    (Hc : completes 0 ∅ false acts = true) :
  if reactor : bool then acknowledging g t s w (run_on (play true g acts) (Local Idle (Some g)) (s, w))
  else exists r s' w', run (play false g acts) (Local Idle (Some g)) (s, w) = Some (r, (Local Idle None, (s', w'))) /\
    acknowledged g t s w r s' w'.
Proof.
  destruct (play_completes reactor g acts 0 ∅ false t s w (Some g)) as (s1 & E & (gr & G1 & G2 & G3) & Hq1 & Hcalls & Hops);
    [by split; [exists op|]|done|done|by intros ->|]. destruct reactor.
  - rewrite E. pose proof (settle_source_async g t s1 w gr G1 G2 G3 Hq1) as H. unfold acknowledging, with_worker in *.
    by rewrite Hcalls, Hops in H.
  - destruct (settle_source_run g t s1 w None gr) as (r & s' & w' & E' & ro & A1 & A2 & A3 & A4); try done.
    exists r, s', w'. split; [|exists ro; by rewrite A2, Hcalls].
    rewrite run_ends, E, run_on_bind. unfold holder. rewrite (run_done _ _ _ _ _ E'). by destruct r as [[]|e].
Qed.
End Runs.

Module Examples.
(** A broker with scripted outcomes, successful when the script has ended. *)
#[local] Instance scripted : Broker (list (outcome unit)) := {|
  queue_settle _ _ := fun w => (match w with r :: _ => r | [] => Ok tt end, tail w);
  submit_thread := ret tt; start_timer := ret tt
|}.
Abbreviation task_choice := (choice local (sched * list (outcome unit))).
Definition go (n i : nat) : list task_choice := List.repeat (Go i) n.
Definition spawn {A} (p : prog local (sched * list (outcome unit)) A) : task_choice := Spawn idle (call p).
Definition tokens : gmap nat nat := {[ 1 := 7 ]}%nat.
Definition start_pool : pool local (sched * list (outcome unit)) := ([], (init tokens, [])).

(** An errback of request 1 that yields an item between two requests. *)
Definition stream (fin : ending) : prog local (sched * list (outcome unit)) unit :=
  errback_call true (Some 1%nat) (Some (Ok (Now (AStream [Replacement None; Item; Replacement None] fin)))).

(** The first replacement is committed while the stream runs, the second after
    it; then a worker acknowledges the source. *)
Definition committed_stream : list task_choice :=
  spawn (stream Exhausts) :: go 3 0 ++ spawn (child_ack true 0 0) :: go 1 1 ++ go 2 0 ++
  spawn (child_ack true 0 1) :: go 4 2 ++ spawn (worker 0) :: go 1 3 ++ go 5 2.

(** Every call of a schedule is one that may be started. *)
Ltac by_schedule := exists []; apply runs_steps; [repeat constructor|by vm_compute].

Definition acknowledged_pool := after committed_stream start_pool.
Lemma acknowledged_reachable : reachable true tokens acknowledged_pool.
Proof. by_schedule. Qed.

Lemma source_settled_last_witness :
  reachable true tokens acknowledged_pool /\
  in_flight (ByGroup 0) 7 (drop 2 (history (fst (snd acknowledged_pool)))) = 0%nat /\
  forall i, Registered 0 i ∈ history (fst (snd acknowledged_pool)) ->
    Committed 0 i ∈ drop 2 (history (fst (snd acknowledged_pool))).
Proof.
  destruct (source_settled_last true tokens acknowledged_pool 0 7 false (take 1 (history (fst (snd acknowledged_pool))))
              (drop 2 (history (fst (snd acknowledged_pool))))) as (H1 & _ & _ & H2).
  - apply acknowledged_reachable.
  - by vm_compute.
  - split; [apply acknowledged_reachable|]. split; [exact H1|]. by apply H2.
Defined.

(** The response of request 1 arrives; its worker has not answered yet. *)
Definition acking : list task_choice := spawn (on_response_received true 1) :: go 6 0.
Definition acking_pool := after acking start_pool.
Lemma acking_reachable : reachable true tokens acking_pool.
Proof. by_schedule. Qed.

Lemma signals_exclusive_witness :
  history (fst (snd acking_pool)) = [Began (BySignal 1) 7 false] /\ in_flight (BySignal 1) 7 [] = 0%nat.
Proof.
  split; [by vm_compute|]. apply (signals_exclusive true tokens acking_pool 1 7 false [] [] eq_refl acking_reachable). by vm_compute.
Defined.

(** Its operation is in the registry. *)
Lemma barrier_complete_witness : exists ops, NoDup ops /\ length ops = 1%nat /\ forall op, op ∈ ops ->
  op ∈ pending_settlements (fst (snd acking_pool)) /\ barrier_awaits op (snd acking_pool).
Proof.
  destruct (barrier_complete true tokens acking_pool (BySignal 1) 7 eq_refl acking_reachable) as (ops & H1 & H2 & H3).
  exists ops. split_and!; [done|by rewrite H2; vm_compute|]. intros op Hop. destruct (H3 op Hop) as [(o' & t' & n & _ & Hw) _].
  assert (op ∈ pending_settlements (fst (snd acking_pool))); [|split; [done|by apply pending_awaited]].
  apply works_lt in Hw. destruct op as [|op]; [|exfalso; vm_compute in Hw; lia].
  apply (bool_decide_eq_true_1 _). by vm_compute.
Defined.

(** A second signal finds the token claimed. *)
Example second_signal_refused :
  calls (history (fst (snd (after (spawn (on_spider_error true (Some 1%nat)) :: go 2 1) acking_pool)))) = [Began (BySignal 1) 7 false].
Proof. by vm_compute. Qed.

(** An errback does not look at the claim: [_new_group] takes the token while
    the signal's acknowledgement is in flight, and its failing stream refuses
    the delivery that is being acknowledged. *)
Example group_ignores_claim :
  reachable true tokens (after (acking ++ spawn (stream (Fails (EPlugin 0))) :: go 9 1) start_pool) /\
  history (fst (snd (after (acking ++ spawn (stream (Fails (EPlugin 0))) :: go 9 1) start_pool))) =
    [Began (ByGroup 0) 7 true; Registered 0 1; Registered 0 0; Began (BySignal 1) 7 false].
Proof. split; [by_schedule|by vm_compute]. Qed.

(** A broker that refuses once: the group stays open for the last child. *)
Definition two_children : list action := [Add; Commit 0; Add; Seal; Commit 1].
Lemma committed_output_acknowledged_witness :
  completes 0 ∅ false two_children = true /\
  acknowledging 0 7 (init ∅ <| groups := [group_init 7] |>) [Raise (EQueue "")]
    (run_on (play true 0 two_children) (Local Idle (Some 0%nat)) (init ∅ <| groups := [group_init 7] |>, [Raise (EQueue "")])) /\
  exists r s' w', run (play false 0 two_children) (Local Idle (Some 0%nat)) (init ∅ <| groups := [group_init 7] |>, [Raise (EQueue "")]) =
    Some (r, (Local Idle None, (s', w'))) /\
    acknowledged 0 7 (init ∅ <| groups := [group_init 7] |>) [Raise (EQueue "")] r s' w'.
Proof.
  split; [by vm_compute|].
  split; [apply (committed_output_acknowledged true 0 7 None two_children)|apply (committed_output_acknowledged false 0 7 None two_children)];
    solve [done|by vm_compute].
Defined.
End Examples.
End SettlementRuns.
