(* ===== verification/Threads.v ===== *)
(** * Calls that share threads

    The interleavings of [Conc] in which a call goes on only when its thread is
    free for it: [may l others] says whether a call may take its next step while
    the other calls of the pool are where they are (a thread that is inside one
    call does not run another one meanwhile).  The proof rules of [Conc] are
    given again, each section with that premise. *)

From S2P Require Export Conc.

Section Threads.
Context {L G : Type} (may : L -> list L -> bool) (start : L -> prog L G unit -> Prop).

Inductive tstep : pool L G -> pool L G -> Prop :=
  | tstep_spawn ts g l p : start l p -> tstep (ts, g) (ts ++ [(l, p)], g)
  | tstep_section ts1 l e a n ts2 g :
      may l (map fst (ts1 ++ ts2)) = true -> e l g = true ->
      tstep (ts1 ++ (l, Sect e a n) :: ts2, g) (ts1 ++ (fst (a l g), n l g) :: ts2, snd (a l g)).

Lemma tstep_pstep x y : tstep x y -> pstep start x y.
Proof. by destruct 1; constructor. Qed.

(** An executable scheduler. *)
Definition allowed (c : choice L G) (x : pool L G) : bool :=
  match c with
  | Spawn _ _ => true
  | Go i => match fst x !! i with Some (l, _) => may l (map fst (take i (fst x) ++ drop (S i) (fst x))) | None => false end
  end.
Fixpoint tschedule (cs : list (choice L G)) (x : pool L G) : option (pool L G) :=
  match cs with
  | [] => Some x
  | c :: cs' => if allowed c x then match choose c x with Some y => tschedule cs' y | None => None end else None
  end.

Lemma choose_tstep c x y : starts start c -> allowed c x = true -> choose c x = Some y -> tstep x y.
Proof.
  destruct x as [ts g], c as [l p|i]; cbn; intros Hs Ha H; [injection H as <-; by constructor|].
  destruct (ts !! i) as [[l [o|e a n]]|] eqn:Et; [done| |done]. destruct (e l g) eqn:Ee; [|done]. injection H as <-.
  rewrite <- (take_drop_middle ts i _ Et) at 1. by constructor.
Qed.

Lemma tschedule_steps cs x y : Forall (starts start) cs -> tschedule cs x = Some y -> rtc tstep x y.
Proof.
  intros Hs. revert x. induction Hs as [|c cs Hc Hs IH]; intros x H; cbn in H; [by injection H as <-|].
  destruct (allowed c x) eqn:Ea; [|done]. destruct (choose c x) as [z|] eqn:E; [|done].
  eapply rtc_l; [by eapply choose_tstep|by apply IH].
Qed.

Definition truns (cs : list (choice L G)) (x : pool L G) : bool := match tschedule cs x with Some _ => true | None => false end.
Definition tafter (cs : list (choice L G)) (x : pool L G) : pool L G := default x (tschedule cs x).
Lemma truns_steps cs x : Forall (starts start) cs -> truns cs x = true -> rtc tstep x (tafter cs x).
Proof. unfold truns, tafter. intros Hs Hr. destruct (tschedule cs x) eqn:E; [|done]. by apply (tschedule_steps cs). Qed.

(** ** Invariants *)
Variable I : list L -> G -> Prop.
Hypothesis I_perm : forall ls ls' g, Permutation ls ls' -> I ls g -> I ls' g.

Fixpoint twp {A} (p : prog L G A) (Q : outcome A -> L -> Prop) (l : L) : Prop :=
  match p with
  | Done o => Q o l
  | Sect e a n => forall fr g, I (l :: fr) g -> may l fr = true -> e l g = true ->
      I (fst (a l g) :: fr) (snd (a l g)) /\ twp (n l g) Q (fst (a l g))
  end.

Lemma twp_done {A} (o : outcome A) (Q : outcome A -> L -> Prop) l : Q o l -> twp (Done o) Q l.
Proof. done. Qed.

Lemma twp_mono {A} (p : prog L G A) (Q Q' : outcome A -> L -> Prop) l :
  (forall o l', Q o l' -> Q' o l') -> twp p Q l -> twp p Q' l.
Proof.
  intros HQ. revert l. induction p as [o|e a n IH]; intros l; cbn; [apply HQ|].
  intros H fr g Hi Hm He. destruct (H fr g Hi Hm He). split; [done|]. by apply IH.
Qed.

Lemma twp_try {A B} (p : prog L G A) (k : outcome A -> prog L G B) Q l :
  twp p (fun o l' => twp (k o) Q l') l -> twp (ptry p k) Q l.
Proof.
  revert l. induction p as [o|e a n IH]; intros l; cbn; [done|].
  intros H fr g Hi Hm He. destruct (H fr g Hi Hm He). split; [done|]. by apply IH.
Qed.

Lemma twp_bind {A B} (p : prog L G A) (k : A -> prog L G B) Q l :
  twp p (fun o l' => match o with Ok x => twp (k x) Q l' | Raise e => Q (Raise e) l' end) l -> twp (pbind p k) Q l.
Proof. intros H. apply twp_try. revert H. apply twp_mono. by intros [x|e] l'. Qed.

Lemma twp_finally {A} (p : prog L G A) q Q l :
  twp p (fun o l' => twp q (fun oq l'' => match oq with Ok _ => Q o l'' | Raise e => Q (Raise e) l'' end) l') l ->
  twp (pfinally p q) Q l.
Proof.
  intros H. apply twp_try. revert H. apply twp_mono. intros o l' H. apply twp_bind.
  revert H. apply twp_mono. by intros [[]|e] l''.
Qed.

Lemma twp_section {A} enabled (m : M (L * G) A) Q l :
  (forall fr g o l' g', I (l :: fr) g -> may l fr = true -> enabled l g = true -> m (l, g) = (o, (l', g')) ->
    I (l' :: fr) g' /\ Q o l') ->
  twp (section_when enabled m) Q l.
Proof. intros H fr g Hi Hm He. cbn. destruct (m (l, g)) as [o [l' g']] eqn:E. cbn. eauto. Qed.

Lemma twp_call {A} (p : prog L G A) l : twp p (fun _ _ => True) l -> twp (call p) (fun _ _ => True) l.
Proof. intros H. apply twp_try. revert H. apply twp_mono. done. Qed.

Hypothesis twp_start : forall l p, start l p -> twp p (fun _ _ => True) l.
Hypothesis I_start : forall l p ls g, start l p -> I ls g -> I (l :: ls) g.

Definition tsafe (x : pool L G) : Prop :=
  I (map fst (fst x)) (snd x) /\ Forall (fun t => twp (snd t) (fun _ _ => True) (fst t)) (fst x).

Lemma tsafe_step x y : tsafe x -> tstep x y -> tsafe y.
Proof.
  intros [Hi Hw] Hst. destruct Hst as [ts g l p Hs|ts1 l e a n ts2 g Hm He]; split; cbn in *.
  - rewrite map_app. apply (I_perm (l :: map fst ts)); [by rewrite Permutation_app_comm|]. by apply (I_start l p).
  - apply Forall_app; split; [done|]. repeat constructor. by apply twp_start.
  - rewrite map_app in Hi, Hm |- *. cbn in *. apply Forall_app in Hw as [_ [Hw _]%Forall_cons]. cbn in Hw.
    destruct (Hw (map fst ts1 ++ map fst ts2) g) as [Hi' _]; [|done|done|].
    + eapply I_perm; [|exact Hi]. by rewrite Permutation_middle.
    + eapply I_perm; [|exact Hi']. by rewrite Permutation_middle.
  - apply Forall_app in Hw as [Hw1 [Hw Hw2]%Forall_cons]. apply Forall_app; split; [done|]. constructor; [|done].
    cbn in *. rewrite map_app in Hm. destruct (Hw (map fst ts1 ++ map fst ts2) g) as [_ Hn]; [|done|done|done].
    rewrite map_app in Hi. eapply I_perm; [|exact Hi]. cbn. by rewrite Permutation_middle.
Qed.

Lemma tsafe_steps x y : tsafe x -> rtc tstep x y -> tsafe y.
Proof. intros Hx Hs. induction Hs as [|x y z Hst _ IH]; [done|]. by apply IH, (tsafe_step x). Qed.
End Threads.
#[global] Opaque twp.
