(* ===== verification/Pipeline.v ===== *)
(** * The item pipeline

    pipeline/pipeline.py: [BackendPipeline].  Storing an item (serialization,
    the size limit, the budget of consecutive storage errors) and the lifecycle:
    opening, admission of items, closing behind the admitted items, and the
    first-in first-out chain of a running reactor.  The storage strategy and the
    connection manager are an interface over an arbitrary state; [ItemAdapter]
    is a parameter.  What a method does under the lifecycle lock is one section,
    each call of an extension another one.  Diagnostics and monitor hooks, whose
    failures are ignored, are left out. *)

From S2P Require Export Conc Codec Names.

Module Pipeline.
Import Codec.

(** A spider, by identity. *)
Record spider := Spider { sp_id : nat; sp_name : string }.
#[export] Instance spider_eq_dec : EqDecision spider.
Proof. solve_decision. Defined.

(** What the lifecycle does to its collaborators, newest first. *)
Inductive event := Entered | Left | CloseCalled | CloseEnded (ok : bool) | Released.
#[export] Instance event_eq_dec : EqDecision event.
Proof. solve_decision. Defined.

(** The storage strategy and the manager; [stamp]: the timestamp and the random
    suffix of a new key. *)
Class Services (W : Type) := {
  strategy_open : M W unit;
  get_storage_backend : M W unit;
  strategy_store : string -> bytes -> M W unit;
  strategy_close : M W unit;
  release_manager : M W unit;
  stamp : W -> string * string * W;
  submit_thread : M W unit
}.

Record self := Self {
  key_prefix : string; max_item_bytes : Z; max_storage_errors : option Z;
  consecutive_storage_errors : Z; storage_supported : option bool; stats : list string;
  owns_connection_manager : bool; manager_released : bool; crawler_spider : option spider;
  opened_spider : option spider;           (* [_opened] and [_opened_spider] *)
  closed : bool; closing : bool; close_owner : option nat; close_async_pending : bool;
  close_waiting_for_stores : bool; pending_close_error : option exn;
  active_store_count : Z; active_store_threads : gmap nat Z;
  lifecycle_generation : nat; opening : bool; opening_generation : option nat; opening_owner : option nat;
  open_close_requested : bool; opening_operation : option nat; opening_failure : option exn;
  finished_openings : gset nat;            (* the operations of [_open_spider_async] that have settled *)
  tail_next : nat; tail_done : nat;        (* [_async_tail]: links chained, links settled *)
  history : list event
}.
#[export] Instance eta_self : Settable self := fun r =>
  Self (key_prefix r) (max_item_bytes r) (max_storage_errors r) (consecutive_storage_errors r) (storage_supported r) (stats r)
    (owns_connection_manager r) (manager_released r) (crawler_spider r) (opened_spider r) (closed r) (closing r) (close_owner r)
    (close_async_pending r) (close_waiting_for_stores r) (pending_close_error r) (active_store_count r) (active_store_threads r)
    (lifecycle_generation r) (opening r) (opening_generation r) (opening_owner r) (open_close_requested r) (opening_operation r)
    (opening_failure r) (finished_openings r) (tail_next r) (tail_done r) (history r).

Definition DEFAULT_PIPELINE_MAX_ITEM_BYTES : Z := 1048576.

(** [__init__]. *)
Definition init (prefix : string) (max_bytes : Z) (max_errors : option Z) (owns : bool) (crawler : option spider) : outcome self :=
  omap (fun _ => Self prefix max_bytes max_errors 0 None [] owns false crawler None false false None false false None 0 ∅
                   0 false None None false None None ∅ 0 0 [])
    (validate_key_name prefix None).

(** The locals of a call: the thread it was made in, the worker thread it may
    move to, and where it is: in an admitted store, with a reserved close,
    waiting for the stores, owning the close, in the strategy's close, after it,
    after a failed one that is forced to go on, or with the terminal state
    published (and the manager to release). *)
Inductive stage := Outside | Storing | Reserving | Waiting | Claimed | Calling | Called (ok : bool) | Forced | Published.
#[export] Instance stage_eq_dec : EqDecision stage.
Proof. solve_decision. Defined.
Record local := Local { caller : nat; worker : nat; on_worker : bool; at_stage : stage }.
#[export] Instance eta_local : Settable local := fun r => Local (caller r) (worker r) (on_worker r) (at_stage r).
Definition thread (l : local) : nat := if on_worker l then worker l else caller l.

Section Pipeline.
Context {D : IsoDates} {J : JsonText} {Item : Type} (as_dict : Item -> option value).
Context {W : Type} `{!Services W}.

(** ** Storing an item *)
Definition inc_stat (key : string) : M (self * W) unit := on_fst (modify (fun s => s <| stats ::= fun l => l ++ [key] |>)).

(** [_generate_item_key]. *)
Definition generate_item_key (sp : spider) : M (self * W) string := fun '(s, w) =>
  let '(timestamp, unique_id, w') := stamp w in
  (Ok (key_prefix s ++ ":" ++ sp_name sp ++ ":" ++ timestamp ++ ":" ++ unique_id)%string, (s, w')).

(** [_serialize_item]. *)
Definition serialize_item (item : Item) : outcome bytes :=
  match as_dict item with Some d => serialize d | None => Raise EType end.

(** [_store_item]. *)
Definition store_item (key : string) (data : bytes) : M (self * W) unit :=
  let! _ := on_snd get_storage_backend in on_snd (strategy_store key data).

(** The errors of a store that are not storage failures. *)
Definition deterministic (e : exn) : bool :=
  match e with EBackpressure | EConfiguration | ESerialization | EType | EValue | EDecode | EOverflow => true | _ => false end.

(** Past the budget the error of the public boundary is raised. *)
Definition count_failure (item : Item) : M (self * W) Item :=
  let! x := get in
  match max_storage_errors (fst x) with
  | Some n =>
      let! _ := on_fst (modify (fun s => s <| consecutive_storage_errors ::= Z.succ |>)) in
      let! x := get in
      if n <? consecutive_storage_errors (fst x) then raise EBackend else ret item
  | None => ret item
  end.

(** [_process_item_unlocked]. *)
Definition process_item_unlocked (item : Item) (sp : spider) : M (self * W) Item :=
  let! x := get in
  if bool_decide (storage_supported (fst x) = Some false) then let! _ := inc_stat "pipeline/storage_skipped" in ret item else
  let! key := generate_item_key sp in
  match serialize_item item with
  | Raise ESerialization => raise ESerialization
  | Raise e => if is_ordinary e then let! _ := inc_stat "pipeline/serialization_errors" in raise ESerialization else raise e
  | Ok data =>
      if max_item_bytes (fst x) <? Z.of_nat (length data) then
        let! _ := inc_stat "pipeline/oversize_dropped" in
        let! _ := inc_stat "pipeline/oversize_rejected" in
        raise ESerialization
      else
        let! o := attempt (store_item key data) in
        match o with
        | Ok _ => let! _ := on_fst (modify (fun s => s <| consecutive_storage_errors := 0 |>)) in ret item
        | Raise e =>
            if deterministic e || negb (is_ordinary e) then raise e
            else let! _ := inc_stat "pipeline/storage_errors" in count_failure item
        end
  end.

(** ** The lifecycle *)
Definition shared : Type := self * W.
Definition CM (A : Type) : Type := M (local * shared) A.
Definition CP (A : Type) : Type := prog local shared A.
Definition update (fl : local -> local) (fs : self -> self) : CM unit := fun '(l, (s, w)) => (Ok tt, (fl l, (fs s, w))).
Definition at_ (st : stage) (l : local) : local := l <| at_stage := st |>.
Definition note (e : event) (s : self) : self := s <| history ::= cons e |>.
Definition on_world {A} (m : M W A) : CM A := on_shared (on_snd m).

(** [_resolve_spider]. *)
Definition resolve_spider (sp : option spider) (s : self) : outcome spider :=
  match sp, opened_spider s, crawler_spider s with
  | Some sp, _, _ => Ok sp
  | None, Some sp, _ => Ok sp
  | None, None, Some sp => Ok sp
  | None, None, None => Raise ERuntime
  end.

(** The claim of [_close_locked]; then the admitted stores are waited for. *)
Inductive claimed := Return_ | Proceed | Wait.
Definition own_stores (l : local) (s : self) : bool := 0 <? default 0 (active_store_threads s !! thread l).
Definition wait_stores (l : local) (s : self) : claimed * (local * self) :=
  if active_store_count s =? 0 then (Proceed, (at_ Claimed l, s <| close_waiting_for_stores := false |>))
  else if own_stores l s then (Return_, (l, s <| close_waiting_for_stores := true |>))
  else (Wait, (at_ Waiting l, s)).
Definition claim_close : CM claimed := fun '(l, (s, w)) =>
  let go s := let '(c, (l', s')) := wait_stores l (s <| close_async_pending := false |> <| close_owner := Some (thread l) |>) in
              (Ok c, (l', (s', w))) in
  if closed s then (Ok Return_, (l, (s, w)))
  else if closing s then
    if bool_decide (close_owner s = Some (thread l)) then
      if negb (close_waiting_for_stores s) then (Ok Return_, (l, (s, w))) else go s
    else if close_async_pending s then (Raise ERuntime, (l, (s, w)))
    else if bool_decide (close_owner s <> None) then (Raise ERuntime, (l, (s, w)))
    else go s
  else go (s <| closing := true |>).
Definition rewait : CM claimed := fun '(l, (s, w)) =>
  let '(c, (l', s')) := wait_stores l s in (Ok c, (l', (s', w))).

(** The strategy is closed, then the terminal state published, then the manager
    released. *)
Definition call_strategy_close : CM unit := update (at_ Calling) (note CloseCalled).
Definition end_strategy_close : CM unit := fun '(l, (s, w)) =>
  let '(o, w') := strategy_close w in
  let ok := match o with Ok _ => true | Raise _ => false end in
  (o, (at_ (Called ok) l, (note (CloseEnded ok) s, w'))).
Definition close_failed (force_manager_release : bool) (e : exn) : CM unit := fun '(l, (s, w)) =>
  let s' := s <| close_owner := None |> <| close_waiting_for_stores := false |> in
  if force_manager_release then (Ok tt, (at_ Forced l, (s', w))) else (Raise e, (at_ Outside l, (s', w))).
Definition publish_closed : CM bool := fun '(l, (s, w)) =>
  let release := owns_connection_manager s && negb (manager_released s) in
  let s' := s <| closed := true |> <| closing := false |> <| close_async_pending := false |> <| close_owner := None |>
              <| opened_spider := None |> <| open_close_requested := false |> in
  (Ok release, (at_ (if release then Published else Outside) l, (if release then s' <| manager_released := true |> else s', w))).
Definition release : CM unit := fun '(l, (s, w)) =>
  let '(o, w') := release_manager w in (o, (at_ Outside l, (note Released s, w'))).

Definition finish_close (o : outcome unit) : CP unit :=
  let? releases := atomically publish_closed in
  if releases : bool then
    ptry (atomically release) (fun o' => match o, o' with Raise e, _ => praise e | Ok _, Raise e => praise e | Ok _, Ok _ => pret tt end)
  else match o with Raise e => praise e | Ok _ => pret tt end.
Definition destroy (force_manager_release : bool) : CP unit :=
  let? _ := atomically call_strategy_close in
  ptry (atomically end_strategy_close) (fun o =>
    let? _ := match o with Raise e => atomically (close_failed force_manager_release e) | Ok _ => pret tt end in
    finish_close o).

(** [_close_locked]. *)
Definition close_locked (force_manager_release : bool) : CP unit :=
  let? c := atomically claim_close in
  match c with
  | Return_ => pret tt
  | Proceed => destroy force_manager_release
  | Wait =>
      let? c := section_when (fun l '(s, _) => (active_store_count s =? 0) || own_stores l s) rewait in
      match c with Return_ | Wait => pret tt | Proceed => destroy force_manager_release end
  end.

(** [_close_spider_sync]. *)
Definition request_close (sp : option spider) : CM claimed := fun '(l, (s, w)) =>
  if closed s then (Ok Return_, (l, (s, w)))
  else if opening s then
    let s := s <| open_close_requested := true |> in
    if bool_decide (opening_owner s = Some (thread l)) then (Ok Return_, (l, (s, w))) else (Ok Wait, (l, (s, w)))
  else (Ok Proceed, (l, (s, w))).
Definition close_spider_sync (sp : option spider) : CP unit :=
  let? c := atomically (request_close sp) in
  match c with
  | Return_ => pret tt
  | Proceed => close_locked false
  | Wait => let? _ := section_when (fun _ '(s, _) => negb (opening s)) (fun x => (Ok tt, x)) in close_locked false
  end.

(** [_open_spider_sync]. *)
Definition begin_open (sp : option spider) (generation : option nat) : CM (option (spider * nat)) := fun '(l, (s, w)) =>
  if closed s then (Raise ERuntime, (l, (s, w)))
  else if closing s && bool_decide (generation = None) then (Raise ERuntime, (l, (s, w)))
  else match resolve_spider sp s with
  | Raise e => (Raise e, (l, (s, w)))
  | Ok resolved =>
      match opened_spider s with
      | Some current => if bool_decide (current = resolved) then (Ok None, (l, (s, w))) else (Raise ERuntime, (l, (s, w)))
      | None =>
          let start g s := (Ok (Some (resolved, g)), (l, (s <| opening := true |> <| opening_owner := Some (thread l) |>, w))) in
          match generation with
          | None =>
              let g := S (lifecycle_generation s) in
              start g (s <| lifecycle_generation := g |> <| opening_generation := Some g |> <| open_close_requested := false |>)
          | Some g => if bool_decide (opening_generation s = Some g) then start g s else (Raise ERuntime, (l, (s, w)))
          end
      end
  end.

(** The capability probe. *)
Definition probe : CM unit := fun '(l, (s, w)) =>
  match get_storage_backend w with
  | (Ok _, w') => (Ok tt, (l, (s <| storage_supported := Some true |>, w')))
  | (Raise ENotImplemented, w') => (Ok tt, (l, (s <| storage_supported := Some false |>, w')))
  | (Raise EConnection, w') => (Ok tt, (l, (s, w')))
  | (Raise e, w') => (Raise e, (l, (s, w')))
  end.

Definition end_opening (g : nat) (s : self) : self :=
  if bool_decide (opening_generation s = Some g)
  then s <| opening := false |> <| opening_generation := None |> <| opening_owner := None |> <| opening_operation := None |>
  else s.

Definition publish_open (sp : spider) (g : nat) : CM bool := fun '(l, (s, w)) =>
  let mine := bool_decide (opening_generation s = Some g) in
  let current := mine && negb (closed s) && negb (closing s) && negb (open_close_requested s) in
  let s := if current then s <| opened_spider := Some sp |> else s in
  let s := if mine then end_opening g s <| open_close_requested := false |> else s in
  (Ok current, (l, (s, w))).

(** Whether an open that is no longer current has to tear down. *)
Definition must_tear_down : CM bool := fun '(l, (s, w)) => (Ok (negb (closed s) && negb (close_async_pending s)), (l, (s, w))).

Definition open_spider_sync (sp : option spider) (generation : option nat) : CP unit :=
  let? opening := atomically (begin_open sp generation) in
  match opening with
  | None => pret tt
  | Some (resolved, g) =>
      ptry (let? _ := atomically (on_world (fun w => match validate_key_name (sp_name resolved) None with
                                                     | Ok _ => strategy_open w | Raise e => (Raise e, w) end)) in
            atomically probe) (fun o =>
        match o with
        | Raise e =>
            let? _ := atomically (update id (end_opening g)) in
            ptry (close_locked true) (fun _ => praise e)
        | Ok _ =>
            let? current := atomically (publish_open resolved g) in
            if current : bool then pret tt else
            let? teardown := atomically must_tear_down in
            if teardown : bool then close_locked true else pret tt
        end)
  end.

(** ** Admission *)

(** [_process_item_sync]; [reenter]: an extension called by the store closes the
    pipeline from within it. *)
Definition admit_store (sp : option spider) : CM spider := fun '(l, (s, w)) =>
  if closed s then (Raise ERuntime, (l, (s, w)))
  else if closing s then (Raise ERuntime, (l, (s, w)))
  else match resolve_spider sp s with
  | Raise e => (Raise e, (l, (s, w)))
  | Ok resolved =>
      (Ok resolved, (at_ Storing l, (note Entered (s <| active_store_count ::= Z.succ |>
        <| active_store_threads ::= fun m => <[thread l := default 0 (m !! thread l) + 1]> m |>), w)))
  end.

(** [_leave_store]. *)
Definition leave_section : CM bool := fun '(l, (s, w)) =>
  let remaining := default 0 (active_store_threads s !! thread l) - 1 in
  let s := note Left (s <| active_store_count ::= Z.pred |>
             <| active_store_threads ::= if remaining =? 0 then delete (thread l) else <[thread l := remaining]> |>) in
  if (active_store_count s =? 0) && closing s && close_waiting_for_stores s
  then (Ok true, (at_ Outside l, (s <| close_waiting_for_stores := false |> <| close_owner := None |>, w)))
  else (Ok false, (at_ Outside l, (s, w))).
Definition leave_store : CP unit :=
  let? resume := atomically leave_section in
  if resume : bool then
    ptry (close_locked false) (fun o =>
      match o with
      | Ok _ => pret tt
      | Raise e => atomically (update id (fun s => s <| pending_close_error := Some e |> <| closing := false |> <| close_owner := None |>))
      end)
  else pret tt.

Definition process_item_sync (item : Item) (sp : option spider) (reenter : bool) : CP Item :=
  let? resolved := atomically (admit_store sp) in
  pfinally
    (let? _ := if reenter : bool then ptry (close_spider_sync None) (fun _ => pret tt) else pret tt in
     atomically (on_shared (process_item_unlocked item resolved)))
    leave_store.

(** ** Under a running reactor

    A call of a worker goes on in its thread. *)
Definition in_worker : CM unit := update (fun l => l <| on_worker := true |>) id.
Definition finish_async_open (g : nat) (o : outcome unit) : CM unit := update id (fun s =>
  let s := s <| finished_openings ::= fun d => d ∪ {[ g ]} |> in
  match o with
  | Raise e =>
      let s := s <| opening_failure := Some e |> in
      if opening s then s <| opening := false |> <| opening_generation := None |> <| opening_owner := None |> <| opening_operation := None |>
      else s
  | Ok _ => if negb (opening s) then s <| opening_operation := None |> else s
  end).

(** [_open_spider_async]. *)
Definition reserve_open (sp : option spider) : CM (spider * nat) := fun '(l, (s, w)) =>
  if closed s then (Raise ERuntime, (l, (s, w)))
  else if closing s || opening s then (Raise ERuntime, (l, (s, w)))
  else match resolve_spider sp s with
  | Raise e => (Raise e, (l, (s, w)))
  | Ok resolved =>
      let g := S (lifecycle_generation s) in
      (Ok (resolved, g), (l, (s <| lifecycle_generation := g |> <| opening := true |> <| opening_generation := Some g |>
        <| opening_owner := None |> <| open_close_requested := false |> <| opening_failure := None |>, w)))
  end.
Definition open_spider_async (sp : option spider) : CP unit :=
  let? x := atomically (reserve_open sp) in
  let '(resolved, g) := x in
  ptry (atomically (on_world submit_thread)) (fun accepted =>
    let? _ := atomically (update id (fun s =>
      if bool_decide (opening_generation s = Some g) && opening s then s <| opening_operation := Some g |> else s)) in
    match accepted with
    | Raise e => let? _ := atomically (finish_async_open g (Raise e)) in praise e
    | Ok _ =>
        let? _ := atomically in_worker in
        ptry (open_spider_sync (Some resolved) (Some g)) (fun o =>
          let? _ := atomically (finish_async_open g o) in Done o)
    end).

(** A link of [_async_tail]: it starts when the links before it have settled. *)
Definition chain : CM nat := fun '(l, (s, w)) => (Ok (tail_next s), (l, (s <| tail_next ::= S |>, w))).
Definition settle_link : CM unit := update id (fun s => s <| tail_done ::= S |>).
Definition chained {A} (link : CP A) : CP A :=
  let? ticket := atomically chain in
  let? _ := section_when (fun _ '(s, _) => bool_decide (tail_done s = ticket)) (fun x => (Ok tt, x)) in
  ptry link (fun o => let? _ := atomically settle_link in Done o).

(** [_process_item_async]. *)
Definition check_admission (sp : option spider) : CM spider := fun '(l, (s, w)) =>
  if closed s || closing s || opening s then (Raise ERuntime, (l, (s, w))) else (resolve_spider sp s, (l, (s, w))).
Definition process_item_async (item : Item) (sp : option spider) (reenter : bool) : CP Item :=
  let? resolved := atomically (check_admission sp) in
  chained (
    let? _ := atomically (on_world submit_thread) in
    let? _ := atomically in_worker in
    process_item_sync item (Some resolved) reenter).

(** [_close_spider_async]; [openings] bounds the opens a close can find in
    progress, one after the other. *)
Inductive reserved := Covered | Behind (g : nat) | Reserved (sp : option spider).
Definition reserve_close (sp : option spider) : CM reserved := fun '(l, (s, w)) =>
  if closed s then (Ok Covered, (l, (s, w)))
  else match opening s, opening_operation s with
  | true, Some g => (Ok (Behind g), (l, (s <| open_close_requested := true |> <| close_async_pending := true |>, w)))
  | true, None => (Raise ERuntime, (l, (s, w)))
  | false, _ =>
      if closing s then
        if bool_decide (close_owner s = Some (thread l)) then (Ok Covered, (l, (s, w))) else (Raise ERuntime, (l, (s, w)))
      else
        match (match opened_spider s with Some _ => omap Some (resolve_spider sp s) | None => Ok None end) with
        | Raise e => (Raise e, (l, (s <| closing := true |> <| close_async_pending := true |>, w)))
        | Ok r => (Ok (Reserved r), (at_ Reserving l, (s <| closing := true |> <| close_async_pending := true |>, w)))
        end
  end.
Definition release_rejected_close : CM unit := update (at_ Outside) (fun s =>
  s <| closing := false |> <| close_async_pending := false |> <| close_owner := None |>).
Definition run_reserved_close (sp : option spider) : CP unit :=
  let? _ := atomically (update (at_ Outside) (fun s => s <| close_async_pending := false |> <| close_owner := None |>)) in
  close_spider_sync sp.
Definition start_close (sp : option spider) : CP unit :=
  ptry (atomically (on_world submit_thread)) (fun accepted =>
    match accepted with
    | Raise e => let? _ := atomically release_rejected_close in praise e
    | Ok _ => let? _ := atomically in_worker in run_reserved_close sp
    end).
Fixpoint close_spider_async (openings : nat) (sp : option spider) : CP unit :=
  let? x := atomically (reserve_close sp) in
  match x with
  | Covered => pret tt
  | Reserved r => chained (start_close r)
  | Behind g =>
      let? _ := section_when (fun _ '(s, _) => bool_decide (g ∈ finished_openings s)) (fun x => (Ok tt, x)) in
      match openings with
      | O => pret tt
      | S openings => ptry (close_spider_async openings sp) (fun o =>
          let? failure := atomically (fun x => (Ok (opening_failure (fst (snd x))), x)) in
          match failure with Some e => praise e | None => Done o end)
      end
  end.

(** ** The calls that may be in progress *)
Definition outside (t w : nat) : local := Local t w false Outside.
Inductive starting (reentrant : bool) : local -> prog local shared unit -> Prop :=
  | starting_open t w sp : starting reentrant (outside t w) (call (open_spider_sync sp None))
  | starting_close t w sp : starting reentrant (outside t w) (call (close_spider_sync sp))
  | starting_item t w item sp reenter : (reenter = true -> reentrant = true) ->
      starting reentrant (outside t w) (call (process_item_sync item sp reenter))
  | starting_open_async t w sp : starting reentrant (outside t w) (call (open_spider_async sp))
  | starting_close_async t w openings sp : starting reentrant (outside t w) (call (close_spider_async openings sp))
  | starting_item_async t w item sp reenter : (reenter = true -> reentrant = true) ->
      starting reentrant (outside t w) (call (process_item_async item sp reenter)).
End Pipeline.
End Pipeline.
