(* ===== verification/PipelineFacts.v ===== *)
(** * The item pipeline: what holds in every interleaving

    The invariant of the lifecycle of [Pipeline] when no extension closes the
    pipeline from within a store: the strategy is closed by one call at a time,
    with no item in a store and none admitted from then on, and the manager is
    released once, after it. *)

From S2P Require Export Threads Pipeline.

Module PipelineFacts.
Import Codec Pipeline.

Section Facts.
Context {D : IsoDates} {J : JsonText} {Item : Type} (as_dict : Item -> option value).
Context {W : Type} `{!Services W}.
Implicit Types (l : local) (s : self) (w : W) (h : list event).

(** ** The history *)
Fixpoint in_store h : Z :=
  match h with [] => 0 | Entered :: h' => in_store h' + 1 | Left :: h' => in_store h' - 1 | _ :: h' => in_store h' end.
Fixpoint open_calls h : Z :=
  match h with [] => 0 | CloseCalled :: h' => open_calls h' + 1 | CloseEnded _ :: h' => open_calls h' - 1 | _ :: h' => open_calls h' end.
Definition releases h : nat := length (List.filter (fun e => bool_decide (e = Released)) h).

Definition in_order (e : event) h : Prop :=
  match e with
  | Entered => open_calls h = 0 /\ CloseEnded true ∉ h /\ Released ∉ h
  | CloseCalled => open_calls h = 0 /\ in_store h = 0 /\ CloseEnded true ∉ h
  | Released => in_store h = 0 /\ Released ∉ h /\ exists ok, CloseEnded ok ∈ h
  | Left | CloseEnded _ => True
  end.
Fixpoint orderly h : Prop := match h with [] => True | e :: h' => in_order e h' /\ orderly h' end.

(** ** The invariant *)
Definition locks l : nat :=
  match at_stage l with Reserving | Waiting | Claimed | Calling | Called _ => 1 | Outside | Storing | Forced | Published => 0 end.
Definition storing l : Z := match at_stage l with Storing => 1 | _ => 0 end.
Definition calling l : Z := match at_stage l with Calling => 1 | _ => 0 end.
Definition releasing l : nat := match at_stage l with Published => 1 | _ => 0 end.
Definition storing_in (t : nat) l : Z := if bool_decide (thread l = t) then storing l else 0.

Fixpoint total {A} (f : A -> Z) (xs : list A) : Z := match xs with [] => 0 | x :: xs => f x + total f xs end.

(** A call that owns the close; a forced close may publish the terminal state
    from under it. *)
Definition owns l s : Prop := closed s = true \/ (closing s = true /\ close_owner s = Some (thread l)).
Definition reserves s : Prop := closed s = true \/ (closing s = true /\ close_async_pending s = true).
Definition mine l s : Prop :=
  match at_stage l with
  | Outside | Storing => True
  | Reserving => reserves s /\ CloseEnded true ∉ history s
  | Waiting => owns l s /\ CloseEnded true ∉ history s
  | Claimed | Calling => owns l s /\ CloseEnded true ∉ history s /\ active_store_count s = 0
  | Called ok => owns l s /\ active_store_count s = 0 /\ CloseEnded ok ∈ history s
  | Forced => (closed s = true \/ closing s = true) /\ active_store_count s = 0 /\ exists ok, CloseEnded ok ∈ history s
  | Published => closed s = true /\ exists ok, CloseEnded ok ∈ history s
  end.

Record base s : Prop := {
  b_waiting : close_waiting_for_stores s = false;
  b_closed : closed s = true -> active_store_count s = 0;
  b_released : manager_released s = true -> closed s = true;
  b_orderly : orderly (history s)
}.

Definition succeeded l : Prop := at_stage l = Called true.
Definition reserving l : Prop := at_stage l = Reserving.
Definition forced l : Prop := at_stage l = Forced.

Record inv (ls : list local) (x : self * W) : Prop := {
  i_base : base (fst x);
  i_mine : Forall (fun l => mine l (fst x)) ls;
  i_locks : (sum_list_with locks ls <= 1)%nat;
  i_count : active_store_count (fst x) = total storing ls /\ in_store (history (fst x)) = total storing ls;
  i_threads : forall t, default 0 (active_store_threads (fst x) !! t) = total (storing_in t) ls;
  i_calls : open_calls (history (fst x)) = total calling ls;
  i_ended : CloseEnded true ∈ history (fst x) -> closed (fst x) = true \/ Exists succeeded ls;
  i_forced : Exists reserving ls -> Exists forced ls -> closed (fst x) = true;
  i_releases : (sum_list_with releasing ls + releases (history (fst x)) = if manager_released (fst x) then 1 else 0)%nat
}.

(** A thread that is in a store or in a close takes no step in another call. *)
Definition busy l : bool := match at_stage l with Outside | Reserving => false | _ => true end.
Definition free_thread l (others : list local) : bool :=
  forallb (fun x => negb (busy x && (thread x =? thread l)%nat)) others.

Lemma total_perm {A} (f : A -> Z) xs ys : Permutation xs ys -> total f xs = total f ys.
Proof. induction 1; cbn; lia. Qed.
Lemma total_nonneg {A} (f : A -> Z) xs : (forall x, 0 <= f x) -> 0 <= total f xs.
Proof. intros Hf. induction xs as [|x xs IH]; cbn; [done|]. specialize (Hf x). lia. Qed.

Lemma pipe_inv_perm ls ls' x : Permutation ls ls' -> inv ls x -> inv ls' x.
Proof.
  intros Hp [H1 H2 H3 H4 H5 H6 H7 H9 H8]. split; [done|by rewrite <- Hp| | | | | | |].
  - by rewrite <- (sum_list_with_perm _ _ _ Hp).
  - by rewrite <- (total_perm _ _ _ Hp).
  - intros t. by rewrite H5, (total_perm _ _ _ Hp).
  - by rewrite H6, (total_perm _ _ _ Hp).
  - intros Hc. destruct (H7 Hc) as [?|Hx]; [by left|right]. by rewrite <- Hp.
  - by rewrite <- Hp.
  - by rewrite <- (sum_list_with_perm _ _ _ Hp).
Qed.

(** ** Sections that do not touch the lifecycle *)
Definition neutral s s' : Prop :=
  closed s' = closed s /\ closing s' = closing s /\ close_owner s' = close_owner s /\
  (close_async_pending s = true -> close_async_pending s' = true) /\
  close_waiting_for_stores s' = close_waiting_for_stores s /\ active_store_count s' = active_store_count s /\
  active_store_threads s' = active_store_threads s /\ manager_released s' = manager_released s /\ history s' = history s.

Lemma neutral_refl s : neutral s s.
Proof. by split_and!. Qed.

Lemma mine_neutral l s s' : neutral s s' -> mine l s -> mine l s'.
Proof.
  intros (E1 & E2 & E3 & E4 & E5 & E6 & E7 & E8 & E9). unfold mine, owns, reserves. rewrite E1, E2, E3, E6, E9.
  destruct (at_stage l); naive_solver.
Qed.

Lemma inv_neutral ls s w s' w' : neutral s s' -> inv ls (s, w) -> inv ls (s', w').
Proof.
  intros Hn [H1 H2 H3 H4 H5 H6 H7 H9 H8]. pose proof Hn as (E1 & E2 & E3 & E4 & E5 & E6 & E7 & E8 & E9).
  destruct H1 as [B1 B2 B3 B4]. cbn in *. split; cbn; rewrite ?E1, ?E6, ?E7, ?E8, ?E9; try done.
  - split; rewrite ?E1, ?E5, ?E6, ?E8, ?E9; done.
  - eapply Forall_impl; [exact H2|]. intros l. by apply mine_neutral.
Qed.

Abbreviation TWP p Q l := (twp free_thread inv p Q l).

(** ** Steps of the lifecycle *)
Lemma locks_bound l : (locks l <= 1)%nat.
Proof. unfold locks. destruct (at_stage l); lia. Qed.

Lemma sum_zero (f : local -> nat) ls : sum_list_with f ls = 0%nat -> forall x, x ∈ ls -> f x = 0%nat.
Proof.
  induction ls as [|y ls IH]; cbn; intros H x Hx; [by apply elem_of_nil in Hx|].
  apply elem_of_cons in Hx as [->|Hx]; [lia|]. apply IH; [lia|done].
Qed.
Lemma zero_sum (f : local -> nat) ls : (forall x, x ∈ ls -> f x = 0%nat) -> sum_list_with f ls = 0%nat.
Proof.
  induction ls as [|y ls IH]; cbn; intros H; [done|]. rewrite (H y) by left. apply IH. intros x Hx. apply H. by right.
Qed.

(** What a call without the lock knows. *)
Lemma unlocked_mine y s s' : locks y = 0%nat -> mine y s -> (closed s = true -> closed s' = true) ->
  (forced y -> closed s' = true \/ closing s' = true) -> (forced y -> active_store_count s = 0 -> active_store_count s' = 0) ->
  (forall ok, CloseEnded ok ∈ history s -> CloseEnded ok ∈ history s') -> mine y s'.
Proof.
  unfold locks, mine, forced. destruct (at_stage y); try done.
  - intros _ (H1 & H2 & (ok & H3)) Hc Hf1 Hf2 Hh. split_and!; [by apply Hf1|by apply Hf2|]. exists ok. by apply Hh.
  - intros _ [H1 (ok & H2)] Hc _ _ Hh. split; [by apply Hc|]. exists ok. by apply Hh.
Qed.

Lemma free_threads l fr x : free_thread l fr = true -> x ∈ fr -> busy x = true -> thread x <> thread l.
Proof.
  unfold free_thread. rewrite forallb_forall. intros H Hx Hb E. specialize (H x). rewrite Hb, E, Nat.eqb_refl in H.
  by specialize (H ltac:(by apply list_elem_of_In)).
Qed.

Record step_ok l (fr : list local) s l' s' : Prop := {
  s_base : base s';
  s_mine : mine l' s';
  s_others : forall x, x ∈ fr -> mine x s -> mine x s';
  s_locks : (locks l' <= locks l)%nat \/ forall x, x ∈ fr -> locks x = 0%nat;
  s_count : active_store_count s' + storing l = active_store_count s + storing l';
  s_store : in_store (history s') + storing l = in_store (history s) + storing l';
  s_threads : forall t, default 0 (active_store_threads s' !! t) + storing_in t l = default 0 (active_store_threads s !! t) + storing_in t l';
  s_calls : open_calls (history s') + calling l = open_calls (history s) + calling l';
  s_ended : CloseEnded true ∈ history s' -> closed s' = true \/ succeeded l' \/
    (CloseEnded true ∈ history s /\ (closed s = true -> closed s' = true) /\ ~ succeeded l);
  s_forced : (reserving l' -> reserving l \/ closed s' = true \/ forall x, x ∈ fr -> ~ forced x) /\
             (forced l' -> forced l \/ closed s' = true \/ forall x, x ∈ fr -> ~ reserving x) /\ (closed s = true -> closed s' = true);
  s_releases : (releasing l' + releases (history s') + (if manager_released s then 1 else 0) =
                releasing l + releases (history s) + (if manager_released s' then 1 else 0))%nat
}.

Lemma inv_of_step l fr s w l' s' w' : inv (l :: fr) (s, w) -> step_ok l fr s l' s' -> inv (l' :: fr) (s', w').
Proof.
  intros [H1 H2 H3 H4 H5 H6 H7 H9 H8] [S1 S2 S3 S4 S5 S6 S7 S8 S9 (S11 & S12 & S13) S10]. cbn in *. apply Forall_cons in H2 as [_ H2].
  destruct H4 as [H4 H4']. split; cbn; [done| | |split; lia| |lia| | |].
  - constructor; [done|]. apply Forall_forall. intros x Hx. rewrite Forall_forall in H2. by apply S3, H2.
  - destruct S4 as [S4|S4]; [lia|]. rewrite (zero_sum locks fr S4). pose proof (locks_bound l'). lia.
  - intros t. specialize (H5 t). specialize (S7 t). lia.
  - intros Hc. destruct (S9 Hc) as [?|[?|(Hc' & Hcl & Hn)]]; [by left|right; by constructor|].
    destruct (H7 Hc') as [?|[?|?]%Exists_cons]; [left; auto|done|right; by constructor].
  - intros Hr Hf. apply Exists_cons in Hr as [Hr|Hr], Hf as [Hf|Hf].
    + congruence.
    + destruct (S11 Hr) as [Hr'|[?|Hno]]; [|done|].
      * apply S13, H9; [by constructor|by constructor].
      * apply Exists_exists in Hf as (x & Hx & Hf). by destruct (Hno x Hx).
    + destruct (S12 Hf) as [Hf'|[?|Hno]]; [|done|].
      * apply S13, H9; [by constructor|by constructor].
      * apply Exists_exists in Hr as (x & Hx & Hr). by destruct (Hno x Hx).
    + apply S13, H9; by constructor.
  - destruct (manager_released s), (manager_released s'); lia.
Qed.

(** A locker is alone. *)
Lemma alone l fr s w : inv (l :: fr) (s, w) -> locks l = 1%nat -> forall x, x ∈ fr -> locks x = 0%nat.
Proof. intros [_ _ H _ _ _ _ _ _] Hl. cbn in H. apply sum_zero. lia. Qed.

Lemma mine_locker x s : mine x s -> locks x = 1%nat -> closed s = true \/ (closing s = true /\
  (close_owner s = None -> close_async_pending s = true)).
Proof.
  unfold mine, locks, owns, reserves. destruct (at_stage x); try done; intuition congruence.
Qed.

Lemma locks_cases x : locks x = 0%nat \/ locks x = 1%nat.
Proof. unfold locks. destruct (at_stage x); auto. Qed.

Lemma nobody_locks ls s w : inv ls (s, w) -> closed s = false ->
  (closing s = false \/ (close_owner s = None /\ close_async_pending s = false)) -> forall x, x ∈ ls -> locks x = 0%nat.
Proof.
  intros [_ H _ _ _ _ _ _ _] Hcl Hc x Hx. rewrite Forall_forall in H. destruct (locks_cases x) as [?|Hl]; [done|].
  destruct (mine_locker x s (H x Hx) Hl) as [E1|(E2 & E3)]; [cbn in *; congruence|].
  destruct Hc as [Hc|[Hc1 Hc2]]; [congruence|]. specialize (E3 Hc1). congruence.
Qed.

Lemma total_ge (f : local -> Z) ls x : (forall y, 0 <= f y) -> x ∈ ls -> f x <= total f ls.
Proof.
  intros Hf. induction ls as [|y ls IH]; intros Hx; [by apply elem_of_nil in Hx|]. cbn. pose proof (total_nonneg f ls Hf).
  apply elem_of_cons in Hx as [->|Hx]; [lia|]. specialize (IH Hx). specialize (Hf y). lia.
Qed.
Lemma storing_nonneg y : 0 <= storing y.
Proof. unfold storing. by destruct (at_stage y). Qed.
Lemma calling_nonneg y : 0 <= calling y.
Proof. unfold calling. by destruct (at_stage y). Qed.

Lemma total_zero (f : local -> Z) ls : (forall x, x ∈ ls -> f x = 0) -> total f ls = 0.
Proof. induction ls as [|y ls IH]; cbn; intros H; [done|]. rewrite (H y) by left. rewrite IH; [done|]. intros x Hx. apply H. by right. Qed.

(** Without lockers no call is open and none has succeeded before the end. *)
Lemma no_locker_history ls s w : inv ls (s, w) -> (forall x, x ∈ ls -> locks x = 0%nat) ->
  open_calls (history s) = 0 /\ (closed s = false -> CloseEnded true ∉ history s /\ Released ∉ history s).
Proof.
  intros [B _ _ _ _ H6 H7 _ H8] Hl. cbn in *. split.
  - rewrite H6. apply total_zero. intros x Hx. specialize (Hl x Hx). unfold locks, calling in *. by destruct (at_stage x).
  - intros Hc. split.
    + intros He. destruct (H7 He) as [?|Hx]; [congruence|]. apply Exists_exists in Hx as (x & Hx & Hs). specialize (Hl x Hx).
      unfold succeeded in Hs. unfold locks in Hl. by rewrite Hs in Hl.
    + intros Hin. destruct (manager_released s) eqn:Em; [by rewrite (b_released _ B Em) in Hc|].
      assert (releases (history s) <> 0%nat); [|lia]. clear -Hin. unfold releases. induction (history s) as [|e h IH]; [by apply elem_of_nil in Hin|].
      cbn. apply elem_of_cons in Hin as [<-|Hin]; [done|]. destruct (bool_decide (e = Released)); cbn; [lia|by apply IH].
Qed.

Lemma twp_step {A} enabled (m : M (local * (self * W)) A) Q l :
  (forall fr s w o l' s' w', inv (l :: fr) (s, w) -> (forall x, x ∈ fr -> busy x = true -> thread x <> thread l) ->
    enabled l (s, w) = true -> m (l, (s, w)) = (o, (l', (s', w'))) -> step_ok l fr s l' s' /\ Q o l') ->
  TWP (section_when enabled m) Q l.
Proof.
  intros H. apply twp_section. intros fr [s w] o l' [s' w'] Hi Hm He E.
  destruct (H fr s w o l' s' w' Hi) as [Hs HQ]; [|done|done|split; [by apply (inv_of_step l fr s w)|done]].
  intros x. by apply free_threads.
Qed.

Lemma twp_neutral {A} enabled (m : M (local * (self * W)) A) Q l :
  (forall s w, exists o l' s' w', m (l, (s, w)) = (o, (l', (s', w'))) /\ neutral s s' /\
    (l' = l \/ (busy l = false /\ at_stage l' = at_stage l)) /\ Q o l') ->
  TWP (section_when enabled m) Q l.
Proof.
  intros Hm. apply twp_section. intros fr [s w] o l' [s' w'] Hi _ _ E. destruct (Hm s w) as (o1 & l1 & s1 & w1 & E1 & Hn & Hl & HQ).
  rewrite E1 in E. injection E as <- <- <- <-. split; [|done]. apply (inv_neutral _ s w s1 w1) in Hi; [|done].
  destruct Hl as [->|[Hb Hl]]; [done|]. destruct Hi as [H1 H2 H3 H4 H5 H6 H7 H9 H8]. cbn in *.
  assert (forall t, storing_in t l1 = storing_in t l) as Ht.
  { intros t. unfold storing_in, storing. unfold busy in Hb. rewrite Hl. destruct (at_stage l); try done; by repeat case_bool_decide. }
  assert (storing l1 = storing l /\ calling l1 = calling l /\ locks l1 = locks l /\ releasing l1 = releasing l) as (E1' & E2' & E3' & E4')
    by (by unfold storing, calling, locks, releasing; rewrite Hl).
  split; cbn; rewrite ?E1', ?E2', ?E3', ?E4'; try done.
  - apply Forall_cons in H2 as [H2 H2']. constructor; [|done]. unfold busy in Hb. unfold mine in *. rewrite Hl. by destruct (at_stage l).
  - intros t. by rewrite Ht.
  - intros Hc. destruct (H7 Hc) as [?|[Hx|Hx]%Exists_cons]; [by left|right|right; by constructor].
    constructor. unfold succeeded in *. by rewrite Hl.
  - unfold reserving, forced in *. rewrite !Exists_cons in *. by rewrite Hl.
Qed.

(** ** The close *)
Lemma no_store_in l fr s w : inv (l :: fr) (s, w) -> (forall x, x ∈ fr -> busy x = true -> thread x <> thread l) ->
  default 0 (active_store_threads s !! thread l) = storing l.
Proof.
  intros [_ _ _ _ H _ _ _ _] Hf. cbn in H. rewrite H. unfold storing_in at 1. rewrite bool_decide_true by done.
  rewrite total_zero; [lia|]. intros x Hx. unfold storing_in. case_bool_decide as E; [|done]. unfold storing.
  destruct (at_stage x) eqn:Es; try done. exfalso. apply (Hf x Hx); [|done]. unfold busy. by rewrite Es.
Qed.

(** A step between stages that changes no counter of the history. *)
Lemma step_flags l fr s st s' :
  storing l = 0 -> calling l = 0 -> releasing l = 0%nat -> storing (at_ st l) = 0 -> calling (at_ st l) = 0 -> releasing (at_ st l) = 0%nat ->
  base s -> close_waiting_for_stores s' = false -> closed s' = closed s -> active_store_count s' = active_store_count s ->
  active_store_threads s' = active_store_threads s -> manager_released s' = manager_released s -> history s' = history s ->
  mine (at_ st l) s' -> (forall x, x ∈ fr -> mine x s -> mine x s') ->
  ((locks (at_ st l) <= locks l)%nat \/ forall x, x ∈ fr -> locks x = 0%nat) ->
  (st = Called true \/ at_stage l <> Called true \/ closed s = true) ->
  (st = Reserving -> forall x, x ∈ fr -> ~ forced x) -> (st = Forced -> forall x, x ∈ fr -> ~ reserving x) ->
  step_ok l fr s (at_ st l) s'.
Proof.
  intros E1 E2 E3 E4 E5 E6 [B1 B2 B3 B4] E7 E8 E9 E10 E11 E12 Hm Ho Hl Hs Hr Hf.
  split; rewrite ?E1, ?E2, ?E3, ?E4, ?E5, ?E6, ?E8, ?E9, ?E10, ?E11, ?E12; try done; try lia.
  - split; rewrite ?E8, ?E9, ?E11, ?E12; done.
  - intros t. unfold storing_in. rewrite E1, E4. by repeat case_bool_decide.
  - intros Hc. unfold succeeded. cbn. destruct Hs as [Hs|[Hs|Hs]]; auto.
  - split_and!; [intros E; right; right; by apply Hr|intros E; right; right; by apply Hf|done].
Qed.

Lemma others_unlocked (fr : list local) s s' : (forall x, x ∈ fr -> locks x = 0%nat) -> (closed s = true -> closed s' = true) ->
  ((closed s' = true \/ closing s' = true) \/ forall x, x ∈ fr -> ~ forced x) ->
  active_store_count s' = active_store_count s -> (forall e, e ∈ history s -> e ∈ history s') ->
  forall x, x ∈ fr -> mine x s -> mine x s'.
Proof.
  intros Hl Hc Hf Ha Hh x Hx Hm. apply (unlocked_mine x s); [by apply Hl|done|done| | |intros ok; apply Hh].
  - intros Hx'. destruct Hf as [?|Hf]; [done|]. by destruct (Hf x Hx).
  - intros _. by rewrite Ha.
Qed.

Lemma twp_claim l : at_stage l = Outside ->
  TWP (atomically claim_close) (fun o l' => at_stage l' = match o with Ok Proceed => Claimed | Ok Wait => Waiting | _ => Outside end) l.
Proof.
  intros El. apply twp_step. intros fr s w o l' s' w' Hi Hf _ E.
  assert (own_stores l s = false) as Hown by (unfold own_stores; rewrite (no_store_in l fr s w Hi Hf); unfold storing; by rewrite El).
  pose proof (i_base _ _ Hi) as B. cbn in B.
  assert (step_ok l fr s l s) as Hsame.
  { replace l with (at_ Outside l) at 2 by (destruct l; cbn in *; by rewrite El).
    apply step_flags; unfold storing, calling, releasing, locks, mine; cbn; rewrite ?El; try done; auto. apply (b_waiting _ B). }
  unfold claim_close in E. destruct (closed s) eqn:Ec; [by injection E as <- <- <- <-|].
  set (s1 := s <| closing := true |> <| close_async_pending := false |> <| close_owner := Some (thread l) |>) in *.
  assert (forall st, (forall x, x ∈ l :: fr -> locks x = 0%nat) -> st = Waiting \/ (st = Claimed /\ active_store_count s = 0) ->
    forall s', (s' = s1 \/ s' = s1 <| close_waiting_for_stores := false |>) -> step_ok l fr s (at_ st l) s') as Hgo.
  { intros st Hl Hst s2 Hs2. destruct (no_locker_history _ _ _ Hi Hl) as [_ [He _]]; [done|].
    pose proof (b_waiting _ B) as Hw.
    apply step_flags; unfold storing, calling, releasing, locks; cbn; rewrite ?El; try done; auto;
      try (destruct Hst as [->|[-> _]]; done); try (destruct Hs2 as [->| ->]; done).
    - unfold mine, owns. destruct Hst as [->|[-> Hst]], Hs2 as [->| ->]; cbn; auto.
    - apply others_unlocked; try (destruct Hs2 as [->| ->]; cbn; auto; done).
      + intros x Hx. apply Hl. by right.
    - right. intros x Hx. apply Hl. by right. }
  assert (wait_stores l s1 = if active_store_count s =? 0 then (Proceed, (at_ Claimed l, s1 <| close_waiting_for_stores := false |>))
                             else (Wait, (at_ Waiting l, s1))) as Hwait by (unfold wait_stores; change (own_stores l s1) with (own_stores l s); by rewrite Hown).
  assert ((forall x, x ∈ l :: fr -> locks x = 0%nat) -> (let '(c, (l', s')) := wait_stores l s1 in (Ok c, (l', (s', w)))) = (o, (l', (s', w'))) ->
    step_ok l fr s l' s' /\ at_stage l' = match o with Ok Proceed => Claimed | Ok Wait => Waiting | _ => Outside end) as Hfin.
  { intros Hl E'. rewrite Hwait in E'. destruct (active_store_count s =? 0) eqn:Ea; injection E' as <- <- <- <-; (split; [|done]).
    - apply Hgo; auto. right. split; [done|lia].
    - apply Hgo; auto. }
  pose proof (nobody_locks _ _ _ Hi Ec) as Hno.
  destruct (closing s) eqn:Ecl; [|apply Hfin; [apply Hno; by left|done]].
  case_bool_decide as Eo.
  - rewrite (b_waiting _ B) in E. cbn in E. by injection E as <- <- <- <-.
  - destruct (close_async_pending s) eqn:Ep; [by injection E as <- <- <- <-|].
    case_bool_decide as Eo2; [by injection E as <- <- <- <-|].
    apply Hfin; [apply Hno; right; split; [by destruct (close_owner s); [destruct Eo2|]|done]|].
    assert (s <| closing := true |> = s) as Es by (destruct s; cbn in *; by subst). unfold s1. by rewrite Es.
Qed.

Lemma inv_mine l fr s w : inv (l :: fr) (s, w) -> base s /\ mine l s.
Proof. intros [B H _ _ _ _ _ _ _]. by apply Forall_cons in H as [H _]. Qed.
Lemma inv_counts l fr s w : inv (l :: fr) (s, w) -> active_store_count s = 0 ->
  in_store (history s) = 0 /\ forall x, x ∈ l :: fr -> storing x = 0.
Proof.
  intros [_ _ _ [H H'] _ _ _ _ _] Ha. cbn [fst snd] in *. split; [lia|]. intros x Hx.
  pose proof (total_ge storing (l :: fr) x storing_nonneg Hx). pose proof (storing_nonneg x). lia.
Qed.
(** While one call holds the close no other one is in it. *)
Lemma inv_locker l fr s w : inv (l :: fr) (s, w) -> locks l = 1%nat ->
  (forall x, x ∈ fr -> locks x = 0%nat) /\ open_calls (history s) = calling l /\
  (CloseEnded true ∈ history s -> closed s = true \/ succeeded l).
Proof.
  intros Hi Hl. pose proof (alone _ _ _ _ Hi Hl) as Ha. destruct Hi as [_ _ _ _ _ H6 H7 _ _]. cbn [fst snd total] in *. split_and!; [done| |].
  - rewrite H6, (total_zero calling fr); [lia|]. intros x Hx. specialize (Ha x Hx). unfold locks, calling in *. by destruct (at_stage x).
  - intros Hc. destruct (H7 Hc) as [?|[?|Hx]%Exists_cons]; [by left|by right|]. apply Exists_exists in Hx as (x & Hx & Hs).
    specialize (Ha x Hx). unfold succeeded, locks in *. by rewrite Hs in Ha.
Qed.

Lemma twp_rewait l : at_stage l = Waiting ->
  TWP (section_when (fun l '(s, _) => (active_store_count s =? 0) || own_stores l s) rewait)
    (fun o l' => o = Ok Proceed /\ at_stage l' = Claimed) l.
Proof.
  intros El. apply twp_step. intros fr s w o l' s' w' Hi Hf He E.
  assert (own_stores l s = false) as Hown by (unfold own_stores; rewrite (no_store_in l fr s w Hi Hf); unfold storing; by rewrite El).
  rewrite Hown, orb_false_r in He. unfold rewait, wait_stores in E. rewrite He in E. injection E as <- <- <- <-. split; [|done].
  destruct (inv_mine _ _ _ _ Hi) as [B Hm]. unfold mine in Hm. rewrite El in Hm.
  destruct (inv_locker _ _ _ _ Hi) as (Ha & _ & _); [unfold locks; by rewrite El|].
  apply step_flags; unfold storing, calling, releasing, locks; cbn; rewrite ?El; try done; auto.
  - unfold mine. cbn. destruct Hm as [Hm Hc]. split_and!; [done|done|lia].
Qed.

Lemma twp_call_close l : at_stage l = Claimed -> TWP (atomically call_strategy_close) (fun o l' => o = Ok tt /\ at_stage l' = Calling) l.
Proof.
  intros El. apply twp_step. intros fr s w o l' s' w' Hi _ _ E. injection E as <- <- <- <-. split; [|done].
  destruct (inv_mine _ _ _ _ Hi) as [[B1 B2 B3 B4] Hm]. unfold mine in Hm. rewrite El in Hm. destruct Hm as (Ho & Hc & Hs).
  destruct (inv_locker _ _ _ _ Hi) as (Ha & Hcalls & _); [unfold locks; by rewrite El|].
  destruct (inv_counts _ _ _ _ Hi Hs) as [Hst _]. unfold calling in Hcalls. rewrite El in Hcalls.
  split; unfold storing, calling, releasing, locks, storing_in, succeeded, reserving, forced, storing; cbn; rewrite ?El; try done; try lia.
  - unfold mine. cbn. split_and!; [done| |done]. intros [?|?]%elem_of_cons; done.
  - apply others_unlocked; auto; [left; unfold owns in Ho; cbn; naive_solver|]. intros e. by right.
  - intros [?|?]%elem_of_cons; [done|]. naive_solver.
Qed.

Lemma twp_end_close l : at_stage l = Calling -> TWP (atomically end_strategy_close)
  (fun o l' => at_stage l' = Called (match o with Ok _ => true | Raise _ => false end)) l.
Proof.
  intros El. apply twp_step. intros fr s w o l' s' w' Hi _ _ E. unfold end_strategy_close in E. destruct (strategy_close w) as [o0 w0].
  injection E as <- <- <- <-. split; [|done]. set (ok := match o0 with Ok _ => true | Raise _ => false end).
  destruct (inv_mine _ _ _ _ Hi) as [[B1 B2 B3 B4] Hm]. unfold mine in Hm. rewrite El in Hm. destruct Hm as (Ho & Hc & Hs).
  destruct (inv_locker _ _ _ _ Hi) as (Ha & Hcalls & _); [unfold locks; by rewrite El|].
  split; unfold storing, calling, releasing, locks, storing_in, succeeded, reserving, forced, storing; cbn; rewrite ?El; try done; try lia.
  - unfold mine. cbn. split_and!; [done|done|]. by left.
  - apply others_unlocked; auto; [left; unfold owns in Ho; cbn; naive_solver|]. intros e. by right.
  - intros [[= ->]|?]%elem_of_cons; [auto|done].
Qed.

Lemma twp_close_failed l force e : at_stage l = Called false ->
  TWP (atomically (close_failed force e)) (fun o l' => if force then o = Ok tt /\ at_stage l' = Forced else o = Raise e /\ at_stage l' = Outside) l.
Proof.
  intros El. apply twp_step. intros fr s w o l' s' w' Hi _ _ E.
  destruct (inv_mine _ _ _ _ Hi) as [B Hm]. unfold mine in Hm. rewrite El in Hm. destruct Hm as (Ho & Hc & Hs).
  destruct (inv_locker _ _ _ _ Hi) as (Ha & _ & _); [unfold locks; by rewrite El|].
  set (s1 := s <| close_owner := None |> <| close_waiting_for_stores := false |>).
  assert (forall st, st = Forced \/ st = Outside -> step_ok l fr s (at_ st l) s1) as Hgo.
  { intros st Hst. apply step_flags; unfold storing, calling, releasing, locks; cbn; rewrite ?El; try done; auto;
      try (destruct Hst as [->| ->]; done).
    - unfold mine, owns in *. destruct Hst as [->| ->]; cbn; [|done]. split_and!; [naive_solver|done|by eexists].
    - apply others_unlocked; auto. left. unfold owns in Ho. cbn. naive_solver.
    - intros _ x Hx Hr. specialize (Ha x Hx). unfold reserving, locks in *. by rewrite Hr in Ha. }
  unfold close_failed in E. destruct force; injection E as <- <- <- <-; (split; [apply Hgo; auto|done]).
Qed.

Lemma twp_publish l : at_stage l = Called true \/ at_stage l = Forced ->
  TWP (atomically publish_closed) (fun o l' => o = Ok true /\ at_stage l' = Published \/ o = Ok false /\ at_stage l' = Outside) l.
Proof.
  intros El. apply twp_step. intros fr s w o l' s' w' Hi _ _ E. unfold publish_closed in E.
  set (rel := owns_connection_manager s && negb (manager_released s)) in *.
  injection E as <- <- <- <-. split; [|destruct rel; auto].
  destruct (inv_mine _ _ _ _ Hi) as [[B1 B2 B3 B4] Hm].
  assert (active_store_count s = 0 /\ exists ok, CloseEnded ok ∈ history s) as (Hs & Hok).
  { unfold mine in Hm. destruct El as [El|El]; rewrite El in Hm; naive_solver. }
  assert (storing l = 0 /\ calling l = 0 /\ releasing l = 0%nat) as (E1 & E2 & E3)
    by (unfold storing, calling, releasing; by destruct El as [->| ->]).
  set (st := if rel then Published else Outside).
  assert (storing (at_ st l) = 0 /\ calling (at_ st l) = 0 /\ locks (at_ st l) = 0%nat /\ releasing (at_ st l) = if rel then 1%nat else 0%nat)
    as (F1 & F2 & F3 & F4) by (unfold st; by destruct rel).
  set (s2 := if rel then _ else _).
  assert (closed s2 = true /\ close_waiting_for_stores s2 = false /\ active_store_count s2 = 0 /\ history s2 = history s /\
    active_store_threads s2 = active_store_threads s /\ manager_released s2 = (manager_released s || rel)) as (G1 & G2 & G3 & G4 & G5 & G6).
  { unfold s2. destruct rel; cbn; rewrite ?orb_true_r, ?orb_false_r; by split_and!. }
  split; rewrite ?E1, ?E2, ?E3, ?F1, ?F2, ?F3, ?F4, ?G3, ?G4, ?G5, ?G6; try done; try lia.
  - split; rewrite ?G1, ?G3, ?G4; done.
  - unfold mine. cbn. unfold st. destruct rel; [|done]. rewrite G4. by split.
  - intros x _ Hx. unfold mine, owns, reserves in *. rewrite G1, G3, G4. destruct (at_stage x); naive_solver.
  - intros t. unfold storing_in. rewrite E1, F1. by repeat case_bool_decide.
  - by left.
  - unfold reserving, forced. rewrite G1. by split_and!; auto.
  - unfold rel. destruct (manager_released s), (owns_connection_manager s); cbn; lia.
Qed.

Lemma releases_nil h : releases h = 0%nat -> Released ∉ h.
Proof.
  unfold releases. induction h as [|e h IH]; intros H Hin; [by apply elem_of_nil in Hin|]. cbn in H.
  apply elem_of_cons in Hin as [<-|Hin]; [done|]. destruct (bool_decide (e = Released)); [done|]. by apply IH.
Qed.

Lemma twp_release l : at_stage l = Published -> TWP (atomically release) (fun _ l' => at_stage l' = Outside) l.
Proof.
  intros El. apply twp_step. intros fr s w o l' s' w' Hi _ _ E. unfold release in E. destruct (release_manager w) as [o0 w0].
  injection E as <- <- <- <-. split; [|done]. destruct (inv_mine _ _ _ _ Hi) as [[B1 B2 B3 B4] Hm].
  unfold mine in Hm. rewrite El in Hm. destruct Hm as [Hc Hok].
  destruct (inv_counts _ _ _ _ Hi (B2 Hc)) as [Hst _].
  assert (Released ∉ history s) as Hr.
  { apply releases_nil. pose proof (i_releases _ _ Hi) as H. cbn in H. unfold releasing at 1 in H. rewrite El in H.
    destruct (manager_released s); lia. }
  assert (forall ok, CloseEnded ok ∈ Released :: history s <-> CloseEnded ok ∈ history s) as Hiff.
  { intros ok. rewrite elem_of_cons. naive_solver. }
  split; unfold storing, calling, releasing, locks, storing_in, succeeded, reserving, forced, storing; cbn; rewrite ?El; try done; try lia; auto.
  - intros x _. unfold mine, owns, reserves. cbn. destruct (at_stage x); rewrite ?Hiff; try done; by setoid_rewrite Hiff.
Qed.

(** Every part of a close ends outside of it. *)
Definition out {A} (o : outcome A) l : Prop := at_stage l = Outside.

Lemma twp_finish_close o l : at_stage l = Called true \/ at_stage l = Forced -> TWP (finish_close o) out l.
Proof.
  intros El. apply twp_bind. eapply twp_mono; [|by apply twp_publish]. cbv beta. intros _ l1 [[-> E1]|[-> E1]]; cbv beta iota.
  - apply twp_try. eapply twp_mono; [|by apply twp_release]. cbv beta. intros o' l2 E2. destruct o, o'; by apply twp_done.
  - destruct o; by apply twp_done.
Qed.

Lemma twp_destroy force l : at_stage l = Claimed -> TWP (destroy force) out l.
Proof.
  intros El. apply twp_bind. eapply twp_mono; [|by apply twp_call_close]. cbv beta. intros _ l1 [-> E1]; cbv beta iota.
  apply twp_try. eapply twp_mono; [|by apply twp_end_close]. cbv beta. intros o2 l2 E2. destruct o2 as [[]|e].
  - apply twp_bind, twp_done, twp_finish_close. by left.
  - apply twp_bind. eapply twp_mono; [|by apply twp_close_failed]. cbv beta. intros o3 l3. destruct force.
    + intros [-> E3]. apply twp_finish_close. by right.
    + by intros [-> E3].
Qed.

Lemma twp_close_locked force l : at_stage l = Outside -> TWP (close_locked force) out l.
Proof.
  intros El. apply twp_bind. eapply twp_mono; [|by apply twp_claim]. cbv beta. intros [[]|e] l1 E1; [by apply twp_done|by apply twp_destroy| |done].
  apply twp_bind. eapply twp_mono; [|by apply twp_rewait]. cbv beta. intros o l2 [-> E2]. by apply twp_destroy.
Qed.

(** ** Admission *)
Lemma twp_admit sp l : at_stage l = Outside ->
  TWP (atomically (admit_store sp)) (fun o l' => at_stage l' = match o with Ok _ => Storing | Raise _ => Outside end) l.
Proof.
  intros El. apply twp_step. intros fr s w o l' s' w' Hi Hf _ E. unfold admit_store in E.
  destruct (inv_mine _ _ _ _ Hi) as [[B1 B2 B3 B4] _].
  assert (step_ok l fr s l s) as Hsame.
  { replace l with (at_ Outside l) at 2 by (destruct l; cbn in *; by rewrite El).
    apply step_flags; unfold storing, calling, releasing, locks, mine; cbn; rewrite ?El; try done; auto. }
  destruct (closed s) eqn:Ec; [by injection E as <- <- <- <-|]. destruct (closing s) eqn:Ecl; [by injection E as <- <- <- <-|].
  destruct (resolve_spider sp s) as [r|e]; injection E as <- <- <- <-; [|done]. split; [|done].
  assert (forall x, x ∈ l :: fr -> locks x = 0%nat) as Hl by (apply (nobody_locks _ _ _ Hi Ec); by left).
  destruct (no_locker_history _ _ _ Hi Hl) as [Hcalls He]. destruct (He Ec) as [He1 He2].
  assert (forall ok, CloseEnded ok ∈ Entered :: history s <-> CloseEnded ok ∈ history s) as Hiff.
  { intros ok. rewrite elem_of_cons. naive_solver. }
  split; unfold calling, releasing, locks, succeeded, reserving, forced; unfold storing; cbn; rewrite ?El; try done; try lia.
  - split; cbn; [done|intros; congruence|by intros ?%B3|by split_and!].
  - intros x Hx Hm. specialize (Hl x ltac:(by right)). unfold locks, mine in *. cbn. rewrite Ec, Ecl in *. destruct (at_stage x); naive_solver.
  - intros t. unfold storing_in, storing. rewrite El. cbn. change (thread (at_ Storing l)) with (thread l). case_bool_decide as Et.
    + subst t. rewrite lookup_insert_eq. cbn. lia.
    + rewrite lookup_insert_ne by done. lia.
  - intros Hc. apply Hiff in Hc. auto.
Qed.

Lemma twp_leave_section l : at_stage l = Storing ->
  TWP (atomically leave_section) (fun o l' => o = Ok false /\ at_stage l' = Outside) l.
Proof.
  intros El. apply twp_step. intros fr s w o l' s' w' Hi Hf _ E.
  pose proof (no_store_in l fr s w Hi Hf) as Hone. unfold storing in Hone. rewrite El in Hone.
  destruct (inv_mine _ _ _ _ Hi) as [[B1 B2 B3 B4] _]. unfold leave_section in E. rewrite Hone in E. cbn in E.
  rewrite B1, andb_false_r in E. injection E as <- <- <- <-. split; [|done].
  assert (0 < active_store_count s) as Hpos.
  { pose proof (i_count _ _ Hi) as [H _]. cbn in H. unfold storing at 1 in H. rewrite El in H.
    pose proof (total_nonneg storing fr storing_nonneg). lia. }
  assert (closed s = false) as Hc by (destruct (closed s); [specialize (B2 eq_refl); lia|done]).
  assert (forall ok, CloseEnded ok ∈ Left :: history s <-> CloseEnded ok ∈ history s) as Hiff.
  { intros ok. rewrite elem_of_cons. naive_solver. }
  split; unfold calling, releasing, locks, succeeded, reserving, forced; unfold storing; cbn; rewrite ?El; try done; try lia.
  - split; cbn; [done|intros; congruence|done|by split_and!].
  - intros x Hx Hm. unfold mine, owns, reserves in *. cbn. rewrite Hc in *. destruct (at_stage x); rewrite ?Hiff; try done; naive_solver lia.
  - intros t. unfold storing_in, storing. rewrite El. cbn. change (thread (at_ Outside l)) with (thread l). case_bool_decide as Et.
    + subst t. rewrite lookup_delete_eq, Hone. cbn. lia.
    + rewrite lookup_delete_ne by done. lia.
  - intros Hx. apply Hiff in Hx. right. right. by split_and!.
Qed.

(** ** Sections outside of stores and closes *)
Definition keeps {A} (m : M (self * W) A) : Prop := forall s w o s' w', m (s, w) = (o, (s', w')) -> neutral s s'.

Lemma neutral_trans s1 s2 s3 : neutral s1 s2 -> neutral s2 s3 -> neutral s1 s3.
Proof. unfold neutral. intuition congruence. Qed.
Lemma keeps_ret {A} (a : A) : keeps (ret a).
Proof. intros s w o s' w' [= <- <- <-]. apply neutral_refl. Qed.
Lemma keeps_raise {A} e : keeps (raise (A := A) e).
Proof. intros s w o s' w' [= <- <- <-]. apply neutral_refl. Qed.
Lemma keeps_get : keeps get.
Proof. intros s w o s' w' [= <- <- <-]. apply neutral_refl. Qed.
Lemma keeps_bind {A B} (m : M (self * W) A) (k : A -> M (self * W) B) : keeps m -> (forall a, keeps (k a)) -> keeps (bind m k).
Proof.
  intros Hm Hk s w o s' w' E. unfold bind in E. destruct (m (s, w)) as [[a|e] [s1 w1]] eqn:Em.
  - eapply neutral_trans; [by eapply Hm|by eapply Hk].
  - injection E as <- <- <-. by eapply Hm.
Qed.
Lemma keeps_attempt {A} (m : M (self * W) A) : keeps m -> keeps (attempt m).
Proof.
  intros Hm s w o s' w' E. unfold attempt in E. destruct (m (s, w)) as [o1 [s1 w1]] eqn:Em.
  destruct o1; injection E as <- <- <-; by eapply Hm.
Qed.
Lemma keeps_world {A} (m : M W A) : keeps (on_snd m).
Proof.
  intros s w o s' w' E. unfold on_snd in E. destruct (m w) as [o1 w1]. injection E as <- <- <-. apply neutral_refl.
Qed.
Lemma keeps_modify (f : self -> self) : (forall s, neutral s (f s)) -> keeps (on_fst (modify f)).
Proof. intros Hf s w o s' w' [= <- <- <-]. apply Hf. Qed.

Create HintDb keeps.
#[local] Hint Resolve keeps_ret keeps_raise keeps_get keeps_bind keeps_attempt keeps_world : keeps.

Lemma keeps_stat key : keeps (inc_stat key).
Proof. apply keeps_modify. intros s. by split_and!. Qed.
#[local] Hint Resolve keeps_stat : keeps.

Lemma keeps_process item sp : keeps (process_item_unlocked as_dict item sp).
Proof.
  apply keeps_bind; [apply keeps_get|]. intros [s0 w0]. case_bool_decide; [eauto with keeps|]. apply keeps_bind.
  { intros s w o s' w' E. unfold generate_item_key in E. destruct (stamp w) as [[? ?] ?]. injection E as <- <- <-. apply neutral_refl. }
  intros key. destruct (serialize_item as_dict item) as [data|e].
  - case_match; [eauto 10 with keeps|]. apply keeps_bind; [apply keeps_attempt; unfold store_item; eauto with keeps|].
    intros [[]|e]; [apply keeps_bind; [apply keeps_modify; intros s; by split_and!|eauto with keeps]|].
    case_match; [eauto with keeps|]. apply keeps_bind; [eauto with keeps|]. intros _. unfold count_failure.
    apply keeps_bind; [eauto with keeps|]. intros [s1 w1]. case_match; [|eauto with keeps].
    apply keeps_bind; [apply keeps_modify; intros s; by split_and!|]. intros _. apply keeps_bind; [eauto with keeps|]. intros [s2 w2].
    case_match; eauto with keeps.
  - destruct e; cbn; eauto with keeps.
Qed.

(** A section that leaves its call where it is. *)
Lemma twp_stay {A} enabled (m : M (local * (self * W)) A) (Q : outcome A -> local -> Prop) l :
  (forall s w, fst (snd (m (l, (s, w)))) = l /\ neutral s (fst (snd (snd (m (l, (s, w))))))) -> (forall o, Q o l) ->
  TWP (section_when enabled m) Q l.
Proof.
  intros Hm HQ. apply twp_neutral. intros s w. destruct (Hm s w) as [H1 H2]. destruct (m (l, (s, w))) as [o [l' [s' w']]].
  exists o, l', s', w'. cbn in *. split_and!; [done|done|by left|]. by rewrite H1.
Qed.

Lemma twp_request_close sp l Q : (forall o, Q o l) -> TWP (atomically (request_close sp)) Q l.
Proof. apply twp_stay. intros s w. unfold request_close. repeat (case_match; cbn); split; try done; by split_and!. Qed.

Lemma twp_close_spider_sync sp l : at_stage l = Outside -> TWP (close_spider_sync sp) out l.
Proof.
  intros El. apply twp_bind, twp_request_close. intros [[]|e]; [by apply twp_done|by apply twp_close_locked| |done].
  apply twp_bind, twp_stay; [intros s w; split; [done|apply neutral_refl]|]. intros [[]|e]; [by apply twp_close_locked|done].
Qed.

Lemma twp_begin_open sp g l Q : (forall o, Q o l) -> TWP (atomically (begin_open sp g)) Q l.
Proof. apply twp_stay. intros s w. unfold begin_open. repeat (case_match; cbn); split; try done; by split_and!. Qed.
Lemma twp_world {A} (m : M W A) l Q : (forall o, Q o l) -> TWP (atomically (on_world m)) Q l.
Proof.
  apply twp_stay. intros s w. unfold on_world, on_shared, on_snd. destruct (m w). split; [done|apply neutral_refl].
Qed.
Lemma twp_probe l Q : (forall o, Q o l) -> TWP (atomically probe) Q l.
Proof. apply twp_stay. intros s w. unfold probe. repeat (case_match; cbn); split; try done; by split_and!. Qed.
Lemma twp_update f l (Q : outcome unit -> local -> Prop) : (forall s, neutral s (f s)) -> Q (Ok tt) l -> TWP (atomically (update id f)) Q l.
Proof. intros Hf HQ. apply twp_neutral. intros s w. eexists _, _, _, _. split; [reflexivity|]. split_and!; [apply Hf|by left|done]. Qed.
Lemma neutral_end_opening g s : neutral s (end_opening g s).
Proof. unfold end_opening. case_match; by split_and!. Qed.
Lemma twp_publish_open sp g l Q : (forall o, Q o l) -> TWP (atomically (publish_open sp g)) Q l.
Proof.
  apply twp_stay. intros s w. unfold publish_open, end_opening. repeat (case_match; cbn); split; try done; by split_and!.
Qed.
Lemma twp_must_tear_down l Q : (forall o, Q o l) -> TWP (atomically must_tear_down) Q l.
Proof. apply twp_stay. intros s w. split; [done|apply neutral_refl]. Qed.

Lemma twp_open_spider_sync sp g l : at_stage l = Outside -> TWP (open_spider_sync sp g) out l.
Proof.
  intros El. apply twp_bind, twp_begin_open. intros [[[r n]|]|e]; [|by apply twp_done|done].
  apply twp_try, twp_bind, twp_world.
  assert (forall o : outcome unit, TWP (match o with
        | Raise e =>
            let? _ := atomically (update id (end_opening n)) in
            ptry (close_locked true) (fun _ => praise e)
        | Ok _ =>
            let? current := atomically (publish_open r n) in
            if current : bool then pret tt else
            let? teardown := atomically must_tear_down in
            if teardown : bool then close_locked true else pret tt
        end) out l) as Hk.
  { intros [[]|e].
    - apply twp_bind, twp_publish_open. intros [[]|e]; [by apply twp_done| |done].
      apply twp_bind, twp_must_tear_down. intros [[]|e]; [by apply twp_close_locked|by apply twp_done|done].
    - apply twp_bind, twp_update; [apply neutral_end_opening|].
      apply twp_try. eapply twp_mono; [|by apply twp_close_locked]. intros o' l' E'. by apply twp_done. }
  intros [[]|e]; [|apply (Hk (Raise e))]. apply twp_probe. intros o. apply Hk.
Qed.

Lemma twp_leave_store l : at_stage l = Storing -> TWP leave_store out l.
Proof.
  intros El. apply twp_bind. eapply twp_mono; [|by apply twp_leave_section]. cbv beta. intros o l' [-> E']. by apply twp_done.
Qed.

Lemma twp_process_item_sync item sp l : at_stage l = Outside -> TWP (process_item_sync as_dict item sp false) out l.
Proof.
  intros El. apply twp_bind. eapply twp_mono; [|by apply twp_admit]. cbv beta. intros [r|e] l1 E1; [|done].
  apply twp_finally, twp_bind, twp_done. apply twp_stay.
  - intros s w. unfold on_shared, on_snd. destruct (process_item_unlocked as_dict item r (s, w)) as [o [s' w']] eqn:E. split; [done|].
    by apply (keeps_process item r s w o s' w').
  - intros o. eapply twp_mono; [|by apply twp_leave_store]. intros [[]|e] l2 E2; done.
Qed.

(** ** Under a running reactor *)
Lemma twp_in_worker l (Q : outcome unit -> local -> Prop) : busy l = false ->
  (forall l', at_stage l' = at_stage l -> Q (Ok tt) l') -> TWP (atomically in_worker) Q l.
Proof.
  intros Hb HQ. apply twp_neutral. intros s w. eexists _, _, _, _. split; [reflexivity|].
  split; [apply neutral_refl|]. split; [by right|]. by apply HQ.
Qed.

Lemma twp_chained {A} (link : CP A) (Q : outcome A -> local -> Prop) l : TWP link Q l -> TWP (chained link) Q l.
Proof.
  intros Hl. apply twp_bind, twp_neutral. intros s w. eexists _, _, _, _. split; [reflexivity|]. split_and!; try done; [by left|].
  apply twp_bind, twp_neutral. intros s1 w1. eexists _, _, _, _. split; [reflexivity|]. split; [apply neutral_refl|]. split; [by left|].
  apply twp_try. eapply twp_mono; [|exact Hl]. intros o l' HQ. apply twp_bind, twp_update; [intros s2; by split_and!|].
  by apply twp_done.
Qed.

Lemma twp_process_item_async item sp l : at_stage l = Outside -> TWP (process_item_async as_dict item sp false) out l.
Proof.
  intros El. apply twp_bind, twp_stay; [intros s w; unfold check_admission; case_match; (split; [done|apply neutral_refl])|].
  intros [r|e]; [|done]. apply twp_chained. apply twp_bind, twp_world. intros [[]|e]; [|done].
  apply twp_bind, twp_in_worker; [unfold busy; by rewrite El|]. intros l' E'. apply twp_process_item_sync. by rewrite E'.
Qed.

Lemma neutral_finish_open g o s :
  neutral s (let s1 := s <| finished_openings ::= fun d => d ∪ {[ g ]} |> in
    match o : outcome unit with
    | Raise e => let s2 := s1 <| opening_failure := Some e |> in
        if opening s2 then s2 <| opening := false |> <| opening_generation := None |> <| opening_owner := None |> <| opening_operation := None |> else s2
    | Ok _ => if negb (opening s1) then s1 <| opening_operation := None |> else s1
    end).
Proof. destruct o; cbn; case_match; by split_and!. Qed.

Lemma twp_open_spider_async sp l : at_stage l = Outside -> TWP (open_spider_async sp) out l.
Proof.
  intros El. apply twp_bind, twp_stay.
  { intros s w. unfold reserve_open. repeat (case_match; cbn); split; try done; by split_and!. }
  intros [[r g]|e]; [|done]. apply twp_try, twp_world. intros accepted. apply twp_bind, twp_update.
  { intros s. case_match; by split_and!. }
  destruct accepted as [[]|e].
  - apply twp_bind, twp_in_worker; [unfold busy; by rewrite El|]. intros l' E'. apply twp_try.
    eapply twp_mono; [|apply twp_open_spider_sync; by rewrite E']. intros o l2 E2.
    apply twp_bind, twp_update; [apply (neutral_finish_open g o)|]. by apply twp_done.
  - apply twp_bind, twp_update; [apply (neutral_finish_open g (Raise e))|]. by apply twp_done.
Qed.

Lemma twp_reserve_close sp l : at_stage l = Outside ->
  TWP (atomically (reserve_close sp)) (fun o l' => at_stage l' = match o with Ok (Reserved _) => Reserving | _ => Outside end) l.
Proof.
  intros El. apply twp_step. intros fr s w o l' s' w' Hi _ _ E.
  destruct (inv_mine _ _ _ _ Hi) as [B _]. pose proof (b_waiting _ B) as Hw.
  assert (forall s', neutral s s' -> step_ok l fr s l s') as Hsame.
  { intros s1 (N1 & N2 & N3 & N4 & N5 & N6 & N7 & N8 & N9). replace l with (at_ Outside l) at 2 by (destruct l; cbn in *; by rewrite El).
    apply step_flags; unfold storing, calling, releasing, locks; cbn; rewrite ?El; try done; auto; [by rewrite N5|].
    intros x _. apply mine_neutral. by split_and!. }
  unfold reserve_close in E. destruct (closed s) eqn:Ec; [injection E as <- <- <- <-; split; [apply Hsame, neutral_refl|done]|].
  destruct (opening s); [destruct (opening_operation s); injection E as <- <- <- <-; (split; [apply Hsame; by split_and!|done])|].
  destruct (closing s) eqn:Ecl.
  { case_bool_decide; injection E as <- <- <- <-; (split; [apply Hsame, neutral_refl|done]). }
  set (s1 := s <| closing := true |> <| close_async_pending := true |>) in *.
  assert (exists r, o = Ok (Reserved r) /\ l' = at_ Reserving l /\ s' = s1) as (r & -> & -> & ->).
  { unfold resolve_spider in E. destruct (opened_spider s); [destruct sp|]; cbn in E; injection E as <- <- <- <-; by eexists. }
  split; [|done].
  assert (forall x, x ∈ l :: fr -> locks x = 0%nat) as Hl by (apply (nobody_locks _ _ _ Hi Ec); by left).
  destruct (no_locker_history _ _ _ Hi Hl) as [_ He]. destruct (He Ec) as [He1 _].
  assert (forall x, x ∈ fr -> ~ forced x) as Hno.
  { intros x Hx Hfx. pose proof (i_mine _ _ Hi) as Hm. rewrite Forall_forall in Hm. specialize (Hm x ltac:(by right)).
    unfold mine in Hm. rewrite Hfx in Hm. cbn in Hm. rewrite Ec, Ecl in Hm. naive_solver. }
  apply step_flags; unfold storing, calling, releasing, locks; cbn; rewrite ?El; try done; auto.
  - unfold mine, reserves. cbn. auto.
  - apply others_unlocked; auto. intros x Hx. apply Hl. by right.
  - right. intros x Hx. apply Hl. by right.
Qed.

(** A reserved close gives its reservation back, or runs. *)
Lemma twp_reserved f l (Q : outcome unit -> local -> Prop) : at_stage l = Reserving ->
  (forall s, (f s = s <| closing := false |> <| close_async_pending := false |> <| close_owner := None |>) \/
             (f s = s <| close_async_pending := false |> <| close_owner := None |>)) ->
  (forall l', at_stage l' = Outside -> Q (Ok tt) l') -> TWP (atomically (update (at_ Outside) f)) Q l.
Proof.
  intros El Hf HQ. apply twp_step. intros fr s w o l' s' w' Hi _ _ E. injection E as <- <- <- <-. split; [|by apply HQ].
  destruct (inv_mine _ _ _ _ Hi) as [B Hm]. pose proof (b_waiting _ B) as Hw. unfold mine, reserves in Hm. rewrite El in Hm.
  destruct (inv_locker _ _ _ _ Hi) as (Ha & _ & _); [unfold locks; by rewrite El|].
  assert (forall x, x ∈ fr -> forced x -> closed s = true) as Hfc.
  { intros x Hx Hfx. apply (i_forced _ _ Hi); apply Exists_exists; [exists l|exists x]; (split; [|done]); [left|by right]. }
  specialize (Hf s).
  apply step_flags; unfold storing, calling, releasing, locks; cbn; rewrite ?El; try done; auto; try (destruct Hf as [-> | ->]; done).
  intros x Hx Hmx. apply (unlocked_mine x s _ (Ha x Hx) Hmx); try (destruct Hf as [-> | ->]; cbn; by auto).
  intros Hfx. left. destruct Hf as [-> | ->]; cbn; by apply (Hfc x).
Qed.

Lemma twp_run_reserved sp l : at_stage l = Reserving -> TWP (run_reserved_close sp) out l.
Proof.
  intros El. apply twp_bind, twp_reserved; [done|by right|]. intros l' E'. by apply twp_close_spider_sync.
Qed.

Lemma twp_start_close sp l : at_stage l = Reserving -> TWP (start_close sp) out l.
Proof.
  intros El. apply twp_try, twp_world. intros [[]|e].
  - apply twp_bind, twp_in_worker; [unfold busy; by rewrite El|]. intros l' E'. apply twp_run_reserved. by rewrite E'.
  - apply twp_bind, twp_reserved; [done|by left|]. intros l' E'. by apply twp_done.
Qed.

Lemma twp_close_spider_async n sp l : at_stage l = Outside -> TWP (close_spider_async n sp) out l.
Proof.
  revert l. induction n as [|n IH]; intros l El; cbn [close_spider_async];
    (apply twp_bind; eapply twp_mono; [|by apply twp_reserve_close]; cbv beta; intros [[|g|r]|e] l1 E1; [by apply twp_done| | |done]).
  - apply twp_bind, twp_stay; [intros s w; split; [done|apply neutral_refl]|]. intros [[]|e]; [by apply twp_done|done].
  - by apply twp_chained, twp_start_close.
  - apply twp_bind, twp_stay; [intros s w; split; [done|apply neutral_refl]|]. intros [[]|e]; [|done].
    apply twp_try. eapply twp_mono; [|by apply IH]. intros o l2 E2.
    apply twp_bind, twp_stay; [intros s w; split; [done|apply neutral_refl]|]. intros [[e|]|e]; [by apply twp_done|by apply twp_done|done].
  - by apply twp_chained, twp_start_close.
Qed.

(** ** Every interleaving *)
Lemma starting_safe l p : starting as_dict false l p -> TWP p (fun _ _ => True) l.
Proof.
  destruct 1; apply twp_call; (eapply twp_mono; [|first [by apply twp_open_spider_sync|by apply twp_close_spider_sync
    |by apply twp_open_spider_async|by apply twp_close_spider_async|idtac]]); try done.
  - destruct reenter; [by discriminate H|]. by apply twp_process_item_sync.
  - destruct reenter; [by discriminate H|]. by apply twp_process_item_async.
Qed.

Lemma inv_idle l ls x : at_stage l = Outside -> inv ls x -> inv (l :: ls) x.
Proof.
  intros El [H1 H2 H3 [H4 H4'] H5 H6 H7 H9 H8].
  assert (storing l = 0 /\ calling l = 0 /\ locks l = 0%nat /\ releasing l = 0%nat) as (E1 & E2 & E3 & E4)
    by (by unfold storing, calling, locks, releasing; rewrite El).
  split; cbn [total sum_list_with]; rewrite ?E1, ?E2, ?E3, ?E4; try done.
  - constructor; [|done]. unfold mine. by rewrite El.
  - intros t. unfold storing_in at 1. rewrite E1, H5. by case_bool_decide.
  - intros Hc. destruct (H7 Hc) as [?|?]; [by left|right; by constructor].
  - intros Hr Hf. apply Exists_cons in Hr as [Hr|Hr], Hf as [Hf|Hf]; unfold reserving, forced in *; try congruence. by apply H9.
Qed.

Lemma starting_inv l p ls x : starting as_dict false l p -> inv ls x -> inv (l :: ls) x.
Proof. intros Hs. apply inv_idle. by destruct Hs. Qed.

(** The pipeline before any call of its lifecycle. *)
Definition fresh s : Prop :=
  closed s = false /\ closing s = false /\ close_waiting_for_stores s = false /\ manager_released s = false /\
  active_store_count s = 0 /\ active_store_threads s = ∅ /\ history s = [].

Lemma pipe_inv_fresh s w : fresh s -> inv [] (s, w).
Proof.
  intros (F1 & F2 & F3 & F4 & F5 & F6 & F7). split; cbn; rewrite ?F1, ?F4, ?F5, ?F6, ?F7; try done.
  - split; rewrite ?F1, ?F3, ?F4, ?F5, ?F7; done.
  - lia.
  - intros H. by apply elem_of_nil in H.
  - intros H. by apply Exists_nil in H.
Qed.

(** What the pipeline does when no extension closes it from within a store and
    a thread runs one call at a time. *)
Abbreviation step := (tstep free_thread (starting as_dict false)).

Lemma reached_inv s w ts x : fresh s -> rtc step ([], (s, w)) (ts, x) -> inv (map fst ts) x.
Proof.
  intros Hf Hs. change (inv (map fst (fst (ts, x))) (snd (ts, x))).
  apply (tsafe_steps free_thread (starting as_dict false) inv pipe_inv_perm starting_safe starting_inv ([], (s, w))); [|done].
  split; [by apply pipe_inv_fresh|by constructor].
Qed.
End Facts.
End PipelineFacts.
