(* ===== verification/PipelineRuns.v ===== *)
(** * The item pipeline: what its callers see

    The guarantees of the lifecycle in every interleaving, the outcomes of
    storing items, the budget of consecutive storage errors, and schedules of
    calls that show what the code does when a close fails. *)

From S2P Require Export PipelineFacts.

Module PipelineRuns.
Import Codec Pipeline PipelineFacts.

Section Runs.
Context {D : IsoDates} {J : JsonText} {Item : Type} (as_dict : Item -> option value).
Context {W : Type} `{!Services W}.
Implicit Types (s : self) (w : W) (h : list event).

Abbreviation process := (process_item_unlocked as_dict).

(** ** Storing a sequence of items *)
Definition acceptable s (item : Item) : Prop :=
  exists data, serialize_item as_dict item = Ok data /\ Z.of_nat (length data) <= max_item_bytes s.

(** What the strategy answers when the item is stored. *)
Definition answer (sp : spider) (item : Item) (x : self * W) : outcome unit :=
  match generate_item_key sp x, serialize_item as_dict item with
  | (Ok key, x'), Ok data => fst (store_item key data x')
  | _, _ => Ok tt
  end.
Definition transient (r : outcome unit) : Prop :=
  match r with Ok _ => True | Raise e => deterministic e = false /\ is_ordinary e = true end.

Fixpoint process_all (sp : spider) (items : list Item) (x : self * W) : list (outcome Item) * (self * W) :=
  match items with
  | [] => ([], x)
  | i :: items => let '(o, x') := process i sp x in let '(os, x2) := process_all sp items x' in (o :: os, x2)
  end.
Fixpoint answers (sp : spider) (items : list Item) (x : self * W) : list (outcome unit) :=
  match items with
  | [] => []
  | i :: items => answer sp i x :: answers sp items (snd (process i sp x))
  end.

Definition next_count (c : Z) (r : outcome unit) : Z := if is_ok r then 0 else c + 1.

(** The fields a store reads and does not write. *)
Definition same_limits s s' : Prop :=
  max_item_bytes s' = max_item_bytes s /\ max_storage_errors s' = max_storage_errors s /\ storage_supported s' = storage_supported s.

Lemma store_item_keeps key data s w : exists w', snd (store_item key data (s, w)) = (s, w').
Proof.
  unfold store_item, on_snd, bind. destruct (get_storage_backend w) as [[b|e] w1]; [|by eexists].
  destruct (strategy_store key data w1) as [o w2]. by eexists.
Qed.

(** An acceptable item: one call of the strategy, and what its answer does. *)
Lemma process_answer sp item s w : acceptable s item -> storage_supported s <> Some false -> exists w',
  process item sp (s, w) = match answer sp item (s, w) with
    | Ok _ => (Ok item, (s <| consecutive_storage_errors := 0 |>, w'))
    | Raise e => if deterministic e || negb (is_ordinary e) then (Raise e, (s, w'))
                 else count_failure item (s <| stats ::= fun l => l ++ ["pipeline/storage_errors"%string] |>, w')
    end.
Proof.
  intros (data & Ed & Hd) Hs. unfold answer, process_item_unlocked. rewrite Ed. cbn. rewrite bool_decide_false by done.
  unfold bind at 1, generate_item_key. destruct (stamp w) as [[t u] w1].
  destruct (Z.ltb_spec (max_item_bytes s) (Z.of_nat (length data))) as [?|_]; [lia|].
  match goal with |- context [store_item ?k data] => set (key := k) end.
  destruct (store_item_keeps key data s w1) as [w' Ek]. exists w'. unfold bind at 1, attempt.
  destruct (store_item key data (s, w1)) as [r x]. cbn in Ek |- *. rewrite Ek. destruct r as [[]|e]; [done|].
  by destruct (deterministic e || negb (is_ordinary e)).
Qed.

Lemma process_one sp item s w n : acceptable s item -> storage_supported s <> Some false -> max_storage_errors s = Some n ->
  transient (answer sp item (s, w)) ->
  exists s' w', process item sp (s, w) =
    ((if negb (is_ok (answer sp item (s, w))) && (n <? next_count (consecutive_storage_errors s) (answer sp item (s, w))) then Raise EBackend else Ok item),
     (s', w')) /\
    consecutive_storage_errors s' = next_count (consecutive_storage_errors s) (answer sp item (s, w)) /\ same_limits s s'.
Proof.
  intros Ha Hs Hn Ht. destruct (process_answer sp item s w Ha Hs) as [w' E]. rewrite E.
  destruct (answer sp item (s, w)) as [u|e]; cbn in Ht |- *; [eexists _, _; by split_and!|]. destruct Ht as [-> ->]. cbn.
  unfold count_failure, next_count. cbn. rewrite Hn. cbn. fold (Z.succ (consecutive_storage_errors s)).
  destruct (n <? _); eexists _, _; split_and!; done.
Qed.

Definition streak (rs : list (outcome unit)) (c : Z) : Z := fold_left next_count rs c.

Lemma process_all_streak sp n items s w i item : Forall (acceptable s) items -> storage_supported s <> Some false ->
  max_storage_errors s = Some n -> Forall transient (answers sp items (s, w)) -> items !! i = Some item ->
  fst (process_all sp items (s, w)) !! i =
  Some (if match answers sp items (s, w) !! i with Some r => negb (is_ok r) | None => false end &&
           (n <? streak (take (S i) (answers sp items (s, w))) (consecutive_storage_errors s)) then Raise EBackend else Ok item).
Proof.
  revert s w i. induction items as [|x items IH]; intros s w i Ha Hs Hn Ht Hi; [done|].
  apply Forall_cons in Ha as [Hx Ha]. cbn [answers] in *. apply Forall_cons in Ht as [Htx Ht].
  destruct (process_one sp x s w n Hx Hs Hn Htx) as (s' & w' & E & Hc & (L1 & L2 & L3)).
  cbn [process_all]. rewrite E. cbn [snd] in *. rewrite E in Ht. cbn in Ht.
  destruct (process_all sp items (s', w')) as [os x2] eqn:Eo. destruct i as [|i]; cbn in Hi |- *.
  - by injection Hi as ->.
  - specialize (IH s' w' i). rewrite Eo, Hc in IH. apply IH; [|by rewrite L3|by rewrite L2|done|done].
    eapply Forall_impl; [exact Ha|]. unfold acceptable. by rewrite L1.
Qed.

(** A streak longer than [n] from the start: the last [n + 1] answers failed. *)
Lemma streak_failures rs (n : nat) : Z.of_nat n < streak rs 0 <->
  (n < length rs)%nat /\ forall j r, (length rs <= j + S n)%nat -> rs !! j = Some r -> is_ok r = false.
Proof.
  unfold streak. revert n. induction rs as [|r rs IH] using rev_ind; intros n; [cbn; split; [lia|intros [? _]; lia]|].
  rewrite fold_left_app, length_app. cbn. unfold next_count at 1. destruct (is_ok r) eqn:Er.
  - split; [lia|]. intros [_ H]. specialize (H (length rs) r). rewrite lookup_app_r, Nat.sub_diag in H by lia.
    specialize (H ltac:(lia) eq_refl). congruence.
  - split.
    + intros H. destruct n as [|n].
      * split; [lia|]. intros j r' Hj. destruct (decide (j = length rs)) as [->|Hne].
        -- rewrite lookup_app_r, Nat.sub_diag by lia. by intros [= <-].
        -- rewrite lookup_ge_None_2; [done|]. rewrite length_app. cbn. lia.
      * destruct (proj1 (IH n)) as [H1 H2]; [lia|]. split; [lia|]. intros j r' Hj Hr.
        destruct (decide (j < length rs)%nat).
        -- rewrite lookup_app_l in Hr by done. apply (H2 j); [lia|done].
        -- apply lookup_app_Some in Hr as [Hr|[_ Hr]]; [by apply lookup_lt_Some in Hr|].
           destruct (j - length rs)%nat as [|k]; [by injection Hr as <-|by destruct k].
    + intros [Hl H]. destruct n as [|n].
      * enough (0 <= fold_left next_count rs 0) by lia. clear. induction rs as [|r rs IH] using rev_ind; [done|].
        rewrite fold_left_app. cbn. unfold next_count at 1. destruct (is_ok r); lia.
      * enough (Z.of_nat n < fold_left next_count rs 0) by lia. apply IH. split; [lia|]. intros j r' Hj Hr.
        apply (H j); [lia|]. by apply lookup_app_l_Some.
Qed.

Definition failed (rs : list (outcome unit)) (j : nat) : bool := match rs !! j with Some r => negb (is_ok r) | None => false end.
(** The store and the [n] stores before it failed. *)
Definition exceeded (n : nat) (rs : list (outcome unit)) (i : nat) : bool := (n <=? i)%nat && forallb (failed rs) (seq (i - n) (S n)).

Lemma exceeded_streak n rs i : (i < length rs)%nat ->
  exceeded n rs i = failed rs i && (Z.of_nat n <? streak (take (S i) rs) 0).
Proof.
  intros Hi. apply eq_true_iff_eq. unfold exceeded. rewrite !andb_true_iff, forallb_forall, Nat.leb_le, Z.ltb_lt, streak_failures, length_take.
  rewrite Nat.min_l by lia. split.
  - intros [Hn Hf]. assert (forall j, (i <= j + n)%nat -> (j <= i)%nat -> failed rs j = true) as Hj by (intros j ? ?; apply Hf, in_seq; lia).
    split; [apply Hj; lia|]. split; [lia|]. intros j r Hle Hr. pose proof (lookup_lt_Some _ _ _ Hr) as Hlt. rewrite length_take in Hlt.
    rewrite lookup_take_lt in Hr by lia. specialize (Hj j ltac:(lia) ltac:(lia)). unfold failed in Hj. rewrite Hr in Hj.
    by apply negb_true_iff.
  - intros (_ & Hn & Hf). split; [lia|]. intros j Hj%in_seq. unfold failed. destruct (rs !! j) as [r|] eqn:Er.
    + apply negb_true_iff, (Hf j); [lia|]. by rewrite lookup_take_lt by lia.
    + apply lookup_ge_None in Er. lia.
Qed.

Lemma length_answers sp items x : length (answers sp items x) = length items.
Proof. revert x. induction items as [|i items IH]; intros x; cbn; [done|]. by rewrite IH. Qed.

(** C27. The budget of consecutive storage errors: of a sequence of items that can be
    stored, with transient failures only, exactly those are refused whose store
    and the [n] stores before it have failed; all others are returned. *)
Theorem error_budget sp (n : nat) items s w i item : Forall (acceptable s) items -> storage_supported s <> Some false ->
  max_storage_errors s = Some (Z.of_nat n) -> consecutive_storage_errors s = 0 ->
  Forall transient (answers sp items (s, w)) -> items !! i = Some item ->
  fst (process_all sp items (s, w)) !! i = Some (if exceeded n (answers sp items (s, w)) i then Raise EBackend else Ok item).
Proof.
  intros Ha Hs Hn Hc Ht Hi. rewrite (process_all_streak sp _ items s w i item Ha Hs Hn Ht Hi), Hc.
  rewrite exceeded_streak; [done|]. rewrite length_answers. by eapply lookup_lt_Some.
Qed.
(** C28. An item is returned unchanged, and only if storage is unsupported, or the
    strategy accepted it, or its transient failure was counted within the
    budget; it is refused when it cannot be serialized or is too large, when
    the strategy refuses it for good, or when the budget is exceeded. *)
Theorem returned_items sp item s w o s' w' (E : process item sp (s, w) = (o, (s', w'))) :
  let fits := exists data, serialize_item as_dict item = Ok data /\ Z.of_nat (length data) <= max_item_bytes s in
  match o with
  | Ok i => i = item /\
      (storage_supported s = Some false /\ w' = w \/
       fits /\ answer sp item (s, w) = Ok tt /\ consecutive_storage_errors s' = 0 \/
       fits /\ exists e, answer sp item (s, w) = Raise e /\ deterministic e = false /\ is_ordinary e = true /\
         stats s' = stats s ++ ["pipeline/storage_errors"%string] /\
         forall n, max_storage_errors s = Some n -> consecutive_storage_errors s' = consecutive_storage_errors s + 1 /\ consecutive_storage_errors s' <= n)
  | Raise e =>
      (~ fits /\ consecutive_storage_errors s' = consecutive_storage_errors s /\
        (e = ESerialization \/ is_ordinary e = false)) \/
      (fits /\ answer sp item (s, w) = Raise e /\ (deterministic e = true \/ is_ordinary e = false) /\ s' = s) \/
      (fits /\ e = EBackend /\ exists n, max_storage_errors s = Some n /\ consecutive_storage_errors s' = consecutive_storage_errors s + 1 /\
        n < consecutive_storage_errors s')
  end.
Proof.
  intros fits. destruct (decide (storage_supported s = Some false)) as [Hs|Hs].
  { unfold process_item_unlocked in E. cbn in E. rewrite bool_decide_true in E by done. injection E as <- <- <-. auto. }
  destruct (serialize_item as_dict item) as [data|e] eqn:Ed; [destruct (Z_le_gt_dec (Z.of_nat (length data)) (max_item_bytes s)) as [Hd|Hd]|].
  - assert (acceptable s item) as Ha by (by exists data). assert fits as Hf by (by exists data).
    destruct (process_answer sp item s w Ha Hs) as [w1 E1]. rewrite E1 in E. clear E1.
    destruct (answer sp item (s, w)) as [[]|e]; [injection E as <- <- <-; split; [done|right; left; by split_and!]|].
    destruct (deterministic e) eqn:Edet; [injection E as <- <- <-; right; left; split_and!; auto|].
    destruct (is_ordinary e) eqn:Eo; cbn in E; [|injection E as <- <- <-; right; left; split_and!; auto].
    unfold count_failure in E. cbn in E. destruct (max_storage_errors s) as [n|] eqn:En; cbn in E.
    + destruct (Z.ltb_spec n (Z.succ (consecutive_storage_errors s))); injection E as <- <- <-.
      * right. right. split; [done|]. split; [done|]. exists n. split; [done|]. cbn. lia.
      * split; [done|]. right. right. split; [done|]. exists e. split_and!; try done. intros n' [= <-]. cbn. lia.
    + injection E as <- <- <-. split; [done|]. right. right. split; [done|]. exists e. by split_and!.
  - assert (~ fits) as Hf by (intros (d & Ed' & Hd'); injection Ed' as <-; lia).
    unfold process_item_unlocked in E. cbn in E. rewrite bool_decide_false in E by done.
    unfold bind at 1, generate_item_key in E. destruct (stamp w) as [[? ?] w1]. rewrite Ed in E.
    destruct (Z.ltb_spec (max_item_bytes s) (Z.of_nat (length data))) as [_|?]; [|lia]. cbn in E. injection E as <- <- <-. left. split_and!; auto.
  - assert (~ fits) as Hf by (intros (d & Ed' & Hd'); done).
    unfold process_item_unlocked in E. cbn in E. rewrite bool_decide_false in E by done.
    unfold bind at 1, generate_item_key in E. destruct (stamp w) as [[? ?] w1]. rewrite Ed in E.
    destruct e; cbn in E; injection E as <- <- <-; left; split_and!; auto.
Qed.

(** ** The lifecycle in every interleaving *)
Lemma orderly_split h2 e h1 : orderly (h2 ++ e :: h1) -> in_order e h1.
Proof. induction h2 as [|e2 h2 IH]; cbn; intros [H1 H2]; [done|by apply IH]. Qed.

(** C25. In every interleaving of opens, items and closes, with and without a reactor,
    when no store of the strategy calls the close of its own pipeline and a thread
    runs one call at a time: the strategy is closed with no item in a store, no
    other close running and none that has succeeded; no item is admitted while it
    is being closed, after it was closed with success, or after the manager is
    released. (With a close made from within a store the last part fails:
    [resumed_close_lifts_fence].) *)
Theorem close_after_stores s w ts s' w' : fresh s ->
  rtc (tstep free_thread (starting as_dict false)) ([], (s, w)) (ts, (s', w')) ->
  (forall h2 h1, history s' = h2 ++ CloseCalled :: h1 -> in_store h1 = 0 /\ open_calls h1 = 0 /\ CloseEnded true ∉ h1) /\
  (forall h2 h1, history s' = h2 ++ Entered :: h1 -> open_calls h1 = 0 /\ CloseEnded true ∉ h1 /\ Released ∉ h1).
Proof.
  intros Hf Hs. pose proof (b_orderly _ (i_base _ _ (reached_inv as_dict s w ts (s', w') Hf Hs))) as Ho. cbn in Ho.
  split; intros h2 h1 E; rewrite E in Ho; apply orderly_split in Ho; cbn in Ho; naive_solver.
Qed.

(** C26. In every interleaving, when no store of the strategy calls the close of its
    own pipeline and a thread runs one call at a time, the manager is released at
    most once, only by a closed pipeline, after a close of the strategy has ended,
    with no item in a store, and no item is admitted afterwards. *)
Theorem manager_released_last s w ts s' w' : fresh s ->
  rtc (tstep free_thread (starting as_dict false)) ([], (s, w)) (ts, (s', w')) ->
  (releases (history s') <= if closed s' then 1 else 0)%nat /\
  forall h2 h1, history s' = h2 ++ Released :: h1 -> in_store h1 = 0 /\ (exists ok, CloseEnded ok ∈ h1) /\ Released ∉ h1 /\ Entered ∉ h2.
Proof.
  intros Hf Hs. pose proof (reached_inv as_dict s w ts (s', w') Hf Hs) as Hi. destruct (i_base _ _ Hi) as [_ _ B3 Ho]. cbn in B3, Ho.
  pose proof (i_releases _ _ Hi) as Hr. cbn in Hr. split.
  - destruct (manager_released s'); [rewrite B3 by done; lia|]. destruct (closed s'); lia.
  - intros h2 h1 E. rewrite E in Ho. pose proof (orderly_split _ _ _ Ho) as (H1 & H2 & H3). split_and!; try done.
    intros (h3 & h4 & ->)%list_elem_of_split. rewrite <- app_assoc in Ho. apply orderly_split in Ho as (_ & _ & Hn).
    apply Hn. apply elem_of_app. right. by left.
Qed.

(** ** Closing without interference *)
Definition quiet s : Prop :=
  closed s = false /\ opening s = false /\ close_owner s = None /\ close_async_pending s = false /\ active_store_count s = 0.

Definition claimed_state l s : self :=
  s <| closing := true |> <| close_async_pending := false |> <| close_owner := Some (thread l) |> <| close_waiting_for_stores := false |>.

Lemma claim_quiet l s w : quiet s -> claim_close (l, (s, w)) = (Ok Proceed, (at_ Claimed l, (claimed_state l s, w))).
Proof.
  intros (Q1 & Q2 & Q3 & Q4 & Q5). unfold claim_close. rewrite Q1, Q3, Q4. destruct (closing s) eqn:Ecl.
  - rewrite bool_decide_false by done. rewrite (bool_decide_false (_ <> _)) by (intros H; by apply H).
    unfold wait_stores, claimed_state. cbn. rewrite Q5. cbn. by destruct s; cbn in *; subst.
  - unfold wait_stores, claimed_state. cbn. by rewrite Q5.
Qed.

Lemma close_sync_run sp l s w : quiet s ->
  run (close_spider_sync sp) l (s, w) = run (destroy false) (at_ Claimed l) (claimed_state l s, w).
Proof.
  intros Hq. pose proof Hq as (Q1 & Q2 & _). unfold close_spider_sync, close_locked. autorewrite with run. unfold request_close.
  rewrite Q1, Q2. autorewrite with run. pose proof (claim_quiet l s w Hq) as Hc. unfold shared in *. by rewrite Hc.
Qed.

Lemma run_call_close l s w : call_strategy_close (l, (s, w)) = (Ok tt, (at_ Calling l, (note CloseCalled s, w))).
Proof. done. Qed.
Lemma run_end_close l s w : end_strategy_close (l, (s, w)) = (let '(o, w') := strategy_close w in
  let ok := match o with Ok _ => true | Raise _ => false end in (o, (at_ (Called ok) l, (note (CloseEnded ok) s, w')))).
Proof. done. Qed.

Lemma at_at a b l : at_ a (at_ b l) = at_ a l.
Proof. done. Qed.
Lemma run_publish_closed l s w : publish_closed (l, (s, w)) = (let rel := owns_connection_manager s && negb (manager_released s) in
  (Ok rel, (at_ (if rel then Published else Outside) l,
    ((s <| closed := true |> <| closing := false |> <| close_async_pending := false |> <| close_owner := None |> <| opened_spider := None |>
        <| open_close_requested := false |> <| manager_released := manager_released s || rel |>), w)))).
Proof. cbn. unfold publish_closed. destruct (_ && _); cbn; rewrite ?orb_true_r, ?orb_false_r; by destruct s. Qed.
Lemma run_release l s w : release (l, (s, w)) = (let '(o, w') := release_manager w in (o, (at_ Outside l, (note Released s, w')))).
Proof. done. Qed.
Lemma run_close_failed l s w e : close_failed false e (l, (s, w)) =
  (Raise e, (at_ Outside l, (s <| close_owner := None |> <| close_waiting_for_stores := false |>, w))).
Proof. done. Qed.

(** C29. The synchronous close, made without a running reactor and undisturbed: it
    succeeds with the strategy's close and then releases an owned manager unless
    that was done before; a failure leaves the manager and the spider in place and
    the pipeline ready for the same close again. (The close of a running reactor
    cannot be made again: [async_close_never_retried].) *)
Theorem sync_close_alone sp l s w : quiet s -> at_stage l = Outside ->
  let '(o, w1) := strategy_close w in
  exists s', match o with
  | Raise e => run (close_spider_sync sp) l (s, w) = Some (Raise e, (l, (s', w1))) /\
      quiet s' /\ closing s' = true /\ manager_released s' = manager_released s /\ opened_spider s' = opened_spider s
  | Ok _ =>
      let releases := owns_connection_manager s && negb (manager_released s) in
      let '(r, w2) := if releases : bool then release_manager w1 else (Ok tt, w1) in
      run (close_spider_sync sp) l (s, w) = Some (r, (l, (s', w2))) /\ closed s' = true /\ opened_spider s' = None /\
      manager_released s' = (manager_released s || owns_connection_manager s)
  end.
Proof.
  intros Hq El. destruct (strategy_close w) as [o w1] eqn:Ec.
  assert (at_ Outside l = l) as Hl by (destruct l; cbn in *; by rewrite El).
  rewrite (close_sync_run sp l s w Hq). destruct Hq as (Q1 & Q2 & Q3 & Q4 & Q5).
  unfold destroy, finish_close. autorewrite with run. rewrite run_call_close. autorewrite with run.
  rewrite run_end_close, Ec. destruct o as [[]|e].
  - cbv beta iota zeta. rewrite run_bind. cbn [run pret]. rewrite run_bind, run_atomically, run_publish_closed. cbv beta iota zeta.
    set (s2 := note (CloseEnded true) _). assert (owns_connection_manager s2 = owns_connection_manager s) as -> by done.
    assert (manager_released s2 = manager_released s) as -> by done. clearbody s2.
    set (rel := owns_connection_manager s && negb (manager_released s)).
    assert (manager_released s || owns_connection_manager s = manager_released s || rel) as -> by (unfold rel; by destruct (manager_released s), (owns_connection_manager s)).
    destruct rel.
    + rewrite run_try, run_atomically, run_release. destruct (release_manager w1) as [r w2].
      eexists. split; [destruct r as [[]|e]; cbn [run pret praise]; by rewrite !at_at, Hl|]. cbn. by rewrite orb_true_r.
    + eexists. split; [cbn [run pret]; by rewrite !at_at, Hl|]. cbn. by rewrite orb_false_r.
  - cbv beta iota zeta. rewrite run_bind, run_atomically, run_close_failed. eexists. split; [by rewrite !at_at, Hl|]. by split_and!.
Qed.

(** ** A failed close under a running reactor *)
Lemma reserve_stuck sp l s w : closed s = false -> opening s = false -> closing s = true -> close_owner s = None ->
  reserve_close sp (l, (s, w)) = (Raise ERuntime, (l, (s, w))).
Proof. intros Q1 Q2 Q3 Q4. unfold reserve_close. rewrite Q1, Q2, Q3, Q4. by rewrite bool_decide_false. Qed.

(** Under a running reactor a close after a failed one raises in every state a
    failed close leaves, and changes nothing. *)
Theorem async_close_never_retried n sp l s w : closed s = false -> opening s = false -> closing s = true -> close_owner s = None ->
  run (close_spider_async n sp) l (s, w) = Some (Raise ERuntime, (l, (s, w))).
Proof.
  intros Q1 Q2 Q3 Q4. pose proof (reserve_stuck sp l s w Q1 Q2 Q3 Q4) as E. unfold shared in *.
  destruct n; cbn [close_spider_async]; autorewrite with run; unfold shared in *; by rewrite E.
Qed.
End Runs.

(** ** Schedules *)
Module Examples.
Export Codec.Examples.
Record world := World { closes : list (outcome unit); stores : list (outcome unit) }.
Definition pop {A} (d : A) (l : list A) : A * list A := match l with [] => (d, []) | x :: l => (x, l) end.

(** A strategy that answers from a script; the other services always succeed. *)
#[export] Instance scripted : Services world := {|
  strategy_open := ret tt; get_storage_backend := ret tt;
  strategy_store _ _ := fun w => let '(o, l) := pop (Ok tt) (stores w) in (o, World (closes w) l);
  strategy_close := fun w => let '(o, l) := pop (Ok tt) (closes w) in (o, World l (stores w));
  release_manager := ret tt; stamp w := ("t"%string, "u"%string, w); submit_thread := ret tt
|}.
(** A text layer that is enough for the sizes. *)
#[export] Instance one_byte : JsonText := {| json_dumps _ := [x00]; json_loads _ := Ok JNull; float_of_string _ := None |}.
Definition as_dict (v : value) : option value := Some v.
Definition a_spider : spider := Spider 7 "s".
Definition empty_self : self :=
  Self "" 0 None 0 None [] true false None None false false None false false None 0 ∅ 0 false None None false None None ∅ 0 0 [].
Definition created : self := match init "items" 1000 (Some 1) true (Some a_spider) with Ok s => s | Raise _ => empty_self end.
Definition item (k : nat) : value := VList (repeat VNone k).
Definition bad : outcome unit := Raise (EStorage "store").

Lemma error_budget_witness :
  fst (process_all as_dict a_spider [item 1; item 2; item 3; item 4] (created, World [] [bad; bad; Ok tt; bad])) !! 1%nat = Some (Raise EBackend).
Proof.
  etransitivity; [apply (error_budget as_dict a_spider 1 [item 1; item 2; item 3; item 4] created (World [] [bad; bad; Ok tt; bad]) 1 (item 2)); try done
                 |vm_compute; reflexivity].
  - repeat constructor; (eexists; split; [vm_compute; reflexivity|by vm_compute]).
  - repeat constructor.
Defined.

Lemma returned_items_witness : exists e, answer as_dict a_spider (item 1) (created, World [] [bad]) = Raise e /\ deterministic e = false.
Proof.
  destruct (process_item_unlocked as_dict (item 1) a_spider (created, World [] [bad])) as [o [s' w']] eqn:E.
  pose proof (returned_items as_dict a_spider (item 1) created (World [] [bad]) o s' w' E) as H.
  apply (f_equal fst) in E. vm_compute in E. destruct o as [i|e]; [|discriminate E].
  destruct H as [_ [[Hn _]|[(_ & Hn & _)|(_ & e & H1 & H2 & _)]]].
  - vm_compute in Hn. discriminate Hn.
  - vm_compute in Hn. discriminate Hn.
  - exists e. split; [exact H1|exact H2].
Defined.

(** ** Schedules *)
Definition spawn {A} (t : nat) (p : CP (W := world) A) : Conc.choice local (self * world) := Spawn (outside t (100 + t)) (call p).
Definition go (i n : nat) : list (Conc.choice local (self * world)) := repeat (Go i) n.
Definition from (closes : list (outcome unit)) : pool local (self * world) := ([], (created, World closes [])).
(** How the calls ended, or where they are; what happened. *)
Definition ending (x : pool local (self * world)) : list (outcome unit + stage) * list event :=
  (map (fun t => match snd t with Done o => inl o | Sect _ _ _ => inr (at_stage (fst t)) end) (fst x), history (fst (snd x))).
Definition reached (cs : list (Conc.choice local (self * world))) (closes : list (outcome unit)) :=
  option_map ending (tschedule free_thread cs (from closes)).

Lemma created_fresh : fresh created.
Proof. by split_and!. Qed.

(** A close that waits for the store in progress. *)
Definition close_behind_store : list (Conc.choice local (self * world)) :=
  [spawn 1 (open_spider_sync (Some a_spider) None)] ++ go 0 4 ++
  [spawn 2 (process_item_sync as_dict (item 1) None false)] ++ go 1 1 ++
  [spawn 3 (close_spider_sync None)] ++ go 2 2 ++ go 1 2 ++ go 2 5.
Example close_behind_store_runs :
  reached close_behind_store [] = Some ([inl (Ok tt); inl (Ok tt); inl (Ok tt)], [Released; CloseEnded true; CloseCalled; Left; Entered]).
Proof. vm_compute. reflexivity. Qed.

Lemma close_behind_store_starts : Forall (starts (starting as_dict false)) close_behind_store.
Proof. repeat constructor; by intros [=]. Qed.

Lemma close_behind_store_reaches :
  rtc (tstep free_thread (starting as_dict false)) ([], (created, World [] [])) (tafter free_thread close_behind_store (from [])).
Proof. apply (truns_steps _ _ _ _ close_behind_store_starts). vm_compute. reflexivity. Qed.

Lemma close_behind_store_history :
  let s' := fst (snd (tafter free_thread close_behind_store (from []))) in
  history s' = [Released; CloseEnded true; CloseCalled; Left; Entered] /\ closed s' = true.
Proof. vm_compute. by split. Qed.

Lemma close_after_stores_witness : in_store [Left; Entered] = 0.
Proof.
  pose proof close_behind_store_reaches as Hr. pose proof close_behind_store_history as [E _].
  destruct (tafter free_thread close_behind_store (from [])) as [ts [s' w']].
  apply (proj1 (close_after_stores as_dict created (World [] []) ts s' w' created_fresh Hr) [Released; CloseEnded true] [Left; Entered]). exact E.
Defined.

Lemma manager_released_last_witness : (releases [Released; CloseEnded true; CloseCalled; Left; Entered] <= 1)%nat.
Proof.
  pose proof close_behind_store_reaches as Hr. pose proof close_behind_store_history as [E1 E2].
  destruct (tafter free_thread close_behind_store (from [])) as [ts [s' w']].
  pose proof (manager_released_last as_dict created (World [] []) ts s' w' created_fresh Hr) as [H _].
  cbn in E1, E2. rewrite E1, E2 in H. exact H.
Defined.

Lemma sync_close_alone_witness : exists s', run (close_spider_sync None) (outside 1 2) (created, World [bad] []) =
  Some (Raise (EStorage "store"), (outside 1 2, (s', World [] []))).
Proof.
  destruct (sync_close_alone None (outside 1 2) created (World [bad] [])) as [s' [H _]]; [by split_and!|done|]. by exists s'.
Defined.

(** A failed close under a running reactor cannot be retried. *)
Example async_close_stuck :
  reached ([spawn 1 (close_spider_async 0 None)] ++ go 0 12 ++ [spawn 1 (close_spider_async 0 None)] ++ go 1 1) [bad] =
  Some ([inl (Raise (EStorage "store")); inl (Raise ERuntime)], [CloseEnded false; CloseCalled]).
Proof. vm_compute. reflexivity. Qed.

(** The handler of a failed resumed close lifts the fence of the close that
    another thread has begun meanwhile: an item is admitted inside of it. *)
Example resumed_close_lifts_fence :
  reached ([spawn 1 (process_item_sync as_dict (item 1) None true)] ++ go 0 9 ++
    [spawn 2 (close_spider_sync None)] ++ go 1 3 ++ go 0 1 ++ [spawn 3 (process_item_sync as_dict (item 1) None false)] ++ go 2 1) [bad] =
  Some ([inl (Ok tt); inr Calling; inr Storing], [Entered; CloseCalled; CloseEnded false; CloseCalled; Left; Entered]).
Proof. vm_compute. reflexivity. Qed.

(** A forced close gives the close away before it is terminal: another call
    closes the strategy after the manager has been released. *)
Example forced_close_overtaken :
  reached ([spawn 1 (open_spider_sync (Some (Spider 8 "")) None)] ++ go 0 7 ++ [spawn 2 (close_spider_sync None)] ++ go 1 2 ++ go 0 2 ++ go 1 1) [bad] =
  Some ([inl (Raise EValue); inr Calling], [CloseCalled; Released; CloseEnded false; CloseCalled]).
Proof. vm_compute. reflexivity. Qed.
End Examples.
End PipelineRuns.
